(* ===== verification/_CoqProject ===== *)
-Q . S2P
Prelude.v
BTree.v
Fixed.v
Order.v
OrderBook.v
Sweep.v
BookInv.v
BookOps.v
Purge.v
Change.v
Execute.v
Depth.v
Book.v
BookSpec.v
MatchEvent.v
StateMachine.v
StateInv.v
StateReads.v
Replica.v
StateSpec.v
NumericSpec.v
SnapshotFile.v
MarketMessage.v
Wire.v
WireSpec.v
ShadowBook.v
MarketData.v
MarketDataSpec.v
BarSpec.v
LogStore.v
LogStoreInv.v
LogRecover.v
LogOps.v
LogWrite.v
LogCut.v
LogStoreSpec.v
LogSync.v
LogSyncSpec.v
Api.v
Freeze.v
FreezeSpec.v
ApiSpec.v
Client.v
ClientSpec.v
Desk.v
DeskSpec.v
MdProtocol.v
MdFeed.v
MdFeedSpec.v
MdStreamSpec.v
MdSession.v
MdSessionSpec.v
Bridge.v
BridgeSpec.v
MdSource.v
MdSourceSpec.v
Transport.v
TransportSpec.v
Node.v
NodeSpec.v
Console.v
ConsoleSpec.v
MdServer.v
NodeConfig.v
Sinks.v
SinksSpec.v
DeskServer.v
Calls.v
AeronPub.v
Reads.v
ReadsSpec.v
