(* ===== verification/Prelude.v ===== *)
(** * matchengine-raft: a verification development of the replicated matching engine

    ** The program

    A node of the cluster runs one limit order book for one symbol as the state machine of a Raft
    log. Its own logic is, from the inside out:

    - [src/src/order_book/fixed.rs]: 18-decimal fixed-point numbers over [i128] with a 256-bit
      intermediate, their text form, and the symbol configuration (ticks, lots, assets, fee policy);
    - [src/src/order_book/mod.rs]: orders, book keys, fills with fees, and the order book: the sweep
      of the opposite side, resting, icebergs, post-only, IOC/FOK/GTD/Day, parked stops and their
      cascade, cancel, amend, the expiry purge with its deadline index, aggregated depth and the
      depth journal the market-data feed is fed from;
    - [src/src/match_result/mod.rs] and [src/src/store/types.rs]: the events an entry produces and
      the requests and responses of the state machine;
    - [src/src/store/state_machine.rs]: applying a request, a batch and an entry; the retained event
      window and its paging; the client-order-id dedupe map; symbol configuration and its lock; the
      snapshot content, its installation and the crash-safe snapshot file;
    - [src/src/market_data/mod.rs] and [src/src/market_data/wire.rs]: the market-data feed: the
      frames an entry hands to it, the shadow book that replays the depth journal, the processor
      that publishes trades, depth, best prices, lifecycle records and bars, its takeover by
      snapshot, and the binary form of its messages;
    - [src/src/store/log_store.rs]: the write-ahead log: checksummed frames in numbered segments,
      their recovery, and the index, vote and purge marker openraft reads;
    - [src/src/network/api.rs]: the HTTP edge: what is validated, guarded and stamped before a request
      may enter the log, the named reads, and the event pages with their long poll;
    - [src/src/client.rs]: the client with its retries and its pursuit of the leader;
    - [src/demos/order_system]: the order desk, a client with tickets, freeze estimates ([freeze.rs])
      and a ledger of the leverage of perpetual orders ([state.rs]);
    - [src/demos/market_data_system/src]: the market-data service, the consumer of the feed: stream
      names and payloads ([protocol.rs]), the depth cache conflated at two speeds and what it publishes
      ([feed.rs]), the WebSocket sessions that subscribe to it ([session.rs]), its sources
      ([source.rs], [aeron_source.rs]) and its start and connections ([main.rs], [server.rs]);
    - [src/src/network]: the gRPC transport between nodes with its snapshot stream and its stream of
      events ([grpc]), the health report ([health.rs]), the console's views and guarded actions
      ([console.rs]) and the membership endpoints ([management.rs]);
    - [src/src/lib.rs]: the node's background tasks: the watch that steers the feed by leadership and
      the snapshot timer; [src/src/store/config.rs] and [src/src/main.rs]: a node's settings and paths;
    - [src/src/bin/events_bridge.rs]: the sidecar that copies the event log to a file.

    Raft itself (openraft) decides the order of the entries; every replica applies the same entries
    with [apply], so what is proved of [apply_entry] for an arbitrary store holds on each of them.

    ** The files

    - [Prelude]: this header, machine-width integers with their wrap-around ([wrap_i128],
      [wrap_u64], [wrap_u32]), the result of a computation that may panic ([Comp]) with its bind,
      Rust's [Result], bounded and unbounded loops ([loop], [runs]) with the lemmas that relate
      them, list lemmas, and the development's tactics and hint database;
    - [BTree]: the standard library's [BTreeMap] as its sorted sequence of entries, against the
      interface [Ord] and its laws [OrdLaws];
    - [Fixed]: [fixed.rs]. The third-party [i256] crate is the class [I256Ops]; [I256Laws] states its
      documented exactness, and [I256_Z] is an instance. Strings are lists of code points;
    - [Order]: the first half of [order_book/mod.rs]: [Order], the keys [BidKey] and [AskKey] with
      their [Ord], the class [BookKey] by which both sides share one sweep, [MatchErrors],
      [MatchResult::new_with_policy], [validate_order] and [validate_order_for_symbol];
    - [OrderBook]: [OrderBook] and every operation of it, same names as in the source. One turn of
      the [while] loop of [sweep_side] is [sweep_step]; [execute_order_inner] is cut at its own
      comments into [normalize_order], the purge and [execute_admitted];
    - [Sweep], [BookInv], [BookOps], [Purge], [Change], [Execute], [Depth], [Book]: the theory of the
      book: the sweep as a relation, the invariant [book_inv], what resting, purging, cancelling,
      amending, executing and the stop cascade do to it and to volumes, levels and the journal, the
      reference for [depth], and the step relation [book_step] with reachability;
    - [BookSpec]: the theorems of the book;
    - [MatchEvent]: events, requests and responses;
    - [StateMachine]: [StateMachineStoreInner] and its operations. [apply_one] is cut into its match
      arms; log ids, memberships and their stored form come from openraft and are the class
      [RaftTypes]; serde and postcard are the parameters [encode_content] and [decode_content]; what
      leaves the lock (events to publish, feed resets) is returned as [Effects]; what differs from
      node to node (feed control, wall clock) is [NodeLocal];
    - [StateInv], [StateReads]: the invariant [sm_ok] and what every request does to it, and what
      retries, pages and snapshots read back;
    - [Replica]: agreement of replicas ([agree]) and that every operation preserves it;
    - [StateSpec]: the theorems of the state machine;
    - [NumericSpec]: the theorems of the arithmetic, its text form and the fill;
    - [SnapshotFile]: the framing of the snapshot file, its decoder and its writer as the sequence of
      directories after each system call; CRC32 is the class [Crc32] with [Crc32Laws];
    - [MarketMessage]: the records and messages of the feed, with the ranges of their fields;
    - [Wire]: [encode] and [decode] of [wire.rs], byte by byte; [Decode] is the decoder's state and
      error monad, [Decoder] its bytes and offset. [WireSpec]: its theorems;
    - [ShadowBook]: the feed's copy of the aggregated book and the theorem that it follows the book
      through the journal ([Pipeline]: the book, the entries under way, the shadow book);
    - [MarketData]: the processor, its shared atomics and handles ([Shared]), the tap's bounded
      queue. [ingest] is cut at its own comments into [note_frame] and [publish_frame] and the
      latter into one function per kind of message; [run_turn] is one turn of the task's loop;
    - [MarketDataSpec], [BarSpec]: what a frame publishes, takeover, message keys, depth deltas, and
      the bars against their reference definition;
    - [LogStore]: [Inner] with its [Disk] and [RuntimeState] as one record over a directory
      ([WalDir]), and every operation that changes it or reads from it, same names as in the source
      ([open_log] is [open_with_segment_size_and_fsync]). openraft's ids, votes and entries are the
      class [RaftLogTypes], postcard is [WalCodec] with [WalCodecLaws];
    - [LogStoreInv], [LogRecover], [LogOps], [LogWrite], [LogCut]: the theory of the log: what a
      sequence of frames reads back as, chains of entries with consecutive indices, what recovery
      does to whole and to damaged segments, the invariant [wal_ok] of a store and its directory,
      the abstract log ([Log], [implements]), and one lemma per operation;
    - [LogStoreSpec]: the operations as one type [WalOp], their abstract counterparts [spec_op], the
      runs [wal_run], the directories a crash leaves, and the theorems;
    - [LogSync], [LogSyncSpec]: the log with the bytes of each segment that are durable: where every
      operation syncs under its policy, the periodic task one step at a time ([fsync_tick],
      [fsync_clone], [fsync_done]) between any operations, what a crash leaves ([crash_image]); the
      runs [synced_run], their invariant [sync_ok] and the theorems;
    - [Api], [ApiSpec]: the edge. The texts of errors are the constructors of [EdgeError], a JSON text
      is the value it encodes ([ReadState]), what a handler knows of its node is [EdgeNode], and a
      long poll is a list of turns, each with the store as it then is;
    - [Freeze], [FreezeSpec]: the freeze and settlement estimates against what execution can draw;
    - [Client], [ClientSpec]: the two request loops over the class [Transport] (one exchange takes the
      state of everything beyond the socket to the next), and their composition with a replica:
      [Engine] is a leader behind a network whose [Fate]s lose, replace or misdirect attempts;
    - [Desk], [DeskSpec]: the desk as actions ([Act], an error monad over the backend and the world)
      against the class [EngineClient]; [desk_engine] is its instance over the edge and a replica;
    - [MdProtocol]: the names of streams and their parser, bar labels, payloads as records of their
      fields; [MdFeed]: the depth cache, the conflation windows, the registry of streams with their
      receivers and [Feed], whose loop is [feed_run] over messages and ticks; [MdFeedSpec]: its
      theorems, one of them end to end with the processor of [MarketData]; [MdStreamSpec]: what the
      names of streams mean to the feed;
    - [MdSession], [MdSessionSpec]: a session with the tasks that forward its streams; everything its
      [select!] can wake on, and what other sessions do to the registry, is a [SessionEvent], and
      [session_run] folds [run_event] over any list of them;
    - [MdSource], [MdSourceSpec]: the JSON lines reader over a file that grows, and the subscriber's
      polling, with the arrival of frames as events;
    - [Bridge], [BridgeSpec]: a turn of the bridge with the directories its system calls leave, its
      restarts and crashes as the relation [bridge_step] over a history of events of which any store
      retains a suffix ([apply_entry_extends]: the state machine is such a source);
    - [Transport], [TransportSpec]: a stream is the list of what its receiver reads, a status is its
      [Code]; the feed of [full_snapshot] and the loop of [install_snapshot] ([install_stream]), one
      atomic step of either task of the append stream ([append_step]) in any order, and
      [stream_events] over the long poll of [Api]; postcard and JSON are parameters;
    - [Node], [NodeSpec]: openraft's metrics as a record ([NodeMetrics]), a turn of the watch
      ([watch_refresh], [watch_select]) over the shared state of [MarketData], the timer, the health
      report; the theorems put the watch and the processor together;
    - [Console], [ConsoleSpec]: the node snapshot, the cluster view over its peers' answers in the
      order they come in, and an action as the step that takes the lock ([begin_action]) and the one
      that records and releases it ([finish_action]), interleaved by [console_step];
    - [MdServer]: the service's symbols, sources and start, its readiness, and [connect] with the
      counter it shares with other workers as the steps of [gate_step], with their theorems;
    - [NodeConfig]: settings from the environment (a function from names to texts) and from the
      parsed command line ([Opt]), paths, and what the node hands its parts, with their theorems;
    - [Reads], [ReadsSpec]: the read handlers over what openraft tells them, in a [Cluster]: the
      committed log, a replica per node and the snapshots taken, under any order of commits, applies,
      captures, installs and restarts ([cluster_step]);
    - [Sinks], [SinksSpec]: publishing behind the lock, the sinks of match results ([BufWriter] included)
      and the feed's JSON lines sink with its writer task;
    - [DeskServer]: the desk's routes as one function ([serve]) over its actions;
    - [Calls]: the unary calls between nodes, both sides with what may become of the exchange, and the
      server of the append stream;
    - [AeronPub]: the Aeron sink with its publisher thread, composed with the subscriber of [MdSource].

    ** What the theorems show

    - The book is sound in every reachable state (priority order, uncrossed, unique numbers, deadline
      index, no electable stop left parked); every execution, cancel, amendment and purge keeps it.
    - An execution conserves volume on each side, trades in price-time priority, at the maker's
      price, with exact notionals and fees or a flagged overflow; a FOK order that is not
      post-only is all or nothing, post-only never takes, immediate orders that are not post-only never
      rest, a rejection leaves the orders alone, the stop cascade fires what it must and stops (or
      panics at a quote-sized stop).
    - The depth journal is exactly the difference of the aggregated book, and [depth] equals its
      reference definition; the indexed GTD purge equals the full purge.
    - Applying an entry keeps the replica sound and numbers its events without gaps; a retry is
      answered with the original response and no effect; pages of the event log cover the window;
      the symbol is fixed once trading starts; replicas with the same content answer the same log
      with the same responses and stay equal whatever their local settings, also when one of them
      was restored from a snapshot before the rest of the log; a snapshot restores the captured state even when the
      store moved on while it was written; the snapshot file is either the old or the new one after
      any crash, and a damaged one is refused with its own error.
    - The feed: from a complete reset on, the shadow book is the aggregated book behind the journal
      it has received, in every interleaving of requests and deliveries; a takeover publishes every
      accepted frame's trades once and none twice; message keys are unique; between a takeover and
      the next reset bars are the reference bars of their window; a message decodes to what was encoded, a decoded message is typed and
      typed messages of the wrong length are refused.
    - The write-ahead log refines an abstract log (vote, purge marker, entries) under every sequence
      of operations, failed writes and restarts; a crash inside an append, with the writes before
      it on disk, keeps everything before the batch and a prefix of it; without fsync on every append any bytes open, and files cut
      short only lose a front and a back of the log.
    - With fsync on, a crash loses only what was not synced ([LogSyncSpec]): under every
      sequence of operations, steps of the periodic task and earlier crashes, the log opens again with
      a prefix that has every entry whose record was durable; and once a sync of the task has returned,
      nothing that was in the log when it began, and was not purged since, is lost.
    - The edge admits exactly the well-formed batches of the configured symbol, and no order it
      admitted is refused for its symbol when it is applied; a long poll answers with the first turn
      that has news.
    - A request of the client ends within its retries. A write with a fresh client order id
      executes at most once whatever the network does to its attempts, while no other write comes between
      them and the event window has room for its own events, and a response is the response of that one
      execution: client, edge, state machine and dedupe map together.
    - The desk shows a sound engine's book as it is, sorted and aggregated on its own side; a spot
      limit ticket's freeze, with amounts up to [LARGEST], covers everything its execution can draw; every leverage it remembers is admissible.
    - The market-data service: a client that applies the diffs of one speed is right about every price
      after each of them, whatever was conflated ([conflation_loses_nothing]); a message is consumed at
      most once; every published stream can be subscribed by its name; a session stays within its
      limits and leaves the shared registry exactly as the others hold it; every symbol on the command
      line has its feed and its entry; the connection counter counts the sessions; the rate limiter admits its
      limit and never more than twice as much in a second; the sources keep the order of a stream.
    - The bridge delivers every event behind its first checkpoint at least once, through any crashes,
      restarts and evictions that do not cut the first line of a page, and stops rather than skip one.
    - Between nodes: a snapshot is installed whole or not at all wherever its stream is cut, and what
      any peer streams is bounded and contiguous; the derived address is the same everywhere; a stream
      of event pages never skips an event unless a page shows it; the feed's gate and header follow
      the leadership the watch saw last; the cluster view does not depend on the order its peers
      answer in; console actions run one at a time.
    - Linearizable and follower reads are linearizable on every node, given openraft's promise of a read
      index and of the wait for it, for every key but [marketdata_status], which reports on the node
      itself: a value is the view of one prefix of the committed log that has everything committed when
      the read began. Local reads and event pages are views of a prefix too.
    - What a node publishes to its sink is its event log, in order; the sinks never reorder or repeat. What
      Aeron delivers of a stream is what was published on it, in order, with losses.
    - A request that only looks never writes to an engine, and a forged action reaches neither ledger nor
      engine. A call between nodes executes at most once and its response is the peer's.
    - The directories of two nodes are kept apart; without fsync the binary's node admits no write
      below four voters.
    - The numbers: checked multiplication and division are exact, text round-trips, rounding to
      steps and decimals is tight, error sets round-trip.
    - Where the code does something its authors may not have meant, a theorem says so:
      [rejected_place_drops_expired], [from_str_accepts_inner_sign], [truncate_crash_blocks_open],
      [recovery_accepts_hole], the excluded value of [fixed_text_roundtrip], [depth_delta_post_batch] (an emptied level is never announced),
      [truncated_reset_diverges] (a reset with fewer levels than the book has), [freeze_wraps_negative]
      (a freeze near the top of the range), [leverage_lost_while_open] and the last part of
      [desk_errors_keep_ledger] (the desk forgets the leverage of an open order), [diff_ranges_jump]
      (the update ids of one speed skip those of the other), [emptied_level_survives] (a level the
      book has emptied stays in the service's depth), [slow_stream_goes_silent] (a slow client is not
      closed, its stream dies), [interval_alias_is_deaf] (accepted names nothing is published on),
      [cross_stream_race] (a delta that overtakes its snapshot is lost), [torn_first_line_is_lost]
      (what a crash inside the first line of a page costs), [periodic_reset_loses_queued] (the feed's
      own reset timer drops the trades in its queue and the open bars), [idle_wait_never_times_out] (a
      request on an idle append stream has no deadline), [unmatched_target_passes] (leadership may be
      handed to a voter without a log), [idle_stream_floods] (empty pages without end),
      [recovered_segments_stay_unsynced] (what the periodic task leaves unsynced after a restart),
      [connection_limit_exceeded] (two workers may both pass the check of the limit),
      [stall_drops_silently] (a stalled publication loses messages without a gap), [newline_can_be_lost] and
      [default_needs_four] (the default configuration asks for four voters).

    ** Modelling choices

    - A value of a machine type is a [Z] with its range; [wrap_*] is written where a release build
      wraps (the crate does not enable overflow checks). [Comp] separates a panic ([expect], indexing)
      from a result; [Diverged] is only produced by a loop that exhausts its fuel.
    - Fuel: [sweep_side] gets one turn per resting order plus one per unit of hidden reserve (a turn
      that continues removes a maker or draws from a reserve), which [sweep_side_terminates] shows to
      be enough against the unbounded [runs]; [run_stops] gets one turn per parked stop; printing a
      [u128] gets 39 digits. No theorem assumes that fuel suffices.
    - The theorems about sequence numbers assume the 64-bit counter has not been used up, those
      about event numbers that one entry produces at most [u32::MAX] events.
    - The feed's atomics are read and written one operation of a handle or of the processor at a
      time; [run_turn] and [tap_publish] are such operations. Its sink keeps what it is given
      ([p_sent]): the source logs a sink's error and goes on.
    - The log's system calls take effect in order. The write and the fsync of an append or a commit
      marker may fail, at any byte; truncating a file back, deleting a file and creating a segment
      succeed. In [LogSync] a crash keeps of every file a prefix that has its durable bytes, the state
      file is durable when it is written, the operations' own syncs succeed, the task's may fail, and
      the writes of commit markers succeed. A crash of an append is a directory in which any prefix of its writes took effect.
      [recover_loop] gets one turn per byte of the file (a frame has eight at least), [read_runs]
      one per location.
    - The freeze theorems bound the raw amounts by [LARGEST], 2^125, under which no sum of them wraps.
    - The snapshot feed gets one turn per byte of the data (a chunk carries one at least); the history's
      trimming gets one per record.
    - The client's loops get one turn per retry of either kind and one more; [forwarding_ends] says
      that this is enough. Delays are only recorded in the trace.
    - [order_typed] and [request_typed] say that the numeric fields are values of their Rust types;
      they exclude nothing a client can send.

    ** Not modelled

    The async runtime and locks (an entry is applied under one lock, which is what [apply_entry] is;
    the log's mutations are serialised by [write_order]), the spawning of the feed's task, the log's cached read handles, floating-point conversions of [Fixed] (used at the edges only), the
    serde visitors, openraft itself, static pages, the parsing of command lines, the wiring of a node
    and its shutdown, the Aeron driver and client, the listeners of the web servers, and benches, examples and fuzz targets: what is left there is
    input and output around third-party code. *)
From Stdlib Require Export ZArith Lia Sorting.Sorted.
From stdpp Require Export base tactics list option numbers.
Export list_basics.list list_relations.list list_monad.list list_misc.list list_tactics.list list_numbers.list.

#[global] Set Default Goal Selector "!".

(** ** Scopes and automation *)

Declare Scope engine_scope.
Delimit Scope engine_scope with engine.
#[global] Open Scope Z_scope.

Create HintDb engine.

(** Case analysis on the discriminee of the first [match] or [if] found in a hypothesis or in the
    goal, remembering the equation. *)
Ltac break_in H :=
  match type of H with
  | context [match ?x with _ => _ end] =>
      lazymatch x with
      | context [match _ with _ => _ end] => fail
      | _ => destruct x eqn:?
      end
  end.

Ltac break_goal :=
  match goal with
  | |- context [match ?x with _ => _ end] =>
      lazymatch x with
      | context [match _ with _ => _ end] => fail
      | _ => destruct x eqn:?
      end
  end.

(** Step over a failed guard: [H] is [(if c then reject else ...) = accept]. *)
Tactic Notation "pass_guard" "in" ident(H) "as" ident(E) :=
  match type of H with (if ?c then _ else _) = _ => destruct c eqn:E; [done|] end.

(** Turn boolean tests on integers into propositions [lia] understands. *)
Ltac bool_lia :=
  repeat match goal with
  | H : (_ && _)%bool = true |- _ => apply andb_prop in H as [? ?]
  | H : (_ || _)%bool = false |- _ => apply orb_false_elim in H as [? ?]
  | H : negb _ = true |- _ => apply negb_true_iff in H
  | H : negb _ = false |- _ => apply negb_false_iff in H
  end; lia.

(** ** Machine integers

    A [w]-bit integer is a [Z]; what the source does at the width (wrap, check or saturate) is
    written out at each use. *)

Definition I128_MAX : Z := 170141183460469231731687303715884105727.
Definition I128_MIN : Z := -170141183460469231731687303715884105728.
Definition U64_MAX : Z := 18446744073709551615.
Definition U32_MAX : Z := 4294967295.

Definition in_i128 (z : Z) : Prop := I128_MIN <= z <= I128_MAX.
Definition in_i128b (z : Z) : bool := (I128_MIN <=? z) && (z <=? I128_MAX).
Definition in_u64 (z : Z) : Prop := 0 <= z <= U64_MAX.

(** [u64::saturating_add]. *)
Definition saturating_add_u64 (a b : Z) : Z := Z.min (a + b) U64_MAX.

Definition wrap_i128 (z : Z) : Z := (z - I128_MIN) mod (2 ^ 128) + I128_MIN.
Definition wrap_u64 (z : Z) : Z := z mod (2 ^ 64).
Definition wrap_u32 (z : Z) : Z := z mod (2 ^ 32).

Definition checked_i128 (z : Z) : option Z := if in_i128b z then Some z else None.
Definition saturate_i128 (z : Z) : Z := Z.max I128_MIN (Z.min I128_MAX z).

Lemma in_i128b_spec z : in_i128b z = true <-> in_i128 z.
Proof. unfold in_i128b, in_i128. rewrite andb_true_iff, !Z.leb_le. done. Qed.

Lemma in_i128b_false z : in_i128b z = false <-> ~ in_i128 z.
Proof. rewrite <- in_i128b_spec. destruct (in_i128b z); naive_solver. Qed.

#[global] Instance in_i128_dec z : Decision (in_i128 z).
Proof.
  refine (match in_i128b z as b return in_i128b z = b -> _ with
          | true => fun E => left (proj1 (in_i128b_spec z) E)
          | false => fun E => right (proj1 (in_i128b_false z) E)
          end eq_refl).
Defined.

Lemma wrap_i128_id z : in_i128 z -> wrap_i128 z = z.
Proof.
  unfold in_i128, wrap_i128, I128_MIN, I128_MAX. intros ?.
  rewrite Z.mod_small; lia.
Qed.

Lemma wrap_i128_range z : in_i128 (wrap_i128 z).
Proof.
  unfold in_i128, wrap_i128, I128_MIN, I128_MAX.
  pose proof (Z.mod_pos_bound (z - -170141183460469231731687303715884105728) (2 ^ 128) eq_refl).
  change (2 ^ 128) with 340282366920938463463374607431768211456 in *. lia.
Qed.

Lemma wrap_i128_le z : 0 <= z -> wrap_i128 z <= z.
Proof.
  unfold wrap_i128, I128_MIN. intros ?.
  pose proof (Z.mod_le (z - -170141183460469231731687303715884105728) (2 ^ 128)).
  change (2 ^ 128) with 340282366920938463463374607431768211456 in *. lia.
Qed.

Lemma wrap_u64_id z : in_u64 z -> wrap_u64 z = z.
Proof. unfold in_u64, wrap_u64, U64_MAX. intros ?. apply Z.mod_small. lia. Qed.

Lemma checked_i128_Some z y : checked_i128 z = Some y <-> in_i128 z /\ y = z.
Proof.
  unfold checked_i128. destruct (in_i128b z) eqn:E.
  - apply in_i128b_spec in E. naive_solver.
  - apply in_i128b_false in E. naive_solver.
Qed.

Lemma checked_i128_None z : checked_i128 z = None <-> ~ in_i128 z.
Proof.
  unfold checked_i128. destruct (in_i128b z) eqn:E.
  - apply in_i128b_spec in E. naive_solver.
  - apply in_i128b_false in E. naive_solver.
Qed.

Lemma saturate_i128_range z : in_i128 (saturate_i128 z).
Proof. unfold saturate_i128, in_i128, I128_MIN, I128_MAX. lia. Qed.

#[export] Hint Resolve wrap_i128_range saturate_i128_range : engine.

(** Linear arithmetic with the bounds of the machine types unfolded. *)
Ltac range_lia :=
  unfold in_i128, in_u64, I128_MIN, I128_MAX, U64_MAX in *; lia.

(** Truncating division moves towards zero, so it never leaves the range of its dividend. *)
Lemma quot_between a b : 0 < b -> Z.min 0 a <= Z.quot a b <= Z.max 0 a.
Proof.
  intros Hb.
  assert (Hpos : forall c, 0 <= c -> 0 <= Z.quot c b <= c).
  { intros c Hc. rewrite Z.quot_div_nonneg by lia.
    pose proof (Z.div_pos c b). pose proof (Z.div_le_upper_bound c b c). nia. }
  destruct (Z.le_gt_cases 0 a) as [Ha|Ha]; [specialize (Hpos a Ha); lia|].
  specialize (Hpos (- a)). rewrite Z.quot_opp_l in Hpos by lia. lia.
Qed.

Lemma quot_in_i128 a b : 0 < b -> in_i128 a -> in_i128 (Z.quot a b).
Proof.
  intros Hb. pose proof (quot_between a b Hb). unfold in_i128, I128_MIN, I128_MAX. lia.
Qed.

(** ** Computations that can panic

    [Ret] is a returned value, [Panic] is a Rust panic ([expect], an arithmetic [expect] in an
    operator), and [Diverged] marks a loop that ran out of its fuel; the theorems show that no
    loop of the engine does. *)

Inductive Comp (A : Type) : Type :=
| Ret (a : A)
| Panic
| Diverged.
Arguments Ret {A} a.
Arguments Panic {A}.
Arguments Diverged {A}.

Definition comp_bind {A B} (f : A -> Comp B) (m : Comp A) : Comp B :=
  match m with
  | Ret a => f a
  | Panic => Panic
  | Diverged => Diverged
  end.

#[global] Instance Comp_ret : MRet Comp := @Ret.
#[global] Instance Comp_bind : MBind Comp := @comp_bind.

Notation "'let*' x := m 'in' k" := (comp_bind (fun x => k) m)
  (at level 10, x name, m at level 100, k at level 200) : engine_scope.
Notation "'let*' ' p := m 'in' k" := (comp_bind (fun x => match x with p => k end) m)
  (at level 10, p pattern, m at level 100, k at level 200) : engine_scope.
#[global] Open Scope engine_scope.

(** [Option::expect]. *)
Definition expect {A} (o : option A) : Comp A :=
  match o with Some a => Ret a | None => Panic end.

Lemma comp_bind_Ret {A B} (f : A -> Comp B) m b :
  comp_bind f m = Ret b <-> exists a, m = Ret a /\ f a = Ret b.
Proof. destruct m; simpl; naive_solver. Qed.

Lemma comp_bind_Panic {A B} (f : A -> Comp B) m :
  comp_bind f m = Panic <-> m = Panic \/ exists a, m = Ret a /\ f a = Panic.
Proof. destruct m; simpl; naive_solver. Qed.

Lemma comp_bind_Diverged {A B} (f : A -> Comp B) m :
  comp_bind f m = Diverged <-> m = Diverged \/ exists a, m = Ret a /\ f a = Diverged.
Proof. destruct m; simpl; naive_solver. Qed.

(** [Result<T, E>]. *)
Inductive Result (A E : Type) : Type :=
| Ok (a : A)
| Err (e : E).
Arguments Ok {A E} a.
Arguments Err {A E} e.

(** ** Loops

    A [while] loop is a [step] function that either continues with a new state ([inl]) or leaves
    the loop with a result ([inr]). [loop] runs it with binary fuel: the cost is the number of
    turns taken, not the fuel, so a loop with an astronomically large bound still evaluates.
    [runs] is the same loop as a relation, for rule induction. *)
Section Loops.
Context {S R : Type} (step : S -> S + R).

Fixpoint loop (fuel : positive) (s : S) : S + R :=
  match fuel with
  | xH => step s
  | xO p => match loop p s with inl s' => loop p s' | inr r => inr r end
  | xI p =>
      match step s with
      | inl s' => match loop p s' with inl s'' => loop p s'' | inr r => inr r end
      | inr r => inr r
      end
  end.

Inductive runs : S -> R -> Prop :=
| runs_done s r : step s = inr r -> runs s r
| runs_next s s' r : step s = inl s' -> runs s' r -> runs s r.

(** The state after [n] turns, if the loop has not stopped. *)
Inductive turns : Z -> S -> S -> Prop :=
| turns_0 s : turns 0 s s
| turns_S n s s' s'' : step s = inl s' -> turns n s' s'' -> turns (n + 1) s s''.

Lemma turns_app n m s s' s'' : turns n s s' -> turns m s' s'' -> turns (n + m) s s''.
Proof.
  induction 1 as [|n a b c Hs _ IH]; intros Hm; [done|].
  replace (n + 1 + m) with (n + m + 1) by lia. econstructor; eauto.
Qed.

Lemma turns_runs n s s' r : turns n s s' -> runs s' r -> runs s r.
Proof. induction 1; eauto using runs. Qed.

Lemma loop_spec fuel s :
  match loop fuel s with
  | inl s' => turns (Z.pos fuel) s s'
  | inr r => runs s r
  end.
Proof.
  revert s. induction fuel as [p IH|p IH|]; intros s; simpl.
  - destruct (step s) as [s1|r] eqn:E1; [|by constructor].
    pose proof (IH s1) as H1. destruct (loop p s1) as [s2|r] eqn:E2.
    + pose proof (IH s2) as H2. destruct (loop p s2) as [s3|r] eqn:E3.
      * replace (Z.pos p~1) with (Z.pos p + Z.pos p + 1) by lia.
        econstructor; eauto using turns_app.
      * eapply runs_next; eauto using turns_runs.
    + eapply runs_next; eauto.
  - pose proof (IH s) as H1. destruct (loop p s) as [s2|r] eqn:E2; [|done].
    pose proof (IH s2) as H2. destruct (loop p s2) as [s3|r] eqn:E3.
    + replace (Z.pos p~0) with (Z.pos p + Z.pos p) by lia. eauto using turns_app.
    + eauto using turns_runs.
  - destruct (step s) as [s1|r] eqn:E; [|by constructor].
    replace 1 with (0 + 1) by lia. econstructor; eauto using turns.
Qed.

Lemma loop_runs fuel s r : loop fuel s = inr r -> runs s r.
Proof. intros E. pose proof (loop_spec fuel s). by rewrite E in *. Qed.

Lemma runs_det s r r' : runs s r -> runs s r' -> r = r'.
Proof.
  intros H. revert r'. induction H as [s r E|s s' r E _ IH]; intros r' H';
    inversion H' as [? ? E'|? ? ? E']; subst; rewrite E in E'; simplify_eq; eauto.
Qed.

(** A non-negative measure that decreases on every turn bounds the number of turns. *)
Lemma loop_terminates (measure : S -> Z) fuel s :
  (forall s, 0 <= measure s) ->
  (forall s s', step s = inl s' -> measure s' < measure s) ->
  measure s < Z.pos fuel ->
  exists r, loop fuel s = inr r.
Proof.
  intros Hpos Hdec Hfuel. pose proof (loop_spec fuel s) as H.
  destruct (loop fuel s) as [s'|r]; [|eauto]. exfalso.
  assert (Hn : measure s' <= measure s - Z.pos fuel).
  { clear Hfuel. induction H as [|n a b c Hs _ IH]; [lia|].
    specialize (Hdec _ _ Hs). lia. }
  specialize (Hpos s'). lia.
Qed.
End Loops.

(** ** Lists *)

Definition sum_Z (l : list Z) : Z := foldr Z.add 0 l.

Lemma sum_Z_app l1 l2 : sum_Z (l1 ++ l2) = sum_Z l1 + sum_Z l2.
Proof. induction l1; simpl; lia. Qed.

Lemma sum_Z_nonneg l : Forall (fun z => 0 <= z) l -> 0 <= sum_Z l.
Proof. induction 1; simpl; lia. Qed.

(** [Iterator::position]. *)
Fixpoint position {A} (p : A -> bool) (l : list A) : option nat :=
  match l with
  | [] => None
  | x :: l => if p x then Some 0%nat else S <$> position p l
  end.

(** [Vec::remove] at a valid index: the element and the rest. *)
Definition vec_remove {A} (i : nat) (l : list A) : option (A * list A) :=
  match l !! i with
  | Some x => Some (x, take i l ++ drop (S i) l)
  | None => None
  end.

Lemma position_Some {A} (p : A -> bool) l i :
  position p l = Some i -> exists x, l !! i = Some x /\ p x = true.
Proof.
  revert i. induction l as [|x l IH]; intros i; simpl; [done|].
  destruct (p x) eqn:E.
  - intros [= <-]. eauto.
  - destruct (position p l) as [j|]; simpl; [|done]. intros [= <-]. simpl. eauto.
Qed.

Lemma position_None {A} (p : A -> bool) l :
  position p l = None <-> Forall (fun x => p x = false) l.
Proof.
  induction l as [|x l IH]; simpl; [split; eauto|].
  rewrite Forall_cons, <- IH. destruct (p x) eqn:E; [naive_solver|].
  destruct (position p l); simpl; naive_solver.
Qed.

Lemma position_first {A} (p : A -> bool) l i :
  position p l = Some i -> Forall (fun x => p x = false) (take i l).
Proof.
  revert i. induction l as [|x l IH]; intros i; simpl; [done|].
  destruct (p x) eqn:E.
  - intros [= <-]. constructor.
  - destruct (position p l) as [j|]; simpl; [|done]. intros [= <-]. simpl. eauto.
Qed.

Lemma vec_remove_Permutation {A} i (l : list A) x l' :
  vec_remove i l = Some (x, l') -> l ≡ₚ x :: l'.
Proof.
  unfold vec_remove. destruct (l !! i) as [y|] eqn:E; [|done]. intros [= -> <-].
  rewrite <- (take_drop_middle l i x E) at 1. by rewrite Permutation_middle.
Qed.

(** [Iterator::take_while]. *)
Fixpoint take_while {A} (p : A -> bool) (l : list A) : list A :=
  match l with
  | [] => []
  | x :: l' => if p x then x :: take_while p l' else []
  end.

Lemma strongly_sorted_app {A} (R : A -> A -> Prop) l1 l2 :
  StronglySorted R l1 -> StronglySorted R l2 ->
  (forall a b, a ∈ l1 -> b ∈ l2 -> R a b) -> StronglySorted R (l1 ++ l2).
Proof.
  intros H1 H2 Hx. induction H1 as [|a l1 _ IH Hf]; simpl; [done|].
  constructor; [apply IH; intros; apply Hx; [by right|done]|].
  apply Forall_app. split; [done|]. rewrite Forall_forall. intros b ?. apply Hx; [left|done].
Qed.

Lemma submseteq_NoDup {A} (l k : list A) : l ⊆+ k -> NoDup k -> NoDup l.
Proof. intros [k' ->]%submseteq_Permutation. by intros [? _]%NoDup_app. Qed.

Lemma suffix_submseteq {A} (l k : list A) : l `suffix_of` k -> l ⊆+ k.
Proof. intros [pre ->]. by apply submseteq_inserts_l. Qed.

Lemma strongly_sorted_impl {A} (R R' : A -> A -> Prop) l :
  (forall a b, R a b -> R' a b) -> StronglySorted R l -> StronglySorted R' l.
Proof.
  intros Hi. induction 1 as [|a l _ IH Hf]; constructor; [done|].
  eapply Forall_impl; [exact Hf|]. eauto.
Qed.

Lemma filter_Forall {A} (P Q : A -> Prop) `{forall x, Decision (Q x)} (l : list A) :
  Forall P l -> Forall P (filter Q l).
Proof. rewrite !Forall_forall. intros HP x [_ Hx]%list_elem_of_filter. by apply HP. Qed.

Lemma strongly_sorted_filter {A} (R : A -> A -> Prop) (P : A -> Prop) `{!forall x, Decision (P x)} l :
  StronglySorted R l -> StronglySorted R (filter P l).
Proof.
  induction 1 as [|a l _ IH Ha]; [constructor|]. rewrite filter_cons. case_decide; [|done].
  constructor; [done|]. rewrite Forall_forall in Ha |- *.
  intros x [_ Hx]%list_elem_of_filter. auto.
Qed.

Lemma strongly_sorted_fmap {A B} (R : B -> B -> Prop) (f : A -> B) l :
  StronglySorted R (f <$> l) -> StronglySorted (fun a b => R (f a) (f b)) l.
Proof.
  induction l as [|x l IH]; simpl; [constructor|]. intros Hs. inversion Hs; subst.
  constructor; [eauto|]. by rewrite Forall_fmap in *.
Qed.

Lemma strongly_sorted_drop_middle {A} (R : A -> A -> Prop) l1 x l2 :
  StronglySorted R (l1 ++ x :: l2) -> StronglySorted R (l1 ++ l2).
Proof.
  induction l1 as [|y l1 IH]; simpl; inversion 1 as [|? ? Hs Hf]; subst; [done|].
  constructor; [by apply IH|]. rewrite Forall_app, Forall_cons in Hf. apply Forall_app. tauto.
Qed.

(** Filtering a list keeps the order of its first components. *)
Lemma strongly_sorted_filter_fst {A B} (R : A -> A -> Prop) (P : A * B -> Prop)
    `{!forall e, Decision (P e)} (l : list (A * B)) :
  StronglySorted R l.*1 -> StronglySorted R (filter P l).*1.
Proof.
  induction l as [|e l IH]; [done|]. rewrite fmap_cons. inversion 1 as [|? ? Hs Hf]; subst.
  rewrite filter_cons. case_decide; [|by apply IH]. rewrite fmap_cons. constructor; [by apply IH|].
  rewrite Forall_fmap in *. rewrite Forall_forall in *. intros x [_ Hx]%list_elem_of_filter. by apply Hf.
Qed.

Section Filters.
Context {A : Type} (P : A -> Prop) `{!forall x, Decision (P x)}.

Lemma list_filter_all (l : list A) : (forall x, x ∈ l -> P x) -> filter P l = l.
Proof.
  induction l as [|x l IH]; intros HP; [done|]. rewrite filter_cons, decide_True by (apply HP; left).
  f_equal. apply IH. intros y Hy. apply HP. by right.
Qed.

Lemma list_filter_none (l : list A) : (forall x, x ∈ l -> ~ P x) -> filter P l = [].
Proof.
  induction l as [|x l IH]; intros HP; [done|]. rewrite filter_cons, decide_False by (apply HP; left).
  apply IH. intros y Hy. apply HP. by right.
Qed.
End Filters.

Lemma strongly_sorted_app_inv {A} (R : A -> A -> Prop) l1 l2 :
  StronglySorted R (l1 ++ l2) ->
  StronglySorted R l1 /\ StronglySorted R l2 /\ forall x y, x ∈ l1 -> y ∈ l2 -> R x y.
Proof.
  induction l1 as [|z l1 IH]; simpl.
  - intros Hs. split_and!; [constructor|done|]. intros x y Hx. by apply not_elem_of_nil in Hx.
  - inversion 1 as [|? ? Hs Hf]; subst. destruct (IH Hs) as (H1 & H2 & H3).
    rewrite Forall_app in Hf. destruct Hf as [Hf1 Hf2]. split_and!; [by constructor|done|].
    intros x y [->|Hx]%elem_of_cons Hy; [|by apply H3]. rewrite Forall_forall in Hf2. by apply Hf2.
Qed.
