(* ===== verification/BTree.v ===== *)
(** * The standard library's [BTreeMap]

    The order book keeps each side in a [std::collections::BTreeMap], which only ever uses the
    key's [Ord::cmp]. The map is modelled as its in-order sequence of entries: a list of pairs
    whose keys strictly increase under [cmp]. The file gives the operations the engine uses
    ([insert], [remove], [get], [get_mut] followed by an assignment, in-order iteration) and the
    laws the book's theorems are proved against. *)

From S2P Require Import Prelude.

(** [Ord::cmp]. *)
Class Ord (K : Type) : Type := cmp : K -> K -> comparison.

(** What the documentation of [Ord] asks of an implementation: a total order. *)
Class OrdLaws (K : Type) `{Ord K} : Prop := {
  cmp_eq : forall a b, cmp a b = Eq <-> a = b;
  cmp_antisym : forall a b, cmp b a = CompOpp (cmp a b);
  cmp_trans : forall a b c, cmp a b = Lt -> cmp b c = Lt -> cmp a c = Lt;
}.

Section BTree.
Context {K V : Type} `{Ord K}.
Implicit Types (k : K) (v : V) (m : list (K * V)).

Definition key_lt (a b : K) : Prop := cmp a b = Lt.

(** The representation invariant: keys strictly increase. *)
Definition bt_sorted (m : list (K * V)) : Prop := StronglySorted key_lt m.*1.

Fixpoint bt_get k m : option V :=
  match m with
  | [] => None
  | (k', v) :: m => match cmp k k' with Eq => Some v | _ => bt_get k m end
  end.

Fixpoint bt_insert k v m : list (K * V) :=
  match m with
  | [] => [(k, v)]
  | (k', v') :: m' =>
      match cmp k k' with
      | Lt => (k, v) :: m
      | Eq => (k', v) :: m'
      | Gt => (k', v') :: bt_insert k v m'
      end
  end.

Fixpoint bt_remove k m : list (K * V) :=
  match m with
  | [] => []
  | (k', v') :: m => match cmp k k' with Eq => m | _ => (k', v') :: bt_remove k m end
  end.

(** [*map.get_mut(&k).unwrap() = v] on a present key. *)
Fixpoint bt_set k v m : list (K * V) :=
  match m with
  | [] => []
  | (k', v') :: m =>
      match cmp k k' with Eq => (k', v) :: m | _ => (k', v') :: bt_set k v m end
  end.

Definition bt_values (m : list (K * V)) : list V := m.*2.

Context `{!OrdLaws K}.

Lemma cmp_refl k : cmp k k = Eq.
Proof. by apply cmp_eq. Qed.

Lemma key_lt_irrefl k : ~ key_lt k k.
Proof. unfold key_lt. by rewrite cmp_refl. Qed.

#[global] Instance key_lt_trans : Transitive key_lt.
Proof. intros a b c. apply cmp_trans. Qed.

Lemma key_lt_gt a b : cmp a b = Gt <-> key_lt b a.
Proof. unfold key_lt. rewrite (cmp_antisym a b). destruct (cmp a b); naive_solver. Qed.

Lemma bt_sorted_cons k v m :
  bt_sorted ((k, v) :: m) <-> bt_sorted m /\ Forall (fun e => key_lt k e.1) m.
Proof.
  unfold bt_sorted. simpl. split.
  - intros Hs. inversion Hs as [|? ? ? Hf]; subst. by rewrite Forall_fmap in Hf.
  - intros [? ?]. constructor; [done|]. by rewrite Forall_fmap.
Qed.

Lemma bt_sorted_nil : bt_sorted [].
Proof. constructor. Qed.

Lemma bt_get_below k m : Forall (fun e => key_lt k e.1) m -> bt_get k m = None.
Proof.
  induction 1 as [|[k' v'] m Hk _ IH]; simpl in *; [done|].
  unfold key_lt in Hk. by rewrite Hk.
Qed.

Lemma bt_get_elem k v m : bt_sorted m -> bt_get k m = Some v <-> (k, v) ∈ m.
Proof.
  induction m as [|[k' v'] m IH]; simpl.
  - intros _. rewrite elem_of_nil. done.
  - intros [Hs Hf]%bt_sorted_cons. rewrite elem_of_cons, <- (IH Hs).
    destruct (cmp k k') eqn:E.
    + apply cmp_eq in E as ->. rewrite (bt_get_below k' m Hf). naive_solver.
    + split; [by right|]. intros [[= -> ->]|?]; [|done]. by rewrite cmp_refl in E.
    + split; [by right|]. intros [[= -> ->]|?]; [|done]. by rewrite cmp_refl in E.
Qed.

Lemma bt_get_None k m : bt_get k m = None -> Forall (fun e => e.1 <> k) m.
Proof.
  induction m as [|[k' v'] m IH]; simpl; [constructor|].
  destruct (cmp k k') eqn:E; [done|..]; intros ?; (constructor; [|eauto]);
    simpl; intros ->; by rewrite cmp_refl in E.
Qed.

Lemma bt_insert_fresh k v m : bt_get k m = None -> bt_insert k v m ≡ₚ (k, v) :: m.
Proof.
  induction m as [|[k' v'] m IH]; simpl; [done|].
  destruct (cmp k k') eqn:E; [done|done|]. intros G. rewrite (IH G).
  apply Permutation_swap.
Qed.

Lemma bt_insert_below k0 k v m :
  key_lt k0 k -> Forall (fun e => key_lt k0 e.1) m ->
  Forall (fun e => key_lt k0 e.1) (bt_insert k v m).
Proof.
  intros Hk. induction 1 as [|[k' v'] m ? ? IH]; simpl; [by repeat constructor|].
  destruct (cmp k k') eqn:E; repeat constructor; eauto.
Qed.

Lemma bt_insert_sorted k v m : bt_sorted m -> bt_sorted (bt_insert k v m).
Proof.
  induction m as [|[k' v'] m IH]; simpl; [intros _; repeat constructor|].
  intros Hs. pose proof Hs as [Hm Hf]%bt_sorted_cons.
  destruct (cmp k k') eqn:E; rewrite ?bt_sorted_cons.
  - done.
  - split; [by rewrite <- bt_sorted_cons|]. constructor; [done|].
    eapply Forall_impl; [exact Hf|]. intros e ?. by trans k'.
  - split; [eauto|]. apply bt_insert_below; [by apply key_lt_gt|done].
Qed.

Lemma bt_insert_get k v m : bt_get k (bt_insert k v m) = Some v.
Proof.
  induction m as [|[k' v'] m IH]; simpl; [by rewrite cmp_refl|].
  destruct (cmp k k') eqn:E; simpl; [by rewrite E|by rewrite cmp_refl|by rewrite E].
Qed.

Lemma bt_insert_get_ne k k' v m : k <> k' -> bt_get k' (bt_insert k v m) = bt_get k' m.
Proof.
  intros Hne. assert (Hc : cmp k' k <> Eq) by (intros ->%cmp_eq; done).
  induction m as [|[k0 v0] m IH]; simpl; [by destruct (cmp k' k)|].
  destruct (cmp k k0) eqn:E; simpl.
  - apply cmp_eq in E as ->. by destruct (cmp k' k0).
  - by destruct (cmp k' k).
  - by rewrite IH.
Qed.

Lemma bt_remove_Permutation k v m :
  bt_get k m = Some v -> m ≡ₚ (k, v) :: bt_remove k m.
Proof.
  induction m as [|[k' v'] m IH]; simpl; [done|].
  destruct (cmp k k') eqn:E.
  - apply cmp_eq in E as ->. by intros [= ->].
  - intros G. rewrite <- Permutation_swap. by rewrite <- (IH G).
  - intros G. rewrite <- Permutation_swap. by rewrite <- (IH G).
Qed.

Lemma bt_remove_incl k m e : e ∈ bt_remove k m -> e ∈ m.
Proof.
  induction m as [|[k' v'] m IH]; simpl; [done|].
  destruct (cmp k k'); rewrite ?elem_of_cons; naive_solver.
Qed.

Lemma bt_remove_Forall (P : K * V -> Prop) k m : Forall P m -> Forall P (bt_remove k m).
Proof. rewrite !Forall_forall. eauto using bt_remove_incl. Qed.

Lemma bt_remove_sorted k m : bt_sorted m -> bt_sorted (bt_remove k m).
Proof.
  induction m as [|[k' v'] m IH]; simpl; [done|].
  intros [Hm Hf]%bt_sorted_cons. destruct (cmp k k'); [done|..];
    rewrite bt_sorted_cons; eauto using bt_remove_Forall.
Qed.

Lemma bt_remove_get k m : bt_sorted m -> bt_get k (bt_remove k m) = None.
Proof.
  induction m as [|[k' v'] m IH]; simpl; [done|].
  intros [Hm Hf]%bt_sorted_cons. destruct (cmp k k') eqn:E; simpl.
  - apply cmp_eq in E as ->. by apply bt_get_below.
  - rewrite E. eauto.
  - rewrite E. eauto.
Qed.

Lemma bt_remove_get_ne k k' m : k <> k' -> bt_get k' (bt_remove k m) = bt_get k' m.
Proof.
  intros Hne. induction m as [|[k0 v0] m IH]; simpl; [done|].
  destruct (cmp k k0) eqn:E; simpl; destruct (cmp k' k0) eqn:E'; eauto.
  apply cmp_eq in E as ->. apply cmp_eq in E' as ->. done.
Qed.

Lemma bt_set_keys k v m : (bt_set k v m).*1 = m.*1.
Proof.
  induction m as [|[k' v'] m IH]; simpl; [done|]. destruct (cmp k k'); f_equal/=; eauto.
Qed.

Lemma bt_set_sorted k v m : bt_sorted m -> bt_sorted (bt_set k v m).
Proof. unfold bt_sorted. by rewrite bt_set_keys. Qed.

Lemma bt_set_Permutation k v v0 m :
  bt_get k m = Some v0 -> bt_set k v m ≡ₚ (k, v) :: bt_remove k m.
Proof.
  induction m as [|[k' v'] m IH]; simpl; [done|].
  destruct (cmp k k') eqn:E.
  - apply cmp_eq in E as ->. done.
  - intros G. rewrite <- Permutation_swap. by rewrite (IH G).
  - intros G. rewrite <- Permutation_swap. by rewrite (IH G).
Qed.

Lemma bt_head_least k v m e : bt_sorted ((k, v) :: m) -> e ∈ m -> key_lt k e.1.
Proof. intros [_ Hf]%bt_sorted_cons. rewrite Forall_forall in Hf. apply Hf. Qed.

Lemma bt_sorted_NoDup m : bt_sorted m -> NoDup m.
Proof.
  induction m as [|[k v] m IH]; [constructor|]. intros [Hm Hf]%bt_sorted_cons.
  constructor; [|by apply IH]. intros Hin. rewrite Forall_forall in Hf.
  by apply (key_lt_irrefl k), (Hf _ Hin).
Qed.

(** Two maps with the same entries are equal: the sequence is determined by the order. *)
Lemma bt_sorted_unique m1 m2 : bt_sorted m1 -> bt_sorted m2 -> m1 ≡ₚ m2 -> m1 = m2.
Proof.
  revert m2. induction m1 as [|[k v] m1 IH]; intros m2 Hs1 Hs2 Hp.
  - by apply Permutation_nil in Hp.
  - destruct m2 as [|[k2 v2] m2].
    { symmetry in Hp. by apply Permutation_nil in Hp. }
    assert ((k, v) = (k2, v2)) as [= <- <-].
    { assert (H1 : (k, v) ∈ (k2, v2) :: m2) by (rewrite <- Hp; left).
      assert (H2 : (k2, v2) ∈ (k, v) :: m1) by (rewrite Hp; left).
      apply elem_of_cons in H1 as [?|H1]; [done|].
      apply elem_of_cons in H2 as [?|H2]; [done|].
      pose proof (bt_head_least _ _ _ _ Hs1 H2) as L1.
      pose proof (bt_head_least _ _ _ _ Hs2 H1) as L2. simpl in *.
      exfalso. apply (key_lt_irrefl k). by trans k2. }
    f_equal. apply bt_sorted_cons in Hs1 as [? _]. apply bt_sorted_cons in Hs2 as [? _].
    apply IH; [done..|]. by apply Permutation_cons_inv in Hp.
Qed.

Lemma bt_insert_keys k v m x : x ∈ (bt_insert k v m).*1 <-> x = k \/ x ∈ m.*1.
Proof.
  induction m as [|[k' v'] m IH]; simpl.
  - rewrite list_elem_of_singleton, elem_of_nil. naive_solver.
  - destruct (cmp k k') eqn:E; simpl; rewrite !elem_of_cons.
    + apply cmp_eq in E as ->. naive_solver.
    + naive_solver.
    + rewrite IH. naive_solver.
Qed.
End BTree.

#[export] Hint Resolve bt_sorted_nil bt_insert_sorted bt_remove_sorted bt_set_sorted : engine.

(** [impl Ord for i128]. *)
#[global] Instance Z_cmp : Ord Z := Z.compare.
#[global] Instance Z_cmp_laws : OrdLaws Z.
Proof.
  split; unfold cmp, Z_cmp.
  - apply Z.compare_eq_iff.
  - intros a b. apply Z.compare_antisym.
  - intros a b c. rewrite !Z.compare_lt_iff. lia.
Qed.
