(* ===== verification/Fixed.v ===== *)
(** * Fixed-point decimals ([src/src/order_book/fixed.rs])

    A [Fixed] is an [i128] count of units of 1e-18. The file models the arithmetic (checked,
    saturating and wrapping, through the 256-bit intermediate of the [i256] crate), the textual
    form ([Display] and [FromStr]) and the per-symbol configuration, and proves the arithmetic
    equal to exact rational arithmetic with truncation, the rounding operations correct, and the
    textual form a round trip. *)

From S2P Require Import Prelude.

(** A [Fixed] newtype is its scaled integer. *)
Notation Fixed := Z (only parsing).

Definition DECIMALS : Z := 18.
Definition SCALE : Z := 1000000000000000000.
Definition FIXED_ZERO : Fixed := 0.

Definition from_units (units : Z) : Fixed := wrap_i128 (units * SCALE).
Definition MIN_FEE_RATE : Fixed := from_units (-1).
Definition MAX_FEE_RATE : Fixed := from_units 1.

(** ** The [i256] crate

    [i256::I256] is third-party code. The engine relies on five of its operations; the class
    lists them with the integer a value denotes, and [I256Laws] states their documented
    behaviour: exact 256-bit two's-complement arithmetic, with the checked operations returning
    [None] exactly when the result is not representable (or the divisor is zero). *)
Class I256Ops : Type := {
  i256 : Type;
  i256_val : i256 -> Z;
  i256_from_i128 : Z -> i256;
  i256_checked_mul : i256 -> i256 -> option i256;
  i256_checked_div : i256 -> i256 -> option i256;
  i256_ltb : i256 -> i256 -> bool;
  i256_as_i128 : i256 -> Z;
}.

Definition in_i256 (z : Z) : Prop := - 2 ^ 255 <= z < 2 ^ 255.

Class I256Laws `{I256Ops} : Prop := {
  i256_val_from : forall z, in_i128 z -> i256_val (i256_from_i128 z) = z;
  i256_val_range : forall a, in_i256 (i256_val a);
  i256_mul_Some : forall a b c,
    i256_checked_mul a b = Some c -> i256_val c = i256_val a * i256_val b;
  i256_mul_None : forall a b,
    i256_checked_mul a b = None -> ~ in_i256 (i256_val a * i256_val b);
  i256_div_Some : forall a b c,
    i256_checked_div a b = Some c ->
    i256_val b <> 0 /\ i256_val c = Z.quot (i256_val a) (i256_val b);
  i256_div_None : forall a b,
    i256_checked_div a b = None ->
    i256_val b = 0 \/ ~ in_i256 (Z.quot (i256_val a) (i256_val b));
  i256_ltb_spec : forall a b, i256_ltb a b = (i256_val a <? i256_val b);
  i256_as_spec : forall a, i256_as_i128 a = wrap_i128 (i256_val a);
}.

Section Arithmetic.
Context `{I256Ops}.
Implicit Types self rhs other step : Fixed.

Definition abs self : Fixed := wrap_i128 (Z.abs self).
Definition max self other : Fixed := Z.max self other.
Definition min self other : Fixed := Z.min self other.

(** The operators on the newtype are the [i128] operators, which wrap in a release build. *)
Definition fixed_add self rhs : Fixed := wrap_i128 (self + rhs).
Definition fixed_sub self rhs : Fixed := wrap_i128 (self - rhs).
Definition fixed_neg self : Fixed := wrap_i128 (- self).

Definition checked_sub self rhs : option Fixed := checked_i128 (self - rhs).
Definition saturating_add self rhs : Fixed := saturate_i128 (self + rhs).
Definition saturating_sub self rhs : Fixed := saturate_i128 (self - rhs).

Definition checked_mul self rhs : option Fixed :=
  match checked_i128 (self * rhs) with
  | Some product => Some (Z.quot product SCALE)
  | None =>
      match i256_checked_mul (i256_from_i128 self) (i256_from_i128 rhs) with
      | None => None
      | Some product =>
          match i256_checked_div product (i256_from_i128 SCALE) with
          | None => None
          | Some scaled =>
              if i256_ltb scaled (i256_from_i128 I128_MIN)
                 || i256_ltb (i256_from_i128 I128_MAX) scaled
              then None
              else Some (i256_as_i128 scaled)
          end
      end
  end.

Definition checked_div self rhs : option Fixed :=
  match i256_checked_mul (i256_from_i128 self) (i256_from_i128 SCALE) with
  | None => None
  | Some numerator =>
      match i256_checked_div numerator (i256_from_i128 rhs) with
      | None => None
      | Some quotient =>
          if i256_ltb quotient (i256_from_i128 I128_MIN)
             || i256_ltb (i256_from_i128 I128_MAX) quotient
          then None
          else Some (i256_as_i128 quotient)
      end
  end.

(** [impl Div for Fixed]: panics when [checked_div] has no result. *)
Definition fixed_div self rhs : Comp Fixed := expect (checked_div self rhs).
(** [impl Mul for Fixed]. *)
Definition fixed_mul self rhs : Comp Fixed := expect (checked_mul self rhs).

Definition notional (price quantity : Fixed) : option Fixed := checked_mul price quantity.

Definition is_multiple_of self step : bool := (step <=? 0) || (Z.rem self step =? 0).

(** [i128::div_euclid] and [rem_euclid] by a positive divisor are [Z.div] and [Z.modulo]. *)
Definition floor_to_multiple self step : Fixed :=
  if step <=? 0 then self else wrap_i128 (self / step * step).

Definition ceil_to_multiple self step : Fixed :=
  if step <=? 0 then self
  else
    let quotient := self / step + (if self mod step =? 0 then 0 else 1) in
    wrap_i128 (quotient * step).

Definition midpoint self other : option Fixed :=
  match checked_i128 (self + other) with
  | Some sum => Some (Z.quot sum 2)
  | None => None
  end.

Definition has_at_most_decimals self (decimals : Z) : bool :=
  if DECIMALS <=? decimals then true
  else
    let step := 10 ^ (DECIMALS - decimals) in
    Z.rem self step =? 0.

(** [quantize] never fails: its [Result] is always [Ok]. *)
Definition quantize self (decimals : Z) : Fixed :=
  if DECIMALS <=? decimals then self
  else
    let step := 10 ^ (DECIMALS - decimals) in
    let magnitude := Z.abs self in
    let rounded := (magnitude + step / 2) / step * step in
    let rounded := wrap_i128 rounded in
    if self <? 0 then wrap_i128 (- rounded) else rounded.
End Arithmetic.

(** The integers as an implementation of the interface, for evaluation. *)
Definition checked_i256 (z : Z) : option Z :=
  if ((- 2 ^ 255 <=? z) && (z <? 2 ^ 255))%bool then Some z else None.

(** A value outside the 256-bit range does not exist, so the carrier is clamped. *)
Definition clamp_i256 (z : Z) : Z := Z.max (- 2 ^ 255) (Z.min (2 ^ 255 - 1) z).

#[global] Instance I256_Z : I256Ops := {
  i256 := Z;
  i256_val := clamp_i256;
  i256_from_i128 := clamp_i256;
  i256_checked_mul a b := checked_i256 (clamp_i256 a * clamp_i256 b);
  i256_checked_div a b :=
    if clamp_i256 b =? 0 then None else checked_i256 (Z.quot (clamp_i256 a) (clamp_i256 b));
  i256_ltb a b := clamp_i256 a <? clamp_i256 b;
  i256_as_i128 a := wrap_i128 (clamp_i256 a);
}.

Lemma clamp_i256_id z : in_i256 z -> clamp_i256 z = z.
Proof. unfold in_i256, clamp_i256. lia. Qed.

Lemma clamp_i256_range z : in_i256 (clamp_i256 z).
Proof. unfold in_i256, clamp_i256. lia. Qed.

Lemma checked_i256_Some z c : checked_i256 z = Some c -> in_i256 z /\ c = z.
Proof.
  unfold checked_i256, in_i256. destruct (_ && _)%bool eqn:E; [|done]. intros [= <-].
  apply andb_prop in E as [? ?]. lia.
Qed.

Lemma checked_i256_None z : checked_i256 z = None -> ~ in_i256 z.
Proof.
  unfold checked_i256, in_i256. destruct (_ && _)%bool eqn:E; [done|]. intros _ ?.
  apply andb_false_iff in E. lia.
Qed.

#[global] Instance I256_Z_laws : I256Laws.
Proof.
  split; simpl.
  - intros z Hz. rewrite (clamp_i256_id (clamp_i256 z)) by apply clamp_i256_range.
    apply clamp_i256_id. unfold in_i128, in_i256, I128_MIN, I128_MAX in *. lia.
  - apply clamp_i256_range.
  - intros a b c [Hr ->]%checked_i256_Some. by rewrite clamp_i256_id.
  - intros a b. apply checked_i256_None.
  - intros a b c. destruct (_ =? _) eqn:E; [done|]. intros [Hr ->]%checked_i256_Some.
    rewrite (clamp_i256_id (Z.quot _ _)) by done. lia.
  - intros a b. destruct (_ =? _) eqn:E; [lia|]. intros ?%checked_i256_None. by right.
  - done.
  - done.
Qed.

(** ** Arithmetic is exact

    The fast path and the 256-bit path compute the same thing: the exact product (quotient)
    truncated toward zero, or nothing when that does not fit. *)
Section ArithmeticLaws.
Context `{I256Ops} `{!I256Laws}.

Lemma in_i256_mul a b : in_i128 a -> in_i128 b -> in_i256 (a * b).
Proof.
  unfold in_i128, in_i256, I128_MIN, I128_MAX. intros Ha Hb.
  assert (Z.abs (a * b) <= 2 ^ 127 * 2 ^ 127); [|lia].
  rewrite Z.abs_mul. apply Z.mul_le_mono_nonneg; lia.
Qed.

Lemma SCALE_range : in_i128 SCALE.
Proof. unfold in_i128, SCALE, I128_MIN, I128_MAX. lia. Qed.

(** The common tail of both checked operations. *)
Lemma i256_narrow c :
  (if i256_ltb c (i256_from_i128 I128_MIN) || i256_ltb (i256_from_i128 I128_MAX) c
   then None else Some (i256_as_i128 c)) = checked_i128 (i256_val c).
Proof.
  rewrite !i256_ltb_spec, !i256_val_from, i256_as_spec
    by (unfold in_i128, I128_MIN, I128_MAX; lia).
  unfold checked_i128, in_i128b. rewrite <- (negb_involutive (_ && _)%bool).
  rewrite negb_andb, <- !Z.ltb_antisym. destruct (_ || _)%bool eqn:E; simpl; [done|].
  rewrite wrap_i128_id; [done|]. unfold in_i128. bool_lia.
Qed.

Lemma checked_mul_spec a b :
  in_i128 a -> in_i128 b -> checked_mul a b = checked_i128 (Z.quot (a * b) SCALE).
Proof.
  intros Ha Hb. unfold checked_mul. destruct (checked_i128 (a * b)) as [p|] eqn:E.
  - apply checked_i128_Some in E as [Hr ->]. symmetry. apply checked_i128_Some.
    split; [|done]. by apply quot_in_i128.
  - destruct (i256_checked_mul _ _) as [p|] eqn:Em.
    + apply i256_mul_Some in Em. rewrite !i256_val_from in Em by done.
      destruct (i256_checked_div _ _) as [c|] eqn:Ed.
      * apply i256_div_Some in Ed as [_ Ed]. rewrite i256_narrow, Ed, Em.
        by rewrite i256_val_from by apply SCALE_range.
      * apply i256_div_None in Ed. rewrite Em, i256_val_from in Ed by apply SCALE_range.
        destruct Ed as [Ed|Ed]; [done|]. exfalso. apply Ed.
        pose proof (in_i256_mul a b Ha Hb) as Hr.
        pose proof (quot_between (a * b) SCALE eq_refl) as Hq.
        clear -Hr Hq. unfold in_i256 in *. lia.
    + apply i256_mul_None in Em. rewrite !i256_val_from in Em by done.
      by pose proof (in_i256_mul a b Ha Hb).
Qed.

Lemma checked_div_spec a b :
  in_i128 a -> in_i128 b ->
  checked_div a b = if b =? 0 then None else checked_i128 (Z.quot (a * SCALE) b).
Proof.
  intros Ha Hb. unfold checked_div. pose proof SCALE_range as Hs.
  destruct (i256_checked_mul _ _) as [p|] eqn:Em.
  - apply i256_mul_Some in Em. rewrite !i256_val_from in Em by done.
    destruct (i256_checked_div _ _) as [c|] eqn:Ed.
    + apply i256_div_Some in Ed as [Hnz Ed]. rewrite i256_narrow, Ed, Em.
      rewrite i256_val_from in * by done. by rewrite (proj2 (Z.eqb_neq b 0) Hnz).
    + apply i256_div_None in Ed. rewrite Em, i256_val_from in Ed by done.
      destruct (b =? 0) eqn:Eb; [done|]. exfalso.
      destruct Ed as [Ed|Ed]; [lia|]. apply Ed. clear Ed.
      assert (Hq : Z.abs (Z.quot (a * SCALE) b) <= Z.abs (a * SCALE)).
      { rewrite <- Z.quot_abs by lia.
        pose proof (quot_between (Z.abs (a * SCALE)) (Z.abs b)). lia. }
      unfold in_i256, in_i128, I128_MIN, I128_MAX, SCALE in *. lia.
  - apply i256_mul_None in Em. rewrite !i256_val_from in Em by done.
    by pose proof (in_i256_mul a SCALE Ha Hs).
Qed.
End ArithmeticLaws.

(** ** Rounding to a step *)

Lemma floor_to_multiple_nonneg self step :
  0 <= self -> in_i128 self ->
  0 <= floor_to_multiple self step <= self /\
  (0 < step ->
   Z.divide step (floor_to_multiple self step) /\ self - floor_to_multiple self step < step).
Proof.
  intros Hs Hr. unfold floor_to_multiple. destruct (step <=? 0) eqn:E; [lia|].
  pose proof (Z.mul_div_le self step). pose proof (Z.div_pos self step).
  rewrite wrap_i128_id.
  - split; [nia|]. intros _. split; [by exists (self / step)|].
    pose proof (Z.mod_pos_bound self step). pose proof (Z.div_mod self step). lia.
  - unfold in_i128, I128_MIN, I128_MAX in *. nia.
Qed.

Lemma ceil_to_multiple_bounds self step :
  0 <= self -> self + step <= I128_MAX ->
  self <= ceil_to_multiple self step /\
  (0 < step ->
   Z.divide step (ceil_to_multiple self step) /\ ceil_to_multiple self step - self < step).
Proof.
  intros Hs Hr. unfold ceil_to_multiple. destruct (step <=? 0) eqn:E; [lia|].
  pose proof (Z.mod_pos_bound self step). pose proof (Z.div_mod self step).
  pose proof (Z.div_pos self step).
  set (q := self / step + _).
  assert (Hq : self <= q * step < self + step).
  { subst q. destruct (self mod step =? 0) eqn:Em; nia. }
  rewrite wrap_i128_id; [|unfold in_i128, I128_MIN, I128_MAX in *; lia].
  split; [lia|]. intros _. split; [by exists q|lia].
Qed.

(** ** Text form

    A [&str] is its list of Unicode scalar values. *)
Abbreviation str := (list Z).

Definition is_whitespace (c : Z) : bool :=
  ((9 <=? c) && (c <=? 13)) || (c =? 32) || (c =? 133) || (c =? 160) || (c =? 5760)
  || ((8192 <=? c) && (c <=? 8202)) || (c =? 8232) || (c =? 8233) || (c =? 8239)
  || (c =? 8287) || (c =? 12288).

Fixpoint drop_while {A} (p : A -> bool) (l : list A) : list A :=
  match l with
  | [] => []
  | x :: l' => if p x then drop_while p l' else l
  end.

(** [str::trim]. *)
Definition trim (s : str) : str :=
  reverse (drop_while is_whitespace (reverse (drop_while is_whitespace s))).

(** [str::strip_prefix] with a one-character pattern. *)
Definition strip_prefix (c : Z) (s : str) : option str :=
  match s with
  | x :: s' => if x =? c then Some s' else None
  | [] => None
  end.

(** [str::split_once] with a one-character pattern. *)
Fixpoint split_once (c : Z) (s : str) : option (str * str) :=
  match s with
  | [] => None
  | x :: s' =>
      if x =? c then Some ([], s')
      else match split_once c s' with Some (a, b) => Some (x :: a, b) | None => None end
  end.

(** [str::rsplit_once] with a one-character pattern. *)
Definition rsplit_once (c : Z) (s : str) : option (str * str) :=
  match split_once c (reverse s) with Some (a, b) => Some (reverse b, reverse a) | None => None end.

(** [str::len] counts UTF-8 bytes. *)
Definition len_utf8 (c : Z) : Z :=
  if c <? 128 then 1 else if c <? 2048 then 2 else if c <? 65536 then 3 else 4.
Definition str_len (s : str) : Z := sum_Z (len_utf8 <$> s).

Definition CH_PLUS : Z := 43.
Definition CH_MINUS : Z := 45.
Definition CH_DOT : Z := 46.
Definition CH_COLON : Z := 58.
Definition CH_0 : Z := 48.

Definition is_digit (c : Z) : bool := (48 <=? c) && (c <=? 57).

Fixpoint digits_value (acc : Z) (s : str) : option Z :=
  match s with
  | [] => Some acc
  | c :: s' => if is_digit c then digits_value (acc * 10 + (c - 48)) s' else None
  end.

(** [str::parse::<i128>]: an optional sign, then at least one digit, in range. *)
Definition parse_i128 (s : str) : option Z :=
  let '(neg, ds) :=
    match s with
    | c :: s' =>
        if c =? CH_MINUS then (true, s') else if c =? CH_PLUS then (false, s') else (false, s)
    | [] => (false, [])
    end in
  match ds with
  | [] => None
  | _ =>
      match digits_value 0 ds with
      | Some v => checked_i128 (if neg then - v else v)
      | None => None
      end
  end.

Inductive ParseFixedError : Type := InvalidFixed.

(** [impl FromStr for Fixed]. *)
Definition from_str (value : str) : Result Fixed ParseFixedError :=
  let value := trim value in
  let '(negative, value) :=
    match strip_prefix CH_MINUS value with
    | Some rest => (true, rest)
    | None =>
        (false, match strip_prefix CH_PLUS value with Some rest => rest | None => value end)
    end in
  let '(integer, fraction) :=
    match split_once CH_DOT value with
    | Some (integer, fraction) => (integer, fraction)
    | None => (value, [])
    end in
  match integer, fraction with
  | [], [] => Err InvalidFixed
  | _, _ =>
      if DECIMALS <? str_len fraction then Err InvalidFixed
      else
        match (match integer with [] => Some 0 | _ => parse_i128 integer end) with
        | None => Err InvalidFixed
        | Some integer =>
            match (match fraction with [] => Some 0 | _ => parse_i128 fraction end) with
            | None => Err InvalidFixed
            | Some fraction_digits =>
                let fraction :=
                  wrap_i128 (fraction_digits * 10 ^ (DECIMALS - str_len fraction)) in
                match checked_i128 (integer * SCALE) with
                | None => Err InvalidFixed
                | Some v =>
                    match checked_i128 (v + fraction) with
                    | None => Err InvalidFixed
                    | Some value => Ok (if negative then wrap_i128 (- value) else value)
                    end
                end
            end
        end
  end.

Definition parse_with_decimals (value : str) (decimals : Z) : Result Fixed ParseFixedError :=
  match from_str value with
  | Ok value => if has_at_most_decimals value decimals then Ok value else Err InvalidFixed
  | Err e => Err e
  end.

(** Decimal digits of a [u128], most significant first; 39 digits are enough for any. *)
Fixpoint decimal_digits (fuel : nat) (n : Z) (acc : str) : str :=
  match fuel with
  | O => acc
  | S fuel =>
      let acc := (CH_0 + n mod 10) :: acc in
      if n <? 10 then acc else decimal_digits fuel (n / 10) acc
  end.
Definition show_u128 (n : Z) : str := decimal_digits 39 n [].

(** [format!("{n:018}")]. *)
Definition show_padded (width : nat) (n : Z) : str :=
  let s := show_u128 n in replicate (width - length s) CH_0 ++ s.

(** [while s.ends_with('0') { s.pop(); }]. *)
Definition pop_zeros (s : str) : str := reverse (drop_while (Z.eqb CH_0) (reverse s)).

(** [impl Display for Fixed]. *)
Definition to_string (self : Fixed) : str :=
  let sign := if self <? 0 then [CH_MINUS] else [] in
  let abs := Z.abs self in
  let integer := abs / SCALE in
  let fraction := abs mod SCALE in
  if fraction =? 0 then sign ++ show_u128 integer
  else sign ++ show_u128 integer ++ CH_DOT :: pop_zeros (show_padded 18 fraction).

(** ** Printing, then parsing *)
Section TextRoundTrip.
Definition all_digits (s : str) : Prop := Forall (fun c => is_digit c = true) s.

Lemma digits_value_app acc s1 s2 :
  digits_value acc (s1 ++ s2) =
  match digits_value acc s1 with Some v => digits_value v s2 | None => None end.
Proof.
  revert acc. induction s1 as [|c s1 IH]; intros acc; simpl; [done|].
  destruct (is_digit c); [apply IH|done].
Qed.

Lemma digits_value_zeros acc k : digits_value acc (replicate k CH_0) = Some (acc * 10 ^ Z.of_nat k).
Proof.
  revert acc. induction k as [|k IH]; intros acc; simpl; [f_equal; lia|].
  rewrite IH. f_equal. rewrite Nat2Z.inj_succ, Z.pow_succ_r by lia. unfold CH_0. nia.
Qed.

Lemma digits_value_total acc s : all_digits s -> is_Some (digits_value acc s).
Proof.
  intros Hs. revert acc. induction Hs as [|c s Hc _ IH]; intros acc; simpl; [eauto|].
  rewrite Hc. apply IH.
Qed.

Lemma decimal_digits_value fuel n acc :
  0 <= n < 10 ^ Z.of_nat fuel ->
  digits_value 0 (decimal_digits fuel n acc) = digits_value n acc.
Proof.
  revert n acc. induction fuel as [|fuel IH]; intros n acc Hn.
  { simpl in *. replace n with 0 by lia. done. }
  rewrite Nat2Z.inj_succ, Z.pow_succ_r in Hn by lia. cbn [decimal_digits].
  pose proof (Z.mod_pos_bound n 10). pose proof (Z.div_mod n 10).
  assert (Hd : is_digit (CH_0 + n mod 10) = true) by (unfold is_digit, CH_0; lia).
  destruct (n <? 10) eqn:E.
  - simpl. rewrite Hd. f_equal. unfold CH_0. rewrite Z.mod_small by lia. lia.
  - rewrite IH by (split; [apply Z.div_pos; lia | apply Z.div_lt_upper_bound; lia]).
    simpl. rewrite Hd. f_equal. unfold CH_0. lia.
Qed.

Lemma decimal_digits_digits fuel n acc : all_digits acc -> all_digits (decimal_digits fuel n acc).
Proof.
  revert n acc. induction fuel as [|fuel IH]; intros n acc Ha; [done|]. cbn [decimal_digits].
  assert (Ha' : all_digits ((CH_0 + n mod 10) :: acc)).
  { constructor; [|done]. pose proof (Z.mod_pos_bound n 10). unfold is_digit, CH_0. lia. }
  destruct (n <? 10); eauto.
Qed.

Lemma decimal_digits_length fuel n acc k :
  (1 <= k)%nat -> 0 <= n < 10 ^ Z.of_nat k ->
  (length (decimal_digits fuel n acc) <= k + length acc)%nat.
Proof.
  revert n acc k. induction fuel as [|fuel IH]; intros n acc k Hk Hn; [simpl; lia|].
  cbn [decimal_digits]. destruct (n <? 10) eqn:E; [simpl; lia|].
  destruct k as [|[|k]]; [lia|simpl in Hn; lia|].
  specialize (IH (n / 10) ((CH_0 + n mod 10) :: acc) (S k)). simpl in IH |- *.
  rewrite Nat2Z.inj_succ, Z.pow_succ_r in Hn by lia.
  assert (0 <= n / 10) by (apply Z.div_pos; lia).
  assert (n / 10 < 10 ^ Z.of_nat (S k)) by (apply Z.div_lt_upper_bound; lia). lia.
Qed.

Lemma decimal_digits_nonempty fuel n acc : acc <> [] -> decimal_digits fuel n acc <> [].
Proof.
  revert n acc. induction fuel as [|fuel IH]; intros n acc Ha; [done|]. cbn [decimal_digits].
  destruct (n <? 10); [done|]. by apply IH.
Qed.

Lemma show_u128_nonempty n : show_u128 n <> [].
Proof.
  unfold show_u128. cbn [decimal_digits]. destruct (n <? 10); [done|].
  by apply (decimal_digits_nonempty 38).
Qed.

Lemma drop_while_suffix {A} (p : A -> bool) l :
  exists pre, l = pre ++ drop_while p l /\ Forall (fun x => p x = true) pre.
Proof.
  induction l as [|x l [pre [E Hp]]]; simpl; [by exists []|].
  destruct (p x) eqn:Ex; [|by exists []].
  exists (x :: pre). simpl. split; [by f_equal|by constructor].
Qed.

Lemma drop_while_none {A} (p : A -> bool) l :
  Forall (fun x => p x = false) l -> drop_while p l = l.
Proof. intros [|x l' Hx _]; simpl; [done|]. by rewrite Hx. Qed.

Lemma trim_none s : Forall (fun c => is_whitespace c = false) s -> trim s = s.
Proof.
  intros Hs. unfold trim. rewrite (drop_while_none _ s) by done.
  rewrite drop_while_none by (by rewrite Forall_reverse). apply reverse_involutive.
Qed.

Lemma pop_zeros_spec s : exists k, s = pop_zeros s ++ replicate k CH_0.
Proof.
  unfold pop_zeros. destruct (drop_while_suffix (Z.eqb CH_0) (reverse s)) as (pre & E & Hp).
  exists (length pre). rewrite <- (reverse_involutive s) at 1. rewrite E at 1.
  rewrite reverse_app. f_equal. rewrite <- length_reverse.
  symmetry. apply replicate_as_elem_of. split; [done|]. intros c Hc. rewrite elem_of_reverse in Hc.
  rewrite Forall_forall in Hp. specialize (Hp _ Hc). lia.
Qed.

Lemma split_once_app c a b : c ∉ a -> split_once c (a ++ c :: b) = Some (a, b).
Proof.
  induction a as [|x a IH]; simpl; [by rewrite Z.eqb_refl|].
  rewrite not_elem_of_cons. intros [Hx Ha].
  rewrite (proj2 (Z.eqb_neq x c)) by done. by rewrite IH.
Qed.

Lemma split_once_none c s : c ∉ s -> split_once c s = None.
Proof.
  induction s as [|x s IH]; simpl; [done|]. rewrite not_elem_of_cons. intros [Hx Hs].
  rewrite (proj2 (Z.eqb_neq x c)) by done. by rewrite IH.
Qed.

Lemma split_once_Some c s a b : split_once c s = Some (a, b) -> s = a ++ c :: b /\ c ∉ a.
Proof.
  revert a. induction s as [|x s IH]; intros a; simpl; [done|]. destruct (Z.eqb_spec x c) as [->|Hx].
  - intros [= <- <-]. split; [done|apply not_elem_of_nil].
  - destruct (split_once c s) as [[a' b']|]; [|done]. intros [= <- <-].
    destruct (IH a' eq_refl) as [-> Hc]. split; [done|]. by apply not_elem_of_cons.
Qed.

Lemma rsplit_once_app c a b : c ∉ b -> rsplit_once c (a ++ c :: b) = Some (a, b).
Proof.
  intros Hb. unfold rsplit_once. rewrite reverse_app, reverse_cons, <- app_assoc. simpl.
  rewrite split_once_app by (by rewrite elem_of_reverse). by rewrite !reverse_involutive.
Qed.

Lemma rsplit_once_Some c s a b : rsplit_once c s = Some (a, b) -> s = a ++ c :: b /\ c ∉ b.
Proof.
  unfold rsplit_once. destruct (split_once c (reverse s)) as [[x y]|] eqn:E; [|done]. intros [= <- <-].
  apply split_once_Some in E as [E Hx]. rewrite elem_of_reverse. split; [|done].
  apply (f_equal reverse) in E. rewrite reverse_involutive in E.
  by rewrite E, reverse_app, reverse_cons, <- app_assoc.
Qed.

Lemma all_digits_not_elem s c : is_digit c = false -> all_digits s -> c ∉ s.
Proof. unfold all_digits. rewrite Forall_forall. intros Hc Hs Hin. specialize (Hs _ Hin). congruence. Qed.

Lemma all_digits_len s : all_digits s -> str_len s = Z.of_nat (length s).
Proof.
  induction 1 as [|c s Hc _ IH]; [done|].
  change (str_len (c :: s)) with (len_utf8 c + str_len s). rewrite IH. simpl.
  unfold len_utf8, is_digit in *. destruct (c <? 128) eqn:E; [lia|bool_lia].
Qed.

Lemma parse_i128_digits s v :
  s <> [] -> all_digits s -> digits_value 0 s = Some v -> parse_i128 s = checked_i128 v.
Proof.
  intros Hne Hd Hv. unfold parse_i128. destruct s as [|c s]; [done|].
  inversion Hd as [|? ? Hc _]; subst. unfold is_digit, CH_MINUS, CH_PLUS in *.
  rewrite (proj2 (Z.eqb_neq c 45)), (proj2 (Z.eqb_neq c 43)) by bool_lia. by rewrite Hv.
Qed.

Lemma show_u128_spec n :
  0 <= n < 2 ^ 128 ->
  all_digits (show_u128 n) /\ digits_value 0 (show_u128 n) = Some n.
Proof.
  intros Hn. split; [by apply decimal_digits_digits; constructor|].
  unfold show_u128. by rewrite decimal_digits_value by lia.
Qed.

(** The fractional part: its digits without trailing zeros denote it at their own scale. *)
Lemma fraction_text f :
  0 < f < SCALE ->
  let s := pop_zeros (show_padded 18 f) in
  all_digits s /\ s <> [] /\ (length s <= 18)%nat /\
  exists p, digits_value 0 s = Some p /\ p * 10 ^ (DECIMALS - str_len s) = f.
Proof.
  intros Hf s. unfold SCALE in Hf.
  destruct (show_u128_spec f) as [Hd Hv]; [lia|].
  assert (Hl : (length (show_u128 f) <= 18)%nat).
  { unfold show_u128. rewrite <- (Nat.add_0_r 18).
    apply (decimal_digits_length 39 f [] 18); [lia|].
    change (10 ^ Z.of_nat 18) with 1000000000000000000. lia. }
  assert (Hp : all_digits (show_padded 18 f) /\ digits_value 0 (show_padded 18 f) = Some f).
  { unfold show_padded. split.
    - apply Forall_app. split; [|done]. apply Forall_replicate. done.
    - rewrite digits_value_app, digits_value_zeros. simpl. by rewrite Z.mul_0_l. }
  assert (Hlen : length (show_padded 18 f) = 18%nat).
  { unfold show_padded. rewrite length_app, length_replicate. lia. }
  destruct Hp as [Hpd Hpv]. destruct (pop_zeros_spec (show_padded 18 f)) as [k Ek].
  fold s in Ek. rewrite Ek in Hpd, Hpv, Hlen. apply Forall_app in Hpd as [Hs _].
  rewrite digits_value_app in Hpv. rewrite length_app, length_replicate in Hlen.
  destruct (digits_value_total 0 s Hs) as [p Hpval]. rewrite Hpval, digits_value_zeros in Hpv.
  simplify_eq. split_and!; [done| |lia|].
  - intros Hnil. rewrite Hnil in Hpval. simpl in Hpval. simplify_eq. lia.
  - exists p. split; [done|]. rewrite all_digits_len by done. unfold DECIMALS.
    do 2 f_equal. lia.
Qed.

Lemma digit_facts c :
  is_digit c = true -> is_whitespace c = false /\ c <> CH_MINUS /\ c <> CH_PLUS /\ c <> CH_DOT.
Proof. unfold is_digit, is_whitespace, CH_MINUS, CH_PLUS, CH_DOT. lia. Qed.

(** The unsigned text of [a], parsed after its sign was stripped. *)
Definition unsigned_text (a : Z) : str :=
  if a mod SCALE =? 0 then show_u128 (a / SCALE)
  else show_u128 (a / SCALE) ++ CH_DOT :: pop_zeros (show_padded 18 (a mod SCALE)).

Lemma to_string_unsigned x :
  to_string x = (if x <? 0 then [CH_MINUS] else []) ++ unsigned_text (Z.abs x).
Proof. unfold to_string, unsigned_text. by destruct (_ =? 0). Qed.

Lemma unsigned_text_head a : 0 <= a < 2 ^ 128 ->
  exists c s, unsigned_text a = c :: s /\ is_digit c = true /\
              Forall (fun c => is_whitespace c = false) (c :: s).
Proof.
  intros Ha. assert (Hq : 0 <= a / SCALE < 2 ^ 128).
  { split; [apply Z.div_pos; unfold SCALE; lia|].
    apply Z.div_lt_upper_bound; unfold SCALE; lia. }
  destruct (show_u128_spec _ Hq) as [Hd _].
  assert (Hw : Forall (fun c => is_whitespace c = false) (unsigned_text a)).
  { assert (Himp : forall s, all_digits s -> Forall (fun c => is_whitespace c = false) s).
    { intros s Hs. eapply Forall_impl; [exact Hs|]. intros c ?. by apply digit_facts. }
    unfold unsigned_text. destruct (_ =? 0) eqn:E; [eauto|].
    apply Forall_app. split; [eauto|]. constructor; [done|]. apply Himp.
    apply fraction_text. pose proof (Z.mod_pos_bound a SCALE eq_refl). lia. }
  pose proof (show_u128_nonempty (a / SCALE)) as Hne.
  destruct (show_u128 (a / SCALE)) as [|c s] eqn:Es; [done|].
  inversion Hd as [|? ? Hc _]; subst. unfold unsigned_text in *. rewrite Es in *.
  destruct (_ =? 0); eauto.
Qed.

Lemma unsigned_text_parse a : 0 <= a < 2 ^ 128 ->
  exists ip fp, (match split_once CH_DOT (unsigned_text a) with
                 | Some (i, f) => (i, f) | None => (unsigned_text a, []) end) = (ip, fp) /\
    ip <> [] /\ parse_i128 ip = checked_i128 (a / SCALE) /\ (str_len fp <= DECIMALS) /\
    exists fd, (match fp with [] => Some 0 | _ => parse_i128 fp end) = Some fd /\
               fd * 10 ^ (DECIMALS - str_len fp) = a mod SCALE.
Proof.
  intros Ha. assert (Hq : 0 <= a / SCALE < 2 ^ 128).
  { split; [apply Z.div_pos; unfold SCALE; lia|].
    apply Z.div_lt_upper_bound; unfold SCALE; lia. }
  destruct (show_u128_spec _ Hq) as [Hd Hv]. pose proof (show_u128_nonempty (a / SCALE)) as Hne.
  assert (Hdot : CH_DOT ∉ show_u128 (a / SCALE)) by (by apply all_digits_not_elem).
  pose proof (Z.mod_pos_bound a SCALE eq_refl) as Hm.
  unfold unsigned_text. destruct (a mod SCALE =? 0) eqn:E.
  - rewrite split_once_none by done. eexists _, _. split; [done|].
    split; [done|]. split; [by apply parse_i128_digits|]. split; [done|].
    exists 0. split; [done|]. lia.
  - destruct (fraction_text (a mod SCALE)) as (Hfd & Hfn & Hfl & p & Hp & Hval); [lia|].
    rewrite split_once_app by done. eexists _, _. split; [done|].
    split; [done|]. split; [by apply parse_i128_digits|].
    split; [rewrite all_digits_len by done; unfold DECIMALS; lia|].
    exists p. split; [|done].
    assert (Hr : 0 <= p <= a mod SCALE).
    { assert (0 < 10 ^ (DECIMALS - str_len (pop_zeros (show_padded 18 (a mod SCALE))))).
      { apply Z.pow_pos_nonneg; [lia|]. rewrite all_digits_len by done. unfold DECIMALS. lia. }
      nia. }
    rewrite (parse_i128_digits _ p) by done.
    destruct (pop_zeros _) as [|c l]; [done|]. apply checked_i128_Some.
    split; [|done]. unfold in_i128, I128_MIN, I128_MAX, SCALE in *. lia.
Qed.

(** Parsing what was printed gives the value back, except the one value whose magnitude is
    not representable. *)
Lemma from_str_to_string x :
  in_i128 x ->
  from_str (to_string x) =
  match checked_i128 (Z.abs x) with Some _ => Ok x | None => Err InvalidFixed end.
Proof.
  intros Hx. assert (Ha : 0 <= Z.abs x < 2 ^ 128).
  { unfold in_i128, I128_MIN, I128_MAX in Hx. lia. }
  destruct (unsigned_text_head _ Ha) as (c & s & Es & Hc & Hw).
  destruct (unsigned_text_parse _ Ha) as (ip & fp & Esplit & Hip & Hipv & Hfl & fd & Hfd & Hfv).
  destruct (digit_facts _ Hc) as (_ & Hcm & Hcp & _).
  unfold from_str. rewrite to_string_unsigned, trim_none.
  2:{ rewrite Es. destruct (x <? 0); [|done]. by constructor. }
  assert (Estrip :
    match strip_prefix CH_MINUS ((if x <? 0 then [CH_MINUS] else []) ++ unsigned_text (Z.abs x)) with
    | Some rest => (true, rest)
    | None => (false, match strip_prefix CH_PLUS
                 ((if x <? 0 then [CH_MINUS] else []) ++ unsigned_text (Z.abs x)) with
                 | Some rest => rest
                 | None => (if x <? 0 then [CH_MINUS] else []) ++ unsigned_text (Z.abs x) end)
    end = (x <? 0, unsigned_text (Z.abs x))).
  { destruct (x <? 0); [done|]. rewrite Es. simpl.
    rewrite (proj2 (Z.eqb_neq c CH_MINUS)), (proj2 (Z.eqb_neq c CH_PLUS)) by done. done. }
  rewrite Estrip, Esplit. rewrite (proj2 (Z.ltb_ge DECIMALS _)) by done.
  pose proof (Z.div_mod (Z.abs x) SCALE). pose proof (Z.mod_pos_bound (Z.abs x) SCALE eq_refl).
  assert (0 <= Z.abs x / SCALE) by (apply Z.div_pos; unfold SCALE; lia).
  assert (Hqr : in_i128 (Z.abs x / SCALE * SCALE) /\ in_i128 (Z.abs x / SCALE)).
  { clear -Hx H0 H1 H. unfold in_i128, I128_MIN, I128_MAX, SCALE in *. lia. }
  rewrite Hipv, Hfd, Hfv, (wrap_i128_id (_ mod _)).
  2:{ unfold in_i128, I128_MIN, I128_MAX, SCALE in *. lia. }
  rewrite (proj2 (checked_i128_Some _ (Z.abs x / SCALE))) by (split; [apply Hqr|done]).
  destruct ip as [|i0 ip]; [done|].
  rewrite (proj2 (checked_i128_Some _ (Z.abs x / SCALE * SCALE))) by (split; [apply Hqr|done]).
  replace (Z.abs x / SCALE * SCALE + Z.abs x mod SCALE) with (Z.abs x) by lia.
  destruct (checked_i128 (Z.abs x)) as [y|] eqn:Ey; [|done].
  apply checked_i128_Some in Ey as [Hy ->]. f_equal.
  destruct (x <? 0) eqn:Ex; [|lia]. rewrite wrap_i128_id; [lia|].
  unfold in_i128 in *. lia.
Qed.
End TextRoundTrip.

(** ** Assets and the symbol configuration *)

Inductive AssetClass : Type :=
| Fiat | Stablecoin | Crypto | Equity | Etf | UnknownClass.

Definition is_equity_like (self : AssetClass) : bool :=
  match self with Equity | Etf => true | _ => false end.

Record AssetId : Type := mkAssetId {
  asset_code : str;
  asset_class : AssetClass;
  asset_decimals : Z;
}.

Definition AssetId_new (code : str) (class : AssetClass) (decimals : Z)
    : Result AssetId ParseFixedError :=
  if DECIMALS <? decimals then Err InvalidFixed else Ok (mkAssetId code class decimals).

Inductive VolumeUnit : Type := UnitBase | UnitQuote.
Inductive FeeAsset : Type := FeeBase | FeeQuote.
Inductive FeeAssetPolicy : Type := PolicyReceived | PolicyQuote | PolicyBase.

(** Which way an order trades ([OrderSide], declared in [order_book/mod.rs]). *)
Inductive OrderSide : Type := Buy | Sell.

#[global] Instance VolumeUnit_eq_dec : EqDecision VolumeUnit.
Proof. solve_decision. Defined.
#[global] Instance FeeAsset_eq_dec : EqDecision FeeAsset.
Proof. solve_decision. Defined.
#[global] Instance FeeAssetPolicy_eq_dec : EqDecision FeeAssetPolicy.
Proof. solve_decision. Defined.
#[global] Instance OrderSide_eq_dec : EqDecision OrderSide.
Proof. solve_decision. Defined.
#[global] Instance AssetClass_eq_dec : EqDecision AssetClass.
Proof. solve_decision. Defined.

Definition fee_asset (self : FeeAssetPolicy) (side : OrderSide) : FeeAsset :=
  match self, side with
  | PolicyReceived, Buy => FeeBase
  | PolicyReceived, Sell => FeeQuote
  | PolicyQuote, _ => FeeQuote
  | PolicyBase, _ => FeeBase
  end.

Record SymbolConfig : Type := mkSymbolConfig {
  cfg_symbol_id : Z;
  base_asset : AssetId;
  quote_asset : AssetId;
  price_decimals : Z;
  price_tick : Fixed;
  base_lot : Fixed;
  fee_asset_policy : FeeAssetPolicy;
}.

(** "BTC" and "USDT". *)
Definition default_symbol_assets (decimals : Z) : AssetId * AssetId :=
  (mkAssetId [66; 84; 67] Crypto decimals, mkAssetId [85; 83; 68; 84] Stablecoin decimals).

(** Only called with [decimals <= 18], so the power is an [i128]. *)
Definition decimal_step (decimals : Z) : Fixed := 10 ^ (DECIMALS - decimals).

Definition SymbolConfig_default : SymbolConfig :=
  let '(b, q) := default_symbol_assets DECIMALS in
  mkSymbolConfig 0 b q DECIMALS 1 1 PolicyReceived.

Definition SymbolConfig_new (symbol_id price_decimals quantity_decimals : Z)
    : Result SymbolConfig ParseFixedError :=
  if (DECIMALS <? price_decimals) || (DECIMALS <? quantity_decimals) then Err InvalidFixed
  else
    let '(b, q) := default_symbol_assets quantity_decimals in
    Ok (mkSymbolConfig symbol_id b q price_decimals (decimal_step price_decimals)
          (decimal_step quantity_decimals) PolicyReceived).

Definition with_assets (self : SymbolConfig) (b q : AssetId)
    : Result SymbolConfig ParseFixedError :=
  if (DECIMALS <? asset_decimals b) || (DECIMALS <? asset_decimals q) then Err InvalidFixed
  else
    let policy := if is_equity_like (asset_class b) then PolicyQuote else fee_asset_policy self in
    Ok (mkSymbolConfig (cfg_symbol_id self) b q (price_decimals self) (price_tick self)
          (decimal_step (asset_decimals b)) policy).

Definition with_tick_and_lot (self : SymbolConfig) (tick lot : Fixed) : SymbolConfig :=
  mkSymbolConfig (cfg_symbol_id self) (base_asset self) (quote_asset self) (price_decimals self)
    tick lot (fee_asset_policy self).

Definition with_fee_asset_policy (self : SymbolConfig) (policy : FeeAssetPolicy) : SymbolConfig :=
  mkSymbolConfig (cfg_symbol_id self) (base_asset self) (quote_asset self) (price_decimals self)
    (price_tick self) (base_lot self) policy.

Definition base_decimals (self : SymbolConfig) : Z := asset_decimals (base_asset self).
Definition quote_decimals (self : SymbolConfig) : Z := asset_decimals (quote_asset self).

Definition validate (self : SymbolConfig) : Result SymbolConfig ParseFixedError :=
  if (DECIMALS <? price_decimals self)
     || (DECIMALS <? base_decimals self)
     || (DECIMALS <? quote_decimals self)
     || (price_tick self <? FIXED_ZERO)
     || (base_lot self <? FIXED_ZERO)
     || (is_equity_like (asset_class (base_asset self))
         && negb (bool_decide (fee_asset_policy self = PolicyQuote)))
  then Err InvalidFixed else Ok self.

Definition parse_price (self : SymbolConfig) (value : str) : Result Fixed ParseFixedError :=
  parse_with_decimals value (price_decimals self).
Definition parse_quantity (self : SymbolConfig) (value : str) : Result Fixed ParseFixedError :=
  parse_with_decimals value (base_decimals self).

(** A configuration [validate] accepts. *)
Definition config_ok (cfg : SymbolConfig) : Prop := validate cfg = Ok cfg.

Lemma config_ok_steps cfg : config_ok cfg -> 0 <= price_tick cfg /\ 0 <= base_lot cfg.
Proof.
  unfold config_ok, validate, FIXED_ZERO. destruct (_ || _)%bool eqn:E; [done|]. intros _. bool_lia.
Qed.

Lemma has_at_most_decimals_spec x d :
  0 <= d -> has_at_most_decimals x d = true <-> Z.divide (10 ^ Z.max 0 (DECIMALS - d)) x.
Proof.
  intros Hd. unfold has_at_most_decimals. destruct (DECIMALS <=? d) eqn:E.
  - rewrite Z.max_l by lia. simpl. split; [|done]. intros _. apply Z.divide_1_l.
  - rewrite Z.max_r by lia. rewrite Z.eqb_eq.
    apply Z.rem_divide. apply Z.pow_nonzero; lia.
Qed.

(** [quantize] is the sign times a rounded magnitude. *)
Lemma quantize_spec self decimals :
  let step := 10 ^ (DECIMALS - decimals) in
  0 <= decimals < DECIMALS -> Z.abs self + step <= I128_MAX ->
  exists q, quantize self decimals = Z.sgn self * (q * step) /\
    2 * (q * step) <= 2 * Z.abs self + step < 2 * (q * step) + 2 * step.
Proof.
  intros step Hd Hr. assert (Hstep : 0 < step) by (apply Z.pow_pos_nonneg; lia).
  assert (Heven : step = 2 * (step / 2)).
  { unfold step. replace (DECIMALS - decimals) with (Z.succ (DECIMALS - decimals - 1)) by lia.
    rewrite Z.pow_succ_r by lia. replace (10 * 10 ^ (DECIMALS - decimals - 1))
      with (5 * 10 ^ (DECIMALS - decimals - 1) * 2) by lia. rewrite Z.div_mul by lia. lia. }
  exists ((Z.abs self + step / 2) / step).
  pose proof (Z.div_mod (Z.abs self + step / 2) step ltac:(lia)) as Hdm.
  pose proof (Z.mod_pos_bound (Z.abs self + step / 2) step Hstep) as Hmb.
  set (q := (Z.abs self + step / 2) / step) in *.
  assert (Hb : 2 * (q * step) <= 2 * Z.abs self + step < 2 * (q * step) + 2 * step) by nia.
  split; [|done]. assert (Hq : 0 <= q * step <= I128_MAX).
  { split; [|lia]. apply Z.mul_nonneg_nonneg; [apply Z.div_pos|]; lia. }
  unfold quantize. rewrite (proj2 (Z.leb_gt DECIMALS decimals)) by lia. fold step. cbv zeta. fold q.
  rewrite (wrap_i128_id (q * step)) by range_lia.
  destruct (Z.ltb_spec self 0).
  - rewrite wrap_i128_id by range_lia. rewrite Z.sgn_neg by done. lia.
  - destruct (decide (self = 0)) as [->|]; [|rewrite Z.sgn_pos by lia; lia].
    assert (Hq0 : q * step = 0).
    { clearbody q. destruct (Z.le_gt_cases q 0); [|assert (step <= q * step) by nia]; nia. }
    by rewrite Hq0.
Qed.
