(* ===== verification/Order.v ===== *)
(** * Orders, keys and fills ([src/src/order_book/mod.rs], first half)

    The order record with its time in force and its admission checks, the two book keys with
    their orderings, the error set a fill carries, and the fill itself with its fee computation.
    The theorems: both key orders are total orders realising price-time priority; the error set
    is faithful to its codes; a fill's notional and fees are the truncated exact products, an
    error bit is set exactly when its value is missing, and within the accepted fee rates a fee
    never exceeds what it is charged on. *)

From S2P Require Import Prelude BTree Fixed.

(** ** Enumerations *)

Inductive OrderType : Type := Market | Limit.

Inductive TimeInForce : Type := Gtc | Ioc | Fok | Gtd (expiry : Z) | Day.

Inductive RejectReason : Type :=
| FokUnfillable
| PostOnlyWouldCross
| StopWouldTrigger
| GtdAlreadyExpired
| OrderNotFound
| UnsupportedOrder
| AmendWouldCross
| InvalidOrder.

#[global] Instance OrderType_eq_dec : EqDecision OrderType.
Proof. solve_decision. Defined.
#[global] Instance TimeInForce_eq_dec : EqDecision TimeInForce.
Proof. solve_decision. Defined.
#[global] Instance RejectReason_eq_dec : EqDecision RejectReason.
Proof. solve_decision. Defined.

Definition is_immediate (self : TimeInForce) : bool :=
  match self with Ioc | Fok => true | _ => false end.

Definition has_expiry (self : TimeInForce) : bool :=
  match self with Gtd _ | Day => true | _ => false end.

Definition is_expired (self : TimeInForce) (now_ms : Z) (day_close_ms : option Z) : bool :=
  match self with
  | Gtd expiry => expiry <=? now_ms
  | Day => match day_close_ms with Some close => close <=? now_ms | None => false end
  | _ => false
  end.

(** [matches!(tif, TimeInForce::Gtd(_))]. *)
Definition is_gtd (self : TimeInForce) : bool := match self with Gtd _ => true | _ => false end.

(** ** The order record *)

Record Order : Type := mkOrder {
  o_live : OrderType;
  o_side : OrderSide;
  o_symbol_id : Z;
  o_price : Fixed;
  o_volume : Fixed;
  o_volume_unit : VolumeUnit;
  o_requested_volume : Fixed;
  o_requested_volume_unit : VolumeUnit;
  o_maker_fee_rate : Fixed;
  o_taker_fee_rate : Fixed;
  o_id : Z;
  o_sequence : Z;
  o_tif : TimeInForce;
  o_post_only : bool;
  o_stop_price : Fixed;
  o_display_volume : Fixed;
  o_hidden_volume : Fixed;
  o_timestamp : Z;
}.

#[global] Instance Order_eq_dec : EqDecision Order.
Proof. solve_decision. Defined.

(** Field updates. *)
Definition set_sequence (s : Z) (o : Order) : Order :=
  mkOrder (o_live o) (o_side o) (o_symbol_id o) (o_price o) (o_volume o) (o_volume_unit o)
    (o_requested_volume o) (o_requested_volume_unit o) (o_maker_fee_rate o) (o_taker_fee_rate o)
    (o_id o) s (o_tif o) (o_post_only o) (o_stop_price o) (o_display_volume o)
    (o_hidden_volume o) (o_timestamp o).

Definition set_volumes (v h : Fixed) (o : Order) : Order :=
  mkOrder (o_live o) (o_side o) (o_symbol_id o) (o_price o) v (o_volume_unit o)
    (o_requested_volume o) (o_requested_volume_unit o) (o_maker_fee_rate o) (o_taker_fee_rate o)
    (o_id o) (o_sequence o) (o_tif o) (o_post_only o) (o_stop_price o) (o_display_volume o)
    h (o_timestamp o).

Definition set_volume (v : Fixed) (o : Order) : Order := set_volumes v (o_hidden_volume o) o.

Definition set_price (p : Fixed) (o : Order) : Order :=
  mkOrder (o_live o) (o_side o) (o_symbol_id o) p (o_volume o) (o_volume_unit o)
    (o_requested_volume o) (o_requested_volume_unit o) (o_maker_fee_rate o) (o_taker_fee_rate o)
    (o_id o) (o_sequence o) (o_tif o) (o_post_only o) (o_stop_price o) (o_display_volume o)
    (o_hidden_volume o) (o_timestamp o).

Definition set_volume_unit (u : VolumeUnit) (o : Order) : Order :=
  mkOrder (o_live o) (o_side o) (o_symbol_id o) (o_price o) (o_volume o) u
    (o_requested_volume o) (o_requested_volume_unit o) (o_maker_fee_rate o) (o_taker_fee_rate o)
    (o_id o) (o_sequence o) (o_tif o) (o_post_only o) (o_stop_price o) (o_display_volume o)
    (o_hidden_volume o) (o_timestamp o).

Definition set_requested (v : Fixed) (u : VolumeUnit) (o : Order) : Order :=
  mkOrder (o_live o) (o_side o) (o_symbol_id o) (o_price o) (o_volume o) (o_volume_unit o)
    v u (o_maker_fee_rate o) (o_taker_fee_rate o)
    (o_id o) (o_sequence o) (o_tif o) (o_post_only o) (o_stop_price o) (o_display_volume o)
    (o_hidden_volume o) (o_timestamp o).

(** [Order::new] with its builders. *)
Definition Order_new (side : OrderSide) (price size : Fixed) (sequence : Z) : Order :=
  mkOrder Limit side 0 price size UnitBase 0 UnitBase 0 0 0 sequence Gtc false 0 0 0 0.

Definition with_symbol (self : Order) (symbol_id : Z) : Order :=
  mkOrder (o_live self) (o_side self) symbol_id (o_price self) (o_volume self)
    (o_volume_unit self) (o_requested_volume self) (o_requested_volume_unit self)
    (o_maker_fee_rate self) (o_taker_fee_rate self) (o_id self) (o_sequence self) (o_tif self)
    (o_post_only self) (o_stop_price self) (o_display_volume self) (o_hidden_volume self)
    (o_timestamp self).

Definition with_fee_rates (self : Order) (maker taker : Fixed) : Order :=
  mkOrder (o_live self) (o_side self) (o_symbol_id self) (o_price self) (o_volume self)
    (o_volume_unit self) (o_requested_volume self) (o_requested_volume_unit self)
    maker taker (o_id self) (o_sequence self) (o_tif self)
    (o_post_only self) (o_stop_price self) (o_display_volume self) (o_hidden_volume self)
    (o_timestamp self).

Definition with_volume_unit (self : Order) (unit : VolumeUnit) : Order := set_volume_unit unit self.

Definition open_volume (self : Order) : Fixed := fixed_add (o_volume self) (o_hidden_volume self).

Definition is_stop (self : Order) : bool := FIXED_ZERO <? o_stop_price self.

Definition stop_elected (self : Order) (last_trade_price : Fixed) : bool :=
  match o_side self with
  | Buy => o_stop_price self <=? last_trade_price
  | Sell => last_trade_price <=? o_stop_price self
  end.

(** [impl PartialEq for Order]: identity and current size, not every field. *)
Definition order_eqb (self other : Order) : bool :=
  (o_id self =? o_id other)
  && bool_decide (o_side self = o_side other)
  && (o_symbol_id self =? o_symbol_id other)
  && (o_sequence self =? o_sequence other)
  && (o_price self =? o_price other)
  && (o_volume self =? o_volume other).

(** ** Book keys *)

Record BidKey : Type := mkBidKey { bid_price : Fixed; bid_sequence : Z }.
Record AskKey : Type := mkAskKey { ask_price : Fixed; ask_sequence : Z }.

#[global] Instance BidKey_cmp : Ord BidKey := fun self other =>
  if bid_price self <? bid_price other then Gt
  else if bid_price other <? bid_price self then Lt
  else Z.compare (bid_sequence self) (bid_sequence other).

#[global] Instance AskKey_cmp : Ord AskKey := fun self other =>
  if ask_price self <? ask_price other then Lt
  else if ask_price other <? ask_price self then Gt
  else Z.compare (ask_sequence self) (ask_sequence other).

(** A maker price strictly better, for a taker on the other side, than another. *)
Definition better (side : OrderSide) (p q : Fixed) : Prop :=
  match side with Buy => q < p | Sell => p < q end.

(** What the two key types share: a price, a sequence, a side, and price-time priority. *)
Class BookKey (K : Type) `{Ord K} : Type := {
  key_of : Fixed -> Z -> K;
  key_price : K -> Fixed;
  key_sequence : K -> Z;
  key_side : OrderSide;
}.
Arguments key_side K {_ _}.

Class BookKeyLaws (K : Type) `{BookKey K} : Prop := {
  key_of_eta : forall k, key_of (key_price k) (key_sequence k) = k;
  key_price_of : forall p s, key_price (key_of p s) = p;
  key_sequence_of : forall p s, key_sequence (key_of p s) = s;
  key_priority : forall a b,
    key_lt a b <->
    better (key_side K) (key_price a) (key_price b) \/
    (key_price a = key_price b /\ key_sequence a < key_sequence b);
  key_order :: OrdLaws K;
}.

#[global] Instance BidKey_book : BookKey BidKey :=
  {| key_of := mkBidKey; key_price := bid_price; key_sequence := bid_sequence; key_side := Buy |}.
#[global] Instance AskKey_book : BookKey AskKey :=
  {| key_of := mkAskKey; key_price := ask_price; key_sequence := ask_sequence; key_side := Sell |}.

(** Case on the price comparisons of a [cmp] of destructed keys. *)
Ltac split_prices :=
  repeat match goal with
  | |- context [?a <? ?b] => destruct (Z.ltb_spec a b)
  end; try done; try lia.

#[global] Instance BidKey_laws : BookKeyLaws BidKey.
Proof.
  split; [by intros []|done|done|..].
  - intros [p s] [q t]. unfold key_lt, cmp, BidKey_cmp. simpl. split_prices; rewrite ?Z.compare_lt_iff.
    all: intuition (congruence || lia).
  - split.
    + intros [p s] [q t]. unfold cmp, BidKey_cmp. simpl. split_prices.
      1,2: split; [done|intros [= -> ->]; lia].
      rewrite Z.compare_eq_iff. split; [intros ->; f_equal; lia|by intros [= _ ->]].
    + intros [p s] [q t]. unfold cmp, BidKey_cmp. simpl. split_prices.
      apply Z.compare_antisym.
    + intros [p s] [q t] [r u]. unfold cmp, BidKey_cmp. simpl. split_prices.
      rewrite !Z.compare_lt_iff. lia.
Qed.

#[global] Instance AskKey_laws : BookKeyLaws AskKey.
Proof.
  split; [by intros []|done|done|..].
  - intros [p s] [q t]. unfold key_lt, cmp, AskKey_cmp. simpl. split_prices; rewrite ?Z.compare_lt_iff.
    all: intuition (congruence || lia).
  - split.
    + intros [p s] [q t]. unfold cmp, AskKey_cmp. simpl. split_prices.
      1,2: split; [done|intros [= -> ->]; lia].
      rewrite Z.compare_eq_iff. split; [intros ->; f_equal; lia|by intros [= _ ->]].
    + intros [p s] [q t]. unfold cmp, AskKey_cmp. simpl. split_prices.
      apply Z.compare_antisym.
    + intros [p s] [q t] [r u]. unfold cmp, AskKey_cmp. simpl. split_prices.
      rewrite !Z.compare_lt_iff. lia.
Qed.

(** ** Non-fatal fill errors *)

Inductive MatchErrorCode : Type := NotionalOverflow | TakerFeeOverflow | MakerFeeOverflow.

#[global] Instance MatchErrorCode_eq_dec : EqDecision MatchErrorCode.
Proof. solve_decision. Defined.

Definition code_bit (self : MatchErrorCode) : Z :=
  match self with
  | NotionalOverflow => Z.shiftl 1 0
  | TakerFeeOverflow => Z.shiftl 1 1
  | MakerFeeOverflow => Z.shiftl 1 2
  end.

Definition ALL_CODES : list MatchErrorCode := [NotionalOverflow; TakerFeeOverflow; MakerFeeOverflow].

(** [MatchErrors] is a [u8] bit mask. *)
Notation MatchErrors := Z (only parsing).

Definition ERRORS_NONE : MatchErrors := 0.
Definition NOTIONAL_OVERFLOW : MatchErrors := code_bit NotionalOverflow.
Definition TAKER_FEE_OVERFLOW : MatchErrors := code_bit TakerFeeOverflow.
Definition MAKER_FEE_OVERFLOW : MatchErrors := code_bit MakerFeeOverflow.
Definition KNOWN_BITS : Z :=
  Z.lor (Z.lor NOTIONAL_OVERFLOW TAKER_FEE_OVERFLOW) MAKER_FEE_OVERFLOW.

Definition from_bits (bits : Z) : option MatchErrors :=
  if Z.land bits (Z.lxor KNOWN_BITS 255) =? 0 then Some bits else None.

Definition errors_insert (self : MatchErrors) (code : MatchErrorCode) : MatchErrors :=
  Z.lor self (code_bit code).
Definition errors_contains (self : MatchErrors) (code : MatchErrorCode) : bool :=
  negb (Z.land self (code_bit code) =? 0).
Definition errors_is_empty (self : MatchErrors) : bool := self =? 0.
Definition errors_codes (self : MatchErrors) : list MatchErrorCode :=
  filter (fun c => errors_contains self c = true) ALL_CODES.

(** The JSON array visitor: insert every element of the sequence. *)
Definition errors_visit_seq (codes : list MatchErrorCode) : MatchErrors :=
  foldl errors_insert ERRORS_NONE codes.

(** [MatchErrorCode::as_str] and [MatchErrorCode::from_name]. *)
Definition code_as_str (self : MatchErrorCode) : str :=
  match self with
  | NotionalOverflow => (* notional_overflow *)
      [110; 111; 116; 105; 111; 110; 97; 108; 95; 111; 118; 101; 114; 102; 108; 111; 119]
  | TakerFeeOverflow => (* taker_fee_overflow *)
      [116; 97; 107; 101; 114; 95; 102; 101; 101; 95; 111; 118; 101; 114; 102; 108; 111; 119]
  | MakerFeeOverflow => (* maker_fee_overflow *)
      [109; 97; 107; 101; 114; 95; 102; 101; 101; 95; 111; 118; 101; 114; 102; 108; 111; 119]
  end.

Definition code_from_name (value : str) : option MatchErrorCode :=
  if bool_decide (value = code_as_str NotionalOverflow) then Some NotionalOverflow
  else if bool_decide (value = code_as_str TakerFeeOverflow) then Some TakerFeeOverflow
  else if bool_decide (value = code_as_str MakerFeeOverflow) then Some MakerFeeOverflow
  else None.

(** ** Fills *)

Record MatchResult : Type := mkMatchResult {
  m_taker : Order;
  m_maker : Order;
  m_matches : Fixed;
  m_notional : Fixed;
  m_taker_fee : Fixed;
  m_taker_fee_asset : FeeAsset;
  m_maker_fee : Fixed;
  m_maker_fee_asset : FeeAsset;
  m_error : MatchErrors;
}.

Section Fills.
Context `{I256Ops}.

(** The closure [fee] of [MatchResult::new_with_policy]. *)
Definition fill_fee (matches : Fixed) (notional : option Fixed) (asset : FeeAsset) (rate : Fixed)
    : option Fixed :=
  match asset with
  | FeeBase => checked_mul matches rate
  | FeeQuote => match notional with Some value => checked_mul value rate | None => None end
  end.

Definition new_with_policy (taker maker : Order) (matches : Fixed) (policy : FeeAssetPolicy)
    : MatchResult :=
  let notional := notional (o_price maker) matches in
  let taker_fee_asset := fee_asset policy (o_side taker) in
  let maker_fee_asset := fee_asset policy (o_side maker) in
  let taker_fee := fill_fee matches notional taker_fee_asset (o_taker_fee_rate taker) in
  let maker_fee := fill_fee matches notional maker_fee_asset (o_maker_fee_rate maker) in
  let error := ERRORS_NONE in
  let error := match notional with None => Z.lor error NOTIONAL_OVERFLOW | _ => error end in
  let error := match taker_fee with None => Z.lor error TAKER_FEE_OVERFLOW | _ => error end in
  let error := match maker_fee with None => Z.lor error MAKER_FEE_OVERFLOW | _ => error end in
  mkMatchResult taker maker matches (default FIXED_ZERO notional)
    (default FIXED_ZERO taker_fee) taker_fee_asset
    (default FIXED_ZERO maker_fee) maker_fee_asset error.

Definition MatchResult_new (taker maker : Order) (matches : Fixed) : MatchResult :=
  new_with_policy taker maker matches PolicyReceived.
End Fills.

(** ** Admission checks *)

Definition validate_order (order : Order) : option RejectReason :=
  if negb (FIXED_ZERO <? o_volume order) then Some InvalidOrder
  else if (o_maker_fee_rate order <? MIN_FEE_RATE) || (MAX_FEE_RATE <? o_maker_fee_rate order)
       || (o_taker_fee_rate order <? MIN_FEE_RATE) || (MAX_FEE_RATE <? o_taker_fee_rate order)
  then Some InvalidOrder
  else if bool_decide (o_live order = Limit) && negb (FIXED_ZERO <? o_price order)
  then Some InvalidOrder
  else if o_stop_price order <? FIXED_ZERO then Some InvalidOrder
  else if (o_display_volume order <? FIXED_ZERO) || (o_volume order <? o_display_volume order)
  then Some InvalidOrder
  else if o_post_only order
       && (negb (bool_decide (o_live order = Limit)) || is_stop order
           || (FIXED_ZERO <? o_display_volume order))
  then Some InvalidOrder
  else if is_stop order
       && (o_post_only order || (FIXED_ZERO <? o_display_volume order)
           || is_immediate (o_tif order))
  then Some InvalidOrder
  else match o_tif order with
       | Gtd expiry => if expiry <=? o_timestamp order then Some GtdAlreadyExpired else None
       | _ => None
       end.

Definition validate_order_for_symbol (order : Order) (config : SymbolConfig)
    : option RejectReason :=
  if negb (o_symbol_id order =? cfg_symbol_id config) then Some UnsupportedOrder
  else
    let price_ok :=
      has_at_most_decimals (o_price order) (price_decimals config)
      && has_at_most_decimals (o_stop_price order) (price_decimals config)
      && is_multiple_of (o_price order) (price_tick config)
      && is_multiple_of (o_stop_price order) (price_tick config) in
    if negb price_ok then Some InvalidOrder
    else
      match o_volume_unit order with
      | UnitBase =>
          let quantity_ok :=
            has_at_most_decimals (o_volume order) (asset_decimals (base_asset config))
            && has_at_most_decimals (o_display_volume order) (asset_decimals (base_asset config))
            && has_at_most_decimals (o_hidden_volume order) (asset_decimals (base_asset config))
            && is_multiple_of (o_volume order) (base_lot config)
            && is_multiple_of (o_display_volume order) (base_lot config)
            && is_multiple_of (o_hidden_volume order) (base_lot config) in
          if negb quantity_ok then Some InvalidOrder else None
      | UnitQuote =>
          if (FIXED_ZERO <? o_display_volume order) || (FIXED_ZERO <? o_hidden_volume order)
             || bool_decide (o_tif order = Fok)
          then Some InvalidOrder
          else if negb (has_at_most_decimals (o_volume order) (asset_decimals (quote_asset config)))
          then Some InvalidOrder
          else None
      end.

(** ** Laws of the error set *)

Lemma code_from_as code : code_from_name (code_as_str code) = Some code.
Proof. by destruct code. Qed.

(** The accepted bit patterns are the eight subsets of the three codes. *)
Lemma from_bits_Some bits e :
  0 <= bits < 256 -> from_bits bits = Some e -> e = bits /\ 0 <= bits < 8.
Proof.
  intros Hr. unfold from_bits. destruct (_ =? 0) eqn:E; [|done]. intros [= ->]. split; [done|].
  assert (Hl : Z.land e (Z.lxor KNOWN_BITS 255) = 0) by lia.
  assert (Hc : Forall (fun b => Z.land b (Z.lxor KNOWN_BITS 255) = 0 -> b < 8) (seqZ 0 256)).
  { vm_compute. repeat constructor; lia || done. }
  rewrite Forall_forall in Hc. specialize (Hc e). rewrite elem_of_seqZ in Hc. lia.
Qed.

Lemma errors_codes_visit e :
  0 <= e < 8 -> errors_visit_seq (errors_codes e) = e.
Proof.
  intros He. assert (Hc : Forall (fun b => errors_visit_seq (errors_codes b) = b) (seqZ 0 8)).
  { vm_compute. repeat constructor. }
  rewrite Forall_forall in Hc. apply Hc. rewrite elem_of_seqZ. lia.
Qed.

(** ** Laws of the fill *)
Section FillLaws.
Context `{I256Ops} `{!I256Laws}.

Definition rate_ok (rate : Fixed) : Prop := MIN_FEE_RATE <= rate <= MAX_FEE_RATE.

Lemma MIN_FEE_RATE_val : MIN_FEE_RATE = - SCALE.
Proof. reflexivity. Qed.
Lemma MAX_FEE_RATE_val : MAX_FEE_RATE = SCALE.
Proof. reflexivity. Qed.

Lemma rate_scaled amount rate :
  0 <= amount -> rate_ok rate -> Z.abs (Z.quot (amount * rate) SCALE) <= amount.
Proof.
  unfold rate_ok. rewrite MIN_FEE_RATE_val, MAX_FEE_RATE_val. intros Ha Hr.
  rewrite <- Z.quot_abs by done. rewrite (Z.abs_eq SCALE) by done.
  rewrite Z.quot_div_nonneg by (unfold SCALE in *; lia).
  apply Z.div_le_upper_bound; [done|]. rewrite Z.abs_mul. unfold SCALE in *. nia.
Qed.

(** The amount a fee is charged on. *)
Definition charged_amount (matches : Fixed) (notional : option Fixed) (asset : FeeAsset)
    : option Fixed :=
  match asset with FeeBase => Some matches | FeeQuote => notional end.

Lemma fill_fee_spec matches notional asset rate :
  0 <= matches -> in_i128 matches ->
  (forall n, notional = Some n -> 0 <= n /\ in_i128 n) ->
  rate_ok rate ->
  fill_fee matches notional asset rate =
  match charged_amount matches notional asset with
  | Some amount => Some (Z.quot (amount * rate) SCALE)
  | None => None
  end.
Proof.
  intros Hm Hmr Hn Hr.
  assert (Hrr : in_i128 rate).
  { unfold rate_ok in Hr. rewrite MIN_FEE_RATE_val, MAX_FEE_RATE_val in Hr.
    unfold in_i128, I128_MIN, I128_MAX, SCALE in *. lia. }
  assert (Hgo : forall a, 0 <= a -> in_i128 a ->
            checked_mul a rate = Some (Z.quot (a * rate) SCALE)).
  { intros a Ha Har. rewrite checked_mul_spec by done. apply checked_i128_Some.
    split; [|done]. pose proof (rate_scaled a rate Ha Hr). range_lia. }
  destruct asset; simpl; [by apply Hgo|].
  destruct notional as [n|]; [|done]. destruct (Hn n eq_refl). by apply Hgo.
Qed.

Lemma notional_spec p q :
  0 <= p -> 0 <= q -> in_i128 p -> in_i128 q ->
  notional p q = checked_i128 (Z.quot (p * q) SCALE) /\
  (forall n, notional p q = Some n -> 0 <= n /\ in_i128 n).
Proof.
  intros Hp Hq Hpr Hqr. unfold notional. rewrite checked_mul_spec by done. split; [done|].
  intros n [Hn ->]%checked_i128_Some. split; [|done]. apply Z.quot_pos; [nia|done].
Qed.
End FillLaws.
