(* ===== verification/OrderBook.v ===== *)
(** * The order book ([src/src/order_book/mod.rs], [OrderBook])

    The book's state and every operation on it, as state-passing functions: sequence numbers,
    the sweep of the opposite side, resting, the stop cascade, cancel, amend, the expiry purge
    and its deadline index, depth and the depth journal. An operation that can panic in the
    source ([expect], [Fixed]'s division) returns a [Comp]. *)

From S2P Require Import Prelude BTree Fixed Order.

(** ** State *)

Record DepthLevel : Type := mkDepthLevel {
  dl_price : Fixed;
  dl_volume : Fixed;
  dl_orders : Z;
}.

Record DepthChange : Type := mkDepthChange {
  dc_side : OrderSide;
  dc_price : Fixed;
  dc_delta_volume : Fixed;
  dc_delta_orders : Z;
}.

Record OrderBook : Type := mkOrderBook {
  bids : list (BidKey * Order);
  asks : list (AskKey * Order);
  book_sequence : Z;
  stops : list Order;
  last_trade_price : option Fixed;
  depth_journal : list DepthChange;
  record_depth : bool;
  earliest_gtd_expiry : option Z;
  gtd_scan_dirty : bool;
}.

Record StopExecution : Type := mkStopExecution {
  se_stop : Order;
  se_trigger_price : Fixed;
  se_fills : list MatchResult;
  se_cancelled : option Fixed;
}.

Record Outcome : Type := mkOutcome {
  out_market_seq : Z;
  out_expired : list Order;
  out_fills : list MatchResult;
  out_resting : option Fixed;
  out_cancelled : option Fixed;
  out_parked : bool;
  out_rejected : option RejectReason;
  out_triggers : list StopExecution;
}.

Record Amendment : Type := mkAmendment {
  am_market_seq : Z;
  am_order : Order;
  am_previous_sequence : Z;
  am_previous_price : Fixed;
  am_previous_volume : Fixed;
}.

Inductive AmendError : Type :=
| AmendNotFound | AmendNotResting | AmendUnsupportedType
| AmendInvalidPrice | AmendInvalidVolume | AmendErrWouldCross.

Definition amend_error_reason (self : AmendError) : RejectReason :=
  match self with
  | AmendNotFound => OrderNotFound
  | AmendNotResting | AmendUnsupportedType => UnsupportedOrder
  | AmendInvalidPrice | AmendInvalidVolume => InvalidOrder
  | AmendErrWouldCross => AmendWouldCross
  end.

Inductive SweepMode : Type := ModeBase | ModeBuyQuote | ModeSellQuote.

#[global] Instance SweepMode_eq_dec : EqDecision SweepMode.
Proof. solve_decision. Defined.

(** [..Outcome::default()] with the market sequence set. *)
Definition Outcome_new (market_seq : Z) : Outcome :=
  mkOutcome market_seq [] [] None None false None [].

Definition OrderBook_new : OrderBook :=
  mkOrderBook [] [] 0 [] None [] false None false.

(** Field updates. *)
Definition set_bids (m : list (BidKey * Order)) (b : OrderBook) : OrderBook :=
  mkOrderBook m (asks b) (book_sequence b) (stops b) (last_trade_price b) (depth_journal b)
    (record_depth b) (earliest_gtd_expiry b) (gtd_scan_dirty b).
Definition set_asks (m : list (AskKey * Order)) (b : OrderBook) : OrderBook :=
  mkOrderBook (bids b) m (book_sequence b) (stops b) (last_trade_price b) (depth_journal b)
    (record_depth b) (earliest_gtd_expiry b) (gtd_scan_dirty b).
Definition set_book_sequence (s : Z) (b : OrderBook) : OrderBook :=
  mkOrderBook (bids b) (asks b) s (stops b) (last_trade_price b) (depth_journal b)
    (record_depth b) (earliest_gtd_expiry b) (gtd_scan_dirty b).
Definition set_stops (l : list Order) (b : OrderBook) : OrderBook :=
  mkOrderBook (bids b) (asks b) (book_sequence b) l (last_trade_price b) (depth_journal b)
    (record_depth b) (earliest_gtd_expiry b) (gtd_scan_dirty b).
Definition set_last_trade_price (p : option Fixed) (b : OrderBook) : OrderBook :=
  mkOrderBook (bids b) (asks b) (book_sequence b) (stops b) p (depth_journal b)
    (record_depth b) (earliest_gtd_expiry b) (gtd_scan_dirty b).
Definition set_depth_journal (j : list DepthChange) (b : OrderBook) : OrderBook :=
  mkOrderBook (bids b) (asks b) (book_sequence b) (stops b) (last_trade_price b) j
    (record_depth b) (earliest_gtd_expiry b) (gtd_scan_dirty b).
Definition set_record_depth (r : bool) (b : OrderBook) : OrderBook :=
  mkOrderBook (bids b) (asks b) (book_sequence b) (stops b) (last_trade_price b) (depth_journal b)
    r (earliest_gtd_expiry b) (gtd_scan_dirty b).
Definition set_gtd (e : option Z) (d : bool) (b : OrderBook) : OrderBook :=
  mkOrderBook (bids b) (asks b) (book_sequence b) (stops b) (last_trade_price b) (depth_journal b)
    (record_depth b) e d.
Definition mark_gtd_dirty (b : OrderBook) : OrderBook := set_gtd (earliest_gtd_expiry b) true b.

(** ** Sequence numbers and the depth journal *)

Definition next_market_sequence (b : OrderBook) : Z * OrderBook :=
  (book_sequence b, set_book_sequence (wrap_u64 (book_sequence b + 1)) b).

Definition enable_depth_journal (b : OrderBook) : OrderBook := set_record_depth true b.

Definition take_depth_journal (b : OrderBook) : list DepthChange * OrderBook :=
  (depth_journal b, set_depth_journal [] b).

(** The free function [record_depth_change] used by the sweep. *)
Definition journal_push (journal : list DepthChange) (record : bool) (side : OrderSide)
    (price delta_volume : Fixed) (delta_orders : Z) : list DepthChange :=
  if record then journal ++ [mkDepthChange side price delta_volume delta_orders] else journal.

(** The method [OrderBook::record_depth_change]. *)
Definition record_depth_change (side : OrderSide) (price delta_volume : Fixed) (delta_orders : Z)
    (b : OrderBook) : OrderBook :=
  set_depth_journal
    (journal_push (depth_journal b) (record_depth b) side price delta_volume delta_orders) b.

(** ** The GTD deadline index *)

Definition min_expiry (earliest : option Z) (expiry : Z) : Z :=
  match earliest with Some current => Z.min current expiry | None => expiry end.

(** [if let Gtd(expiry) = tif { earliest = Some(earliest.map_or(expiry, |c| c.min(expiry))) }] *)
Definition note_expiry (earliest : option Z) (o : Order) : option Z :=
  match o_tif o with Gtd expiry => Some (min_expiry earliest expiry) | _ => earliest end.

Definition all_orders (b : OrderBook) : list Order :=
  bt_values (bids b) ++ bt_values (asks b) ++ stops b.

Definition refresh_earliest_gtd (b : OrderBook) : OrderBook :=
  if negb (gtd_scan_dirty b) then b
  else set_gtd (foldl note_expiry None (all_orders b)) false b.

Definition rebuild_derived_indexes (b : OrderBook) : OrderBook :=
  refresh_earliest_gtd (mark_gtd_dirty b).

Definition has_gtd_deadlines (b : OrderBook) : bool :=
  match earliest_gtd_expiry b with Some _ => true | None => gtd_scan_dirty b end.

(** ** The expiry purge *)
Section PurgeSide.
Context {K : Type} `{BookKey K}.
Variable has_expired : Order -> bool.

(** The loop over one side's keys, which were collected before it starts. *)
Fixpoint purge_keys (keys : list K) (m : list (K * Order)) (record : bool)
    (journal : list DepthChange) (removed : list Order)
    : Comp (list (K * Order) * list DepthChange * list Order) :=
  match keys with
  | [] => Ret (m, journal, removed)
  | key :: keys =>
      let* order := expect (bt_get key m) in
      if has_expired order then
        let m := bt_remove key m in
        let journal := journal_push journal record (key_side K) (o_price order)
                         (fixed_neg (o_volume order)) (-1) in
        purge_keys keys m record journal (removed ++ [order])
      else purge_keys keys m record journal removed
  end.
End PurgeSide.

Definition purge_expired (now_ms : Z) (day_close_ms : option Z) (b : OrderBook)
    : Comp (list Order * OrderBook) :=
  let has_expired := fun order => is_expired (o_tif order) now_ms day_close_ms in
  let* '(bids', journal, removed) :=
    purge_keys has_expired (bids b).*1 (bids b) (record_depth b) (depth_journal b) [] in
  let* '(asks', journal, removed) :=
    purge_keys has_expired (asks b).*1 (asks b) (record_depth b) journal removed in
  let removed := removed ++ filter (fun stop => has_expired stop = true) (stops b) in
  let stops' := filter (fun stop => has_expired stop = false) (stops b) in
  let b := set_stops stops' (set_depth_journal journal (set_asks asks' (set_bids bids' b))) in
  let b := match removed with [] => b | _ => mark_gtd_dirty b end in
  Ret (removed, b).

Definition purge_due_gtd (now_ms : Z) (b : OrderBook) : Comp (list Order * OrderBook) :=
  let b := refresh_earliest_gtd b in
  if match earliest_gtd_expiry b with Some expiry => expiry <=? now_ms | None => false end
  then purge_expired now_ms None b
  else Ret ([], b).

(** ** Reading the book *)

Definition best_bid (b : OrderBook) : option Order := head (bt_values (bids b)).
Definition best_ask (b : OrderBook) : option Order := head (bt_values (asks b)).

Definition spread (b : OrderBook) : option Fixed :=
  match best_bid b, best_ask b with
  | Some bid, Some ask => checked_sub (o_price ask) (o_price bid)
  | _, _ => None
  end.

Definition mid_price (b : OrderBook) : option Fixed :=
  match best_bid b, best_ask b with
  | Some bid, Some ask => midpoint (o_price bid) (o_price ask)
  | _, _ => None
  end.

(** The walk of [depth]; the levels found so far are kept last level first. *)
Fixpoint depth_walk (orders : list Order) (levels : Z) (acc : list DepthLevel) : list DepthLevel :=
  match orders with
  | [] => acc
  | order :: orders =>
      match acc with
      | level :: acc' =>
          if dl_price level =? o_price order then
            depth_walk orders levels
              (mkDepthLevel (dl_price level) (fixed_add (dl_volume level) (o_volume order))
                 (wrap_u32 (dl_orders level + 1)) :: acc')
          else if Z.of_nat (length acc) <? levels then
            depth_walk orders levels (mkDepthLevel (o_price order) (o_volume order) 1 :: acc)
          else acc
      | [] => depth_walk orders levels [mkDepthLevel (o_price order) (o_volume order) 1]
      end
  end.

Definition depth (side : OrderSide) (levels : Z) (b : OrderBook) : list DepthLevel :=
  if levels =? 0 then []
  else
    let orders := match side with Buy => bt_values (bids b) | Sell => bt_values (asks b) end in
    reverse (depth_walk orders levels []).

Definition resting_volume (order : Order) (b : OrderBook) : option Fixed :=
  match o_side order with
  | Buy => o_volume <$> bt_get (mkBidKey (o_price order) (o_sequence order)) (bids b)
  | Sell => o_volume <$> bt_get (mkAskKey (o_price order) (o_sequence order)) (asks b)
  end.

(** ** Resting an order *)

Definition insert_order (order : Order) (b : OrderBook) : OrderBook :=
  match o_side order with
  | Buy => set_bids (bt_insert (mkBidKey (o_price order) (o_sequence order)) order (bids b)) b
  | Sell => set_asks (bt_insert (mkAskKey (o_price order) (o_sequence order)) order (asks b)) b
  end.

Definition rest (order : Order) (total : Fixed) (b : OrderBook) : Fixed * OrderBook :=
  let visible :=
    if FIXED_ZERO <? o_display_volume order then min (o_display_volume order) total else total in
  let resting := set_volumes visible (fixed_sub total visible) order in
  let b :=
    match o_side order with
    | Buy => set_bids (bt_insert (mkBidKey (o_price order) (o_sequence order)) resting (bids b)) b
    | Sell => set_asks (bt_insert (mkAskKey (o_price order) (o_sequence order)) resting (asks b)) b
    end in
  let b := set_gtd (note_expiry (earliest_gtd_expiry b) order) (gtd_scan_dirty b) b in
  let b := record_depth_change (o_side order) (o_price order) visible 1 b in
  (visible, b).

(** ** The sweep *)
Section Sweep.
Context `{I256Ops}.
Context {K : Type} `{BookKey K}.

(** The constants of one sweep: the parameters of [sweep_side] and the scalar fields of its
    [SweepContext]. *)
Record SweepEnv : Type := mkSweepEnv {
  sw_order : Order;
  sw_limit : option Fixed;
  sw_config : SymbolConfig;
  sw_record : bool;
  sw_track_gtd : bool;
}.

(** What the loop mutates: the resting side, the trades so far, the taker's remainder, the
    journal and the dirty flag. *)
Record SweepState : Type := mkSweepState {
  sw_resting : list (K * Order);
  sw_results : list MatchResult;
  sw_remaining : Fixed;
  sw_journal : list DepthChange;
  sw_gtd_dirty : bool;
}.

Definition sweep_mode (order : Order) : SweepMode :=
  match o_volume_unit order with
  | UnitQuote => match o_side order with Buy => ModeBuyQuote | Sell => ModeSellQuote end
  | UnitBase => ModeBase
  end.

(** Whether a maker at [price] is within the taker's limit. *)
Definition crosses (limit : option Fixed) (side : OrderSide) (price : Fixed) : bool :=
  match limit, side with
  | Some limit, Buy => price <=? limit
  | Some limit, Sell => limit <=? price
  | None, _ => true
  end.

Definition match_volume (mode : SweepMode) (config : SymbolConfig) (remaining : Fixed)
    (maker : Order) : Comp Fixed :=
  let by_base := min remaining (o_volume maker) in
  match mode with
  | ModeBase => Ret by_base
  | ModeBuyQuote =>
      let* q := fixed_div remaining (o_price maker) in
      Ret (min (floor_to_multiple q (base_lot config)) (o_volume maker))
  | ModeSellQuote =>
      let* q := fixed_div remaining (o_price maker) in
      Ret (min (ceil_to_multiple q (base_lot config)) (o_volume maker))
  end.

(** The next tranche of a consumed iceberg. *)
Definition iceberg_draw (maker : Order) : Fixed :=
  if FIXED_ZERO <? o_display_volume maker
  then min (o_display_volume maker) (o_hidden_volume maker)
  else o_hidden_volume maker.

(** One turn of the [while] loop: [inl] continues it, [inr] is a [break] (or a panic). *)
Definition sweep_step (env : SweepEnv) (s : SweepState) : SweepState + Comp SweepState :=
  let order := sw_order env in
  let mode := sweep_mode order in
  if negb (FIXED_ZERO <? sw_remaining s) then inr (Ret s)
  else
    match sw_resting s with
    | [] => inr (Ret s)
    | (key, maker) :: others =>
        if negb (crosses (sw_limit env) (o_side order) (o_price maker)) then inr (Ret s)
        else
          match match_volume mode (sw_config env) (sw_remaining s) maker with
          | Panic => inr Panic
          | Diverged => inr Diverged
          | Ret volume =>
              if volume <=? FIXED_ZERO then inr (Ret s)
              else
                let value := notional (o_price maker) volume in
                if negb (bool_decide (mode = ModeBase)) && negb (bool_decide (is_Some value))
                then inr (Ret s)
                else
                  let value := default FIXED_ZERO value in
                  let taker :=
                    set_volume (if bool_decide (mode = ModeBase) then sw_remaining s else volume)
                      order in
                  let results :=
                    sw_results s ++
                    [new_with_policy taker maker volume (fee_asset_policy (sw_config env))] in
                  let maker_remaining := fixed_sub (o_volume maker) volume in
                  if FIXED_ZERO <? maker_remaining then
                    inr (Ret (mkSweepState
                      ((key, set_volume maker_remaining maker) :: others) results
                      (if bool_decide (mode = ModeBase) then FIXED_ZERO
                       else saturating_sub (sw_remaining s) value)
                      (journal_push (sw_journal s) (sw_record env) (o_side maker) (o_price maker)
                         (fixed_neg volume) 0)
                      (sw_gtd_dirty s)))
                  else
                    let remaining :=
                      match mode with
                      | ModeBase => fixed_sub (sw_remaining s) volume
                      | ModeBuyQuote | ModeSellQuote => saturating_sub (sw_remaining s) value
                      end in
                    let s' :=
                      if FIXED_ZERO <? o_hidden_volume maker then
                        let draw := iceberg_draw maker in
                        mkSweepState
                          ((key, set_volumes draw (fixed_sub (o_hidden_volume maker) draw) maker)
                             :: others)
                          results remaining
                          (journal_push (sw_journal s) (sw_record env) (o_side maker)
                             (o_price maker) (fixed_sub draw volume) 0)
                          (sw_gtd_dirty s)
                      else
                        mkSweepState others results remaining
                          (journal_push (sw_journal s) (sw_record env) (o_side maker)
                             (o_price maker) (fixed_neg volume) (-1))
                          (if sw_track_gtd env && is_gtd (o_tif maker) then true
                           else sw_gtd_dirty s) in
                    if remaining <=? FIXED_ZERO then inr (Ret s') else inl s'
          end
    end.

(** Every turn that continues removes a maker or shrinks a hidden reserve. *)
Definition sweep_measure (resting : list (K * Order)) : Z :=
  sum_Z ((fun e => 1 + Z.max 0 (o_hidden_volume e.2)) <$> resting).

Definition sweep_side (env : SweepEnv) (resting : list (K * Order))
    (journal : list DepthChange) (gtd_dirty : bool) : Comp SweepState :=
  let init := mkSweepState resting [] (o_volume (sw_order env)) journal gtd_dirty in
  match loop (sweep_step env) (Z.to_pos (1 + sweep_measure resting)) init with
  | inl _ => Diverged
  | inr r => r
  end.
End Sweep.
Arguments SweepState : clear implicits.

Section Execution.
Context `{I256Ops}.

Definition sweep (order : Order) (limit : option Fixed) (config : SymbolConfig) (b : OrderBook)
    : Comp (list MatchResult * Fixed * OrderBook) :=
  let env := mkSweepEnv order limit config (record_depth b) (has_gtd_deadlines b) in
  match o_side order with
  | Buy =>
      let* s := sweep_side env (asks b) (depth_journal b) (gtd_scan_dirty b) in
      Ret (sw_results s, sw_remaining s,
           set_gtd (earliest_gtd_expiry b) (sw_gtd_dirty s)
             (set_depth_journal (sw_journal s) (set_asks (sw_resting s) b)))
  | Sell =>
      let* s := sweep_side env (bids b) (depth_journal b) (gtd_scan_dirty b) in
      Ret (sw_results s, sw_remaining s,
           set_gtd (earliest_gtd_expiry b) (sw_gtd_dirty s)
             (set_depth_journal (sw_journal s) (set_bids (sw_resting s) b)))
  end.

Definition order_limit (order : Order) : option Fixed :=
  match o_live order with Market => None | Limit => Some (o_price order) end.

Definition fillable_volume (order : Order) (b : OrderBook) : Fixed :=
  let limit := order_limit order in
  match o_side order with
  | Buy =>
      foldl saturating_add FIXED_ZERO
        (open_volume <$>
           take_while (fun maker => match limit with Some l => o_price maker <=? l | None => true end)
             (bt_values (asks b)))
  | Sell =>
      foldl saturating_add FIXED_ZERO
        (open_volume <$>
           take_while (fun maker => match limit with Some l => l <=? o_price maker | None => true end)
             (bt_values (bids b)))
  end.

Definition would_cross (order : Order) (b : OrderBook) : bool :=
  match o_side order with
  | Buy => match best_ask b with Some ask => o_price ask <=? o_price order | None => false end
  | Sell => match best_bid b with Some bid => o_price order <=? o_price bid | None => false end
  end.

(** [if let Some(print) = fills.last() { self.last_trade_price = Some(print.maker.price) }] *)
Definition note_print (fills : list MatchResult) (b : OrderBook) : OrderBook :=
  match last fills with
  | Some print => set_last_trade_price (Some (o_price (m_maker print))) b
  | None => b
  end.

(** The stop cascade. Each turn removes a stop, so one turn per parked stop is enough fuel. *)
Fixpoint run_stops_loop (fuel : nat) (triggers : list StopExecution) (config : SymbolConfig)
    (b : OrderBook) : Comp (list StopExecution * OrderBook) :=
  match fuel with
  | O => Diverged
  | S fuel =>
      match last_trade_price b with
      | None => Ret (triggers, b)
      | Some last_trade_price =>
          match position (fun stop => stop_elected stop last_trade_price) (stops b) with
          | None => Ret (triggers, b)
          | Some index =>
              let* '(stop, others) := expect (vec_remove index (stops b)) in
              let b := set_stops others b in
              let b := if is_gtd (o_tif stop) then mark_gtd_dirty b else b in
              let* '(fills, remainder, b) := sweep stop (order_limit stop) config b in
              let b := note_print fills b in
              let trigger :=
                mkStopExecution stop last_trade_price fills
                  (if FIXED_ZERO <? remainder then Some remainder else None) in
              run_stops_loop fuel (triggers ++ [trigger]) config b
          end
      end
  end.

Definition run_stops (outcome : Outcome) (config : SymbolConfig) (b : OrderBook)
    : Comp (Outcome * OrderBook) :=
  let* '(triggers, b) := run_stops_loop (S (length (stops b))) (out_triggers outcome) config b in
  Ret (mkOutcome (out_market_seq outcome) (out_expired outcome) (out_fills outcome)
         (out_resting outcome) (out_cancelled outcome) (out_parked outcome)
         (out_rejected outcome) triggers, b).

Definition reject_order (order : Order) (reason : RejectReason) (b : OrderBook)
    : Outcome * Order * OrderBook :=
  let '(seq, b) := next_market_sequence b in
  let order := set_sequence seq order in
  (mkOutcome seq [] [] None None false (Some reason) [], order, b).

(** An outcome that only rejects, keeping what was purged before. *)
Definition rejected_outcome (seq : Z) (expired : list Order) (reason : RejectReason) : Outcome :=
  mkOutcome seq expired [] None None false (Some reason) [].

(** The normalisation at the head of [execute_order_inner]: the requested amount is recorded,
    an unsupported quote order is refused, and a quote limit order becomes a base order. *)
Definition normalize_order (order : Order) (config : SymbolConfig) : Result Order (Order * RejectReason) :=
  let order :=
    if o_requested_volume order =? FIXED_ZERO
    then set_requested (o_volume order) (o_volume_unit order) order else order in
  if bool_decide (o_volume_unit order = UnitQuote)
     && ((FIXED_ZERO <? o_display_volume order) || (FIXED_ZERO <? o_hidden_volume order)
         || bool_decide (o_tif order = Fok)
         || negb (has_at_most_decimals (o_volume order) (asset_decimals (quote_asset config)))
         || negb (has_at_most_decimals (o_requested_volume order)
                    (asset_decimals (quote_asset config))))
  then Err (order, InvalidOrder)
  else if bool_decide (o_volume_unit order = UnitQuote) && bool_decide (o_live order = Limit)
  then
    match checked_div (o_volume order) (o_price order) with
    | None => Err (order, InvalidOrder)
    | Some base =>
        let base := floor_to_multiple base (base_lot config) in
        if base <=? FIXED_ZERO then Err (order, InvalidOrder)
        else Ok (set_volume_unit UnitBase (set_volume base order))
    end
  else Ok order.

(** The admitted part of [execute_order_inner]: after validation and the automatic purge. *)
Definition execute_admitted (order : Order) (config : SymbolConfig) (seq : Z)
    (expired : list Order) (b : OrderBook) : Comp (Outcome * OrderBook) :=
  if is_stop order then
    if match last_trade_price b with Some last => stop_elected order last | None => false end
    then Ret (rejected_outcome seq expired StopWouldTrigger, b)
    else
      let b := set_gtd (note_expiry (earliest_gtd_expiry b) order) (gtd_scan_dirty b) b in
      let b := set_stops (stops b ++ [order]) b in
      Ret (mkOutcome seq expired [] None None true None [], b)
  else if o_post_only order then
    if would_cross order b
    then Ret (rejected_outcome seq expired PostOnlyWouldCross, b)
    else
      let '(visible, b) := rest order (o_volume order) b in
      Ret (mkOutcome seq expired [] (Some visible) None false None [], b)
  else if bool_decide (o_tif order = Fok) && (fillable_volume order b <? o_volume order)
  then Ret (rejected_outcome seq expired FokUnfillable, b)
  else
    let* '(fills, remainder, b) := sweep order (order_limit order) config b in
    let '(resting, cancelled, b) :=
      if FIXED_ZERO <? remainder then
        if bool_decide (o_volume_unit order = UnitQuote) || is_immediate (o_tif order)
           || bool_decide (o_live order = Market)
        then (None, Some remainder, b)
        else let '(visible, b) := rest order remainder b in (Some visible, None, b)
      else (None, None, b) in
    let b := note_print fills b in
    run_stops (mkOutcome seq expired fills resting cancelled false None []) config b.

Definition execute_order_inner (order : Order) (config : SymbolConfig) (b : OrderBook)
    : Comp (Outcome * Order * OrderBook) :=
  let '(seq, b) := next_market_sequence b in
  let order := set_sequence seq order in
  match normalize_order order config with
  | Err (order, reason) => Ret (rejected_outcome seq [] reason, order, b)
  | Ok order =>
      match (match validate_order order with
             | Some reason => Some reason
             | None => validate_order_for_symbol order config
             end) with
      | Some reason => Ret (rejected_outcome seq [] reason, order, b)
      | None =>
          let* '(expired, b) :=
            if has_gtd_deadlines b then purge_due_gtd (o_timestamp order) b else Ret ([], b) in
          let* '(outcome, b) := execute_admitted order config seq expired b in
          Ret (outcome, order, b)
      end
  end.

Definition execute_order (order : Order) (b : OrderBook) : Comp (Outcome * Order * OrderBook) :=
  execute_order_inner order SymbolConfig_default b.

Definition execute_order_with_symbol (order : Order) (config : SymbolConfig) (b : OrderBook)
    : Comp (Outcome * Order * OrderBook) :=
  execute_order_inner order config b.

Definition place_order (order : Order) (b : OrderBook)
    : Comp (list MatchResult * Order * OrderBook) :=
  let* '(outcome, order, b) := execute_order order b in
  Ret (out_fills outcome, order, b).
End Execution.

(** ** Cancel and amend *)

Definition cancel (order : Order) (b : OrderBook) : Comp (option Order * OrderBook) :=
  match position (fun stop => bool_decide (o_side stop = o_side order)
                              && (o_sequence stop =? o_sequence order)) (stops b) with
  | Some index =>
      let* '(stop, others) := expect (vec_remove index (stops b)) in
      let b := set_stops others b in
      let b := if is_gtd (o_tif stop) then mark_gtd_dirty b else b in
      Ret (Some stop, b)
  | None =>
      let '(removed, b) :=
        match o_side order with
        | Buy =>
            let key := mkBidKey (o_price order) (o_sequence order) in
            (bt_get key (bids b), set_bids (bt_remove key (bids b)) b)
        | Sell =>
            let key := mkAskKey (o_price order) (o_sequence order) in
            (bt_get key (asks b), set_asks (bt_remove key (asks b)) b)
        end in
      match removed with
      | Some cancelled =>
          let b := if is_gtd (o_tif cancelled) then mark_gtd_dirty b else b in
          let b := record_depth_change (o_side cancelled) (o_price cancelled)
                     (fixed_neg (o_volume cancelled)) (-1) b in
          Ret (Some cancelled, b)
      | None => Ret (None, b)
      end
  end.

Definition amend_in_map {K : Type} `{BookKey K} (m : list (K * Order)) (key : K) (stored : Order)
    (new_price new_volume : Fixed) (market_seq : Z)
    : Comp (Amendment * bool * list (K * Order)) :=
  let previous_sequence := o_sequence stored in
  let previous_price := o_price stored in
  let previous_volume := o_volume stored in
  if (new_price =? o_price stored) && (new_volume <=? o_volume stored) then
    let* entry := expect (bt_get key m) in
    let entry := set_volume new_volume entry in
    Ret (mkAmendment market_seq entry previous_sequence previous_price previous_volume, false,
         bt_set key entry m)
  else
    let* _ := expect (bt_get key m) in
    let m := bt_remove key m in
    let updated := set_sequence market_seq (set_volume new_volume (set_price new_price stored)) in
    Ret (mkAmendment market_seq updated previous_sequence previous_price previous_volume, true,
         bt_insert (key_of new_price market_seq) updated m).

Definition amend_with_sequence (key : Order) (price volume : option Fixed) (market_seq : Z)
    (b : OrderBook) : Comp (Result Amendment AmendError * OrderBook) :=
  if match price with Some p => negb (FIXED_ZERO <? p) | None => false end
  then Ret (Err AmendInvalidPrice, b)
  else if match volume with Some v => negb (FIXED_ZERO <? v) | None => false end
  then Ret (Err AmendInvalidVolume, b)
  else if is_stop key then Ret (Err AmendNotResting, b)
  else
    let stored :=
      match o_side key with
      | Buy => bt_get (mkBidKey (o_price key) (o_sequence key)) (bids b)
      | Sell => bt_get (mkAskKey (o_price key) (o_sequence key)) (asks b)
      end in
    match stored with
    | None => Ret (Err AmendNotFound, b)
    | Some stored =>
        if negb (bool_decide (o_live stored = Limit)) then Ret (Err AmendNotResting, b)
        else if FIXED_ZERO <? o_display_volume stored then Ret (Err AmendUnsupportedType, b)
        else
          let new_price := default (o_price stored) price in
          let new_volume := default (o_volume stored) volume in
          if negb (new_price =? o_price stored)
             && match o_side key with
                | Buy => match best_ask b with Some ask => o_price ask <=? new_price | None => false end
                | Sell => match best_bid b with Some bid => new_price <=? o_price bid | None => false end
                end
          then Ret (Err AmendErrWouldCross, b)
          else
            let* '(amendment, reinserted, b) :=
              match o_side key with
              | Buy =>
                  let* '(am, re, m) :=
                    amend_in_map (bids b) (mkBidKey (o_price key) (o_sequence key)) stored
                      new_price new_volume market_seq in
                  Ret (am, re, set_bids m b)
              | Sell =>
                  let* '(am, re, m) :=
                    amend_in_map (asks b) (mkAskKey (o_price key) (o_sequence key)) stored
                      new_price new_volume market_seq in
                  Ret (am, re, set_asks m b)
              end in
            let b :=
              if (reinserted : bool) then
                let b := record_depth_change (o_side key) (am_previous_price amendment)
                           (fixed_neg (am_previous_volume amendment)) (-1) b in
                record_depth_change (o_side key) (o_price (am_order amendment))
                  (o_volume (am_order amendment)) 1 b
              else if negb (o_volume (am_order amendment) =? am_previous_volume amendment) then
                record_depth_change (o_side key) (o_price (am_order amendment))
                  (fixed_sub (o_volume (am_order amendment)) (am_previous_volume amendment)) 0 b
              else b in
            Ret (Ok amendment, b)
    end.

Definition amend (key : Order) (price volume : option Fixed) (b : OrderBook)
    : Comp (Result Amendment AmendError * OrderBook) :=
  let '(market_seq, b) := next_market_sequence b in
  amend_with_sequence key price volume market_seq b.
