(* ===== verification/Sweep.v ===== *)
(** * The sweep of one side

    [sweep_side] is the loop at the heart of matching. This file characterises one turn of it as
    a relation ([sweep_turn]), accumulates the turns into a relation between the side before and
    after ([sweep_rel]) and concludes: the loop always terminates, a base-denominated taker never
    panics, volume is conserved, makers are consumed in price-time priority and the depth journal
    records exactly the change of every price level. *)

From S2P Require Import Prelude BTree Fixed Order OrderBook.

(** ** Well-formed resting orders *)

(** What every order on a side of the book satisfies. *)
Record maker_ok {K : Type} `{BookKey K} (e : K * Order) : Prop := {
  mk_side : o_side e.2 = key_side K;
  mk_key : e.1 = key_of (o_price e.2) (o_sequence e.2);
  mk_price : 0 < o_price e.2 <= I128_MAX;
  mk_volume : 0 < o_volume e.2;
  mk_hidden : 0 <= o_hidden_volume e.2;
  mk_open : o_volume e.2 + o_hidden_volume e.2 <= I128_MAX;
  mk_live : o_live e.2 = Limit;
  mk_unit : o_volume_unit e.2 = UnitBase;
  mk_rates : rate_ok (o_maker_fee_rate e.2) /\ rate_ok (o_taker_fee_rate e.2);
  mk_plain : o_display_volume e.2 <= 0 -> o_hidden_volume e.2 = 0;
}.

Definition side_ok {K : Type} `{BookKey K} (m : list (K * Order)) : Prop :=
  bt_sorted m /\ Forall maker_ok m.

(** ** Measures of a side *)

Definition open_of (o : Order) : Z := o_volume o + o_hidden_volume o.

Definition open_total {K} (m : list (K * Order)) : Z := sum_Z ((fun e => open_of e.2) <$> m).

(** Open volume of the orders whose price satisfies [f]. *)
Definition open_where {K} (f : Fixed -> bool) (m : list (K * Order)) : Z :=
  sum_Z ((fun e => if f (o_price e.2) then open_of e.2 else 0) <$> m).

(** Visible volume and number of orders at one price. *)
Definition at_price (p : Fixed) (o : Order) : bool := o_price o =? p.
Definition level_volume {K} (p : Fixed) (m : list (K * Order)) : Z :=
  sum_Z ((fun e => if at_price p e.2 then o_volume e.2 else 0) <$> m).
Definition level_orders {K} (p : Fixed) (m : list (K * Order)) : Z :=
  sum_Z ((fun e => if at_price p e.2 then 1 else 0) <$> m).

(** Net change a journal records for one side and price. *)
Definition journal_at (side : OrderSide) (p : Fixed) (c : DepthChange) : bool :=
  bool_decide (dc_side c = side) && (dc_price c =? p).
Definition journal_volume (side : OrderSide) (p : Fixed) (j : list DepthChange) : Z :=
  sum_Z ((fun c => if journal_at side p c then dc_delta_volume c else 0) <$> j).
Definition journal_orders (side : OrderSide) (p : Fixed) (j : list DepthChange) : Z :=
  sum_Z ((fun c => if journal_at side p c then dc_delta_orders c else 0) <$> j).

(** Totals a level can have: nothing, or at least one order and its volume. *)
Definition real_level (v n : Z) : Prop := 0 <= v /\ 0 <= n /\ (n = 0 -> v = 0).

(** Every prefix of the journal leaves the level, which starts at [v] and [n], with real totals. *)
Definition trail (side : OrderSide) (p : Fixed) (v n : Z) (j : list DepthChange) : Prop :=
  forall j1 j2, j = j1 ++ j2 ->
    real_level (v + journal_volume side p j1) (n + journal_orders side p j1).

Definition fills_volume (fills : list MatchResult) : Z := sum_Z (m_matches <$> fills).

Definition fills_where (f : Fixed -> bool) (fills : list MatchResult) : Z :=
  sum_Z ((fun m => if f (o_price (m_maker m)) then m_matches m else 0) <$> fills).

(** An order without its sizes: what a fill never changes. *)
Definition identity (o : Order) : Order := set_volumes 0 0 o.
Definition identities {K} (m : list (K * Order)) : list (K * Order) := prod_map Datatypes.id identity <$> m.

Lemma open_total_cons {K} k o (m : list (K * Order)) :
  open_total ((k, o) :: m) = open_of o + open_total m.
Proof. done. Qed.
Lemma open_where_cons {K} f k o (m : list (K * Order)) :
  open_where f ((k, o) :: m) = (if f (o_price o) then open_of o else 0) + open_where f m.
Proof. done. Qed.
Lemma level_volume_cons {K} p k o (m : list (K * Order)) :
  level_volume p ((k, o) :: m) = (if at_price p o then o_volume o else 0) + level_volume p m.
Proof. done. Qed.
Lemma level_orders_cons {K} p k o (m : list (K * Order)) :
  level_orders p ((k, o) :: m) = (if at_price p o then 1 else 0) + level_orders p m.
Proof. done. Qed.

Lemma fills_volume_app f1 f2 : fills_volume (f1 ++ f2) = fills_volume f1 + fills_volume f2.
Proof. unfold fills_volume. by rewrite fmap_app, sum_Z_app. Qed.

Lemma fills_where_app f f1 f2 : fills_where f (f1 ++ f2) = fills_where f f1 + fills_where f f2.
Proof. unfold fills_where. by rewrite fmap_app, sum_Z_app. Qed.

(** Fills that all satisfy [f] count in full. *)
Lemma fills_where_all f fills :
  Forall (fun m => f (o_price (m_maker m)) = true) fills -> fills_where f fills = fills_volume fills.
Proof.
  induction 1 as [|m l E _ IH]; [done|]. unfold fills_where, fills_volume in *.
  rewrite !fmap_cons. simpl. by rewrite E, IH.
Qed.

Lemma journal_volume_app side p j1 j2 :
  journal_volume side p (j1 ++ j2) = journal_volume side p j1 + journal_volume side p j2.
Proof. unfold journal_volume. by rewrite fmap_app, sum_Z_app. Qed.

Lemma journal_orders_app side p j1 j2 :
  journal_orders side p (j1 ++ j2) = journal_orders side p j1 + journal_orders side p j2.
Proof. unfold journal_orders. by rewrite fmap_app, sum_Z_app. Qed.

Lemma journal_nil side p : journal_volume side p [] = 0 /\ journal_orders side p [] = 0.
Proof. done. Qed.

Lemma trail_nil side p v n : real_level v n -> trail side p v n [].
Proof.
  intros Hr j1 j2 E. symmetry in E. apply app_nil in E as [-> ->].
  destruct (journal_nil side p) as [-> ->]. by rewrite !Z.add_0_r.
Qed.

Lemma trail_single side p v n c :
  real_level v n ->
  real_level (v + journal_volume side p [c]) (n + journal_orders side p [c]) ->
  trail side p v n [c].
Proof.
  intros H0 H1 [|x l] j2 E.
  - destruct (journal_nil side p) as [-> ->]. by rewrite !Z.add_0_r.
  - injection E as -> E. symmetry in E. by apply app_nil in E as [-> ->].
Qed.

Lemma trail_app side p v n j1 j2 :
  trail side p v n j1 ->
  trail side p (v + journal_volume side p j1) (n + journal_orders side p j1) j2 ->
  trail side p v n (j1 ++ j2).
Proof.
  intros H1 H2 a b E. apply app_eq_inv in E as [(k & -> & ->)|(k & -> & ->)].
  - by eapply H1.
  - rewrite journal_volume_app, journal_orders_app, !Z.add_assoc. by eapply H2.
Qed.

Lemma trail_start side p v n j : trail side p v n j -> real_level v n.
Proof.
  intros Ht. specialize (Ht [] j eq_refl). destruct (journal_nil side p) as [Ev En].
  by rewrite Ev, En, !Z.add_0_r in Ht.
Qed.

Lemma trail_end side p v n j :
  trail side p v n j -> real_level (v + journal_volume side p j) (n + journal_orders side p j).
Proof. intros Ht. by apply (Ht j []), symmetry, app_nil_r. Qed.

Lemma journal_other_side s side p j :
  Forall (fun c => dc_side c = s) j -> s <> side ->
  journal_volume side p j = 0 /\ journal_orders side p j = 0.
Proof.
  intros Hj Hne. induction Hj as [|c j Hc _ [IH1 IH2]]; [done|].
  unfold journal_volume, journal_orders, journal_at in *. simpl.
  rewrite Hc, bool_decide_eq_false_2 by done. simpl. split; [exact IH1|exact IH2].
Qed.

(** A journal of one side leaves the levels of the other alone. *)
Lemma trail_other s side p v n j :
  Forall (fun c => dc_side c = s) j -> s <> side -> real_level v n -> trail side p v n j.
Proof.
  intros Hj Hne Hr j1 j2 ->. apply Forall_app in Hj as [Hj _].
  destruct (journal_other_side s side p j1 Hj Hne) as [-> ->]. by rewrite !Z.add_0_r.
Qed.

Lemma identity_fields o o' :
  identity o = identity o' ->
  o_side o = o_side o' /\ o_price o = o_price o' /\ o_sequence o = o_sequence o' /\
  o_tif o = o_tif o' /\ o_display_volume o = o_display_volume o' /\ o_live o = o_live o' /\
  o_volume_unit o = o_volume_unit o' /\ o_maker_fee_rate o = o_maker_fee_rate o' /\
  o_taker_fee_rate o = o_taker_fee_rate o' /\ o_stop_price o = o_stop_price o'.
Proof. unfold identity, set_volumes. intros [=]. done. Qed.

Lemma identity_set_volumes v h o : identity (set_volumes v h o) = identity o.
Proof. done. Qed.

Section SweepTheory.
Context `{I256Ops}.
Context {K : Type} `{BookKeyLaws K}.
Implicit Types (s : SweepState K) (env : SweepEnv).

Lemma maker_ok_resize (k : K) o v h :
  maker_ok (k, o) -> 0 < v -> 0 <= h -> v + h <= I128_MAX ->
  (o_display_volume o <= 0 -> h = 0) -> maker_ok (k, set_volumes v h o).
Proof. intros [] ????. by constructor. Qed.

Lemma side_ok_cons k o m : side_ok ((k, o) :: m) ->
  maker_ok (k, o) /\ side_ok m /\ Forall (fun e => key_lt k e.1) m.
Proof.
  intros [[Hs Hf]%bt_sorted_cons Hm]. inversion Hm; subst. done.
Qed.

Lemma side_real_level m p : side_ok m -> real_level (level_volume p m) (level_orders p m).
Proof.
  induction m as [|[k o] m IH]; intros Hok; [split_and!; done|].
  destruct (side_ok_cons _ _ _ Hok) as (Hmk & Hok' & _). destruct (IH Hok') as (Hv & Hn & Hz).
  rewrite level_volume_cons, level_orders_cons. destruct Hmk. simpl in *. unfold real_level.
  destruct (at_price p o); lia.
Qed.

Lemma side_ok_resize k o v h m :
  side_ok ((k, o) :: m) -> 0 < v -> 0 <= h -> v + h <= I128_MAX ->
  (o_display_volume o <= 0 -> h = 0) ->
  side_ok ((k, set_volumes v h o) :: m).
Proof.
  intros [Hs Hm] ????. inversion Hm; subst.
  split; [done|]. constructor; [by apply maker_ok_resize|done].
Qed.

(** ** One turn *)

(** Why a turn leaves the loop without trading. *)
Definition sweep_finished env s : Prop :=
  sw_remaining s <= 0 \/ sw_resting s = [] \/
  (exists k maker others, sw_resting s = (k, maker) :: others /\
     crosses (sw_limit env) (o_side (sw_order env)) (o_price maker) = false) \/
  sweep_mode (sw_order env) <> ModeBase.

(** How [v] is taken from the best maker: the new side and the journalled change. *)
Inductive consume (k : K) (maker : Order) (others : list (K * Order)) (v : Z)
    : list (K * Order) -> Z -> Z -> Prop :=
| consume_partial :
    v < o_volume maker ->
    consume k maker others v
      ((k, set_volumes (o_volume maker - v) (o_hidden_volume maker) maker) :: others) (- v) 0
| consume_refill d :
    v = o_volume maker -> 0 < d <= o_hidden_volume maker ->
    consume k maker others v
      ((k, set_volumes d (o_hidden_volume maker - d) maker) :: others) (d - v) 0
| consume_whole :
    v = o_volume maker -> o_hidden_volume maker = 0 ->
    consume k maker others v others (- v) (-1).

Inductive sweep_turn env s : bool -> SweepState K -> Prop :=
| turn_break : sweep_finished env s -> sweep_turn env s false s
| turn_fill k maker others v taker resting' dv dn remaining' dirty' continue :
    sw_resting s = (k, maker) :: others ->
    0 < sw_remaining s ->
    crosses (sw_limit env) (o_side (sw_order env)) (o_price maker) = true ->
    0 < v <= o_volume maker ->
    identity taker = identity (set_volumes 0 0 (sw_order env)) ->
    consume k maker others v resting' dv dn ->
    (sweep_mode (sw_order env) = ModeBase ->
       v <= sw_remaining s /\ remaining' = sw_remaining s - v /\ o_volume taker = sw_remaining s) ->
    in_i128 remaining' ->
    (continue = true -> 0 < remaining' /\ (v = o_volume maker)) ->
    (continue = false -> remaining' <= 0 \/ sweep_mode (sw_order env) <> ModeBase) ->
    (sw_gtd_dirty s = true -> dirty' = true) ->
    sweep_turn env s continue
      (mkSweepState resting'
         (sw_results s ++ [new_with_policy taker maker v (fee_asset_policy (sw_config env))])
         remaining'
         (journal_push (sw_journal s) (sw_record env) (key_side K) (o_price maker) dv dn) dirty').

Lemma match_volume_base remaining maker config :
  match_volume ModeBase config remaining maker = Ret (Z.min remaining (o_volume maker)).
Proof. done. Qed.

Lemma match_volume_le mode config remaining maker v :
  match_volume mode config remaining maker = Ret v -> v <= o_volume maker.
Proof.
  unfold match_volume, min. destruct mode; simpl; [intros [= <-]; lia|..];
    rewrite comp_bind_Ret; intros (q & _ & [= <-]); lia.
Qed.

Lemma iceberg_draw_bounds maker :
  0 < o_hidden_volume maker -> 0 < iceberg_draw maker <= o_hidden_volume maker.
Proof.
  intros ?. unfold iceberg_draw, FIXED_ZERO, min. destruct (_ <? _) eqn:E; lia.
Qed.

Lemma match_volume_total mode config remaining maker :
  match_volume mode config remaining maker <> Diverged /\
  (match_volume mode config remaining maker = Panic -> mode <> ModeBase).
Proof.
  unfold match_volume, fixed_div, expect. destruct mode; simpl; [done|..];
    (destruct (checked_div _ _); simpl; done).
Qed.

(** Removing a traded volume from a maker in range does not wrap. *)
Lemma maker_remaining_exact k maker v :
  maker_ok (k, maker) -> 0 < v <= o_volume maker ->
  fixed_sub (o_volume maker) v = o_volume maker - v /\ fixed_neg v = - v.
Proof.
  intros [] Hv. simpl in *. unfold fixed_sub, fixed_neg. split; apply wrap_i128_id; range_lia.
Qed.

(** The refill or removal of a fully consumed maker, as a [consume]. *)
Lemma consumed_maker k maker others v :
  maker_ok (k, maker) -> v = o_volume maker ->
  if FIXED_ZERO <? o_hidden_volume maker then
    consume k maker others v
      ((k, set_volumes (iceberg_draw maker)
             (fixed_sub (o_hidden_volume maker) (iceberg_draw maker)) maker) :: others)
      (fixed_sub (iceberg_draw maker) v) 0
  else consume k maker others v others (fixed_neg v) (-1).
Proof.
  intros [] Hv. simpl in *. unfold FIXED_ZERO. destruct (0 <? _) eqn:E.
  - pose proof (iceberg_draw_bounds maker). unfold fixed_sub.
    rewrite !wrap_i128_id by range_lia. constructor; lia.
  - unfold fixed_neg. rewrite wrap_i128_id by range_lia. constructor; lia.
Qed.

Lemma sweep_step_turn env s :
  side_ok (sw_resting s) -> in_i128 (sw_remaining s) ->
  match sweep_step env s with
  | inl s' => sweep_turn env s true s'
  | inr (Ret s') => sweep_turn env s false s'
  | inr Panic => sweep_mode (sw_order env) <> ModeBase
  | inr Diverged => False
  end.
Proof.
  intros Hok Hrem. unfold sweep_step. set (mode := sweep_mode (sw_order env)).
  destruct (FIXED_ZERO <? sw_remaining s) eqn:Er; simpl; unfold FIXED_ZERO in Er;
    [|constructor; left; lia].
  destruct (sw_resting s) as [|[k maker] others] eqn:Em;
    [constructor; right; by left|].
  destruct (crosses _ _ _) eqn:Ec; simpl;
    [|constructor; right; right; left; by eauto].
  destruct (side_ok_cons _ _ _ Hok) as (Hmk & _ & _).
  pose proof (match_volume_total mode (sw_config env) (sw_remaining s) maker) as [Hnd Hnp].
  destruct (match_volume mode _ _ _) as [v| |] eqn:Ev; [|eauto|done].
  pose proof (match_volume_le _ _ _ _ _ Ev) as Hle.
  destruct (v <=? FIXED_ZERO) eqn:Ez; unfold FIXED_ZERO in Ez.
  { constructor. destruct (decide (mode = ModeBase)) as [Hb|]; [|by right; right; right].
    rewrite Hb, match_volume_base in Ev. destruct Hmk. simpl in *. simplify_eq. lia. }
  destruct (negb _ && negb _)%bool eqn:En.
  { constructor. right; right; right. intros Hb. fold mode in Hb.
    rewrite bool_decide_eq_true_2 in En by done. done. }
  clear En. set (value := default _ _).
  assert (Hv : 0 < v <= o_volume maker) by lia.
  destruct (maker_remaining_exact k maker v Hmk Hv) as [-> Hneg].
  assert (Hside : o_side maker = key_side K) by apply Hmk.
  assert (Hbase : mode = ModeBase -> v = Z.min (sw_remaining s) (o_volume maker)).
  { intros Hb. rewrite Hb, match_volume_base in Ev. by simplify_eq. }
  destruct (FIXED_ZERO <? o_volume maker - v) eqn:Ep; unfold FIXED_ZERO in Ep.
  - rewrite Hside, Hneg. eapply (turn_fill env s k maker others v); try done; try lia.
    + constructor. lia.
    + intros Hb. rewrite !bool_decide_eq_true_2 by done. simpl.
      specialize (Hbase Hb). unfold FIXED_ZERO. lia.
    + case_bool_decide; [done|]. apply saturate_i128_range.
    + intros _. case_bool_decide; [left; done|by right].
  - assert (Hfull : v = o_volume maker) by lia.
    set (remaining' := match mode with ModeBase => _ | _ => _ end).
    assert (Hr' : in_i128 remaining' /\ (mode = ModeBase -> remaining' = sw_remaining s - v)).
    { subst remaining'. destruct mode; [|split; [apply saturate_i128_range|done]..].
      specialize (Hbase eq_refl). unfold fixed_sub.
      rewrite wrap_i128_id by range_lia. split; [range_lia|done]. }
    pose proof (consumed_maker k maker others v Hmk Hfull) as Hcons. rewrite Hside.
    destruct (FIXED_ZERO <? o_hidden_volume maker) eqn:Eh;
      destruct (remaining' <=? FIXED_ZERO) eqn:Efin; unfold FIXED_ZERO in Efin;
      eapply (turn_fill env s k maker others v); try done; try lia; try apply Hr';
      try (intros Hb; specialize (Hbase Hb); rewrite ?bool_decide_eq_true_2 by done;
           destruct Hr' as [_ Hr']; specialize (Hr' Hb); split_and!; [lia|done|done]);
      try (intros _; split; [lia|done]); try (intros _; left; lia);
      try (intros ->; by destruct (_ && _)%bool).
Qed.

(** ** Many turns *)

Definition fill_key (f : MatchResult) : K :=
  key_of (o_price (m_maker f)) (o_sequence (m_maker f)).

(** [a] does not come after [b] in price-time priority. *)
Definition key_le (a b : K) : Prop := ~ key_lt b a.

(** What each trade of a sweep over [resting] satisfies. *)
Record fill_ok env (resting : list (K * Order)) (f : MatchResult) : Prop := {
  fo_positive : 0 < m_matches f <= o_volume (m_maker f);
  fo_limit : crosses (sw_limit env) (o_side (sw_order env)) (o_price (m_maker f)) = true;
  fo_taker : identity (m_taker f) = identity (sw_order env);
  fo_maker : (fill_key f, identity (m_maker f)) ∈ identities resting;
  fo_maker_ok : maker_ok (fill_key f, m_maker f);
  fo_result : f = new_with_policy (m_taker f) (m_maker f) (m_matches f)
                    (fee_asset_policy (sw_config env));
}.

Record sweep_rel env s s' (new : list MatchResult) (jnew : list DepthChange) : Prop := {
  sr_identities : identities (sw_resting s') `suffix_of` identities (sw_resting s);
  sr_ok : side_ok (sw_resting s');
  sr_range : in_i128 (sw_remaining s');
  sr_results : sw_results s' = sw_results s ++ new;
  sr_fills : Forall (fill_ok env (sw_resting s)) new;
  sr_open : open_total (sw_resting s) = open_total (sw_resting s') + fills_volume new;
  sr_where : forall f,
    open_where f (sw_resting s) = open_where f (sw_resting s') + fills_where f new;
  sr_base : sweep_mode (sw_order env) = ModeBase -> 0 <= sw_remaining s ->
    sw_remaining s = sw_remaining s' + fills_volume new /\ 0 <= sw_remaining s';
  sr_ordered : StronglySorted key_le (fill_key <$> new);
  sr_first : Forall (fun f => Forall (fun e => key_le (fill_key f) e.1) (sw_resting s')) new;
  sr_journal : sw_journal s' = sw_journal s ++ (if sw_record env then jnew else []);
  sr_levels : forall p,
    level_volume p (sw_resting s') =
      level_volume p (sw_resting s) + journal_volume (key_side K) p jnew /\
    level_orders p (sw_resting s') =
      level_orders p (sw_resting s) + journal_orders (key_side K) p jnew;
  sr_trail : forall p,
    trail (key_side K) p (level_volume p (sw_resting s)) (level_orders p (sw_resting s)) jnew;
  sr_side : Forall (fun c => dc_side c = key_side K) jnew;
  sr_dirty : sw_gtd_dirty s = true -> sw_gtd_dirty s' = true;
}.

Lemma key_le_refl k : key_le k k.
Proof. apply key_lt_irrefl. Qed.

Lemma key_lt_le a b : key_lt a b -> key_le a b.
Proof. intros Hab Hba. apply (key_lt_irrefl a). by trans b. Qed.

Lemma suffix_elem {A} (l l' : list A) x : l' `suffix_of` l -> x ∈ l' -> x ∈ l.
Proof. intros [pre ->] ?. apply elem_of_app. by right. Qed.

Lemma identities_elem e (m : list (K * Order)) :
  e ∈ identities m -> exists o, (e.1, o) ∈ m /\ e.2 = identity o.
Proof.
  unfold identities. intros ([k o] & -> & ?)%list_elem_of_fmap. simpl. eauto.
Qed.

Lemma sweep_rel_refl env s :
  side_ok (sw_resting s) -> in_i128 (sw_remaining s) -> sweep_rel env s s [] [].
Proof.
  intros ??.
  assert (Ht : forall p, trail (key_side K) p (level_volume p (sw_resting s))
                           (level_orders p (sw_resting s)) [])
    by (intros p; by apply trail_nil, side_real_level).
  split; try done; try constructor; simpl; try lia.
  - by rewrite app_nil_r.
  - unfold fills_volume. simpl. lia.
  - intros f. unfold fills_where. simpl. lia.
  - unfold fills_volume. simpl. lia.
  - destruct (sw_record env); by rewrite app_nil_r.
  - unfold journal_volume. simpl. lia.
  - unfold journal_orders. simpl. lia.
Qed.

Lemma sweep_rel_trans env s1 s2 s3 n1 n2 j1 j2 :
  sweep_rel env s1 s2 n1 j1 -> sweep_rel env s2 s3 n2 j2 ->
  sweep_rel env s1 s3 (n1 ++ n2) (j1 ++ j2).
Proof.
  intros [Hi1 Ho1 Hr1 Hs1 Hf1 Hc1 Hw1 Hb1 Hp1 Hn1 Hj1 Hl1 Ht1 Hd1 Hg1]
         [Hi2 Ho2 Hr2 Hs2 Hf2 Hc2 Hw2 Hb2 Hp2 Hn2 Hj2 Hl2 Ht2 Hd2 Hg2].
  assert (Hkeys : forall f, f ∈ n2 -> exists o, (fill_key f, o) ∈ sw_resting s2).
  { intros f Hf. rewrite Forall_forall in Hf2. destruct (Hf2 f Hf) as [_ _ _ Hm _ _].
    apply identities_elem in Hm as (o & ? & _). eauto. }
  split; try done.
  - by trans (identities (sw_resting s2)).
  - by rewrite Hs2, Hs1, app_assoc.
  - apply Forall_app. split; [done|]. eapply Forall_impl; [exact Hf2|].
    intros f [????? ?]. split; try done. by eapply suffix_elem.
  - rewrite fills_volume_app. lia.
  - intros f. rewrite fills_where_app. specialize (Hw1 f). specialize (Hw2 f). lia.
  - intros Hm Hpos. rewrite fills_volume_app. destruct (Hb1 Hm Hpos). destruct (Hb2 Hm); [done|].
    lia.
  - rewrite fmap_app. apply strongly_sorted_app; [done|done|].
    intros a b (f & -> & Hf)%list_elem_of_fmap (g & -> & Hg)%list_elem_of_fmap.
    destruct (Hkeys g Hg) as [o Ho]. rewrite Forall_forall in Hn1. specialize (Hn1 f Hf).
    rewrite Forall_forall in Hn1. by apply (Hn1 _ Ho).
  - apply Forall_app. split; [|done]. eapply Forall_impl; [exact Hn1|]. intros f Hf.
    rewrite Forall_forall in Hf |- *. intros [k o] He.
    assert (Hin : (k, identity o) ∈ identities (sw_resting s3)).
    { apply list_elem_of_fmap. by exists (k, o). }
    eapply suffix_elem in Hin; [|exact Hi2].
    apply identities_elem in Hin as (o' & Ho' & _). by apply (Hf _ Ho').
  - rewrite Hj2, Hj1. destruct (sw_record env); rewrite ?app_nil_r; [by rewrite app_assoc|done].
  - intros p. rewrite journal_volume_app, journal_orders_app.
    destruct (Hl1 p), (Hl2 p). lia.
  - intros p. apply trail_app; [done|]. destruct (Hl1 p) as [<- <-]. done.
  - by apply Forall_app.
  - eauto.
Qed.

Lemma consume_facts k maker others v resting' dv dn :
  consume k maker others v resting' dv dn ->
  side_ok ((k, maker) :: others) -> 0 < v <= o_volume maker ->
  side_ok resting' /\
  identities resting' `suffix_of` identities ((k, maker) :: others) /\
  open_total ((k, maker) :: others) = open_total resting' + v /\
  (forall f, open_where f ((k, maker) :: others) =
     open_where f resting' + (if f (o_price maker) then v else 0)) /\
  Forall (fun e => key_le k e.1) resting' /\
  forall p,
    level_volume p resting' =
      level_volume p ((k, maker) :: others) + (if at_price p maker then dv else 0) /\
    level_orders p resting' =
      level_orders p ((k, maker) :: others) + (if at_price p maker then dn else 0).
Proof.
  intros Hc Hok Hv. destruct (side_ok_cons _ _ _ Hok) as (Hmk & Hoth & Hlt).
  assert (Hle : Forall (fun e => key_le k e.1) others).
  { eapply Forall_impl; [exact Hlt|]. intros e. apply key_lt_le. }
  destruct Hmk as [_ _ _ Hvol Hhid Hopen _ _ _ Hplain]. simpl in *.
  destruct Hc as [Hlt'|d Hd Hdr|Hd Hh].
  - split_and!; [apply side_ok_resize; try done; lia|done| | | |].
    + rewrite !open_total_cons. unfold open_of. simpl. lia.
    + intros f. rewrite !open_where_cons. unfold open_of. simpl. destruct (f _); lia.
    + constructor; [apply key_le_refl|done].
    + intros p. rewrite !level_volume_cons, !level_orders_cons. unfold at_price. simpl.
      destruct (o_price maker =? p); lia.
  - split_and!; [apply side_ok_resize; try done; lia|done| | | |].
    + rewrite !open_total_cons. unfold open_of. simpl. lia.
    + intros f. rewrite !open_where_cons. unfold open_of. simpl. destruct (f _); lia.
    + constructor; [apply key_le_refl|done].
    + intros p. rewrite !level_volume_cons, !level_orders_cons. unfold at_price. simpl.
      destruct (o_price maker =? p); lia.
  - split_and!; [done|by apply suffix_cons_r| | |done|].
    + rewrite !open_total_cons. unfold open_of. simpl. lia.
    + intros f. rewrite !open_where_cons. unfold open_of. simpl. destruct (f _); lia.
    + intros p. rewrite !level_volume_cons, !level_orders_cons. unfold at_price. simpl.
      destruct (o_price maker =? p); lia.
Qed.

Lemma sweep_turn_rel env s continue s' :
  sweep_turn env s continue s' -> side_ok (sw_resting s) -> in_i128 (sw_remaining s) ->
  exists new jnew, sweep_rel env s s' new jnew.
Proof.
  intros [Hfin|k maker others v taker resting' dv dn rem' dirty' cont
            Em Hpos Hcross Hv Htak Hcons Hbase Hrange _ _ Hdirty] Hok Hrem.
  { exists [], []. by apply sweep_rel_refl. }
  rewrite Em in Hok.
  destruct (consume_facts _ _ _ _ _ _ _ Hcons Hok Hv) as (Hok' & Hid & Hopen & Hwhere & Hle & Hlev).
  destruct (side_ok_cons _ _ _ Hok) as (Hmk & _ & _).
  set (f := new_with_policy taker maker v (fee_asset_policy (sw_config env))).
  assert (Hk : fill_key f = k) by (symmetry; apply Hmk).
  exists [f], [mkDepthChange (key_side K) (o_price maker) dv dn].
  split; simpl; rewrite ?Em; try done.
  - constructor; [|constructor]. split; try done.
    + rewrite Hk. left.
    + by rewrite Hk.
  - unfold fills_volume. simpl. lia.
  - intros g. rewrite Hwhere. unfold fills_where. simpl. destruct (g _); lia.
  - intros Hb _. unfold fills_volume. simpl. specialize (Hbase Hb). lia.
  - repeat constructor.
  - constructor; [|constructor]. by rewrite Hk.
  - unfold journal_push. destruct (sw_record env); [done|by rewrite app_nil_r].
  - intros p. destruct (Hlev p) as [-> ->].
    unfold journal_volume, journal_orders, journal_at, at_price. simpl.
    rewrite bool_decide_eq_true_2 by done. simpl. lia.
  - intros p. pose proof (side_real_level _ p Hok) as Hr0.
    pose proof (side_real_level _ p Hok') as Hr1. destruct (Hlev p) as [E1 E2].
    rewrite E1, E2 in Hr1. apply trail_single; [done|].
    unfold journal_volume, journal_orders, journal_at. simpl.
    rewrite bool_decide_eq_true_2 by done. simpl. by rewrite !Z.add_0_r.
  - by constructor.
Qed.

Lemma sweep_runs env s r :
  runs (sweep_step env) s r -> side_ok (sw_resting s) -> in_i128 (sw_remaining s) ->
  match r with
  | Ret s' => sweep_finished env s' /\ exists new jnew, sweep_rel env s s' new jnew
  | Panic => sweep_mode (sw_order env) <> ModeBase
  | Diverged => False
  end.
Proof.
  induction 1 as [s r E|s s1 r E _ IH]; intros Hok Hrem;
    pose proof (sweep_step_turn env s Hok Hrem) as Ht; rewrite E in Ht.
  - destruct r as [s'| |]; [|done|done]. split; [|by eapply sweep_turn_rel].
    inversion Ht as [Hfin|k maker others v taker resting' dv dn rem' dirty' cont
            Em Hpos Hcross Hv Htak Hcons Hbase Hrange _ Hstop Hdirty]; subst; [done|].
    unfold sweep_finished. simpl. specialize (Hstop eq_refl). naive_solver.
  - destruct (sweep_turn_rel _ _ _ _ Ht Hok Hrem) as (n1 & j1 & R1).
    specialize (IH (sr_ok _ _ _ _ _ R1) (sr_range _ _ _ _ _ R1)).
    destruct r as [s'| |]; [|done|done]. destruct IH as (Hfin & n2 & j2 & R2).
    split; [done|]. eauto using sweep_rel_trans.
Qed.

(** ** Termination *)

Lemma sweep_measure_nonneg (m : list (K * Order)) : 0 <= sweep_measure m.
Proof. unfold sweep_measure. apply sum_Z_nonneg, Forall_fmap, Forall_true. intros e. simpl. lia. Qed.

Lemma sweep_measure_cons k o (m : list (K * Order)) :
  sweep_measure ((k, o) :: m) = 1 + Z.max 0 (o_hidden_volume o) + sweep_measure m.
Proof. done. Qed.

Lemma sweep_step_decreases env s s' :
  sweep_step env s = inl s' -> sweep_measure (sw_resting s') < sweep_measure (sw_resting s).
Proof.
  unfold sweep_step. intros E.
  destruct (negb _); [done|]. destruct (sw_resting s) as [|[k maker] others]; [done|].
  destruct (negb _); [done|]. destruct (match_volume _ _ _ _) as [v| |]; [|done..].
  destruct (v <=? _); [done|]. destruct (negb _ && negb _)%bool; [done|].
  destruct (_ <? fixed_sub _ _); [done|]. set (rem' := match sweep_mode _ with ModeBase => _ | _ => _ end) in E.
  destruct (_ <=? _); [done|]. simplify_eq. unfold FIXED_ZERO.
  destruct (0 <? o_hidden_volume maker) eqn:Eh; simpl; rewrite !sweep_measure_cons; [|lia].
  pose proof (iceberg_draw_bounds maker). unfold fixed_sub.
  pose proof (wrap_i128_le (o_hidden_volume maker - iceberg_draw maker)).
  simpl. lia.
Qed.

(** The loop always stops within its fuel, on any book and any order. *)
Lemma sweep_side_loop env (resting : list (K * Order)) journal dirty :
  exists r, runs (sweep_step env) (mkSweepState resting [] (o_volume (sw_order env)) journal dirty) r /\
            sweep_side env resting journal dirty = r.
Proof.
  unfold sweep_side. set (init := mkSweepState _ _ _ _ _).
  destruct (loop_terminates (sweep_step env) (fun s => sweep_measure (sw_resting s))
              (Z.to_pos (1 + sweep_measure resting)) init) as [r Hr].
  - intros s. apply sweep_measure_nonneg.
  - apply sweep_step_decreases.
  - pose proof (sweep_measure_nonneg resting). simpl. lia.
  - rewrite Hr. exists r. split; [by eapply loop_runs|done].
Qed.

Lemma sweep_step_not_diverged env s : sweep_step env s <> inr Diverged.
Proof.
  unfold sweep_step. destruct (negb _); [done|].
  destruct (sw_resting s) as [|[k maker] others]; [done|]. destruct (negb _); [done|].
  destruct (match_volume_total (sweep_mode (sw_order env)) (sw_config env) (sw_remaining s) maker)
    as [Hnd _].
  destruct (match_volume _ _ _ _) as [v| |]; [|done|done].
  by repeat case_match.
Qed.

Lemma sweep_runs_not_diverged env s r : runs (sweep_step env) s r -> r <> Diverged.
Proof. induction 1 as [s r E|]; [|done]. intros ->. by apply (sweep_step_not_diverged env s). Qed.

(** ** The whole sweep *)

Lemma sweep_side_spec env (resting : list (K * Order)) journal dirty :
  side_ok resting -> in_i128 (o_volume (sw_order env)) ->
  let init := mkSweepState resting [] (o_volume (sw_order env)) journal dirty in
  match sweep_side env resting journal dirty with
  | Ret s' => sweep_finished env s' /\ exists jnew, sweep_rel env init s' (sw_results s') jnew
  | Panic => sweep_mode (sw_order env) <> ModeBase
  | Diverged => False
  end.
Proof.
  intros Hok Hv init. destruct (sweep_side_loop env resting journal dirty) as (r & Hr & ->).
  pose proof (sweep_runs _ _ _ Hr Hok Hv) as Hs. destruct r as [s'| |]; [|done|done].
  destruct Hs as (Hfin & new & jnew & R). split; [done|]. exists jnew.
  pose proof (sr_results _ _ _ _ _ R) as E. simpl in E. by rewrite E.
Qed.
End SweepTheory.
