(* ===== verification/BookInv.v ===== *)
(** * The book invariant

    [book_inv] is what every reachable book satisfies: both sides sorted by price-time priority
    and made of well-formed resting limit orders, no crossed prices, unique sequence numbers below
    the counter, parked stops well-formed, and a deadline index that never misses a GTD order.
    The file proves the pieces of its preservation (sweep, rest, stop parking, the cascade) and
    the facts about a whole sweep that the execution theorems use. *)

From S2P Require Import Prelude BTree Fixed Order OrderBook Sweep.

(** ** Well-formed inputs *)

(** The range of the Rust types of an order's fields. *)
Record order_typed (o : Order) : Prop := {
  ot_price : in_i128 (o_price o);
  ot_volume : in_i128 (o_volume o);
  ot_requested : in_i128 (o_requested_volume o);
  ot_maker_rate : in_i128 (o_maker_fee_rate o);
  ot_taker_rate : in_i128 (o_taker_fee_rate o);
  ot_stop : in_i128 (o_stop_price o);
  ot_display : in_i128 (o_display_volume o);
  ot_hidden : in_i128 (o_hidden_volume o);
  ot_sequence : in_u64 (o_sequence o);
  ot_timestamp : in_u64 (o_timestamp o);
}.

(** What validation leaves: an order the matching code can run. *)
Record taker_ok (o : Order) : Prop := {
  tk_volume : 0 < o_volume o <= I128_MAX;
  tk_price : o_live o = Limit -> 0 < o_price o <= I128_MAX;
  tk_display : 0 <= o_display_volume o <= o_volume o;
  tk_rates : rate_ok (o_maker_fee_rate o) /\ rate_ok (o_taker_fee_rate o);
  tk_limit_unit : o_live o = Limit -> o_volume_unit o = UnitBase;
}.

(** A parked stop. *)
Definition stop_ok (o : Order) : Prop := taker_ok o /\ 0 < o_stop_price o.

(** ** Identities of the orders in a book *)

Definition book_ids (b : OrderBook) : list Order := identity <$> all_orders b.

(** The deadline index covers an order: a GTD deadline is not before the indexed minimum. *)
Definition covered (earliest : option Z) (o : Order) : Prop :=
  match o_tif o with
  | Gtd expiry => exists e, earliest = Some e /\ e <= expiry
  | _ => True
  end.

Record ids_ok (n : Z) (earliest : option Z) (l : list Order) : Prop := {
  ids_unique : NoDup (o_sequence <$> l);
  ids_below : Forall (fun o => 0 <= o_sequence o < n) l;
  ids_covered : Forall (covered earliest) l;
}.

Lemma ids_ok_submseteq n e l l' : l' ⊆+ l -> ids_ok n e l -> ids_ok n e l'.
Proof.
  intros Hs [Hu Hb Hc]. split.
  - eapply submseteq_NoDup; [|exact Hu]. by apply fmap_submseteq.
  - rewrite Forall_forall in *. intros o Ho. apply Hb. by eapply elem_of_submseteq.
  - rewrite Forall_forall in *. intros o Ho. apply Hc. by eapply elem_of_submseteq.
Qed.

Lemma covered_note e o o' : covered e o' -> covered (note_expiry e o) o'.
Proof.
  unfold covered, note_expiry, min_expiry. destruct (o_tif o'); [done..| |done].
  intros (c & -> & ?). destruct (o_tif o); eauto; try (exists c; done).
  eexists; split; [done|]. lia.
Qed.

Lemma covered_self e o : covered (note_expiry e o) o.
Proof.
  unfold covered, note_expiry, min_expiry. destruct (o_tif o); [done..| |done].
  eexists; split; [done|]. destruct e; lia.
Qed.

Lemma ids_ok_cons n e o l :
  ids_ok n e l -> 0 <= n -> o_sequence o = n -> covered e o -> ids_ok (n + 1) e (o :: l).
Proof.
  intros [Hu Hb Hc] Hn Ho Hco. split.
  - rewrite fmap_cons. apply NoDup_cons. split; [|done].
    intros (o' & E & Hin)%list_elem_of_fmap. rewrite Forall_forall in Hb.
    specialize (Hb _ Hin). lia.
  - constructor; [lia|]. eapply Forall_impl; [exact Hb|]. simpl. lia.
  - by constructor.
Qed.

Lemma ids_ok_add n e o l :
  ids_ok n e l -> 0 <= n -> o_sequence o = n -> ids_ok (n + 1) (note_expiry e o) (o :: l).
Proof.
  intros [Hu Hb Hc] Hn Ho. apply ids_ok_cons; [|done..|apply covered_self].
  split; [done|done|]. eapply Forall_impl; [exact Hc|]. intros ?. apply covered_note.
Qed.

Lemma ids_ok_mono n n' e l : n <= n' -> ids_ok n e l -> ids_ok n' e l.
Proof.
  intros Hn [Hu Hb Hc]. split; [done| |done]. eapply Forall_impl; [exact Hb|]. simpl. lia.
Qed.

Lemma ids_ok_identity n e l : ids_ok n e (identity <$> l) <-> ids_ok n e l.
Proof.
  split; intros [Hu Hb Hc]; rewrite ?Forall_fmap in *; rewrite <- ?list_fmap_compose in *;
    (split; rewrite ?Forall_fmap; rewrite <- ?list_fmap_compose; done).
Qed.

(** ** The invariant *)

Definition uncrossed (b : OrderBook) : Prop :=
  forall eb ea, eb ∈ bids b -> ea ∈ asks b -> o_price eb.2 < o_price ea.2.

Record book_inv (n : Z) (b : OrderBook) : Prop := {
  bk_bids : side_ok (bids b);
  bk_asks : side_ok (asks b);
  bk_uncrossed : uncrossed b;
  bk_stops : Forall stop_ok (stops b);
  bk_ids : ids_ok n (earliest_gtd_expiry b) (book_ids b);
  bk_nonneg : 0 <= n;
}.

(** The invariant between requests: every sequence number ever given out is below the counter. *)
Definition book_ok (b : OrderBook) : Prop := book_inv (book_sequence b) b.

Lemma book_inv_mono n n' b : n <= n' -> book_inv n b -> book_inv n' b.
Proof. intros Hn []. split; [done..| |lia]. by eapply ids_ok_mono. Qed.

Lemma all_orders_map b :
  book_ids b = (snd <$> identities (bids b)) ++ (snd <$> identities (asks b)) ++ (identity <$> stops b).
Proof.
  unfold book_ids, all_orders, bt_values, identities. rewrite !fmap_app.
  by rewrite <- !list_fmap_compose.
Qed.

(** Removing identities from the parts of a book keeps its ids well-formed. *)
Lemma book_ids_shrink n e b b' :
  identities (bids b') ⊆+ identities (bids b) ->
  identities (asks b') ⊆+ identities (asks b) ->
  (identity <$> stops b') ⊆+ (identity <$> stops b) ->
  ids_ok n e (book_ids b) -> ids_ok n e (book_ids b').
Proof.
  intros Hb Ha Hs. apply ids_ok_submseteq. rewrite !all_orders_map.
  apply submseteq_app; [by apply fmap_submseteq|].
  apply submseteq_app; [by apply fmap_submseteq|done].
Qed.

Lemma identities_price {K} (m m' : list (K * Order)) e :
  identities m' ⊆+ identities m -> e ∈ m' -> exists e', e' ∈ m /\ o_price e'.2 = o_price e.2.
Proof.
  intros Hs He. assert (Hin : prod_map Datatypes.id identity e ∈ identities m).
  { eapply elem_of_submseteq; [|exact Hs]. apply list_elem_of_fmap. eauto. }
  apply list_elem_of_fmap in Hin as (e' & E & He'). exists e'. split; [done|].
  destruct e as [k o], e' as [k' o']. simpl in *.
  apply (f_equal snd) in E. simpl in E. by apply identity_fields in E as (_ & ? & _).
Qed.

Lemma uncrossed_shrink b b' :
  identities (bids b') ⊆+ identities (bids b) ->
  identities (asks b') ⊆+ identities (asks b) ->
  uncrossed b -> uncrossed b'.
Proof.
  intros Hb Ha Hu eb ea Heb Hea.
  destruct (identities_price _ _ _ Hb Heb) as (eb' & ? & <-).
  destruct (identities_price _ _ _ Ha Hea) as (ea' & ? & <-). eauto.
Qed.

(** The common case: a book obtained by removing orders and shrinking others. *)
Lemma book_inv_shrink n b b' :
  side_ok (bids b') -> side_ok (asks b') ->
  identities (bids b') ⊆+ identities (bids b) ->
  identities (asks b') ⊆+ identities (asks b) ->
  stops b' ⊆+ stops b ->
  earliest_gtd_expiry b' = earliest_gtd_expiry b ->
  book_inv n b -> book_inv n b'.
Proof.
  intros Hb Ha Hib Hia Hs He []. split; [done|done|..].
  - by eapply uncrossed_shrink.
  - rewrite Forall_forall in *. intros o Ho. apply bk_stops0. by eapply elem_of_submseteq.
  - rewrite He. eapply book_ids_shrink; [done..| |done]. by apply fmap_submseteq.
  - done.
Qed.

(** ** A whole sweep, seen from the book *)

Definition opposite (side : OrderSide) : OrderSide := match side with Buy => Sell | Sell => Buy end.

Definition side_orders (side : OrderSide) (b : OrderBook) : list Order :=
  match side with Buy => bt_values (bids b) | Sell => bt_values (asks b) end.

(** Total open volume (visible and hidden) of a side. *)
Definition side_open (side : OrderSide) (b : OrderBook) : Z :=
  match side with Buy => open_total (bids b) | Sell => open_total (asks b) end.

(** Open volume of the orders of a side whose price satisfies [f]. *)
Definition side_where (f : Fixed -> bool) (side : OrderSide) (b : OrderBook) : Z :=
  match side with Buy => open_where f (bids b) | Sell => open_where f (asks b) end.

(** Visible volume and number of orders of one price level. *)
Definition book_level (side : OrderSide) (p : Fixed) (b : OrderBook) : Z * Z :=
  match side with
  | Buy => (level_volume p (bids b), level_orders p (bids b))
  | Sell => (level_volume p (asks b), level_orders p (asks b))
  end.

(** [b'] has the levels of [b] changed by [j], step by step through levels a book can have, and its
    journal extended by [j] when recording. *)
Definition journaled (b b' : OrderBook) (j : list DepthChange) : Prop :=
  record_depth b' = record_depth b /\
  depth_journal b' = depth_journal b ++ (if record_depth b then j else []) /\
  forall side p,
    book_level side p b' =
    ((book_level side p b).1 + journal_volume side p j,
     (book_level side p b).2 + journal_orders side p j) /\
    (real_level (book_level side p b).1 (book_level side p b).2 ->
     trail side p (book_level side p b).1 (book_level side p b).2 j).

(** Price-time priority among orders resting on [side]. *)
Definition priority_lt (side : OrderSide) (o o' : Order) : Prop :=
  better side (o_price o) (o_price o') \/ (o_price o = o_price o' /\ o_sequence o < o_sequence o').

(** A trade of [order] against [opposite] orders within [limit]. *)
Record trade_ok `{I256Ops} (order : Order) (limit : option Fixed) (config : SymbolConfig)
    (f : MatchResult) : Prop := {
  tr_positive : 0 < m_matches f <= o_volume (m_maker f);
  tr_limit : crosses limit (o_side order) (o_price (m_maker f)) = true;
  tr_taker : identity (m_taker f) = identity order;
  tr_side : o_side (m_maker f) = opposite (o_side order);
  tr_price : 0 < o_price (m_maker f) <= I128_MAX;
  tr_volume : o_volume (m_maker f) <= I128_MAX;
  tr_rates : rate_ok (o_maker_fee_rate (m_maker f));
  tr_result : f = new_with_policy (m_taker f) (m_maker f) (m_matches f) (fee_asset_policy config);
}.

(** What changes and what does not when [order] sweeps the book. *)
Record swept `{I256Ops} (order : Order) (limit : option Fixed) (config : SymbolConfig)
    (b : OrderBook) (fills : list MatchResult) (rem : Fixed) (b' : OrderBook) : Prop := {
  sb_inv : forall n, book_inv n b -> book_inv n b';
  sb_same : side_orders (o_side order) b' = side_orders (o_side order) b /\
    stops b' = stops b /\ book_sequence b' = book_sequence b /\
    last_trade_price b' = last_trade_price b /\ earliest_gtd_expiry b' = earliest_gtd_expiry b;
  sb_open : side_open (opposite (o_side order)) b =
    side_open (opposite (o_side order)) b' + fills_volume fills;
  sb_where : forall f, side_where f (opposite (o_side order)) b =
    side_where f (opposite (o_side order)) b' + fills_where f fills;
  sb_base : o_volume_unit order = UnitBase ->
    o_volume order = rem + fills_volume fills /\ 0 <= rem;
  sb_range : in_i128 rem;
  sb_trades : Forall (trade_ok order limit config) fills;
  sb_ordered : StronglySorted
    (fun f g => ~ priority_lt (opposite (o_side order)) (m_maker g) (m_maker f)) fills;
  sb_first : forall f o, f ∈ fills -> o ∈ side_orders (opposite (o_side order)) b' ->
    ~ priority_lt (opposite (o_side order)) o (m_maker f);
  sb_done : o_volume_unit order = UnitBase -> 0 < rem ->
    Forall (fun o => crosses limit (o_side order) (o_price o) = false)
      (side_orders (opposite (o_side order)) b');
  sb_journal : exists j, journaled b b' j;
}.

Section SweepBook.
Context `{I256Ops} `{!I256Laws}.

Lemma sweep_mode_base order : sweep_mode order = ModeBase <-> o_volume_unit order = UnitBase.
Proof.
  unfold sweep_mode. destruct (o_volume_unit order), (o_side order); split; done.
Qed.

(** Beyond the first maker away from the limit, every maker is away from it. *)
Lemma crosses_rest {K} `{BookKeyLaws K} limit side k o (m : list (K * Order)) :
  side = opposite (key_side K) -> side_ok ((k, o) :: m) ->
  crosses limit side (o_price o) = false ->
  Forall (fun o => crosses limit side (o_price o) = false) (bt_values ((k, o) :: m)).
Proof.
  intros -> [Hs Hm] Hc. constructor; [done|]. apply Forall_fmap. apply Forall_forall.
  intros e He. pose proof (bt_head_least _ _ _ _ Hs He) as Hlt.
  rewrite Forall_forall in Hm.
  pose proof (mk_key _ (Hm e ltac:(by right))) as Ek.
  pose proof (mk_key _ (Hm (k, o) ltac:(left))) as Ek0. simpl in *.
  rewrite Ek, Ek0 in Hlt. apply key_priority in Hlt.
  rewrite !key_price_of in Hlt. destruct limit as [p|]; simpl in *; [|done].
  unfold better in Hlt. destruct (key_side K); simpl in *; lia.
Qed.

Lemma fill_key_priority {K} `{BookKeyLaws K} (o o' : Order) :
  key_lt (key_of (o_price o) (o_sequence o)) (key_of (o_price o') (o_sequence o')) <->
  priority_lt (key_side K) o o'.
Proof. rewrite key_priority, !key_price_of, !key_sequence_of. done. Qed.

(** The sweep relation in terms that do not mention the key type. *)
Lemma sweep_rel_orders {K} `{BookKeyLaws K} env (s s' : SweepState K) new j :
  o_side (sw_order env) = opposite (key_side K) ->
  sweep_rel env s s' new j -> sweep_finished env s' ->
  Forall (trade_ok (sw_order env) (sw_limit env) (sw_config env)) new /\
  StronglySorted (fun f g => ~ priority_lt (key_side K) (m_maker g) (m_maker f)) new /\
  (forall f o, f ∈ new -> o ∈ bt_values (sw_resting s') ->
     ~ priority_lt (key_side K) o (m_maker f)) /\
  (o_volume_unit (sw_order env) = UnitBase -> 0 < sw_remaining s' ->
     Forall (fun o => crosses (sw_limit env) (o_side (sw_order env)) (o_price o) = false)
       (bt_values (sw_resting s'))).
Proof.
  intros Hside [Hid Hok Hrange Hres Hf Hopen Hwhere Hbase Hord Hfirst Hj Hlev Hjs Hd] Hfin.
  split_and!.
  - eapply Forall_impl; [exact Hf|]. intros f [? ? ? Hmk [? ? ? ? ? ? ? ? [] ?] ?]. simpl in *.
    split; try done; [|lia].
    rewrite Hside. by destruct (key_side K).
  - apply (strongly_sorted_fmap key_le) in Hord. eapply strongly_sorted_impl; [|exact Hord].
    intros f g. unfold key_le, fill_key. by rewrite fill_key_priority.
  - intros f o Hfn (e & -> & He)%list_elem_of_fmap. rewrite Forall_forall in Hfirst.
    specialize (Hfirst f Hfn). rewrite Forall_forall in Hfirst. specialize (Hfirst e He).
    unfold key_le, fill_key in Hfirst. destruct Hok as [_ Hok]. rewrite Forall_forall in Hok.
    rewrite (mk_key _ (Hok e He)) in Hfirst. by rewrite fill_key_priority in Hfirst.
  - intros Hb Hpos. apply sweep_mode_base in Hb.
    destruct Hfin as [?|[Hnil|[(k & o & m & E & Hc)|?]]]; [lia| | |done].
    + rewrite Hnil. constructor.
    + rewrite E in *. by apply crosses_rest.
Qed.

Lemma book_real_level n b side p :
  book_inv n b -> real_level (book_level side p b).1 (book_level side p b).2.
Proof. intros []. destruct side; simpl; by apply side_real_level. Qed.

Lemma identities_suffix {K} (m m' : list (K * Order)) :
  identities m' `suffix_of` identities m -> identities m' ⊆+ identities m.
Proof. apply suffix_submseteq. Qed.

Lemma sweep_spec order limit config b n :
  book_inv n b -> 0 <= o_volume order -> in_i128 (o_volume order) ->
  match sweep order limit config b with
  | Ret (fills, rem, b') => swept order limit config b fills rem b'
  | Panic => o_volume_unit order = UnitQuote
  | Diverged => False
  end.
Proof.
  intros Hinv Hpos Hrange. unfold sweep.
  set (env := mkSweepEnv _ _ _ _ _).
  assert (Hpanic : sweep_mode (sw_order env) <> ModeBase -> o_volume_unit order = UnitQuote).
  { rewrite sweep_mode_base. simpl. by destruct (o_volume_unit order). }
  destruct (o_side order) eqn:Eside.
  - pose proof (sweep_side_spec env (asks b) (depth_journal b) (gtd_scan_dirty b)
                  (bk_asks _ _ Hinv) Hrange) as Hs. simpl in Hs.
    destruct (sweep_side env _ _ _) as [s'| |]; simpl; [|by apply Hpanic|done].
    destruct Hs as (Hfin & j & R).
    assert (Hop : o_side (sw_order env) = opposite (key_side AskKey)) by done.
    destruct (sweep_rel_orders env _ _ _ _ Hop R Hfin)
      as (Htr & Hord & Hfst & Hdone).
    destruct R as [Hid Hok Hr Hres Hf Hopen Hwhere Hbase _ _ Hj Hlev Htr' Hjs _]. simpl in *.
    rewrite Eside in Hdone. split; rewrite ?Eside; try done.
    + intros n' Hn'. eapply (book_inv_shrink n' b); try done; [apply Hn'|].
      by apply identities_suffix.
    + intros Hb. apply Hbase; [by apply sweep_mode_base|done].
    + exists j. split_and!; [done|done|]. intros [|] p; simpl.
      * split; [|by apply (trail_other Sell)].
        destruct (journal_other_side Sell Buy p j Hjs) as [-> ->]; [done|]. f_equal; lia.
      * split; [by destruct (Hlev p) as [-> ->]|intros _; apply Htr'].
  - pose proof (sweep_side_spec env (bids b) (depth_journal b) (gtd_scan_dirty b)
                  (bk_bids _ _ Hinv) Hrange) as Hs. simpl in Hs.
    destruct (sweep_side env _ _ _) as [s'| |]; simpl; [|by apply Hpanic|done].
    destruct Hs as (Hfin & j & R).
    assert (Hop : o_side (sw_order env) = opposite (key_side BidKey)) by done.
    destruct (sweep_rel_orders env _ _ _ _ Hop R Hfin)
      as (Htr & Hord & Hfst & Hdone).
    destruct R as [Hid Hok Hr Hres Hf Hopen Hwhere Hbase _ _ Hj Hlev Htr' Hjs _]. simpl in *.
    rewrite Eside in Hdone. split; rewrite ?Eside; try done.
    + intros n' Hn'. eapply (book_inv_shrink n' b); try done; [apply Hn'|].
      by apply identities_suffix.
    + intros Hb. apply Hbase; [by apply sweep_mode_base|done].
    + exists j. split_and!; [done|done|]. intros [|] p; simpl.
      * split; [by destruct (Hlev p) as [-> ->]|intros _; apply Htr'].
      * split; [|by apply (trail_other Buy)].
        destruct (journal_other_side Buy Sell p j Hjs) as [-> ->]; [done|]. f_equal; lia.
Qed.
End SweepBook.
