(* ===== verification/BookOps.v ===== *)
(** * Every operation preserves the invariant

    Resting, stop parking, the stop cascade, the expiry purge, cancel and amend, each with the
    functional facts the claims of [Book] are made of. *)

From S2P Require Import Prelude BTree Fixed Order OrderBook Sweep BookInv.

(** ** Measures under reordering *)

Lemma sum_Z_Permutation l l' : l ≡ₚ l' -> sum_Z l = sum_Z l'.
Proof. induction 1; simpl; lia. Qed.

Section Measures.
Context {K : Type}.

#[global] Instance open_total_proper : Proper ((≡ₚ) ==> (=)) (@open_total K).
Proof. intros m m' Hp. apply sum_Z_Permutation. by rewrite Hp. Qed.
#[global] Instance level_volume_proper p : Proper ((≡ₚ) ==> (=)) (@level_volume K p).
Proof. intros m m' Hp. apply sum_Z_Permutation. by rewrite Hp. Qed.
#[global] Instance level_orders_proper p : Proper ((≡ₚ) ==> (=)) (@level_orders K p).
Proof. intros m m' Hp. apply sum_Z_Permutation. by rewrite Hp. Qed.
#[global] Instance identities_proper : Proper ((≡ₚ) ==> (≡ₚ)) (@identities K).
Proof. intros m m' Hp. unfold identities. by rewrite Hp. Qed.
End Measures.

Lemma ids_ok_Permutation n e l l' : l ≡ₚ l' -> ids_ok n e l -> ids_ok n e l'.
Proof. intros Hp. apply ids_ok_submseteq. by rewrite Hp. Qed.

(** ** Journal entries *)

Lemma journal_single side p side' p' v n :
  journal_volume side p [mkDepthChange side' p' v n] =
    (if bool_decide (side' = side) && (p' =? p) then v else 0) /\
  journal_orders side p [mkDepthChange side' p' v n] =
    (if bool_decide (side' = side) && (p' =? p) then n else 0).
Proof. unfold journal_volume, journal_orders, journal_at. simpl. lia. Qed.

Lemma journal_push_app j r side p v n :
  journal_push j r side p v n = j ++ (if r then [mkDepthChange side p v n] else []).
Proof. destruct r; simpl; by rewrite ?app_nil_r. Qed.

Lemma journaled_refl b : journaled b b [].
Proof.
  split_and!; [done| |].
  - destruct (record_depth b); by rewrite app_nil_r.
  - intros side p. split; [|apply trail_nil]. destruct (journal_nil side p) as [-> ->].
    destruct (book_level side p b); simpl. f_equal; lia.
Qed.

Lemma journaled_trans b1 b2 b3 j1 j2 :
  journaled b1 b2 j1 -> journaled b2 b3 j2 -> journaled b1 b3 (j1 ++ j2).
Proof.
  intros (Hr1 & Hj1 & Hl1) (Hr2 & Hj2 & Hl2). split_and!; [congruence| |].
  - rewrite Hj2, Hj1, Hr1. destruct (record_depth b1); rewrite ?app_nil_r; [by rewrite app_assoc|done].
  - intros side p. destruct (Hl1 side p) as [E1 T1], (Hl2 side p) as [E2 T2].
    rewrite E2, E1, journal_volume_app, journal_orders_app. split; [simpl; f_equal; lia|].
    intros Hr. specialize (T1 Hr). apply trail_app; [done|]. rewrite E1 in T2.
    apply T2. by apply trail_end.
Qed.

(** One change, between books with real levels. *)
Lemma journaled_single b b' c :
  record_depth b' = record_depth b ->
  depth_journal b' = depth_journal b ++ (if record_depth b then [c] else []) ->
  (forall side p,
    book_level side p b' =
    ((book_level side p b).1 + journal_volume side p [c],
     (book_level side p b).2 + journal_orders side p [c]) /\
    (real_level (book_level side p b).1 (book_level side p b).2 ->
     real_level (book_level side p b').1 (book_level side p b').2)) ->
  journaled b b' [c].
Proof.
  intros Hr Hj Hl. split_and!; [done|done|]. intros side p. destruct (Hl side p) as [E Hreal].
  split; [done|]. intros H0. apply trail_single; [done|]. specialize (Hreal H0).
  by rewrite E in Hreal.
Qed.

(** A book that differs only in fields the journal does not talk about. *)
Lemma journaled_same b b' j b'' :
  journaled b b' j -> bids b'' = bids b' -> asks b'' = asks b' ->
  depth_journal b'' = depth_journal b' -> record_depth b'' = record_depth b' ->
  journaled b b'' j.
Proof.
  intros (Hr & Hj & Hl) Hb Ha Hd Hrec. split_and!; [congruence|congruence|].
  intros side p. destruct (Hl side p) as [E T]. split; [|done].
  rewrite <- E. unfold book_level. by rewrite Hb, Ha.
Qed.

(** ** Inserting a fresh order *)

Lemma book_ids_bids b b' k o :
  bids b' ≡ₚ (k, o) :: bids b -> asks b' = asks b -> stops b' = stops b ->
  book_ids b' ≡ₚ identity o :: book_ids b.
Proof. intros Hp Ha Hs. by rewrite !all_orders_map, Hp, Ha, Hs. Qed.

Lemma book_ids_asks b b' k o :
  asks b' ≡ₚ (k, o) :: asks b -> bids b' = bids b -> stops b' = stops b ->
  book_ids b' ≡ₚ identity o :: book_ids b.
Proof. intros Hp Hb Hs. rewrite !all_orders_map, Hp, Hb, Hs. by rewrite Permutation_middle. Qed.

Lemma fresh_key {K} `{BookKeyLaws K} n (m : list (K * Order)) p :
  side_ok m -> Forall (fun o => o_sequence o < n) (bt_values m) ->
  bt_get (key_of p n) m = None.
Proof.
  intros [Hs Hm] Hn. destruct (bt_get _ m) as [o|] eqn:E; [|done]. exfalso.
  apply bt_get_elem in E; [|done]. rewrite Forall_forall in Hm. rewrite Forall_forall in Hn.
  pose proof (mk_key _ (Hm _ E)) as Ek. simpl in Ek.
  apply (f_equal key_sequence) in Ek. rewrite !key_sequence_of in Ek.
  specialize (Hn o). assert (o ∈ bt_values m) by (apply list_elem_of_fmap; by exists (key_of p n, o)).
  specialize (Hn ltac:(done)). lia.
Qed.

Lemma side_insert {K} `{BookKeyLaws K} (m : list (K * Order)) k o :
  side_ok m -> maker_ok (k, o) -> bt_get k m = None ->
  side_ok (bt_insert k o m) /\ bt_insert k o m ≡ₚ (k, o) :: m.
Proof.
  intros [Hs Hm] Hk Hn. pose proof (bt_insert_fresh k o m Hn) as Hp. split; [|done].
  split; [by apply bt_insert_sorted|]. rewrite Hp. by constructor.
Qed.

Lemma ids_below_side n e b side :
  ids_ok n e (book_ids b) -> Forall (fun o => o_sequence o < n) (side_orders side b).
Proof.
  intros [_ Hb _]. unfold book_ids, all_orders in Hb. rewrite Forall_fmap, !Forall_app in Hb.
  destruct Hb as (Hb & Ha & _).
  destruct side; (eapply Forall_impl; [done|]); intros o; simpl; lia.
Qed.

Lemma note_expiry_identity e o v h : note_expiry e (identity (set_volumes v h o)) = note_expiry e o.
Proof. done. Qed.

(** The visible tranche of a resting order. *)
Definition visible_part (order : Order) (total : Z) : Z :=
  if 0 <? o_display_volume order then Z.min (o_display_volume order) total else total.

Lemma visible_part_bounds order total :
  0 <= o_display_volume order -> 0 < total -> 0 < visible_part order total <= total.
Proof. intros ??. unfold visible_part. destruct (_ <? _) eqn:E; lia. Qed.

(** The order [rest] puts on the book. *)
Definition rested_order (order : Order) (total : Z) : Order :=
  set_volumes (visible_part order total) (total - visible_part order total) order.

Lemma rest_eq order total b :
  0 <= o_display_volume order -> 0 < total <= I128_MAX ->
  rest order total b =
  (visible_part order total,
   record_depth_change (o_side order) (o_price order) (visible_part order total) 1
     (set_gtd (note_expiry (earliest_gtd_expiry b) order) (gtd_scan_dirty b)
        (match o_side order with
         | Buy => set_bids (bt_insert (mkBidKey (o_price order) (o_sequence order))
                              (rested_order order total) (bids b)) b
         | Sell => set_asks (bt_insert (mkAskKey (o_price order) (o_sequence order))
                               (rested_order order total) (asks b)) b
         end))).
Proof.
  intros Hd Ht. unfold rest, rested_order. fold (visible_part order total).
  pose proof (visible_part_bounds order total Hd (proj1 Ht)) as Hv.
  unfold FIXED_ZERO, min. fold (visible_part order total).
  unfold fixed_sub. rewrite wrap_i128_id by range_lia. by destruct (o_side order).
Qed.

Lemma rested_maker_ok {K} `{BookKeyLaws K} order total :
  taker_ok order -> o_live order = Limit -> 0 < total <= I128_MAX ->
  o_side order = key_side K ->
  maker_ok (key_of (o_price order) (o_sequence order), rested_order order total).
Proof.
  intros [Hv Hp Hd Hr Hu] Hl Ht Hs.
  pose proof (visible_part_bounds order total (proj1 Hd) (proj1 Ht)).
  split; simpl; try done; try lia; auto.
  unfold visible_part. intros ?. destruct (_ <? _) eqn:E; lia.
Qed.

(** What resting adds to a side. *)
Record rested (order : Order) (total : Z) (b b' : OrderBook) : Prop := {
  re_inv : book_inv (o_sequence order + 1) b';
  re_journal : journaled b b'
    [mkDepthChange (o_side order) (o_price order) (visible_part order total) 1];
  re_open : side_open (o_side order) b' = side_open (o_side order) b + total;
  re_orders : side_orders (o_side order) b' ≡ₚ
    rested_order order total :: side_orders (o_side order) b;
  re_other : side_orders (opposite (o_side order)) b' = side_orders (opposite (o_side order)) b;
  re_frame : stops b' = stops b /\ book_sequence b' = book_sequence b /\
    last_trade_price b' = last_trade_price b;
}.

Lemma crosses_false_price side p q :
  crosses (Some p) side q = false -> better (opposite side) p q \/ better side q p.
Proof. unfold crosses, better. destruct side; simpl; lia. Qed.

Lemma rest_spec b order total :
  book_inv (o_sequence order) b -> taker_ok order -> o_live order = Limit ->
  0 < total <= I128_MAX ->
  Forall (fun o => crosses (Some (o_price order)) (o_side order) (o_price o) = false)
    (side_orders (opposite (o_side order)) b) ->
  exists b', rest order total b = (visible_part order total, b') /\ rested order total b b'.
Proof.
  intros [Hb Ha Hu Hs Hi Hn] Htk Hlive Ht Hx. rewrite rest_eq by (done || apply Htk).
  eexists. split; [done|].
  pose proof (ids_below_side _ _ _ (o_side order) Hi) as Hbelow.
  assert (Hids : forall b', book_ids b' ≡ₚ identity (rested_order order total) :: book_ids b ->
            ids_ok (o_sequence order + 1) (note_expiry (earliest_gtd_expiry b) order) (book_ids b')).
  { intros b' Hp. eapply ids_ok_Permutation; [symmetry; exact Hp|].
    rewrite <- (note_expiry_identity _ order (visible_part order total)
                  (total - visible_part order total)).
    apply ids_ok_add; [done|done|done]. }
  destruct (o_side order) eqn:Eside; simpl in *.
  - destruct (side_insert (bids b) (key_of (o_price order) (o_sequence order))
                (rested_order order total)) as [Hok Hp]; [done| |by apply fresh_key|].
    { by apply rested_maker_ok. }
    simpl in *. unfold bt_values in Hx. rewrite Forall_fmap, Forall_forall in Hx.
    split; rewrite ?Eside; simpl; try done.
    + split; simpl; [done|done| |done| |lia].
      * intros eb ea Heb Hea. simpl in *. rewrite Hp in Heb.
        apply elem_of_cons in Heb as [->|Heb]; [|by apply Hu]. simpl.
        specialize (Hx ea Hea). simpl in Hx. lia.
      * apply Hids. by eapply (book_ids_bids b).
    + apply journaled_single; [done|apply journal_push_app|].
      intros side p. split; [|by destruct side; [intros _; apply side_real_level|]].
      destruct (journal_single side p Buy (o_price order) (visible_part order total) 1)
        as [-> ->]. destruct side; simpl; [rewrite Hp, level_volume_cons, level_orders_cons|f_equal; lia].
      unfold at_price. simpl. destruct (_ =? p); f_equal; lia.
    + rewrite Hp, open_total_cons. unfold open_of. simpl. lia.
    + unfold bt_values. by rewrite Hp.
  - destruct (side_insert (asks b) (key_of (o_price order) (o_sequence order))
                (rested_order order total)) as [Hok Hp]; [done| |by apply fresh_key|].
    { by apply rested_maker_ok. }
    simpl in *. unfold bt_values in Hx. rewrite Forall_fmap, Forall_forall in Hx.
    split; rewrite ?Eside; simpl; try done.
    + split; simpl; [done|done| |done| |lia].
      * intros eb ea Heb Hea. simpl in *. rewrite Hp in Hea.
        apply elem_of_cons in Hea as [->|Hea]; [|by apply Hu]. simpl.
        specialize (Hx eb Heb). simpl in Hx. lia.
      * apply Hids. by eapply (book_ids_asks b).
    + apply journaled_single; [done|apply journal_push_app|].
      intros side p. split; [|by destruct side; [|intros _; apply side_real_level]].
      destruct (journal_single side p Sell (o_price order) (visible_part order total) 1)
        as [-> ->]. destruct side; simpl; [f_equal; lia|rewrite Hp, level_volume_cons, level_orders_cons].
      unfold at_price. simpl. destruct (_ =? p); f_equal; lia.
    + rewrite Hp, open_total_cons. unfold open_of. simpl. lia.
    + unfold bt_values. by rewrite Hp.
Qed.
