(* ===== verification/Purge.v ===== *)
(** * The expiry purge and the deadline index

    The key-by-key purge of a side is the removal of exactly the expired orders
    ([purge_keys_filter]); the whole purge never panics, returns the expired orders and leaves the
    others in place ([purge_expired_spec]); and the deadline index lets [purge_due_gtd] skip the
    scan without ever missing a due order ([purge_due_gtd_spec]). *)

From S2P Require Import Prelude BTree Fixed Order OrderBook Sweep BookInv BookOps.

Section PurgeSideTheory.
Context {K : Type} `{BookKeyLaws K}.
Variable has_expired : Order -> bool.
Implicit Types m : list (K * Order).

Definition expired_entries m : list (K * Order) := filter (fun e => has_expired e.2 = true) m.
Definition kept_entries m : list (K * Order) := filter (fun e => has_expired e.2 = false) m.

(** The change the purge journals for a removed order. *)
Definition removal (e : K * Order) : DepthChange :=
  mkDepthChange (key_side K) (o_price e.2) (fixed_neg (o_volume e.2)) (-1).

Lemma kept_cons e m :
  kept_entries (e :: m) = if has_expired e.2 then kept_entries m else e :: kept_entries m.
Proof.
  unfold kept_entries. rewrite filter_cons. by destruct (has_expired e.2) eqn:E; case_decide.
Qed.

Lemma expired_cons e m :
  expired_entries (e :: m) = if has_expired e.2 then e :: expired_entries m else expired_entries m.
Proof.
  unfold expired_entries. rewrite filter_cons. by destruct (has_expired e.2) eqn:E; case_decide.
Qed.

Lemma sorted_middle kept e m :
  bt_sorted (kept ++ e :: m) -> bt_get e.1 (kept ++ e :: m) = Some e.2 /\
  bt_remove e.1 (kept ++ e :: m) = kept ++ m.
Proof.
  intros Hs. assert (Hg : bt_get e.1 (kept ++ e :: m) = Some e.2).
  { apply bt_get_elem; [done|]. apply elem_of_app. right. destruct e. left. }
  split; [done|]. pose proof (bt_remove_Permutation _ _ _ Hg) as Hp. destruct e as [k o].
  assert (Hp' : kept ++ m ≡ₚ bt_remove k (kept ++ (k, o) :: m)).
  { apply (Permutation_cons_inv (a := (k, o))). simpl in Hp. rewrite <- Hp.
    by rewrite Permutation_middle. }
  symmetry. apply bt_sorted_unique; [|by apply bt_remove_sorted|done].
  unfold bt_sorted in *. rewrite fmap_app, fmap_cons in Hs. rewrite fmap_app.
  apply strongly_sorted_drop_middle in Hs. done.
Qed.

Lemma purge_keys_filter m : forall kept record journal removed,
  bt_sorted (kept ++ m) ->
  purge_keys has_expired m.*1 (kept ++ m) record journal removed =
  Ret (kept ++ kept_entries m,
       journal ++ (if record then removal <$> expired_entries m else []),
       removed ++ bt_values (expired_entries m)).
Proof.
  induction m as [|[k o] m IH]; intros kept record journal removed Hs; simpl.
  - unfold kept_entries, expired_entries. rewrite !filter_nil. simpl. rewrite !app_nil_r.
    by destruct record; rewrite ?app_nil_r.
  - destruct (sorted_middle _ _ _ Hs) as [Hg Hr]. simpl in *. rewrite Hg. simpl.
    rewrite kept_cons, expired_cons. simpl. destruct (has_expired o) eqn:E.
    + rewrite Hr, IH.
      * rewrite journal_push_app, <- !app_assoc. by destruct record.
      * pose proof (bt_remove_sorted k _ Hs) as Hs'. by rewrite Hr in Hs'.
    + rewrite (cons_middle (k, o) kept m), (app_assoc kept [_] m).
      rewrite IH; [|by rewrite <- app_assoc]. by rewrite <- app_assoc.
Qed.

Lemma kept_side_ok m : side_ok m -> side_ok (kept_entries m).
Proof.
  intros [Hs Hm]. split.
  - unfold bt_sorted in *. by apply strongly_sorted_filter_fst.
  - apply Forall_forall. intros e [_ He]%list_elem_of_filter. by rewrite Forall_forall in Hm; apply Hm.
Qed.

Lemma kept_expired_levels m p :
  Forall maker_ok m ->
  level_volume p (kept_entries m) =
    level_volume p m + journal_volume (key_side K) p (removal <$> expired_entries m) /\
  level_orders p (kept_entries m) =
    level_orders p m + journal_orders (key_side K) p (removal <$> expired_entries m).
Proof.
  induction 1 as [|[k o] m Hmk _ [IH1 IH2]]; [split; done|].
  rewrite kept_cons, expired_cons, level_volume_cons, level_orders_cons. simpl.
  destruct (has_expired o).
  - rewrite fmap_cons.
    change (?x :: ?l) with ([x] ++ l). rewrite journal_volume_app, journal_orders_app.
    destruct (journal_single (key_side K) p (key_side K) (o_price o) (fixed_neg (o_volume o)) (-1))
      as [E1 E2]. unfold removal at 1 3. simpl. rewrite E1, E2, bool_decide_eq_true_2 by done.
    destruct Hmk. simpl in *. unfold fixed_neg, at_price.
    rewrite wrap_i128_id by range_lia. simpl. destruct (_ =? p); lia.
  - rewrite level_volume_cons, level_orders_cons. lia.
Qed.

(** Removing expired orders one by one only passes through the levels of what is left. *)
Lemma removals_trail m p :
  side_ok m -> forall ev en, real_level ev en ->
  trail (key_side K) p (level_volume p m + ev) (level_orders p m + en)
    (removal <$> expired_entries m).
Proof.
  induction m as [|[k o] m IH]; intros Hok ev en He; [by apply trail_nil|].
  destruct (side_ok_cons _ _ _ Hok) as (Hmk & Hok' & _). specialize (IH Hok').
  pose proof (side_real_level _ p Hok') as R. destruct Hmk as [_ _ _ Hvol Hhid Hopen]. simpl in *.
  rewrite level_volume_cons, level_orders_cons, expired_cons. cbn [snd].
  destruct (has_expired o).
  - rewrite fmap_cons. change (?x :: ?l) with ([x] ++ l).
    destruct (journal_single (key_side K) p (key_side K) (o_price o) (fixed_neg (o_volume o)) (-1))
      as [E1 E2].
    rewrite bool_decide_eq_true_2 in E1, E2 by done. unfold fixed_neg in *.
    rewrite wrap_i128_id in * by range_lia. simpl in E1, E2. unfold removal at 1, fixed_neg.
    cbn [snd]. rewrite wrap_i128_id by range_lia. specialize (IH ev en He).
    apply trail_app; [apply trail_single|]; rewrite ?E1, ?E2; unfold at_price, real_level in *;
      destruct (o_price o =? p); try lia;
      match goal with |- trail _ _ ?v ?n _ =>
        replace v with (level_volume p m + ev) by lia;
        replace n with (level_orders p m + en) by lia end; exact IH.
  - rewrite <- !Z.add_assoc, (Z.add_comm _ (level_volume p m + ev)),
      (Z.add_comm _ (level_orders p m + en)), <- !Z.add_assoc.
    apply IH. unfold real_level in *. destruct (at_price p o); lia.
Qed.
End PurgeSideTheory.

(** ** The whole purge *)

(** The book without the orders [has_expired] selects. *)
Record purged (has_expired : Order -> bool) (b : OrderBook) (removed : list Order)
    (b' : OrderBook) : Prop := {
  pu_removed : removed = filter (fun o => has_expired o = true) (all_orders b);
  pu_kept : all_orders b' = filter (fun o => has_expired o = false) (all_orders b);
  pu_sides : forall side,
    side_orders side b' = filter (fun o => has_expired o = false) (side_orders side b);
  pu_stops : stops b' = filter (fun o => has_expired o = false) (stops b);
  pu_inv : forall n, book_inv n b -> book_inv n b';
  pu_journal : exists j, journaled b b' j;
  pu_frame : book_sequence b' = book_sequence b /\ last_trade_price b' = last_trade_price b;
}.

Lemma bt_values_filter {K} (f : Order -> bool) (r : bool) (m : list (K * Order)) :
  bt_values (filter (fun e => f e.2 = r) m) = filter (fun o => f o = r) (bt_values m).
Proof.
  unfold bt_values. induction m as [|e m IH]; [done|].
  rewrite fmap_cons, !filter_cons. case_decide; [|done]. by rewrite fmap_cons, IH.
Qed.

Lemma identities_filter {K} (P : K * Order -> Prop) `{!forall e, Decision (P e)}
    (m : list (K * Order)) : identities (filter P m) ⊆+ identities m.
Proof. apply fmap_submseteq, sublist_submseteq, sublist_filter. Qed.

(** The purge written out: both sides and the stops are filtered. *)
Lemma purge_expired_eq now day b :
  bt_sorted (bids b) -> bt_sorted (asks b) ->
  let f := fun order => is_expired (o_tif order) now day in
  let removed := filter (fun o => f o = true) (all_orders b) in
  let j := (removal <$> expired_entries f (bids b)) ++ (removal <$> expired_entries f (asks b)) in
  purge_expired now day b =
  Ret (removed,
       (match removed with [] => fun b => b | _ => mark_gtd_dirty end)
         (set_stops (filter (fun o => f o = false) (stops b))
            (set_depth_journal (depth_journal b ++ (if record_depth b then j else []))
               (set_asks (kept_entries f (asks b)) (set_bids (kept_entries f (bids b)) b))))).
Proof.
  intros Hb Ha f removed j. unfold purge_expired. fold f.
  rewrite (purge_keys_filter f (bids b) [] _ _ [] Hb). simpl.
  rewrite (purge_keys_filter f (asks b) [] _ _ _ Ha). simpl.
  unfold expired_entries. rewrite !bt_values_filter, <- !app_assoc, <- !filter_app.
  subst removed j. unfold all_orders, expired_entries.
  destruct (filter _ (_ ++ _)), (record_depth b); by rewrite ?app_nil_r.
Qed.

(** The journal of a purge: first the bids, then the asks. *)
Lemma purge_trail f b side p :
  side_ok (bids b) -> side_ok (asks b) ->
  trail side p (book_level side p b).1 (book_level side p b).2
    ((removal <$> expired_entries f (bids b)) ++ (removal <$> expired_entries f (asks b))).
Proof.
  intros Hb Ha.
  assert (Hs : forall (K : Type) `{BookKey K} (m : list (K * Order)),
            Forall (fun c => dc_side c = key_side K) (removal <$> expired_entries f m))
    by (intros; apply Forall_fmap, Forall_true; done).
  assert (Tb := removals_trail f (bids b) p Hb 0 0). assert (Ta := removals_trail f (asks b) p Ha 0 0).
  rewrite !Z.add_0_r in *. assert (R0 : real_level 0 0) by done. specialize (Tb R0). specialize (Ta R0).
  destruct side; simpl.
  - apply trail_app; [exact Tb|]. apply (trail_other Sell); [exact (Hs AskKey _ _ (asks b))|done|].
    by apply trail_end.
  - apply trail_app; [apply (trail_other Buy); [exact (Hs BidKey _ _ (bids b))|done|by apply trail_start in Ta]|].
    destruct (journal_other_side Buy Sell p (removal <$> expired_entries f (bids b))) as [-> ->];
      [exact (Hs BidKey _ _ (bids b))|done|]. rewrite !Z.add_0_r. exact Ta.
Qed.

Lemma purge_expired_spec n now day b :
  book_inv n b ->
  exists removed b', purge_expired now day b = Ret (removed, b') /\
    purged (fun order => is_expired (o_tif order) now day) b removed b'.
Proof.
  intros Hinv. pose proof (bk_bids _ _ Hinv) as [Hsb Hmb]. pose proof (bk_asks _ _ Hinv) as [Hsa Hma].
  rewrite purge_expired_eq by done. cbv zeta. set (f := fun order => is_expired _ _ _).
  set (removed := filter _ (all_orders b)).
  set (b0 := set_stops _ _). eexists removed, _. split; [done|].
  set (b' := (match removed with [] => _ | _ => _ end) b0).
  assert (Hfields : bids b' = kept_entries f (bids b) /\ asks b' = kept_entries f (asks b) /\
            stops b' = filter (fun o => f o = false) (stops b) /\
            earliest_gtd_expiry b' = earliest_gtd_expiry b /\ record_depth b' = record_depth b /\
            depth_journal b' = depth_journal b0 /\
            book_sequence b' = book_sequence b /\ last_trade_price b' = last_trade_price b).
  { subst b' b0. by destruct removed. }
  destruct Hfields as (Eb & Ea & Es & Ee & Er & Ej & Eq & El).
  split; [done|..].
  - unfold all_orders. rewrite Eb, Ea, Es. unfold kept_entries. by rewrite !bt_values_filter, !filter_app.
  - intros [|]; simpl; rewrite ?Eb, ?Ea; apply bt_values_filter.
  - done.
  - intros n' Hn'. destruct Hn'. eapply (book_inv_shrink n' b); rewrite ?Eb, ?Ea, ?Es;
      try (by apply kept_side_ok); try apply identities_filter; try done.
    apply sublist_submseteq, sublist_filter.
  - eexists. split_and!; [done|exact Ej|]. intros side p. split.
    2: { intros _. apply purge_trail; apply Hinv. }
    unfold book_level. rewrite journal_volume_app, journal_orders_app.
    destruct (kept_expired_levels f (bids b) p Hmb) as [Vb Nb].
    destruct (kept_expired_levels f (asks b) p Hma) as [Va Na].
    assert (Hother : forall s (K : Type) `{BookKey K} (m : list (K * Order)), key_side K <> s ->
              journal_volume s p (removal <$> m) = 0 /\ journal_orders s p (removal <$> m) = 0).
    { intros s K ?? m Hne. apply (journal_other_side (key_side K)); [|done].
      apply Forall_fmap, Forall_true. done. }
    destruct side; rewrite ?Eb, ?Ea.
    + destruct (Hother Buy AskKey _ _ (expired_entries f (asks b))) as [E1 E2]; [done|].
      simpl in *. rewrite E1, E2. f_equal; lia.
    + destruct (Hother Sell BidKey _ _ (expired_entries f (bids b))) as [E1 E2]; [done|].
      simpl in *. rewrite E1, E2. f_equal; lia.
  - done.
Qed.

(** ** The deadline index *)

Lemma note_expiry_foldl_covered l : forall e o,
  covered e o \/ o ∈ l -> covered (foldl note_expiry e l) o.
Proof.
  induction l as [|x l IH]; intros e o Ho; simpl.
  - destruct Ho as [?|Ho]; [done|]. by apply not_elem_of_nil in Ho.
  - apply IH. destruct Ho as [Ho|[->|Ho]%elem_of_cons]; [left; by apply covered_note| |by right].
    left. apply covered_self.
Qed.

(** The rebuilt index is the deadline of some order of the list. *)
Lemma note_expiry_foldl_attained l : forall e d,
  foldl note_expiry e l = Some d -> e = Some d \/ exists o, o ∈ l /\ o_tif o = Gtd d.
Proof.
  induction l as [|x l IH]; intros e d Hd; simpl in *; [by left|].
  apply IH in Hd as [Hd|(o & ? & ?)]; [|right; exists o; split; [by right|done]].
  unfold note_expiry, min_expiry in Hd. destruct (o_tif x) as [| | |expiry|] eqn:Et; try by left.
  destruct e as [c|]; simplify_eq.
  - destruct (Z.min_spec c expiry) as [[_ ->]|[_ ->]]; [by left|right].
    exists x. split; [left|done].
  - right. exists x. split; [left|done].
Qed.

Lemma refresh_inv n b : book_inv n b -> book_inv n (refresh_earliest_gtd b).
Proof.
  intros Hinv. unfold refresh_earliest_gtd. destruct (gtd_scan_dirty b); simpl; [|done].
  destruct Hinv as [? ? ? ? [Hu Hb _] ?]. split; try done. split; [done|done|].
  unfold book_ids. simpl. apply Forall_fmap, Forall_forall. intros o Ho.
  apply (note_expiry_foldl_covered (all_orders b) None o). by right.
Qed.

Lemma refresh_same b :
  let b' := refresh_earliest_gtd b in
  bids b' = bids b /\ asks b' = asks b /\ stops b' = stops b /\
  depth_journal b' = depth_journal b /\ record_depth b' = record_depth b /\
  book_sequence b' = book_sequence b /\ last_trade_price b' = last_trade_price b.
Proof. unfold refresh_earliest_gtd. by destruct (gtd_scan_dirty b). Qed.

Lemma is_expired_gtd o now : is_expired (o_tif o) now None = true -> exists d, o_tif o = Gtd d /\ d <= now.
Proof. destruct (o_tif o); simpl; try done. intros ?. eexists. split; [done|]. lia. Qed.

(** An index above [now] means nothing is due. *)
Lemma covered_not_due e now o :
  covered e o -> match e with Some d => d <=? now | None => false end = false ->
  is_expired (o_tif o) now None = false.
Proof.
  intros Hc He. destruct (is_expired _ _ _) eqn:E; [|done].
  apply is_expired_gtd in E as (d & Et & Hd). unfold covered in Hc. rewrite Et in Hc.
  destruct Hc as (c & -> & ?). lia.
Qed.

Lemma filter_all {A} (f : A -> bool) (r : bool) l :
  Forall (fun x => f x = r) l ->
  filter (fun x => f x = r) l = l /\ filter (fun x => f x = negb r) l = [].
Proof.
  induction 1 as [|x l E _ [IH1 IH2]]; [done|]. rewrite !filter_cons, IH1, IH2.
  by destruct r; rewrite E.
Qed.

Lemma covered_orders n e b : ids_ok n e (book_ids b) -> Forall (covered e) (all_orders b).
Proof. intros [_ _ Hc]. unfold book_ids in Hc. by rewrite Forall_fmap in Hc. Qed.

Lemma side_orders_all {P : Order -> Prop} b side :
  Forall P (all_orders b) -> Forall P (side_orders side b) /\ Forall P (stops b).
Proof. unfold all_orders. rewrite !Forall_app. by destruct side; intros (? & ? & ?). Qed.

(** A book without due orders is its own purge. *)
Lemma purged_nothing f b :
  Forall (fun o => f o = false) (all_orders b) -> purged f b [] b.
Proof.
  intros Hf. destruct (filter_all f false _ Hf) as [E1 E2]. split; try done.
  - intros side. destruct (side_orders_all b side Hf) as [Hs _].
    by destruct (filter_all f false _ Hs) as [-> _].
  - destruct (side_orders_all b Buy Hf) as [_ Hs]. by destruct (filter_all f false _ Hs) as [-> _].
  - exists []. apply journaled_refl.
Qed.

Lemma purge_due_gtd_spec n now b :
  book_inv n b ->
  exists removed b', purge_due_gtd now b = Ret (removed, b') /\
    purged (fun order => is_expired (o_tif order) now None) b removed b'.
Proof.
  intros Hinv. pose proof (refresh_inv _ _ Hinv) as Hr. unfold purge_due_gtd.
  set (b1 := refresh_earliest_gtd b) in *.
  destruct (refresh_same b) as (Eb & Ea & Es & Ej & Er & Eq & El). fold b1 in Eb, Ea, Es, Ej, Er, Eq, El.
  assert (Eall : all_orders b1 = all_orders b) by (unfold all_orders; by rewrite Eb, Ea, Es).
  assert (Hlift : forall removed b', purged (fun o => is_expired (o_tif o) now None) b1 removed b' ->
                    purged (fun o => is_expired (o_tif o) now None) b removed b').
  { intros removed b' [P1 P2 P3 P4 P5 (j & P6) P7]. rewrite Eall, ?Es, ?Eq, ?El in *.
    split; try done.
    - intros side. rewrite P3. destruct side; simpl; by rewrite ?Eb, ?Ea.
    - intros n' Hn'. apply P5. by apply refresh_inv.
    - exists j. destruct P6 as (R1 & R2 & R3). split_and!; [congruence|by rewrite R2, Ej, Er|].
      intros side p. specialize (R3 side p). unfold book_level in *. by rewrite Eb, Ea in R3. }
  destruct (match earliest_gtd_expiry b1 with Some _ => _ | None => _ end) eqn:Edue.
  - destruct (purge_expired_spec n now None b1 Hr) as (removed & b' & E & P). eauto.
  - eexists [], b1. split; [done|]. apply Hlift, purged_nothing.
    eapply Forall_impl; [eapply covered_orders, Hr|]. intros o Ho. by eapply covered_not_due.
Qed.

(** Without deadlines in the index nothing can be due: the automatic purge may be skipped. *)
Lemma no_deadlines_purged n now b :
  book_inv n b -> has_gtd_deadlines b = false ->
  purged (fun order => is_expired (o_tif order) now None) b [] b.
Proof.
  intros Hinv Hd. unfold has_gtd_deadlines in Hd.
  destruct (earliest_gtd_expiry b) as [|] eqn:Ee; [done|].
  apply purged_nothing. eapply Forall_impl; [eapply covered_orders, (bk_ids _ _ Hinv)|].
  intros o Ho. eapply covered_not_due; [exact Ho|]. by rewrite Ee.
Qed.
