(* ===== verification/Change.v ===== *)
(** * Cancel and amend

    Cancel takes exactly the named order out of the book; amend keeps the queue position when it
    only reduces size at the same price and re-enters the order at the back otherwise, never
    crossing the book. *)

From S2P Require Import Prelude BTree Fixed Order OrderBook Sweep BookInv BookOps.

(** ** The best price of a side *)

Lemma head_best {K} `{BookKeyLaws K} (m : list (K * Order)) o :
  side_ok m -> head (bt_values m) = Some o ->
  Forall (fun x => ~ better (key_side K) (o_price x) (o_price o)) (bt_values m).
Proof.
  intros [Hs Hm] Ho. destruct m as [|[k o0] m]; [done|]. injection Ho as [= ->].
  apply Forall_fmap, Forall_forall. intros [k' x] Hx. simpl. rewrite Forall_forall in Hm.
  apply elem_of_cons in Hx as [[= -> ->]|Hx]; [unfold better; destruct (key_side K); lia|].
  pose proof (bt_head_least _ _ _ _ Hs Hx) as Hlt. simpl in Hlt.
  pose proof (mk_key _ (Hm (k, o) ltac:(left))) as E1.
  pose proof (mk_key _ (Hm (k', x) ltac:(by right))) as E2. simpl in *.
  rewrite E1, E2 in Hlt. apply key_priority in Hlt. rewrite !key_price_of in Hlt.
  unfold better in *. destruct (key_side K); lia.
Qed.

(** The guard [would_cross] and [amend] share: the opposite best price against [p]. *)
Lemma no_cross n b side p :
  book_inv n b ->
  match side with
  | Buy => match best_ask b with Some ask => o_price ask <=? p | None => false end
  | Sell => match best_bid b with Some bid => p <=? o_price bid | None => false end
  end = false ->
  Forall (fun o => crosses (Some p) side (o_price o) = false) (side_orders (opposite side) b).
Proof.
  intros Hinv Hx. unfold best_ask, best_bid in Hx. destruct side; simpl.
  - destruct (head (bt_values (asks b))) as [o|] eqn:Eo.
    + pose proof (head_best (asks b) o (bk_asks _ _ Hinv) Eo) as Hb.
      eapply Forall_impl; [exact Hb|]. simpl. lia.
    + apply head_None in Eo. rewrite Eo. constructor.
  - destruct (head (bt_values (bids b))) as [o|] eqn:Eo.
    + pose proof (head_best (bids b) o (bk_bids _ _ Hinv) Eo) as Hb.
      eapply Forall_impl; [exact Hb|]. simpl. lia.
    + apply head_None in Eo. rewrite Eo. constructor.
Qed.

(** And the converse: a crossing best price is a crossing order. *)
Lemma would_cross_true order b :
  would_cross order b = true ->
  exists o, o ∈ side_orders (opposite (o_side order)) b /\
    crosses (Some (o_price order)) (o_side order) (o_price o) = true.
Proof.
  unfold would_cross, best_ask, best_bid. destruct (o_side order); simpl.
  - destruct (bt_values (asks b)) as [|o l]; [done|]. simpl. intros ?. exists o. split; [left|done].
  - destruct (bt_values (bids b)) as [|o l]; [done|]. simpl. intros ?. exists o. split; [left|done].
Qed.

(** ** Cancel *)

Section RemoveSide.
Context {K : Type} `{BookKeyLaws K}.
Implicit Types m : list (K * Order).

Lemma bt_remove_absent k m : bt_get k m = None -> bt_remove k m = m.
Proof.
  induction m as [|[k' v] m IH]; simpl; [done|]. destruct (cmp k k'); try done;
    intros; by rewrite IH.
Qed.

Lemma side_remove k o m :
  side_ok m -> bt_get k m = Some o ->
  side_ok (bt_remove k m) /\ m ≡ₚ (k, o) :: bt_remove k m /\ maker_ok (k, o).
Proof.
  intros [Hs Hm] Hg. pose proof (bt_remove_Permutation _ _ _ Hg) as Hp. split_and!; [|done|].
  - split; [by apply bt_remove_sorted|by apply bt_remove_Forall].
  - rewrite Forall_forall in Hm. apply Hm. by apply bt_get_elem.
Qed.
End RemoveSide.

Lemma levels_perm {K} p k o (m m' : list (K * Order)) :
  m ≡ₚ (k, o) :: m' ->
  level_volume p m = (if at_price p o then o_volume o else 0) + level_volume p m' /\
  level_orders p m = (if at_price p o then 1 else 0) + level_orders p m'.
Proof. intros ->. done. Qed.

(** What a removal from the book or the stops leaves. *)
Record removed_from (b : OrderBook) (o : Order) (b' : OrderBook) : Prop := {
  rm_orders : all_orders b ≡ₚ o :: all_orders b';
  rm_inv : forall n, book_inv n b -> book_inv n b';
  rm_stops : stops b' ⊆+ stops b;
  rm_journal : exists j, journaled b b' j;
  rm_frame : book_sequence b' = book_sequence b /\ last_trade_price b' = last_trade_price b /\
    earliest_gtd_expiry b' = earliest_gtd_expiry b;
}.

Lemma remove_stop b i o others d :
  vec_remove i (stops b) = Some (o, others) ->
  removed_from b o (set_gtd (earliest_gtd_expiry b) d (set_stops others b)).
Proof.
  intros Hv. apply vec_remove_Permutation in Hv as Hp. split; try done.
  - unfold all_orders. simpl. rewrite Hp. solve_Permutation.
  - intros n Hinv. destruct Hinv. eapply (book_inv_shrink n b); try done. simpl.
    rewrite Hp. by apply submseteq_cons.
  - simpl. rewrite Hp. by apply submseteq_cons.
  - exists []. by eapply journaled_same; [apply journaled_refl|..].
Qed.

Lemma maker_removal {K} `{BookKey K} (k : K) o :
  maker_ok (k, o) -> o_side o = key_side K /\ fixed_neg (o_volume o) = - o_volume o.
Proof. intros []. simpl in *. split; [done|]. apply wrap_i128_id. range_lia. Qed.

Lemma remove_bid b k o d :
  side_ok (bids b) -> bt_get k (bids b) = Some o ->
  removed_from b o
    (record_depth_change (o_side o) (o_price o) (fixed_neg (o_volume o)) (-1)
       (set_gtd (earliest_gtd_expiry b) d (set_bids (bt_remove k (bids b)) b))).
Proof.
  intros Hs Hg. destruct (side_remove _ _ _ Hs Hg) as (Hok & Hp & Hmk). split; try done.
  - unfold all_orders, bt_values. simpl. by rewrite Hp at 1.
  - intros n Hinv. destruct Hinv. eapply (book_inv_shrink n b); try done. simpl.
    rewrite Hp at 2. by apply submseteq_cons.
  - destruct (maker_removal _ _ Hmk) as [-> ->]. simpl.
    exists [mkDepthChange Buy (o_price o) (- o_volume o) (-1)].
    apply journaled_single; [done|apply journal_push_app|].
    intros side p. split; [|by destruct side; [intros _; apply side_real_level|]]. destruct (journal_single side p Buy (o_price o) (- o_volume o) (-1)) as [-> ->].
    destruct side; simpl; [|f_equal; lia].
    destruct (levels_perm p _ _ _ _ Hp) as [-> ->]. unfold at_price. destruct (_ =? p); f_equal; lia.
Qed.

Lemma remove_ask b k o d :
  side_ok (asks b) -> bt_get k (asks b) = Some o ->
  removed_from b o
    (record_depth_change (o_side o) (o_price o) (fixed_neg (o_volume o)) (-1)
       (set_gtd (earliest_gtd_expiry b) d (set_asks (bt_remove k (asks b)) b))).
Proof.
  intros Hs Hg. destruct (side_remove _ _ _ Hs Hg) as (Hok & Hp & Hmk). split; try done.
  - unfold all_orders, bt_values. simpl. rewrite Hp at 1. rewrite fmap_cons. simpl. solve_Permutation.
  - intros n Hinv. destruct Hinv. eapply (book_inv_shrink n b); try done. simpl.
    rewrite Hp at 2. by apply submseteq_cons.
  - destruct (maker_removal _ _ Hmk) as [-> ->]. simpl.
    exists [mkDepthChange Sell (o_price o) (- o_volume o) (-1)].
    apply journaled_single; [done|apply journal_push_app|].
    intros side p. split; [|by destruct side; [|intros _; apply side_real_level]]. destruct (journal_single side p Sell (o_price o) (- o_volume o) (-1)) as [-> ->].
    destruct side; simpl; [f_equal; lia|].
    destruct (levels_perm p _ _ _ _ Hp) as [-> ->]. unfold at_price. destruct (_ =? p); f_equal; lia.
Qed.

(** The order a cancel names: a parked stop by side and sequence, or a resting order by its key. *)
Definition names (request o : Order) (b : OrderBook) : Prop :=
  (o ∈ stops b /\ o_side o = o_side request /\ o_sequence o = o_sequence request) \/
  (o ∈ side_orders (o_side request) b /\ o_price o = o_price request /\
   o_sequence o = o_sequence request).

Lemma side_get_iff {K} `{BookKeyLaws K} (m : list (K * Order)) p s o :
  side_ok m ->
  bt_get (key_of p s) m = Some o <-> o ∈ bt_values m /\ o_price o = p /\ o_sequence o = s.
Proof.
  intros [Hs Hm]. rewrite bt_get_elem by done. split.
  - intros He. rewrite Forall_forall in Hm. pose proof (mk_key _ (Hm _ He)) as Ek. simpl in Ek.
    split; [apply list_elem_of_fmap; by exists (key_of p s, o)|].
    pose proof (f_equal key_price Ek). pose proof (f_equal key_sequence Ek).
    rewrite !key_price_of in *. rewrite !key_sequence_of in *. done.
  - intros (([k x] & -> & He)%list_elem_of_fmap & <- & <-). rewrite Forall_forall in Hm.
    pose proof (mk_key _ (Hm _ He)) as Ek. simpl in *. by rewrite Ek in He.
Qed.

Lemma cancel_spec n request b :
  book_inv n b ->
  exists r b', cancel request b = Ret (r, b') /\
    match r with
    | Some o => names request o b /\ removed_from b o b'
    | None => b' = b /\ forall o, ~ names request o b
    end.
Proof.
  intros Hinv. unfold cancel. destruct (position _ (stops b)) as [i|] eqn:Ei.
  - apply position_Some in Ei as (o & Hl & Ho). apply andb_true_iff in Ho as [Hos Hoq].
    apply bool_decide_eq_true_1 in Hos. apply Z.eqb_eq in Hoq.
    destruct (vec_remove i (stops b)) as [[o' others]|] eqn:Ev.
    2:{ unfold vec_remove in Ev. by rewrite Hl in Ev. }
    assert (o' = o) as -> by (unfold vec_remove in Ev; rewrite Hl in Ev; by simplify_eq).
    simpl. eexists (Some o), _. split; [done|]. split.
    + left. split; [by eapply list_elem_of_lookup_2|done].
    + destruct (is_gtd (o_tif o)).
      * by apply (remove_stop b i o others true).
      * by apply (remove_stop b i o others (gtd_scan_dirty b)).
  - assert (Hnostop : forall o, o ∈ stops b -> o_side o = o_side request ->
              o_sequence o = o_sequence request -> False).
    { intros o Ho Hs Hq. apply position_None in Ei. rewrite Forall_forall in Ei.
      specialize (Ei o Ho). simpl in Ei. rewrite bool_decide_eq_true_2 in Ei by done. lia. }
    destruct (o_side request) eqn:Eside.
    + destruct (bt_get _ (bids b)) as [o|] eqn:Eg.
      * eexists (Some o), _. split; [done|]. split.
        -- right. rewrite Eside. by apply (side_get_iff (bids b) _ _ o (bk_bids _ _ Hinv)).
        -- destruct (is_gtd (o_tif o));
             [by apply (remove_bid b _ o true); [apply Hinv|]
             |by apply (remove_bid b _ o (gtd_scan_dirty b)); [apply Hinv|]].
      * rewrite bt_remove_absent by done. eexists None, _. split; [done|].
        split; [by destruct b|]. intros o [(? & ? & ?)|Ho].
        -- rewrite Eside in *. by eapply Hnostop.
        -- rewrite Eside in Ho. apply (side_get_iff (bids b) _ _ o (bk_bids _ _ Hinv)) in Ho. simpl in Ho. congruence.
    + destruct (bt_get _ (asks b)) as [o|] eqn:Eg.
      * eexists (Some o), _. split; [done|]. split.
        -- right. rewrite Eside. by apply (side_get_iff (asks b) _ _ o (bk_asks _ _ Hinv)).
        -- destruct (is_gtd (o_tif o));
             [by apply (remove_ask b _ o true); [apply Hinv|]
             |by apply (remove_ask b _ o (gtd_scan_dirty b)); [apply Hinv|]].
      * rewrite bt_remove_absent by done. eexists None, _. split; [done|].
        split; [by destruct b|]. intros o [(? & ? & ?)|Ho].
        -- rewrite Eside in *. by eapply Hnostop.
        -- rewrite Eside in Ho. apply (side_get_iff (asks b) _ _ o (bk_asks _ _ Hinv)) in Ho. simpl in Ho. congruence.
Qed.

(** ** Amend *)

(** The amended order: the new price and size, and the sequence number [s]. *)
Definition amended (stored : Order) (p v s : Z) : Order :=
  set_sequence s (set_volume v (set_price p stored)).

(** Time priority is kept exactly when the price stays and the size does not grow. *)
Definition keeps_priority (stored : Order) (p v : Z) : bool :=
  (p =? o_price stored) && (v <=? o_volume stored).

Definition amended_sequence (stored : Order) (p v n : Z) : Z :=
  if keeps_priority stored p v then o_sequence stored else n.

Section AmendSide.
Context {K : Type} `{BookKeyLaws K}.
Implicit Types m : list (K * Order).

Lemma amended_maker_ok k stored p v s :
  maker_ok (k, stored) -> o_display_volume stored <= 0 -> 0 < p <= I128_MAX ->
  0 < v <= I128_MAX -> maker_ok (key_of p s, amended stored p v s).
Proof. intros [] ???. simpl in *. split; simpl; try done; lia. Qed.

Lemma amend_in_map_spec m k stored p v n :
  side_ok m -> bt_get k m = Some stored -> Forall (fun o => o_sequence o < n) (bt_values m) ->
  o_display_volume stored <= 0 -> 0 < p <= I128_MAX -> 0 < v <= I128_MAX ->
  let o' := amended stored p v (amended_sequence stored p v n) in
  exists m', side_ok m' /\ m' ≡ₚ (key_of (o_price o') (o_sequence o'), o') :: bt_remove k m /\
    amend_in_map m k stored p v n =
      Ret (mkAmendment n o' (o_sequence stored) (o_price stored) (o_volume stored),
           negb (keeps_priority stored p v), m').
Proof.
  intros Hok Hg Hn Hd Hp Hv o'. destruct (side_remove _ _ _ Hok Hg) as (Hok' & Hperm & Hmk).
  unfold amend_in_map. rewrite Hg. fold (keeps_priority stored p v).
  unfold o', amended_sequence. clear o'. destruct (keeps_priority stored p v) eqn:Ek; simpl.
  - apply andb_true_iff in Ek as [Ep Ev]. apply Z.eqb_eq in Ep. subst p.
    assert (Ekey : k = key_of (o_price stored) (o_sequence stored)) by apply (mk_key _ Hmk).
    assert (Eo : set_volume v stored = amended stored (o_price stored) v (o_sequence stored))
      by (by destruct stored).
    assert (Hset : bt_set k (set_volume v stored) m ≡ₚ (k, set_volume v stored) :: bt_remove k m)
      by (by eapply bt_set_Permutation).
    rewrite <- Eo, <- Ekey. eexists. split_and!; [|done|done].
    destruct Hok as [Hs _]. split; [by apply bt_set_sorted|]. rewrite Hset.
    constructor; [|apply Hok']. rewrite Ekey, Eo. by eapply amended_maker_ok.
  - assert (Hfresh : bt_get (key_of p n) (bt_remove k m) = None).
    { apply fresh_key; [done|]. unfold bt_values in *. rewrite Forall_fmap in *.
      by apply bt_remove_Forall. }
    destruct (side_insert (bt_remove k m) (key_of p n) (amended stored p v n)) as [Hok2 Hp2];
      [done|by eapply amended_maker_ok|done|].
    eexists. split_and!; [exact Hok2|exact Hp2|done].
Qed.
End AmendSide.

(** What a granted amendment does to the book. *)
Record amended_in (request : Order) (price volume : option Fixed) (n : Z)
    (b : OrderBook) (am : Amendment) (b' : OrderBook) : Prop := {
  ai_stored : exists stored others,
    stored ∈ side_orders (o_side request) b /\
    o_price stored = o_price request /\ o_sequence stored = o_sequence request /\
    all_orders b ≡ₚ stored :: others /\ all_orders b' ≡ₚ am_order am :: others /\
    let p := default (o_price stored) price in
    let v := default (o_volume stored) volume in
    am = mkAmendment n (amended stored p v (amended_sequence stored p v n))
           (o_sequence stored) (o_price stored) (o_volume stored);
  ai_inv : book_inv (n + 1) b';
  ai_journal : exists j, journaled b b' j;
  ai_frame : stops b' = stops b /\ book_sequence b' = book_sequence b /\
    last_trade_price b' = last_trade_price b;
}.

Lemma ids_ok_amended n e stored l p v :
  0 <= n -> ids_ok n e (identity stored :: l) ->
  ids_ok (n + 1) e (identity (amended stored p v (amended_sequence stored p v n)) :: l).
Proof.
  intros Hn Hids. unfold amended_sequence. destruct (keeps_priority stored p v).
  - destruct Hids as [Hu Hb Hc]. split; [exact Hu| |].
    + inversion Hb; subst. constructor; [simpl in *; lia|]. eapply Forall_impl; [done|]. simpl. lia.
    + inversion Hc; subst. by constructor.
  - apply ids_ok_cons; [|done|done|].
    + eapply ids_ok_submseteq; [|exact Hids]. by apply submseteq_cons.
    + destruct Hids as [_ _ Hc]. by inversion Hc.
Qed.

(** The journal entries of an amendment, as one lemma for both sides. *)
Definition amend_journal (side : OrderSide) (stored : Order) (p v : Z) : list DepthChange :=
  if keeps_priority stored p v then
    if negb (v =? o_volume stored) then [mkDepthChange side p (v - o_volume stored) 0] else []
  else [mkDepthChange side (o_price stored) (- o_volume stored) (-1); mkDepthChange side p v 1].

Lemma amend_journal_levels {K} side stored p v s (m m' others : list (K * Order)) k k' q :
  m ≡ₚ (k, stored) :: others -> m' ≡ₚ (k', amended stored p v s) :: others ->
  level_volume q m' = level_volume q m + journal_volume side q (amend_journal side stored p v) /\
  level_orders q m' = level_orders q m + journal_orders side q (amend_journal side stored p v).
Proof.
  intros H1 H2. destruct (levels_perm q _ _ _ _ H1) as [-> ->].
  destruct (levels_perm q _ _ _ _ H2) as [-> ->]. unfold amend_journal, at_price. simpl.
  destruct (keeps_priority stored p v) eqn:Ek.
  - apply andb_true_iff in Ek as [Ep%Z.eqb_eq _]. subst p. destruct (v =? _) eqn:Ev; simpl.
    + unfold journal_volume, journal_orders. simpl. destruct (_ =? q); lia.
    + destruct (journal_single side q side (o_price stored) (v - o_volume stored) 0) as [-> ->].
      rewrite bool_decide_eq_true_2 by done. simpl. destruct (_ =? q); lia.
  - change [?x; ?y] with ([x] ++ [y]). rewrite journal_volume_app, journal_orders_app.
    destruct (journal_single side q side (o_price stored) (- o_volume stored) (-1)) as [-> ->].
    destruct (journal_single side q side p v 1) as [-> ->].
    rewrite bool_decide_eq_true_2 by done. simpl.
    destruct (o_price stored =? q), (p =? q); lia.
Qed.

(** Between the two changes of a requeue stand the other orders. *)
Lemma amend_journal_trail {K} `{BookKeyLaws K} side stored p v s (m m' others : list (K * Order)) k k' q :
  m ≡ₚ (k, stored) :: others -> m' ≡ₚ (k', amended stored p v s) :: others ->
  side_ok m -> side_ok m' -> side_ok others ->
  trail side q (level_volume q m) (level_orders q m) (amend_journal side stored p v).
Proof.
  intros P1 P2 Hm Hm' Ho.
  destruct (amend_journal_levels side stored p v s m m' others k k' q P1 P2) as [Ev En].
  pose proof (side_real_level _ q Hm) as R. pose proof (side_real_level _ q Hm') as R'.
  pose proof (side_real_level _ q Ho) as Ro.
  destruct (levels_perm q _ _ _ _ P1) as [Lv Ln]. rewrite Ev, En in R'.
  unfold amend_journal in *. destruct (keeps_priority stored p v).
  - destruct (negb _); [by apply trail_single|by apply trail_nil].
  - change [?x; ?y] with ([x] ++ [y]) in *. rewrite journal_volume_app, journal_orders_app in R'.
    rewrite !Z.add_assoc in R'.
    assert (Hmid : real_level
      (level_volume q m + journal_volume side q [mkDepthChange side (o_price stored) (- o_volume stored) (-1)])
      (level_orders q m + journal_orders side q [mkDepthChange side (o_price stored) (- o_volume stored) (-1)])).
    { destruct (journal_single side q side (o_price stored) (- o_volume stored) (-1)) as [-> ->].
      rewrite bool_decide_eq_true_2, Lv, Ln by done. unfold at_price, real_level in *. simpl.
      destruct (o_price stored =? q); lia. }
    apply trail_app; by apply trail_single.
Qed.

(** The tail of [amend_with_sequence]: the depth changes it records. *)
Definition journal_amendment (side : OrderSide) (am : Amendment) (reinserted : bool)
    (b : OrderBook) : OrderBook :=
  if reinserted then
    record_depth_change side (o_price (am_order am)) (o_volume (am_order am)) 1
      (record_depth_change side (am_previous_price am) (fixed_neg (am_previous_volume am)) (-1) b)
  else if negb (o_volume (am_order am) =? am_previous_volume am) then
    record_depth_change side (o_price (am_order am))
      (fixed_sub (o_volume (am_order am)) (am_previous_volume am)) 0 b
  else b.

Lemma journal_amendment_eq side stored p v s n b :
  0 < v <= I128_MAX -> 0 < o_volume stored <= I128_MAX ->
  let am := mkAmendment n (amended stored p v s) (o_sequence stored) (o_price stored)
              (o_volume stored) in
  journal_amendment side am (negb (keeps_priority stored p v)) b =
  set_depth_journal
    (depth_journal b ++ if record_depth b then amend_journal side stored p v else []) b.
Proof.
  intros Hv Hs am. unfold journal_amendment, amend_journal, record_depth_change, am. simpl.
  unfold fixed_neg, fixed_sub. rewrite !wrap_i128_id by range_lia. rewrite !journal_push_app. simpl.
  destruct (keeps_priority stored p v); simpl; [destruct (v =? _); simpl|];
    destruct b as [? ? ? ? ? ? [] ? ?]; unfold set_depth_journal; simpl;
    rewrite ?app_nil_r, <- ?app_assoc; try done.
Qed.

Lemma amend_bid n b request stored price volume :
  let p := default (o_price stored) price in
  let v := default (o_volume stored) volume in
  let key := mkBidKey (o_price request) (o_sequence request) in
  book_inv n b -> o_side request = Buy -> bt_get key (bids b) = Some stored ->
  o_display_volume stored <= 0 -> 0 < p <= I128_MAX -> 0 < v <= I128_MAX ->
  Forall (fun o => crosses (Some p) Buy (o_price o) = false) (side_orders Sell b) ->
  exists am m',
    amend_in_map (bids b) key stored p v n = Ret (am, negb (keeps_priority stored p v), m') /\
    amended_in request price volume n b am
      (journal_amendment Buy am (negb (keeps_priority stored p v)) (set_bids m' b)).
Proof.
  intros p v key [Hb Ha Hu Hs Hi Hn] Eside Hg Hd Hp Hv Hx.
  pose proof (ids_below_side _ _ _ Buy Hi) as Hbelow.
  destruct (amend_in_map_spec (bids b) key stored p v n Hb Hg Hbelow Hd Hp Hv) as (m' & Hok & Hm' & E).
  destruct (side_remove _ _ _ Hb Hg) as (Hrest & Hm & Hmk).
  eexists _, m'. split; [exact E|]. rewrite journal_amendment_eq by (destruct Hmk; simpl in *; lia).
  simpl in Hx. unfold bt_values in Hx. rewrite Forall_fmap, Forall_forall in Hx.
  apply (side_get_iff (bids b) _ _ _ Hb) in Hg as (Hel & Ep & Eq).
  split; simpl; try done.
  - exists stored, (bt_values (bt_remove key (bids b)) ++ bt_values (asks b) ++ stops b).
    rewrite Eside. split_and!; try done; unfold all_orders, bt_values; simpl.
    + rewrite Hm at 1. by rewrite fmap_cons.
    + rewrite Hm'. by rewrite fmap_cons.
  - split; simpl; [done|done| |done| |lia].
    + intros eb ea Heb Hea. simpl in *. rewrite Hm' in Heb. apply elem_of_cons in Heb as [->|Heb].
      * specialize (Hx ea Hea). simpl in *. lia.
      * apply Hu; [|done]. rewrite Hm. by right.
    + eapply ids_ok_Permutation; [symmetry; by eapply (book_ids_bids (set_bids (bt_remove key (bids b)) b))|].
      apply ids_ok_amended; [done|]. eapply ids_ok_Permutation; [|exact Hi].
      by eapply (book_ids_bids (set_bids (bt_remove key (bids b)) b)).
  - exists (amend_journal Buy stored p v). split_and!; [done|done|]. intros [|] q; simpl.
    + split; [by destruct (amend_journal_levels Buy stored p v _ _ _ _ _ _ q Hm Hm') as [-> ->]|].
      intros _. by eapply amend_journal_trail.
    + assert (Hs' : Forall (fun c => dc_side c = Buy) (amend_journal Buy stored p v))
        by (unfold amend_journal; by repeat case_match; repeat constructor).
      split; [|by apply (trail_other Buy)].
      destruct (journal_other_side Buy Sell q (amend_journal Buy stored p v)) as [-> ->]; [done|done|].
      f_equal; lia.
Qed.

Lemma amend_ask n b request stored price volume :
  let p := default (o_price stored) price in
  let v := default (o_volume stored) volume in
  let key := mkAskKey (o_price request) (o_sequence request) in
  book_inv n b -> o_side request = Sell -> bt_get key (asks b) = Some stored ->
  o_display_volume stored <= 0 -> 0 < p <= I128_MAX -> 0 < v <= I128_MAX ->
  Forall (fun o => crosses (Some p) Sell (o_price o) = false) (side_orders Buy b) ->
  exists am m',
    amend_in_map (asks b) key stored p v n = Ret (am, negb (keeps_priority stored p v), m') /\
    amended_in request price volume n b am
      (journal_amendment Sell am (negb (keeps_priority stored p v)) (set_asks m' b)).
Proof.
  intros p v key [Hb Ha Hu Hs Hi Hn] Eside Hg Hd Hp Hv Hx.
  pose proof (ids_below_side _ _ _ Sell Hi) as Hbelow.
  destruct (amend_in_map_spec (asks b) key stored p v n Ha Hg Hbelow Hd Hp Hv) as (m' & Hok & Hm' & E).
  destruct (side_remove _ _ _ Ha Hg) as (Hrest & Hm & Hmk).
  eexists _, m'. split; [exact E|]. rewrite journal_amendment_eq by (destruct Hmk; simpl in *; lia).
  simpl in Hx. unfold bt_values in Hx. rewrite Forall_fmap, Forall_forall in Hx.
  apply (side_get_iff (asks b) _ _ _ Ha) in Hg as (Hel & Ep & Eq).
  split; simpl; try done.
  - exists stored, (bt_values (bids b) ++ bt_values (bt_remove key (asks b)) ++ stops b).
    rewrite Eside. split_and!; try done; unfold all_orders, bt_values; simpl.
    + rewrite Hm at 1. rewrite fmap_cons. simpl. solve_Permutation.
    + rewrite Hm'. rewrite fmap_cons. simpl. solve_Permutation.
  - split; simpl; [done|done| |done| |lia].
    + intros eb ea Heb Hea. simpl in *. rewrite Hm' in Hea. apply elem_of_cons in Hea as [->|Hea].
      * specialize (Hx eb Heb). simpl in *. lia.
      * apply Hu; [done|]. rewrite Hm. by right.
    + eapply ids_ok_Permutation; [symmetry; by eapply (book_ids_asks (set_asks (bt_remove key (asks b)) b))|].
      apply ids_ok_amended; [done|]. eapply ids_ok_Permutation; [|exact Hi].
      by eapply (book_ids_asks (set_asks (bt_remove key (asks b)) b)).
  - exists (amend_journal Sell stored p v). split_and!; [done|done|]. intros [|] q; simpl.
    + assert (Hs' : Forall (fun c => dc_side c = Sell) (amend_journal Sell stored p v))
        by (unfold amend_journal; by repeat case_match; repeat constructor).
      split; [|by apply (trail_other Sell)].
      destruct (journal_other_side Sell Buy q (amend_journal Sell stored p v)) as [-> ->]; [done|done|].
      f_equal; lia.
    + split; [by destruct (amend_journal_levels Sell stored p v _ _ _ _ _ _ q Hm Hm') as [-> ->]|].
      intros _. by eapply amend_journal_trail.
Qed.

(** An order at its own price does not cross: the book is uncrossed. *)
Lemma own_price_no_cross n b side o :
  book_inv n b -> o ∈ side_orders side b ->
  Forall (fun x => crosses (Some (o_price o)) side (o_price x) = false)
    (side_orders (opposite side) b).
Proof.
  intros Hinv. pose proof (bk_uncrossed _ _ Hinv) as Hu.
  destruct side; simpl; intros (e & -> & He)%list_elem_of_fmap;
    apply Forall_fmap, Forall_forall; intros x Hx; simpl;
    [specialize (Hu e x He Hx)|specialize (Hu x e Hx He)]; lia.
Qed.

Lemma amend_with_sequence_spec n request price volume b :
  book_inv n b ->
  (forall p, price = Some p -> in_i128 p) -> (forall v, volume = Some v -> in_i128 v) ->
  exists r b', amend_with_sequence request price volume n b = Ret (r, b') /\
    match r with
    | Ok am => amended_in request price volume n b am b'
    | Err _ => b' = b
    end.
Proof.
  intros Hinv Hpt Hvt. unfold amend_with_sequence, FIXED_ZERO.
  destruct (match price with Some p => _ | None => _ end) eqn:Ep; [by eexists _, _|].
  destruct (match volume with Some v => _ | None => _ end) eqn:Ev; [by eexists _, _|].
  destruct (is_stop request); [by eexists _, _|].
  destruct (match o_side request with Buy => _ | Sell => _ end) as [stored|] eqn:Est; [|by eexists _, _].
  destruct (bool_decide (o_live stored = Limit)); simpl; [|by eexists _, _].
  destruct (0 <? o_display_volume stored) eqn:Ed; [by eexists _, _|].
  set (p := default (o_price stored) price). set (v := default (o_volume stored) volume).
  destruct (negb (p =? o_price stored) && _) eqn:Ex; [by eexists _, _|].
  assert (Hst : stored ∈ side_orders (o_side request) b /\
            0 < o_price stored <= I128_MAX /\ 0 < o_volume stored <= I128_MAX).
  { destruct (o_side request); simpl;
      [pose proof (bk_bids _ _ Hinv) as Hok|pose proof (bk_asks _ _ Hinv) as Hok];
      destruct (side_remove _ _ _ Hok Est) as (_ & _ & []); simpl in *; (split; [|lia]);
      (destruct Hok; apply bt_get_elem in Est; [|done]; apply list_elem_of_fmap; by eexists (_, stored)). }
  destruct Hst as (Hel & Hsp & Hsv).
  assert (Hp : 0 < p <= I128_MAX).
  { subst p. destruct price as [p|]; simpl; [|lia]. specialize (Hpt p eq_refl). range_lia. }
  assert (Hv : 0 < v <= I128_MAX).
  { subst v. destruct volume as [v|]; simpl; [|lia]. specialize (Hvt v eq_refl). range_lia. }
  assert (Hx : Forall (fun o => crosses (Some p) (o_side request) (o_price o) = false)
                 (side_orders (opposite (o_side request)) b)).
  { apply andb_false_iff in Ex as [Ex|Ex]; [|by eapply no_cross].
    replace p with (o_price stored) by lia. by eapply own_price_no_cross. }
  destruct (o_side request) eqn:Eside.
  - destruct (amend_bid n b request stored price volume) as (am & m' & E & R); try done; [lia|].
    subst p v. rewrite E. simpl. eexists _, _. split; [done|].
    unfold journal_amendment in R. by destruct (negb (keeps_priority _ _ _)).
  - destruct (amend_ask n b request stored price volume) as (am & m' & E & R); try done; [lia|].
    subst p v. rewrite E. simpl. eexists _, _. split; [done|].
    unfold journal_amendment in R. by destruct (negb (keeps_priority _ _ _)).
Qed.
