(* ===== verification/Execute.v ===== *)
(** * Executing an order

    From admission to the stop cascade: what validation guarantees ([validated_taker]), the
    cascade of triggered stops ([run_stops_loop_spec]), why a fill-or-kill order that passes its
    test fills completely ([fillable_fills]) and the specification of the admitted part of
    [execute_order_inner] as an inductive relation ([admitted]) that [execute_admitted] refines
    ([execute_admitted_spec]). *)

From S2P Require Import Prelude BTree Fixed Order OrderBook Sweep BookInv BookOps Purge Change.

(** ** Validation *)

Lemma validate_order_None o :
  validate_order o = None ->
  0 < o_volume o /\ rate_ok (o_maker_fee_rate o) /\ rate_ok (o_taker_fee_rate o) /\
  (o_live o = Limit -> 0 < o_price o) /\ 0 <= o_stop_price o /\
  0 <= o_display_volume o <= o_volume o /\
  (o_post_only o = true -> o_live o = Limit /\ is_stop o = false /\ o_display_volume o = 0) /\
  (is_stop o = true -> o_post_only o = false /\ is_immediate (o_tif o) = false).
Proof.
  unfold validate_order, FIXED_ZERO, rate_ok. intros Hv.
  pass_guard in Hv as E1. pass_guard in Hv as E2. pass_guard in Hv as E3. pass_guard in Hv as E4.
  pass_guard in Hv as E5. pass_guard in Hv as E6. pass_guard in Hv as E7. clear Hv.
  apply orb_false_iff in E2 as [E2 E2d]. apply orb_false_iff in E2 as [E2 E2c].
  apply orb_false_iff in E2 as [E2a E2b]. apply orb_false_iff in E5 as [E5a E5b].
  split_and!; try lia.
  - intros Hl. rewrite Hl, bool_decide_eq_true_2 in E3 by done. simpl in E3. lia.
  - intros Hp. rewrite Hp in E6. simpl in E6. apply orb_false_iff in E6 as [E6 ?].
    apply orb_false_iff in E6 as [E6 ?]. split_and!; [|done|lia].
    apply negb_false_iff in E6. by apply bool_decide_eq_true_1 in E6.
  - intros Hs. rewrite Hs in E7. simpl in E7. apply orb_false_iff in E7 as [E7 ?].
    by apply orb_false_iff in E7 as [? _].
Qed.

Section Execute.
Context `{I256Ops} `{!I256Laws}.

(** Normalisation keeps an order within its types and leaves no quote-sized limit order. *)
Lemma normalize_order_Ok order config o :
  order_typed order -> normalize_order order config = Ok o ->
  (o_live o = Limit -> o_volume_unit o = UnitBase) /\ in_i128 (o_volume o) /\
  (exists v u r ru, o = set_volume v (set_volume_unit u (set_requested r ru order))).
Proof.
  intros Ht. unfold normalize_order.
  set (o1 := if o_requested_volume order =? FIXED_ZERO then _ else order).
  assert (Ho1 : exists r ru, o1 = set_requested r ru order).
  { subst o1. destruct (_ =? _); [by eexists _, _|].
    exists (o_requested_volume order), (o_requested_volume_unit order). by destruct order. }
  destruct Ho1 as (r & ru & ->). simpl.
  destruct (bool_decide _ && _)%bool; [done|].
  destruct (_ && _)%bool eqn:Eq.
  - apply andb_true_iff in Eq as [_ El]. destruct (checked_div _ _) as [base|] eqn:Ed; [|done].
    rewrite checked_div_spec in Ed by apply Ht. destruct (_ =? 0); [done|].
    apply checked_i128_Some in Ed as [Hr ->]. unfold FIXED_ZERO.
    destruct (_ <=? 0) eqn:Ez; [done|]. intros [= <-]. split; [done|]. simpl. split.
    + destruct (decide (0 <= Z.quot (o_volume order * SCALE) (o_price order))) as [Hq|Hq].
      * destruct (floor_to_multiple_nonneg _ (base_lot config) Hq Hr) as [Hf _]. range_lia.
      * unfold floor_to_multiple in *. destruct (base_lot config <=? 0); [done|].
        apply wrap_i128_range.
    + by eexists _, UnitBase, _, _.
  - intros [= <-]. simpl. split_and!; [|apply Ht|].
    + intros Hl. rewrite Hl, (bool_decide_eq_true_2 (Limit = Limit)), andb_true_r in Eq by done.
      apply bool_decide_eq_false_1 in Eq. by destruct (o_volume_unit order).
    + exists (o_volume order), (o_volume_unit order), r, ru. by destruct order.
Qed.

Lemma validated_taker order config o :
  order_typed order -> normalize_order order config = Ok o -> validate_order o = None ->
  taker_ok o /\ o_sequence o = o_sequence order /\ o_timestamp o = o_timestamp order.
Proof.
  intros Ht Hn Hv. destruct (normalize_order_Ok _ _ _ Ht Hn) as (Hu & Hr & v & u & r & ru & ->).
  apply validate_order_None in Hv as (? & ? & ? & Hp & _ & ? & _). split; [|done].
  split; try done; simpl in *; [range_lia|]. intros Hl. specialize (Hp Hl).
  pose proof (ot_price _ Ht). range_lia.
Qed.

(** ** The stop cascade *)

(** No parked stop is electable at the last trade price. *)
Definition quiescent (b : OrderBook) : Prop :=
  match last_trade_price b with
  | Some p => Forall (fun s => stop_elected s p = false) (stops b)
  | None => True
  end.

Record trigger_ok (config : SymbolConfig) (t : StopExecution) : Prop := {
  tg_elected : stop_elected (se_stop t) (se_trigger_price t) = true;
  tg_stop : stop_ok (se_stop t);
  tg_trades : Forall (trade_ok (se_stop t) (order_limit (se_stop t)) config) (se_fills t);
  tg_volume : o_volume_unit (se_stop t) = UnitBase ->
    o_volume (se_stop t) = default 0 (se_cancelled t) + fills_volume (se_fills t);
}.

(** Volume the triggered stops took from [side]. *)
Definition triggers_volume (side : OrderSide) (ts : list StopExecution) : Z :=
  sum_Z ((fun t => if bool_decide (opposite (o_side (se_stop t)) = side)
                   then fills_volume (se_fills t) else 0) <$> ts).

Record cascade (config : SymbolConfig) (b b' : OrderBook) (new : list StopExecution) : Prop := {
  cs_inv : forall n, book_inv n b -> book_inv n b';
  cs_stops : stops b ≡ₚ (se_stop <$> new) ++ stops b';
  cs_open : forall side, side_open side b = side_open side b' + triggers_volume side new;
  cs_triggers : Forall (trigger_ok config) new;
  cs_journal : exists j, journaled b b' j;
  cs_sequence : book_sequence b' = book_sequence b;
}.

Lemma cascade_refl config b : cascade config b b [].
Proof.
  split; try done.
  - intros side. unfold triggers_volume. simpl. lia.
  - exists []. apply journaled_refl.
Qed.

(** The other side of a sweep keeps its open volume. *)
Lemma side_open_values side b : side_open side b = sum_Z (open_of <$> side_orders side b).
Proof.
  destruct side; simpl; unfold open_total, bt_values; by rewrite <- list_fmap_compose.
Qed.

Lemma swept_open order limit config b fills rem b' side :
  swept order limit config b fills rem b' ->
  side_open side b = side_open side b' +
    (if bool_decide (opposite (o_side order) = side) then fills_volume fills else 0).
Proof.
  intros R. case_bool_decide as Hs; [subst side; apply R|].
  assert (side = o_side order) as -> by (by destruct (o_side order), side).
  rewrite !side_open_values, (proj1 (sb_same _ _ _ _ _ _ _ R)). lia.
Qed.

Lemma note_print_same fills b :
  let b' := note_print fills b in
  bids b' = bids b /\ asks b' = asks b /\ stops b' = stops b /\
  book_sequence b' = book_sequence b /\ depth_journal b' = depth_journal b /\
  record_depth b' = record_depth b /\ earliest_gtd_expiry b' = earliest_gtd_expiry b.
Proof. unfold note_print. by destruct (last fills). Qed.

Lemma note_print_inv n fills b : book_inv n b -> book_inv n (note_print fills b).
Proof. unfold note_print. destruct (last fills); [|done]. intros []. by split. Qed.

Lemma note_print_open side fills b : side_open side (note_print fills b) = side_open side b.
Proof. unfold note_print. by destruct (last fills), side. Qed.

(** One triggered stop. *)
Lemma cascade_step config b b0 b1 b' i stop others trigger fills rem new d :
  stop_ok stop -> stop_elected stop trigger = true ->
  vec_remove i (stops b) = Some (stop, others) ->
  b0 = set_gtd (earliest_gtd_expiry b) d (set_stops others b) ->
  swept stop (order_limit stop) config b0 fills rem b1 ->
  cascade config (note_print fills b1) b' new ->
  cascade config b b'
    (mkStopExecution stop trigger fills (if FIXED_ZERO <? rem then Some rem else None) :: new).
Proof.
  intros Hok Hel Hv -> R [Ci Cs Co Ct (j2 & Cj) Cq].
  pose proof (remove_stop b i stop others d Hv) as [_ Hrm _ (j0 & Hj0) (Hf & _)].
  pose proof (sb_same _ _ _ _ _ _ _ R) as (Esame & Estops & Eseq & _ & _).
  destruct (note_print_same fills b1) as (Nb & Na & Ns & Nq & Nj & Nr & _).
  apply vec_remove_Permutation in Hv as Hp. simpl in *. split.
  - intros n Hn. apply Ci, note_print_inv, R, Hrm, Hn.
  - rewrite fmap_cons. simpl. rewrite Hp, <- Cs, Ns, Estops. done.
  - intros side. pose proof (swept_open _ _ _ _ _ _ _ side R) as E.
    specialize (Co side). rewrite note_print_open in Co.
    unfold triggers_volume in *. rewrite fmap_cons. simpl. destruct side; simpl in *; lia.
  - constructor; [|done]. split; simpl; [done|done|apply R|]. intros Hb.
    destruct (sb_base _ _ _ _ _ _ _ R Hb). unfold FIXED_ZERO. destruct (0 <? rem) eqn:E; simpl; lia.
  - destruct (sb_journal _ _ _ _ _ _ _ R) as (j1 & Hj1). eexists.
    eapply journaled_trans; [exact Hj0|]. eapply journaled_trans; [exact Hj1|].
    eapply journaled_trans; [|exact Cj]. by eapply journaled_same; [apply journaled_refl|..].
  - by rewrite Cq, Nq, Eseq.
Qed.

Lemma run_stops_loop_spec config n : forall fuel acc b,
  book_inv n b -> (length (stops b) < fuel)%nat ->
  match run_stops_loop fuel acc config b with
  | Ret (ts, b') => exists new, ts = acc ++ new /\ cascade config b b' new /\ quiescent b'
  | Panic => Exists (fun s => o_volume_unit s = UnitQuote) (stops b)
  | Diverged => False
  end.
Proof.
  induction fuel as [|fuel IH]; intros acc b Hinv Hfuel; [lia|]. simpl.
  destruct (last_trade_price b) as [last|] eqn:El.
  2:{ exists []. rewrite app_nil_r. split_and!; [done|apply cascade_refl|]. unfold quiescent. by rewrite El. }
  destruct (position _ (stops b)) as [i|] eqn:Ei.
  2:{ exists []. rewrite app_nil_r. split_and!; [done|apply cascade_refl|].
      unfold quiescent. rewrite El. by apply position_None. }
  apply position_Some in Ei as (stop & Hl & Hel).
  assert (Hv : exists others, vec_remove i (stops b) = Some (stop, others)).
  { unfold vec_remove. rewrite Hl. eauto. }
  destruct Hv as (others & Hv). rewrite Hv. simpl.
  set (b0 := if is_gtd _ then _ else _).
  assert (Eb0 : exists d, b0 = set_gtd (earliest_gtd_expiry b) d (set_stops others b)).
  { subst b0. destruct (is_gtd _); [by exists true|by exists (gtd_scan_dirty b)]. }
  destruct Eb0 as (d & Eb0).
  apply vec_remove_Permutation in Hv as Hp.
  assert (Hst : stop_ok stop).
  { pose proof (bk_stops _ _ Hinv) as Hs. rewrite Hp in Hs. by inversion Hs. }
  assert (Hinv0 : book_inv n b0).
  { rewrite Eb0. by apply (remove_stop b i stop others d Hv). }
  pose proof (tk_volume _ (proj1 Hst)) as Hvol.
  pose proof (sweep_spec stop (order_limit stop) config b0 n Hinv0 ltac:(lia) ltac:(range_lia)) as Hsw.
  destruct (sweep stop (order_limit stop) config b0) as [[[fills rem] b1]| |]; simpl; [|..].
  - pose proof (sb_inv _ _ _ _ _ _ _ Hsw n Hinv0) as Hinv1.
    pose proof (sb_same _ _ _ _ _ _ _ Hsw) as (_ & Estops & _).
    destruct (note_print_same fills b1) as (_ & _ & Ns & _).
    assert (Eothers : stops (note_print fills b1) = others) by (by rewrite Ns, Estops, Eb0).
    assert (Hlen : length (stops b) = S (length others)) by (by rewrite Hp).
    specialize (IH (acc ++ [mkStopExecution stop last fills
                      (if FIXED_ZERO <? rem then Some rem else None)]) (note_print fills b1)
                  (note_print_inv _ fills _ Hinv1)).
    rewrite Eothers in IH. specialize (IH ltac:(lia)).
    destruct (run_stops_loop fuel _ config _) as [[ts b']| |]; [|by rewrite Hp; apply Exists_cons; right|done].
    destruct IH as (new & -> & Hc & Hq). eexists. rewrite <- app_assoc. split_and!; [done| |done].
    by eapply cascade_step.
  - rewrite Hp. by apply Exists_cons; left.
  - done.
Qed.

(** ** Fill or kill *)

Lemma foldl_saturating l : forall a,
  0 <= a <= I128_MAX -> Forall (fun z => 0 <= z) l ->
  foldl saturating_add a l = Z.min I128_MAX (a + sum_Z l).
Proof.
  induction l as [|x l IH]; intros a Ha Hl; simpl; [lia|].
  inversion Hl; subst. pose proof (sum_Z_nonneg l) as Hs.
  assert (E : saturating_add a x = Z.min I128_MAX (a + x)).
  { unfold saturating_add, saturate_i128. range_lia. }
  rewrite E, IH by (done || lia). specialize (Hs ltac:(done)). lia.
Qed.

Lemma open_where_zero {K} f (m : list (K * Order)) :
  Forall (fun o => f (o_price o) = false) (bt_values m) -> open_where f m = 0.
Proof.
  unfold bt_values. rewrite Forall_fmap. induction 1 as [|[k o] m E _ IH]; [done|].
  rewrite open_where_cons. simpl in E. rewrite E. lia.
Qed.

Lemma take_while_open {K} `{BookKeyLaws K} limit (m : list (K * Order)) :
  side_ok m ->
  let f := crosses limit (opposite (key_side K)) in
  sum_Z (open_volume <$> take_while (fun o => f (o_price o)) (bt_values m)) = open_where f m /\
  Forall (fun z => 0 <= z) (open_volume <$> take_while (fun o => f (o_price o)) (bt_values m)).
Proof.
  intros Hok f. induction m as [|[k o] m IH]; [done|].
  destruct (side_ok_cons _ _ _ Hok) as (Hmk & Hok' & _). specialize (IH Hok') as [IH1 IH2].
  rewrite open_where_cons. simpl. destruct (f (o_price o)) eqn:E.
  - rewrite fmap_cons. simpl. rewrite IH1. destruct Hmk. simpl in *.
    assert (Ho : open_volume o = open_of o) by (unfold open_of, open_volume, fixed_add; apply wrap_i128_id; unfold in_i128, I128_MIN in *; lia).
    rewrite Ho. unfold open_of. split; [lia|]. constructor; [lia|done].
  - pose proof (crosses_rest limit _ _ _ _ eq_refl Hok E) as Hz. split; [|constructor].
    simpl. inversion Hz; subst. by rewrite open_where_zero.
Qed.

(** The pre-check adds up the whole crossing volume of the other side, saturated at the range. *)
Lemma fillable_volume_eq n order b :
  book_inv n b ->
  fillable_volume order b =
  Z.min I128_MAX (side_where (crosses (order_limit order) (o_side order))
                    (opposite (o_side order)) b).
Proof.
  intros Hinv. unfold fillable_volume. set (limit := order_limit order).
  destruct (o_side order); simpl.
  - destruct (take_while_open limit (asks b) (bk_asks _ _ Hinv)) as [E Hp]. simpl in E, Hp.
    unfold crosses in E, Hp. rewrite foldl_saturating by (done || range_lia). simpl.
    rewrite E. done.
  - destruct (take_while_open limit (bids b) (bk_bids _ _ Hinv)) as [E Hp]. simpl in E, Hp.
    unfold crosses in E, Hp. rewrite foldl_saturating by (done || range_lia). simpl.
    rewrite E. done.
Qed.

Lemma swept_done_where order limit config b fills rem b' :
  swept order limit config b fills rem b' -> o_volume_unit order = UnitBase -> 0 < rem ->
  side_where (crosses limit (o_side order)) (opposite (o_side order)) b = fills_volume fills.
Proof.
  intros R Hb Hr. rewrite (sb_where _ _ _ _ _ _ _ R).
  pose proof (sb_done _ _ _ _ _ _ _ R Hb Hr) as Hd. rewrite fills_where_all.
  - destruct (o_side order); simpl in *; rewrite open_where_zero by done; lia.
  - eapply Forall_impl; [apply R|]. intros f Hf. apply Hf.
Qed.

Lemma fillable_fills n order config b fills rem b' :
  book_inv n b -> o_volume_unit order = UnitBase ->
  swept order (order_limit order) config b fills rem b' ->
  o_volume order <= fillable_volume order b -> rem = 0.
Proof.
  intros Hinv Hb R Hf. destruct (sb_base _ _ _ _ _ _ _ R Hb) as [Hsum Hpos].
  destruct (decide (rem = 0)) as [|Hr]; [done|]. exfalso.
  pose proof (swept_done_where _ _ _ _ _ _ _ R Hb ltac:(lia)) as E.
  rewrite (fillable_volume_eq n), E in Hf by done. lia.
Qed.

(** ** The admitted part *)

(** What becomes of the remainder of a sweep. *)
Inductive settled (order : Order) (rem : Z) (b : OrderBook)
    : option Fixed -> option Fixed -> OrderBook -> Prop :=
| settled_filled : rem <= 0 -> settled order rem b None None b
| settled_cancelled :
    0 < rem ->
    o_volume_unit order = UnitQuote \/ is_immediate (o_tif order) = true \/ o_live order = Market ->
    settled order rem b None (Some rem) b
| settled_rests b' :
    0 < rem -> o_volume_unit order = UnitBase -> is_immediate (o_tif order) = false ->
    o_live order = Limit -> rested order rem b b' ->
    settled order rem b (Some (visible_part order rem)) None b'.

Definition park (order : Order) (b : OrderBook) : OrderBook :=
  set_stops (stops b ++ [order])
    (set_gtd (note_expiry (earliest_gtd_expiry b) order) (gtd_scan_dirty b) b).

Definition electable (order : Order) (b : OrderBook) : bool :=
  match last_trade_price b with Some last => stop_elected order last | None => false end.

(** The specification of [execute_admitted], one rule per way it ends. *)
Inductive admitted (config : SymbolConfig) (order : Order) (seq : Z) (expired : list Order)
    (b : OrderBook) : Outcome -> OrderBook -> Prop :=
| ad_would_trigger :
    is_stop order = true -> electable order b = true ->
    admitted config order seq expired b (rejected_outcome seq expired StopWouldTrigger) b
| ad_parked :
    is_stop order = true -> electable order b = false ->
    admitted config order seq expired b
      (mkOutcome seq expired [] None None true None []) (park order b)
| ad_post_only_crosses :
    is_stop order = false -> o_post_only order = true -> would_cross order b = true ->
    admitted config order seq expired b (rejected_outcome seq expired PostOnlyWouldCross) b
| ad_post_only_rests b' :
    is_stop order = false -> o_post_only order = true -> would_cross order b = false ->
    rested order (o_volume order) b b' ->
    admitted config order seq expired b
      (mkOutcome seq expired [] (Some (visible_part order (o_volume order))) None false None []) b'
| ad_killed :
    is_stop order = false -> o_post_only order = false -> o_tif order = Fok ->
    fillable_volume order b < o_volume order ->
    admitted config order seq expired b (rejected_outcome seq expired FokUnfillable) b
| ad_matched fills rem b1 resting cancelled b2 triggers b' :
    is_stop order = false -> o_post_only order = false ->
    (o_tif order = Fok -> o_volume order <= fillable_volume order b) ->
    swept order (order_limit order) config b fills rem b1 ->
    settled order rem b1 resting cancelled b2 ->
    cascade config (note_print fills b2) b' triggers ->
    quiescent b' ->
    admitted config order seq expired b
      (mkOutcome seq expired fills resting cancelled false None triggers) b'.

Definition settle (order : Order) (rem : Z) (b : OrderBook)
    : option Fixed * option Fixed * OrderBook :=
  if FIXED_ZERO <? rem then
    if bool_decide (o_volume_unit order = UnitQuote) || is_immediate (o_tif order)
       || bool_decide (o_live order = Market)
    then (None, Some rem, b)
    else let '(visible, b) := rest order rem b in (Some visible, None, b)
  else (None, None, b).

Lemma settle_spec order config b fills rem b1 :
  taker_ok order -> book_inv (o_sequence order) b ->
  swept order (order_limit order) config b fills rem b1 ->
  exists resting cancelled b2, settle order rem b1 = (resting, cancelled, b2) /\
    settled order rem b1 resting cancelled b2 /\ book_inv (o_sequence order + 1) b2 /\
    stops b2 = stops b.
Proof.
  intros Htk Hinv R. pose proof (sb_inv _ _ _ _ _ _ _ R _ Hinv) as Hinv1.
  pose proof (sb_same _ _ _ _ _ _ _ R) as (_ & Estops & _).
  pose proof (book_inv_mono (o_sequence order) (o_sequence order + 1) _ ltac:(lia) Hinv1) as Hinv2.
  unfold settle, FIXED_ZERO. destruct (0 <? rem) eqn:Er.
  2:{ eexists _, _, _. split_and!; [done|constructor; lia|done|done]. }
  destruct (_ || _ || _)%bool eqn:Ec.
  - eexists _, _, _. split_and!; [done|constructor; [lia|]|done|done].
    apply orb_true_iff in Ec as [Ec|Ec]; [apply orb_true_iff in Ec as [Ec|Ec]|].
    + left. by apply bool_decide_eq_true_1 in Ec.
    + right. by left.
    + right. right. by apply bool_decide_eq_true_1 in Ec.
  - apply orb_false_iff in Ec as [Ec Em]. apply orb_false_iff in Ec as [Eq Ei].
    apply bool_decide_eq_false_1 in Em, Eq.
    assert (Hl : o_live order = Limit) by (by destruct (o_live order)).
    assert (Hb : o_volume_unit order = UnitBase) by (by destruct (o_volume_unit order)).
    destruct (rest_spec b1 order rem Hinv1 Htk Hl) as (b2 & E & Hr).
    + pose proof (sb_range _ _ _ _ _ _ _ R). range_lia.
    + pose proof (sb_done _ _ _ _ _ _ _ R Hb ltac:(lia)) as Hd.
      unfold order_limit in Hd. by rewrite Hl in Hd.
    + rewrite E. eexists _, _, _. split; [done|]. pose proof (re_frame _ _ _ _ Hr) as (Es & _).
      split_and!; [by constructor; try lia|apply Hr|congruence].
Qed.

Lemma execute_admitted_spec order config seq expired b :
  book_inv (o_sequence order) b -> taker_ok order -> validate_order order = None ->
  match execute_admitted order config seq expired b with
  | Ret (outcome, b') => admitted config order seq expired b outcome b'
  | Panic => o_volume_unit order = UnitQuote \/
             Exists (fun s => o_volume_unit s = UnitQuote) (stops b)
  | Diverged => False
  end.
Proof.
  intros Hinv Htk Hval. unfold execute_admitted.
  apply validate_order_None in Hval as (_ & _ & _ & _ & _ & _ & Hpost & _).
  destruct (is_stop order) eqn:Estop.
  { fold (electable order b). destruct (electable order b) eqn:Ee; by constructor. }
  destruct (o_post_only order) eqn:Epost.
  { destruct (would_cross order b) eqn:Ex; [by constructor|].
    destruct (Hpost eq_refl) as [Hl _].
    destruct (rest_spec b order (o_volume order) Hinv Htk Hl (tk_volume _ Htk)) as (b' & E & Hr).
    - eapply no_cross; [done|exact Ex].
    - rewrite E. by apply ad_post_only_rests. }
  destruct (bool_decide _ && _)%bool eqn:Efok.
  { apply andb_true_iff in Efok as [?%bool_decide_eq_true_1 ?]. apply ad_killed; try done. lia. }
  pose proof (tk_volume _ Htk) as Hvol.
  pose proof (sweep_spec order (order_limit order) config b _ Hinv ltac:(lia) ltac:(range_lia)) as Hsw.
  destruct (sweep order (order_limit order) config b) as [[[fills rem] b1]| |]; cbn [comp_bind]; [|by left|done].
  destruct (settle_spec _ _ _ _ _ _ Htk Hinv Hsw) as (resting & cancelled & b2 & E & Hset & Hinv2 & Es).
  unfold settle in E. rewrite E. unfold run_stops.
  destruct (note_print_same fills b2) as (_ & _ & Ns & _).
  pose proof (run_stops_loop_spec config _ (S (length (stops (note_print fills b2)))) []
                (note_print fills b2) (note_print_inv _ fills _ Hinv2) ltac:(lia)) as Hrun.
  simpl out_triggers. destruct (run_stops_loop _ _ _ _) as [[ts b']| |]; simpl;
    [|right; by rewrite Ns, Es in Hrun|done].
  destruct Hrun as (new & -> & Hc & Hq). simpl. eapply ad_matched; try done.
  intros Ht. rewrite (bool_decide_eq_true_2 (o_tif order = Fok)) in Efok by done. simpl in Efok. lia.
Qed.

(** ** Consequences of each rule *)

Lemma settled_frame order rem b r c b' :
  settled order rem b r c b' ->
  stops b' = stops b /\ book_sequence b' = book_sequence b /\ exists j, journaled b b' j.
Proof.
  intros [| |b'' _ _ _ _ R]; [split_and!; try done; exists []; apply journaled_refl..|].
  destruct R as [_ Hj _ _ _ (? & ? & _)]. eauto.
Qed.

Lemma settled_inv order rem b r c b' :
  settled order rem b r c b' -> book_inv (o_sequence order) b -> book_inv (o_sequence order + 1) b'.
Proof.
  intros [| |b'' _ _ _ _ R] Hb; [eapply book_inv_mono; [|done]; lia..|apply R].
Qed.

Lemma park_inv order b :
  book_inv (o_sequence order) b -> stop_ok order -> book_inv (o_sequence order + 1) (park order b).
Proof.
  intros [Hb Ha Hu Hs Hi Hn] Hok. split; simpl; try done; [by apply Forall_app; split; [|constructor]| |lia].
  eapply ids_ok_Permutation; [|apply (ids_ok_add _ _ (identity order) _ Hi Hn eq_refl)].
  rewrite !all_orders_map. simpl. rewrite fmap_app. simpl. solve_Permutation.
Qed.

Lemma admitted_inv config order seq expired b out b' :
  admitted config order seq expired b out b' ->
  book_inv (o_sequence order) b -> taker_ok order -> book_inv (o_sequence order + 1) b'.
Proof.
  intros Had Hinv Htk. pose proof (book_inv_mono (o_sequence order) (o_sequence order + 1) _ ltac:(lia) Hinv).
  destruct Had as [| | |? ? ? ? R| |fills rem b1 r c b2 ts b' _ _ _ Hsw Hset Hc _]; try done.
  - apply park_inv; [done|]. split; [done|]. unfold is_stop, FIXED_ZERO in *. lia.
  - apply R.
  - apply Hc, note_print_inv. eapply settled_inv; [done|]. by apply Hsw.
Qed.

(** An order that neither rests nor parks leaves no trace of its number in the book. *)
Lemma admitted_gone config order seq expired b out b' :
  admitted config order seq expired b out b' -> out_resting out = None -> out_parked out = false ->
  book_inv (o_sequence order) b -> book_inv (o_sequence order) b'.
Proof.
  intros [| | | | |fills rem b1 r c b2 ts b'' _ _ _ Hsw Hset Hc _] Hr Hp Hinv; try done.
  simpl in Hr. subst r. apply Hc, note_print_inv. inversion Hset; subst; by apply Hsw.
Qed.

Lemma admitted_frame config order seq expired b out b' :
  admitted config order seq expired b out b' ->
  book_sequence b' = book_sequence b /\ (exists j, journaled b b' j) /\
  (quiescent b -> quiescent b').
Proof.
  assert (Hsame : book_sequence b = book_sequence b /\ (exists j, journaled b b j) /\
            (quiescent b -> quiescent b)) by (split_and!; try done; exists []; apply journaled_refl).
  intros [|_ He| |b'' _ _ _ R| |fills rem b1 r c b2 ts b'' _ _ _ Hsw Hset Hc Hq]; try done.
  - split_and!; [done| |].
    + exists []. by eapply journaled_same; [apply journaled_refl|..].
    + unfold quiescent, electable in *. simpl. destruct (last_trade_price b); [|done].
      intros Hs. apply Forall_app. split; [done|by constructor].
  - destruct R as [_ Hj _ _ _ (Es & Eq & El)]. split_and!; [done|eauto|].
    unfold quiescent. by rewrite Es, El.
  - destruct (settled_frame _ _ _ _ _ _ Hset) as (_ & Eq & j2 & Hj2).
    pose proof (sb_same _ _ _ _ _ _ _ Hsw) as (_ & _ & Eq1 & _).
    destruct (note_print_same fills b2) as (Nb & Na & _ & Nq & Nj & Nr & _).
    destruct (sb_journal _ _ _ _ _ _ _ Hsw) as (j1 & Hj1). destruct (cs_journal _ _ _ _ Hc) as (j3 & Hj3).
    split_and!; [rewrite (cs_sequence _ _ _ _ Hc); congruence| |done].
    eexists. eapply journaled_trans; [exact Hj1|]. eapply journaled_trans; [|exact Hj3].
    by eapply journaled_same.
Qed.

(** ** The whole request *)

(** The order as the book sees it: numbered and normalised. *)
Definition numbered (order : Order) (b : OrderBook) : Order := set_sequence (book_sequence b) order.
Definition after_number (b : OrderBook) : OrderBook :=
  set_book_sequence (wrap_u64 (book_sequence b + 1)) b.

Definition refusal (order : Order) (config : SymbolConfig) : option RejectReason :=
  match normalize_order order config with
  | Err (_, reason) => Some reason
  | Ok o =>
      match validate_order o with
      | Some reason => Some reason
      | None => validate_order_for_symbol o config
      end
  end.

Inductive executed (order : Order) (config : SymbolConfig) (b : OrderBook)
    : Outcome -> Order -> OrderBook -> Prop :=
| ex_refused reason o :
    refusal (numbered order b) config = Some reason ->
    executed order config b (rejected_outcome (book_sequence b) [] reason) o (after_number b)
| ex_admitted o expired b1 outcome b' :
    refusal (numbered order b) config = None ->
    normalize_order (numbered order b) config = Ok o ->
    validate_order o = None -> taker_ok o -> o_sequence o = book_sequence b ->
    purged (fun x => is_expired (o_tif x) (o_timestamp order) None) (after_number b) expired b1 ->
    admitted config o (book_sequence b) expired b1 outcome b' ->
    executed order config b outcome o b'.

Lemma after_number_inv n b : book_inv n b -> book_inv n (after_number b).
Proof. intros []. by split. Qed.

Lemma automatic_purge n now b :
  book_inv n b ->
  exists expired b',
    (if has_gtd_deadlines b then purge_due_gtd now b else Ret ([], b)) = Ret (expired, b') /\
    purged (fun x => is_expired (o_tif x) now None) b expired b'.
Proof.
  intros Hinv. destruct (has_gtd_deadlines b) eqn:Ed; [by eapply purge_due_gtd_spec|].
  eexists _, _. split; [done|]. by eapply no_deadlines_purged.
Qed.

Lemma numbered_typed order b :
  book_ok b -> order_typed order -> book_sequence b < U64_MAX -> order_typed (numbered order b).
Proof.
  intros Hok [] Hseq. split; try done. simpl. pose proof (bk_nonneg _ _ Hok). unfold in_u64. lia.
Qed.

Lemma execute_spec order config b :
  book_ok b -> order_typed order -> book_sequence b < U64_MAX ->
  match execute_order_inner order config b with
  | Ret (outcome, o, b') => executed order config b outcome o b'
  | Panic => o_volume_unit order = UnitQuote \/
             Exists (fun s => o_volume_unit s = UnitQuote) (stops b)
  | Diverged => False
  end.
Proof.
  intros Hok Ht Hseq. unfold execute_order_inner, next_market_sequence.
  fold (after_number b) (numbered order b).
  pose proof (numbered_typed _ _ Hok Ht Hseq) as Ht'.
  destruct (normalize_order _ config) as [o|[o reason]] eqn:En.
  2:{ apply ex_refused. unfold refusal. by rewrite En. }
  destruct (match validate_order o with Some _ => _ | None => _ end) as [reason|] eqn:Ev.
  { apply ex_refused. unfold refusal. by rewrite En. }
  assert (Hv : validate_order o = None) by (by destruct (validate_order o)).
  destruct (validated_taker _ _ _ Ht' En Hv) as (Htk & Eseq & Ets). simpl in Eseq, Ets.
  pose proof (after_number_inv _ _ Hok) as Hinv.
  destruct (automatic_purge _ (o_timestamp o) _ Hinv) as (expired & b1 & -> & Hp). simpl.
  pose proof (pu_inv _ _ _ _ Hp _ Hinv) as Hinv1. rewrite <- Eseq in Hinv1.
  pose proof (execute_admitted_spec o config (book_sequence b) expired b1 Hinv1 Htk Hv) as Had.
  destruct (execute_admitted _ _ _ _ _) as [[out b']| |]; simpl; [| |done].
  - rewrite Ets in Hp. eapply ex_admitted; try done. unfold refusal. by rewrite En.
  - destruct Had as [Hq|Hq].
    + left. destruct (normalize_order_Ok _ _ _ Ht' En) as (Hl & _).
      unfold normalize_order in En. simpl in En. repeat break_in En; simplify_eq; simpl in *; done.
    + right. rewrite (pu_stops _ _ _ _ Hp) in Hq. simpl in Hq.
      rewrite Exists_exists in *. destruct Hq as (s & [_ Hs]%list_elem_of_filter & ?). eauto.
Qed.

Lemma purged_quiescent f b removed b' : purged f b removed b' -> quiescent b -> quiescent b'.
Proof.
  intros [_ _ _ Es _ _ (_ & El)]. unfold quiescent. rewrite El, Es.
  destruct (last_trade_price b); [|done]. rewrite !Forall_forall.
  intros Hq s [_ Hs]%list_elem_of_filter. by apply Hq.
Qed.

Lemma executed_ok order config b out o b' :
  executed order config b out o b' -> book_ok b -> book_sequence b < U64_MAX ->
  book_ok b' /\ book_sequence b' = book_sequence b + 1 /\ (quiescent b -> quiescent b') /\
  exists j, journaled b b' j.
Proof.
  intros Hex Hok Hseq.
  assert (Hnum : book_sequence (after_number b) = book_sequence b + 1).
  { simpl. apply wrap_u64_id. pose proof (bk_nonneg _ _ Hok). unfold in_u64. lia. }
  assert (Hj0 : journaled b (after_number b) []) by (by eapply journaled_same; [apply journaled_refl|..]).
  destruct Hex as [|o expired b1 out b' _ _ _ Htk Eseq Hp Had].
  - split_and!; [|done|done|eauto]. unfold book_ok. rewrite Hnum.
    eapply book_inv_mono; [|by apply after_number_inv]. lia.
  - destruct (admitted_frame _ _ _ _ _ _ _ Had) as (Eq & (j2 & Hj2) & Hq2).
    pose proof (pu_frame _ _ _ _ Hp) as (Eq1 & _). destruct (pu_journal _ _ _ _ Hp) as (j1 & Hj1).
    assert (Hb' : book_sequence b' = book_sequence b + 1) by congruence.
    split_and!; [|done| |].
    + unfold book_ok. rewrite Hb', <- Eseq. eapply admitted_inv; [done| |done].
      rewrite Eseq. by apply Hp, after_number_inv.
    + intros Hq. apply Hq2. by eapply purged_quiescent.
    + eexists. eapply journaled_trans; [exact Hj0|]. by eapply journaled_trans.
Qed.
End Execute.
