(* ===== verification/Depth.v ===== *)
(** * Aggregated depth

    [depth] walks a side once and merges neighbours of equal price. It equals its reference: the
    first distinct prices of the side, each with the total visible volume and number of orders of
    its level ([depth_reference]). *)

From S2P Require Import Prelude BTree Fixed Order OrderBook Sweep BookInv.

(** Neighbouring orders of equal price, grouped. *)
Fixpoint groups (orders : list Order) : list (Fixed * list Order) :=
  match orders with
  | [] => []
  | o :: l =>
      match groups l with
      | (p, g) :: gs =>
          if p =? o_price o then (p, o :: g) :: gs else (o_price o, [o]) :: (p, g) :: gs
      | [] => [(o_price o, [o])]
      end
  end.

(** Distinct prices in order of first occurrence. *)
Fixpoint distinct_prices (orders : list Order) : list Fixed :=
  match orders with
  | [] => []
  | o :: l => o_price o :: filter (fun q => q <> o_price o) (distinct_prices l)
  end.

Definition volumes (g : list Order) : Z := sum_Z (o_volume <$> g).

Lemma volumes_cons o g : volumes (o :: g) = o_volume o + volumes g.
Proof. done. Qed.
Lemma volumes_nil : volumes [] = 0.
Proof. done. Qed.

Definition mk_level (p v n : Z) : DepthLevel := mkDepthLevel p (wrap_i128 v) (wrap_u32 n).

#[global] Arguments mk_level : simpl never.

Definition level_of (e : Fixed * list Order) : DepthLevel :=
  mk_level e.1 (volumes e.2) (Z.of_nat (length e.2)).

Lemma mk_level_eq pre p v v' n n' l :
  v = v' -> n = n' -> pre ++ mk_level p v n :: l = pre ++ mk_level p v' n' :: l.
Proof. by intros -> ->. Qed.

Lemma wrap_i128_add a b : wrap_i128 (wrap_i128 a + b) = wrap_i128 (a + b).
Proof.
  unfold wrap_i128. f_equal.
  replace ((a - I128_MIN) mod 2 ^ 128 + I128_MIN + b - I128_MIN)
    with ((a - I128_MIN) mod 2 ^ 128 + b) by lia.
  rewrite Zplus_mod_idemp_l. f_equal. lia.
Qed.

Lemma wrap_u32_add a b : wrap_u32 (wrap_u32 a + b) = wrap_u32 (a + b).
Proof. unfold wrap_u32. apply Zplus_mod_idemp_l. Qed.

Lemma level_of_single p o : level_of (p, [o]) = mk_level p (o_volume o) 1.
Proof. unfold level_of. simpl. by rewrite volumes_cons, volumes_nil, Z.add_0_r. Qed.

Lemma level_of_cons p o g :
  level_of (p, o :: g) = mk_level p (o_volume o + volumes g) (1 + Z.of_nat (length g)).
Proof.
  unfold level_of. cbn [fst snd]. rewrite volumes_cons. apply (f_equal (mk_level p _)).
  rewrite length_cons. lia.
Qed.

(** The two ways the walk makes a level. *)
Lemma mk_level_first o : in_i128 (o_volume o) ->
  mkDepthLevel (o_price o) (o_volume o) 1 = mk_level (o_price o) (o_volume o) 1.
Proof. intros Ho. unfold mk_level. by rewrite wrap_i128_id. Qed.

Lemma mk_level_more p v n o :
  mkDepthLevel (dl_price (mk_level p v n)) (fixed_add (dl_volume (mk_level p v n)) (o_volume o))
    (wrap_u32 (dl_orders (mk_level p v n) + 1)) = mk_level p (v + o_volume o) (n + 1).
Proof. unfold mk_level, fixed_add. simpl. by rewrite wrap_i128_add, wrap_u32_add. Qed.

Lemma dl_price_mk_level p v n : dl_price (mk_level p v n) = p.
Proof. done. Qed.

#[local] Opaque mk_level.

(** The rest of a walk whose last level so far has price [p] and unwrapped totals [v] and [n]. *)
Lemma depth_walk_groups levels orders : forall p v n acc,
  Forall (fun o => in_i128 (o_volume o)) orders ->
  Z.of_nat (length acc) < levels ->
  let k := Z.to_nat (levels - 1 - Z.of_nat (length acc)) in
  depth_walk orders levels (mk_level p v n :: acc) =
  match groups orders with
  | (q, g) :: gs =>
      if q =? p
      then reverse (level_of <$> take k gs)
             ++ mk_level p (v + volumes g) (n + Z.of_nat (length g)) :: acc
      else reverse (level_of <$> take k ((q, g) :: gs)) ++ mk_level p v n :: acc
  | [] => mk_level p v n :: acc
  end.
Proof.
  induction orders as [|o l IH]; intros p v n acc Hv Hlen k; [done|].
  inversion Hv as [|? ? Ho Hl]; subst. cbn [depth_walk]. rewrite dl_price_mk_level at 1.
  destruct (p =? o_price o) eqn:Ep.
  - apply Z.eqb_eq in Ep. subst p.
    rewrite mk_level_more, IH by done. simpl groups. destruct (groups l) as [|[q g] gs].
    + rewrite Z.eqb_refl, take_nil. simpl. rewrite volumes_cons, volumes_nil. apply (mk_level_eq []); lia.
    + destruct (q =? o_price o) eqn:Eq; rewrite ?Eq, ?Z.eqb_refl, volumes_cons, ?volumes_nil;
        apply mk_level_eq; simpl length; lia.
  - assert (Hk : Z.of_nat k = levels - 1 - Z.of_nat (length acc)) by (subst k; lia). clearbody k.
    replace (Z.of_nat (length (mk_level p v n :: acc)) <? levels) with (0 <? Z.of_nat k)
      by (rewrite length_cons; apply eq_true_iff_eq; rewrite !Z.ltb_lt; lia).
    assert (Hhead : exists g gs, groups (o :: l) = (o_price o, g) :: gs).
    { simpl. destruct (groups l) as [|[q g] gs]; [eauto|].
      destruct (q =? o_price o) eqn:Eq; [|eauto]. apply Z.eqb_eq in Eq. subst. eauto. }
    destruct (0 <? Z.of_nat k) eqn:Ek.
    + rewrite mk_level_first, IH by (done || (simpl length; lia)).
      replace k with (S (Z.to_nat (levels - 1 - Z.of_nat (length (mk_level p v n :: acc)))))
        by (simpl length; lia).
      clear Hhead. simpl groups. destruct (groups l) as [|[q g] gs].
      * rewrite Z.eqb_sym, Ep, firstn_cons, take_nil, fmap_cons, level_of_single. done.
      * destruct (q =? o_price o) eqn:Eq.
        -- apply Z.eqb_eq in Eq. subst q. rewrite Z.eqb_sym, Ep, firstn_cons, fmap_cons, reverse_cons,
             <- app_assoc, level_of_cons. done.
        -- rewrite Z.eqb_sym, Ep, (firstn_cons _ (_, [o])), fmap_cons, reverse_cons, <- app_assoc,
             level_of_single. done.
    + destruct Hhead as (g & gs & ->). rewrite Z.eqb_sym, Ep.
      replace k with 0%nat by lia. done.
Qed.

Lemma depth_groups side levels b :
  Forall (fun o => in_i128 (o_volume o)) (side_orders side b) -> 0 <= levels ->
  depth side levels b = level_of <$> take (Z.to_nat levels) (groups (side_orders side b)).
Proof.
  intros Hv Hl. unfold depth. fold (side_orders side b). destruct (levels =? 0) eqn:E0.
  { apply Z.eqb_eq in E0. by subst. }
  destruct (side_orders side b) as [|o l]; [by simpl; rewrite take_nil|].
  inversion Hv as [|? ? Ho Hvl]; subst. simpl depth_walk.
  rewrite mk_level_first, depth_walk_groups by (done || (simpl length; lia)). cbn zeta.
  replace (Z.to_nat levels) with (S (Z.to_nat (levels - 1 - Z.of_nat (length (@nil DepthLevel)))))
    by (simpl; lia).
  simpl groups. destruct (groups l) as [|[q g] gs].
  - rewrite firstn_cons, take_nil, fmap_cons, level_of_single. done.
  - destruct (q =? o_price o) eqn:Eq.
    + apply Z.eqb_eq in Eq. subst q.
      rewrite firstn_cons, fmap_cons, reverse_app, reverse_involutive, level_of_cons. done.
    + rewrite (firstn_cons _ (_, [o])), fmap_cons, reverse_app, reverse_involutive, level_of_single.
      done.
Qed.

(** ** The reference on a sorted side *)

(** Prices never improve along the list. *)
Definition worsening (side : OrderSide) (l : list Order) : Prop :=
  StronglySorted (fun o o' => ~ better side (o_price o') (o_price o)) l.

Lemma groups_head o l : exists g gs, groups (o :: l) = (o_price o, g) :: gs.
Proof.
  simpl. destruct (groups l) as [|[q g] gs]; [eauto|].
  destruct (q =? o_price o) eqn:Eq; [|eauto]. apply Z.eqb_eq in Eq. subst. eauto.
Qed.

Definition orders_at (p : Fixed) (l : list Order) : list Order := filter (fun o => o_price o = p) l.

Lemma distinct_prices_elem p l : p ∈ distinct_prices l -> exists o, o ∈ l /\ o_price o = p.
Proof.
  induction l as [|o l IH]; simpl; [by intros ?%not_elem_of_nil|].
  intros [->|[_ Hp]%list_elem_of_filter]%elem_of_cons; [exists o; split; [left|done]|].
  destruct (IH Hp) as (x & ? & ?). exists x. split; [by right|done].
Qed.

(** Behind a different price the first price does not come back. *)
Lemma worsening_absent side o l :
  worsening side (o :: l) -> (forall g gs, groups l <> (o_price o, g) :: gs) ->
  Forall (fun x => o_price x <> o_price o) l.
Proof.
  intros Hs Hg. destruct l as [|h l]; [constructor|].
  destruct (groups_head h l) as (g & gs & E). specialize (Hg g gs). rewrite E in Hg.
  assert (Hne : o_price h <> o_price o) by congruence.
  inversion Hs as [|? ? Hs' Ho]; subst. inversion Hs' as [|? ? _ Hh]; subst. inversion Ho; subst.
  constructor; [done|]. eapply Forall_impl; [exact Hh|]. simpl. unfold better in *.
  intros x. destruct side; lia.
Qed.

Lemma groups_reference side l :
  worsening side l -> groups l = (fun p => (p, orders_at p l)) <$> distinct_prices l.
Proof.
  induction l as [|o l IH]; intros Hs; [done|].
  assert (Hs' : worsening side l) by (by inversion Hs). specialize (IH Hs').
  assert (Hother : forall ps : list Fixed, o_price o ∉ ps ->
            (fun p => (p, orders_at p (o :: l))) <$> ps = (fun p => (p, orders_at p l)) <$> ps).
  { intros ps Hps. apply list_fmap_ext. intros i p Hp. unfold orders_at. rewrite filter_cons.
    rewrite decide_False; [done|]. intros <-. apply Hps. by eapply list_elem_of_lookup_2. }
  cbn [distinct_prices]. rewrite fmap_cons, Hother by (intros [? _]%list_elem_of_filter; done).
  assert (Hself : orders_at (o_price o) (o :: l) = o :: orders_at (o_price o) l).
  { unfold orders_at. by rewrite filter_cons, decide_True. }
  rewrite Hself. simpl groups. destruct (groups l) as [|[q g] gs] eqn:Eg.
  - destruct l as [|h l]; [done|]. by destruct (groups_head h l) as (? & ? & E); rewrite E in Eg.
  - destruct (q =? o_price o) eqn:Eq.
    + apply Z.eqb_eq in Eq. subst q. destruct (distinct_prices l) as [|p ps] eqn:Ed; [done|].
      rewrite fmap_cons in IH. injection IH as <- -> ->. rewrite filter_cons, decide_False by auto.
      destruct l as [|h l']; [done|]. cbn [distinct_prices] in Ed. injection Ed as Eh Eps.
      f_equal. rewrite <- Eps, Eh, list_filter_filter_l; done.
    + pose proof (worsening_absent side o l Hs) as Habs.
      assert (Hall : Forall (fun x => o_price x <> o_price o) l).
      { apply Habs. intros g' gs'. rewrite Eg. intros [= ? _ _]. lia. }
      rewrite Forall_forall in Hall.
      assert (Hid : filter (fun q => q <> o_price o) (distinct_prices l) = distinct_prices l).
      { apply list_filter_all. intros p (x & Hx & <-)%distinct_prices_elem. by apply Hall. }
      rewrite Hid, <- IH. f_equal. f_equal. f_equal. symmetry. apply list_filter_none.
      intros x Hx. by apply Hall.
Qed.

Lemma orders_at_level {K} p (m : list (K * Order)) :
  volumes (orders_at p (bt_values m)) = level_volume p m /\
  Z.of_nat (length (orders_at p (bt_values m))) = level_orders p m.
Proof.
  induction m as [|[k o] m [IH1 IH2]]; [done|].
  rewrite level_volume_cons, level_orders_cons. unfold orders_at, at_price, bt_values in *.
  rewrite fmap_cons, filter_cons. cbn [snd].
  destruct (Z.eqb_spec (o_price o) p); [rewrite decide_True by done|rewrite decide_False by done].
  - rewrite volumes_cons, length_cons. lia.
  - lia.
Qed.

Lemma side_worsening {K} `{BookKeyLaws K} (m : list (K * Order)) :
  side_ok m -> worsening (key_side K) (bt_values m).
Proof.
  induction m as [|[k o] m IH]; intros Hok; [constructor|].
  destruct (side_ok_cons _ _ _ Hok) as (Hmk & Hok' & Hlt). unfold worsening, bt_values in *.
  rewrite fmap_cons. constructor; [by apply IH|]. apply Forall_fmap, Forall_forall.
  intros [k' o'] He. rewrite Forall_forall in Hlt. specialize (Hlt _ He). cbn [fst snd] in *.
  destruct Hok' as [_ Hm]. rewrite Forall_forall in Hm.
  pose proof (mk_key _ (Hm _ He)) as E2. pose proof (mk_key _ Hmk) as E1. cbn [fst snd] in *.
  rewrite E1, E2 in Hlt. apply key_priority in Hlt. rewrite !key_price_of in Hlt.
  cbn [compose snd]. unfold better in *. destruct (key_side K); lia.
Qed.

Lemma side_volumes {K} `{BookKey K} (m : list (K * Order)) :
  side_ok m -> Forall (fun o => in_i128 (o_volume o)) (bt_values m).
Proof.
  intros [_ Hm]. apply Forall_fmap. eapply Forall_impl; [exact Hm|].
  intros [k o] []. simpl in *. range_lia.
Qed.

Definition reference_level (side : OrderSide) (b : OrderBook) (p : Fixed) : DepthLevel :=
  mkDepthLevel p (wrap_i128 (book_level side p b).1) (wrap_u32 (book_level side p b).2).

Lemma depth_reference n side levels b :
  book_inv n b -> 0 <= levels ->
  depth side levels b =
  reference_level side b <$> take (Z.to_nat levels) (distinct_prices (side_orders side b)).
Proof.
  intros Hinv Hl.
  assert (Hs : worsening side (side_orders side b) /\
            Forall (fun o => in_i128 (o_volume o)) (side_orders side b)).
  { destruct side; simpl;
      [pose proof (bk_bids _ _ Hinv) as Hok|pose proof (bk_asks _ _ Hinv) as Hok];
      (split; [exact (side_worsening _ Hok)|by apply side_volumes]). }
  destruct Hs as [Hs Hv]. rewrite depth_groups by done. rewrite (groups_reference side) by done.
  rewrite <- fmap_take, <- list_fmap_compose. apply list_fmap_ext. intros i p _.
  unfold reference_level, level_of, book_level. cbn [compose fst snd].
  destruct side; simpl.
  - by destruct (orders_at_level p (bids b)) as [<- <-].
  - by destruct (orders_at_level p (asks b)) as [<- <-].
Qed.
