(* ===== verification/Book.v ===== *)
(** * What the order book guarantees

    The theorems about the book as a whole: its reachable states, what executing an order does on
    every branch, cancel, amend, the purge and depth. Each is a short consequence of the
    specifications proved in [Execute], [Change], [Purge] and [Depth]. *)

From stdpp Require Import relations.
From S2P Require Import Prelude BTree Fixed Order OrderBook Sweep BookInv BookOps Purge Change.
From S2P Require Import Execute Depth.

(** ** Sequences of requests *)

Section Reachability.
Context `{I256Ops}.

(** One request against the book, as the state machine and the recovery code issue them. *)
Inductive book_step : OrderBook -> OrderBook -> Prop :=
| step_execute order config b out o b' :
    order_typed order -> book_sequence b < U64_MAX ->
    execute_order_inner order config b = Ret (out, o, b') -> book_step b b'
| step_cancel request b r b' : cancel request b = Ret (r, b') -> book_step b b'
| step_amend request price volume b r b' :
    book_sequence b < U64_MAX ->
    (forall p, price = Some p -> in_i128 p) -> (forall v, volume = Some v -> in_i128 v) ->
    amend request price volume b = Ret (r, b') -> book_step b b'
| step_purge now day b removed b' : purge_expired now day b = Ret (removed, b') -> book_step b b'
| step_purge_due now b removed b' : purge_due_gtd now b = Ret (removed, b') -> book_step b b'
| step_enable_journal b : book_step b (enable_depth_journal b)
| step_take_journal b : book_step b (take_depth_journal b).2
| step_rebuild b : book_step b (rebuild_derived_indexes b).

Definition reachable (b : OrderBook) : Prop := rtc book_step OrderBook_new b.
End Reachability.

Lemma OrderBook_new_ok : book_ok OrderBook_new /\ quiescent OrderBook_new.
Proof.
  split; [|done].
  split; simpl; try done; try (split; [apply bt_sorted_nil|constructor]); try lia.
  - intros ? ? ?%not_elem_of_nil. done.
  - split; constructor.
Qed.

(** Fields [book_ok] and [quiescent] do not read. *)
Lemma book_ok_same b b' :
  bids b' = bids b -> asks b' = asks b -> stops b' = stops b ->
  book_sequence b' = book_sequence b -> last_trade_price b' = last_trade_price b ->
  earliest_gtd_expiry b' = earliest_gtd_expiry b ->
  book_ok b /\ quiescent b -> book_ok b' /\ quiescent b'.
Proof.
  intros Eb Ea Es Eq El Ee [[] Hq]. split.
  - unfold book_ok. rewrite Eq. split; rewrite ?Eb, ?Ea, ?Es, ?Ee; try done.
    + unfold uncrossed. by rewrite Eb, Ea.
    + by rewrite all_orders_map, Eb, Ea, Es, <- all_orders_map.
  - unfold quiescent in *. by rewrite Es, El.
Qed.

Lemma purged_ok f b removed b' :
  purged f b removed b' -> book_ok b /\ quiescent b -> book_ok b' /\ quiescent b'.
Proof.
  intros Hp [Hok Hq]. split; [|by eapply purged_quiescent].
  unfold book_ok. rewrite (proj1 (pu_frame _ _ _ _ Hp)). by apply Hp.
Qed.

Section Steps.
Context `{I256Ops} `{!I256Laws}.

Lemma cancel_ok request b r b' :
  cancel request b = Ret (r, b') -> book_ok b /\ quiescent b -> book_ok b' /\ quiescent b'.
Proof.
  intros E [Hok Hq]. destruct (cancel_spec _ request b Hok) as (r' & b'' & E' & Hr).
  rewrite E in E'. simplify_eq. destruct r' as [o|]; [|by destruct Hr as [-> _]].
  destruct Hr as [_ [Hp Hi Hs _ (Eq & El & _)]]. split; [unfold book_ok; rewrite Eq; by apply Hi|].
  unfold quiescent in *. rewrite El. destruct (last_trade_price b); [|done].
  rewrite Forall_forall in *. intros s Hin. apply Hq. by eapply elem_of_submseteq.
Qed.

Lemma amend_ok request price volume b r b' :
  amend request price volume b = Ret (r, b') -> book_sequence b < U64_MAX ->
  (forall p, price = Some p -> in_i128 p) -> (forall v, volume = Some v -> in_i128 v) ->
  book_ok b /\ quiescent b -> book_ok b' /\ quiescent b'.
Proof.
  intros E Hseq Hp Hv [Hok Hq]. unfold amend, next_market_sequence in E. fold (after_number b) in E.
  assert (Hnum : book_sequence (after_number b) = book_sequence b + 1).
  { simpl. apply wrap_u64_id. pose proof (bk_nonneg _ _ Hok). unfold in_u64. lia. }
  pose proof (after_number_inv _ _ Hok) as Hinv.
  destruct (amend_with_sequence_spec _ request price volume _ Hinv Hp Hv) as (r' & b'' & E' & Hr).
  rewrite E in E'. simplify_eq. destruct r' as [am|e].
  - destruct Hr as [_ Hi _ (Es & Eq & El)]. split.
    + unfold book_ok. by rewrite Eq, Hnum.
    + unfold quiescent in *. by rewrite El, Es.
  - subst b''. split; [|done]. unfold book_ok. rewrite Hnum. eapply book_inv_mono; [|done]. lia.
Qed.

Lemma step_ok b b' : book_step b b' -> book_ok b /\ quiescent b -> book_ok b' /\ quiescent b'.
Proof.
  intros Hstep Hok. destruct Hstep as [order config b out o b' Ht Hseq E|request b r b' E|request price volume b r b' Hseq Hp Hv E|now day b removed b' E|now b removed b' E|b|b|b].
  - destruct Hok as [Hok Hq]. pose proof (execute_spec order config b) as Hs.
    rewrite E in Hs. specialize (Hs Hok Ht Hseq).
    destruct (executed_ok _ _ _ _ _ _ Hs Hok Hseq) as (? & _ & ? & _). auto.
  - by eapply cancel_ok.
  - by eapply amend_ok.
  - destruct (purge_expired_spec _ now day b (proj1 Hok)) as (? & ? & E' & Hp).
    rewrite E in E'; simplify_eq; by eapply purged_ok.
  - destruct (purge_due_gtd_spec _ now b (proj1 Hok)) as (? & ? & E' & Hp).
    rewrite E in E'; simplify_eq; by eapply purged_ok.
  - by apply (book_ok_same b).
  - by apply (book_ok_same b).
  - unfold rebuild_derived_indexes. destruct Hok as [Hok Hq].
    assert (Hd : book_ok (mark_gtd_dirty b)) by (by apply (book_ok_same b)).
    destruct (refresh_same (mark_gtd_dirty b)) as (_ & _ & Es & _ & _ & Eq & El).
    split; [unfold book_ok; rewrite Eq; by apply refresh_inv|].
    unfold quiescent in *. by rewrite El, Es.
Qed.

Lemma reachable_ok b : reachable b -> book_ok b /\ quiescent b.
Proof.
  intros Hr. unfold reachable in Hr. pose proof OrderBook_new_ok as Hn.
  induction Hr as [|x y z Hs _ IH]; [done|]. apply IH. by eapply step_ok.
Qed.

(** The requests that can change a level. *)
Inductive request_step : OrderBook -> OrderBook -> Prop :=
| req_execute order config b out o b' :
    order_typed order -> book_sequence b < U64_MAX ->
    execute_order_inner order config b = Ret (out, o, b') -> request_step b b'
| req_cancel request b r b' : cancel request b = Ret (r, b') -> request_step b b'
| req_amend request price volume b r b' :
    (forall p, price = Some p -> in_i128 p) -> (forall v, volume = Some v -> in_i128 v) ->
    amend request price volume b = Ret (r, b') -> request_step b b'
| req_purge now day b removed b' : purge_expired now day b = Ret (removed, b') -> request_step b b'
| req_purge_due now b removed b' : purge_due_gtd now b = Ret (removed, b') -> request_step b b'.

Lemma request_step_journaled b b' : book_ok b -> request_step b b' -> exists j, journaled b b' j.
Proof.
  intros Hok Hstep.
  destruct Hstep as [order config b out o b' Ht Hs E|request b r b' E|request price volume b r b' Hp Hv E
                    |now day b removed b' E|now b removed b' E].
  - pose proof (execute_spec order config b Hok Ht Hs) as Hx. rewrite E in Hx.
    by destruct (executed_ok _ _ _ _ _ _ Hx Hok Hs) as (_ & _ & _ & ?).
  - destruct (cancel_spec _ request b Hok) as (r' & b'' & E' & Hr). rewrite E in E'. simplify_eq.
    destruct r' as [o|]; [apply Hr|]. destruct Hr as [-> _]. exists []. apply journaled_refl.
  - pose proof (after_number_inv _ _ Hok) as Hinv.
    destruct (amend_with_sequence_spec _ request price volume _ Hinv Hp Hv) as (r' & b'' & E' & Hr).
    unfold amend, next_market_sequence in E. fold (after_number b) in E. rewrite E in E'. simplify_eq.
    destruct r' as [am|e]; [|subst; exists []; by eapply journaled_same; [apply journaled_refl|..]].
    destruct (ai_journal _ _ _ _ _ _ _ Hr) as (j & Hj). exists j. exact Hj.
  - destruct (purge_expired_spec _ now day b Hok) as (? & ? & E' & Hp). rewrite E in E'.
    simplify_eq. apply Hp.
  - destruct (purge_due_gtd_spec _ now b Hok) as (? & ? & E' & Hp). rewrite E in E'.
    simplify_eq. apply Hp.
Qed.
End Steps.

Lemma book_inv_below n b : book_inv n b -> Forall (fun x => o_sequence x < n) (all_orders b).
Proof.
  intros Hinv. pose proof (bk_ids _ _ Hinv) as [_ Hb _]. unfold book_ids in Hb.
  rewrite Forall_fmap in Hb. eapply Forall_impl; [exact Hb|]. simpl. lia.
Qed.

(** ** Accounting of one execution *)

Definition due (now : Z) (o : Order) : bool := is_expired (o_tif o) now None.

(** Open volume of the orders on [side] the automatic purge takes out. *)
Definition due_open (now : Z) (side : OrderSide) (b : OrderBook) : Z :=
  sum_Z (open_of <$> filter (fun o => due now o = true) (side_orders side b)).

(** What the executed order leaves on [side]: its size less what it traded, when it rests. *)
Definition rested_open (o : Order) (out : Outcome) (side : OrderSide) : Z :=
  if bool_decide (o_side o = side) && bool_decide (is_Some (out_resting out))
  then o_volume o - fills_volume (out_fills out) else 0.

(** What the order and the stops it triggered took from [side]. *)
Definition taken_open (o : Order) (out : Outcome) (side : OrderSide) : Z :=
  (if bool_decide (opposite (o_side o) = side) then fills_volume (out_fills out) else 0)
  + triggers_volume side (out_triggers out).

(** The same, restricted to prices that satisfy [f]. *)
Definition due_where (now : Z) (f : Fixed -> bool) (side : OrderSide) (b : OrderBook) : Z :=
  sum_Z ((fun o => if f (o_price o) then open_of o else 0) <$>
           filter (fun o => due now o = true) (side_orders side b)).

Lemma purged_weight (w : Order -> Z) f b removed b' side :
  purged f b removed b' ->
  sum_Z (w <$> side_orders side b) =
  sum_Z (w <$> side_orders side b') + sum_Z (w <$> filter (fun o => f o = true) (side_orders side b)).
Proof.
  intros Hp. rewrite (pu_sides _ _ _ _ Hp).
  induction (side_orders side b) as [|o l IH]; [done|].
  rewrite !filter_cons, fmap_cons. destruct (f o) eqn:Ef.
  - rewrite decide_False, decide_True by congruence. rewrite fmap_cons. simpl sum_Z in *. lia.
  - rewrite decide_True, decide_False by congruence. rewrite fmap_cons. simpl sum_Z in *. lia.
Qed.

Lemma side_where_values f side b :
  side_where f side b =
  sum_Z ((fun o => if f (o_price o) then open_of o else 0) <$> side_orders side b).
Proof. destruct side; simpl; unfold open_where, bt_values; by rewrite <- list_fmap_compose. Qed.

Lemma rested_side_open order total b b' side :
  rested order total b b' ->
  side_open side b' = side_open side b + (if bool_decide (o_side order = side) then total else 0).
Proof.
  intros R. case_bool_decide as Hs; [subst; apply R|].
  assert (side = opposite (o_side order)) as -> by (by destruct (o_side order), side).
  rewrite !side_open_values, (re_other _ _ _ _ R). lia.
Qed.

Section Accounting.
Context `{I256Ops} `{!I256Laws}.

Lemma settled_open order rem b r c b' side :
  settled order rem b r c b' ->
  side_open side b' = side_open side b +
    (if bool_decide (o_side order = side) && bool_decide (is_Some r) then rem else 0) /\
  (is_Some r -> o_volume_unit order = UnitBase /\ c = None) /\
  (r = None -> default 0 c = Z.max 0 rem).
Proof.
  intros [|?|b'' ? ? ? ? R].
  - rewrite (bool_decide_eq_false_2 (is_Some None)), andb_false_r by (by intros []).
    split_and!; [lia|by intros []|simpl; lia].
  - rewrite (bool_decide_eq_false_2 (is_Some None)), andb_false_r by (by intros []).
    split_and!; [lia|by intros []|simpl; lia].
  - rewrite (rested_side_open _ _ _ _ side R), (bool_decide_eq_true_2 (is_Some (Some _))), andb_true_r
      by eauto. split_and!; [done|done|done].
Qed.

Lemma admitted_open config order seq expired b out b' side :
  admitted config order seq expired b out b' ->
  side_open side b + rested_open order out side = side_open side b' + taken_open order out side.
Proof.
  assert (Hnone : forall s e p x, side_open side b + rested_open order (mkOutcome s e [] None None p x []) side =
            side_open side b + taken_open order (mkOutcome s e [] None None p x []) side).
  { intros. unfold rested_open, taken_open, triggers_volume, fills_volume. simpl.
    rewrite andb_false_r. case_bool_decide; lia. }
  intros [| | |b'' _ _ _ R| |fills rem b1 r c b2 ts b'' _ _ _ Hsw Hset Hc _]; try apply Hnone.
  - rewrite (rested_side_open _ _ _ _ side R).
    unfold rested_open, taken_open, triggers_volume, fills_volume. simpl.
    rewrite andb_true_r. repeat case_bool_decide; simpl; lia.
  - destruct (settled_open _ _ _ _ _ _ side Hset) as (E2 & Hb & _).
    pose proof (swept_open _ _ _ _ _ _ _ side Hsw) as E1.
    pose proof (cs_open _ _ _ _ Hc side) as E3. rewrite note_print_open in E3.
    unfold rested_open, taken_open. simpl. rewrite E1.
    destruct (bool_decide (o_side order = side) && bool_decide (is_Some r)) eqn:Er; [|lia].
    apply andb_true_iff in Er as [_ Er%bool_decide_eq_true_1]. destruct (Hb Er) as [Hbase _].
    destruct (sb_base _ _ _ _ _ _ _ Hsw Hbase). lia.
Qed.

Lemma admitted_filled config order seq expired b out b' :
  admitted config order seq expired b out b' -> o_volume_unit order = UnitBase ->
  out_rejected out = None -> out_parked out = false -> out_resting out = None ->
  o_volume order = fills_volume (out_fills out) + default 0 (out_cancelled out).
Proof.
  intros [| | | | |fills rem b1 r c b2 ts b'' _ _ _ Hsw Hset _ _] Hb; simpl; try done.
  intros _ _ ->. destruct (settled_open _ _ _ _ _ _ Buy Hset) as (_ & _ & Hc).
  destruct (sb_base _ _ _ _ _ _ _ Hsw Hb). specialize (Hc eq_refl). lia.
Qed.
End Accounting.

(** ** Reading the invariant of a side *)
Section SideFacts.
Context {K : Type} `{BookKeyLaws K}.
Implicit Types m : list (K * Order).

Lemma side_priority m : side_ok m -> StronglySorted (priority_lt (key_side K)) (bt_values m).
Proof.
  induction m as [|[k o] m IH]; intros Hok; [constructor|].
  destruct (side_ok_cons _ _ _ Hok) as (Hmk & Hok' & Hlt). unfold bt_values in *.
  rewrite fmap_cons. constructor; [by apply IH|]. apply Forall_fmap, Forall_forall.
  intros [k' o'] He. rewrite Forall_forall in Hlt. specialize (Hlt _ He). cbn [fst snd compose] in *.
  destruct Hok' as [_ Hm]. rewrite Forall_forall in Hm.
  pose proof (mk_key _ (Hm _ He)) as E2. pose proof (mk_key _ Hmk) as E1. cbn [fst snd] in *.
  rewrite E1, E2 in Hlt. by apply fill_key_priority in Hlt.
Qed.

Lemma side_sizes m : side_ok m ->
  Forall (fun o => o_side o = key_side K /\ 0 < o_price o /\ 0 < o_volume o /\
                   0 <= o_hidden_volume o /\ open_of o <= I128_MAX) (bt_values m).
Proof.
  intros [_ Hm]. apply Forall_fmap. eapply Forall_impl; [exact Hm|].
  intros [k o] []. simpl in *. unfold open_of. by split_and!; try lia.
Qed.
End SideFacts.

(** ** The numbers of a trade *)
Section Trades.
Context `{I256Ops} `{!I256Laws}.

Lemma new_with_policy_exact taker maker v policy :
  let f := new_with_policy taker maker v policy in
  0 < v <= I128_MAX -> 0 < o_price maker <= I128_MAX ->
  rate_ok (o_maker_fee_rate maker) -> rate_ok (o_taker_fee_rate taker) ->
  m_notional f = default 0 (checked_i128 (Z.quot (o_price maker * v) SCALE)) /\
  (in_i128 (Z.quot (o_price maker * v) SCALE) ->
     m_error f = 0 /\
     m_maker_fee f = Z.quot ((match m_maker_fee_asset f with
                              | FeeBase => v | FeeQuote => m_notional f end)
                             * o_maker_fee_rate maker) SCALE /\
     m_taker_fee f = Z.quot ((match m_taker_fee_asset f with
                              | FeeBase => v | FeeQuote => m_notional f end)
                             * o_taker_fee_rate taker) SCALE).
Proof.
  intros f Hv Hp Hm Ht. unfold f, new_with_policy. cbn zeta.
  destruct (notional_spec (o_price maker) v) as [En Hn]; try lia; try range_lia.
  set (n := notional (o_price maker) v) in *. simpl m_notional. simpl m_maker_fee_asset.
  simpl m_taker_fee_asset. rewrite En. split; [done|]. intros Hr.
  assert (Hc : checked_i128 (Z.quot (o_price maker * v) SCALE) = Some (Z.quot (o_price maker * v) SCALE))
    by (by apply checked_i128_Some).
  rewrite Hc in En |- *. simpl.
  rewrite !fill_fee_spec by (done || lia || range_lia || (rewrite <- En; exact Hn)).
  destruct (fee_asset policy (o_side taker)), (fee_asset policy (o_side maker)); simpl; done.
Qed.

Lemma trade_exact taker limit config f :
  trade_ok taker limit config f -> rate_ok (o_taker_fee_rate taker) ->
  m_notional f = default 0 (checked_i128 (Z.quot (o_price (m_maker f) * m_matches f) SCALE)) /\
  (in_i128 (Z.quot (o_price (m_maker f) * m_matches f) SCALE) ->
     m_error f = 0 /\
     m_maker_fee f = Z.quot ((match m_maker_fee_asset f with
                              | FeeBase => m_matches f | FeeQuote => m_notional f end)
                             * o_maker_fee_rate (m_maker f)) SCALE /\
     m_taker_fee f = Z.quot ((match m_taker_fee_asset f with
                              | FeeBase => m_matches f | FeeQuote => m_notional f end)
                             * o_taker_fee_rate taker) SCALE).
Proof.
  intros [Hpos _ Htk _ Hp Hv Hr Eres] Hrt.
  apply identity_fields in Htk as (_ & _ & _ & _ & _ & _ & _ & _ & Et & _).
  rewrite <- Et in *.
  pose proof (new_with_policy_exact (m_taker f) (m_maker f) (m_matches f) (fee_asset_policy config))
    as Hx. cbv zeta in Hx. rewrite <- Eres in Hx. apply Hx; try done; lia.
Qed.

Lemma executed_trade order config b out o b' taker f :
  executed order config b out o b' ->
  (taker = o /\ f ∈ out_fills out \/
   exists t, t ∈ out_triggers out /\ taker = se_stop t /\ f ∈ se_fills t) ->
  trade_ok taker (order_limit taker) config f /\ rate_ok (o_taker_fee_rate taker).
Proof.
  assert (Hnil : forall x, (taker = x /\ f ∈ [] \/
            exists t : StopExecution, t ∈ [] /\ taker = se_stop t /\ f ∈ se_fills t) -> False).
  { intros x [[_ ?%not_elem_of_nil]|(t & ?%not_elem_of_nil & _)]; done. }
  intros [|o1 expired b1 out1 b1' _ _ _ Htk _ _ Had] Hf; [by apply Hnil in Hf|].
  destruct Had as [| | | | |fills rem b2 r c b3 ts b4 _ _ _ Hsw _ Hc _];
    try (by apply Hnil in Hf); simpl in Hf.
  destruct Hf as [[-> Hf]|(t & Ht & -> & Hf)].
  - pose proof (sb_trades _ _ _ _ _ _ _ Hsw) as Ht. rewrite Forall_forall in Ht.
    split; [by apply Ht|apply Htk].
  - pose proof (cs_triggers _ _ _ _ Hc) as Hg. rewrite Forall_forall in Hg.
    destruct (Hg t Ht) as [_ [Hst _] Htr _]. rewrite Forall_forall in Htr.
    split; [by apply Htr|apply Hst].
Qed.
End Trades.

(** ** A concrete book for the witnesses *)
Module Demo.
Definition ask1 : Order := Order_new Sell 10000 500 0.
Definition ask2 : Order := Order_new Sell 10100 500 0.

Definition place (o : Order) (b : OrderBook) : OrderBook :=
  match execute_order_inner o SymbolConfig_default b with Ret (_, _, b') => b' | _ => b end.

(** Two asks resting, the journal on. *)
Definition book : OrderBook := place ask2 (place ask1 (enable_depth_journal OrderBook_new)).

Lemma typed side p v s : in_i128 p -> in_i128 v -> in_u64 s -> order_typed (Order_new side p v s).
Proof. intros ???. by split. Qed.

Lemma place_step o b :
  order_typed o -> book_sequence b < U64_MAX ->
  match execute_order_inner o SymbolConfig_default b with Ret _ => true | _ => false end = true ->
  reachable b -> reachable (place o b).
Proof.
  intros Ht Hs He Hr. eapply rtc_r; [exact Hr|]. unfold place.
  destruct (execute_order_inner _ _ _) as [[[out o'] b']| |] eqn:E; try done.
  by eapply step_execute.
Qed.

Lemma start_reachable : reachable (enable_depth_journal OrderBook_new).
Proof. eapply rtc_l; [apply step_enable_journal|]. apply rtc_refl. Qed.

Ltac typed_order := apply typed; vm_compute; split; discriminate.

Lemma first_reachable : reachable (place ask1 (enable_depth_journal OrderBook_new)).
Proof. apply place_step; [typed_order|by vm_compute|by vm_compute|apply start_reachable]. Qed.

Lemma book_reachable : reachable book.
Proof. apply place_step; [typed_order|by vm_compute|by vm_compute|apply first_reachable]. Qed.

Lemma book_is_ok : book_ok book /\ quiescent book.
Proof. apply reachable_ok, book_reachable. Qed.
End Demo.
