(* ===== verification/BookSpec.v ===== *)
(** * The theorems of the order book

    Each theorem states one guarantee of [src/src/order_book/mod.rs] for every book that satisfies
    the invariant, every well-typed order and every symbol configuration, and is followed by a
    witness on a concrete book. *)

From stdpp Require Import relations.
From S2P Require Import Prelude BTree Fixed Order OrderBook Sweep BookInv BookOps Purge Change.
From S2P Require Import Execute Depth Book.

Section Guarantees.
Context `{I256Ops} `{!I256Laws}.

(** C1: Every book reachable from the empty book by executing, cancelling, amending and purging
    orders keeps both sides in strict price-time priority with unique sequence numbers below the
    counter, has every bid price below every ask price, only positive sizes, a deadline index
    that is not after any GTD deadline, and no parked stop that the last trade would elect. *)
Theorem reachable_book_sound (b : OrderBook) :
  reachable b ->
  (forall side, StronglySorted (priority_lt side) (side_orders side b)) /\
  (forall bid ask, bid ∈ side_orders Buy b -> ask ∈ side_orders Sell b -> o_price bid < o_price ask) /\
  (forall side, Forall (fun o => o_side o = side /\ 0 < o_price o /\ 0 < o_volume o /\
                                 0 <= o_hidden_volume o /\ open_of o <= I128_MAX)
                  (side_orders side b)) /\
  NoDup (o_sequence <$> all_orders b) /\
  Forall (fun o => 0 <= o_sequence o < book_sequence b) (all_orders b) /\
  Forall (covered (earliest_gtd_expiry b)) (all_orders b) /\
  match last_trade_price b with
  | Some p => Forall (fun s => stop_elected s p = false) (stops b)
  | None => True
  end.
Proof.
  intros Hr. destruct (reachable_ok b Hr) as [Hok Hq]. pose proof (bk_ids _ _ Hok) as Hids.
  unfold book_ids in Hids. apply (proj1 (ids_ok_identity _ _ _)) in Hids as [Hu Hb Hc].
  split_and!; try done.
  - intros [|]; [exact (side_priority _ (bk_bids _ _ Hok))|exact (side_priority _ (bk_asks _ _ Hok))].
  - intros bid ask (eb & -> & Heb)%list_elem_of_fmap (ea & -> & Hea)%list_elem_of_fmap.
    by apply (bk_uncrossed _ _ Hok).
  - intros [|]; [exact (side_sizes _ (bk_bids _ _ Hok))|exact (side_sizes _ (bk_asks _ _ Hok))].
Qed.

(** C27: Executing any well-typed order on a sound book always ends: it returns a book that is
    again sound and has consumed exactly one sequence number. It can only panic when the order
    itself or a parked stop is sized in quote currency, never for base-sized orders. *)
Theorem execute_preserves_book (order : Order) (config : SymbolConfig) (b : OrderBook) :
  book_ok b -> quiescent b -> order_typed order -> book_sequence b < U64_MAX ->
  match execute_order_inner order config b with
  | Ret (_, _, b') => book_ok b' /\ quiescent b' /\ book_sequence b' = book_sequence b + 1
  | Panic => o_volume_unit order = UnitQuote \/
             Exists (fun s => o_volume_unit s = UnitQuote) (stops b)
  | Diverged => False
  end.
Proof.
  intros Hok Hq Ht Hs. pose proof (execute_spec order config b Hok Ht Hs) as Hx.
  destruct (execute_order_inner _ _ _) as [[[out o] b']| |]; [|done|done].
  destruct (executed_ok _ _ _ _ _ _ Hx Hok Hs) as (? & ? & ? & _). auto.
Qed.

(** C2: An accepted order conserves volume. On each side, what was open before plus what the order
    leaves resting equals what is open after, plus what the order and the stops it triggered
    took, plus what the automatic GTD purge removed; and a base-sized order that neither parks
    nor rests is accounted for by its fills and its cancelled remainder. *)
Theorem execution_conserves_volume (order : Order) (config : SymbolConfig) (b : OrderBook)
    (out : Outcome) (o : Order) (b' : OrderBook) :
  book_ok b -> order_typed order -> book_sequence b < U64_MAX ->
  execute_order_inner order config b = Ret (out, o, b') -> out_rejected out = None ->
  (forall side, side_open side b + rested_open o out side =
     side_open side b' + taken_open o out side + due_open (o_timestamp order) side b) /\
  (o_volume_unit o = UnitBase -> out_parked out = false -> out_resting out = None ->
     o_volume o = fills_volume (out_fills out) + default 0 (out_cancelled out)).
Proof.
  intros Hok Ht Hs E Hr. pose proof (execute_spec order config b Hok Ht Hs) as Hx. rewrite E in Hx.
  destruct Hx as [|o expired b1 out b' _ _ _ _ _ Hp Had]; [done|]. split.
  - intros side. pose proof (admitted_open _ _ _ _ _ _ _ side Had).
    pose proof (purged_weight open_of _ _ _ _ side Hp) as Ep. rewrite !side_open_values in *.
    change (side_orders side (after_number b)) with (side_orders side b) in Ep.
    unfold due_open, due. cbv beta in Ep. lia.
  - intros Hb Hpk Hre. by eapply admitted_filled.
Qed.

(** C4: A sweep respects price-time priority: its trades come in priority order of their makers,
    and no order left on that side had priority over a maker that traded. *)
Theorem sweep_price_time_priority (order : Order) (limit : option Fixed) (config : SymbolConfig)
    (b : OrderBook) (fills : list MatchResult) (rem : Fixed) (b' : OrderBook) :
  book_ok b -> 0 <= o_volume order -> in_i128 (o_volume order) ->
  sweep order limit config b = Ret (fills, rem, b') ->
  let side := opposite (o_side order) in
  StronglySorted (fun f g => ~ priority_lt side (m_maker g) (m_maker f)) fills /\
  (forall f o, f ∈ fills -> o ∈ side_orders side b' -> ~ priority_lt side o (m_maker f)).
Proof.
  intros Hok Hv Hr E. pose proof (sweep_spec order limit config b _ Hok Hv Hr) as Hs.
  rewrite E in Hs. split; apply Hs.
Qed.


(** C28: Fill-or-kill is all or nothing, unless the order is also post-only. Let a sound
    book whose sequence counter is not used up execute a base-sized FOK order that validation does not
    refuse. If it is not post-only, it is rejected with no trade and no
    change to the sides beyond the automatic purge exactly when the volume within its limit on the
    other side is smaller than the order; otherwise it trades its whole size and nothing of it rests or
    is cancelled. If it is post-only, that flag wins over FOK: it trades nothing, and it is either
    rejected because it would cross or rests its whole size. *)
Theorem fok_all_or_nothing (order : Order) (config : SymbolConfig) (b : OrderBook)
    (out : Outcome) (o : Order) (b' : OrderBook) :
  book_ok b -> order_typed order -> book_sequence b < U64_MAX ->
  execute_order_inner order config b = Ret (out, o, b') ->
  o_tif o = Fok -> o_volume_unit o = UnitBase -> refusal (numbered order b) config = None ->
  let available := side_where (crosses (order_limit o) (o_side o)) (opposite (o_side o)) b
                   - due_where (o_timestamp order) (crosses (order_limit o) (o_side o))
                       (opposite (o_side o)) b in
  (o_post_only o = false -> o_volume o <= available ->
     out_rejected out = None /\ fills_volume (out_fills out) = o_volume o /\
     out_resting out = None /\ out_cancelled out = None) /\
  (o_post_only o = false -> available < o_volume o ->
     out_rejected out = Some FokUnfillable /\ out_fills out = [] /\ out_triggers out = [] /\
     forall side, side_orders side b' =
       filter (fun x => due (o_timestamp order) x = false) (side_orders side b)) /\
  (o_post_only o = true ->
     out_fills out = [] /\ out_triggers out = [] /\ out_cancelled out = None /\
     (out_rejected out = Some PostOnlyWouldCross /\ out_resting out = None \/
      out_rejected out = None /\ out_resting out = Some (o_volume o))).
Proof.
  intros Hok Ht Hs E Hfok Hb Href available.
  pose proof (execute_spec order config b Hok Ht Hs) as Hx. rewrite E in Hx.
  destruct Hx as [|o expired b1 out b' _ _ Hval Htk Eseq Hp Had]; [congruence|].
  assert (Hinv1 : book_inv (o_sequence o) b1).
  { rewrite Eseq. by apply Hp, after_number_inv. }
  assert (Hav : fillable_volume o b1 = Z.min I128_MAX available).
  { rewrite (fillable_volume_eq (o_sequence o)) by done. f_equal. unfold available.
    rewrite !side_where_values. unfold due_where, due. set (w := fun x => if crosses _ _ _ then _ else _).
    pose proof (purged_weight w _ _ _ _ (opposite (o_side o)) Hp) as Ep. cbv beta in Ep.
    change (side_orders ?s (after_number b)) with (side_orders s b) in Ep. lia. }
  pose proof (tk_volume _ Htk).
  apply validate_order_None in Hval as (_ & _ & _ & _ & _ & _ & Hplain & Hstop).
  destruct Had as [Hi|Hi| |b2 _ Hpo _ R| |fills rem b2 r c b3 ts b4 _ Hnp Hf Hsw Hset Hc _]; simpl;
    try (destruct (Hstop Hi) as [_ Him]; by rewrite Hfok in Him).
  - split_and!; [congruence..|]. intros _. by split_and!; [..|left].
  - split_and!; [congruence..|]. intros _. split_and!; [done..|right].
    destruct (Hplain Hpo) as (_ & _ & Hd). unfold visible_part. by rewrite Hd.
  - split_and!; [lia| |congruence]. intros _ _. split_and!; try done; apply (pu_sides _ _ _ _ Hp).
  - specialize (Hf Hfok). pose proof (fillable_fills _ _ _ _ _ _ _ Hinv1 Hb Hsw Hf) as ->.
    destruct (sb_base _ _ _ _ _ _ _ Hsw Hb). split_and!; [|lia|congruence]. intros _ _.
    inversion Hset; subst; split_and!; done || lia.
Qed.

(** A post-only order never takes liquidity: it trades nothing and triggers nothing; it is
    rejected when it would cross the best opposite price after the purge, and otherwise rests
    its whole size at its price. *)
Theorem post_only_never_takes (order : Order) (config : SymbolConfig) (b : OrderBook)
    (out : Outcome) (o : Order) (b' : OrderBook) :
  book_ok b -> order_typed order -> book_sequence b < U64_MAX ->
  execute_order_inner order config b = Ret (out, o, b') -> o_post_only order = true ->
  out_fills out = [] /\ out_triggers out = [] /\ out_cancelled out = None /\
  match out_rejected out with
  | Some _ => out_resting out = None
  | None =>
      out_resting out = Some (o_volume o) /\ rested_order o (o_volume o) ∈ side_orders (o_side o) b' /\
      Forall (fun x => crosses (Some (o_price o)) (o_side o) (o_price x) = false)
        (side_orders (opposite (o_side o)) b')
  end.
Proof.
  intros Hok Ht Hs E Hpo. pose proof (execute_spec order config b Hok Ht Hs) as Hx. rewrite E in Hx.
  destruct Hx as [|o expired b1 out b' _ Hn Hval Htk Eseq Hp Had]; [done|].
  assert (Hpo' : o_post_only o = true).
  { destruct (normalize_order_Ok _ _ _ (numbered_typed _ _ Hok Ht Hs) Hn) as (_ & _ & v & u & r & ru & ->).
    done. }
  assert (Hinv1 : book_inv (o_sequence o) b1).
  { rewrite Eseq. by apply Hp, after_number_inv. }
  apply validate_order_None in Hval as (_ & _ & _ & _ & _ & _ & Hplain & _).
  destruct (Hplain Hpo') as (_ & Hns & Hd).
  destruct Had as [Hi|Hi| |b2 _ _ Hx R| |]; try congruence; try done.
  simpl. split_and!; try done.
  - unfold visible_part. by rewrite Hd.
  - rewrite (re_orders _ _ _ _ R). left.
  - rewrite (re_other _ _ _ _ R). by eapply no_cross.
Qed.

(** Market orders, quote-sized orders and immediate orders (IOC, FOK) that are not post-only
    never rest: unless parked as a stop, no order in the book carries their number. *)
Theorem immediate_never_rests (order : Order) (config : SymbolConfig) (b : OrderBook)
    (out : Outcome) (o : Order) (b' : OrderBook) :
  book_ok b -> order_typed order -> book_sequence b < U64_MAX ->
  execute_order_inner order config b = Ret (out, o, b') -> o_post_only o = false ->
  (o_live o = Market \/ o_volume_unit o = UnitQuote \/ is_immediate (o_tif o) = true) ->
  out_resting out = None /\
  (out_parked out = false -> Forall (fun x => o_sequence x < book_sequence b) (all_orders b')).
Proof.
  intros Hok Ht Hs E Hpo Him. pose proof (execute_spec order config b Hok Ht Hs) as Hx. rewrite E in Hx.
  destruct Hx as [|o expired b1 out b' _ Hn Hval Htk Eseq Hp Had].
  - split; [done|]. intros _. by apply book_inv_below, after_number_inv.
  - assert (Hr : out_resting out = None).
    { destruct Had as [| | |b2 _ Hpo'| |fills rem b2 r c b3 ts b4 _ _ _ _ Hset _ _]; try done; [congruence|].
      destruct Hset; try done. by destruct Him as [?|[?|?]]; congruence. }
    split; [done|]. intros Hpk. apply book_inv_below. rewrite <- Eseq.
    eapply admitted_gone; try done. rewrite Eseq. by apply Hp, after_number_inv.
Qed.

(** A rejected order changes nothing but the sequence counter and the automatic purge: it
    trades nothing, rests nothing and parks nothing; a refusal by validation does not even purge. *)
Theorem rejection_leaves_book (order : Order) (config : SymbolConfig) (b : OrderBook)
    (out : Outcome) (o : Order) (b' : OrderBook) :
  book_ok b -> order_typed order -> book_sequence b < U64_MAX ->
  execute_order_inner order config b = Ret (out, o, b') -> is_Some (out_rejected out) ->
  out_fills out = [] /\ out_resting out = None /\ out_parked out = false /\ out_triggers out = [] /\
  match refusal (numbered order b) config with
  | Some reason => out_rejected out = Some reason /\ out_expired out = [] /\
                   b' = set_book_sequence (book_sequence b + 1) b
  | None =>
      out_expired out = filter (fun x => due (o_timestamp order) x = true) (all_orders b) /\
      all_orders b' = filter (fun x => due (o_timestamp order) x = false) (all_orders b) /\
      last_trade_price b' = last_trade_price b
  end.
Proof.
  intros Hok Ht Hs E Hr. pose proof (execute_spec order config b Hok Ht Hs) as Hx. rewrite E in Hx.
  destruct Hx as [reason o Href|o expired b1 out b' Href _ _ _ _ Hp Had]; rewrite Href.
  - split_and!; try done. unfold after_number. rewrite wrap_u64_id; [done|].
    pose proof (bk_nonneg _ _ Hok). unfold in_u64. lia.
  - pose proof (pu_frame _ _ _ _ Hp) as (_ & El). pose proof (pu_removed _ _ _ _ Hp) as Er.
    pose proof (pu_kept _ _ _ _ Hp) as Ek.
    destruct Had; simpl in *; try (by destruct Hr); by split_and!.
Qed.

(** C29: The stop cascade of a sound book ends with one turn per parked stop at most, and can fail in one
    way only: a division in a stop sized in quote currency panics. When it returns, it has fired each stop
    at most once and only when the last trade price elected it, the volume of every fired stop that is
    sized in base is what it traded and what was cancelled of it, what the sides lost is what the fired
    stops traded, and no parked stop is left that could still fire. In particular it always returns when
    every parked stop is sized in base. *)
Theorem stop_cascade_complete (outcome : Outcome) (config : SymbolConfig) (b : OrderBook) :
  book_ok b ->
  match run_stops outcome config b with
  | Ret (out', b') =>
      book_ok b' /\ quiescent b' /\
      exists fired,
        out_triggers out' = out_triggers outcome ++ fired /\
        stops b ≡ₚ (se_stop <$> fired) ++ stops b' /\
        Forall (fun t => stop_elected (se_stop t) (se_trigger_price t) = true /\
                         (o_volume_unit (se_stop t) = UnitBase ->
                          o_volume (se_stop t) =
                            default 0 (se_cancelled t) + fills_volume (se_fills t))) fired /\
        forall side, side_open side b = side_open side b' + triggers_volume side fired
  | Panic => Exists (fun s => o_volume_unit s = UnitQuote) (stops b)
  | Diverged => False
  end.
Proof.
  intros Hok. unfold run_stops.
  pose proof (run_stops_loop_spec config _ (S (length (stops b))) (out_triggers outcome) b Hok
                ltac:(lia)) as Hrun.
  destruct (run_stops_loop _ _ _ _) as [[ts b']| |]; [|exact Hrun|exact Hrun].
  destruct Hrun as (fired & -> & [Ci Cs Co Ct _ Cq] & Hq). simpl.
  split_and!; [unfold book_ok; rewrite Cq; by apply Ci|done|].
  exists fired. split_and!; try done. eapply Forall_impl; [exact Ct|]. by intros t [He _ _ Hv].
Qed.

(** The sweep loop terminates on every side, order, limit and configuration, sound or not:
    iterating its turn without any bound stops, and the bounded loop of the model (one turn per
    resting order plus one per unit of hidden reserve) computes that result. *)
Theorem sweep_side_terminates {K : Type} `{BookKeyLaws K} (env : SweepEnv)
    (resting : list (K * Order)) (journal : list DepthChange) (gtd_dirty : bool) :
  exists r, runs (sweep_step env)
              (mkSweepState resting [] (o_volume (sw_order env)) journal gtd_dirty) r /\
            r <> Diverged /\ sweep_side env resting journal gtd_dirty = r.
Proof.
  destruct (sweep_side_loop env resting journal gtd_dirty) as (r & Hr & E).
  exists r. split_and!; [done|by eapply sweep_runs_not_diverged|done].
Qed.

(** C31: The depth journal is faithful. Across one execution, cancel, amendment or purge the
    journal grows by entries whose sum, for every side and price, is exactly the change of the
    visible volume and of the number of orders at that level; nothing is journalled when
    recording is off. *)
Theorem depth_journal_faithful (b b' : OrderBook) :
  book_ok b -> request_step b b' ->
  exists j, record_depth b' = record_depth b /\
    depth_journal b' = depth_journal b ++ (if record_depth b then j else []) /\
    forall side p,
      (book_level side p b').1 = (book_level side p b).1 + journal_volume side p j /\
      (book_level side p b').2 = (book_level side p b).2 + journal_orders side p j.
Proof.
  intros Hok Hstep. destruct (request_step_journaled _ _ Hok Hstep) as (j & Hr & Hj & Hl).
  exists j. split_and!; [done|done|]. intros side p. destruct (Hl side p) as [-> _]. done.
Qed.
End Guarantees.

(** Aggregated depth equals its reference: the best [levels] distinct prices of the side, each
    with the total visible volume and the number of orders resting at that price (wrapped to their
    integer types). *)
Theorem depth_is_reference (side : OrderSide) (levels : Z) (b : OrderBook) :
  book_ok b -> 0 <= levels ->
  depth side levels b =
  (fun p => mkDepthLevel p (wrap_i128 (book_level side p b).1) (wrap_u32 (book_level side p b).2))
  <$> take (Z.to_nat levels) (distinct_prices (side_orders side b)).
Proof. intros Hok Hl. by eapply depth_reference. Qed.

(** The indexed GTD purge never misses a due order: on a sound book [purge_due_gtd] removes
    exactly the orders and stops whose deadline has passed, the same ones as the full scan
    [purge_expired] without a day close, and neither can panic. *)
Theorem gtd_fast_path_complete (now : Z) (b : OrderBook) :
  book_ok b ->
  exists removed fast slow,
    purge_due_gtd now b = Ret (removed, fast) /\ purge_expired now None b = Ret (removed, slow) /\
    removed = filter (fun o => is_expired (o_tif o) now None = true) (all_orders b) /\
    all_orders fast = filter (fun o => is_expired (o_tif o) now None = false) (all_orders b) /\
    (forall side, side_orders side fast = side_orders side slow) /\ stops fast = stops slow /\
    book_ok fast /\ book_ok slow.
Proof.
  intros Hok. destruct (purge_due_gtd_spec _ now b Hok) as (r1 & b1 & E1 & P1).
  destruct (purge_expired_spec _ now None b Hok) as (r2 & b2 & E2 & P2).
  pose proof P1 as [R1 K1 S1 T1 I1 _ (Q1 & _)]. pose proof P2 as [R2 K2 S2 T2 I2 _ (Q2 & _)].
  subst r2. rewrite <- R1 in E2. exists r1, b1, b2.
  split_and!; try done.
  - intros side. by rewrite S1, S2.
  - by rewrite T1, T2.
  - unfold book_ok. rewrite Q1. by apply I1.
  - unfold book_ok. rewrite Q2. by apply I2.
Qed.

(** C33: Cancel never panics; it removes exactly the order the request names, a parked stop by side
    and number or a resting order by side, price and number, and returns it; when no order has
    that name it returns nothing and leaves the book untouched. *)
Theorem cancel_removes_named (request : Order) (b : OrderBook) :
  book_ok b ->
  exists r b', cancel request b = Ret (r, b') /\ book_ok b' /\
    match r with
    | Some o =>
        ((o ∈ stops b /\ o_side o = o_side request) \/
         (o ∈ side_orders (o_side request) b /\ o_price o = o_price request)) /\
        o_sequence o = o_sequence request /\ all_orders b ≡ₚ o :: all_orders b'
    | None =>
        b' = b /\
        forall o, o_sequence o = o_sequence request ->
          ~ (o ∈ stops b /\ o_side o = o_side request) /\
          ~ (o ∈ side_orders (o_side request) b /\ o_price o = o_price request)
    end.
Proof.
  intros Hok. destruct (cancel_spec _ request b Hok) as (r & b' & E & Hr). exists r, b'.
  split; [done|]. unfold names in Hr. destruct r as [o|].
  - destruct Hr as [Hn [Hp Hi _ _ (Eq & _)]]. split; [unfold book_ok; rewrite Eq; by apply Hi|].
    naive_solver.
  - destruct Hr as [-> Hn]. split_and!; [done|done|]. intros o Ho. specialize (Hn o). naive_solver.
Qed.

(** C34: Amend never panics and either refuses, leaving every order as it was, or replaces the named
    resting order by one with the new price and size. The order keeps its queue position exactly
    when its price is unchanged and its size does not grow; otherwise it gets the fresh sequence
    number and so goes to the back of its level. The book stays sound and uncrossed. *)
Theorem amend_keeps_or_requeues (request : Order) (price volume : option Fixed) (b : OrderBook) :
  book_ok b -> book_sequence b < U64_MAX ->
  (forall p, price = Some p -> in_i128 p) -> (forall v, volume = Some v -> in_i128 v) ->
  exists r b', amend request price volume b = Ret (r, b') /\ book_ok b' /\
    match r with
    | Err _ => b' = set_book_sequence (book_sequence b + 1) b
    | Ok am =>
        exists stored others,
          stored ∈ side_orders (o_side request) b /\
          o_price stored = o_price request /\ o_sequence stored = o_sequence request /\
          all_orders b ≡ₚ stored :: others /\ all_orders b' ≡ₚ am_order am :: others /\
          o_price (am_order am) = default (o_price stored) price /\
          o_volume (am_order am) = default (o_volume stored) volume /\
          o_sequence (am_order am) =
            (if (o_price (am_order am) =? o_price stored)
                && (o_volume (am_order am) <=? o_volume stored)
             then o_sequence stored else book_sequence b)
    end.
Proof.
  intros Hok Hseq Hp Hv. pose proof (after_number_inv _ _ Hok) as Hinv.
  destruct (amend_with_sequence_spec _ request price volume _ Hinv Hp Hv) as (r & b' & E & Hr).
  assert (Hnum : wrap_u64 (book_sequence b + 1) = book_sequence b + 1).
  { apply wrap_u64_id. pose proof (bk_nonneg _ _ Hok). unfold in_u64. lia. }
  exists r, b'. split; [exact E|]. destruct r as [am|e].
  - destruct Hr as [(stored & others & Hst & Ep & Es & Hb & Hb' & Eam) Hi _ (_ & Eq & _)].
    split; [unfold book_ok; rewrite Eq; simpl; by rewrite Hnum|].
    exists stored, others. split_and!; try done; by rewrite Eam.
  - subst b'. split; [|unfold after_number; by rewrite Hnum].
    unfold book_ok. simpl. rewrite Hnum. eapply book_inv_mono; [|done]. lia.
Qed.

(** ** Witnesses *)

Lemma demo_ok : book_ok Demo.book.
Proof. exact (proj1 Demo.book_is_ok). Qed.

(** Hypotheses of the theorems at the concrete book. *)
Ltac demo :=
  lazymatch goal with
  | |- book_ok _ => exact demo_ok
  | |- quiescent _ => exact (proj2 Demo.book_is_ok)
  | |- _ = _ => vm_compute; reflexivity
  | |- in_i128 _ => vm_compute; split; discriminate
  | |- _ < _ => vm_compute; reflexivity
  | |- _ <= _ => vm_compute; discriminate
  end.

Definition demo_taker : Order := Order_new Buy 10100 700 0.
Definition demo_fok : Order :=
  mkOrder Limit Buy 0 10100 700 UnitBase 0 UnitBase 0 0 7 0 Fok false 0 0 0 0.
Definition demo_ioc : Order :=
  mkOrder Limit Buy 0 10000 700 UnitBase 0 UnitBase 0 0 7 0 Ioc false 0 0 0 0.
Definition demo_post_only : Order :=
  mkOrder Limit Buy 0 9000 700 UnitBase 0 UnitBase 0 0 7 0 Gtc true 0 0 0 0.
Definition demo_crossing_post_only : Order :=
  mkOrder Limit Buy 0 10000 700 UnitBase 0 UnitBase 0 0 7 0 Gtc true 0 0 0 0.

(** The order, the outcome and the book of a demo execution. *)
Definition demo_run (o : Order) : Outcome * Order * OrderBook :=
  match execute_order_inner o SymbolConfig_default Demo.book with
  | Ret r => r
  | _ => (Outcome_new 0, o, Demo.book)
  end.

Lemma demo_typed o : o ∈ [demo_taker; demo_fok; demo_ioc; demo_post_only; demo_crossing_post_only] ->
  order_typed o.
Proof.
  intros Ho. repeat (apply elem_of_cons in Ho as [->|Ho]; [by split; vm_compute; split|]).
  by apply not_elem_of_nil in Ho.
Qed.

Lemma reachable_book_sound_witness :
  StronglySorted (priority_lt Sell) (side_orders Sell Demo.book) /\
  NoDup (o_sequence <$> all_orders Demo.book).
Proof.
  destruct (reachable_book_sound Demo.book Demo.book_reachable) as (Hs & _ & _ & Hn & _).
  split; [exact (Hs Sell)|exact Hn].
Defined.

Lemma execute_preserves_book_witness :
  match execute_order_inner demo_taker SymbolConfig_default Demo.book with
  | Ret (_, _, b') => book_ok b' /\ quiescent b' /\ book_sequence b' = book_sequence Demo.book + 1
  | Panic => o_volume_unit demo_taker = UnitQuote \/
             Exists (fun s => o_volume_unit s = UnitQuote) (stops Demo.book)
  | Diverged => False
  end.
Proof. apply (execute_preserves_book demo_taker SymbolConfig_default Demo.book); [demo|demo|apply demo_typed; left|demo]. Defined.

Lemma execution_conserves_volume_witness :
  side_open Sell Demo.book + 0 = side_open Sell (demo_run demo_taker).2 + 700 + 0.
Proof.
  destruct (execution_conserves_volume demo_taker SymbolConfig_default Demo.book
              (demo_run demo_taker).1.1 (demo_run demo_taker).1.2 (demo_run demo_taker).2)
    as [Hc _]; [demo|apply demo_typed; left|demo|demo|demo|]. exact (Hc Sell).
Defined.

Lemma sweep_price_time_priority_witness :
  exists fills rem b',
    sweep demo_taker (Some 10100) SymbolConfig_default Demo.book = Ret (fills, rem, b') /\
    StronglySorted (fun f g => ~ priority_lt Sell (m_maker g) (m_maker f)) fills.
Proof.
  eexists _, _, _. split; [vm_compute; reflexivity|].
  destruct (sweep_price_time_priority demo_taker (Some 10100) SymbolConfig_default Demo.book _ _ _
              demo_ok ltac:(demo) ltac:(demo) ltac:(vm_compute; reflexivity)) as [Hs _]. exact Hs.
Defined.


Lemma fok_all_or_nothing_witness : fills_volume (out_fills (demo_run demo_fok).1.1) = 700.
Proof.
  destruct (fok_all_or_nothing demo_fok SymbolConfig_default Demo.book
              (demo_run demo_fok).1.1 (demo_run demo_fok).1.2 (demo_run demo_fok).2) as [Hf _];
    [demo|apply demo_typed; right; left|demo|demo|demo|demo|demo|].
  destruct Hf as (_ & Hf & _); [demo|demo|]. exact Hf.
Defined.

Lemma post_only_never_takes_witness : out_fills (demo_run demo_post_only).1.1 = [].
Proof.
  destruct (post_only_never_takes demo_post_only SymbolConfig_default Demo.book
              (demo_run demo_post_only).1.1 (demo_run demo_post_only).1.2 (demo_run demo_post_only).2)
    as [Hf _]; [demo|apply demo_typed; do 3 right; left|demo|demo|demo|exact Hf].
Defined.

Lemma immediate_never_rests_witness : out_resting (demo_run demo_ioc).1.1 = None.
Proof.
  destruct (immediate_never_rests demo_ioc SymbolConfig_default Demo.book
              (demo_run demo_ioc).1.1 (demo_run demo_ioc).1.2 (demo_run demo_ioc).2)
    as [Hr _]; [demo|apply demo_typed; do 2 right; left|demo|demo|demo|do 2 right; demo|exact Hr].
Defined.

Lemma rejection_leaves_book_witness :
  out_rejected (demo_run demo_crossing_post_only).1.1 = Some PostOnlyWouldCross /\
  out_fills (demo_run demo_crossing_post_only).1.1 = [].
Proof.
  split; [demo|].
  destruct (rejection_leaves_book demo_crossing_post_only SymbolConfig_default Demo.book
              (demo_run demo_crossing_post_only).1.1 (demo_run demo_crossing_post_only).1.2
              (demo_run demo_crossing_post_only).2)
    as [Hf _]; [demo|apply demo_typed; do 4 right; left|demo|demo| |exact Hf].
  exists PostOnlyWouldCross. demo.
Defined.

(** A parked stop, and the book once a trade has elected it. *)
Definition demo_stop : Order :=
  mkOrder Limit Buy 0 10100 700 UnitBase 0 UnitBase 0 0 7 0 Gtc false 10000 0 0 0.
Definition demo_elected : OrderBook :=
  set_last_trade_price (Some 10000) (Demo.place demo_stop Demo.book).

Lemma demo_elected_ok : book_ok demo_elected.
Proof.
  assert (Hr : reachable (Demo.place demo_stop Demo.book)).
  { apply Demo.place_step; [by split; vm_compute; split|by vm_compute|by vm_compute|apply Demo.book_reachable]. }
  destruct (proj1 (reachable_ok _ Hr)). by split.
Qed.

(** The stop fires against both asks: what they lose, 700, is its volume. *)
Lemma stop_cascade_complete_witness :
  exists fired, (o_volume ∘ se_stop) <$> fired = [700] /\ triggers_volume Sell fired = 700.
Proof.
  pose proof (stop_cascade_complete (Outcome_new 0) SymbolConfig_default demo_elected demo_elected_ok) as Hc.
  destruct (run_stops _ _ _) as [[out' b']| |] eqn:E; [|vm_compute in E; discriminate..].
  destruct Hc as (_ & _ & fired & Ht & _). exists fired.
  vm_compute in E. injection E as <- <-. vm_compute in Ht. subst fired.
  split; vm_compute; reflexivity.
Defined.

Lemma sweep_side_terminates_witness :
  exists r, sweep_side (mkSweepEnv demo_taker (Some 10100) SymbolConfig_default true false)
              (asks Demo.book) [] false = r /\ r <> Diverged.
Proof.
  destruct (sweep_side_terminates (mkSweepEnv demo_taker (Some 10100) SymbolConfig_default true false)
              (asks Demo.book) [] false) as (r & _ & Hr & E).
  exists r. split; [exact E|exact Hr].
Defined.

Lemma depth_journal_faithful_witness :
  exists j, depth_journal (demo_run demo_taker).2 = depth_journal Demo.book ++ j /\
    (book_level Sell 10000 (demo_run demo_taker).2).1 = 500 + journal_volume Sell 10000 j.
Proof.
  destruct (depth_journal_faithful Demo.book (demo_run demo_taker).2) as (j & _ & Hj & Hl);
    [demo|eapply (req_execute demo_taker SymbolConfig_default); [apply demo_typed; left|demo|demo]|].
  exists j. split; [exact Hj|exact (proj1 (Hl Sell 10000))].
Defined.

Lemma depth_is_reference_witness :
  depth Sell 1 Demo.book = [mkDepthLevel 10000 500 1].
Proof. rewrite (depth_is_reference Sell 1 Demo.book); [reflexivity|demo|demo]. Defined.

Lemma gtd_fast_path_complete_witness :
  exists removed fast slow, purge_due_gtd 5 Demo.book = Ret (removed, fast) /\
    purge_expired 5 None Demo.book = Ret (removed, slow).
Proof.
  destruct (gtd_fast_path_complete 5 Demo.book) as (r & f & s & E1 & E2 & _); [demo|].
  exists r, f, s. split; [exact E1|exact E2].
Defined.

Lemma cancel_removes_named_witness :
  exists r b', cancel (Order_new Sell 10000 1 0) Demo.book = Ret (r, b') /\ book_ok b'.
Proof.
  destruct (cancel_removes_named (Order_new Sell 10000 1 0) Demo.book) as (r & b' & E & Hok & _); [demo|].
  exists r, b'. split; [exact E|exact Hok].
Defined.

Lemma amend_keeps_or_requeues_witness :
  exists r b', amend (Order_new Sell 10000 1 0) None (Some 300) Demo.book = Ret (r, b') /\ book_ok b'.
Proof.
  destruct (amend_keeps_or_requeues (Order_new Sell 10000 1 0) None (Some 300) Demo.book)
    as (r & b' & E & Hok & _); [demo|demo|done|intros v [= <-]; demo|].
  exists r, b'. split; [exact E|exact Hok].
Defined.

(** ** Where execution panics *)

Definition dust_ask : Order := Order_new Sell 1 1000000000000000000 0.
Definition dust_book : OrderBook := Demo.place dust_ask (enable_depth_journal OrderBook_new).
Definition quote_buy : Order :=
  mkOrder Market Buy 0 0 200000000000000000000 UnitQuote 0 UnitBase 0 0 7 0 Gtc false 0 0 0 0.

(** C40: The quote division is reachable and can panic. Under the default configuration one ask for
    one unit at the smallest price, 1e-18, is enough: a quote-sized market order of 200 passes every
    admission check, and sweeping that ask divides 200 by 1e-18, which leaves the 128-bit range. *)
Theorem quote_market_order_panics :
  reachable dust_book /\ order_typed quote_buy /\
  validate_order quote_buy = None /\ validate_order_for_symbol quote_buy SymbolConfig_default = None /\
  checked_div (o_volume quote_buy) (o_price dust_ask) = None /\
  execute_order quote_buy dust_book = Panic.
Proof.
  split; [|split; [by split; vm_compute; split|by vm_compute]].
  apply Demo.place_step; [Demo.typed_order|by vm_compute|by vm_compute|apply Demo.start_reachable].
Qed.

(** ** Where comments and code part *)

Definition post_only_ioc : Order :=
  mkOrder Limit Buy 0 9000 700 UnitBase 0 UnitBase 0 0 7 0 Ioc true 0 0 0 0.

(** An order that is post-only and immediate is admitted and rests whole. *)
Lemma post_only_immediate_rests :
  match execute_order post_only_ioc OrderBook_new with
  | Ret (out, _, b) => out_rejected out = None /\ out_resting out = Some 700 /\
                       length (side_orders Buy b) = 1%nat
  | _ => False
  end.
Proof. by vm_compute. Qed.

Definition gtd_bid (price : Fixed) : Order :=
  mkOrder Limit Buy 0 price 700 UnitBase 0 UnitBase 0 0 7 0 (Gtd 5) false 0 0 0 0.

(** The purge returns the bids best price first, not by sequence. *)
Lemma purge_returns_by_priority :
  match purge_expired 5 None (Demo.place (gtd_bid 9100) (Demo.place (gtd_bid 9000) OrderBook_new)) with
  | Ret (removed, _) => o_sequence <$> removed = [1; 0]
  | _ => False
  end.
Proof. by vm_compute. Qed.
