(* ===== verification/MatchEvent.v ===== *)
(** * Match events and requests ([src/src/match_result/mod.rs], [src/src/store/types.rs])

    The events an applied entry produces, one constructor function per lifecycle step, and the
    requests and responses of the replicated state machine. *)

From stdpp Require Import strings.
From S2P Require Import Prelude Fixed Order OrderBook.

Record EventId : Type := mkEventId { ev_log_index : Z; ev_ordinal : Z }.

#[global] Instance EventId_eq_dec : EqDecision EventId.
Proof. solve_decision. Defined.

(** The derived lexicographic order of [EventId]. *)
Definition event_id_ltb (a b : EventId) : bool :=
  (ev_log_index a <? ev_log_index b)
  || ((ev_log_index a =? ev_log_index b) && (ev_ordinal a <? ev_ordinal b)).
Definition event_id_leb (a b : EventId) : bool := negb (event_id_ltb b a).

Inductive MatchEventKind : Type :=
| Rested | Fill | Cancelled | Triggered | Expired | Rejected | Amended.

#[global] Instance MatchEventKind_eq_dec : EqDecision MatchEventKind.
Proof. solve_decision. Defined.

Record MatchEvent : Type := mkMatchEvent {
  e_event_id : EventId;
  e_kind : MatchEventKind;
  e_order_sequence : Z;
  e_side : OrderSide;
  e_counterparty_sequence : option Z;
  e_previous_sequence : option Z;
  e_price : Fixed;
  e_volume : Fixed;
  e_quote_volume : Fixed;
  e_volume_unit : VolumeUnit;
  e_taker_fee_asset : option FeeAsset;
  e_maker_fee_asset : option FeeAsset;
  e_taker_fee : Fixed;
  e_maker_fee : Fixed;
  e_error : MatchErrors;
  e_reason : option RejectReason;
}.

#[global] Instance MatchEvent_eq_dec : EqDecision MatchEvent.
Proof. solve_decision. Defined.

(** [x as u32] and the addition [first_ordinal + offset as u32] of a release build. *)
Definition as_u32 (n : nat) : Z := wrap_u32 (Z.of_nat n).
Definition ordinal_add (first : Z) (n : nat) : Z := wrap_u32 (first + as_u32 n).

(** An event that is not a fill: no counterparty and no amounts but price and volume. *)
Definition plain_event (log_index ordinal : Z) (kind : MatchEventKind) (order_sequence : Z)
    (side : OrderSide) (previous : option Z) (price volume : Fixed) (unit : VolumeUnit)
    (reason : option RejectReason) : MatchEvent :=
  mkMatchEvent (mkEventId log_index ordinal) kind order_sequence side None previous price volume
    FIXED_ZERO unit None None FIXED_ZERO FIXED_ZERO ERRORS_NONE reason.

Definition fill_event (log_index ordinal : Z) (taker_side : OrderSide) (taker_sequence : Z)
    (m : MatchResult) : MatchEvent :=
  mkMatchEvent (mkEventId log_index ordinal) Fill taker_sequence taker_side
    (Some (o_sequence (m_maker m))) None (o_price (m_maker m)) (m_matches m) (m_notional m) UnitBase
    (Some (m_taker_fee_asset m)) (Some (m_maker_fee_asset m)) (m_taker_fee m) (m_maker_fee m)
    (m_error m) None.

Definition for_fills_into (log_index first_ordinal : Z) (taker_side : OrderSide)
    (taker_sequence : Z) (matches : list MatchResult) (events : list MatchEvent)
    : list MatchEvent :=
  events ++
  imap (fun offset m => fill_event log_index (ordinal_add first_ordinal offset) taker_side
                          taker_sequence m) matches.

Definition for_fills (log_index first_ordinal : Z) (taker_side : OrderSide) (taker_sequence : Z)
    (matches : list MatchResult) : list MatchEvent :=
  for_fills_into log_index first_ordinal taker_side taker_sequence matches [].

Definition for_place_at_into (log_index first_ordinal : Z) (taker : Order)
    (matches : list MatchResult) (resting_volume : option Fixed) (events : list MatchEvent)
    : list MatchEvent :=
  let events :=
    for_fills_into log_index first_ordinal (o_side taker) (o_sequence taker) matches events in
  match resting_volume with
  | Some volume =>
      events ++ [plain_event log_index (ordinal_add first_ordinal (length matches)) Rested
                   (o_sequence taker) (o_side taker) None (o_price taker) volume
                   (o_volume_unit taker) None]
  | None => events
  end.

Definition for_place_at (log_index first_ordinal : Z) (taker : Order) (matches : list MatchResult)
    (resting_volume : option Fixed) : list MatchEvent :=
  for_place_at_into log_index first_ordinal taker matches resting_volume [].

Definition for_place (log_index : Z) (taker : Order) (matches : list MatchResult)
    (resting_volume : option Fixed) : list MatchEvent :=
  for_place_at log_index 0 taker matches resting_volume.

Definition for_cancelled_volume (log_index ordinal : Z) (order : Order) (volume : Fixed)
    : MatchEvent :=
  plain_event log_index ordinal Cancelled (o_sequence order) (o_side order) None (o_price order)
    volume (o_volume_unit order) None.

Definition for_cancel_at (log_index ordinal : Z) (cancelled : Order) : MatchEvent :=
  for_cancelled_volume log_index ordinal cancelled (open_volume cancelled).

Definition for_cancel (log_index : Z) (cancelled : Order) : MatchEvent :=
  for_cancel_at log_index 0 cancelled.

Definition for_triggered (log_index ordinal : Z) (stop : Order) (trigger_price : Fixed)
    : MatchEvent :=
  plain_event log_index ordinal Triggered (o_sequence stop) (o_side stop) None trigger_price
    (open_volume stop) (o_volume_unit stop) None.

Definition for_expired (log_index ordinal : Z) (expired : Order) : MatchEvent :=
  plain_event log_index ordinal Expired (o_sequence expired) (o_side expired) None
    (o_price expired) (open_volume expired) (o_volume_unit expired) None.

Definition for_rejected (log_index ordinal : Z) (order : Order) (reason : RejectReason)
    : MatchEvent :=
  plain_event log_index ordinal Rejected (o_sequence order) (o_side order) None (o_price order)
    (o_volume order) (o_volume_unit order) (Some reason).

Definition for_amended (log_index ordinal : Z) (amendment : Amendment) : MatchEvent :=
  plain_event log_index ordinal Amended (o_sequence (am_order amendment))
    (o_side (am_order amendment)) (Some (am_previous_sequence amendment))
    (o_price (am_order amendment)) (o_volume (am_order amendment))
    (o_volume_unit (am_order amendment)) None.

(** ** Requests and responses *)

Inductive MatchEngineRequest : Type :=
| Place (order : Order) (client_order_id : option string)
| Cancel (order : Order)
| Amend (order : Order) (price volume : option Fixed)
| PurgeExpired (now_ms : Z) (day_close_ms : option Z)
| ConfigureSymbol (config : SymbolConfig)
| Batch (requests : list MatchEngineRequest).

Inductive MatchEngineResponse : Type := mkResponse {
  rs_value : option str;
  rs_sequence : option Z;
  rs_events : list MatchEvent;
  rs_events_truncated : bool;
  rs_error : option str;
  rs_batch : list MatchEngineResponse;
}.

Definition MAX_EVENTS : nat := Z.to_nat 512.

(** A string literal as code points. *)
Definition lit (s : string) : str :=
  (fun a => Z.of_nat (Ascii.nat_of_ascii a)) <$> String.list_ascii_of_string s.

Definition response_none : MatchEngineResponse := mkResponse None None [] false None [].

Definition response_new (value : str) : MatchEngineResponse :=
  mkResponse (Some value) None [] false None [].

Definition response_applied (sequence : Z) (events : list MatchEvent) : MatchEngineResponse :=
  mkResponse (Some (show_u128 sequence)) (Some sequence) (take MAX_EVENTS events)
    (bool_decide (MAX_EVENTS < length events)%nat) None [].

Definition response_duplicate (sequence : Z) (events : list MatchEvent) (truncated : bool)
    : MatchEngineResponse :=
  mkResponse (Some (show_u128 sequence)) (Some sequence) events truncated None [].

Definition response_batch (responses : list MatchEngineResponse) : MatchEngineResponse :=
  mkResponse None None [] false None responses.

Definition response_error (message : str) : MatchEngineResponse :=
  mkResponse None None [] false (Some message) [].

(** ** Event numbering *)

(** [events] carry the ordinals [first], [first + 1], ... of the entry [log_index]. *)
Definition numbered_from (log_index first : Z) (events : list MatchEvent) : Prop :=
  e_event_id <$> events =
  (fun i => mkEventId log_index (first + Z.of_nat i)) <$> seq 0 (length events).

Lemma numbered_nil log_index first : numbered_from log_index first [].
Proof. done. Qed.

Lemma numbered_app log_index first l1 l2 :
  numbered_from log_index first l1 ->
  numbered_from log_index (first + Z.of_nat (length l1)) l2 ->
  numbered_from log_index first (l1 ++ l2).
Proof.
  unfold numbered_from. intros H1 H2. rewrite fmap_app, H1, H2, length_app, seq_app, fmap_app.
  f_equal. rewrite Nat.add_0_l, <- (Nat.add_0_r (length l1)) at 1.
  rewrite <- fmap_add_seq, <- list_fmap_compose. apply list_fmap_ext.
  intros i x _. simpl. f_equal. lia.
Qed.

Lemma numbered_single log_index first e :
  e_event_id e = mkEventId log_index first -> numbered_from log_index first [e].
Proof. intros E. unfold numbered_from. simpl. by rewrite E, Z.add_0_r. Qed.

(** Without overflow an ordinal is its plain sum. *)
Lemma ordinal_add_exact first n :
  0 <= first -> first + Z.of_nat n <= U32_MAX -> ordinal_add first n = first + Z.of_nat n.
Proof.
  intros Hf Hn. unfold ordinal_add, as_u32, wrap_u32, U32_MAX in *.
  rewrite (Z.mod_small (Z.of_nat n)) by lia. apply Z.mod_small. lia.
Qed.

Lemma numbered_fills log_index first side s matches :
  0 <= first -> first + Z.of_nat (length matches) <= U32_MAX ->
  numbered_from log_index first (for_fills log_index first side s matches).
Proof.
  intros Hf Hn. unfold for_fills, for_fills_into, numbered_from. simpl.
  rewrite length_imap. apply list_eq. intros i. rewrite !list_lookup_fmap, list_lookup_imap.
  destruct (matches !! i) as [m|] eqn:E; simpl.
  - apply lookup_lt_Some in E as Hi. rewrite lookup_seq_lt by lia. simpl. f_equal. f_equal.
    apply ordinal_add_exact; lia.
  - rewrite lookup_seq_ge by (by apply lookup_ge_None). done.
Qed.
