(* ===== verification/StateMachine.v ===== *)
(** * The replicated state machine ([src/src/store/state_machine.rs])

    [StateMachineStoreInner] and every operation on it: applying one request and a whole entry,
    the retained event window, the client-order-id dedupe map, the symbol configuration, and the
    conversion to and from snapshot content. The types openraft supplies are the class
    [RaftTypes]; the market-data tap is its presence and gate, with the frames it would be handed
    returned as effects. *)

From stdpp Require Import strings gmap.
From S2P Require Import Prelude BTree Fixed Order OrderBook MatchEvent.

(** What the state machine uses of openraft's types. *)
Class RaftTypes : Type := {
  LogId : Type;
  Membership : Type;
  StoredMembership : Type;
  log_id_index : LogId -> Z;
  stored_membership_new : option LogId -> Membership -> StoredMembership;
  stored_membership_default : StoredMembership;
}.

Definition DEFAULT_MAX_EVENTS : nat := Z.to_nat 262144.
Definition MAX_SUBMISSIONS : nat := Z.to_nat 262144.
#[global] Opaque DEFAULT_MAX_EVENTS MAX_SUBMISSIONS.

Record SubmissionRecord : Type := mkSubmission {
  sub_client_order_id : string;
  sub_order_sequence : Z;
  sub_log_index : Z;
  sub_event_count : Z;
  sub_first_ordinal : option Z;
}.

(** Snapshot content. [StoredMatchEvent] mirrors [MatchEvent] field by field; it only differs in
    how serde writes absent options, so content keeps [MatchEvent]s. *)
Record StateMachineData : Type := mkData {
  sd_orders : list Order;
  sd_sequence : Z;
  sd_stops : list Order;
  sd_last_trade_price : option Fixed;
  sd_symbol_config : SymbolConfig;
  sd_symbol_locked : bool;
  sd_events : list MatchEvent;
  sd_events_evicted : Z;
  sd_submissions : list SubmissionRecord;
  sd_submissions_evicted : Z;
}.

#[global] Instance SymbolConfig_eq_dec : EqDecision SymbolConfig.
Proof. assert (EqDecision AssetId) by solve_decision. solve_decision. Defined.
#[global] Instance SubmissionRecord_eq_dec : EqDecision SubmissionRecord.
Proof. solve_decision. Defined.
#[global] Instance StateMachineData_eq_dec : EqDecision StateMachineData.
Proof. solve_decision. Defined.

Record TapFrame : Type := mkTapFrame {
  tf_log_index : Z;
  tf_market_seq : Z;
  tf_ts_ms : Z;
  tf_symbol_id : Z;
  tf_events : list MatchEvent;
  tf_depth : list DepthChange;
}.

Record SnapshotFrame : Type := mkSnapshotFrame {
  sf_log_index : Z;
  sf_market_seq : Z;
  sf_ts_ms : Z;
  sf_symbol_id : Z;
  sf_bids : list DepthLevel;
  sf_asks : list DepthLevel;
  sf_last_trade : option Fixed;
  sf_book_sequence : Z;
  sf_pending_stops : Z;
}.

Record PendingPublish : Type := mkPublish {
  pp_events : list MatchEvent;
  pp_market : option TapFrame;
}.

(** What applying hands to the rest of the node: publications for after the lock is released and
    feed resets pushed while it is held. *)
Record Effects : Type := mkEffects {
  fx_publishes : list PendingPublish;
  fx_resets : list SnapshotFrame;
}.

(** Node-local inputs of [apply]: the market-data control handle (whether it is publishing, and
    the snapshot depth) and the wall clock a feed reset is stamped with. *)
Record NodeLocal : Type := mkNodeLocal {
  nl_control : option (bool * Z);
  nl_now_ms : Z;
}.

Section StateMachine.
Context `{RaftTypes}.

(** Snapshot metadata: the log id and membership the content corresponds to. *)
Record SnapshotMeta : Type := mkMeta {
  meta_last_log_id : option LogId;
  meta_last_membership : StoredMembership;
}.

Record StateMachineStoreInner : Type := mkInner {
  last_applied_log : option LogId;
  last_membership : StoredMembership;
  orderbook : OrderBook;
  symbol_config : SymbolConfig;
  symbol_locked : bool;
  current_snapshot : option (SnapshotMeta * list Z);
  market_data : option bool;
  events : list MatchEvent;
  events_evicted : Z;
  submissions : gmap string SubmissionRecord;
  submission_order : list SubmissionRecord;
  submissions_evicted : Z;
  max_events : nat;
  max_submissions : nat;
}.

Definition Inner_default : StateMachineStoreInner :=
  mkInner None stored_membership_default OrderBook_new SymbolConfig_default false None None
    [] 0 ∅ [] 0 DEFAULT_MAX_EVENTS MAX_SUBMISSIONS.

(** Field updates. *)
Definition set_orderbook (b : OrderBook) (s : StateMachineStoreInner) : StateMachineStoreInner :=
  mkInner (last_applied_log s) (last_membership s) b (symbol_config s) (symbol_locked s)
    (current_snapshot s) (market_data s) (events s) (events_evicted s) (submissions s)
    (submission_order s) (submissions_evicted s) (max_events s) (max_submissions s).
Definition set_symbol (c : SymbolConfig) (l : bool) (s : StateMachineStoreInner)
    : StateMachineStoreInner :=
  mkInner (last_applied_log s) (last_membership s) (orderbook s) c l
    (current_snapshot s) (market_data s) (events s) (events_evicted s) (submissions s)
    (submission_order s) (submissions_evicted s) (max_events s) (max_submissions s).
Definition set_events (e : list MatchEvent) (n : Z) (s : StateMachineStoreInner)
    : StateMachineStoreInner :=
  mkInner (last_applied_log s) (last_membership s) (orderbook s) (symbol_config s)
    (symbol_locked s) (current_snapshot s) (market_data s) e n (submissions s)
    (submission_order s) (submissions_evicted s) (max_events s) (max_submissions s).
Definition set_submissions (m : gmap string SubmissionRecord) (o : list SubmissionRecord) (n : Z)
    (s : StateMachineStoreInner) : StateMachineStoreInner :=
  mkInner (last_applied_log s) (last_membership s) (orderbook s) (symbol_config s)
    (symbol_locked s) (current_snapshot s) (market_data s) (events s) (events_evicted s) m o n
    (max_events s) (max_submissions s).
Definition set_applied (l : option LogId) (m : StoredMembership) (s : StateMachineStoreInner)
    : StateMachineStoreInner :=
  mkInner l m (orderbook s) (symbol_config s) (symbol_locked s) (current_snapshot s)
    (market_data s) (events s) (events_evicted s) (submissions s) (submission_order s)
    (submissions_evicted s) (max_events s) (max_submissions s).
Definition set_current_snapshot (p : option (SnapshotMeta * list Z)) (s : StateMachineStoreInner)
    : StateMachineStoreInner :=
  mkInner (last_applied_log s) (last_membership s) (orderbook s) (symbol_config s)
    (symbol_locked s) p (market_data s) (events s) (events_evicted s) (submissions s)
    (submission_order s) (submissions_evicted s) (max_events s) (max_submissions s).
Definition set_market_data (t : option bool) (s : StateMachineStoreInner)
    : StateMachineStoreInner :=
  mkInner (last_applied_log s) (last_membership s) (orderbook s) (symbol_config s)
    (symbol_locked s) (current_snapshot s) t (events s) (events_evicted s) (submissions s)
    (submission_order s) (submissions_evicted s) (max_events s) (max_submissions s).
Definition set_max_events (n : nat) (s : StateMachineStoreInner) : StateMachineStoreInner :=
  mkInner (last_applied_log s) (last_membership s) (orderbook s) (symbol_config s)
    (symbol_locked s) (current_snapshot s) (market_data s) (events s) (events_evicted s)
    (submissions s) (submission_order s) (submissions_evicted s) n (max_submissions s).

(** ** The event window *)

(** [while self.events.len() > self.max_events { pop_front; evicted += 1 }]. *)
Fixpoint trim_front {A} (max : nat) (l : list A) (evicted : Z) : list A * Z :=
  match l with
  | [] => ([], evicted)
  | _ :: l' =>
      if bool_decide (max < length l)%nat then trim_front max l' (wrap_u64 (evicted + 1))
      else (l, evicted)
  end.

Definition trim_events (s : StateMachineStoreInner) : StateMachineStoreInner :=
  let '(e, n) := trim_front (max_events s) (events s) (events_evicted s) in set_events e n s.

Definition record_events (new : list MatchEvent) (s : StateMachineStoreInner)
    : StateMachineStoreInner :=
  trim_events (set_events (events s ++ new) (events_evicted s) s).

Fixpoint events_since_loop (after : option EventId) (limit : nat) (l : list MatchEvent)
    (acc : list MatchEvent) : list MatchEvent * bool :=
  match l with
  | [] => (acc, false)
  | event :: l =>
      if match after with Some cursor => event_id_leb (e_event_id event) cursor | None => false end
      then events_since_loop after limit l acc
      else if bool_decide (length acc = limit) then (acc, true)
      else events_since_loop after limit l (acc ++ [event])
  end.

Definition events_since (after : option EventId) (limit : nat) (s : StateMachineStoreInner)
    : list MatchEvent * option EventId * bool :=
  let '(evs, has_more) := events_since_loop after limit (events s) [] in
  let next_after := match last evs with Some event => Some (e_event_id event) | None => after end in
  (evs, next_after, has_more).

Definition oldest_event_id (s : StateMachineStoreInner) : option EventId :=
  e_event_id <$> head (events s).
Definition last_event_id (s : StateMachineStoreInner) : option EventId :=
  e_event_id <$> last (events s).

(** ** The dedupe map *)

Fixpoint trim_submissions_loop (max : nat) (order : list SubmissionRecord)
    (m : gmap string SubmissionRecord) (evicted : Z)
    : list SubmissionRecord * gmap string SubmissionRecord * Z :=
  match order with
  | [] => ([], m, evicted)
  | old :: order' =>
      if bool_decide (max < length order)%nat then
        let still_current :=
          match m !! sub_client_order_id old with
          | Some current => (sub_order_sequence current =? sub_order_sequence old)
                            && (sub_log_index current =? sub_log_index old)
          | None => false
          end in
        let m := if still_current then delete (sub_client_order_id old) m else m in
        trim_submissions_loop max order' m (wrap_u64 (evicted + 1))
      else (order, m, evicted)
  end.

Definition trim_submissions (s : StateMachineStoreInner) : StateMachineStoreInner :=
  let '(o, m, n) :=
    trim_submissions_loop (max_submissions s) (submission_order s) (submissions s)
      (submissions_evicted s) in
  set_submissions m o n s.

Definition record_submission (client_order_id : string) (order_sequence log_index : Z)
    (first_ordinal event_count : Z) (s : StateMachineStoreInner) : StateMachineStoreInner :=
  let record :=
    mkSubmission client_order_id order_sequence log_index event_count (Some first_ordinal) in
  trim_submissions
    (set_submissions (<[client_order_id := record]> (submissions s))
       (submission_order s ++ [record]) (submissions_evicted s) s).

Definition saturating_add_u32 (a b : Z) : Z := Z.min U32_MAX (a + b).

(** The loop over the window from the submission's first event. *)
Fixpoint submission_loop (record : SubmissionRecord) (last : Z) (l : list MatchEvent)
    (acc : list MatchEvent) (total : Z) : list MatchEvent * Z :=
  match l with
  | [] => (acc, total)
  | event :: l =>
      if negb (ev_log_index (e_event_id event) =? sub_log_index record) then (acc, total)
      else if bool_decide (is_Some (sub_first_ordinal record))
              && (last <=? ev_ordinal (e_event_id event)) then (acc, total)
      else
        submission_loop record last l
          (if bool_decide (length acc < MAX_EVENTS)%nat then acc ++ [event] else acc)
          (saturating_add_u32 total 1)
  end.

Definition submission_events (record : SubmissionRecord) (s : StateMachineStoreInner)
    : list MatchEvent * bool :=
  let first := default 0 (sub_first_ordinal record) in
  let start_id := mkEventId (sub_log_index record) first in
  (* [partition_point] on a window sorted by event id *)
  let start := length (take_while (fun event => event_id_ltb (e_event_id event) start_id) (events s)) in
  let last := saturating_add_u32 first (sub_event_count record) in
  let '(evs, total) := submission_loop record last (drop start (events s)) [] 0 in
  (evs, (Z.of_nat MAX_EVENTS <? total) || (total <? sub_event_count record)).

Definition duplicate_response (record : SubmissionRecord) (s : StateMachineStoreInner)
    : MatchEngineResponse :=
  let '(evs, truncated) := submission_events record s in
  response_duplicate (sub_order_sequence record) evs truncated.

(** ** The symbol *)

Definition configure_symbol (config : SymbolConfig) (s : StateMachineStoreInner)
    : Result unit str * StateMachineStoreInner :=
  match validate config with
  | Err _ => (Err (lit "invalid symbol precision, tick, lot or fee policy"), s)
  | Ok config =>
      if symbol_locked s
      then (Err (lit "symbol configuration is locked after trading starts"), s)
      else
        let has_open_orders :=
          negb (bool_decide (bids (orderbook s) = []))
          || negb (bool_decide (asks (orderbook s) = []))
          || negb (bool_decide (stops (orderbook s) = [])) in
        if has_open_orders
        then (Err (lit "cannot change the symbol configuration while orders are open"), s)
        else
          let s := set_symbol config (symbol_locked s) s in
          (Ok tt, set_orderbook (set_last_trade_price None (orderbook s)) s)
  end.

Definition configured_symbol_for (order : Order) (s : StateMachineStoreInner)
    : Result SymbolConfig RejectReason :=
  if negb (o_symbol_id order =? cfg_symbol_id (symbol_config s)) then Err UnsupportedOrder
  else Ok (symbol_config s).

Definition validate_amend_values (order : Order) (price volume : option Fixed)
    (s : StateMachineStoreInner) : Result SymbolConfig RejectReason :=
  match configured_symbol_for order s with
  | Err reason => Err reason
  | Ok config =>
      let price_ok :=
        match price with
        | None => true
        | Some value => has_at_most_decimals value (price_decimals config)
                        && is_multiple_of value (price_tick config)
        end in
      let volume_ok :=
        match volume with
        | None => true
        | Some value => has_at_most_decimals value (asset_decimals (base_asset config))
                        && is_multiple_of value (base_lot config)
        end in
      if price_ok && volume_ok then Ok config else Err InvalidOrder
  end.

(** ** Snapshot content *)

Definition orders (s : StateMachineStoreInner) : list Order :=
  bt_values (bids (orderbook s)) ++ bt_values (asks (orderbook s)).

Definition to_content (s : StateMachineStoreInner) : StateMachineData :=
  mkData (bt_values (bids (orderbook s)) ++ bt_values (asks (orderbook s)))
    (book_sequence (orderbook s)) (stops (orderbook s)) (last_trade_price (orderbook s))
    (symbol_config s) (symbol_locked s) (events s) (events_evicted s) (submission_order s)
    (submissions_evicted s).

Definition install_content (content : StateMachineData) (s : StateMachineStoreInner)
    : StateMachineStoreInner :=
  let b := set_stops [] (set_bids [] (set_asks [] (orderbook s))) in
  let b := set_last_trade_price (sd_last_trade_price content)
             (set_book_sequence (sd_sequence content) b) in
  let config := match validate (sd_symbol_config content) with
                | Ok config => config
                | Err _ => SymbolConfig_default
                end in
  let b := foldl (fun b order => insert_order order b) b (sd_orders content) in
  let b := set_stops (stops b ++ sd_stops content) b in
  let b := (take_depth_journal b).2 in
  let b := rebuild_derived_indexes b in
  let s := set_orderbook b (set_symbol config (sd_symbol_locked content) s) in
  let s := set_events (sd_events content) (sd_events_evicted content) s in
  let m := foldl (fun (m : gmap string SubmissionRecord) record =>
                    <[sub_client_order_id record := record]> m) ∅ (sd_submissions content) in
  let s := set_submissions m (sd_submissions content) (sd_submissions_evicted content) s in
  trim_submissions (trim_events s).

(** ** Building and installing snapshots

    The postcard encoding of the content is a parameter; whether the file reaches the disk is an
    input. *)

(** What serde leaves of a content: [SubmissionRecord::first_ordinal] is skipped. *)
Definition skip_first_ordinal (r : SubmissionRecord) : SubmissionRecord :=
  mkSubmission (sub_client_order_id r) (sub_order_sequence r) (sub_log_index r)
    (sub_event_count r) None.

Definition serialized (c : StateMachineData) : StateMachineData :=
  mkData (sd_orders c) (sd_sequence c) (sd_stops c) (sd_last_trade_price c) (sd_symbol_config c)
    (sd_symbol_locked c) (sd_events c) (sd_events_evicted c)
    (skip_first_ordinal <$> sd_submissions c) (sd_submissions_evicted c).

Section Snapshots.
Variable encode_content : StateMachineData -> option (list Z).
Variable decode_content : list Z -> option StateMachineData.

(** The image [build_snapshot] takes under the lock. *)
Definition capture_snapshot (s : StateMachineStoreInner) : SnapshotMeta * StateMachineData :=
  (mkMeta (last_applied_log s) (last_membership s), to_content s).

(** The rest of [build_snapshot]: encoding and writing happen outside the lock, so the store
    [s] that records the snapshot may have applied more entries since the capture. *)
Definition commit_snapshot (write_ok : bool) (captured : SnapshotMeta * StateMachineData)
    (s : StateMachineStoreInner) : option (SnapshotMeta * list Z) * StateMachineStoreInner :=
  match encode_content captured.2 with
  | None => (None, s)
  | Some data =>
      if negb write_ok then (None, s)
      else (Some (captured.1, data), set_current_snapshot (Some (captured.1, data)) s)
  end.

(** [build_snapshot] with nothing applied in between. *)
Definition build_snapshot (write_ok : bool) (s : StateMachineStoreInner)
    : option (SnapshotMeta * list Z) * StateMachineStoreInner :=
  commit_snapshot write_ok (capture_snapshot s) s.

Definition install_snapshot (write_ok : bool) (meta : SnapshotMeta) (data : list Z)
    (s : StateMachineStoreInner) : bool * StateMachineStoreInner :=
  match decode_content data with
  | None => (false, s)
  | Some content =>
      if negb write_ok then (false, s)
      else
        let s := set_applied (meta_last_log_id meta) (meta_last_membership meta) s in
        let s := install_content content s in
        (true, set_current_snapshot (Some (meta, data)) s)
  end.

(** [open_with_sinks_and_retention]: the state restored at start-up from the snapshot file's
    body, if there is one; [None] when the body does not decode. *)
Definition open_store (snapshot : option (SnapshotMeta * list Z)) (tap : option bool)
    (retention : nat) : option StateMachineStoreInner :=
  let inner := set_max_events retention Inner_default in
  let restored :=
    match snapshot with
    | None => Some inner
    | Some (meta, data) =>
        match decode_content data with
        | None => None
        | Some content =>
            let s := install_content content inner in
            let s := set_applied (meta_last_log_id meta) (meta_last_membership meta) s in
            Some (set_current_snapshot (Some (meta, data)) s)
        end
    end in
  match restored with
  | None => None
  | Some s =>
      let s := match tap with
               | Some _ => set_orderbook (enable_depth_journal (orderbook s)) s
               | None => s
               end in
      Some (set_market_data tap s)
  end.
End Snapshots.

(** ** The market-data tap *)

Definition take_market_frame (log_index market_seq ts_ms symbol_id : Z)
    (evs : list MatchEvent) (s : StateMachineStoreInner)
    : option TapFrame * StateMachineStoreInner :=
  match market_data s with
  | None => (None, s)
  | Some enabled =>
      let '(depth, b) := take_depth_journal (orderbook s) in
      let s := set_orderbook b s in
      if negb enabled then (None, s)
      else if bool_decide (evs = []) && bool_decide (length depth = 0%nat) then (None, s)
      else (Some (mkTapFrame log_index market_seq ts_ms symbol_id evs depth), s)
  end.

Definition snapshot_from_inner (now_ms depth_levels : Z) (s : StateMachineStoreInner)
    : SnapshotFrame :=
  mkSnapshotFrame
    (match last_applied_log s with Some log_id => log_id_index log_id | None => 0 end)
    (book_sequence (orderbook s)) now_ms (cfg_symbol_id (symbol_config s))
    (depth Buy depth_levels (orderbook s)) (depth Sell depth_levels (orderbook s))
    (last_trade_price (orderbook s)) (book_sequence (orderbook s))
    (wrap_u32 (Z.of_nat (length (stops (orderbook s))))).

Definition configure_symbol_locked (node : NodeLocal) (config : SymbolConfig)
    (s : StateMachineStoreInner) : Result unit str * list SnapshotFrame * StateMachineStoreInner :=
  let '(r, s) := configure_symbol config s in
  match r with
  | Err e => (Err e, [], s)
  | Ok _ =>
      let resets :=
        match nl_control node with
        | Some (is_publishing, depth_levels) =>
            if (is_publishing : bool) then [snapshot_from_inner (nl_now_ms node) depth_levels s] else []
        | None => []
        end in
      (Ok tt, resets, s)
  end.

(** ** Applying requests *)

(** [for x in xs { events.push(mk(first_ordinal + events.len() as u32, x)) }]. *)
Definition push_all {A} (first_ordinal : Z) (mk : Z -> A -> MatchEvent) (xs : list A)
    (evs : list MatchEvent) : list MatchEvent :=
  foldl (fun evs x => evs ++ [mk (ordinal_add first_ordinal (length evs)) x]) evs xs.

(** The events of an accepted [Place]. *)
Definition push_trigger (log_index first_ordinal : Z) (evs : list MatchEvent)
    (trigger : StopExecution) : list MatchEvent :=
  let stop := se_stop trigger in
  let evs := evs ++ [for_triggered log_index (ordinal_add first_ordinal (length evs)) stop
                       (se_trigger_price trigger)] in
  let evs := for_fills_into log_index (ordinal_add first_ordinal (length evs)) (o_side stop)
               (o_sequence stop) (se_fills trigger) evs in
  match se_cancelled trigger with
  | Some volume => evs ++ [for_cancelled_volume log_index (ordinal_add first_ordinal (length evs))
                             stop volume]
  | None => evs
  end.

Definition place_events (log_index first_ordinal : Z) (o : Order) (outcome : Outcome)
    : list MatchEvent :=
  match out_rejected outcome with
  | Some reason => [for_rejected log_index first_ordinal o reason]
  | None =>
      let evs := push_all first_ordinal (for_expired log_index) (out_expired outcome) [] in
      let evs := for_place_at_into log_index (ordinal_add first_ordinal (length evs)) o
                   (out_fills outcome) (out_resting outcome) evs in
      let evs :=
        match out_cancelled outcome with
        | Some volume =>
            evs ++ [for_cancelled_volume log_index (ordinal_add first_ordinal (length evs)) o volume]
        | None => evs
        end in
      foldl (push_trigger log_index first_ordinal) evs (out_triggers outcome)
  end.

(** The common tail of the mutating arms: record the events, take the frame, answer. *)
Definition finish (log_index market_seq ts_ms symbol_id : Z) (evs : list MatchEvent)
    (s : StateMachineStoreInner) (fx : Effects)
    : MatchEngineResponse * nat * StateMachineStoreInner * Effects :=
  let '(market, s) := take_market_frame log_index market_seq ts_ms symbol_id evs s in
  let fx := if negb (bool_decide (evs = [])) || bool_decide (market <> None)
            then mkEffects (fx_publishes fx ++ [mkPublish evs market]) (fx_resets fx) else fx in
  (response_applied market_seq evs, length evs, s, fx).

(** The automatic purge at the head of [Cancel] and [Amend]. *)
Definition auto_purge (now : Z) (b : OrderBook) : Comp (list Order * OrderBook) :=
  if has_gtd_deadlines b then purge_due_gtd now b else Ret ([], b).

Section Apply.
Context `{I256Ops}.

Definition apply_place (order : Order) (client_order_id : option string)
    (log_index first_ordinal : Z) (s : StateMachineStoreInner) (fx : Effects)
    : Comp (MatchEngineResponse * nat * StateMachineStoreInner * Effects) :=
  match (match client_order_id with Some id => submissions s !! id | None => None end) with
  | Some record => Ret (duplicate_response record s, 0%nat, s, fx)
  | None =>
      let* '(outcome, o, b) :=
        match configured_symbol_for order s with
        | Ok config => execute_order_with_symbol order config (orderbook s)
        | Err reason => Ret (reject_order order reason (orderbook s))
        end in
      let s := set_orderbook b s in
      let s := match out_rejected outcome with
               | None => set_symbol (symbol_config s) true s
               | Some _ => s
               end in
      let evs := place_events log_index first_ordinal o outcome in
      let s := record_events evs s in
      let s := match client_order_id with
               | Some id => record_submission id (o_sequence o) log_index first_ordinal
                              (as_u32 (length evs)) s
               | None => s
               end in
      let '(market, s) :=
        take_market_frame log_index (out_market_seq outcome) (o_timestamp o) (o_symbol_id o) evs s in
      let fx := if negb (bool_decide (evs = [])) || bool_decide (market <> None)
                then mkEffects (fx_publishes fx ++ [mkPublish evs market]) (fx_resets fx) else fx in
      Ret (response_applied (o_sequence o) evs, length evs, s, fx)
  end.

Definition apply_cancel (order : Order) (log_index first_ordinal : Z)
    (s : StateMachineStoreInner) (fx : Effects)
    : Comp (MatchEngineResponse * nat * StateMachineStoreInner * Effects) :=
  let '(market_seq, b) := next_market_sequence (orderbook s) in
  let* '(expired_orders, b) := auto_purge (o_timestamp order) b in
  let evs := push_all first_ordinal (for_expired log_index) expired_orders [] in
  let* '(evs, b) :=
    match configured_symbol_for order s with
    | Ok _ =>
        let* '(r, b) := cancel order b in
        Ret (match r with
             | Some cancelled =>
                 evs ++ [for_cancel_at log_index (ordinal_add first_ordinal (length evs)) cancelled]
             | None => evs
             end, b)
    | Err _ =>
        Ret (evs ++ [for_rejected log_index (ordinal_add first_ordinal (length evs)) order
                       UnsupportedOrder], b)
    end in
  Ret (finish log_index market_seq (o_timestamp order) (o_symbol_id order) evs
         (record_events evs (set_orderbook b s)) fx).

Definition apply_amend (order : Order) (price volume : option Fixed)
    (log_index first_ordinal : Z) (s : StateMachineStoreInner) (fx : Effects)
    : Comp (MatchEngineResponse * nat * StateMachineStoreInner * Effects) :=
  let '(market_seq, b) := next_market_sequence (orderbook s) in
  let* '(expired_orders, b) := auto_purge (o_timestamp order) b in
  let evs := push_all first_ordinal (for_expired log_index) expired_orders [] in
  let ordinal := ordinal_add first_ordinal (length evs) in
  let* '(evs, b) :=
    match validate_amend_values order price volume s with
    | Err reason => Ret (evs ++ [for_rejected log_index ordinal order reason], b)
    | Ok _ =>
        let* '(r, b) := amend_with_sequence order price volume market_seq b in
        Ret (evs ++ [match r with
                     | Ok amendment => for_amended log_index ordinal amendment
                     | Err err => for_rejected log_index ordinal order (amend_error_reason err)
                     end], b)
    end in
  Ret (finish log_index market_seq (o_timestamp order) (o_symbol_id order) evs
         (record_events evs (set_orderbook b s)) fx).

Definition apply_purge (now_ms : Z) (day_close_ms : option Z) (log_index first_ordinal : Z)
    (s : StateMachineStoreInner) (fx : Effects)
    : Comp (MatchEngineResponse * nat * StateMachineStoreInner * Effects) :=
  let '(market_seq, b) := next_market_sequence (orderbook s) in
  let* '(expired, b) := purge_expired now_ms day_close_ms b in
  let evs := imap (fun ordinal order =>
                     for_expired log_index (ordinal_add first_ordinal ordinal) order) expired in
  Ret (finish log_index market_seq now_ms (cfg_symbol_id (symbol_config s)) evs
         (record_events evs (set_orderbook b s)) fx).

Definition apply_one (node : NodeLocal) (request : MatchEngineRequest)
    (log_index first_ordinal : Z) (s : StateMachineStoreInner) (fx : Effects)
    : Comp (MatchEngineResponse * nat * StateMachineStoreInner * Effects) :=
  match request with
  | Place order client_order_id =>
      apply_place order client_order_id log_index first_ordinal s fx
  | Cancel order => apply_cancel order log_index first_ordinal s fx
  | Amend order price volume => apply_amend order price volume log_index first_ordinal s fx
  | PurgeExpired now_ms day_close_ms =>
      apply_purge now_ms day_close_ms log_index first_ordinal s fx
  | ConfigureSymbol config =>
      let '(r, resets, s) := configure_symbol_locked node config s in
      match r with
      | Ok _ =>
          Ret (response_new (lit "symbol " ++ show_u128 (cfg_symbol_id config) ++ lit " configured"),
               0%nat, s, mkEffects (fx_publishes fx) (fx_resets fx ++ resets))
      | Err error => Ret (response_error error, 0%nat, s, fx)
      end
  | Batch _ => Ret (response_error (lit "nested batches are not supported"), 0%nat, s, fx)
  end.

Inductive EntryPayload : Type :=
| Blank
| Normal (request : MatchEngineRequest)
| MembershipChange (mem : Membership).

Record Entry : Type := mkEntry { en_log_id : LogId; en_payload : EntryPayload }.

(** The sub-requests of a batch, with the running ordinal. *)
Fixpoint apply_batch (node : NodeLocal) (requests : list MatchEngineRequest) (log_index : Z)
    (ordinal : Z) (responses : list MatchEngineResponse) (s : StateMachineStoreInner)
    (fx : Effects) : Comp (list MatchEngineResponse * StateMachineStoreInner * Effects) :=
  match requests with
  | [] => Ret (responses, s, fx)
  | request :: requests =>
      let* '(response, event_count, s, fx) := apply_one node request log_index ordinal s fx in
      apply_batch node requests log_index (saturating_add_u32 ordinal (as_u32 event_count))
        (responses ++ [response]) s fx
  end.

(** One turn of [apply]: the entry under the state-machine lock. *)
Definition apply_entry (node : NodeLocal) (entry : Entry) (s : StateMachineStoreInner)
    : Comp (MatchEngineResponse * StateMachineStoreInner * Effects) :=
  let s := set_applied (Some (en_log_id entry)) (last_membership s) s in
  let fx := mkEffects [] [] in
  let log_index := log_id_index (en_log_id entry) in
  match en_payload entry with
  | Blank => Ret (response_none, s, fx)
  | Normal (Batch requests) =>
      let* '(responses, s, fx) := apply_batch node requests log_index 0 [] s fx in
      Ret (response_batch responses, s, fx)
  | Normal request =>
      let* '(response, _, s, fx) := apply_one node request log_index 0 s fx in
      Ret (response, s, fx)
  | MembershipChange mem =>
      Ret (response_none,
           set_applied (last_applied_log s) (stored_membership_new (Some (en_log_id entry)) mem) s,
           fx)
  end.

(** [apply]: the responses sent, in order. *)
Fixpoint apply (node : NodeLocal) (entries : list Entry) (s : StateMachineStoreInner)
    : Comp (list MatchEngineResponse * StateMachineStoreInner * list Effects) :=
  match entries with
  | [] => Ret ([], s, [])
  | entry :: entries =>
      let* '(response, s, fx) := apply_entry node entry s in
      let* '(responses, s, fxs) := apply node entries s in
      Ret (response :: responses, s, fx :: fxs)
  end.
End Apply.
End StateMachine.
