(* ===== verification/StateInv.v ===== *)
(** * The state machine invariant

    [sm_ok] is what every replica satisfies between entries: a sound book, an event window sorted
    by event id and within its limit, a dedupe map that mirrors its eviction queue and is within
    its limit. The file proves it is preserved by every request, that an entry's events carry
    contiguous ordinals, and how windows and queues grow. *)

From stdpp Require Import strings gmap.
From S2P Require Import Prelude BTree Fixed Order OrderBook Sweep BookInv BookOps Purge Change.
From S2P Require Import Execute Book MatchEvent StateMachine.

(** ** Bounded queues *)

Lemma trim_front_drop {A} max : forall (l : list A) ev,
  0 <= ev <= U64_MAX ->
  trim_front max l ev =
  (drop (length l - max) l, wrap_u64 (ev + Z.of_nat (length l - max))).
Proof.
  induction l as [|x l IH]; intros ev Hev; cbn [trim_front].
  - rewrite drop_nil, Z.add_0_r, wrap_u64_id; [done|]. unfold in_u64. lia.
  - case_bool_decide as Hlt.
    + assert (Hw : 0 <= wrap_u64 (ev + 1) <= U64_MAX).
      { unfold wrap_u64, U64_MAX. pose proof (Z.mod_pos_bound (ev + 1) (2 ^ 64)). lia. }
      rewrite IH by done. simpl length in *.
      replace (S (length l) - max)%nat with (S (length l - max)) by lia. simpl drop. f_equal.
      unfold wrap_u64. rewrite Zplus_mod_idemp_l. f_equal. lia.
    + replace (length (x :: l) - max)%nat with 0%nat by lia.
      rewrite drop_0, Z.add_0_r, wrap_u64_id; [done|]. unfold in_u64. lia.
Qed.

Lemma drop_bound {A} max (l : list A) : (length (drop (length l - max) l) <= max)%nat.
Proof. rewrite length_drop. lia. Qed.

(** ** The dedupe map *)

Notation records_map l := (list_to_map ((fun r => (sub_client_order_id r, r)) <$> l)
                             : gmap string SubmissionRecord).

Record subs_ok (order : list SubmissionRecord) (m : gmap string SubmissionRecord) : Prop := {
  so_unique : NoDup (sub_client_order_id <$> order);
  so_map : m = records_map order;
}.

Lemma records_fst (l : list SubmissionRecord) :
  ((fun r => (sub_client_order_id r, r)) <$> l).*1 = sub_client_order_id <$> l.
Proof. by rewrite <- list_fmap_compose. Qed.

Lemma records_lookup l r :
  NoDup (sub_client_order_id <$> l) -> r ∈ l ->
  (records_map l) !! sub_client_order_id r = Some r.
Proof.
  intros Hn Hr. apply elem_of_list_to_map_1; [by rewrite records_fst|].
  apply list_elem_of_fmap. by exists r.
Qed.

Lemma records_lookup_None l id :
  id ∉ (sub_client_order_id <$> l) -> (records_map l) !! id = None.
Proof. intros Hid. apply not_elem_of_list_to_map_1. by rewrite records_fst. Qed.

Lemma records_lookup_inv l id r :
  (records_map l) !! id = Some r -> r ∈ l /\ sub_client_order_id r = id.
Proof.
  intros Hr. apply elem_of_list_to_map_2 in Hr.
  by apply list_elem_of_fmap in Hr as (r' & [= -> ->] & ?).
Qed.

Lemma trim_submissions_loop_ok max : forall order m ev,
  subs_ok order m -> 0 <= ev <= U64_MAX ->
  exists m', trim_submissions_loop max order m ev =
    (drop (length order - max) order, m', wrap_u64 (ev + Z.of_nat (length order - max))) /\
    subs_ok (drop (length order - max) order) m'.
Proof.
  induction order as [|r order IH]; intros m ev Hok Hev; cbn [trim_submissions_loop].
  - exists m. rewrite drop_nil, Z.add_0_r, wrap_u64_id by (unfold in_u64; lia). done.
  - case_bool_decide as Hlt.
    + assert (Hw : 0 <= wrap_u64 (ev + 1) <= U64_MAX).
      { unfold wrap_u64, U64_MAX. pose proof (Z.mod_pos_bound (ev + 1) (2 ^ 64)). lia. }
      destruct Hok as [Hn ->]. rewrite fmap_cons in Hn. apply NoDup_cons in Hn as [Hnr Hn].
      rewrite fmap_cons, list_to_map_cons, lookup_insert_eq, !Z.eqb_refl. cbn [andb].
      assert (Hdel : delete (sub_client_order_id r)
                       (<[sub_client_order_id r := r]> (records_map order)) = records_map order).
      { apply delete_insert_id. by apply records_lookup_None. }
      destruct (IH (records_map order) (wrap_u64 (ev + 1))) as (m' & E & Hok'); [by split|done|].
      simpl length. replace (S (length order) - max)%nat with (S (length order - max)) by (simpl in Hlt; lia).
      exists m'. split; [|done]. etrans; [|etrans; [exact E|]].
      * f_equal. exact Hdel.
      * simpl drop. f_equal. unfold wrap_u64. rewrite Zplus_mod_idemp_l. f_equal. lia.
    + exists m. replace (length (r :: order) - max)%nat with 0%nat by lia.
      rewrite drop_0, Z.add_0_r, wrap_u64_id by (unfold in_u64; lia). done.
Qed.

(** ** Ordinals of the events of one request *)

(** [evs] is numbered from [first] unless the ordinals leave their type. *)
Definition ordinals (log_index first : Z) (evs : list MatchEvent) : Prop :=
  first + Z.of_nat (length evs) <= U32_MAX -> numbered_from log_index first evs.

Section Ordinals.
Variables log_index first : Z.
Hypothesis first_pos : 0 <= first.

Lemma ordinals_nil : ordinals log_index first [].
Proof. intros _. apply numbered_nil. Qed.

Lemma ordinals_snoc evs e :
  ordinals log_index first evs ->
  e_event_id e = mkEventId log_index (ordinal_add first (length evs)) ->
  ordinals log_index first (evs ++ [e]).
Proof.
  intros He Hid Hb. rewrite length_app in Hb. simpl in Hb.
  apply numbered_app; [apply He; lia|]. apply numbered_single.
  by rewrite Hid, ordinal_add_exact by lia.
Qed.

Lemma ordinals_fills evs side s fills :
  ordinals log_index first evs ->
  ordinals log_index first
    (for_fills_into log_index (ordinal_add first (length evs)) side s fills evs).
Proof.
  intros He Hb. unfold for_fills_into in *. rewrite length_app, length_imap in Hb.
  apply numbered_app; [apply He; lia|]. rewrite ordinal_add_exact by lia.
  pose proof (numbered_fills log_index (first + Z.of_nat (length evs)) side s fills) as Hf.
  unfold for_fills, for_fills_into in Hf. simpl in Hf. apply Hf; lia.
Qed.

Lemma ordinals_push_all {A} (mk : Z -> A -> MatchEvent) xs : forall evs,
  (forall n x, e_event_id (mk n x) = mkEventId log_index n) ->
  ordinals log_index first evs -> ordinals log_index first (push_all first mk xs evs).
Proof.
  unfold push_all. induction xs as [|x xs IH]; intros evs Hmk He; simpl; [done|].
  apply IH; [done|]. apply ordinals_snoc; [done|apply Hmk].
Qed.

Lemma ordinals_trigger evs t :
  ordinals log_index first evs -> ordinals log_index first (push_trigger log_index first evs t).
Proof.
  intros He. unfold push_trigger.
  assert (H1 : ordinals log_index first
    (for_fills_into log_index
       (ordinal_add first (length (evs ++ [for_triggered log_index (ordinal_add first (length evs))
                                     (se_stop t) (se_trigger_price t)])))
       (o_side (se_stop t)) (o_sequence (se_stop t)) (se_fills t)
       (evs ++ [for_triggered log_index (ordinal_add first (length evs)) (se_stop t)
                  (se_trigger_price t)]))).
  { apply ordinals_fills. by apply ordinals_snoc. }
  destruct (se_cancelled t); [|done]. by apply ordinals_snoc.
Qed.

Lemma ordinals_place evs o fills resting :
  ordinals log_index first evs ->
  ordinals log_index first
    (for_place_at_into log_index (ordinal_add first (length evs)) o fills resting evs).
Proof.
  intros He. unfold for_place_at_into.
  pose proof (ordinals_fills evs (o_side o) (o_sequence o) fills He) as Hf.
  destruct resting as [v|]; [|done]. intros Hb.
  assert (Hlen : length (for_fills_into log_index (ordinal_add first (length evs)) (o_side o)
                           (o_sequence o) fills evs) = (length evs + length fills)%nat).
  { unfold for_fills_into. by rewrite length_app, length_imap. }
  rewrite length_app, Hlen in Hb. simpl in Hb.
  apply numbered_app; [apply Hf; rewrite Hlen; lia|]. apply numbered_single. simpl.
  rewrite Hlen, (ordinal_add_exact first) by lia. rewrite ordinal_add_exact by lia. f_equal. lia.
Qed.

Lemma ordinals_place_events o outcome :
  ordinals log_index first (place_events log_index first o outcome).
Proof.
  unfold place_events. destruct (out_rejected outcome).
  { intros _. by apply numbered_single. }
  set (e1 := push_all _ _ _ _).
  assert (H1 : ordinals log_index first e1) by (by apply ordinals_push_all, ordinals_nil).
  set (e2 := for_place_at_into _ _ _ _ _ _).
  assert (H2 : ordinals log_index first e2) by (by apply ordinals_place).
  set (e3 := match out_cancelled outcome with Some _ => _ | None => _ end).
  assert (H3 : ordinals log_index first e3).
  { subst e3. destruct (out_cancelled outcome); [|done]. by apply ordinals_snoc. }
  clearbody e3. clear H1 H2. revert e3 H3.
  induction (out_triggers outcome) as [|t ts IH]; intros e3 H3; simpl; [done|].
  apply IH. by apply ordinals_trigger.
Qed.
End Ordinals.

(** ** One request *)

Definition request_typed (r : MatchEngineRequest) : Prop :=
  match r with
  | Place order _ => order_typed order
  | Amend _ price volume =>
      (forall p, price = Some p -> in_i128 p) /\ (forall v, volume = Some v -> in_i128 v)
  | _ => True
  end.

Section Requests.
Context `{RaftTypes} `{I256Ops} `{!I256Laws}.
Implicit Types s : StateMachineStoreInner.

Definition id_lt (a b : EventId) : Prop := event_id_ltb a b = true.

Record sm_ok s : Prop := {
  sm_book : book_ok (orderbook s) /\ quiescent (orderbook s);
  sm_events_bound : (length (events s) <= max_events s)%nat;
  sm_subs : subs_ok (submission_order s) (submissions s);
  sm_subs_bound : (length (submission_order s) <= max_submissions s)%nat;
  sm_config : config_ok (symbol_config s);
  sm_counters : 0 <= events_evicted s <= U64_MAX /\ 0 <= submissions_evicted s <= U64_MAX;
}.

Definition events_sorted s : Prop := StronglySorted id_lt (e_event_id <$> events s).

(** Every retained event id is before [(log_index, first)]. *)
Definition events_before (log_index first : Z) s : Prop :=
  Forall (fun e => id_lt (e_event_id e) (mkEventId log_index first)) (events s).

(** How [k] requests that produced [evs] and dedupe records [subs] change the store. *)
Record grows (k log_index first : Z) s (evs : list MatchEvent) (subs : list SubmissionRecord) s'
    : Prop := {
  gr_ordinals : 0 <= first -> ordinals log_index first evs;
  gr_events : events s' = drop (length (events s ++ evs) - max_events s) (events s ++ evs);
  gr_evicted : events_evicted s' =
    wrap_u64 (events_evicted s + Z.of_nat (length (events s ++ evs) - max_events s));
  gr_subs : submission_order s' =
    drop (length (submission_order s ++ subs) - max_submissions s) (submission_order s ++ subs);
  gr_subs_ok : subs_ok (submission_order s') (submissions s');
  gr_subs_evicted : 0 <= submissions_evicted s' <= U64_MAX;
  gr_book : book_ok (orderbook s') /\ quiescent (orderbook s');
  gr_config : config_ok (symbol_config s');
  gr_limits : max_events s' = max_events s /\ max_submissions s' = max_submissions s;
  gr_applied : last_applied_log s' = last_applied_log s /\ last_membership s' = last_membership s;
  gr_sequence : book_sequence (orderbook s) <= book_sequence (orderbook s')
                <= book_sequence (orderbook s) + k;
}.

Lemma wrap_u64_range z : 0 <= wrap_u64 z <= U64_MAX.
Proof. unfold wrap_u64, U64_MAX. pose proof (Z.mod_pos_bound z (2 ^ 64)). lia. Qed.

Lemma id_lt_trans a b c : id_lt a b -> id_lt b c -> id_lt a c.
Proof. unfold id_lt, event_id_ltb. destruct a, b, c; simpl. lia. Qed.

Lemma id_lt_or a log_index first n :
  id_lt a (mkEventId log_index first) -> first <= n -> id_lt a (mkEventId log_index n).
Proof. unfold id_lt, event_id_ltb. destruct a; simpl. lia. Qed.

Lemma numbered_sorted log_index : forall evs first,
  numbered_from log_index first evs -> StronglySorted id_lt (e_event_id <$> evs).
Proof.
  intros evs first ->. generalize 0%nat as k. induction (length evs) as [|n IH]; intros k; [constructor|].
  simpl. constructor; [apply IH|]. apply Forall_fmap, Forall_seq. intros j Hj. simpl.
  unfold id_lt, event_id_ltb. simpl. lia.
Qed.

Lemma numbered_ids log_index first evs e :
  numbered_from log_index first evs -> e ∈ evs ->
  exists i, (i < length evs)%nat /\ e_event_id e = mkEventId log_index (first + Z.of_nat i).
Proof.
  intros Hn (i & Hi)%list_elem_of_lookup_1. exists i.
  apply lookup_lt_Some in Hi as Hlt. split; [done|].
  assert (E : (e_event_id <$> evs) !! i = Some (e_event_id e)) by (by rewrite list_lookup_fmap, Hi).
  rewrite Hn, list_lookup_fmap, lookup_seq_lt in E by done. by injection E.
Qed.

Lemma strongly_sorted_drop {A} (R : A -> A -> Prop) n l : StronglySorted R l -> StronglySorted R (drop n l).
Proof.
  revert n. induction l as [|x l IH]; intros n Hs; [by rewrite drop_nil|].
  destruct n; [done|]. inversion Hs; subst. simpl. by apply IH.
Qed.

Lemma grows_sm_ok k li first s evs subs s' : grows k li first s evs subs s' -> sm_ok s'.
Proof.
  intros [_ He Hv Hs Hm Hve Hb Hc (L1 & L2) _ _]. split; try done.
  - rewrite He, L1. apply drop_bound.
  - rewrite Hs, L2. apply drop_bound.
  - rewrite Hv. split; [apply wrap_u64_range|done].
Qed.

(** The window of a store that grew is sorted again, and before the next ordinal. *)
Lemma grows_sorted k li first s evs subs s' :
  grows k li first s evs subs s' -> events_sorted s -> 0 <= first ->
  events_before li first s -> first + Z.of_nat (length evs) <= U32_MAX ->
  events_sorted s' /\ events_before li (first + Z.of_nat (length evs)) s'.
Proof.
  intros [Ho He _ _ _ _ _ _ _ _ _] Hsort Hf Hbef Hmax.
  specialize (Ho Hf Hmax). unfold events_before, events_sorted in *. rewrite Forall_forall in Hbef. split.
  - rewrite He, fmap_drop, fmap_app. apply strongly_sorted_drop, strongly_sorted_app; [done| |].
    + by eapply numbered_sorted.
    + intros a b (e & -> & Hin)%list_elem_of_fmap (e' & -> & Hin')%list_elem_of_fmap.
      destruct (numbered_ids _ _ _ _ Ho Hin') as (i & Hi & ->). eapply id_lt_or; [by apply Hbef|].
      lia.
  - rewrite He. apply Forall_drop, Forall_app. split.
    + apply Forall_forall. intros e Hin. eapply id_lt_or; [by apply Hbef|]. lia.
    + apply Forall_forall. intros e Hin. destruct (numbered_ids _ _ _ _ Ho Hin) as (i & Hi & ->).
      unfold id_lt, event_id_ltb. simpl. lia.
Qed.

(** ** How each step grows the store *)

Lemma drop_none {A} (l : list A) max : (length l <= max)%nat -> drop (length l - max) l = l.
Proof. intros Hl. replace (length l - max)%nat with 0%nat by lia. by rewrite drop_0. Qed.

Lemma record_events_eq evs s :
  sm_ok s \/ 0 <= events_evicted s <= U64_MAX ->
  record_events evs s =
  set_events (drop (length (events s ++ evs) - max_events s) (events s ++ evs))
    (wrap_u64 (events_evicted s + Z.of_nat (length (events s ++ evs) - max_events s))) s.
Proof.
  intros Hc. assert (Hev : 0 <= events_evicted s <= U64_MAX) by (destruct Hc as [[]|]; tauto).
  unfold record_events, trim_events. cbn [events events_evicted max_events set_events].
  by rewrite trim_front_drop.
Qed.

Lemma grows_record li first s evs b cfg locked :
  sm_ok s -> (0 <= first -> ordinals li first evs) ->
  book_ok b /\ quiescent b -> config_ok cfg ->
  book_sequence (orderbook s) <= book_sequence b <= book_sequence (orderbook s) + 1 ->
  grows 1 li first s evs [] (record_events evs (set_symbol cfg locked (set_orderbook b s))).
Proof.
  intros Hs Ho Hb Hc Hq. pose proof (sm_counters _ Hs) as [? ?].
  rewrite record_events_eq by (by right). split; try done; simpl.
  - rewrite app_nil_r. symmetry. apply drop_none, Hs.
  - apply Hs.
Qed.

Lemma set_symbol_same s b :
  set_symbol (symbol_config s) (symbol_locked s) (set_orderbook b s) = set_orderbook b s.
Proof. done. Qed.

Lemma grows_refl k li first s : sm_ok s -> 0 <= k -> grows k li first s [] [] s.
Proof.
  intros Hs Hk. split; rewrite ?app_nil_r; try (by apply Hs); try done; try lia.
  - symmetry. apply drop_none, Hs.
  - replace (length (events s) - max_events s)%nat with 0%nat by (pose proof (sm_events_bound _ Hs); lia).
    rewrite Z.add_0_r, wrap_u64_id; [done|apply Hs].
  - symmetry. apply drop_none, Hs.
Qed.

(** The depth journal is not part of what a store promises. *)
Lemma book_journal_ok j b :
  book_ok b /\ quiescent b -> book_ok (set_depth_journal j b) /\ quiescent (set_depth_journal j b).
Proof. by apply book_ok_same. Qed.

Lemma take_market_frame_state li seq ts sym evs s f s' :
  take_market_frame li seq ts sym evs s = (f, s') ->
  s' = s \/ s' = set_orderbook (set_depth_journal [] (orderbook s)) s.
Proof.
  unfold take_market_frame. destruct (market_data s) as [enabled|]; simpl; [|intros [= _ <-]; by left].
  intros E. right. destruct enabled; simpl in E; [|by injection E].
  destruct (bool_decide (evs = []) && _)%bool; by injection E.
Qed.

Lemma grows_frame li first s evs subs s1 li' seq ts sym evs' f s' :
  grows 1 li first s evs subs s1 -> take_market_frame li' seq ts sym evs' s1 = (f, s') ->
  grows 1 li first s evs subs s'.
Proof.
  intros Hg [->| ->]%take_market_frame_state; [done|].
  destruct Hg as [? ? ? ? ? ? Hb ? ? ? ?]. split; try done. by apply book_journal_ok.
Qed.

(** [finish] on a recorded store. *)
Lemma grows_finish li first s evs s1 seq ts sym fx r n s' fx' :
  grows 1 li first s evs [] s1 -> finish li seq ts sym evs s1 fx = (r, n, s', fx') ->
  n = length evs /\ grows 1 li first s evs [] s' /\ r = response_applied seq evs.
Proof.
  unfold finish. destruct (take_market_frame _ _ _ _ _ _) as [f s2] eqn:E. intros Hg [= <- <- <- _].
  split_and!; [done|by eapply grows_frame|done].
Qed.

Lemma subs_ok_snoc order m r :
  subs_ok order m -> m !! sub_client_order_id r = None ->
  subs_ok (order ++ [r]) (<[sub_client_order_id r := r]> m).
Proof.
  intros [Hn ->] Hnone.
  assert (Hnew : sub_client_order_id r ∉ (sub_client_order_id <$> order)).
  { intros (r' & E & Hr')%list_elem_of_fmap. rewrite E, records_lookup in Hnone by done. done. }
  split.
  - rewrite fmap_app. apply NoDup_app. split_and!; [done| |by apply NoDup_singleton].
    intros x Hx ->%list_elem_of_singleton. done.
  - rewrite fmap_app, list_to_map_app. simpl. rewrite insert_empty.
    rewrite <- insert_union_singleton_r; [done|]. by apply records_lookup_None.
Qed.

Lemma grows_submission li first s evs s1 id seq li' first' count :
  grows 1 li first s evs [] s1 -> submissions s1 !! id = None ->
  length (submission_order s) = length (submission_order s1) ->
  let r := mkSubmission id seq li' count (Some first') in
  grows 1 li first s evs [r] (record_submission id seq li' first' count s1).
Proof.
  intros [? ? ? Hs Hok Hev ? ? [L1 L2] ? ?] Hnone Hlen r. unfold record_submission, trim_submissions. fold r.
  cbn [submissions submission_order submissions_evicted max_submissions set_submissions].
  pose proof (subs_ok_snoc _ _ r Hok Hnone) as Hok'. simpl in Hok'.
  destruct (trim_submissions_loop_ok (max_submissions s1) _ _ (submissions_evicted s1) Hok' Hev)
    as (m' & -> & Hok2). rewrite app_nil_r in Hs.
  assert (Eorder : submission_order s1 = submission_order s).
  { rewrite Hs in Hlen |- *. rewrite length_drop in Hlen.
    destruct (decide (length (submission_order s) - max_submissions s = 0)%nat) as [->|]; [done|lia]. }
  split; try done; simpl; [|apply wrap_u64_range]. by rewrite Eorder, L2.
Qed.

(** ** The requests *)

Lemma after_number_ok b :
  book_ok b /\ quiescent b -> book_sequence b < U64_MAX ->
  book_ok (after_number b) /\ quiescent (after_number b) /\
  book_sequence (after_number b) = book_sequence b + 1.
Proof.
  intros [Hok Hq] Hs. assert (E : book_sequence (after_number b) = book_sequence b + 1).
  { simpl. apply wrap_u64_id. pose proof (bk_nonneg _ _ Hok). unfold in_u64. lia. }
  split_and!; [|done|done]. unfold book_ok. rewrite E.
  eapply book_inv_mono; [|by apply after_number_inv]. lia.
Qed.

Lemma auto_purge_spec n now b :
  book_inv n b ->
  exists expired b', auto_purge now b = Ret (expired, b') /\
    purged (fun x => is_expired (o_tif x) now None) b expired b'.
Proof. apply automatic_purge. Qed.

(** Why a request can panic: the order, or a parked stop, is sized in quote currency. *)
Definition quote_sized (r : MatchEngineRequest) s : Prop :=
  (exists o id, r = Place o id /\ o_volume_unit o = UnitQuote) \/
  Exists (fun o => o_volume_unit o = UnitQuote) (stops (orderbook s)).

Lemma apply_place_spec order cid li first s fx :
  sm_ok s -> order_typed order -> book_sequence (orderbook s) < U64_MAX ->
  match apply_place order cid li first s fx with
  | Ret (resp, n, s', fx') =>
      exists evs subs, n = length evs /\ grows 1 li first s evs subs s' /\
        (length subs <= 1)%nat /\
        match cid with
        | Some id =>
            match submissions s !! id with
            | Some r => resp = duplicate_response r s /\ s' = s /\ evs = [] /\ subs = []
            | None => exists seq, resp = response_applied seq evs /\
                        subs = [mkSubmission id seq li (as_u32 (length evs)) (Some first)]
            end
        | None => subs = []
        end
  | Panic => quote_sized (Place order cid) s
  | Diverged => False
  end.
Proof.
  intros Hs Ht Hq. unfold apply_place.
  destruct (match cid with Some id => _ | None => None end) as [r|] eqn:Er.
  { exists [], []. split_and!; [done|by apply grows_refl|simpl; lia|].
    destruct cid as [id|]; [|done]. by rewrite Er. }
  assert (Hexec :
    match (match configured_symbol_for order s with
           | Ok config => execute_order_with_symbol order config (orderbook s)
           | Err reason => Ret (reject_order order reason (orderbook s))
           end) with
    | Ret (out, o, b) => book_ok b /\ quiescent b /\
                         book_sequence b = book_sequence (orderbook s) + 1
    | Panic => o_volume_unit order = UnitQuote \/
               Exists (fun o => o_volume_unit o = UnitQuote) (stops (orderbook s))
    | Diverged => False
    end).
  { pose proof (sm_book _ Hs) as [Hok Hqu]. destruct (configured_symbol_for order s) as [config|reason].
    - pose proof (execute_spec order config (orderbook s) Hok Ht Hq) as Hx.
      unfold execute_order_with_symbol.
      destruct (execute_order_inner _ _ _) as [[[out o] b]| |]; [|done|done].
      destruct (executed_ok _ _ _ _ _ _ Hx Hok Hq) as (? & ? & ? & _). auto.
    - simpl. fold (after_number (orderbook s)). by apply after_number_ok. }
  destruct (match configured_symbol_for order s with Ok _ => _ | Err _ => _ end)
    as [[[out o] b]| |]; simpl comp_bind; [|unfold quote_sized; destruct Hexec; [left|right]; eauto|done].
  destruct Hexec as (Hok & Hqu & Eseq).
  set (evs := place_events li first o out).
  assert (Hg : grows 1 li first s evs []
                 (record_events evs match out_rejected out with
                                    | None => set_symbol (symbol_config (set_orderbook b s)) true
                                                (set_orderbook b s)
                                    | Some _ => set_orderbook b s
                                    end)).
  { destruct (out_rejected out); [rewrite <- (set_symbol_same s b)|]; apply grows_record; try done;
      try apply Hs; try lia; intros Hf; by apply ordinals_place_events. }
  set (s1 := record_events evs _) in *.
  assert (Hsub1 : submissions s1 = submissions s /\
            length (submission_order s) = length (submission_order s1)).
  { assert (E : submissions s1 = submissions s /\ submission_order s1 = submission_order s).
    { subst s1. rewrite record_events_eq; [by destruct (out_rejected out)|].
      right. destruct (out_rejected out); apply Hs. }
    destruct E as [-> ->]. done. }
  destruct Hsub1 as [Em El].
  destruct (take_market_frame _ _ _ _ _ _) as [f s'] eqn:Ef.
  destruct cid as [id|].
  - exists evs, [mkSubmission id (o_sequence o) li (as_u32 (length evs)) (Some first)].
    split_and!; [done| |simpl; lia|].
    + eapply grows_frame; [|exact Ef]. apply grows_submission; [done|by rewrite Em|done].
    + rewrite Er. by eexists.
  - exists evs, []. split_and!; [done|by eapply grows_frame|simpl; lia|done].
Qed.

(** The common tail of the arms that do not touch the symbol. *)
Lemma grows_tail li first s seq ts sym evs b fx :
  sm_ok s -> (0 <= first -> ordinals li first evs) -> book_ok b /\ quiescent b ->
  book_sequence b = book_sequence (orderbook s) + 1 ->
  exists s' fx',
    finish li seq ts sym evs (record_events evs (set_orderbook b s)) fx =
    (response_applied seq evs, length evs, s', fx') /\ grows 1 li first s evs [] s'.
Proof.
  intros Hs He Hb Eb. destruct (finish _ _ _ _ _ _ _) as [[[r n] s'] fx'] eqn:Ef.
  eapply grows_finish in Ef as (-> & Hg & ->); [by eexists _, _|].
  rewrite <- (set_symbol_same s b). apply grows_record; try done; [apply Hs|lia].
Qed.

Lemma apply_cancel_spec order li first s fx :
  sm_ok s -> book_sequence (orderbook s) < U64_MAX ->
  exists resp evs s' fx', apply_cancel order li first s fx = Ret (resp, length evs, s', fx') /\
    grows 1 li first s evs [] s' /\ resp = response_applied (book_sequence (orderbook s)) evs.
Proof.
  intros Hs Hq. pose proof (sm_book _ Hs) as Hb.
  destruct (after_number_ok _ Hb Hq) as (Hok & Hqu & Eseq).
  unfold apply_cancel, next_market_sequence. fold (after_number (orderbook s)).
  destruct (auto_purge_spec _ (o_timestamp order) _ Hok) as (expired & b1 & -> & Hp).
  simpl comp_bind. destruct (purged_ok _ _ _ _ Hp (conj Hok Hqu)) as [Hok1 Hq1].
  pose proof (proj1 (pu_frame _ _ _ _ Hp)) as Eq1.
  set (evs := push_all _ _ _ _).
  assert (Hev : 0 <= first -> ordinals li first evs).
  { intros Hf. apply ordinals_push_all; [done|done|apply ordinals_nil]. }
  assert (Htail : forall evs' b', (0 <= first -> ordinals li first evs') ->
            book_ok b' /\ quiescent b' -> book_sequence b' = book_sequence b1 ->
            exists resp evs s' fx',
              Ret (finish li (book_sequence (orderbook s)) (o_timestamp order) (o_symbol_id order)
                     evs' (record_events evs' (set_orderbook b' s)) fx) =
              Ret (resp, length evs, s', fx') /\ grows 1 li first s evs [] s' /\
              resp = response_applied (book_sequence (orderbook s)) evs).
  { intros evs' b' He Hb' Eb'.
    destruct (grows_tail li first s (book_sequence (orderbook s)) (o_timestamp order)
                (o_symbol_id order) evs' b' fx Hs He Hb') as (s' & fx' & -> & Hg); [congruence|].
    by eexists _, _, _, _. }
  destruct (configured_symbol_for order s) as [config|reason].
  - destruct (cancel_spec _ order b1 Hok1) as (r & b2 & E & Hr). rewrite E. simpl comp_bind.
    apply Htail.
    + destruct r; [|done]. intros Hf. apply ordinals_snoc; [done|by apply Hev|done].
    + by eapply cancel_ok.
    + destruct r; [apply Hr|]. by destruct Hr as [-> _].
  - simpl comp_bind. apply Htail; [|done|done].
    intros Hf. apply ordinals_snoc; [done|by apply Hev|done].
Qed.

Lemma apply_amend_spec order price volume li first s fx :
  sm_ok s -> book_sequence (orderbook s) < U64_MAX ->
  (forall p, price = Some p -> in_i128 p) -> (forall v, volume = Some v -> in_i128 v) ->
  exists resp evs s' fx',
    apply_amend order price volume li first s fx = Ret (resp, length evs, s', fx') /\
    grows 1 li first s evs [] s' /\ resp = response_applied (book_sequence (orderbook s)) evs.
Proof.
  intros Hs Hq Hpt Hvt. pose proof (sm_book _ Hs) as Hb.
  destruct (after_number_ok _ Hb Hq) as (_ & Hqu & Eseq).
  pose proof (after_number_inv _ _ (proj1 Hb)) as Hinv.
  unfold apply_amend, next_market_sequence. fold (after_number (orderbook s)).
  destruct (auto_purge_spec _ (o_timestamp order) _ Hinv) as (expired & b1 & -> & Hp).
  simpl comp_bind. pose proof (pu_inv _ _ _ _ Hp _ Hinv) as Hinv1.
  pose proof (purged_quiescent _ _ _ _ Hp Hqu) as Hq1.
  pose proof (proj1 (pu_frame _ _ _ _ Hp)) as Eq1.
  set (evs := push_all _ _ _ _).
  assert (Hev : 0 <= first -> ordinals li first evs).
  { intros Hf. apply ordinals_push_all; [done|done|apply ordinals_nil]. }
  assert (Htail : forall e b', e_event_id e = mkEventId li (ordinal_add first (length evs)) ->
            book_inv (book_sequence (orderbook s) + 1) b' -> quiescent b' ->
            book_sequence b' = book_sequence b1 ->
            exists resp evs' s' fx',
              Ret (finish li (book_sequence (orderbook s)) (o_timestamp order) (o_symbol_id order)
                     (evs ++ [e]) (record_events (evs ++ [e]) (set_orderbook b' s)) fx) =
              Ret (resp, length evs', s', fx') /\ grows 1 li first s evs' [] s' /\
              resp = response_applied (book_sequence (orderbook s)) evs').
  { intros e b' He Hi Hqb Eb'.
    destruct (grows_tail li first s (book_sequence (orderbook s)) (o_timestamp order)
                (o_symbol_id order) (evs ++ [e]) b' fx) as (s' & fx' & -> & Hg);
      [done| | |congruence|by eexists _, _, _, _].
    - intros Hf. apply ordinals_snoc; [done|by apply Hev|done].
    - split; [|done]. unfold book_ok. by rewrite Eb', Eq1, Eseq. }
  assert (Hmono : book_inv (book_sequence (orderbook s) + 1) b1) by (eapply book_inv_mono; [|done]; lia).
  destruct (validate_amend_values order price volume s) as [config|reason]; simpl comp_bind;
    [|by apply Htail].
  destruct (amend_with_sequence_spec _ order price volume b1 Hinv1 Hpt Hvt) as (r & b2 & -> & Hr).
  simpl comp_bind. destruct r as [am|e].
  - destruct Hr as [_ Hi _ (Es & Eq2 & El)]. apply Htail; [done|done| |done].
    unfold quiescent in *. by rewrite El, Es.
  - subst b2. by apply Htail.
Qed.

Lemma apply_purge_spec now day li first s fx :
  sm_ok s -> book_sequence (orderbook s) < U64_MAX ->
  exists resp evs s' fx',
    apply_purge now day li first s fx = Ret (resp, length evs, s', fx') /\
    grows 1 li first s evs [] s' /\ resp = response_applied (book_sequence (orderbook s)) evs.
Proof.
  intros Hs Hq. pose proof (sm_book _ Hs) as Hb.
  destruct (after_number_ok _ Hb Hq) as (Hok & Hqu & Eseq).
  unfold apply_purge, next_market_sequence. fold (after_number (orderbook s)).
  destruct (purge_expired_spec _ now day _ Hok) as (expired & b1 & -> & Hp). simpl comp_bind.
  pose proof (proj1 (pu_frame _ _ _ _ Hp)) as Eq1. set (evs := imap _ _).
  destruct (grows_tail li first s (book_sequence (orderbook s)) now (cfg_symbol_id (symbol_config s))
              evs b1 fx) as (s' & fx' & -> & Hg); [done| | |congruence|by eexists _, _, _, _].
  - intros Hf Hmax. unfold evs in *. rewrite length_imap in Hmax. unfold numbered_from.
    rewrite length_imap. apply list_eq. intros i. rewrite !list_lookup_fmap, list_lookup_imap.
    destruct (expired !! i) as [o|] eqn:E; simpl.
    + apply lookup_lt_Some in E as Hi. rewrite lookup_seq_lt by lia. simpl.
      by rewrite ordinal_add_exact by lia.
    + by rewrite lookup_seq_ge by (by apply lookup_ge_None).
  - by eapply purged_ok.
Qed.

Lemma configure_spec config s :
  sm_ok s ->
  forall li first, grows 1 li first s [] [] (configure_symbol config s).2 /\
    match (configure_symbol config s).1 with
    | Ok _ => symbol_locked s = false /\ orders s = [] /\ stops (orderbook s) = [] /\
              validate config = Ok config /\ symbol_config (configure_symbol config s).2 = config
    | Err _ => (configure_symbol config s).2 = s
    end.
Proof.
  intros Hs li first. unfold configure_symbol.
  destruct (validate config) as [c|e] eqn:Ev; [|split; [by apply grows_refl|done]].
  assert (c = config) as -> by (unfold validate in Ev; destruct (_ || _)%bool in Ev; by simplify_eq).
  destruct (symbol_locked s) eqn:El; [split; [by apply grows_refl|done]|].
  destruct (_ || _)%bool eqn:Eo; [split; [by apply grows_refl|done]|].
  apply orb_false_iff in Eo as [Eo Es]. apply orb_false_iff in Eo as [Eb Ea].
  apply negb_false_iff, bool_decide_eq_true_1 in Eb, Ea, Es.
  split; [|unfold orders; by rewrite Eb, Ea].
  destruct (grows_refl 1 li first s Hs ltac:(lia)) as [? ? ? ? ? ? [Hok Hq] ? ? ? ?]. split; try done. simpl. split.
  - destruct Hok. by split.
  - unfold quiescent. done.
Qed.

Lemma apply_one_spec node r li first s fx :
  sm_ok s -> request_typed r -> book_sequence (orderbook s) < U64_MAX ->
  match apply_one node r li first s fx with
  | Ret (resp, n, s', fx') =>
      exists evs subs, n = length evs /\ grows 1 li first s evs subs s' /\ (length subs <= 1)%nat
  | Panic => quote_sized r s
  | Diverged => False
  end.
Proof.
  intros Hs Ht Hq. destruct r as [o cid|o|o p v|now day|config|rs]; simpl.
  - pose proof (apply_place_spec o cid li first s fx Hs Ht Hq) as Hp.
    destruct (apply_place _ _ _ _ _ _) as [[[[resp n] s'] fx']| |]; [|done|done].
    destruct Hp as (evs & subs & ? & ? & ? & _). eauto.
  - destruct (apply_cancel_spec o li first s fx Hs Hq) as (resp & evs & s' & fx' & -> & Hg & _).
    exists evs, []. simpl. auto.
  - destruct Ht as [Hp Hv].
    destruct (apply_amend_spec o p v li first s fx Hs Hq Hp Hv) as (resp & evs & s' & fx' & -> & Hg & _).
    exists evs, []. simpl. auto.
  - destruct (apply_purge_spec now day li first s fx Hs Hq) as (resp & evs & s' & fx' & -> & Hg & _).
    exists evs, []. simpl. auto.
  - destruct (configure_spec config s Hs li first) as [Hg _]. unfold configure_symbol_locked.
    destruct (configure_symbol config s) as [[|] s']; simpl in *; exists [], []; auto.
  - exists [], []. split_and!; [done|by apply grows_refl|simpl; lia].
Qed.

(** ** Batches and entries *)

(** Trimming twice is trimming once. *)
Lemma window_app {A} max (l e1 e2 : list A) :
  (length l <= max)%nat ->
  let w := drop (length (l ++ e1) - max) (l ++ e1) in
  drop (length (w ++ e2) - max) (w ++ e2) =
  drop (length (l ++ e1 ++ e2) - max) (l ++ e1 ++ e2) /\
  (Z.of_nat (length (l ++ e1) - max) + Z.of_nat (length (w ++ e2) - max) =
   Z.of_nat (length (l ++ e1 ++ e2) - max)).
Proof.
  intros Hl w. subst w. rewrite !length_app, length_drop, length_app.
  set (k := (length l + length e1 - max)%nat). split; [|lia].
  rewrite (app_assoc l e1 e2).
  rewrite <- (drop_app_le (l ++ e1) e2 k) by (rewrite length_app; lia).
  rewrite drop_drop. f_equal. lia.
Qed.

Lemma ordinals_app li first next e1 e2 :
  (first + Z.of_nat (length e1) <= U32_MAX -> next = first + Z.of_nat (length e1)) ->
  ordinals li first e1 -> ordinals li next e2 -> ordinals li first (e1 ++ e2).
Proof.
  intros Hn Ho1 Ho2 Hb. rewrite length_app in Hb. specialize (Hn ltac:(lia)). subst next.
  apply numbered_app; [apply Ho1; lia|]. apply Ho2. lia.
Qed.

Lemma grows_trans k1 k2 li first next s e1 b1 s1 e2 b2 s2 :
  sm_ok s -> 0 <= next ->
  (first + Z.of_nat (length e1) <= U32_MAX -> next = first + Z.of_nat (length e1)) ->
  grows k1 li first s e1 b1 s1 -> grows k2 li next s1 e2 b2 s2 ->
  grows (k1 + k2) li first s (e1 ++ e2) (b1 ++ b2) s2.
Proof.
  intros Hs Hpos Hnext [Ho1 He1 Hv1 Hs1 _ _ _ _ (L1 & M1) (A1 & B1) Q1]
         [Ho2 He2 Hv2 Hs2 Hm2 Hw2 Hb2 Hc2 (L2 & M2) (A2 & B2) Q2].
  destruct (window_app (max_events s) (events s) e1 e2 (sm_events_bound _ Hs)) as [We Wn].
  destruct (window_app (max_submissions s) (submission_order s) b1 b2 (sm_subs_bound _ Hs)) as [Ws _].
  split; try done; try (split; congruence); try lia.
  - intros Hf. eapply ordinals_app; [exact Hnext|by apply Ho1|by apply Ho2].
  - by rewrite He2, He1, L1, We.
  - rewrite Hv2, Hv1, He1, L1. unfold wrap_u64. rewrite Zplus_mod_idemp_l. f_equal. lia.
  - by rewrite Hs2, Hs1, M1, Ws.
Qed.

(** Requests that stay within the sequence space. *)
Definition budget (n : nat) s : Prop := book_sequence (orderbook s) + Z.of_nat n <= U64_MAX.

Lemma saturating_ordinal first n :
  0 <= first <= U32_MAX ->
  0 <= saturating_add_u32 first (as_u32 n) <= U32_MAX /\
  (first + Z.of_nat n <= U32_MAX -> saturating_add_u32 first (as_u32 n) = first + Z.of_nat n).
Proof.
  intros Hf. unfold saturating_add_u32, as_u32, wrap_u32, U32_MAX in *.
  pose proof (Z.mod_pos_bound (Z.of_nat n) (2 ^ 32)). split; [lia|].
  intros Hn. rewrite Z.mod_small by lia. lia.
Qed.

Lemma apply_batch_spec node li : forall rs first acc s fx,
  sm_ok s -> Forall request_typed rs -> budget (length rs) s -> 0 <= first <= U32_MAX ->
  match apply_batch node rs li first acc s fx with
  | Ret (responses, s', fx') =>
      length responses = (length acc + length rs)%nat /\
      exists evs subs, (length subs <= length rs)%nat /\
        grows (Z.of_nat (length rs)) li first s evs subs s'
  | Panic => True
  | Diverged => False
  end.
Proof.
  induction rs as [|r rs IH]; intros first acc s fx Hs Ht Hb Hf; simpl.
  - split; [lia|]. exists [], []. split; [simpl; lia|]. by apply grows_refl.
  - inversion Ht as [|? ? Hr Hrs]; subst. unfold budget in Hb. simpl length in Hb.
    pose proof (apply_one_spec node r li first s fx Hs Hr ltac:(lia)) as Hone.
    destruct (apply_one _ _ _ _ _ _) as [[[[resp n] s1] fx1]| |]; simpl comp_bind; [|done|done].
    destruct Hone as (e1 & b1 & -> & Hg1 & Hl1).
    pose proof (grows_sm_ok _ _ _ _ _ _ _ Hg1) as Hs1.
    destruct (saturating_ordinal first (length e1) Hf) as [Hsat Hex].
    specialize (IH (saturating_add_u32 first (as_u32 (length e1))) (acc ++ [resp]) s1 fx1 Hs1 Hrs).
    assert (Hb1 : budget (length rs) s1).
    { pose proof (gr_sequence _ _ _ _ _ _ _ Hg1). unfold budget. lia. }
    specialize (IH Hb1 Hsat). destruct (apply_batch _ _ _ _ _ _ _) as [[[responses s'] fx']| |]; [|done|done].
    destruct IH as (Hlen & e2 & b2 & Hl2 & Hg2). split.
    + rewrite Hlen, length_app. simpl. lia.
    + exists (e1 ++ e2), (b1 ++ b2). split; [rewrite length_app; simpl; lia|].
      replace (Z.of_nat (S (length rs))) with (1 + Z.of_nat (length rs)) by lia.
      eapply grows_trans; [done| |exact Hex|exact Hg1|exact Hg2]. lia.
Qed.

(** ** Entries *)

Definition entry_requests (e : Entry) : list MatchEngineRequest :=
  match en_payload e with
  | Normal (Batch rs) => rs
  | Normal r => [r]
  | _ => []
  end.

(** Everything but the applied position. *)
Lemma set_applied_ok l m s : sm_ok s -> sm_ok (set_applied l m s).
Proof. intros []. by split. Qed.

Lemma grows_applied k li first l m s evs subs s' :
  grows k li first (set_applied l m s) evs subs s' ->
  grows k li first s evs subs (set_applied (last_applied_log s) (last_membership s) s').
Proof. intros []. by split. Qed.

(** One entry: its events and records, on the store with the applied position set. *)
Lemma apply_entry_spec node entry s :
  sm_ok s -> Forall request_typed (entry_requests entry) ->
  budget (length (entry_requests entry)) s ->
  match apply_entry node entry s with
  | Ret (resp, s', fx) =>
      last_applied_log s' = Some (en_log_id entry) /\ sm_ok s' /\
      exists evs subs,
        grows (Z.of_nat (length (entry_requests entry))) (log_id_index (en_log_id entry)) 0 s evs
          subs (set_applied (last_applied_log s) (last_membership s) s')
  | Panic => True
  | Diverged => False
  end.
Proof.
  intros Hs Ht Hb. unfold apply_entry. set (s0 := set_applied _ _ s).
  assert (Hs0 : sm_ok s0) by (by apply set_applied_ok).
  set (li := log_id_index (en_log_id entry)).
  assert (Hone : forall r, Forall request_typed [r] -> budget 1 s ->
    match (let* '(response, _, s, fx) := apply_one node r li 0 s0 (mkEffects [] []) in
           Ret (response, s, fx)) with
    | Ret (resp, s', fx) =>
        last_applied_log s' = Some (en_log_id entry) /\ sm_ok s' /\
        exists evs subs, grows 1 li 0 s evs subs
          (set_applied (last_applied_log s) (last_membership s) s')
    | Panic => True
    | Diverged => False
    end).
  { intros r Hrl Hbr. assert (Hr : request_typed r) by (by inversion Hrl). unfold budget in Hbr.
    pose proof (apply_one_spec node r li 0 s0 (mkEffects [] []) Hs0 Hr ltac:(simpl; lia)) as Hx.
    destruct (apply_one _ _ _ _ _ _) as [[[[resp n] s'] fx']| |]; simpl comp_bind; [|done|done].
    destruct Hx as (evs & subs & _ & Hg & _). split_and!.
    - apply Hg.
    - by eapply grows_sm_ok.
    - exists evs, subs. by eapply grows_applied. }
  unfold entry_requests in *. destruct (en_payload entry) as [|r|mem].
  - split_and!; [done|done|]. exists [], []. eapply grows_applied. by apply grows_refl.
  - destruct r as [| | | | |rs]; try (by apply Hone).
    pose proof (apply_batch_spec node li rs 0 [] s0 (mkEffects [] []) Hs0 Ht Hb ltac:(unfold U32_MAX; lia)) as Hx.
    destruct (apply_batch _ _ _ _ _ _ _) as [[[responses s'] fx']| |]; simpl comp_bind; [|done|done].
    destruct Hx as (_ & evs & subs & _ & Hg). split_and!.
    + apply Hg.
    + by eapply grows_sm_ok.
    + exists evs, subs. by eapply grows_applied.
  - split_and!; [done|by apply set_applied_ok|]. exists [], []. eapply grows_applied.
    by apply grows_refl; [apply set_applied_ok|].
Qed.

(** ** A fresh store *)

Definition fresh_store (events_limit submissions_limit : nat) : StateMachineStoreInner :=
  mkInner None stored_membership_default OrderBook_new SymbolConfig_default false None None
    [] 0 ∅ [] 0 events_limit submissions_limit.

Lemma fresh_store_ok n m : sm_ok (fresh_store n m) /\ events_sorted (fresh_store n m).
Proof.
  split; [|constructor].
  split; simpl; try lia; [apply OrderBook_new_ok|by split; [constructor|]|done|unfold U64_MAX; lia].
Qed.
End Requests.
