(* ===== verification/StateReads.v ===== *)
(** * Reading the state machine: retries, pages and snapshots

    What a retry finds in the window ([submission_events_exact]), what a page of the event log
    holds ([events_since_spec]) and what a snapshot restores ([install_to_content]). *)

From stdpp Require Import strings gmap.
From S2P Require Import Prelude BTree Fixed Order OrderBook Sweep BookInv BookOps Purge Change.
From S2P Require Import Execute Book MatchEvent StateMachine StateInv.

Lemma take_while_app {A} (p : A -> bool) l1 l2 :
  Forall (fun x => p x = true) l1 -> Forall (fun x => p x = false) l2 -> take_while p (l1 ++ l2) = l1.
Proof.
  intros H1 H2. induction H1 as [|x l1 E _ IH]; simpl.
  - destruct H2 as [|y l2 E _]; simpl; [done|]. by rewrite E.
  - by rewrite E, IH.
Qed.

Section Retry.
Context `{RaftTypes}.
Implicit Types s : StateMachineStoreInner.

(** The ids from [(log_index, n)] on. *)
Definition id_ge (log_index n : Z) (e : MatchEvent) : Prop :=
  event_id_ltb (e_event_id e) (mkEventId log_index n) = false.

Lemma submission_loop_own record last evs : forall post acc total,
  is_Some (sub_first_ordinal record) ->
  Forall (fun e => ev_log_index (e_event_id e) = sub_log_index record /\
                   ev_ordinal (e_event_id e) < last) evs ->
  Forall (fun e => id_ge (sub_log_index record) last e) post ->
  0 <= total -> total + Z.of_nat (length evs) <= U32_MAX ->
  submission_loop record last (evs ++ post) acc total =
  (acc ++ take (MAX_EVENTS - length acc) evs, total + Z.of_nat (length evs)).
Proof.
  induction evs as [|e evs IH]; intros post acc total Hsome Hown Hpost Ht Hmax.
  - rewrite take_nil, app_nil_r, Z.add_0_r. destruct Hpost as [|p post Hp _]; simpl; [done|].
    unfold id_ge, event_id_ltb in Hp. simpl in Hp. apply orb_false_iff in Hp as [Hp1 Hp2].
    destruct (ev_log_index (e_event_id p) =? sub_log_index record); simpl in *; [|done].
    by rewrite bool_decide_eq_true_2, (proj2 (Z.leb_le _ _)) by (done || lia).
  - inversion Hown as [|? ? [Hl Ho] Hown']; subst. simpl.
    rewrite Hl, Z.eqb_refl. simpl. rewrite (proj2 (Z.leb_gt _ _)) by done. rewrite andb_false_r.
    simpl length in Hmax. unfold saturating_add_u32. rewrite Z.min_r by lia.
    rewrite IH by (done || lia). f_equal; [|lia].
    case_bool_decide as Hroom.
    + rewrite length_app. simpl.
      replace (MAX_EVENTS - length acc)%nat with (S (MAX_EVENTS - (length acc + 1))) by lia.
      simpl. by rewrite <- app_assoc.
    + replace (MAX_EVENTS - length acc)%nat with 0%nat by lia. done.
Qed.

(** A retained submission reads back exactly its own events. *)
Lemma submission_events_exact s record pre evs post first :
  events s = pre ++ evs ++ post -> sub_first_ordinal record = Some first -> 0 <= first ->
  sub_event_count record = Z.of_nat (length evs) -> first + Z.of_nat (length evs) <= U32_MAX ->
  numbered_from (sub_log_index record) first evs ->
  Forall (fun e => id_lt (e_event_id e) (mkEventId (sub_log_index record) first)) pre ->
  Forall (id_ge (sub_log_index record) (first + Z.of_nat (length evs))) post ->
  submission_events record s = (take MAX_EVENTS evs, bool_decide (MAX_EVENTS < length evs)%nat).
Proof.
  intros Hw Hfo Hf Hc Hmax Hn Hpre Hpost. unfold submission_events. rewrite Hw, Hfo. simpl.
  assert (Hown : Forall (fun e => ev_log_index (e_event_id e) = sub_log_index record /\
                   first <= ev_ordinal (e_event_id e) < first + Z.of_nat (length evs)) evs).
  { apply Forall_forall. intros e He. destruct (numbered_ids _ _ _ _ Hn He) as (i & Hi & ->).
    simpl. lia. }
  rewrite take_while_app; [|exact Hpre|].
  2:{ apply Forall_app. split.
      - eapply Forall_impl; [exact Hown|]. intros e [El Eo]. unfold event_id_ltb. simpl. lia.
      - eapply Forall_impl; [exact Hpost|]. unfold id_ge, event_id_ltb. simpl. intros e. lia. }
  rewrite drop_app_length. unfold saturating_add_u32. rewrite Hc, Z.min_r by lia.
  rewrite submission_loop_own; rewrite ?Hfo; try done; try lia.
  - rewrite Nat.sub_0_r, Z.ltb_irrefl, orb_false_r. simpl. f_equal.
    apply eq_true_iff_eq. rewrite Z.ltb_lt, bool_decide_eq_true. lia.
  - eapply Forall_impl; [exact Hown|]. simpl. lia.
Qed.
End Retry.

(** ** Pages of the event log *)
Section Pages.
Context `{RaftTypes}.
Implicit Types s : StateMachineStoreInner.

(** The events after a cursor. *)
Definition after_cursor (after : option EventId) (l : list MatchEvent) : list MatchEvent :=
  filter (fun e => match after with
                   | Some cursor => event_id_leb (e_event_id e) cursor
                   | None => false
                   end = false) l.

Lemma events_since_loop_spec after limit l : forall acc,
  (length acc <= limit)%nat ->
  events_since_loop after limit l acc =
  (acc ++ take (limit - length acc) (after_cursor after l),
   bool_decide (limit < length acc + length (after_cursor after l))%nat).
Proof.
  induction l as [|e l IH]; intros acc Hacc; simpl.
  - unfold after_cursor. rewrite filter_nil, take_nil, app_nil_r.
    rewrite bool_decide_eq_false_2; [done|]. simpl. lia.
  - unfold after_cursor in *. rewrite filter_cons.
    destruct (match after with Some _ => _ | None => _ end) eqn:E.
    + rewrite decide_False by congruence. by apply IH.
    + rewrite decide_True by done. case_bool_decide as Hfull.
      * rewrite Hfull, Nat.sub_diag. simpl. rewrite app_nil_r, bool_decide_eq_true_2; [done|]. lia.
      * rewrite IH by (rewrite length_app; simpl; lia). rewrite length_app. simpl.
        replace (limit - length acc)%nat with (S (limit - (length acc + 1))) by lia. simpl.
        rewrite <- app_assoc. f_equal. by apply bool_decide_ext; lia.
Qed.

Lemma events_since_spec after limit s :
  let later := after_cursor after (events s) in
  events_since after limit s =
  (take limit later,
   match last (take limit later) with Some e => Some (e_event_id e) | None => after end,
   bool_decide (limit < length later)%nat).
Proof.
  intros later. unfold events_since. rewrite events_since_loop_spec by (simpl; lia).
  simpl. by rewrite Nat.sub_0_r.
Qed.

(** On a sorted window, the events after the [n]-th event are the rest of the window. *)
Lemma after_cursor_sorted pre e post :
  StronglySorted id_lt (e_event_id <$> (pre ++ e :: post)) ->
  after_cursor (Some (e_event_id e)) (pre ++ e :: post) = post.
Proof.
  intros Hs. unfold after_cursor. rewrite filter_app, filter_cons.
  assert (Hpre : forall x, x ∈ pre -> id_lt (e_event_id x) (e_event_id e)).
  { intros x Hx. rewrite fmap_app in Hs. apply strongly_sorted_app_inv in Hs as (_ & _ & Hc).
    apply Hc; [apply list_elem_of_fmap; eauto|]. left. }
  assert (Hpost : forall x, x ∈ post -> id_lt (e_event_id e) (e_event_id x)).
  { intros x Hx. rewrite fmap_app in Hs. apply strongly_sorted_app_inv in Hs as (_ & Hs & _).
    rewrite fmap_cons in Hs. inversion Hs as [|? ? _ Hf]; subst. rewrite Forall_fmap, Forall_forall in Hf.
    by apply Hf. }
  assert (Hirr : event_id_leb (e_event_id e) (e_event_id e) = true).
  { unfold event_id_leb, event_id_ltb. lia. }
  rewrite (decide_False (P := event_id_leb (e_event_id e) (e_event_id e) = false)) by congruence.
  rewrite list_filter_none, list_filter_all; [done| |].
  - intros x Hx. specialize (Hpost x Hx). unfold id_lt, event_id_leb in *. by rewrite Hpost.
  - intros x Hx. specialize (Hpre x Hx). unfold id_lt, event_id_leb, event_id_ltb in *. lia.
Qed.

(** A reader that follows [next_after] until [has_more] is false. *)
Fixpoint drain (fuel : nat) (after : option EventId) (limit : nat) s
    : option (list MatchEvent) :=
  match fuel with
  | O => None
  | S fuel =>
      let '(page, next, has_more) := events_since after limit s in
      if has_more then app page <$> drain fuel next limit s else Some page
  end.

Lemma drain_window limit s :
  events_sorted s -> (0 < limit)%nat ->
  forall fuel after later, (length later < fuel)%nat ->
  after_cursor after (events s) = later -> later `suffix_of` events s ->
  drain fuel after limit s = Some later.
Proof.
  intros Hs Hl. induction fuel as [|fuel IH]; intros after later Hf He [pre Hsuf]; [lia|].
  cbn [drain]. rewrite events_since_spec, He. cbv zeta. case_bool_decide as Hmore.
  - revert Hsuf Hf Hmore. generalize dependent later. intros later _ Hsuf Hf Hmore.
    assert (Hsplit : exists page e rest, later = (page ++ [e]) ++ rest /\
              length (page ++ [e]) = limit).
    { destruct (take limit later) as [|x l] eqn:Et using rev_ind.
      - apply (f_equal length) in Et. rewrite length_take in Et. simpl in Et. lia.
      - exists l, x, (drop limit later). split; [by rewrite <- Et, take_drop|].
        rewrite <- Et, length_take. lia. }
    destruct Hsplit as (page & e & rest & Hlater & Hlen). subst later.
    rewrite take_app_length' by done. rewrite last_snoc.
    rewrite (IH (Some (e_event_id e)) rest); [done| | |].
    + rewrite length_app, Hlen in Hf. lia.
    + rewrite Hsuf. rewrite <- app_assoc, app_assoc. simpl.
      apply after_cursor_sorted. rewrite <- app_assoc. simpl.
      unfold events_sorted in Hs. by rewrite Hsuf, <- app_assoc in Hs.
    + exists (pre ++ page ++ [e]). rewrite Hsuf. by rewrite !app_assoc.
  - rewrite take_ge by lia. done.
Qed.
End Pages.

(** ** Restoring a snapshot *)

Section Rebuild.
Context {K : Type} `{BookKeyLaws K}.
Implicit Types m : list (K * Order).

Definition insert_all (os : list Order) m : list (K * Order) :=
  foldl (fun m o => bt_insert (key_of (o_price o) (o_sequence o)) o m) m os.

Lemma insert_all_spec m : forall acc,
  side_ok (acc ++ m) -> bt_sorted acc ->
  insert_all (bt_values m) acc = acc ++ m.
Proof.
  induction m as [|[k o] m IH]; intros acc Hok Hacc; unfold insert_all, bt_values in *; simpl.
  - by rewrite app_nil_r.
  - destruct Hok as [Hs Hm].
    assert (Ek : k = key_of (o_price o) (o_sequence o)).
    { rewrite Forall_forall in Hm. apply (mk_key (k, o)), Hm, elem_of_app. right. left. }
    assert (Hfresh : bt_get k acc = None).
    { destruct (bt_get k acc) as [o'|] eqn:Eg; [|done]. exfalso.
      apply bt_get_elem in Eg; [|done].
      unfold bt_sorted in Hs. rewrite fmap_app in Hs.
      apply strongly_sorted_app_inv in Hs as (_ & _ & Hlt).
      apply (key_lt_irrefl k), Hlt; [apply list_elem_of_fmap; by exists (k, o')|left]. }
    assert (Hins : bt_insert k o acc = acc ++ [(k, o)]).
    { apply bt_sorted_unique; [by apply bt_insert_sorted| |].
      - unfold bt_sorted in *. rewrite cons_middle, app_assoc, fmap_app in Hs.
        by apply strongly_sorted_app_inv in Hs as (Hs & _ & _).
      - rewrite bt_insert_fresh by done. by rewrite Permutation_app_comm. }
    rewrite <- Ek, Hins. rewrite IH; [by rewrite <- app_assoc|by rewrite <- app_assoc|].
    rewrite <- Hins. by apply bt_insert_sorted.
Qed.

Lemma insert_all_rebuild m : side_ok m -> insert_all (bt_values m) [] = m.
Proof. intros Hok. by rewrite (insert_all_spec m []) by (done || apply bt_sorted_nil). Qed.
End Rebuild.

Lemma insert_bids os : forall b,
  Forall (fun o => o_side o = Buy) os ->
  foldl (fun b o => insert_order o b) b os = set_bids (insert_all os (bids b)) b.
Proof.
  induction os as [|o os IH]; intros b Ho; simpl; [by destruct b|].
  inversion Ho as [|? ? E Hos]; subst. rewrite IH by done.
  unfold insert_order, insert_all. rewrite E. done.
Qed.

Lemma insert_asks os : forall b,
  Forall (fun o => o_side o = Sell) os ->
  foldl (fun b o => insert_order o b) b os = set_asks (insert_all os (asks b)) b.
Proof.
  induction os as [|o os IH]; intros b Ho; simpl; [by destruct b|].
  inversion Ho as [|? ? E Hos]; subst. rewrite IH by done.
  unfold insert_order, insert_all. rewrite E. done.
Qed.

Section Install.
Context `{RaftTypes}.
Implicit Types s : StateMachineStoreInner.

(** Two books with the same orders, numbering and last price. *)
Record same_book (b b' : OrderBook) : Prop := {
  eq_bids : bids b' = bids b;
  eq_asks : asks b' = asks b;
  eq_stops : stops b' = stops b;
  eq_sequence : book_sequence b' = book_sequence b;
  eq_last : last_trade_price b' = last_trade_price b;
}.

(** Rebuilding the deadline index of a book with the orders of a sound one gives a sound one. *)
Lemma rebuild_ok b b' :
  book_ok b /\ quiescent b -> same_book b b' ->
  book_ok (rebuild_derived_indexes b') /\ quiescent (rebuild_derived_indexes b') /\
  same_book b (rebuild_derived_indexes b').
Proof.
  intros [[Hb Ha Hu Hs [Hn Hbel _] Hpos] Hq] [Eb Ea Es Eq El].
  assert (Eall : all_orders (rebuild_derived_indexes b') = all_orders b).
  { unfold all_orders. simpl. by rewrite Eb, Ea, Es. }
  split_and!.
  - unfold book_ok. simpl. rewrite Eq. split; simpl; rewrite ?Eb, ?Ea, ?Es; try done.
    + unfold uncrossed. simpl. by rewrite Eb, Ea.
    + unfold book_ids. rewrite Eall. split; [done|done|]. apply Forall_fmap, Forall_forall.
      intros o Ho. apply (note_expiry_foldl_covered _ None o). right.
      unfold all_orders in *. simpl. by rewrite Eb, Ea, Es.
  - unfold quiescent in *. simpl. by rewrite El, Es.
  - by split.
Qed.

Lemma install_book s s0 :
  sm_ok s ->
  same_book (orderbook s) (orderbook (install_content (serialized (to_content s)) s0)) /\
  book_ok (orderbook (install_content (serialized (to_content s)) s0)) /\
  quiescent (orderbook (install_content (serialized (to_content s)) s0)).
Proof.
  intros Hs. pose proof (sm_book _ Hs) as Hbook. pose proof (proj1 Hbook) as [[Hsb Hmb] [Hsa Hma] _ _ _ _].
  set (s' := install_content _ s0).
  set (b1 := set_last_trade_price (last_trade_price (orderbook s))
               (set_book_sequence (book_sequence (orderbook s))
                  (set_stops [] (set_bids [] (set_asks [] (orderbook s0)))))).
  set (b2 := foldl (fun b order => insert_order order b) b1 (orders s)).
  set (b3 := (take_depth_journal (set_stops (stops b2 ++ stops (orderbook s)) b2)).2).
  assert (E : orderbook s' = rebuild_derived_indexes b3).
  { unfold s', install_content, trim_submissions, trim_events. cbn [sd_submissions serialized].
    by repeat case_match; simplify_eq. }
  assert (Hsides : Forall (fun o => o_side o = Buy) (bt_values (bids (orderbook s))) /\
            Forall (fun o => o_side o = Sell) (bt_values (asks (orderbook s)))).
  { split; apply Forall_fmap; (eapply Forall_impl; [eassumption|]); intros [k o] Hk; apply (mk_side _ Hk). }
  assert (Hb2 : b2 = set_asks (asks (orderbook s)) (set_bids (bids (orderbook s)) b1)).
  { unfold b2, orders. rewrite foldl_app, (insert_bids (bt_values (bids (orderbook s)))) by apply Hsides.
    rewrite (insert_asks (bt_values (asks (orderbook s)))) by apply Hsides. simpl.
    by rewrite (insert_all_rebuild (bids (orderbook s))), (insert_all_rebuild (asks (orderbook s))). }
  assert (Hsame : same_book (orderbook s) b3) by (unfold b3; rewrite Hb2; by split).
  destruct (rebuild_ok _ _ Hbook Hsame) as (Hok & Hq & Hs'). by rewrite E.
Qed.

Lemma subs_rebuild l : NoDup (sub_client_order_id <$> l) ->
  subs_ok l (foldl (fun (m : gmap string SubmissionRecord) r => <[sub_client_order_id r := r]> m) ∅ l).
Proof.
  induction l as [|r l IH] using rev_ind; intros Hn; [by split|].
  rewrite fmap_app in Hn. apply NoDup_app in Hn as (Hn & Hd & _).
  rewrite foldl_snoc. apply subs_ok_snoc; [by apply IH|].
  destruct (IH Hn) as [_ ->]. apply records_lookup_None. intros Hin. apply (Hd _ Hin). left.
Qed.

(** A restored store has the content it was built from, less the skipped ordinals. *)
Lemma install_to_content s s0 :
  sm_ok s -> max_events s0 = max_events s -> max_submissions s0 = max_submissions s ->
  let s' := install_content (serialized (to_content s)) s0 in
  to_content s' = serialized (to_content s) /\ sm_ok s' /\
  same_book (orderbook s) (orderbook s') /\
  (forall id, submissions s' !! id = skip_first_ordinal <$> submissions s !! id) /\
  max_events s' = max_events s /\ max_submissions s' = max_submissions s /\
  last_applied_log s' = last_applied_log s0 /\ last_membership s' = last_membership s0.
Proof.
  intros Hs Le Ls s'. destruct (install_book s s0 Hs) as (Hsame & Hok & Hq). fold s' in Hsame, Hok, Hq.
  pose proof (sm_config _ Hs) as Hcfg. unfold config_ok in Hcfg.
  pose proof (sm_subs _ Hs) as [Hn Em]. pose proof (sm_counters _ Hs) as [He1 He2].
  set (subs := skip_first_ordinal <$> submission_order s).
  assert (Hids : sub_client_order_id <$> subs = sub_client_order_id <$> submission_order s).
  { unfold subs. by rewrite <- list_fmap_compose. }
  pose proof (subs_rebuild subs ltac:(by rewrite Hids)) as Hsub.
  destruct (trim_submissions_loop_ok (max_submissions s) _ _ (submissions_evicted s) Hsub He2)
    as (m' & Et & Hok').
  assert (Hlen : length subs = length (submission_order s)) by apply length_fmap.
  rewrite Hlen in Et, Hok'.
  assert (Hk : (length (submission_order s) - max_submissions s = 0)%nat)
    by (pose proof (sm_subs_bound _ Hs); lia).
  rewrite Hk, drop_0, Z.add_0_r, wrap_u64_id in Et by done. rewrite Hk, drop_0 in Hok'.
  assert (Estate : exists b,
    s' = mkInner (last_applied_log s0) (last_membership s0) b (symbol_config s) (symbol_locked s)
           (current_snapshot s0) (market_data s0) (events s) (events_evicted s) m' subs
           (submissions_evicted s) (max_events s0) (max_submissions s0)).
  { unfold s', install_content. change (sd_symbol_config (serialized (to_content s))) with (symbol_config s).
    rewrite Hcfg. set (b := rebuild_derived_indexes _). clearbody b. exists b.
    unfold trim_submissions, trim_events.
    cbn [max_events events events_evicted set_events set_submissions set_orderbook set_symbol
         serialized to_content sd_events sd_events_evicted sd_submissions sd_submissions_evicted].
    fold subs. rewrite Le, trim_front_drop, (drop_none (events s)) by (done || apply Hs).
    cbn [max_submissions submission_order submissions submissions_evicted set_events
         set_submissions set_orderbook set_symbol].
    rewrite Ls, Et.
    replace (length (events s) - max_events s)%nat with 0%nat by (pose proof (sm_events_bound _ Hs); lia).
    rewrite Z.add_0_r, wrap_u64_id, <- Le, <- Ls by done. done. }
  destruct Estate as [b Eb]. rewrite Eb in Hsame, Hok, Hq |- *. cbn in Hsame, Hok, Hq.
  split_and!; try done.
  - unfold to_content, serialized. cbn. destruct Hsame as [-> -> -> -> ->]. done.
  - split; cbn; try done; try congruence; try (by rewrite Le; apply Hs).
    rewrite Ls. unfold subs. rewrite length_fmap. apply Hs.
  - intros id. cbn. destruct Hok' as [_ ->]. rewrite Em.
    destruct (decide (id ∈ sub_client_order_id <$> submission_order s)) as [Hin|Hnin].
    + apply list_elem_of_fmap in Hin as (r & -> & Hr). rewrite (records_lookup (submission_order s)) by done. simpl.
      change (sub_client_order_id r) with (sub_client_order_id (skip_first_ordinal r)).
      apply records_lookup; [by rewrite Hids|]. apply list_elem_of_fmap. eauto.
    + rewrite (records_lookup_None (submission_order s)) by done.
      by rewrite records_lookup_None by (by rewrite Hids).
Qed.
End Install.

(** ** Windows that were never trimmed *)

Lemma untrimmed_two `{RaftTypes} (s s1 s2 : StateMachineStoreInner) evs1 evs2 :
  events s1 = drop (length (events s ++ evs1) - max_events s) (events s ++ evs1) ->
  events s2 = drop (length (events s1 ++ evs2) - max_events s) (events s1 ++ evs2) ->
  (length (events s2) < max_events s)%nat ->
  events s1 = events s ++ evs1 /\ events s2 = (events s ++ evs1) ++ evs2.
Proof.
  intros E1 E2 Hroom. rewrite E2, length_drop in Hroom.
  assert (L1 : (length (events s ++ evs1) <= max_events s)%nat).
  { pose proof (f_equal length E1) as El. rewrite length_drop in El.
    rewrite length_app in Hroom. lia. }
  rewrite (drop_none (events s ++ evs1)) in E1 by done. split; [done|].
  rewrite E2, E1, drop_none; [done|]. rewrite E1 in Hroom. lia.
Qed.

(** Two growths of a bounded window keep what they brought, if that fits, and a back of what was there. *)
Lemma window_keeps_back {A} (l l1 l2 new1 new2 : list A) (max : nat) :
  l1 = drop (length (l ++ new1) - max) (l ++ new1) ->
  l2 = drop (length (l1 ++ new2) - max) (l1 ++ new2) ->
  (length new1 + length new2 <= max)%nat ->
  exists n, l2 = drop n l ++ new1 ++ new2.
Proof.
  intros E1 E2 Hroom. rewrite length_app in E1. rewrite drop_app_le in E1 by lia.
  set (n := (length l + length new1 - max)%nat) in E1. rewrite E1, <- app_assoc in E2.
  rewrite drop_app_le in E2 by (rewrite length_app, !length_drop, length_app; lia).
  rewrite drop_drop in E2. by eexists.
Qed.

(** ** The symbol fields through a request *)
Section Symbol.
Context `{RaftTypes}.
Implicit Types s : StateMachineStoreInner.

Definition symbol_of s : SymbolConfig * bool := (symbol_config s, symbol_locked s).

Lemma record_events_symbol evs s : symbol_of (record_events evs s) = symbol_of s.
Proof. unfold record_events, trim_events. by destruct (trim_front _ _ _). Qed.

Lemma record_submission_symbol id q li f c s :
  symbol_of (record_submission id q li f c s) = symbol_of s.
Proof.
  unfold record_submission, trim_submissions. by destruct (trim_submissions_loop _ _ _ _) as [[? ?] ?].
Qed.

Lemma take_market_frame_symbol li q ts sym evs s f s' :
  take_market_frame li q ts sym evs s = (f, s') -> symbol_of s' = symbol_of s.
Proof. by intros [->| ->]%take_market_frame_state. Qed.

Lemma finish_symbol li q ts sym evs s fx r n s' fx' :
  finish li q ts sym evs s fx = (r, n, s', fx') -> symbol_of s' = symbol_of s.
Proof.
  unfold finish. destruct (take_market_frame _ _ _ _ _ _) as [f s2] eqn:E. intros [= _ _ <- _].
  by eapply take_market_frame_symbol.
Qed.

(** The tail of the arms that go through [finish]. *)
Lemma finish_record_symbol li q ts sym evs b s fx r n s' fx' :
  finish li q ts sym evs (record_events evs (set_orderbook b s)) fx = (r, n, s', fx') ->
  symbol_of s' = symbol_of s.
Proof. intros E%finish_symbol. by rewrite E, record_events_symbol. Qed.

(** Configuration is accepted only before trading, and a refusal changes nothing. *)
Lemma configure_Ok config s u s' :
  configure_symbol config s = (Ok u, s') ->
  symbol_locked s = false /\ orders s = [] /\ stops (orderbook s) = [].
Proof.
  unfold configure_symbol. destruct (validate config) as [c|e]; [|done].
  destruct (symbol_locked s); [done|]. destruct (_ || _)%bool eqn:Eo; [done|]. intros _.
  apply orb_false_iff in Eo as [Eo Es]. apply orb_false_iff in Eo as [Eb Ea].
  apply negb_false_iff, bool_decide_eq_true_1 in Eb, Ea, Es.
  split_and!; [done| |done]. unfold orders. by rewrite Eb, Ea.
Qed.

Lemma configure_Err config s e s' : configure_symbol config s = (Err e, s') -> s' = s.
Proof.
  unfold configure_symbol. destruct (validate config) as [c|e']; [|by intros [= _ <-]].
  destruct (symbol_locked s); [by intros [= _ <-]|]. destruct (_ || _)%bool; [by intros [= _ <-]|done].
Qed.

Context `{I256Ops}.

(** A [Place] keeps the configuration, and locks it unless it is rejected or a duplicate. *)
Lemma apply_place_symbol order cid li first s fx resp n s' fx' :
  apply_place order cid li first s fx = Ret (resp, n, s', fx') ->
  symbol_config s' = symbol_config s /\ (symbol_locked s = true -> symbol_locked s' = true) /\
  (symbol_locked s' = true \/
   (exists e, rs_events resp = [e] /\ e_kind e = Rejected) \/
   exists id, cid = Some id /\ is_Some (submissions s !! id)).
Proof.
  unfold apply_place. destruct (match cid with Some id => _ | None => None end) as [r|] eqn:Er.
  { intros [= <- <- <- <-]. split_and!; [done|done|]. right. right.
    destruct cid as [id|]; [|done]. exists id. by rewrite Er. }
  destruct (match configured_symbol_for order s with Ok _ => _ | Err _ => _ end)
    as [[[out o] b]| |]; simpl comp_bind; [|done|done].
  set (s1 := match out_rejected out with None => _ | Some _ => _ end).
  set (evs := place_events li first o out).
  set (s2 := match cid with Some _ => _ | None => _ end).
  assert (E2 : symbol_of s2 = symbol_of s1).
  { subst s2. destruct cid; rewrite ?record_submission_symbol; apply record_events_symbol. }
  destruct (take_market_frame _ _ _ _ _ _) as [f s3] eqn:Ef.
  apply take_market_frame_symbol in Ef. rewrite E2 in Ef. intros [= <- <- <- <-].
  injection Ef as Ec El. rewrite Ec, El. unfold s1. destruct (out_rejected out) as [reason|] eqn:Eo; simpl.
  - split_and!; [done|done|]. right. left. unfold evs, place_events. rewrite Eo. by eexists.
  - split_and!; [done|done|]. by left.
Qed.

Lemma apply_one_symbol node r li first s fx resp n s' fx' :
  apply_one node r li first s fx = Ret (resp, n, s', fx') ->
  (forall config, r <> ConfigureSymbol config) ->
  symbol_config s' = symbol_config s /\ (symbol_locked s = true -> symbol_locked s' = true).
Proof.
  intros E Hr.
  assert (Hdone : symbol_of s' = symbol_of s ->
            symbol_config s' = symbol_config s /\ (symbol_locked s = true -> symbol_locked s' = true)).
  { intros [= -> ->]. done. }
  destruct r as [o cid|o|o p v|now day|config|rs]; simpl in E.
  - by destruct (apply_place_symbol _ _ _ _ _ _ _ _ _ _ E) as (? & ? & _).
  - apply Hdone. unfold apply_cancel in E. destruct (next_market_sequence _) as [q b].
    repeat (apply comp_bind_Ret in E as ([? ?] & _ & E)). injection E as E. by eapply finish_record_symbol.
  - apply Hdone. unfold apply_amend in E. destruct (next_market_sequence _) as [q b].
    repeat (apply comp_bind_Ret in E as ([? ?] & _ & E)). injection E as E. by eapply finish_record_symbol.
  - apply Hdone. unfold apply_purge in E. destruct (next_market_sequence _) as [q b].
    repeat (apply comp_bind_Ret in E as ([? ?] & _ & E)). injection E as E. by eapply finish_record_symbol.
  - by destruct (Hr config).
  - by simplify_eq.
Qed.
End Symbol.
