(* ===== verification/Replica.v ===== *)
(** * Replicas agree

    The state of a replica has a replicated part and a local one: the depth journal and whether it
    is recorded, the market-data tap, the deadline index (exact after a restart, conservative while
    running), the kept snapshot, the feed control and the clock. This file shows that the local
    part never leaks into the replicated one: every operation maps replicas that agree to replicas
    that agree, so applying the same entries gives the same responses and the same state, also on a
    replica that was restored from a snapshot in between. *)

From stdpp Require Import strings gmap.
From S2P Require Import Prelude BTree Fixed Order OrderBook Sweep BookInv BookOps Purge Change.
From S2P Require Import Execute Book MatchEvent StateMachine StateInv StateReads.

(** ** Relating computations *)

Definition comp_rel {A B} (R : A -> B -> Prop) (x : Comp A) (y : Comp B) : Prop :=
  match x, y with
  | Ret a, Ret b => R a b
  | Panic, Panic => True
  | Diverged, Diverged => True
  | _, _ => False
  end.

Lemma comp_rel_bind {A B A' B'} (R : A -> B -> Prop) (R' : A' -> B' -> Prop) x y f g :
  comp_rel R x y -> (forall a b, R a b -> comp_rel R' (f a) (g b)) ->
  comp_rel R' (comp_bind f x) (comp_bind g y).
Proof. intros Hx Hf. destruct x, y; simpl in *; try done. by apply Hf. Qed.

Lemma comp_rel_refl {A} (x : Comp A) : comp_rel eq x x.
Proof. by destruct x. Qed.

(** Two loops whose turns correspond stop together. *)
Lemma loop_map {S S' R R'} (step : S -> S + R) (step' : S' -> S' + R') (f : S -> S') (g : R -> R') :
  (forall s, step' (f s) = match step s with inl s' => inl (f s') | inr r => inr (g r) end) ->
  forall fuel s, loop step' fuel (f s) =
    match loop step fuel s with inl s' => inl (f s') | inr r => inr (g r) end.
Proof.
  intros Hstep fuel. induction fuel as [p IH|p IH|]; intros s; simpl; [| |apply Hstep].
  - rewrite Hstep. destruct (step s) as [s1|r]; [|done]. rewrite IH.
    destruct (loop step p s1) as [s2|r]; [apply IH|done].
  - rewrite IH. destruct (loop step p s) as [s2|r]; [apply IH|done].
Qed.

(** ** The book: what does not depend on the journal and the deadline index *)

#[global] Instance same_book_equiv : Equivalence same_book.
Proof.
  split.
  - by split.
  - intros b b' []. by split.
  - intros b1 b2 b3 [] []. split; congruence.
Qed.

(** Results that carry a book agree when the values are equal and the books hold the same orders. *)
Definition agrees {A} (p q : A * OrderBook) : Prop := p.1 = q.1 /\ same_book p.2 q.2.

Ltac same_fields H :=
  let Eb := fresh "Eb" in let Ea := fresh "Ea" in let Es := fresh "Es" in
  let Eq := fresh "Eq" in let El := fresh "El" in
  destruct H as [Eb Ea Es Eq El].

Section SweepLocal.
Context `{I256Ops} {K : Type} `{BookKey K}.

Definition local_env (env : SweepEnv) : SweepEnv :=
  mkSweepEnv (sw_order env) (sw_limit env) (sw_config env) false false.
Definition local_state (s : SweepState K) : SweepState K :=
  mkSweepState (sw_resting s) (sw_results s) (sw_remaining s) [] false.

Lemma sweep_step_local env s :
  sweep_step (local_env env) (local_state s) =
  match sweep_step env s with
  | inl s' => inl (local_state s')
  | inr r => inr (comp_bind (fun s => Ret (local_state s)) r)
  end.
Proof.
  unfold sweep_step. cbn [local_env local_state sw_order sw_limit sw_config sw_record sw_track_gtd
    sw_resting sw_results sw_remaining sw_journal sw_gtd_dirty].
  destruct (negb (FIXED_ZERO <? sw_remaining s)); [done|].
  destruct (sw_resting s) as [|[key maker] others]; [done|].
  destruct (negb (crosses _ _ _)); [done|].
  destruct (match_volume _ _ _ _) as [v| |]; [|done|done].
  destruct (v <=? FIXED_ZERO); [done|]. destruct (negb _ && negb _); [done|].
  destruct (FIXED_ZERO <? fixed_sub (o_volume maker) v); [done|].
  destruct (_ <=? FIXED_ZERO), (FIXED_ZERO <? o_hidden_volume maker); done.
Qed.

Lemma sweep_side_local env resting journal dirty :
  sweep_side (local_env env) resting [] false =
  comp_bind (fun s => Ret (local_state s)) (sweep_side env resting journal dirty).
Proof.
  unfold sweep_side.
  change (mkSweepState resting [] (o_volume (sw_order (local_env env))) [] false) with
    (local_state (mkSweepState resting [] (o_volume (sw_order env)) journal dirty)).
  rewrite (loop_map (sweep_step env) (sweep_step (local_env env)) local_state
             (comp_bind (fun s => Ret (local_state s))) (sweep_step_local env)).
  by destruct (loop _ _ _).
Qed.

(** Two sweeps of the same side by the same order agree whatever they journal. *)
Lemma sweep_side_agree env env' resting j j' d d' :
  local_env env = local_env env' ->
  comp_rel (fun s s' => local_state s = local_state s')
    (sweep_side env resting j d) (sweep_side env' resting j' d').
Proof.
  intros He. pose proof (sweep_side_local env resting j d) as E1.
  pose proof (sweep_side_local env' resting j' d') as E2. rewrite He, E2 in E1.
  destruct (sweep_side env _ _ _), (sweep_side env' _ _ _); cbn [comp_bind comp_rel] in *; try done; congruence.
Qed.
End SweepLocal.

Section BookLocal.
Context `{I256Ops}.

Lemma sweep_agree order limit config b b' :
  same_book b b' -> comp_rel agrees (sweep order limit config b) (sweep order limit config b').
Proof.
  intros Hs. unfold sweep. same_fields Hs.
  destruct (o_side order); [rewrite Ea|rewrite Eb];
    (eapply comp_rel_bind; [by apply sweep_side_agree|]);
    intros s s' [= E1 E2 E3]; (split; [simpl; congruence|]); by split; simpl.
Qed.

Lemma note_print_agree fills b b' :
  same_book b b' -> same_book (note_print fills b) (note_print fills b').
Proof. intros [? ? ? ? ?]. unfold note_print. destruct (last fills); by split. Qed.

Lemma run_stops_loop_agree fuel : forall triggers config b b',
  same_book b b' ->
  comp_rel agrees (run_stops_loop fuel triggers config b) (run_stops_loop fuel triggers config b').
Proof.
  induction fuel as [|fuel IH]; intros triggers config b b' Hs; [done|]. simpl.
  rewrite (eq_last _ _ Hs), (eq_stops _ _ Hs).
  destruct (last_trade_price b) as [p|]; [|by split].
  destruct (position _ _) as [i|]; [|by split].
  destruct (vec_remove i (stops b)) as [[stop others]|]; [|done]. simpl.
  eapply comp_rel_bind.
  - apply sweep_agree. same_fields Hs. by destruct (is_gtd (o_tif stop)); split.
  - intros [[fills rem] b1] [[fills' rem'] b1'] [[= <- <-] Hb]. apply IH. by apply note_print_agree.
Qed.

Lemma rest_agree order total b b' :
  same_book b b' -> agrees (rest order total b) (rest order total b').
Proof.
  intros Hs. same_fields Hs. unfold rest, agrees. simpl. split; [done|].
  destruct (o_side order); split; simpl; congruence.
Qed.

Lemma would_cross_agree order b b' : same_book b b' -> would_cross order b' = would_cross order b.
Proof. intros [Eb Ea _ _ _]. unfold would_cross, best_ask, best_bid. by rewrite Eb, Ea. Qed.

Lemma fillable_agree order b b' : same_book b b' -> fillable_volume order b' = fillable_volume order b.
Proof. intros [Eb Ea _ _ _]. unfold fillable_volume. by rewrite Eb, Ea. Qed.

Lemma run_stops_agree out config b b' :
  same_book b b' -> comp_rel agrees (run_stops out config b) (run_stops out config b').
Proof.
  intros Hs. unfold run_stops. rewrite (eq_stops _ _ Hs).
  eapply comp_rel_bind; [by apply run_stops_loop_agree|].
  intros [ts b1] [ts' b1'] [[= <-] Hb]. by split.
Qed.

Lemma execute_admitted_agree order config seq expired b b' :
  same_book b b' ->
  comp_rel agrees (execute_admitted order config seq expired b)
    (execute_admitted order config seq expired b').
Proof.
  intros Hs. unfold execute_admitted.
  rewrite (eq_last _ _ Hs), (would_cross_agree _ _ _ Hs), (fillable_agree _ _ _ Hs).
  destruct (is_stop order).
  - destruct (match last_trade_price b with Some last => _ | None => _ end); [by split|].
    same_fields Hs. split; [done|]. split; simpl; congruence.
  - destruct (o_post_only order).
    + destruct (would_cross order b); [by split|].
      destruct (rest_agree order (o_volume order) b b' Hs) as [Er Hr].
      destruct (rest order _ b), (rest order _ b'). simpl in Er, Hr. subst. by split.
    + destruct (bool_decide _ && _); [by split|].
      eapply comp_rel_bind; [by apply sweep_agree|].
      intros [[fills rem] b1] [[fills' rem'] b1'] [[= <- <-] Hb].
      destruct (FIXED_ZERO <? rem); [|by apply run_stops_agree, note_print_agree].
      destruct (_ || _ || _); [by apply run_stops_agree, note_print_agree|].
      destruct (rest_agree order rem b1 b1' Hb) as [Er Hr].
      destruct (rest order rem b1), (rest order rem b1'). simpl in Er, Hr. subst.
      by apply run_stops_agree, note_print_agree.
Qed.

Lemma entries_of_orders {K} `{BookKey K} (m : list (K * Order)) :
  Forall maker_ok m -> m = (fun o => (key_of (o_price o) (o_sequence o), o)) <$> bt_values m.
Proof.
  induction 1 as [|[k o] m Hm _ IH]; [done|]. simpl. f_equal; [|exact IH].
  pose proof (mk_key _ Hm) as E. simpl in E. by rewrite <- E.
Qed.

(** Sound books with the same orders have the same entries. *)
Lemma same_orders_book n n' b b' :
  book_inv n b -> book_inv n' b' -> (forall side, side_orders side b' = side_orders side b) ->
  stops b' = stops b -> book_sequence b' = book_sequence b ->
  last_trade_price b' = last_trade_price b -> same_book b b'.
Proof.
  intros Hi Hi' Ho Hs Hq Hl. split; try done.
  - rewrite (entries_of_orders (bids b')) by apply Hi'. rewrite (entries_of_orders (bids b)) by apply Hi.
    exact (f_equal (fmap _) (Ho Buy)).
  - rewrite (entries_of_orders (asks b')) by apply Hi'. rewrite (entries_of_orders (asks b)) by apply Hi.
    exact (f_equal (fmap _) (Ho Sell)).
Qed.

(** What a purge removes and leaves does not depend on how the deadline index found it. *)
Lemma purged_agree f n n' b b' removed removed' c c' :
  same_book b b' -> book_inv n b -> book_inv n' b' ->
  purged f b removed c -> purged f b' removed' c' -> removed = removed' /\ same_book c c'.
Proof.
  intros Hs Hi Hi' P P'. same_fields Hs.
  assert (Eall : all_orders b' = all_orders b) by (unfold all_orders; by rewrite Eb, Ea, Es).
  split; [by rewrite (pu_removed _ _ _ _ P), (pu_removed _ _ _ _ P'), Eall|].
  destruct (pu_frame _ _ _ _ P) as [F1 F2]. destruct (pu_frame _ _ _ _ P') as [F1' F2'].
  apply (same_orders_book n n'); try congruence.
  - by apply P.
  - by apply P'.
  - intros side. rewrite (pu_sides _ _ _ _ P), (pu_sides _ _ _ _ P').
    destruct side; simpl; by rewrite ?Eb, ?Ea.
  - by rewrite (pu_stops _ _ _ _ P), (pu_stops _ _ _ _ P'), Es.
Qed.

Lemma auto_purge_agree n n' now b b' :
  same_book b b' -> book_inv n b -> book_inv n' b' ->
  comp_rel agrees (auto_purge now b) (auto_purge now b').
Proof.
  intros Hs Hi Hi'. destruct (automatic_purge n now b Hi) as (removed & c & E & P).
  destruct (automatic_purge n' now b' Hi') as (removed' & c' & E' & P').
  unfold auto_purge. rewrite E, E'. exact (purged_agree _ _ _ _ _ _ _ _ _ Hs Hi Hi' P P').
Qed.

Lemma purge_expired_agree n n' now day b b' :
  same_book b b' -> book_inv n b -> book_inv n' b' ->
  comp_rel agrees (purge_expired now day b) (purge_expired now day b').
Proof.
  intros Hs Hi Hi'. destruct (purge_expired_spec n now day b Hi) as (removed & c & E & P).
  destruct (purge_expired_spec n' now day b' Hi') as (removed' & c' & E' & P').
  rewrite E, E'. exact (purged_agree _ _ _ _ _ _ _ _ _ Hs Hi Hi' P P').
Qed.

Lemma after_number_agree b b' : same_book b b' -> same_book (after_number b) (after_number b').
Proof. intros [? ? ? Eq ?]. split; simpl; [..|by rewrite Eq|]; done. Qed.

Lemma execute_agree order config n n' b b' :
  same_book b b' -> book_inv n b -> book_inv n' b' ->
  comp_rel agrees (execute_order_inner order config b) (execute_order_inner order config b').
Proof.
  intros Hs Hi Hi'. unfold execute_order_inner, next_market_sequence.
  fold (after_number b) (after_number b'). rewrite (eq_sequence _ _ Hs).
  pose proof (after_number_agree _ _ Hs) as Ha.
  destruct (normalize_order _ config) as [o|[o reason]]; [|by split].
  destruct (match validate_order o with Some reason => _ | None => _ end) as [reason|]; [by split|].
  eapply comp_rel_bind.
  - apply (auto_purge_agree n n'); [done|by apply after_number_inv..].
  - intros [expired c] [expired' c'] [[= <-] Hc].
    eapply comp_rel_bind; [by apply execute_admitted_agree|].
    intros [out d] [out' d'] [[= <-] Hd]. by split.
Qed.

Lemma cancel_agree order b b' :
  same_book b b' -> comp_rel agrees (cancel order b) (cancel order b').
Proof.
  intros Hs. same_fields Hs. unfold cancel. rewrite Es.
  destruct (position _ _) as [i|].
  - destruct (vec_remove i (stops b)) as [[stop others]|]; [|done]. simpl. split; [done|].
    destruct (is_gtd _); by split.
  - rewrite Eb, Ea. destruct (o_side order); destruct (bt_get _ _) as [o|];
      (split; [done|]); simpl; try destruct (is_gtd _); split; simpl; congruence.
Qed.

Lemma amend_agree key price volume seq b b' :
  same_book b b' ->
  comp_rel agrees (amend_with_sequence key price volume seq b)
    (amend_with_sequence key price volume seq b').
Proof.
  intros Hs. pose proof Hs as Hs0. same_fields Hs.
  unfold amend_with_sequence, best_ask, best_bid. rewrite Eb, Ea.
  destruct (match price with Some p => _ | None => _ end); [by split|].
  destruct (match volume with Some v => _ | None => _ end); [by split|].
  destruct (is_stop key); [by split|].
  destruct (match o_side key with Buy => bt_get _ _ | Sell => _ end) as [stored|]; [|by split].
  destruct (negb _); [by split|]. destruct (FIXED_ZERO <? _); [by split|].
  destruct (_ && _); [by split|].
  eapply (comp_rel_bind agrees).
  - destruct (o_side key); (eapply comp_rel_bind; [apply comp_rel_refl|]);
      intros [[am re] m] _ <-; (split; [done|]); by split.
  - intros [[am re] c] [[am' re'] c'] [[= <- <-] Hc]. same_fields Hc. split; [done|].
    destruct re; [by split|]. destruct (negb _); by split.
Qed.
End BookLocal.

(** ** The store *)

Section Stores.
Context `{RaftTypes} `{I256Ops} `{!I256Laws}.
Implicit Types s t : StateMachineStoreInner.

(** What two replicas compare of a dedupe record: all of it, or what a snapshot keeps of it. *)
Definition norm (exact : bool) (r : SubmissionRecord) : SubmissionRecord :=
  if exact then r else skip_first_ordinal r.

(** Two stores agree: the same replicated state, the dedupe records up to [norm]. *)
Record agree (exact : bool) s s' : Prop := {
  ag_applied : last_applied_log s' = last_applied_log s;
  ag_membership : last_membership s' = last_membership s;
  ag_book : same_book (orderbook s) (orderbook s');
  ag_config : symbol_config s' = symbol_config s;
  ag_locked : symbol_locked s' = symbol_locked s;
  ag_events : events s' = events s;
  ag_evicted : events_evicted s' = events_evicted s;
  ag_submissions : norm exact <$> submission_order s' = norm exact <$> submission_order s;
  ag_subs_evicted : submissions_evicted s' = submissions_evicted s;
  ag_max_events : max_events s' = max_events s;
  ag_max_submissions : max_submissions s' = max_submissions s;
}.

(** What they compare of a response: all of it when the dedupe records are the same, and else
    everything but the event list of an answer. *)
Definition summary (r : MatchEngineResponse) : option str * option Z * option str :=
  (rs_value r, rs_sequence r, rs_error r).
Definition reply (exact : bool) (r r' : MatchEngineResponse) : Prop :=
  if exact then r = r' else summary r = summary r' /\ summary <$> rs_batch r = summary <$> rs_batch r'.

Lemma reply_refl exact r : reply exact r r.
Proof. by destruct exact. Qed.

Lemma norm_id exact r : sub_client_order_id (norm exact r) = sub_client_order_id r.
Proof. by destruct exact. Qed.

Lemma records_map_norm exact (l : list SubmissionRecord) :
  (records_map (norm exact <$> l) : gmap string SubmissionRecord) = norm exact <$> records_map l.
Proof.
  rewrite <- list_to_map_fmap. f_equal. rewrite <- !list_fmap_compose. apply list_fmap_ext.
  intros _ r _. simpl. by rewrite norm_id.
Qed.

Lemma lookup_agree exact s s' id :
  sm_ok s -> sm_ok s' -> agree exact s s' ->
  norm exact <$> submissions s' !! id = norm exact <$> submissions s !! id.
Proof.
  intros Hs Hs' Ha. destruct (sm_subs _ Hs) as [_ ->], (sm_subs _ Hs') as [_ ->].
  rewrite <- !lookup_fmap, <- !records_map_norm. by rewrite (ag_submissions _ _ _ Ha).
Qed.

Lemma duplicate_agree exact s s' r r' :
  agree exact s s' -> norm exact r' = norm exact r ->
  reply exact (duplicate_response r s) (duplicate_response r' s').
Proof.
  intros Ha Hr. unfold duplicate_response. destruct exact; simpl in *.
  - subst. unfold submission_events. by rewrite (ag_events _ _ _ Ha).
  - assert (Eseq : sub_order_sequence r' = sub_order_sequence r) by (by injection Hr).
    destruct (submission_events r s), (submission_events r' s'). by rewrite Eseq.
Qed.

Lemma agree_book exact s s' b b' :
  agree exact s s' -> same_book b b' -> agree exact (set_orderbook b s) (set_orderbook b' s').
Proof. intros [] ?. by split. Qed.

Lemma agree_symbol exact s s' config locked :
  agree exact s s' -> agree exact (set_symbol config locked s) (set_symbol config locked s').
Proof. intros []. by split. Qed.

Lemma agree_applied exact s s' l m :
  agree exact s s' -> agree exact (set_applied l m s) (set_applied l m s').
Proof. intros []. by split. Qed.

Lemma agree_events exact s s' evs :
  agree exact s s' -> agree exact (record_events evs s) (record_events evs s').
Proof.
  intros []. unfold record_events, trim_events. simpl. rewrite ag_events0, ag_evicted0, ag_max_events0.
  destruct (trim_front _ _ _). by split.
Qed.

Lemma trim_front_fmap {A B} (f : A -> B) max : forall l ev,
  trim_front max (f <$> l) ev = prod_map (fmap f) Datatypes.id (trim_front max l ev).
Proof.
  induction l as [|x l IH]; intros ev; [done|]. rewrite fmap_cons. cbn [trim_front].
  replace (length (f x :: (f <$> l))) with (length (x :: l)) by (simpl; by rewrite length_fmap).
  case_bool_decide; [apply IH|done].
Qed.

Lemma trim_submissions_front max : forall order m ev,
  let '(o, _, n) := trim_submissions_loop max order m ev in (o, n) = trim_front max order ev.
Proof.
  induction order as [|r order IH]; intros m ev; [done|]. cbn [trim_submissions_loop trim_front].
  case_bool_decide; [apply IH|done].
Qed.

Lemma agree_submission exact s s' id seq li first count :
  agree exact s s' ->
  agree exact (record_submission id seq li first count s) (record_submission id seq li first count s').
Proof.
  intros []. unfold record_submission, trim_submissions. simpl.
  set (r := mkSubmission _ _ _ _ _).
  pose proof (trim_submissions_front (max_submissions s) (submission_order s ++ [r])
                (<[id := r]> (submissions s)) (submissions_evicted s)) as E.
  pose proof (trim_submissions_front (max_submissions s') (submission_order s' ++ [r])
                (<[id := r]> (submissions s')) (submissions_evicted s')) as E'.
  destruct (trim_submissions_loop (max_submissions s) _ _ _) as [[o m] n].
  destruct (trim_submissions_loop (max_submissions s') _ _ _) as [[o' m'] n'].
  apply (f_equal (prod_map (fmap (norm exact)) Datatypes.id)) in E, E'.
  rewrite <- trim_front_fmap, fmap_app in E, E'.
  rewrite ag_submissions0, ag_max_submissions0, ag_subs_evicted0, <- E in E'.
  injection E' as Eo En. by split.
Qed.

Lemma agree_frame exact s s' li seq ts sym evs :
  agree exact s s' ->
  agree exact (take_market_frame li seq ts sym evs s).2 (take_market_frame li seq ts sym evs s').2.
Proof.
  assert (Hlocal : forall t, same_book (orderbook t) (orderbook (take_market_frame li seq ts sym evs t).2)
            /\ agree exact t (set_orderbook (orderbook t) (take_market_frame li seq ts sym evs t).2)).
  { intros t. unfold take_market_frame. destruct (market_data t) as [enabled|]; [|by repeat split].
    simpl. destruct (negb enabled); [by repeat split|]. by destruct (_ && _); repeat split. }
  intros Ha. destruct (Hlocal s) as [Hb [? ? _ ? ? ? ? ? ? ? ?]], (Hlocal s') as [Hb' [? ? _ ? ? ? ? ? ? ? ?]].
  destruct Ha. simpl in *. split; try congruence. by rewrite <- Hb, <- Hb'.
Qed.

(** ** Applying the same requests *)

Definition applied_alike (exact : bool)
    (p p' : MatchEngineResponse * nat * StateMachineStoreInner * Effects) : Prop :=
  reply exact p.1.1.1 p'.1.1.1 /\ p.1.1.2 = p'.1.1.2 /\ agree exact p.1.2 p'.1.2.

Lemma finish_agree exact s s' li seq ts sym evs fx fx' :
  agree exact s s' ->
  applied_alike exact (finish li seq ts sym evs s fx) (finish li seq ts sym evs s' fx').
Proof.
  intros Ha. pose proof (agree_frame _ _ _ li seq ts sym evs Ha) as Hf. unfold finish.
  destruct (take_market_frame _ _ _ _ _ s), (take_market_frame _ _ _ _ _ s').
  split; [apply reply_refl|]. by split.
Qed.

Lemma configured_agree exact order s s' :
  agree exact s s' -> configured_symbol_for order s' = configured_symbol_for order s.
Proof. intros []. unfold configured_symbol_for. by rewrite ag_config0. Qed.

Lemma place_order_agree exact order s s' :
  sm_ok s -> sm_ok s' -> agree exact s s' ->
  comp_rel agrees
    match configured_symbol_for order s with
    | Ok config => execute_order_with_symbol order config (orderbook s)
    | Err reason => Ret (reject_order order reason (orderbook s))
    end
    match configured_symbol_for order s' with
    | Ok config => execute_order_with_symbol order config (orderbook s')
    | Err reason => Ret (reject_order order reason (orderbook s'))
    end.
Proof.
  intros Hs Hs' Ha. rewrite (configured_agree _ order _ _ Ha).
  destruct (configured_symbol_for order s) as [config|reason].
  - eapply execute_agree; [apply Ha|apply (proj1 (sm_book _ Hs))|apply (proj1 (sm_book _ Hs'))].
  - destruct (ag_book _ _ _ Ha) as [? ? ? Eq ?]. unfold reject_order. simpl. rewrite Eq.
    split; [done|]. split; simpl; congruence.
Qed.

Lemma apply_place_agree exact order cid li first s s' fx fx' :
  sm_ok s -> sm_ok s' -> agree exact s s' ->
  comp_rel (applied_alike exact)
    (apply_place order cid li first s fx) (apply_place order cid li first s' fx').
Proof.
  intros Hs Hs' Ha. unfold apply_place.
  assert (Hl : norm exact <$> (match cid with Some id => submissions s' !! id | None => None end) =
               norm exact <$> (match cid with Some id => submissions s !! id | None => None end)).
  { destruct cid as [id|]; [|done]. by apply lookup_agree. }
  destruct (match cid with Some id => submissions s !! id | None => _ end) as [r|],
    (match cid with Some id => submissions s' !! id | None => _ end) as [r'|]; try done.
  { injection Hl as Hr. split; [by apply duplicate_agree|]. by split. }
  eapply comp_rel_bind; [by apply (place_order_agree exact)|].
  intros [[out o] b] [[out' o'] b'] [[= <- <-] Hb]. simpl in Hb.
  set (s1 := match cid with Some id => _ | None => _ end).
  set (s1' := match cid with Some id => _ | None => _ end).
  assert (Hag : agree exact s1 s1').
  { subst s1 s1'. pose proof (agree_book _ _ _ _ _ Ha Hb) as Hab. pose proof (ag_config _ _ _ Hab) as Ec.
    rewrite Ec.
    destruct cid; destruct (out_rejected out);
      auto using agree_submission, agree_events, agree_symbol. }
  clearbody s1 s1'.
  pose proof (agree_frame _ _ _ li (out_market_seq out) (o_timestamp o) (o_symbol_id o)
                (place_events li first o out) Hag) as Hf.
  destruct (take_market_frame _ _ _ _ _ s1), (take_market_frame _ _ _ _ _ s1').
  split; [apply reply_refl|]. by split.
Qed.

(** The tail of the cancel, amend and purge arms. *)
Lemma tail_agree exact s s' li seq ts sym fx fx' (r r' : Comp (list MatchEvent * OrderBook)) :
  agree exact s s' -> comp_rel agrees r r' ->
  comp_rel (applied_alike exact)
    (let* '(evs, b) := r in Ret (finish li seq ts sym evs (record_events evs (set_orderbook b s)) fx))
    (let* '(evs, b) := r' in Ret (finish li seq ts sym evs (record_events evs (set_orderbook b s')) fx')).
Proof.
  intros Ha Hr. eapply comp_rel_bind; [exact Hr|].
  intros [evs b] [evs' b'] [[= <-] Hb]. by apply finish_agree, agree_events, agree_book.
Qed.

Lemma apply_cancel_agree exact order li first s s' fx fx' :
  sm_ok s -> sm_ok s' -> agree exact s s' ->
  comp_rel (applied_alike exact) (apply_cancel order li first s fx) (apply_cancel order li first s' fx').
Proof.
  intros Hs Hs' Ha. unfold apply_cancel, next_market_sequence.
  fold (after_number (orderbook s)) (after_number (orderbook s')).
  pose proof (ag_book _ _ _ Ha) as Hb. rewrite (eq_sequence _ _ Hb), (configured_agree _ order _ _ Ha).
  eapply comp_rel_bind.
  { eapply auto_purge_agree; [by apply after_number_agree|apply after_number_inv, (proj1 (sm_book _ Hs))
      |apply after_number_inv, (proj1 (sm_book _ Hs'))]. }
  intros [expired b] [expired' b'] [[= <-] Hp]. apply tail_agree; [done|].
  destruct (configured_symbol_for order s); [|by split].
  eapply comp_rel_bind; [by apply cancel_agree|].
  intros [c d] [c' d'] [[= <-] Hd]. by split.
Qed.

Lemma apply_amend_agree exact order price volume li first s s' fx fx' :
  sm_ok s -> sm_ok s' -> agree exact s s' ->
  comp_rel (applied_alike exact) (apply_amend order price volume li first s fx)
    (apply_amend order price volume li first s' fx').
Proof.
  intros Hs Hs' Ha. unfold apply_amend, next_market_sequence, validate_amend_values.
  fold (after_number (orderbook s)) (after_number (orderbook s')).
  pose proof (ag_book _ _ _ Ha) as Hb. rewrite (eq_sequence _ _ Hb), (configured_agree _ order _ _ Ha).
  eapply comp_rel_bind.
  { eapply auto_purge_agree; [by apply after_number_agree|apply after_number_inv, (proj1 (sm_book _ Hs))
      |apply after_number_inv, (proj1 (sm_book _ Hs'))]. }
  intros [expired b] [expired' b'] [[= <-] Hp]. apply tail_agree; [done|].
  destruct (configured_symbol_for order s) as [config|]; [|by split].
  destruct (_ && _); [|by split].
  eapply comp_rel_bind; [by apply amend_agree|].
  intros [c d] [c' d'] [[= <-] Hd]. by split.
Qed.

Lemma apply_purge_agree exact now day li first s s' fx fx' :
  sm_ok s -> sm_ok s' -> agree exact s s' ->
  comp_rel (applied_alike exact) (apply_purge now day li first s fx) (apply_purge now day li first s' fx').
Proof.
  intros Hs Hs' Ha. unfold apply_purge, next_market_sequence.
  fold (after_number (orderbook s)) (after_number (orderbook s')).
  pose proof (ag_book _ _ _ Ha) as Hb. rewrite (eq_sequence _ _ Hb), (ag_config _ _ _ Ha).
  eapply comp_rel_bind.
  { eapply purge_expired_agree; [by apply after_number_agree|apply after_number_inv, (proj1 (sm_book _ Hs))
      |apply after_number_inv, (proj1 (sm_book _ Hs'))]. }
  intros [expired b] [expired' b'] [[= <-] Hp]. by apply finish_agree, agree_events, agree_book.
Qed.

Lemma configure_agree exact config s s' :
  agree exact s s' ->
  (configure_symbol config s).1 = (configure_symbol config s').1 /\
  agree exact (configure_symbol config s).2 (configure_symbol config s').2.
Proof.
  intros Ha. destruct (ag_book _ _ _ Ha) as [Eb Ea Es _ _]. unfold configure_symbol.
  destruct (validate config) as [c|]; [|done].
  rewrite (ag_locked _ _ _ Ha), Eb, Ea, Es. destruct (symbol_locked s) eqn:El; [done|].
  destruct (_ || _ || _); [done|]. split; [done|]. simpl. apply agree_book; [by apply agree_symbol|].
  simpl. destruct (ag_book _ _ _ Ha). by split.
Qed.

Lemma apply_one_agree exact node node' r li first s s' fx fx' :
  sm_ok s -> sm_ok s' -> agree exact s s' ->
  comp_rel (applied_alike exact) (apply_one node r li first s fx) (apply_one node' r li first s' fx').
Proof.
  intros Hs Hs' Ha. destruct r as [o cid|o|o p v|now day|config|rs]; cbn [apply_one].
  - by apply apply_place_agree.
  - by apply apply_cancel_agree.
  - by apply apply_amend_agree.
  - by apply apply_purge_agree.
  - destruct (configure_agree _ config _ _ Ha) as [Er Hc]. unfold configure_symbol_locked.
    destruct (configure_symbol config s) as [[u|e] t], (configure_symbol config s') as [[u'|e'] t'];
      simplify_eq/=; (split; [apply reply_refl|]); by split.
  - split; [apply reply_refl|]. by split.
Qed.

Lemma agree_budget exact s s' n : agree exact s s' -> budget n s -> budget n s'.
Proof. intros Ha. unfold budget. by rewrite (eq_sequence _ _ (ag_book _ _ _ Ha)). Qed.

Definition ran_alike {E} (exact : bool) (p p' : list MatchEngineResponse * StateMachineStoreInner * E)
    : Prop :=
  Forall2 (reply exact) p.1.1 p'.1.1 /\ agree exact p.1.2 p'.1.2.

Lemma apply_batch_agree exact node node' li : forall rs ordinal acc acc' s s' fx fx',
  sm_ok s -> sm_ok s' -> agree exact s s' -> Forall request_typed rs -> budget (length rs) s ->
  Forall2 (reply exact) acc acc' ->
  comp_rel (ran_alike exact) (apply_batch node rs li ordinal acc s fx)
    (apply_batch node' rs li ordinal acc' s' fx').
Proof.
  induction rs as [|r rs IH]; intros ordinal acc acc' s s' fx fx' Hs Hs' Ha Ht Hb Hacc; [done|].
  apply Forall_cons in Ht as [Htr Ht]. cbn [apply_batch].
  assert (Hq : book_sequence (orderbook s) < U64_MAX) by (unfold budget in Hb; simpl in Hb; lia).
  assert (Hq' : book_sequence (orderbook s') < U64_MAX)
    by (by rewrite (eq_sequence _ _ (ag_book _ _ _ Ha))).
  pose proof (apply_one_agree exact node node' r li ordinal s s' fx fx' Hs Hs' Ha) as Hone.
  pose proof (apply_one_spec node r li ordinal s fx Hs Htr Hq) as Hx.
  pose proof (apply_one_spec node' r li ordinal s' fx' Hs' Htr Hq') as Hx'.
  destruct (apply_one node r li ordinal s fx) as [[[[resp n] t] fx1]| |],
    (apply_one node' r li ordinal s' fx') as [[[[resp' n'] t'] fx1']| |]; try done.
  destruct Hone as (Hr & En & Hag). cbn [fst snd] in Hr, En, Hag. subst n'. simpl.
  destruct Hx as (evs & subs & _ & Hg & _), Hx' as (evs' & subs' & _ & Hg' & _).
  apply IH; try done.
  - by eapply grows_sm_ok.
  - by eapply grows_sm_ok.
  - pose proof (gr_sequence _ _ _ _ _ _ _ Hg). unfold budget in *. simpl in Hb. lia.
  - apply Forall2_app; [done|]. by constructor.
Qed.

Lemma reply_batch exact rs rs' :
  Forall2 (reply exact) rs rs' -> reply exact (response_batch rs) (response_batch rs').
Proof.
  intros Hr. destruct exact; simpl.
  - f_equal. by apply list_eq_Forall2.
  - split; [done|]. induction Hr as [|x y l l' [E _] _ IH]; [done|]. rewrite !fmap_cons. by rewrite E, IH.
Qed.

Lemma apply_entry_agree exact node node' entry s s' :
  sm_ok s -> sm_ok s' -> agree exact s s' -> Forall request_typed (entry_requests entry) ->
  budget (length (entry_requests entry)) s ->
  comp_rel (fun p p' => reply exact p.1.1 p'.1.1 /\ agree exact p.1.2 p'.1.2)
    (apply_entry node entry s) (apply_entry node' entry s').
Proof.
  intros Hs Hs' Ha Ht Hb. unfold apply_entry, entry_requests in *. rewrite (ag_membership _ _ _ Ha).
  set (s0 := set_applied _ _ s). set (s0' := set_applied _ _ s').
  assert (Ha0 : agree exact s0 s0') by (by apply agree_applied).
  assert (Hs0 : sm_ok s0) by (by apply set_applied_ok).
  assert (Hs0' : sm_ok s0') by (by apply set_applied_ok).
  assert (Hone : forall r, comp_rel (fun p p' => reply exact p.1.1 p'.1.1 /\ agree exact p.1.2 p'.1.2)
    (let* '(response, _, s, fx) := apply_one node r (log_id_index (en_log_id entry)) 0 s0 (mkEffects [] []) in
     Ret (response, s, fx))
    (let* '(response, _, s, fx) := apply_one node' r (log_id_index (en_log_id entry)) 0 s0' (mkEffects [] []) in
     Ret (response, s, fx))).
  { intros r. eapply comp_rel_bind; [by apply (apply_one_agree exact)|].
    intros [[[resp n] t] fx] [[[resp' n'] t'] fx'] (Hr & _ & Hag). by split. }
  destruct (en_payload entry) as [|r|mem].
  - split; [apply reply_refl|done].
  - destruct r as [o cid|o|o p v|now day|config|rs]; [apply Hone..|].
    eapply comp_rel_bind.
    + by apply (apply_batch_agree exact).
    + intros [[resps t] fx] [[resps' t'] fx'] [Hr Hag]. split; [by apply reply_batch|done].
  - split; [apply reply_refl|]. cbn [fst snd]. rewrite (ag_applied _ _ _ Ha0). by apply agree_applied.
Qed.

(** All the requests of a run of entries. *)
Definition log_requests (entries : list Entry) : list MatchEngineRequest :=
  concat (entry_requests <$> entries).

Lemma apply_agree exact node node' : forall entries s s',
  sm_ok s -> sm_ok s' -> agree exact s s' -> Forall request_typed (log_requests entries) ->
  budget (length (log_requests entries)) s ->
  comp_rel (ran_alike exact) (apply node entries s) (apply node' entries s') /\
  apply node entries s <> Diverged.
Proof.
  induction entries as [|e es IH]; intros s s' Hs Hs' Ha Ht Hb; [done|].
  unfold log_requests in Ht, Hb. rewrite fmap_cons in Ht, Hb. cbn [concat] in Ht, Hb.
  apply Forall_app in Ht as [Hte Ht]. rewrite length_app in Hb. fold (log_requests es) in *.
  assert (Hbe : budget (length (entry_requests e)) s) by (unfold budget in *; lia).
  pose proof (apply_entry_agree exact node node' e s s' Hs Hs' Ha Hte Hbe) as Hr.
  pose proof (apply_entry_spec node e s Hs Hte Hbe) as Hx.
  pose proof (apply_entry_spec node' e s' Hs' Hte (agree_budget _ _ _ _ Ha Hbe)) as Hx'.
  cbn [apply]. destruct (apply_entry node e s) as [[[resp t] fx]| |],
    (apply_entry node' e s') as [[[resp' t'] fx']| |]; try done.
  destruct Hr as [Hr Hag], Hx as (_ & Hst & evs & subs & Hg), Hx' as (_ & Hst' & _).
  cbn [fst snd] in Hr, Hag. simpl.
  destruct (IH t t' Hst Hst' Hag Ht) as [Hrel Hnd].
  { pose proof (gr_sequence _ _ _ _ _ _ _ Hg) as Hseq. simpl in Hseq. unfold budget in *. lia. }
  destruct (apply node es t) as [[[rs u] fxs]| |], (apply node' es t') as [[[rs' u'] fxs']| |]; try done.
  destruct Hrel as [Hrs Hu]. cbn [fst snd] in Hrs, Hu. split; [|done]. split; [by constructor|done].
Qed.

(** ** Agreement and snapshot content *)

Lemma filter_side sd sd' (l : list Order) :
  Forall (fun o => o_side o = sd) l ->
  filter (fun o => o_side o = sd') l = if bool_decide (sd = sd') then l else [].
Proof.
  induction 1 as [|o l Eo _ IH]; [by destruct (bool_decide _)|].
  rewrite filter_cons, IH, Eo. case_bool_decide; case_decide; done.
Qed.

(** The two sides can be told apart in the orders of a snapshot. *)
Lemma orders_sides t :
  sm_ok t -> forall side, side_orders side (orderbook t) = filter (fun o => o_side o = side) (orders t).
Proof.
  intros Ht side. destruct (sm_book _ Ht) as [Hok _].
  assert (Fb : Forall (fun o => o_side o = Buy) (bt_values (bids (orderbook t)))).
  { eapply Forall_impl; [exact (side_sizes _ (bk_bids _ _ Hok))|]. by intros o [? _]. }
  assert (Fa : Forall (fun o => o_side o = Sell) (bt_values (asks (orderbook t)))).
  { eapply Forall_impl; [exact (side_sizes _ (bk_asks _ _ Hok))|]. by intros o [? _]. }
  unfold orders. rewrite filter_app, (filter_side Buy) by done. rewrite (filter_side Sell) by done.
  destruct side; simpl; by rewrite ?app_nil_r.
Qed.

Lemma content_agree s s' :
  sm_ok s -> sm_ok s' -> to_content s' = to_content s ->
  last_applied_log s' = last_applied_log s -> last_membership s' = last_membership s ->
  max_events s' = max_events s -> max_submissions s' = max_submissions s -> agree true s s'.
Proof.
  intros Hs Hs' Hc Hl Hm He Hx. injection Hc as Eo Eq Es El Ec Elk Ee Eev Esub Esv.
  split; try done; [|by rewrite Esub].
  destruct (sm_book _ Hs) as [Hok _], (sm_book _ Hs') as [Hok' _].
  apply (same_orders_book _ _ _ _ Hok Hok'); try done.
  intros side. rewrite (orders_sides s Hs), (orders_sides s' Hs'). unfold orders. by rewrite Eo.
Qed.

Lemma agree_content s s' : agree false s s' -> serialized (to_content s') = serialized (to_content s).
Proof.
  intros []. destruct ag_book0. unfold serialized, to_content. simpl.
  change skip_first_ordinal with (norm false). congruence.
Qed.

Lemma agree_content_exact s s' : agree true s s' -> to_content s' = to_content s.
Proof.
  intros []. destruct ag_book0. unfold to_content. simpl in ag_submissions0.
  rewrite !list_fmap_id in ag_submissions0. congruence.
Qed.

(** A store restored from the content of [s] agrees with [s] once it carries its position. *)
Lemma restored_agree s s0 :
  sm_ok s -> max_events s0 = max_events s -> max_submissions s0 = max_submissions s ->
  let s1 := install_content (serialized (to_content s)) s0 in
  sm_ok s1 /\ agree false s (set_applied (last_applied_log s) (last_membership s) s1) /\
  last_applied_log s1 = last_applied_log s0 /\ last_membership s1 = last_membership s0.
Proof.
  intros Hs Le Ls. destruct (install_to_content s s0 Hs Le Ls) as (Hc & Hok & Hbk & _ & Hme & Hms & Hl & Hm).
  generalize dependent (install_content (serialized (to_content s)) s0). intros r Hc Hok Hbk Hme Hms Hl Hm.
  split; [done|]. split; [|done]. injection Hc as _ _ _ _ Ec Elk Ee Eev Esub Esv. split; try done.
  cbn [set_applied submission_order]. rewrite Esub, <- list_fmap_compose. apply list_fmap_ext.
  intros _ x _. by destruct x.
Qed.

(** The kept snapshot and the tap of a process are outside of what replicas compare. *)
Lemma snapshot_setting exact s s1 snapshot :
  sm_ok s1 /\ agree exact s s1 ->
  sm_ok (set_current_snapshot snapshot s1) /\ agree exact s (set_current_snapshot snapshot s1).
Proof. intros [[] []]. split; by split. Qed.

Lemma tap_setting exact s s1 (tap : option bool) :
  sm_ok s1 /\ agree exact s s1 ->
  let t := set_market_data tap
             match tap with
             | Some _ => set_orderbook (enable_depth_journal (orderbook s1)) s1
             | None => s1
             end in
  sm_ok t /\ agree exact s t.
Proof.
  intros [[[Hb Hq] ? ? ? ? ?] []]. destruct tap as [enabled|].
  - assert (Hb' : book_ok (enable_depth_journal (orderbook s1))) by (by destruct Hb; split).
    split; split; try done. simpl. destruct ag_book0. by split.
  - split; by split.
Qed.

Section Restoring.
Context (encode : StateMachineData -> option (list Z)) (decode : list Z -> option StateMachineData).
Context (codec : forall c data, encode c = Some data -> decode data = Some (serialized c)).

Lemma install_snapshot_agree s s0 data s1 :
  sm_ok s -> encode (to_content s) = Some data ->
  max_events s0 = max_events s -> max_submissions s0 = max_submissions s ->
  install_snapshot decode true (mkMeta (last_applied_log s) (last_membership s)) data s0 = (true, s1) ->
  sm_ok s1 /\ agree false s s1.
Proof.
  intros Hs He Le Ls. unfold install_snapshot. rewrite (codec _ _ He).
  cbn [negb meta_last_log_id meta_last_membership].
  destruct (restored_agree s (set_applied (last_applied_log s) (last_membership s) s0) Hs Le Ls)
    as (Hok & Ha & El & Em). generalize dependent (install_content (serialized (to_content s))
    (set_applied (last_applied_log s) (last_membership s) s0)). intros r Hok Ha El Em [= <-].
  apply snapshot_setting. split; [done|]. cbn [set_applied last_applied_log last_membership] in El, Em.
  rewrite <- El, <- Em in Ha. destruct Ha. by split.
Qed.

Lemma open_store_agree s data tap s1 :
  sm_ok s -> encode (to_content s) = Some data -> max_submissions s = MAX_SUBMISSIONS ->
  open_store decode (Some (mkMeta (last_applied_log s) (last_membership s), data)) tap (max_events s)
    = Some s1 ->
  sm_ok s1 /\ agree false s s1.
Proof.
  intros Hs He Hmax. unfold open_store. rewrite (codec _ _ He).
  cbn [meta_last_log_id meta_last_membership].
  assert (Hev : max_events (set_max_events (max_events s) Inner_default) = max_events s) by reflexivity.
  assert (Hsu : max_submissions (set_max_events (max_events s) Inner_default) = max_submissions s)
    by (rewrite Hmax; reflexivity).
  destruct (restored_agree s _ Hs Hev Hsu) as (Hok & Ha & _).
  generalize dependent (install_content (serialized (to_content s))
    (set_max_events (max_events s) Inner_default)). intros r Hok Ha E. clear Hev Hsu.
  injection E as <-. refine (tap_setting false s _ tap _). apply snapshot_setting.
  split; [by apply set_applied_ok|done].
Qed.
End Restoring.

Lemma ran_summary rs rs' : Forall2 (reply false) rs rs' -> summary <$> rs = summary <$> rs'.
Proof. induction 1 as [|x y l l' [E _] _ IH]; [done|]. by rewrite !fmap_cons, E, IH. Qed.
End Stores.
