(* ===== verification/StateSpec.v ===== *)
(** * The theorems of the state machine

    What [src/src/store/state_machine.rs] guarantees for every replica: entries preserve the
    invariant and number their events contiguously, retries are answered without executing again,
    pages cover the event window, snapshots restore the state, and the symbol is locked once
    trading starts. *)

From stdpp Require Import strings gmap relations.
From S2P Require Import Prelude BTree Fixed Order OrderBook Sweep BookInv BookOps Purge Change.
From S2P Require Import Execute Book MatchEvent StateMachine StateInv StateReads Replica.

Section Guarantees.
Context `{RaftTypes} `{I256Ops} `{!I256Laws}.
Implicit Types s : StateMachineStoreInner.

(** C6: Applying one Raft entry always ends, and when it returns the replica is sound again: the
    book keeps its invariant, the applied log id advances, and the entry's events carry the ids
    [(log index, 0), (log index, 1), ...] without gaps across all requests of a batch; they are
    appended to the retained window, which stays sorted by event id and within its limit, and
    what falls out at the front is counted as evicted. *)
Theorem apply_entry_sound (node : NodeLocal) (entry : Entry) s :
  sm_ok s -> events_sorted s ->
  Forall (fun e => ev_log_index (e_event_id e) < log_id_index (en_log_id entry)) (events s) ->
  Forall request_typed (entry_requests entry) ->
  book_sequence (orderbook s) + Z.of_nat (length (entry_requests entry)) <= U64_MAX ->
  match apply_entry node entry s with
  | Ret (_, s', _) =>
      sm_ok s' /\ last_applied_log s' = Some (en_log_id entry) /\
      exists new,
        events s' = drop (length (events s ++ new) - max_events s) (events s ++ new) /\
        events_evicted s' =
          wrap_u64 (events_evicted s + Z.of_nat (length (events s ++ new) - max_events s)) /\
        (Z.of_nat (length new) <= U32_MAX ->
           numbered_from (log_id_index (en_log_id entry)) 0 new /\ events_sorted s' /\
           Forall (fun e => ev_log_index (e_event_id e) <= log_id_index (en_log_id entry)) (events s'))
  | Panic => True
  | Diverged => False
  end.
Proof.
  intros Hs Hsort Hbef Ht Hb. pose proof (apply_entry_spec node entry s Hs Ht Hb) as Hx.
  destruct (apply_entry _ _ _) as [[[resp s'] fx]| |]; [|done|done].
  destruct Hx as (Hl & Hs' & new & subs & Hg). split_and!; [done|done|].
  pose proof (gr_events _ _ _ _ _ _ _ Hg) as Ee. pose proof (gr_evicted _ _ _ _ _ _ _ Hg) as Ev.
  exists new. split_and!; [done|done|]. intros Hmax.
  assert (Hb0 : events_before (log_id_index (en_log_id entry)) 0 s).
  { eapply Forall_impl; [exact Hbef|]. unfold id_lt, event_id_ltb. simpl. intros e. lia. }
  destruct (grows_sorted _ _ _ _ _ _ _ Hg Hsort ltac:(lia) Hb0 ltac:(lia)) as [Hso Hbe].
  split_and!; [apply Hg; lia|done|]. eapply Forall_impl; [exact Hbe|].
  unfold id_lt, event_id_ltb. simpl. intros e. lia.
Qed.

(** A base-sized request never panics: applying one request to a sound store in which no
    parked stop is sized in quote currency returns a response, unless the request itself places
    a quote-sized order. *)
Theorem apply_one_returns (node : NodeLocal) (r : MatchEngineRequest) (li first : Z) s (fx : Effects) :
  sm_ok s -> request_typed r -> book_sequence (orderbook s) < U64_MAX ->
  Forall (fun o => o_volume_unit o = UnitBase) (stops (orderbook s)) ->
  (forall o id, r = Place o id -> o_volume_unit o = UnitBase) ->
  exists resp n s' fx', apply_one node r li first s fx = Ret (resp, n, s', fx') /\ sm_ok s'.
Proof.
  intros Hs Ht Hq Hbase Hr. pose proof (apply_one_spec node r li first s fx Hs Ht Hq) as Hx.
  destruct (apply_one _ _ _ _ _ _) as [[[[resp n] s'] fx']| |]; [| |done].
  - destruct Hx as (evs & subs & _ & Hg & _). eexists _, _, _, _. split; [done|].
    by eapply grows_sm_ok.
  - exfalso. destruct Hx as [(o & id & -> & Hu)|Hx].
    + specialize (Hr o id eq_refl). congruence.
    + rewrite Exists_exists in Hx. destruct Hx as (o & Hin & Hu). rewrite Forall_forall in Hbase.
      specialize (Hbase o Hin). congruence.
Qed.

(** A submission whose events, with all that came behind them, still fit into the window, and whose
    record, with all behind it, still fits into the dedupe map, is answered as it was the first time;
    what the window and the map held before may have been evicted by then. *)
Lemma original_answered (id : string) (seq li first li2 first2 k2 : Z) s s1 s2
    (evs evs2 : list MatchEvent) (subs2 : list SubmissionRecord) :
  let record := mkSubmission id seq li (as_u32 (length evs)) (Some first) in
  grows 1 li first s evs [record] s1 -> grows k2 li2 first2 s1 evs2 subs2 s2 ->
  events_before li first s -> 0 <= first -> first + Z.of_nat (length evs) <= U32_MAX ->
  (li < li2 \/ (li = li2 /\ first + Z.of_nat (length evs) <= first2)) -> 0 <= first2 ->
  first2 + Z.of_nat (length evs2) <= U32_MAX ->
  (length evs + length evs2 <= max_events s)%nat -> (1 + length subs2 <= max_submissions s)%nat ->
  submissions s2 !! id = Some record /\ duplicate_response record s2 = response_applied seq evs.
Proof.
  intros record Hg1 Hg2 Hbef Hf Hmax Hafter Hf2 Hmax2 Hroom Hsub.
  pose proof (gr_limits _ _ _ _ _ _ _ Hg1) as [L1 M1].
  destruct (window_keeps_back _ _ _ _ _ (max_events s) (gr_events _ _ _ _ _ _ _ Hg1)
              ltac:(rewrite <- L1; apply Hg2) Hroom) as (n & Ee).
  destruct (window_keeps_back _ _ _ _ _ (max_submissions s) (gr_subs _ _ _ _ _ _ _ Hg1)
              ltac:(rewrite <- M1; apply Hg2) Hsub) as (m & Es).
  split.
  - destruct (gr_subs_ok _ _ _ _ _ _ _ Hg2) as [Hn ->]. apply (records_lookup _ record); [done|].
    rewrite Es. apply elem_of_app. right. left.
  - unfold duplicate_response.
    assert (Hcount : as_u32 (length evs) = Z.of_nat (length evs)).
    { unfold as_u32, wrap_u32, U32_MAX in *. apply Z.mod_small. lia. }
    rewrite (submission_events_exact s2 _ (drop n (events s)) evs evs2 first); try done; simpl.
    + apply Hg1; [done|lia].
    + by apply Forall_drop.
    + apply Forall_forall. intros e He.
      pose proof (gr_ordinals _ _ _ _ _ _ _ Hg2 Hf2 ltac:(lia)) as Hn2.
      destruct (numbered_ids _ _ _ _ Hn2 He) as (i & Hi & Eid). unfold id_ge, event_id_ltb.
      rewrite Eid. simpl. lia.
Qed.


(** A [Place] under a fresh id whose events fit into an empty window is remembered with its response,
    however full the window and the dedupe map were. *)
Lemma place_answered (order : Order) (id : string) (li first : Z) s s1 (fx fx1 : Effects)
    (resp : MatchEngineResponse) (n : nat) :
  sm_ok s -> events_before li first s -> 0 <= first -> order_typed order -> budget 1 s ->
  submissions s !! id = None ->
  apply_place order (Some id) li first s fx = Ret (resp, n, s1, fx1) ->
  first + Z.of_nat n <= U32_MAX -> (n <= max_events s)%nat -> (0 < max_submissions s)%nat ->
  exists record, submissions s1 !! id = Some record /\ duplicate_response record s1 = resp.
Proof.
  intros Hs Hbef Hf Ht Hb Hnone E Hmax Hroom Hsub. unfold budget in Hb.
  pose proof (apply_place_spec order (Some id) li first s fx Hs Ht ltac:(lia)) as Hp.
  rewrite E, Hnone in Hp. destruct Hp as (evs & subs & -> & Hg & _ & seq & -> & ->).
  eexists. eapply (original_answered id seq li first (li + 1) 0 0 s s1 s1 evs [] []); try done;
    [apply grows_refl; [by eapply grows_sm_ok|done]|unfold U32_MAX; simpl; lia..].
Qed.


(** Reading the event log page by page loses and repeats nothing: following [next_after] with
    any positive limit until [has_more] is false returns exactly the retained window, and a
    reader that resumes after an event it has seen gets exactly the events behind it. *)
Theorem event_pages_cover_window s (limit : nat) (pre post : list MatchEvent) (e : MatchEvent) :
  events_sorted s -> (0 < limit)%nat -> events s = pre ++ e :: post ->
  drain (S (length (events s))) None limit s = Some (events s) /\
  drain (S (length (events s))) (Some (e_event_id e)) limit s = Some post /\
  forall after, (length (events_since after limit s).1.1 <= limit)%nat.
Proof.
  intros Hs Hl Hw. split_and!.
  - apply drain_window; [done|done|lia| |done]. apply list_filter_all. done.
  - apply drain_window; [done|done|rewrite Hw, length_app; simpl; lia| |].
    + rewrite Hw. apply after_cursor_sorted. unfold events_sorted in Hs. by rewrite Hw in Hs.
    + exists (pre ++ [e]). by rewrite Hw, <- app_assoc.
  - intros after. rewrite events_since_spec. simpl. rewrite length_take. lia.
Qed.


(** The symbol configuration is fixed once trading starts: a [Place] that is neither a
    duplicate nor rejected locks it, no request unlocks it or changes it while locked, and while
    it is locked or orders are open every [ConfigureSymbol] is refused and changes nothing. *)
Theorem symbol_locked_after_trading (node : NodeLocal) (r : MatchEngineRequest) (li first : Z) s
    (fx : Effects) (resp : MatchEngineResponse) (n : nat) s' (fx' : Effects) :
  apply_one node r li first s fx = Ret (resp, n, s', fx') ->
  (symbol_locked s = true -> symbol_locked s' = true /\ symbol_config s' = symbol_config s) /\
  (forall config, r = ConfigureSymbol config ->
     symbol_locked s = true \/ orders s <> [] \/ stops (orderbook s) <> [] ->
     s' = s /\ is_Some (rs_error resp)) /\
  (forall o cid, r = Place o cid ->
     symbol_locked s' = true \/
     (exists e, rs_events resp = [e] /\ e_kind e = Rejected) \/
     exists id, cid = Some id /\ is_Some (submissions s !! id)).
Proof.
  intros E. assert (Hcfg : forall config, r = ConfigureSymbol config ->
      symbol_locked s = true \/ orders s <> [] \/ stops (orderbook s) <> [] ->
      s' = s /\ is_Some (rs_error resp)).
  { intros config -> Hl. simpl in E. unfold configure_symbol_locked in E.
    destruct (configure_symbol config s) as [[[]|e] s1] eqn:Ec; [|].
    - exfalso. apply configure_Ok in Ec as (? & ? & ?). naive_solver congruence.
    - simplify_eq. apply configure_Err in Ec as ->. by split. }
  split_and!; [|done|].
  - intros Hl.
    assert (Hd : (exists config, r = ConfigureSymbol config) \/
                 forall config, r <> ConfigureSymbol config) by (destruct r; eauto; by right).
    destruct Hd as [(config & ->)|Hno].
    + destruct (Hcfg config eq_refl (or_introl Hl)) as [-> _]. done.
    + destruct (apply_one_symbol _ _ _ _ _ _ _ _ _ _ E) as [? ?]; [done|auto].
  - intros o cid ->. by destruct (apply_place_symbol _ _ _ _ _ _ _ _ _ _ E) as (_ & _ & ?).
Qed.

(** When the automatic purge evicts due GTD orders and the placed order is then rejected by the
    book (it would trigger, would cross, or cannot fill), the evicted orders are gone from the
    book but the entry's only event is the rejection: no [Expired] event is produced for them. *)
Theorem rejected_place_drops_expired (order : Order) (config : SymbolConfig) (b : OrderBook)
    (li first : Z) (out : Outcome) (o : Order) (b' : OrderBook) (reason : RejectReason) :
  book_ok b -> order_typed order -> book_sequence b < U64_MAX ->
  execute_order_with_symbol order config b = Ret (out, o, b') ->
  refusal (numbered order b) config = None -> out_rejected out = Some reason ->
  place_events li first o out = [for_rejected li first o reason] /\
  Forall (fun x => is_expired (o_tif x) (o_timestamp order) None = false) (all_orders b') /\
  (forall x, x ∈ all_orders b -> is_expired (o_tif x) (o_timestamp order) None = true ->
     x ∈ out_expired out /\ x ∉ all_orders b').
Proof.
  intros Hok Ht Hq E Href Hrej. pose proof (execute_spec order config b Hok Ht Hq) as Hx.
  unfold execute_order_with_symbol in E. rewrite E in Hx. split.
  { unfold place_events. by rewrite Hrej. }
  destruct Hx as [|o expired b1 out b' _ _ _ _ _ Hp Had]; [congruence|].
  assert (Hb' : b' = b1 /\ out_expired out = expired) by (by destruct Had).
  destruct Hb' as [-> ->]. rewrite (pu_removed _ _ _ _ Hp), (pu_kept _ _ _ _ Hp).
  change (all_orders (after_number b)) with (all_orders b). split.
  - apply Forall_forall. by intros x [? _]%list_elem_of_filter.
  - intros x Hin Hdue. split; [by apply list_elem_of_filter|].
    intros [? _]%list_elem_of_filter. congruence.
Qed.

(** C3: Replicas converge. Two sound replicas with the same snapshot content, applied position and
    limits, but any market-data tap, feed control, clock, journal and deadline index of their own,
    answer the same log with the same responses and end with the same content and position; if one
    panics, so does the other, and neither loops. *)
Theorem replicas_converge (node node' : NodeLocal) (entries : list Entry) s s' :
  sm_ok s -> sm_ok s' -> to_content s' = to_content s ->
  last_applied_log s' = last_applied_log s -> last_membership s' = last_membership s ->
  max_events s' = max_events s -> max_submissions s' = max_submissions s ->
  Forall request_typed (log_requests entries) -> budget (length (log_requests entries)) s ->
  match apply node entries s, apply node' entries s' with
  | Ret (responses, t, _), Ret (responses', t', _) =>
      responses' = responses /\ to_content t' = to_content t /\
      last_applied_log t' = last_applied_log t /\ last_membership t' = last_membership t
  | Panic, Panic => True
  | _, _ => False
  end.
Proof.
  intros Hs Hs' Hc Hl Hm He Hx Ht Hb.
  destruct (apply_agree true node node' entries s s' Hs Hs'
              (content_agree s s' Hs Hs' Hc Hl Hm He Hx) Ht Hb) as [Hr Hnd].
  destruct (apply node entries s) as [[[rs t] fx]| |], (apply node' entries s') as [[[rs' t'] fx']| |];
    try done.
  destruct Hr as [Hrs Ha]. cbn [fst snd] in Hrs, Ha. split_and!.
  - symmetry. by apply list_eq_Forall2.
  - by apply agree_content_exact.
  - apply Ha.
  - apply Ha.
Qed.

End Guarantees.

(** ** Witnesses: a store with numbers for log ids and no membership data *)

#[local] Instance demo_raft : RaftTypes :=
  {| LogId := Z; Membership := unit; StoredMembership := option Z; log_id_index := fun i => i;
     stored_membership_new := fun l _ => l; stored_membership_default := None |}.

Definition demo_store : StateMachineStoreInner := fresh_store 10 10.
Definition demo_node : NodeLocal := mkNodeLocal None 0.
Definition no_effects : Effects := mkEffects [] [].
Definition demo_ask : Order := Order_new Sell 10000 500 0.
Definition demo_bid : Order := Order_new Buy 10000 200 0.

Lemma demo_store_ok : sm_ok demo_store /\ events_sorted demo_store.
Proof. apply fresh_store_ok. Qed.

Lemma demo_orders_typed : order_typed demo_ask /\ order_typed demo_bid.
Proof. split; by split; vm_compute; split. Qed.

(** The store after the ask has been placed under the id "a" by entry 1. *)
Definition demo_placed : MatchEngineResponse * nat * StateMachineStoreInner * Effects :=
  match apply_place demo_ask (Some "a"%string) 1 0 demo_store no_effects with
  | Ret r => r
  | _ => (response_none, 0%nat, demo_store, no_effects)
  end.

Lemma demo_placed_eq :
  apply_place demo_ask (Some "a"%string) 1 0 demo_store no_effects = Ret demo_placed.
Proof. vm_compute. reflexivity. Qed.

Lemma demo_placed_ok : sm_ok demo_placed.1.2 /\ events_sorted demo_placed.1.2.
Proof.
  split; [|unfold events_sorted; vm_compute; repeat constructor].
  pose proof (apply_place_spec demo_ask (Some "a"%string) 1 0 demo_store no_effects
                (proj1 demo_store_ok) (proj1 demo_orders_typed) eq_refl) as Hp.
  rewrite demo_placed_eq in Hp. generalize dependent demo_placed. intros [[[resp n] s'] fx'] Hp.
  destruct Hp as (evs & subs & _ & Hg & _). by eapply grows_sm_ok.
Qed.

(** An entry that places both orders in one batch. *)
Definition demo_entry : Entry :=
  mkEntry (1 : LogId) (Normal (Batch [Place demo_ask (Some "a"%string); Place demo_bid None])).

Lemma apply_entry_sound_witness :
  match apply_entry demo_node demo_entry demo_store with
  | Ret (_, s', _) => sm_ok s' /\ last_applied_log s' = Some 1
  | _ => False
  end.
Proof.
  pose proof (apply_entry_sound demo_node demo_entry demo_store (proj1 demo_store_ok)
                (proj2 demo_store_ok)) as Hx.
  destruct (apply_entry demo_node demo_entry demo_store) as [[[r s'] fx]| |] eqn:E;
    [|vm_compute in E; discriminate|vm_compute in E; discriminate].
  destruct Hx as (Hok & Hl & _); [constructor| |vm_compute; discriminate|split; [exact Hok|exact Hl]].
  constructor; [exact (proj1 demo_orders_typed)|].
  constructor; [exact (proj2 demo_orders_typed)|constructor].
Defined.

Lemma apply_one_returns_witness :
  exists resp n s' fx',
    apply_one demo_node (Place demo_ask None) 1 0 demo_store no_effects = Ret (resp, n, s', fx') /\
    sm_ok s'.
Proof.
  apply (apply_one_returns demo_node (Place demo_ask None) 1 0 demo_store no_effects);
    [exact (proj1 demo_store_ok)|exact (proj1 demo_orders_typed)|reflexivity|constructor|].
  intros o id [= <- _]. reflexivity.
Defined.


Lemma event_pages_cover_window_witness :
  drain 2 None 1 demo_placed.1.2 = Some (events demo_placed.1.2).
Proof.
  destruct (events demo_placed.1.2) as [|e l] eqn:E; [vm_compute in E; discriminate|].
  destruct (event_pages_cover_window demo_placed.1.2 1 [] l e) as [Hd _];
    [exact (proj2 demo_placed_ok)|lia|exact E|]. rewrite <- E.
  vm_compute in E. injection E as _ <-. exact Hd.
Defined.




Lemma symbol_locked_after_trading_witness :
  symbol_locked demo_placed.1.2 = true \/
  (exists e, rs_events demo_placed.1.1.1 = [e] /\ e_kind e = Rejected) \/
  exists id, Some "a"%string = Some id /\ is_Some (submissions demo_store !! id).
Proof.
  destruct (symbol_locked_after_trading demo_node (Place demo_ask (Some "a"%string)) 1 0 demo_store
              no_effects demo_placed.1.1.1 demo_placed.1.1.2 demo_placed.1.2 demo_placed.2)
    as (_ & _ & Hp); [vm_compute; reflexivity|]. apply (Hp demo_ask). reflexivity.
Defined.

(** A book with a GTD ask due at 5 and a GTC ask at the same price, and a crossing post-only bid
    that arrives at 10. *)
Definition demo_gtd_ask : Order :=
  mkOrder Limit Sell 0 10000 500 UnitBase 0 UnitBase 0 0 1 0 (Gtd 5) false 0 0 0 0.
Definition demo_post_only_bid : Order :=
  mkOrder Limit Buy 0 10000 200 UnitBase 0 UnitBase 0 0 2 0 Gtc true 0 0 0 10.

Definition demo_gtd_book : OrderBook := Demo.place demo_ask (Demo.place demo_gtd_ask OrderBook_new).

Lemma demo_gtd_book_ok : book_ok demo_gtd_book.
Proof.
  assert (Hgtd : order_typed demo_gtd_ask) by (by split; vm_compute; split).
  refine (proj1 (reachable_ok demo_gtd_book _)).
  apply Demo.place_step; [exact (proj1 demo_orders_typed)|by vm_compute|by vm_compute|].
  apply Demo.place_step; [exact Hgtd|by vm_compute|by vm_compute|apply rtc_refl].
Qed.

Lemma rejected_place_drops_expired_witness :
  exists out o b' x,
    execute_order_with_symbol demo_post_only_bid SymbolConfig_default demo_gtd_book = Ret (out, o, b') /\
    place_events 7 0 o out = [for_rejected 7 0 o PostOnlyWouldCross] /\
    x ∈ all_orders demo_gtd_book /\ x ∈ out_expired out /\ x ∉ all_orders b'.
Proof.
  eexists _, _, _, _. split; [vm_compute; reflexivity|].
  destruct (rejected_place_drops_expired demo_post_only_bid SymbolConfig_default demo_gtd_book 7 0
              _ _ _ PostOnlyWouldCross demo_gtd_book_ok ltac:(by split; vm_compute; split)
              ltac:(by vm_compute) ltac:(vm_compute; reflexivity) ltac:(by vm_compute)
              ltac:(by vm_compute)) as (E & _ & Hx).
  split; [exact E|]. split; [left|]. apply Hx; [left|reflexivity].
Defined.

(** A second node with a tap, recording its depth. *)
Definition demo_tapped : StateMachineStoreInner :=
  set_market_data (Some true) (set_orderbook (enable_depth_journal OrderBook_new) demo_store).

Lemma demo_tapped_ok : sm_ok demo_tapped /\ agree true demo_store demo_tapped.
Proof.
  apply (tap_setting true demo_store demo_store (Some true)).
  split; [exact (proj1 demo_store_ok)|by repeat split].
Qed.

Lemma demo_entry_typed : Forall request_typed (log_requests [demo_entry]).
Proof.
  constructor; [exact (proj1 demo_orders_typed)|].
  constructor; [exact (proj2 demo_orders_typed)|constructor].
Qed.

Lemma replicas_converge_witness :
  match apply demo_node [demo_entry] demo_store,
        apply (mkNodeLocal (Some (true, 5)) 9) [demo_entry] demo_tapped with
  | Ret (responses, t, _), Ret (responses', t', _) =>
      responses' = responses /\ to_content t' = to_content t /\
      last_applied_log t' = last_applied_log t /\ last_membership t' = last_membership t
  | Panic, Panic => True
  | _, _ => False
  end.
Proof.
  apply (replicas_converge demo_node (mkNodeLocal (Some (true, 5)) 9) [demo_entry] demo_store demo_tapped).
  - exact (proj1 demo_store_ok).
  - exact (proj1 demo_tapped_ok).
  - reflexivity.
  - reflexivity.
  - reflexivity.
  - reflexivity.
  - reflexivity.
  - exact demo_entry_typed.
  - vm_compute. discriminate.
Defined.

