(* ===== verification/NumericSpec.v ===== *)
(** * The theorems of the fixed-point arithmetic, its text form and the fill

    [src/src/order_book/fixed.rs] and [MatchResult::new_with_policy] of
    [src/src/order_book/mod.rs]. *)

From S2P Require Import Prelude Fixed Order.

Section Arithmetic.
Context `{I256Ops} `{!I256Laws}.

(** C39: Checked multiplication and division of fixed-point numbers are exact: the result is the
    mathematical product or quotient truncated towards zero at 18 decimals, and there is no
    result exactly when that value leaves the 128-bit range or the divisor is zero. The 128-bit
    fast path and the 256-bit path of the multiplication therefore agree. *)
Theorem fixed_mul_div_exact (a b : Fixed) :
  in_i128 a -> in_i128 b ->
  checked_mul a b =
    (if in_i128b (Z.quot (a * b) SCALE) then Some (Z.quot (a * b) SCALE) else None) /\
  checked_div a b =
    (if b =? 0 then None
     else if in_i128b (Z.quot (a * SCALE) b) then Some (Z.quot (a * SCALE) b) else None).
Proof. intros Ha Hb. by rewrite checked_mul_spec, checked_div_spec. Qed.

(** A fill reports overflow faithfully. For a tradable size and price and admissible rates,
    the notional bit is set exactly when the product leaves the 128-bit range, a fee bit exactly
    when that fee is charged in quote and the notional overflowed, and no fee exceeds the amount
    it is charged on. *)
Theorem fill_error_bits (taker maker : Order) (matches : Fixed) (policy : FeeAssetPolicy) :
  let f := new_with_policy taker maker matches policy in
  let overflow := negb (in_i128b (Z.quot (o_price maker * matches) SCALE)) in
  0 < matches <= I128_MAX -> 0 < o_price maker <= I128_MAX ->
  rate_ok (o_maker_fee_rate maker) -> rate_ok (o_taker_fee_rate taker) ->
  errors_contains (m_error f) NotionalOverflow = overflow /\
  errors_contains (m_error f) TakerFeeOverflow =
    (overflow && bool_decide (m_taker_fee_asset f = FeeQuote)) /\
  errors_contains (m_error f) MakerFeeOverflow =
    (overflow && bool_decide (m_maker_fee_asset f = FeeQuote)) /\
  Z.abs (m_taker_fee f) <= (match m_taker_fee_asset f with
                            | FeeBase => matches | FeeQuote => m_notional f end) /\
  Z.abs (m_maker_fee f) <= (match m_maker_fee_asset f with
                            | FeeBase => matches | FeeQuote => m_notional f end).
Proof.
  intros f overflow Hv Hp Hm Ht. unfold f, overflow, new_with_policy. cbn zeta.
  destruct (notional_spec (o_price maker) matches) as [En Hn]; try lia; try range_lia.
  unfold checked_i128 in En. rewrite !fill_fee_spec by (done || lia || range_lia).
  destruct (in_i128b (Z.quot (o_price maker * matches) SCALE)) eqn:Er; rewrite En in *.
  - pose proof (proj1 (Hn _ eq_refl)) as Hpos.
    pose proof (fun amount Ha => rate_scaled amount _ Ha Hm) as Bm.
    pose proof (fun amount Ha => rate_scaled amount _ Ha Ht) as Bt.
    destruct (fee_asset policy (o_side taker)), (fee_asset policy (o_side maker)); cbn;
      (split_and!; [done|done|done|apply Bt; lia|apply Bm; lia]).
  - pose proof (rate_scaled matches _ ltac:(lia) Hm) as Bm.
    pose proof (rate_scaled matches _ ltac:(lia) Ht) as Bt.
    destruct (fee_asset policy (o_side taker)), (fee_asset policy (o_side maker)); cbn;
      (split_and!; done).
Qed.
End Arithmetic.

(** Printing a fixed-point number and parsing the text gives the number back, for every 128-bit
    value but the smallest one, whose printed text is rejected by the parser. *)
Theorem fixed_text_roundtrip (x : Fixed) :
  in_i128 x -> from_str (to_string x) = (if x =? I128_MIN then Err InvalidFixed else Ok x).
Proof.
  intros Hx. rewrite from_str_to_string by done. unfold checked_i128.
  destruct (Z.eqb_spec x I128_MIN) as [->|Hne]; [reflexivity|].
  destruct (in_i128b (Z.abs x)) eqn:E; [done|]. apply in_i128b_false in E. exfalso. apply E. range_lia.
Qed.

(** The parser accepts a sign inside a number: after the leading sign has been taken, the whole
    and the fractional part are each parsed as signed integers, so the texts 1.-5, --5 and
    1.+5 are accepted and read as 0.95, 5 and 1.05. *)
Theorem from_str_accepts_inner_sign :
  from_str [49; 46; 45; 53] = Ok 950000000000000000 /\
  from_str [45; 45; 53] = Ok 5000000000000000000 /\
  from_str [49; 46; 43; 53] = Ok 1050000000000000000.
Proof. by vm_compute. Qed.

(** Rounding to a step is correct on non-negative values: the floor is the largest multiple not
    above and the ceiling the smallest multiple not below, and a step of zero or less disables
    rounding. *)
Theorem step_rounding_tight (self step k : Fixed) :
  0 <= self -> self + Z.max 0 step <= I128_MAX ->
  (0 < step ->
     Z.divide step (floor_to_multiple self step) /\ Z.divide step (ceil_to_multiple self step) /\
     floor_to_multiple self step <= self <= ceil_to_multiple self step /\
     (k * step <= self -> k * step <= floor_to_multiple self step) /\
     (self <= k * step -> ceil_to_multiple self step <= k * step)) /\
  (step <= 0 -> floor_to_multiple self step = self /\ ceil_to_multiple self step = self).
Proof.
  intros Hs Hr. split.
  - intros Hstep. destruct (floor_to_multiple_nonneg self step Hs ltac:(range_lia)) as [Hf Hf'].
    destruct (ceil_to_multiple_bounds self step Hs ltac:(lia)) as [Hc Hc'].
    destruct (Hf' Hstep) as [[a Ea] Hfl]. destruct (Hc' Hstep) as [[b Eb] Hcl].
    split_and!; [by exists a|by exists b|lia|lia| |].
    + intros Hk. rewrite Ea in *. assert (k < a + 1) by (apply (Z.mul_lt_mono_pos_r step); lia). nia.
    + intros Hk. rewrite Eb in *. assert (b - 1 < k) by (apply (Z.mul_lt_mono_pos_r step); lia). nia.
  - intros Hstep. unfold floor_to_multiple, ceil_to_multiple.
    by rewrite (proj2 (Z.leb_le step 0)) by done.
Qed.

(** Quantising to a number of decimals rounds half away from zero: the result has at most that
    many decimals, is within half a step of the value, has its sign, and values that already fit
    are unchanged. *)
Theorem quantize_rounds_half_away (self decimals : Z) :
  let step := 10 ^ (DECIMALS - decimals) in
  0 <= decimals < DECIMALS -> Z.abs self + step <= I128_MAX ->
  has_at_most_decimals (quantize self decimals) decimals = true /\
  2 * Z.abs (quantize self decimals - self) <= step /\
  0 <= quantize self decimals * self /\
  (2 * (Z.abs self mod step) = step -> Z.abs self < Z.abs (quantize self decimals)) /\
  (has_at_most_decimals self decimals = true -> quantize self decimals = self).
Proof.
  intros step Hd Hr. destruct (quantize_spec self decimals Hd Hr) as (q & Eq & Hq).
  fold step in Eq, Hq. assert (Hstep : 0 < step) by (apply Z.pow_pos_nonneg; lia).
  assert (Hq0 : 0 <= q * step).
  { apply Z.mul_nonneg_nonneg; [|lia]. assert (-1 < q) by (apply (Z.mul_lt_mono_pos_r step); lia). lia. }
  rewrite Eq. split_and!.
  - apply has_at_most_decimals_spec; [lia|]. rewrite Z.max_r by lia. fold step.
    exists (Z.sgn self * q). lia.
  - destruct (Z.sgn_spec self) as [[? ->]|[[? ->]|[? ->]]]; lia.
  - destruct (Z.sgn_spec self) as [[? ->]|[[? ->]|[? ->]]]; nia.
  - intros Hhalf. pose proof (Z.div_mod (Z.abs self) step ltac:(lia)) as Hdm.
    assert (Hgt : Z.abs self < q * step).
    { set (d := Z.abs self / step) in *.
      assert (d < q) by (apply (Z.mul_lt_mono_pos_r step); lia).
      assert ((d + 1) * step <= q * step) by (apply Z.mul_le_mono_nonneg_r; lia). lia. }
    destruct (Z.sgn_spec self) as [[? ->]|[[? ->]|[? ->]]]; [lia| |lia]. exfalso.
    replace self with 0 in Hhalf by lia. simpl in Hhalf. rewrite Zmod_0_l in Hhalf. lia.
  - intros Hfit. apply has_at_most_decimals_spec in Hfit; [|lia]. rewrite Z.max_r in Hfit by lia.
    fold step in Hfit. destruct Hfit as [k Ek].
    assert (Ea : Z.abs self = Z.abs k * step) by (rewrite Ek, Z.abs_mul; lia).
    assert (q < Z.abs k + 1) by (apply (Z.mul_lt_mono_pos_r step); lia).
    assert (Z.abs k < q + 1) by (apply (Z.mul_lt_mono_pos_r step); lia).
    replace q with (Z.abs k) by lia. rewrite <- Ea, Z.mul_comm. apply Z.abs_sgn.
Qed.

(** The error set of a fill survives its two wire forms: a byte decodes exactly when it is one
    of the eight sets of known codes and then to itself, listing a set's codes and inserting them
    again gives the set back, and every code is found again under its JSON name. *)
Theorem match_errors_roundtrip (bits : Z) :
  0 <= bits < 256 ->
  (from_bits bits = Some bits <-> bits < 8) /\ (from_bits bits = None <-> 8 <= bits) /\
  (bits < 8 -> errors_visit_seq (errors_codes bits) = bits /\
     Forall (fun c => code_from_name (code_as_str c) = Some c) (errors_codes bits)).
Proof.
  intros Hb. assert (Hiff : from_bits bits = if bits <? 8 then Some bits else None).
  { assert (Hc : Forall (fun b => from_bits b = if b <? 8 then Some b else None) (seqZ 0 256)).
    { apply Forall_forall. intros b Hin. vm_compute in Hin.
      repeat (apply elem_of_cons in Hin as [->|Hin]; [reflexivity|]). by apply not_elem_of_nil in Hin. }
    rewrite Forall_forall in Hc. apply Hc. rewrite elem_of_seqZ. lia. }
  rewrite Hiff. destruct (Z.ltb_spec bits 8) as [Hlt|Hge].
  - split_and!; [done|split; [done|lia]|]. intros _. split; [apply errors_codes_visit; lia|].
    apply Forall_true. apply code_from_as.
  - split_and!; [split; [done|lia]|done|lia].
Qed.

(** ** Witnesses *)

Definition unit_price : Fixed := 1000000000000000000.

Lemma fixed_mul_div_exact_witness : checked_mul (3 * unit_price) (5 * unit_price) = Some (15 * unit_price).
Proof.
  destruct (fixed_mul_div_exact (3 * unit_price) (5 * unit_price)) as [E _];
    [vm_compute; split; discriminate|vm_compute; split; discriminate|].
  rewrite E. reflexivity.
Defined.

Definition demo_taker : Order := with_fee_rates (Order_new Buy (5 * unit_price) (3 * unit_price) 0) 0 1000.
Definition demo_maker : Order := Order_new Sell (5 * unit_price) (3 * unit_price) 0.

Lemma fill_error_bits_witness :
  errors_contains (m_error (new_with_policy demo_taker demo_maker (3 * unit_price) PolicyQuote))
    NotionalOverflow = false.
Proof.
  destruct (fill_error_bits demo_taker demo_maker (3 * unit_price) PolicyQuote) as [E _];
    [vm_compute; split; [reflexivity|discriminate]|vm_compute; split; [reflexivity|discriminate]
    |vm_compute; split; discriminate|vm_compute; split; discriminate|].
  rewrite E. reflexivity.
Defined.

Lemma fixed_text_roundtrip_witness : from_str (to_string (-1500000000000000000)) = Ok (-1500000000000000000).
Proof. rewrite (fixed_text_roundtrip (-1500000000000000000)); [reflexivity|vm_compute; split; discriminate]. Defined.

Lemma step_rounding_tight_witness : floor_to_multiple 17 5 <= 17 <= ceil_to_multiple 17 5.
Proof.
  destruct (step_rounding_tight 17 5 0) as [Hs _]; [lia|vm_compute; discriminate|].
  destruct (Hs eq_refl) as (_ & _ & Hb & _). exact Hb.
Defined.

Lemma quantize_rounds_half_away_witness :
  has_at_most_decimals (quantize 1250000000000000000 1) 1 = true.
Proof.
  destruct (quantize_rounds_half_away 1250000000000000000 1) as [E _];
    [vm_compute; split; [discriminate|reflexivity]|vm_compute; discriminate|exact E].
Defined.

Lemma match_errors_roundtrip_witness : errors_visit_seq (errors_codes 5) = 5.
Proof. apply (match_errors_roundtrip 5); lia. Defined.
