(* ===== verification/SnapshotFile.v ===== *)
(** * The snapshot file ([src/src/store/state_machine.rs], file format helpers)

    The framing of [current.snap] (magic, version, CRC32 of the body, postcard body), its decoder,
    and the crash-safe writer: temp file, streamed body with a running CRC, patched header, rename.
    A directory is a map from file names to their bytes, and writing is the sequence of directory
    states after each system call. [crc32fast] and the postcard payload are parameters. *)

From stdpp Require Import strings gmap.
From S2P Require Import Prelude.

(** ** Little-endian integers *)

(** [u32::to_le_bytes] and [u32::from_le_bytes]. *)
Definition to_le_bytes (v : Z) : list Z :=
  [Z.land v 255; Z.land (Z.shiftr v 8) 255; Z.land (Z.shiftr v 16) 255; Z.land (Z.shiftr v 24) 255].

Definition from_le_bytes (bytes : list Z) : option Z :=
  match bytes with
  | [b0; b1; b2; b3] =>
      Some (Z.lor (Z.lor b0 (Z.shiftl b1 8)) (Z.lor (Z.shiftl b2 16) (Z.shiftl b3 24)))
  | _ => None
  end.

Definition is_byte (b : Z) : Prop := 0 <= b < 256.

Lemma land_255 v : Z.land v 255 = v mod 2 ^ 8.
Proof. change 255 with (Z.ones 8). by rewrite Z.land_ones. Qed.

Lemma to_le_bytes_bytes v : Forall is_byte (to_le_bytes v) /\ length (to_le_bytes v) = 4%nat.
Proof.
  split; [|done]. unfold to_le_bytes. repeat constructor; rewrite land_255;
    pose proof (Z.mod_pos_bound v (2 ^ 8)); pose proof (Z.mod_pos_bound (Z.shiftr v 8) (2 ^ 8));
    pose proof (Z.mod_pos_bound (Z.shiftr v 16) (2 ^ 8));
    pose proof (Z.mod_pos_bound (Z.shiftr v 24) (2 ^ 8)); lia.
Qed.

Lemma testbit_high v n : 0 <= v < 2 ^ n -> 0 <= n -> forall i, n <= i -> Z.testbit v i = false.
Proof.
  intros Hv Hn i Hi. destruct (decide (v = 0)) as [->|Hnz]; [apply Z.testbit_0_l|].
  apply Z.bits_above_log2; [lia|]. apply Z.log2_lt_pow2; [lia|].
  apply Z.lt_le_trans with (2 ^ n); [lia|]. by apply Z.pow_le_mono_r.
Qed.

Lemma from_to_le_bytes v : 0 <= v < 2 ^ 32 -> from_le_bytes (to_le_bytes v) = Some v.
Proof.
  intros Hv. unfold from_le_bytes, to_le_bytes. f_equal. apply Z.bits_inj'. intros i Hi.
  change 255 with (Z.ones 8).
  rewrite !Z.lor_spec, !Z.shiftl_spec, !Z.land_spec by done.
  destruct (Z_lt_le_dec i 32) as [Hlt|Hge].
  - assert (Hc : i < 8 \/ 8 <= i < 16 \/ 16 <= i < 24 \/ 24 <= i < 32) by lia.
    destruct Hc as [Hc|[Hc|[Hc|Hc]]];
      repeat match goal with
      | |- context [Z.testbit (Z.ones 8) ?k] =>
          first [ rewrite (Z.ones_spec_low 8 k) by lia | rewrite (Z.ones_spec_high 8 k) by lia
                | rewrite (Z.testbit_neg_r (Z.ones 8) k) by lia ]
      end;
      rewrite ?Z.shiftr_spec by lia; rewrite ?andb_true_r, ?andb_false_r, ?orb_false_r, ?orb_false_l;
      f_equal; lia.
  - rewrite (testbit_high v 32) by lia.
    repeat match goal with
      | |- context [Z.testbit (Z.ones 8) ?k] => rewrite (Z.ones_spec_high 8 k) by lia
    end. by rewrite !andb_false_r.
Qed.

(** ** Third-party interfaces *)

(** [crc32fast]: hashing a buffer at once or piece by piece. *)
Class Crc32 : Type := {
  crc_hash : list Z -> Z;
  Hasher : Type;
  hasher_new : Hasher;
  hasher_update : list Z -> Hasher -> Hasher;
  hasher_finalize : Hasher -> Z;
}.

Class Crc32Laws `{Crc32} : Prop := {
  crc_range : forall bytes, 0 <= crc_hash bytes < 2 ^ 32;
  crc_streaming : forall pieces,
    hasher_finalize (foldl (fun h piece => hasher_update piece h) hasher_new pieces) =
    crc_hash (concat pieces);
}.

Definition SNAPSHOT_FILE : string := "current.snap".
Definition SNAPSHOT_TMP : string := "current.snap.tmp".
Definition SNAPSHOT_MAGIC : list Z := [77; 82; 70; 83; 78; 65; 80].
Definition SNAPSHOT_VERSION : Z := 10.
Definition SNAPSHOT_HEADER_LEN : nat := (length SNAPSHOT_MAGIC + 4 + 4)%nat.

Inductive SnapshotError : Type :=
| NotASnapshot
| UnsupportedVersion (version : Z)
| ChecksumMismatch
| CorruptSnapshot.

(** A directory: file names to contents. *)
Notation Dir := (gmap string (list Z)).

Section SnapshotFile.
Context `{Crc32} {Payload : Type}.
(** The postcard encoding of [SnapshotPayload], metadata and content bytes; [to_io] hands it to
    the writer in pieces. *)
Variable payload_pieces : Payload -> option (list (list Z)).
Variable decode_payload : list Z -> option Payload.

(** [bytes[from..to]]. *)
Definition slice (from to : nat) (bytes : list Z) : list Z := take (to - from) (drop from bytes).

Definition decode_snapshot_bytes (bytes : list Z) : Result Payload SnapshotError :=
  if bool_decide (length bytes < SNAPSHOT_HEADER_LEN)%nat
     || negb (bool_decide (slice 0 (length SNAPSHOT_MAGIC) bytes = SNAPSHOT_MAGIC))
  then Err NotASnapshot
  else
    let m := length SNAPSHOT_MAGIC in
    match from_le_bytes (slice m (m + 4) bytes) with
    | None => Err NotASnapshot (* unreachable: the slice has four bytes *)
    | Some version =>
        if negb (version =? SNAPSHOT_VERSION) then Err (UnsupportedVersion version)
        else
          match from_le_bytes (slice (m + 4) SNAPSHOT_HEADER_LEN bytes) with
          | None => Err NotASnapshot
          | Some expected_crc =>
              if negb (crc_hash (drop SNAPSHOT_HEADER_LEN bytes) =? expected_crc)
              then Err ChecksumMismatch
              else
                match decode_payload (drop SNAPSHOT_HEADER_LEN bytes) with
                | None => Err CorruptSnapshot
                | Some payload => Ok payload
                end
          end
    end.

Definition read_snapshot_file (dir : Dir) : Result (option Payload) SnapshotError :=
  match dir !! SNAPSHOT_FILE with
  | None => Ok None
  | Some bytes =>
      match decode_snapshot_bytes bytes with
      | Ok payload => Ok (Some payload)
      | Err e => Err e
      end
  end.

(** [CrcWriter]: the underlying file accepts a prefix of every buffer ([written] of them) and
    exactly the accepted bytes are hashed. *)
Record CrcWriter : Type := mkCrcWriter { cw_inner : list Z; cw_hasher : Hasher }.

Definition crc_write (buf : list Z) (written : nat) (w : CrcWriter) : CrcWriter :=
  mkCrcWriter (cw_inner w ++ take written buf) (hasher_update (take written buf) (cw_hasher w)).

(** [write_all]: retry with the rest of the buffer; [accepts] is what the file takes each time. *)
Fixpoint crc_write_all (accepts : list nat) (buf : list Z) (w : CrcWriter) : CrcWriter :=
  match buf, accepts with
  | [], _ => w
  | _, [] => crc_write buf (length buf) w
  | _, n :: accepts => crc_write_all accepts (drop n buf) (crc_write buf n w)
  end.

(** The writer before each piece and after the last one. *)
Fixpoint write_pieces (accepts : list (list nat)) (pieces : list (list Z)) (w : CrcWriter)
    : list CrcWriter :=
  match pieces with
  | [] => [w]
  | piece :: pieces =>
      w :: write_pieces (tail accepts) pieces (crc_write_all (default [] (head accepts)) piece w)
  end.

Definition overwrite (pos : nat) (bytes file : list Z) : list Z :=
  take pos file ++ bytes ++ drop (pos + length bytes) file.

(** The directory after each system call of [write_snapshot_file]; [accepts] says how the file
    splits each piece of the body. [None] when the payload does not encode. *)
Definition write_snapshot_file (payload : Payload) (accepts : list (list nat)) (dir : Dir)
    : option (list Dir) :=
  let header := SNAPSHOT_MAGIC ++ to_le_bytes SNAPSHOT_VERSION ++ to_le_bytes 0 in
  match payload_pieces payload with
  | None => None
  | Some pieces =>
      let writers := write_pieces accepts pieces (mkCrcWriter header hasher_new) in
      let w := default (mkCrcWriter header hasher_new) (last writers) in
      let crc := hasher_finalize (cw_hasher w) in
      let file := overwrite (length SNAPSHOT_MAGIC + 4) (to_le_bytes crc) (cw_inner w) in
      let at_tmp contents := <[SNAPSHOT_TMP := contents]> dir in
      Some ([at_tmp []; at_tmp SNAPSHOT_MAGIC; at_tmp (SNAPSHOT_MAGIC ++ to_le_bytes SNAPSHOT_VERSION)]
            ++ ((fun w => at_tmp (cw_inner w)) <$> writers)
            ++ [at_tmp file; <[SNAPSHOT_FILE := file]> (delete SNAPSHOT_TMP dir)])
  end.

(** ** The image that ends up in the file *)

Definition snapshot_image (body : list Z) : list Z :=
  SNAPSHOT_MAGIC ++ to_le_bytes SNAPSHOT_VERSION ++ to_le_bytes (crc_hash body) ++ body.

Lemma decode_image `{!Crc32Laws} body :
  decode_snapshot_bytes (snapshot_image body) =
  match decode_payload body with Some payload => Ok payload | None => Err CorruptSnapshot end.
Proof.
  unfold decode_snapshot_bytes, snapshot_image, slice, SNAPSHOT_HEADER_LEN.
  rewrite (bool_decide_eq_false_2 (_ < _)%nat) by (rewrite length_app; simpl; lia).
  rewrite (bool_decide_eq_true_2 (_ = SNAPSHOT_MAGIC)) by done.
  change (take _ (drop (length SNAPSHOT_MAGIC) _)) with (to_le_bytes SNAPSHOT_VERSION) at 1.
  rewrite from_to_le_bytes by done. simpl negb. cbv iota.
  change (take _ (drop _ _)) with (to_le_bytes (crc_hash body)) at 1.
  rewrite from_to_le_bytes by apply crc_range.
  change (drop _ _) with body at 1. rewrite Z.eqb_refl. done.
Qed.

(** However the file splits the buffers, all of them arrive and all of them are hashed. *)
Lemma crc_write_all_spec accepts : forall buf w,
  exists pieces, concat pieces = buf /\
    crc_write_all accepts buf w =
    mkCrcWriter (cw_inner w ++ buf) (foldl (fun h p => hasher_update p h) (cw_hasher w) pieces).
Proof.
  induction accepts as [|n accepts IH]; intros buf w.
  - destruct buf as [|x buf]; simpl.
    + exists []. rewrite app_nil_r. by destruct w.
    + exists [x :: buf]. simpl. rewrite app_nil_r. split; [done|].
      unfold crc_write. by rewrite take_ge by (simpl; lia).
  - destruct buf as [|x buf]; [exists []; simpl; rewrite app_nil_r; by destruct w|].
    cbn [crc_write_all]. destruct (IH (drop n (x :: buf)) (crc_write (x :: buf) n w)) as (ps & Ec & Ew).
    exists (take n (x :: buf) :: ps). rewrite Ew. cbn [concat foldl cw_inner cw_hasher crc_write].
    rewrite Ec, take_drop, <- app_assoc, take_drop. done.
Qed.

Lemma write_pieces_last pieces : forall accepts w,
  exists ps, concat ps = concat pieces /\
    last (write_pieces accepts pieces w) =
    Some (mkCrcWriter (cw_inner w ++ concat pieces)
            (foldl (fun h p => hasher_update p h) (cw_hasher w) ps)).
Proof.
  induction pieces as [|piece pieces IH]; intros accepts w.
  - exists []. simpl. rewrite app_nil_r. by destruct w.
  - cbn [write_pieces concat].
    destruct (crc_write_all_spec (default [] (head accepts)) piece w) as (ps1 & E1 & Ew).
    rewrite Ew. destruct (IH (tail accepts) (mkCrcWriter (cw_inner w ++ piece)
      (foldl (fun h p => hasher_update p h) (cw_hasher w) ps1))) as (ps2 & E2 & El).
    exists (ps1 ++ ps2). rewrite concat_app, E1, E2. split; [done|].
    rewrite last_cons, El. cbn [cw_inner cw_hasher]. by rewrite <- app_assoc, foldl_app.
Qed.

Lemma overwrite_crc crc body :
  overwrite (length SNAPSHOT_MAGIC + 4) (to_le_bytes crc)
    ((SNAPSHOT_MAGIC ++ to_le_bytes SNAPSHOT_VERSION ++ to_le_bytes 0) ++ body) =
  SNAPSHOT_MAGIC ++ to_le_bytes SNAPSHOT_VERSION ++ to_le_bytes crc ++ body.
Proof. done. Qed.

(** Every state but the last leaves the current snapshot alone; the last one replaces it. *)
Lemma write_snapshot_file_spec `{!Crc32Laws} payload accepts dir states pieces :
  payload_pieces payload = Some pieces ->
  write_snapshot_file payload accepts dir = Some states ->
  Forall (fun d => d !! SNAPSHOT_FILE = dir !! SNAPSHOT_FILE \/
                   d !! SNAPSHOT_FILE = Some (snapshot_image (concat pieces))) states /\
  last states = Some (<[SNAPSHOT_FILE := snapshot_image (concat pieces)]> (delete SNAPSHOT_TMP dir)).
Proof.
  intros Hp Hw. unfold write_snapshot_file in Hw. rewrite Hp in Hw.
  set (header := SNAPSHOT_MAGIC ++ _ ++ _) in Hw.
  destruct (write_pieces_last pieces accepts (mkCrcWriter header hasher_new)) as (ps & Ec & El).
  rewrite El in Hw. cbn [from_option id cw_hasher cw_inner] in Hw. rewrite crc_streaming, Ec in Hw.
  unfold header in Hw. rewrite overwrite_crc in Hw. fold (snapshot_image (concat pieces)) in Hw.
  injection Hw as <-.
  assert (Htmp : forall c : list Z, <[SNAPSHOT_TMP := c]> dir !! SNAPSHOT_FILE = dir !! SNAPSHOT_FILE).
  { intros c. by rewrite lookup_insert_ne. }
  split.
  - repeat (apply Forall_cons; split; [by left|]). apply Forall_app. split.
    + apply Forall_fmap, Forall_true. intros w. by left.
    + repeat (apply Forall_cons; split); [by left| |done]. right. by rewrite lookup_insert_eq.
  - by rewrite !last_cons, last_app.
Qed.
End SnapshotFile.

(** C37: The snapshot file round-trips and is crash-safe. Whatever pieces the encoder produces and
    however the file splits them, after every system call of the writer the directory's current
    snapshot reads either exactly as before or as the complete new payload, and when the writer is
    done it reads as the new payload. *)
Theorem snapshot_write_crash_safe `{!Crc32} `{!Crc32Laws} {Payload : Type}
    (payload_pieces : Payload -> option (list (list Z))) (decode_payload : list Z -> option Payload)
    (codec : forall p pieces, payload_pieces p = Some pieces -> decode_payload (concat pieces) = Some p)
    (payload : Payload) (accepts : list (list nat)) (dir : gmap string (list Z))
    (states : list (gmap string (list Z))) :
  write_snapshot_file payload_pieces payload accepts dir = Some states ->
  (forall d, d ∈ states ->
     read_snapshot_file decode_payload d = read_snapshot_file decode_payload dir \/
     read_snapshot_file decode_payload d = Ok (Some payload)) /\
  exists final, last states = Some final /\
    read_snapshot_file decode_payload final = Ok (Some payload).
Proof.
  intros Hw. destruct (payload_pieces payload) as [pieces|] eqn:Hp;
    [|by unfold write_snapshot_file in Hw; rewrite Hp in Hw].
  destruct (write_snapshot_file_spec payload_pieces payload accepts dir states pieces Hp Hw) as [Hs Hl].
  assert (Hnew : decode_snapshot_bytes decode_payload (snapshot_image (concat pieces)) = Ok payload).
  { by rewrite decode_image, (codec _ _ Hp). }
  split.
  - intros d Hd. rewrite Forall_forall in Hs. unfold read_snapshot_file.
    destruct (Hs d Hd) as [->| ->]; [by left|right]. by rewrite Hnew.
  - eexists. split; [exact Hl|]. unfold read_snapshot_file. by rewrite lookup_insert_eq, Hnew.
Qed.

(** A snapshot that is accepted was framed correctly: decoding succeeds only on bytes that are
    long enough, start with the magic, carry the supported version and the CRC of their body, and
    whose body decodes to the returned payload; each violation is reported as its own error. *)
Theorem snapshot_decode_checks `{!Crc32} {Payload : Type} (decode_payload : list Z -> option Payload)
    (bytes : list Z) :
  match decode_snapshot_bytes decode_payload bytes with
  | Ok payload =>
      (SNAPSHOT_HEADER_LEN <= length bytes)%nat /\ take 7 bytes = SNAPSHOT_MAGIC /\
      from_le_bytes (slice 7 11 bytes) = Some SNAPSHOT_VERSION /\
      from_le_bytes (slice 11 15 bytes) = Some (crc_hash (drop 15 bytes)) /\
      decode_payload (drop 15 bytes) = Some payload
  | Err NotASnapshot => (length bytes < SNAPSHOT_HEADER_LEN)%nat \/ take 7 bytes <> SNAPSHOT_MAGIC
  | Err (UnsupportedVersion v) =>
      take 7 bytes = SNAPSHOT_MAGIC /\ from_le_bytes (slice 7 11 bytes) = Some v /\ v <> SNAPSHOT_VERSION
  | Err ChecksumMismatch => from_le_bytes (slice 11 15 bytes) <> Some (crc_hash (drop 15 bytes))
  | Err CorruptSnapshot => decode_payload (drop 15 bytes) = None
  end.
Proof.
  unfold decode_snapshot_bytes. change (slice 0 (length SNAPSHOT_MAGIC) bytes) with (take 7 bytes).
  change (length SNAPSHOT_MAGIC + 4)%nat with 11%nat. change (length SNAPSHOT_MAGIC) with 7%nat.
  change SNAPSHOT_HEADER_LEN with 15%nat.
  case_bool_decide as Hlen; simpl; [by left|]. case_bool_decide as Hm; simpl; [|by right].
  assert (Hfour : forall k, (k + 4 <= 15)%nat -> is_Some (from_le_bytes (slice k (k + 4) bytes))).
  { intros k Hk. unfold slice. replace (k + 4 - k)%nat with 4%nat by lia.
    assert (Hl : (4 <= length (drop k bytes))%nat) by (rewrite length_drop; lia).
    destruct (drop k bytes) as [|a [|b [|c [|d l]]]]; simpl in Hl; try lia. by eexists. }
  destruct (Hfour 7%nat ltac:(lia)) as [v Ev]. destruct (Hfour 11%nat ltac:(lia)) as [crc Ecrc].
  simpl in Ev, Ecrc. rewrite Ev. destruct (Z.eqb_spec v SNAPSHOT_VERSION) as [->|Hv]; simpl; [|done].
  rewrite Ecrc. destruct (Z.eqb_spec (crc_hash (drop 15 bytes)) crc) as [<-|Hc]; simpl; [|congruence].
  destruct (decode_payload (drop 15 bytes)) as [p|] eqn:Ed; [|done]. split_and!; try done; lia.
Qed.

(** ** Witness: a checksum that adds bytes up and a payload that is its own encoding *)

Definition sum_bytes (acc : Z) (bytes : list Z) : Z := foldl (fun a b => (a + b) mod 2 ^ 32) acc bytes.

#[local] Instance sum_crc : Crc32 :=
  {| crc_hash := sum_bytes 0; Hasher := Z; hasher_new := 0;
     hasher_update := fun piece h => sum_bytes h piece; hasher_finalize := fun h => h |}.

#[local] Instance sum_crc_laws : Crc32Laws.
Proof.
  split.
  - intros bytes. unfold crc_hash, sum_crc, sum_bytes. destruct bytes as [|b l] using rev_ind; [done|].
    rewrite foldl_snoc. apply Z.mod_pos_bound. done.
  - intros pieces. unfold hasher_finalize, hasher_update, hasher_new, crc_hash, sum_crc.
    assert (Hgen : forall h : Z,
      foldl (fun h piece => sum_bytes h piece) h pieces = sum_bytes h (concat pieces)).
    { induction pieces as [|p ps IH]; intros h; [done|].
      cbn [foldl concat]. rewrite IH. unfold sum_bytes. by rewrite foldl_app. }
    apply Hgen.
Qed.

Lemma snapshot_write_crash_safe_witness :
  exists states final,
    write_snapshot_file (fun p : list Z => Some [take 2 p; drop 2 p]) [1; 2; 3] [[1%nat]] ∅ = Some states /\
    last states = Some final /\ read_snapshot_file (fun b => Some b) final = Ok (Some [1; 2; 3]).
Proof.
  assert (Hcodec : forall (p : list Z) pieces, Some [take 2 p; drop 2 p] = Some pieces ->
            Some (concat pieces) = Some p).
  { intros p pieces [= <-]. simpl. rewrite app_nil_r, take_drop. reflexivity. }
  eexists. destruct (snapshot_write_crash_safe (fun p : list Z => Some [take 2 p; drop 2 p])
                       (fun b => Some b) Hcodec [1; 2; 3] [[1%nat]] ∅ _ eq_refl)
    as (_ & final & El & Er).
  exists final. split; [reflexivity|]. split; [exact El|exact Er].
Defined.
