(* ===== verification/MarketMessage.v ===== *)
(** * Market-data messages ([src/src/market_data/mod.rs], wire records)

    The streams, header flags and records of the feed, the messages the processor publishes and
    the wire codec carries, and the well-typedness of a message: every field inside the machine
    type its struct declares. *)

From S2P Require Import Prelude Fixed Order OrderBook MatchEvent.

(** ** Streams and flags *)

Definition STREAM_TRADE : Z := 2001.
Definition STREAM_BBO : Z := 2002.
Definition STREAM_DEPTH_SNAPSHOT : Z := 2003.
Definition STREAM_DEPTH_DELTA : Z := 2004.
Definition STREAM_LIFECYCLE : Z := 2005.
Definition STREAM_STATUS : Z := 2006.
Definition STREAM_BAR : Z := 2007.

Definition GAP_SUB_SEQ : Z := 65535.
Definition SNAPSHOT_BBO_SUB_SEQ : Z := 1.

(** [pub mod flags]. *)
Definition FLAG_SNAPSHOT : Z := Z.shiftl 1 0.
Definition FLAG_RESET : Z := Z.shiftl 1 1.
Definition FLAG_GAP : Z := Z.shiftl 1 2.
Definition FLAG_END_OF_BATCH : Z := Z.shiftl 1 3.
Definition FLAG_PARTIAL_BAR : Z := Z.shiftl 1 5.
Definition FLAG_BAR_CLOSE : Z := Z.shiftl 1 6.

(** ** Records *)

Record TradeRecord : Type := mkTrade {
  tr_log_index : Z;
  tr_ordinal : Z;
  tr_ts_ms : Z;
  tr_price : Fixed;
  tr_volume : Fixed;
  tr_quote_volume : Fixed;
  tr_taker_fee : Fixed;
  tr_taker_fee_asset : option FeeAsset;
  tr_maker_fee : Fixed;
  tr_maker_fee_asset : option FeeAsset;
  tr_error : MatchErrors;
  tr_taker_side : OrderSide;
  tr_taker_sequence : Z;
  tr_maker_sequence : Z;
}.

Record BboRecord : Type := mkBbo {
  bbo_last_trade : option Fixed;
  bbo_bid : Fixed;
  bbo_bid_volume : Fixed;
  bbo_ask : Fixed;
  bbo_ask_volume : Fixed;
  bbo_mid : option Fixed;
  bbo_spread : option Fixed;
}.

Record DepthSnapshotRecord : Type := mkDepthSnapshot {
  ds_bids : list DepthLevel;
  ds_asks : list DepthLevel;
}.

Record LevelUpdate : Type := mkLevelUpdate {
  lu_side : OrderSide;
  lu_level : DepthLevel;
}.

Record LifecycleRecord : Type := mkLifecycle {
  lc_log_index : Z;
  lc_ordinal : Z;
  lc_ts_ms : Z;
  lc_kind : MatchEventKind;
  lc_order_sequence : Z;
  lc_side : OrderSide;
  lc_counterparty_sequence : option Z;
  lc_price : Fixed;
  lc_volume : Fixed;
  lc_quote_volume : Fixed;
  lc_volume_unit : VolumeUnit;
  lc_taker_fee : Fixed;
  lc_taker_fee_asset : option FeeAsset;
  lc_maker_fee : Fixed;
  lc_maker_fee_asset : option FeeAsset;
  lc_error : MatchErrors;
  lc_reason : option RejectReason;
}.

Record BarRecord : Type := mkBar {
  bar_interval_ms : Z;
  bar_window_start_ms : Z;
  bar_last_ts_ms : Z;
  bar_open : Fixed;
  bar_high : Fixed;
  bar_low : Fixed;
  bar_close : Fixed;
  bar_volume : Fixed;
  bar_trade_count : Z;
  bar_bar_seq : Z;
}.

Record StatusRecord : Type := mkStatus {
  st_last_log_index : Z;
  st_last_ordinal : Z;
  st_last_market_seq : Z;
  st_last_sub_seq : Z;
  st_applied_index : Z;
  st_book_sequence : Z;
  st_pending_stops : Z;
}.

Record GapRecord : Type := mkGap {
  gap_last_good_log_index : Z;
  gap_last_good_ordinal : Z;
  gap_dropped : Z;
}.

Inductive MessageBody : Type :=
| BodyTrade (records : list TradeRecord)
| BodyBbo (bbo : BboRecord)
| BodyDepthSnapshot (snapshot : DepthSnapshotRecord)
| BodyDepthDelta (updates : list LevelUpdate)
| BodyLifecycle (records : list LifecycleRecord)
| BodyStatus (status : StatusRecord)
| BodyGap (gap : GapRecord)
| BodyBar (bar : BarRecord).

Record MarketMessage : Type := mkMessage {
  mm_stream : Z;
  mm_flags : Z;
  mm_market_seq : Z;
  mm_sub_seq : Z;
  mm_log_index : Z;
  mm_ordinal : Z;
  mm_epoch : Z;
  mm_leader_id : Z;
  mm_ts_ms : Z;
  mm_symbol_id : Z;
  mm_body : MessageBody;
}.

(** ** Well-typed messages *)

Definition in_u8 (z : Z) : Prop := 0 <= z < 2 ^ 8.
Definition in_u16 (z : Z) : Prop := 0 <= z < 2 ^ 16.
Definition in_u32 (z : Z) : Prop := 0 <= z < 2 ^ 32.

(** An [Option] whose value, if any, is typed. *)
Definition in_option (P : Z -> Prop) (o : option Z) : Prop :=
  match o with Some z => P z | None => True end.

(** [MatchErrors] only ever holds its known bits: [from_bits] accepts it. *)
Definition in_errors (bits : Z) : Prop := in_u8 bits /\ from_bits bits = Some bits.

Definition trade_typed (r : TradeRecord) : Prop :=
  in_u64 (tr_log_index r) /\ in_u32 (tr_ordinal r) /\ in_u64 (tr_ts_ms r) /\
  in_i128 (tr_price r) /\ in_i128 (tr_volume r) /\ in_i128 (tr_quote_volume r) /\
  in_i128 (tr_taker_fee r) /\ in_i128 (tr_maker_fee r) /\ in_errors (tr_error r) /\
  in_u64 (tr_taker_sequence r) /\ in_u64 (tr_maker_sequence r).

Definition bbo_typed (r : BboRecord) : Prop :=
  in_option in_i128 (bbo_last_trade r) /\ in_i128 (bbo_bid r) /\ in_i128 (bbo_bid_volume r) /\
  in_i128 (bbo_ask r) /\ in_i128 (bbo_ask_volume r) /\ in_option in_i128 (bbo_mid r) /\
  in_option in_i128 (bbo_spread r).

Definition level_typed (l : DepthLevel) : Prop :=
  in_i128 (dl_price l) /\ in_i128 (dl_volume l) /\ in_u32 (dl_orders l).

Definition lifecycle_typed (r : LifecycleRecord) : Prop :=
  in_u64 (lc_log_index r) /\ in_u32 (lc_ordinal r) /\ in_u64 (lc_ts_ms r) /\
  in_u64 (lc_order_sequence r) /\ in_option in_u64 (lc_counterparty_sequence r) /\
  in_i128 (lc_price r) /\ in_i128 (lc_volume r) /\ in_i128 (lc_quote_volume r) /\
  in_i128 (lc_taker_fee r) /\ in_i128 (lc_maker_fee r) /\ in_errors (lc_error r).

Definition status_typed (r : StatusRecord) : Prop :=
  in_u64 (st_last_log_index r) /\ in_u32 (st_last_ordinal r) /\ in_u64 (st_last_market_seq r) /\
  in_u16 (st_last_sub_seq r) /\ in_u64 (st_applied_index r) /\ in_u64 (st_book_sequence r) /\
  in_u32 (st_pending_stops r).

Definition gap_typed (r : GapRecord) : Prop :=
  in_u64 (gap_last_good_log_index r) /\ in_u32 (gap_last_good_ordinal r) /\
  in_u32 (gap_dropped r).

Definition bar_typed (r : BarRecord) : Prop :=
  in_u64 (bar_interval_ms r) /\ in_u64 (bar_window_start_ms r) /\ in_u64 (bar_last_ts_ms r) /\
  in_i128 (bar_open r) /\ in_i128 (bar_high r) /\ in_i128 (bar_low r) /\ in_i128 (bar_close r) /\
  in_i128 (bar_volume r) /\ in_u32 (bar_trade_count r) /\ in_u64 (bar_bar_seq r).

Definition body_typed (b : MessageBody) : Prop :=
  match b with
  | BodyTrade records => Forall trade_typed records
  | BodyBbo bbo => bbo_typed bbo
  | BodyDepthSnapshot s => Forall level_typed (ds_bids s) /\ Forall level_typed (ds_asks s)
  | BodyDepthDelta updates => Forall (fun u => level_typed (lu_level u)) updates
  | BodyLifecycle records => Forall lifecycle_typed records
  | BodyStatus status => status_typed status
  | BodyGap gap => gap_typed gap
  | BodyBar bar => bar_typed bar
  end.

Definition message_typed (m : MarketMessage) : Prop :=
  in_u16 (mm_stream m) /\ in_u16 (mm_flags m) /\ in_u64 (mm_market_seq m) /\
  in_u16 (mm_sub_seq m) /\ in_u64 (mm_log_index m) /\ in_u32 (mm_ordinal m) /\
  in_u64 (mm_epoch m) /\ in_u64 (mm_leader_id m) /\ in_u64 (mm_ts_ms m) /\
  in_u32 (mm_symbol_id m) /\ body_typed (mm_body m).
