(* ===== verification/Wire.v ===== *)
(** * The market-data wire format ([src/src/market_data/wire.rs])

    [encode] as the concatenation of what every [put] appends, and [decode] as a program over the
    cursor [Decoder], with every [WireError] it can return. The cursor operations and the record
    decoders are programs of one small error monad. *)

From stdpp Require Import strings.
From S2P Require Import Prelude Fixed Order OrderBook MatchEvent MarketMessage.

(** ** Little-endian integers of any width *)

(** [uN::to_le_bytes] for [n] bytes. *)
Fixpoint le_bytes (n : nat) (v : Z) : list Z :=
  match n with
  | O => []
  | S n => Z.land v 255 :: le_bytes n (Z.shiftr v 8)
  end.

(** [uN::from_le_bytes]. *)
Fixpoint le_value (bytes : list Z) : Z :=
  match bytes with
  | [] => 0
  | b :: bytes => Z.lor b (Z.shiftl (le_value bytes) 8)
  end.

(** ** Header constants and message types *)

Definition MAGIC : list Z := [65; 77; 75; 84].
Definition VERSION : Z := 6.
Definition HEADER_LEN : nat := 64.

Inductive MessageType : Type :=
| MtTrade | MtBbo | MtDepthSnapshot | MtDepthDelta | MtLifecycle | MtStatus | MtGap | MtBar.

(** The [#[repr(u8)]] discriminants. *)
Definition type_code (t : MessageType) : Z :=
  match t with
  | MtTrade => 1 | MtBbo => 2 | MtDepthSnapshot => 3 | MtDepthDelta => 4
  | MtLifecycle => 5 | MtStatus => 6 | MtGap => 7 | MtBar => 8
  end.

Definition message_type (self : MessageBody) : MessageType :=
  match self with
  | BodyTrade _ => MtTrade
  | BodyBbo _ => MtBbo
  | BodyDepthSnapshot _ => MtDepthSnapshot
  | BodyDepthDelta _ => MtDepthDelta
  | BodyLifecycle _ => MtLifecycle
  | BodyStatus _ => MtStatus
  | BodyGap _ => MtGap
  | BodyBar _ => MtBar
  end.

Definition type_stream (self : MessageType) : Z :=
  match self with
  | MtTrade => STREAM_TRADE
  | MtBbo => STREAM_BBO
  | MtDepthSnapshot => STREAM_DEPTH_SNAPSHOT
  | MtDepthDelta => STREAM_DEPTH_DELTA
  | MtLifecycle => STREAM_LIFECYCLE
  | MtStatus | MtGap => STREAM_STATUS
  | MtBar => STREAM_BAR
  end.

(** ** Encoding *)

(** [i128::to_le_bytes]: sixteen bytes of the two's complement. *)
Definition put_fixed (value : Fixed) : list Z := le_bytes 16 (value mod 2 ^ 128).

Definition put_option_fixed (value : option Fixed) : list Z :=
  match value with
  | Some value => 1 :: put_fixed value
  | None => 0 :: put_fixed FIXED_ZERO
  end.

Definition fee_asset_code (asset : option FeeAsset) : Z :=
  match asset with None => 0 | Some FeeBase => 1 | Some FeeQuote => 2 end.

Definition volume_unit_code (unit : VolumeUnit) : Z :=
  match unit with UnitBase => 0 | UnitQuote => 1 end.

Definition side_code (side : OrderSide) : Z :=
  match side with Buy => 0 | Sell => 1 end.

Definition kind_code (kind : MatchEventKind) : Z :=
  match kind with
  | Rested => 1 | Fill => 2 | Cancelled => 3 | Triggered => 4
  | Expired => 5 | Rejected => 6 | Amended => 7
  end.

Definition reason_code (reason : option RejectReason) : Z :=
  match reason with
  | None => 0
  | Some FokUnfillable => 1
  | Some PostOnlyWouldCross => 2
  | Some StopWouldTrigger => 3
  | Some GtdAlreadyExpired => 4
  | Some OrderNotFound => 5
  | Some UnsupportedOrder => 6
  | Some AmendWouldCross => 7
  | Some InvalidOrder => 8
  end.

Definition encode_trade (record : TradeRecord) : list Z :=
  le_bytes 8 (tr_log_index record) ++
  le_bytes 4 (tr_ordinal record) ++
  le_bytes 8 (tr_ts_ms record) ++
  put_fixed (tr_price record) ++
  put_fixed (tr_volume record) ++
  put_fixed (tr_quote_volume record) ++
  put_fixed (tr_taker_fee record) ++
  [fee_asset_code (tr_taker_fee_asset record)] ++
  put_fixed (tr_maker_fee record) ++
  [fee_asset_code (tr_maker_fee_asset record)] ++
  [tr_error record] ++
  [side_code (tr_taker_side record)] ++
  le_bytes 8 (tr_taker_sequence record) ++
  le_bytes 8 (tr_maker_sequence record).

Definition encode_level (side : OrderSide) (price volume : Fixed) (orders : Z) : list Z :=
  [side_code side] ++ put_fixed price ++ put_fixed volume ++ le_bytes 4 orders.

(** One level of a side of a snapshot. *)
Definition encode_side_level (side : OrderSide) (level : DepthLevel) : list Z :=
  encode_level side (dl_price level) (dl_volume level) (dl_orders level).

Definition encode_depth_snapshot (snapshot : DepthSnapshotRecord) : list Z :=
  le_bytes 4 (as_u32 (length (ds_bids snapshot))) ++
  le_bytes 4 (as_u32 (length (ds_asks snapshot))) ++
  concat (map (encode_side_level Buy) (ds_bids snapshot)) ++
  concat (map (encode_side_level Sell) (ds_asks snapshot)).

Definition encode_lifecycle (record : LifecycleRecord) : list Z :=
  le_bytes 8 (lc_log_index record) ++
  le_bytes 4 (lc_ordinal record) ++
  le_bytes 8 (lc_ts_ms record) ++
  [kind_code (lc_kind record)] ++
  le_bytes 8 (lc_order_sequence record) ++
  [side_code (lc_side record)] ++
  le_bytes 8 (default 0 (lc_counterparty_sequence record)) ++
  put_fixed (lc_price record) ++
  put_fixed (lc_volume record) ++
  put_fixed (lc_quote_volume record) ++
  [volume_unit_code (lc_volume_unit record)] ++
  put_fixed (lc_taker_fee record) ++
  [fee_asset_code (lc_taker_fee_asset record)] ++
  put_fixed (lc_maker_fee record) ++
  [fee_asset_code (lc_maker_fee_asset record)] ++
  [lc_error record] ++
  [reason_code (lc_reason record)].

Definition encode_status (status : StatusRecord) : list Z :=
  le_bytes 8 (st_last_market_seq status) ++
  le_bytes 2 (st_last_sub_seq status) ++
  le_bytes 8 (st_last_log_index status) ++
  le_bytes 4 (st_last_ordinal status) ++
  le_bytes 8 (st_applied_index status) ++
  le_bytes 8 (st_book_sequence status) ++
  le_bytes 4 (st_pending_stops status).

Definition encode_bar (bar : BarRecord) : list Z :=
  le_bytes 4 (wrap_u32 (bar_interval_ms bar)) ++
  le_bytes 8 (bar_window_start_ms bar) ++
  le_bytes 8 (bar_last_ts_ms bar) ++
  put_fixed (bar_open bar) ++
  put_fixed (bar_high bar) ++
  put_fixed (bar_low bar) ++
  put_fixed (bar_close bar) ++
  put_fixed (bar_volume bar) ++
  le_bytes 4 (bar_trade_count bar) ++
  le_bytes 8 (bar_bar_seq bar).

Definition encode_bbo (bbo : BboRecord) : list Z :=
  put_option_fixed (bbo_last_trade bbo) ++
  put_fixed (bbo_bid bbo) ++
  put_fixed (bbo_bid_volume bbo) ++
  put_fixed (bbo_ask bbo) ++
  put_fixed (bbo_ask_volume bbo) ++
  put_option_fixed (bbo_mid bbo) ++
  put_option_fixed (bbo_spread bbo).

Definition encode_gap (gap : GapRecord) : list Z :=
  le_bytes 8 (gap_last_good_log_index gap) ++
  le_bytes 4 (gap_last_good_ordinal gap) ++
  le_bytes 4 (gap_dropped gap).

Definition encode_update (update : LevelUpdate) : list Z :=
  encode_side_level (lu_side update) (lu_level update).

(** A [u32] count and the records. *)
Definition encode_counted {A} (enc : A -> list Z) (records : list A) : list Z :=
  le_bytes 4 (as_u32 (length records)) ++ concat (map enc records).

Definition encode_body (body : MessageBody) : list Z :=
  match body with
  | BodyTrade records => encode_counted encode_trade records
  | BodyBbo bbo => encode_bbo bbo
  | BodyDepthSnapshot snapshot => encode_depth_snapshot snapshot
  | BodyDepthDelta updates => encode_counted encode_update updates
  | BodyLifecycle records => encode_counted encode_lifecycle records
  | BodyStatus status => encode_status status
  | BodyGap gap => encode_gap gap
  | BodyBar bar => encode_bar bar
  end.

(** The 64 header bytes, for a body of [body_len] bytes. *)
Definition encode_header (message : MarketMessage) (body_len : nat) : list Z :=
  MAGIC ++
  [VERSION] ++
  [type_code (message_type (mm_body message))] ++
  le_bytes 2 (mm_flags message) ++
  le_bytes 8 (mm_market_seq message) ++
  le_bytes 8 (mm_log_index message) ++
  le_bytes 4 (mm_ordinal message) ++
  le_bytes 4 (as_u32 body_len) ++
  le_bytes 8 (mm_epoch message) ++
  le_bytes 8 (mm_leader_id message) ++
  le_bytes 8 (mm_ts_ms message) ++
  le_bytes 4 (mm_symbol_id message) ++
  le_bytes 2 (mm_sub_seq message) ++
  le_bytes 2 0.

Definition encode (message : MarketMessage) : list Z :=
  let body := encode_body (mm_body message) in
  encode_header message (length body) ++ body.

(** ** Decoding *)

Inductive WireError : Type :=
| TooShort (len need : nat)
| BadMagic (magic : list Z)
| UnsupportedVersion (version : Z)
| UnknownMessageType (code : Z)
| BodyLengthMismatch (declared : Z) (actual : nat)
| TrailingBytes (count : nat)
| Truncated (field : string)
| InvalidCode (field : string) (code : Z)
| CountTooLarge (field : string) (count : Z) (remaining : nat).

Record Decoder : Type := mkDecoder { d_bytes : list Z; d_offset : nat }.

Definition Decoder_new (bytes : list Z) : Decoder := mkDecoder bytes 0.

(** A decoding step: it advances the cursor or fails. *)
Definition Decode (A : Type) : Type := Decoder -> Result (A * Decoder) WireError.

#[global] Instance Decode_ret : MRet Decode := fun A a d => Ok (a, d).
#[global] Instance Decode_bind : MBind Decode := fun A B f m d =>
  match m d with
  | Ok (a, d') => f a d'
  | Err e => Err e
  end.

#[global] Instance Decode_map : FMap Decode := fun A B f m d =>
  match m d with
  | Ok (a, d') => Ok (f a, d')
  | Err e => Err e
  end.

Definition fail {A} (e : WireError) : Decode A := fun _ => Err e.

Definition remaining (self : Decoder) : nat := (length (d_bytes self) - d_offset self)%nat.

(** [Decoder::take]. The offset is at most the slice's length and [len] at most 16, so the checked
    addition of two [usize] values cannot overflow. *)
Definition take_bytes (len : nat) (field : string) : Decode (list Z) := fun self =>
  let end_ := (d_offset self + len)%nat in
  if bool_decide (end_ <= length (d_bytes self))%nat
  then Ok (take len (drop (d_offset self) (d_bytes self)), mkDecoder (d_bytes self) end_)
  else Err (Truncated field).

(** [self.take(1, field)?[0]]. *)
Definition dec_u8 (field : string) : Decode Z :=
  bytes ← take_bytes 1 field; mret (default 0 (head bytes)).
Definition dec_u16 (field : string) : Decode Z :=
  bytes ← take_bytes 2 field; mret (le_value bytes).
Definition dec_u32 (field : string) : Decode Z :=
  bytes ← take_bytes 4 field; mret (le_value bytes).
Definition dec_u64 (field : string) : Decode Z :=
  bytes ← take_bytes 8 field; mret (le_value bytes).
Definition dec_i128 (field : string) : Decode Z :=
  bytes ← take_bytes 16 field; mret (wrap_i128 (le_value bytes)).
Definition dec_fixed (field : string) : Decode Fixed := dec_i128 field.

Definition get_remaining : Decode nat := fun self => Ok (remaining self, self).

(** [Decoder::count]: a length prefix that must fit the rest of the frame. *)
Definition dec_count (field : string) (record_len : nat) : Decode Z :=
  count ← dec_u32 field;
  remaining ← get_remaining;
  if Z.of_nat (remaining / record_len) <? count
  then fail (CountTooLarge field count remaining)
  else mret count.

Definition TRADE_RECORD_LEN : nat := 120.
Definition LIFECYCLE_RECORD_LEN : nat := 123.
Definition DEPTH_LEVEL_LEN : nat := 37.

(** [for _ in 0..count { records.push(decode_one(decoder)?) }]. *)
Fixpoint dec_repeat {A} (count : nat) (one : Decode A) : Decode (list A) :=
  match count with
  | O => mret []
  | S count => a ← one; rest ← dec_repeat count one; mret (a :: rest)
  end.

Definition decode_option_fixed (field : string) : Decode (option Fixed) :=
  code ← dec_u8 field;
  if code =? 0 then _ ← take_bytes 16 field; mret None
  else if code =? 1 then v ← dec_fixed field; mret (Some v)
  else fail (InvalidCode field code).

Definition decode_fee_asset (field : string) (code : Z) : Decode (option FeeAsset) :=
  match code with
  | 0 => mret None
  | 1 => mret (Some FeeBase)
  | 2 => mret (Some FeeQuote)
  | _ => fail (InvalidCode field code)
  end.

Definition decode_volume_unit (field : string) (code : Z) : Decode VolumeUnit :=
  match code with
  | 0 => mret UnitBase
  | 1 => mret UnitQuote
  | _ => fail (InvalidCode field code)
  end.

Definition decode_side (field : string) (code : Z) : Decode OrderSide :=
  match code with
  | 0 => mret Buy
  | 1 => mret Sell
  | _ => fail (InvalidCode field code)
  end.

Definition decode_kind (code : Z) : Decode MatchEventKind :=
  match code with
  | 1 => mret Rested
  | 2 => mret Fill
  | 3 => mret Cancelled
  | 4 => mret Triggered
  | 5 => mret Expired
  | 6 => mret Rejected
  | 7 => mret Amended
  | _ => fail (InvalidCode "lifecycle.kind" code)
  end.

Definition decode_reason (code : Z) : Decode (option RejectReason) :=
  match code with
  | 0 => mret None
  | 1 => mret (Some FokUnfillable)
  | 2 => mret (Some PostOnlyWouldCross)
  | 3 => mret (Some StopWouldTrigger)
  | 4 => mret (Some GtdAlreadyExpired)
  | 5 => mret (Some OrderNotFound)
  | 6 => mret (Some UnsupportedOrder)
  | 7 => mret (Some AmendWouldCross)
  | 8 => mret (Some InvalidOrder)
  | _ => fail (InvalidCode "lifecycle.reason" code)
  end.

(** [MatchErrors::from_bits(bits).ok_or(InvalidCode)]. *)
Definition decode_errors (field : string) (bits : Z) : Decode MatchErrors :=
  match from_bits bits with
  | Some e => mret e
  | None => fail (InvalidCode field bits)
  end.

Definition decode_trade : Decode TradeRecord :=
  log_index ← dec_u64 "trade.log_index";
  ordinal ← dec_u32 "trade.ordinal";
  ts_ms ← dec_u64 "trade.ts_ms";
  price ← dec_fixed "trade.price";
  volume ← dec_fixed "trade.volume";
  quote_volume ← dec_fixed "trade.quote_volume";
  taker_fee ← dec_fixed "trade.taker_fee";
  taker_fee_asset ← dec_u8 "trade.taker_fee_asset" ≫= decode_fee_asset "trade.taker_fee_asset";
  maker_fee ← dec_fixed "trade.maker_fee";
  maker_fee_asset ← dec_u8 "trade.maker_fee_asset" ≫= decode_fee_asset "trade.maker_fee_asset";
  error ← dec_u8 "trade.error" ≫= decode_errors "trade.error";
  taker_side ← dec_u8 "trade.taker_side" ≫= decode_side "trade.taker_side";
  taker_sequence ← dec_u64 "trade.taker_sequence";
  maker_sequence ← dec_u64 "trade.maker_sequence";
  mret (mkTrade log_index ordinal ts_ms price volume quote_volume taker_fee taker_fee_asset
          maker_fee maker_fee_asset error taker_side taker_sequence maker_sequence).

Definition decode_level (field : string) : Decode (OrderSide * DepthLevel) :=
  side ← dec_u8 field ≫= decode_side field;
  price ← dec_fixed field;
  volume ← dec_fixed field;
  orders ← dec_u32 field;
  mret (side, mkDepthLevel price volume orders).

(** A snapshot's level: the decoded side is ignored. *)
Definition decode_side_level (field : string) : Decode DepthLevel :=
  p ← decode_level field; mret p.2.

(** The sum of two [u32] counts fits a 64-bit [usize]. *)
Definition decode_depth_snapshot : Decode DepthSnapshotRecord :=
  bids ← dec_u32 "depth.bids";
  asks ← dec_u32 "depth.asks";
  remaining ← get_remaining;
  if Z.of_nat (remaining / DEPTH_LEVEL_LEN) <? bids + asks
  then fail (CountTooLarge "depth levels" (bids + asks) remaining)
  else
    bid_levels ← dec_repeat (Z.to_nat bids) (decode_side_level "depth.bid");
    ask_levels ← dec_repeat (Z.to_nat asks) (decode_side_level "depth.ask");
    mret (mkDepthSnapshot bid_levels ask_levels).

Definition decode_lifecycle : Decode LifecycleRecord :=
  log_index ← dec_u64 "lifecycle.log_index";
  ordinal ← dec_u32 "lifecycle.ordinal";
  ts_ms ← dec_u64 "lifecycle.ts_ms";
  kind ← dec_u8 "lifecycle.kind" ≫= decode_kind;
  order_sequence ← dec_u64 "lifecycle.order_sequence";
  side ← dec_u8 "lifecycle.side" ≫= decode_side "lifecycle.side";
  counterparty ← dec_u64 "lifecycle.counterparty_sequence";
  price ← dec_fixed "lifecycle.price";
  volume ← dec_fixed "lifecycle.volume";
  quote_volume ← dec_fixed "lifecycle.quote_volume";
  volume_unit ← dec_u8 "lifecycle.volume_unit" ≫= decode_volume_unit "lifecycle.volume_unit";
  taker_fee ← dec_fixed "lifecycle.taker_fee";
  taker_fee_asset ← dec_u8 "lifecycle.taker_fee_asset"
    ≫= decode_fee_asset "lifecycle.taker_fee_asset";
  maker_fee ← dec_fixed "lifecycle.maker_fee";
  maker_fee_asset ← dec_u8 "lifecycle.maker_fee_asset"
    ≫= decode_fee_asset "lifecycle.maker_fee_asset";
  error ← dec_u8 "lifecycle.error" ≫= decode_errors "lifecycle.error";
  reason ← dec_u8 "lifecycle.reason" ≫= decode_reason;
  mret (mkLifecycle log_index ordinal ts_ms kind order_sequence side
          (if negb (counterparty =? 0) then Some counterparty else None)
          price volume quote_volume volume_unit taker_fee taker_fee_asset maker_fee
          maker_fee_asset error reason).

Definition decode_bbo : Decode BboRecord :=
  last_trade ← decode_option_fixed "bbo.last_trade";
  bid ← dec_fixed "bbo.bid";
  bid_volume ← dec_fixed "bbo.bid_volume";
  ask ← dec_fixed "bbo.ask";
  ask_volume ← dec_fixed "bbo.ask_volume";
  mid ← decode_option_fixed "bbo.mid";
  spread ← decode_option_fixed "bbo.spread";
  mret (mkBbo last_trade bid bid_volume ask ask_volume mid spread).

Definition decode_status : Decode StatusRecord :=
  last_market_seq ← dec_u64 "status.last_market_seq";
  last_sub_seq ← dec_u16 "status.last_sub_seq";
  last_log_index ← dec_u64 "status.last_log_index";
  last_ordinal ← dec_u32 "status.last_ordinal";
  applied_index ← dec_u64 "status.applied_index";
  book_sequence ← dec_u64 "status.book_sequence";
  pending_stops ← dec_u32 "status.pending_stops";
  mret (mkStatus last_log_index last_ordinal last_market_seq last_sub_seq applied_index
          book_sequence pending_stops).

Definition decode_gap : Decode GapRecord :=
  last_good_log_index ← dec_u64 "gap.last_good_log_index";
  last_good_ordinal ← dec_u32 "gap.last_good_ordinal";
  dropped ← dec_u32 "gap.dropped";
  mret (mkGap last_good_log_index last_good_ordinal dropped).

Definition decode_bar : Decode BarRecord :=
  interval_ms ← dec_u32 "bar.interval_ms";
  window_start_ms ← dec_u64 "bar.window_start_ms";
  last_ts_ms ← dec_u64 "bar.last_ts_ms";
  open ← dec_fixed "bar.open";
  high ← dec_fixed "bar.high";
  low ← dec_fixed "bar.low";
  close ← dec_fixed "bar.close";
  volume ← dec_fixed "bar.volume";
  trade_count ← dec_u32 "bar.trade_count";
  bar_seq ← dec_u64 "bar.bar_seq";
  mret (mkBar interval_ms window_start_ms last_ts_ms open high low close volume trade_count
          bar_seq).

(** One entry of a depth delta. *)
Definition decode_update : Decode LevelUpdate :=
  p ← decode_level "depth delta"; mret (mkLevelUpdate p.1 p.2).

(** A checked count and that many records. *)
Definition decode_counted {A} (field : string) (record_len : nat) (one : Decode A)
    : Decode (list A) :=
  count ← dec_count field record_len; dec_repeat (Z.to_nat count) one.

Definition decode_body (kind : MessageType) : Decode MessageBody :=
  match kind with
  | MtTrade => BodyTrade <$> decode_counted "trade count" TRADE_RECORD_LEN decode_trade
  | MtBbo => BodyBbo <$> decode_bbo
  | MtDepthSnapshot => BodyDepthSnapshot <$> decode_depth_snapshot
  | MtDepthDelta =>
      BodyDepthDelta <$> decode_counted "depth delta count" DEPTH_LEVEL_LEN decode_update
  | MtLifecycle =>
      BodyLifecycle <$> decode_counted "lifecycle count" LIFECYCLE_RECORD_LEN decode_lifecycle
  | MtStatus => BodyStatus <$> decode_status
  | MtGap => BodyGap <$> decode_gap
  | MtBar => BodyBar <$> decode_bar
  end.

Definition from_code (code : Z) : Decode MessageType :=
  match code with
  | 1 => mret MtTrade
  | 2 => mret MtBbo
  | 3 => mret MtDepthSnapshot
  | 4 => mret MtDepthDelta
  | 5 => mret MtLifecycle
  | 6 => mret MtStatus
  | 7 => mret MtGap
  | 8 => mret MtBar
  | _ => fail (UnknownMessageType code)
  end.

(** The program of [decode] after its length check; [actual] is the number of bytes that follow
    the header. *)
Definition decode_message (actual : nat) : Decode MarketMessage :=
  magic ← take_bytes 4 "magic";
  if negb (bool_decide (magic = MAGIC)) then fail (BadMagic magic)
  else
    version ← dec_u8 "version";
    if negb (version =? VERSION) then fail (UnsupportedVersion version)
    else
      message_type ← dec_u8 "message type" ≫= from_code;
      flags ← dec_u16 "flags";
      market_seq ← dec_u64 "market_seq";
      log_index ← dec_u64 "log_index";
      ordinal ← dec_u32 "ordinal";
      body_len ← dec_u32 "body length";
      epoch ← dec_u64 "epoch";
      leader_id ← dec_u64 "leader_id";
      ts_ms ← dec_u64 "ts_ms";
      symbol_id ← dec_u32 "symbol_id";
      sub_seq ← dec_u16 "sub_seq";
      _ ← dec_u16 "reserved";
      if negb (body_len =? Z.of_nat actual) then fail (BodyLengthMismatch body_len actual)
      else
        body ← decode_body message_type;
        trailing ← get_remaining;
        if negb (bool_decide (trailing = 0%nat)) then fail (TrailingBytes trailing)
        else
          mret (mkMessage (type_stream message_type) flags market_seq sub_seq log_index ordinal
                  epoch leader_id ts_ms symbol_id body).

Definition decode (bytes : list Z) : Result MarketMessage WireError :=
  if bool_decide (length bytes < HEADER_LEN)%nat
  then Err (TooShort (length bytes) HEADER_LEN)
  else
    match decode_message (length bytes - HEADER_LEN) (Decoder_new bytes) with
    | Ok (message, _) => Ok message
    | Err e => Err e
    end.
