(* ===== verification/WireSpec.v ===== *)
(** * The wire format is faithful and strict ([src/src/market_data/wire.rs])

    Two program logics over the decoder monad: [reads p bytes a] (wherever [bytes] stand in a
    frame, [p] consumes exactly them and returns [a]) carries the round trip, and [yields p Q]
    (every success of [p] on bytes returns a value with [Q] of it and of the bytes consumed)
    carries the typing of whatever a peer sends. *)

From stdpp Require Import strings.
From S2P Require Import Prelude Fixed Order OrderBook MatchEvent MarketMessage Wire.

(** ** Little-endian integers *)

Lemma lor_byte b x : 0 <= b < 256 -> Z.lor b (Z.shiftl x 8) = b + 256 * x.
Proof.
  intros Hb. pose proof (Z.add_lor_land b (Z.shiftl x 8)) as E.
  assert (Hz : Z.land b (Z.shiftl x 8) = 0).
  { apply Z.bits_inj'. intros i Hi. rewrite Z.land_spec, Z.bits_0.
    destruct (Z_lt_le_dec i 8) as [Hlt|Hge].
    - by rewrite Z.shiftl_spec_low, andb_false_r.
    - apply andb_false_intro1. destruct (decide (b = 0)) as [->|Hnz]; [apply Z.testbit_0_l|].
      apply Z.bits_above_log2; [lia|]. apply Z.log2_lt_pow2; [lia|].
      apply Z.lt_le_trans with (2 ^ 8); [lia|]. by apply Z.pow_le_mono_r. }
  rewrite Z.shiftl_mul_pow2 in * by lia. change (2 ^ 8) with 256 in *. lia.
Qed.

Lemma low_byte v : Z.land v 255 = v mod 256.
Proof. change 255 with (Z.ones 8). by rewrite Z.land_ones. Qed.

Lemma le_bytes_length n v : length (le_bytes n v) = n.
Proof. revert v. induction n; intros v; simpl; auto. Qed.

Lemma le_bytes_bytes n v : Forall in_u8 (le_bytes n v).
Proof.
  revert v. induction n as [|n IH]; intros v; simpl; constructor; [|done].
  unfold in_u8. rewrite low_byte. pose proof (Z.mod_pos_bound v 256). lia.
Qed.

Lemma le_value_bytes n v : le_value (le_bytes n v) = v mod 2 ^ (8 * Z.of_nat n).
Proof.
  revert v. induction n as [|n IH]; intros v; simpl le_bytes; simpl le_value.
  - by rewrite Z.mod_1_r.
  - rewrite IH, low_byte, lor_byte by (apply Z.mod_pos_bound; lia).
    rewrite Z.shiftr_div_pow2 by lia.
    replace (8 * Z.of_nat (S n)) with (8 + 8 * Z.of_nat n) by lia.
    rewrite Z.pow_add_r by lia. change (2 ^ 8) with 256.
    rewrite Z.rem_mul_r; [lia|lia|]. apply Z.pow_pos_nonneg; lia.
Qed.

Lemma le_value_range bytes :
  Forall in_u8 bytes -> 0 <= le_value bytes < 2 ^ (8 * Z.of_nat (length bytes)).
Proof.
  induction 1 as [|b l Hb _ IH]; simpl le_value; [simpl; lia|].
  unfold in_u8 in Hb. change (2 ^ 8) with 256 in Hb. rewrite lor_byte by done.
  simpl length. replace (8 * Z.of_nat (S (length l))) with (8 + 8 * Z.of_nat (length l)) by lia.
  rewrite Z.pow_add_r by lia. change (2 ^ 8) with 256. nia.
Qed.

Lemma le_value_id n v : 0 <= v < 2 ^ (8 * Z.of_nat n) -> le_value (le_bytes n v) = v.
Proof. intros Hv. rewrite le_value_bytes. by apply Z.mod_small. Qed.

Lemma put_fixed_length v : length (put_fixed v) = 16%nat.
Proof. apply le_bytes_length. Qed.

Lemma put_option_fixed_length v : length (put_option_fixed v) = 17%nat.
Proof. destruct v; unfold put_option_fixed; cbn [length]; by rewrite put_fixed_length. Qed.

Lemma wrap_i128_mod v : in_i128 v -> wrap_i128 (v mod 2 ^ 128) = v.
Proof.
  intros Hv. unfold wrap_i128. rewrite <- Zminus_mod_idemp_l, Z.mod_mod by lia.
  rewrite Zminus_mod_idemp_l. by apply wrap_i128_id.
Qed.

(** ** Reading back what was written *)

Definition reads {A} (p : Decode A) (bs : list Z) (a : A) : Prop :=
  forall pre post,
    p (mkDecoder (pre ++ bs ++ post) (length pre)) =
    Ok (a, mkDecoder (pre ++ bs ++ post) (length pre + length bs)).

Lemma reads_take n field bs : length bs = n -> reads (take_bytes n field) bs bs.
Proof.
  intros <- pre post. unfold take_bytes. simpl.
  rewrite bool_decide_true by (rewrite !length_app; lia).
  by rewrite drop_app_length, take_app_length.
Qed.

Lemma reads_ret {A} (a : A) : reads (mret a) [] a.
Proof. intros pre post. unfold mret, Decode_ret. simpl. by rewrite Nat.add_0_r. Qed.

Lemma reads_bind {A B} (p : Decode A) (f : A -> Decode B) bs1 bs2 a b :
  reads p bs1 a -> reads (f a) bs2 b -> reads (p ≫= f) (bs1 ++ bs2) b.
Proof.
  intros Hp Hf pre post. unfold mbind, Decode_bind. rewrite <- (app_assoc bs1), Hp.
  specialize (Hf (pre ++ bs1) post). rewrite <- !app_assoc, !length_app in Hf.
  by rewrite Hf, length_app, Nat.add_assoc.
Qed.

(** The last field of a record. *)
Lemma reads_bind_last {A B} (p : Decode A) (f : A -> Decode B) bs a b :
  reads p bs a -> f a = mret b -> reads (p ≫= f) bs b.
Proof.
  intros Hp Hf. rewrite <- (app_nil_r bs). eapply reads_bind; [done|]. rewrite Hf.
  apply reads_ret.
Qed.

Lemma reads_map {A B} (f : A -> B) (p : Decode A) bs a : reads p bs a -> reads (f <$> p) bs (f a).
Proof. intros Hp pre post. unfold fmap, Decode_map. by rewrite Hp. Qed.

Lemma reads_u8 field v : reads (dec_u8 field) [v] v.
Proof. eapply reads_bind_last; [by apply reads_take|done]. Qed.

Lemma reads_le n field v :
  0 <= v < 2 ^ (8 * Z.of_nat n) ->
  reads (bytes ← take_bytes n field; mret (le_value bytes)) (le_bytes n v) v.
Proof.
  intros Hv. eapply reads_bind_last; [apply reads_take, le_bytes_length|].
  by rewrite le_value_id.
Qed.

Lemma reads_u16 field v : in_u16 v -> reads (dec_u16 field) (le_bytes 2 v) v.
Proof. apply (reads_le 2). Qed.
Lemma reads_u32 field v : in_u32 v -> reads (dec_u32 field) (le_bytes 4 v) v.
Proof. apply (reads_le 4). Qed.
Lemma reads_u64 field v : in_u64 v -> reads (dec_u64 field) (le_bytes 8 v) v.
Proof. intros Hv. apply (reads_le 8). unfold in_u64, U64_MAX in Hv. lia. Qed.

Lemma reads_fixed field v : in_i128 v -> reads (dec_fixed field) (put_fixed v) v.
Proof.
  intros Hv. eapply reads_bind_last; [apply reads_take, put_fixed_length|]. unfold put_fixed.
  rewrite le_value_id; [by rewrite wrap_i128_mod|]. apply Z.mod_pos_bound. lia.
Qed.

Lemma reads_option_fixed field v :
  in_option in_i128 v -> reads (decode_option_fixed field) (put_option_fixed v) v.
Proof.
  destruct v as [v|]; intros Hv; simpl put_option_fixed;
    match goal with |- reads _ (?c :: ?l) _ => change (c :: l) with ([c] ++ l) end;
    (eapply reads_bind; [apply reads_u8|]); simpl.
  - eapply reads_bind_last; [by apply reads_fixed|done].
  - eapply reads_bind_last; [apply reads_take, put_fixed_length|done].
Qed.

(** One byte that encodes an enumeration. *)
Lemma reads_code {A} field (f : Z -> Decode A) c a :
  f c = mret a -> reads (dec_u8 field ≫= f) [c] a.
Proof. intros Hf. eapply reads_bind_last; [apply reads_u8|done]. Qed.

Lemma reads_side field s : reads (dec_u8 field ≫= decode_side field) [side_code s] s.
Proof. apply reads_code. by destruct s. Qed.
Lemma reads_fee_asset field a : reads (dec_u8 field ≫= decode_fee_asset field) [fee_asset_code a] a.
Proof. apply reads_code. by destruct a as [[]|]. Qed.
Lemma reads_volume_unit field u :
  reads (dec_u8 field ≫= decode_volume_unit field) [volume_unit_code u] u.
Proof. apply reads_code. by destruct u. Qed.
Lemma reads_kind field k : reads (dec_u8 field ≫= decode_kind) [kind_code k] k.
Proof. apply reads_code. by destruct k. Qed.
Lemma reads_reason field r : reads (dec_u8 field ≫= decode_reason) [reason_code r] r.
Proof. apply reads_code. by destruct r as [[]|]. Qed.
Lemma reads_errors field e : in_errors e -> reads (dec_u8 field ≫= decode_errors field) [e] e.
Proof. intros [_ He]. apply reads_code. unfold decode_errors. by rewrite He. Qed.
Lemma reads_type field t : reads (dec_u8 field ≫= from_code) [type_code t] t.
Proof. apply reads_code. by destruct t. Qed.

Create HintDb wire.
#[export] Hint Resolve reads_u8 reads_u16 reads_u32 reads_u64 reads_fixed reads_option_fixed
  reads_side reads_fee_asset reads_volume_unit reads_kind reads_reason reads_errors reads_type
  : wire.

(** Run a record decoder along its encoding. *)
Ltac read_fields :=
  repeat (eapply reads_bind; [solve [eauto with wire]|]);
  try (eapply reads_bind_last; [solve [eauto with wire]|]).

(** ** Records *)

Lemma reads_trade r : trade_typed r -> reads decode_trade (encode_trade r) r.
Proof.
  intros (? & ? & ? & ? & ? & ? & ? & ? & ? & ? & ?).
  unfold decode_trade, encode_trade. read_fields. by destruct r.
Qed.

Lemma reads_level field s l :
  level_typed l -> reads (decode_level field) (encode_side_level s l) (s, l).
Proof.
  intros (? & ? & ?). unfold decode_level, encode_side_level, encode_level.
  read_fields. by destruct l.
Qed.

Lemma reads_side_level field s l :
  level_typed l -> reads (decode_side_level field) (encode_side_level s l) l.
Proof. intros Hl. eapply reads_bind_last; [by apply reads_level|done]. Qed.

Lemma reads_update u :
  level_typed (lu_level u) -> reads decode_update (encode_update u) u.
Proof. intros Hl. eapply reads_bind_last; [by apply reads_level|by destruct u]. Qed.

(** What a consumer sees of a record: an order matched against sequence 0 looks unmatched. *)
Definition lifecycle_view (r : LifecycleRecord) : LifecycleRecord :=
  mkLifecycle (lc_log_index r) (lc_ordinal r) (lc_ts_ms r) (lc_kind r) (lc_order_sequence r)
    (lc_side r)
    (match lc_counterparty_sequence r with
     | Some c => if c =? 0 then None else Some c
     | None => None
     end)
    (lc_price r) (lc_volume r) (lc_quote_volume r) (lc_volume_unit r) (lc_taker_fee r)
    (lc_taker_fee_asset r) (lc_maker_fee r) (lc_maker_fee_asset r) (lc_error r) (lc_reason r).

Lemma reads_lifecycle r :
  lifecycle_typed r -> reads decode_lifecycle (encode_lifecycle r) (lifecycle_view r).
Proof.
  intros (? & ? & ? & ? & Hc & ? & ? & ? & ? & ? & ?).
  unfold decode_lifecycle, encode_lifecycle.
  assert (in_u64 (default 0 (lc_counterparty_sequence r)))
    by (destruct (lc_counterparty_sequence r); [done|simpl; range_lia]).
  read_fields. unfold lifecycle_view. destruct (lc_counterparty_sequence r) as [c|]; [|done].
  simpl. by destruct (c =? 0).
Qed.

Lemma reads_bbo r : bbo_typed r -> reads decode_bbo (encode_bbo r) r.
Proof.
  intros (? & ? & ? & ? & ? & ? & ?). unfold decode_bbo, encode_bbo. read_fields.
  by destruct r.
Qed.

Lemma reads_status r : status_typed r -> reads decode_status (encode_status r) r.
Proof.
  intros (? & ? & ? & ? & ? & ? & ?). unfold decode_status, encode_status. read_fields.
  by destruct r.
Qed.

Lemma reads_gap r : gap_typed r -> reads decode_gap (encode_gap r) r.
Proof.
  intros (? & ? & ?). unfold decode_gap, encode_gap. read_fields. by destruct r.
Qed.

(** The bar width travels as a [u32]. *)
Definition bar_view (r : BarRecord) : BarRecord :=
  mkBar (wrap_u32 (bar_interval_ms r)) (bar_window_start_ms r) (bar_last_ts_ms r) (bar_open r)
    (bar_high r) (bar_low r) (bar_close r) (bar_volume r) (bar_trade_count r) (bar_bar_seq r).

Lemma wrap_u32_range z : in_u32 (wrap_u32 z).
Proof. unfold in_u32, wrap_u32. apply Z.mod_pos_bound. lia. Qed.

Lemma reads_bar r : bar_typed r -> reads decode_bar (encode_bar r) (bar_view r).
Proof.
  intros (? & ? & ? & ? & ? & ? & ? & ? & ? & ?).
  unfold decode_bar, encode_bar. pose proof (wrap_u32_range (bar_interval_ms r)).
  read_fields. done.
Qed.

(** ** Counted records *)

Lemma concat_map_length {A} (enc : A -> list Z) len l :
  (forall a, length (enc a) = len) -> length (concat (map enc l)) = (length l * len)%nat.
Proof. intros Hlen. induction l as [|a l IH]; simpl; [done|]. by rewrite length_app, Hlen, IH. Qed.

Lemma reads_repeat {A B} (one : Decode B) (enc : A -> list Z) (view : A -> B) l :
  Forall (fun a => reads one (enc a) (view a)) l ->
  reads (dec_repeat (length l) one) (concat (map enc l)) (map view l).
Proof.
  induction 1 as [|a l Ha _ IH]; simpl; [apply reads_ret|].
  eapply reads_bind; [done|]. by eapply reads_bind_last.
Qed.

Lemma as_u32_small n : Z.of_nat n < 2 ^ 32 -> as_u32 n = Z.of_nat n.
Proof. intros Hn. unfold as_u32, wrap_u32. apply Z.mod_small. lia. Qed.

(** [reads] with a condition on what follows in the frame. *)
Lemma reads_count_check {A} (cond : nat -> bool) (e : nat -> WireError) (p : Decode A) bs a :
  (forall n, (length bs <= n)%nat -> cond n = false) ->
  reads p bs a ->
  reads (remaining ← get_remaining; if cond remaining then fail (e remaining) else p) bs a.
Proof.
  intros Hc Hp pre post. unfold mbind, Decode_bind, get_remaining, remaining. simpl.
  rewrite Hc; [apply Hp|]. rewrite !length_app. lia.
Qed.

Lemma count_fits len n m : (0 < len)%nat -> (n * len <= m)%nat -> (Z.of_nat (m / len) <? Z.of_nat n) = false.
Proof.
  intros Hlen Hn. apply Z.ltb_ge. apply Nat2Z.inj_le.
  apply Nat.div_le_lower_bound; lia.
Qed.

Lemma bind_assoc {A B C} (p : Decode A) (f : A -> Decode B) (g : B -> Decode C) d :
  ((p ≫= f) ≫= g) d = (p ≫= fun a => f a ≫= g) d.
Proof. unfold mbind, Decode_bind. by destruct (p d) as [[a d']|]. Qed.

Lemma reads_counted {A B} field len (one : Decode B) (enc : A -> list Z) (view : A -> B) l :
  (0 < len)%nat -> (forall a, length (enc a) = len) ->
  Forall (fun a => reads one (enc a) (view a)) l ->
  Z.of_nat (length (encode_counted enc l)) < 2 ^ 32 ->
  reads (decode_counted field len one) (encode_counted enc l) (map view l).
Proof.
  intros Hpos Hlen Hl Hbound. unfold encode_counted in *.
  rewrite length_app, (concat_map_length enc len) in Hbound by done.
  assert (Hn : Z.of_nat (length l) < 2 ^ 32) by nia. rewrite as_u32_small by done.
  intros pre post. unfold decode_counted, dec_count. rewrite bind_assoc.
  eapply reads_bind; [apply reads_u32; unfold in_u32; lia|].
  intros pre' post'. rewrite bind_assoc. unfold mbind at 1, Decode_bind at 1, get_remaining at 1.
  unfold remaining. simpl d_bytes. simpl d_offset.
  rewrite count_fits; [|done|].
  - unfold mbind, Decode_bind, mret, Decode_ret. rewrite Nat2Z.id. by apply reads_repeat.
  - rewrite !length_app, (concat_map_length enc len) by done. lia.
Qed.

Lemma encode_trade_length r : length (encode_trade r) = TRADE_RECORD_LEN.
Proof. unfold encode_trade. by rewrite !length_app, !le_bytes_length, !put_fixed_length. Qed.

Lemma encode_side_level_length s l : length (encode_side_level s l) = DEPTH_LEVEL_LEN.
Proof.
  unfold encode_side_level, encode_level.
  by rewrite !length_app, !le_bytes_length, !put_fixed_length.
Qed.

Lemma encode_lifecycle_length r : length (encode_lifecycle r) = LIFECYCLE_RECORD_LEN.
Proof. unfold encode_lifecycle. by rewrite !length_app, !le_bytes_length, !put_fixed_length. Qed.

Lemma reads_depth_snapshot s :
  Forall level_typed (ds_bids s) -> Forall level_typed (ds_asks s) ->
  Z.of_nat (length (encode_depth_snapshot s)) < 2 ^ 32 ->
  reads decode_depth_snapshot (encode_depth_snapshot s) s.
Proof.
  intros Hb Ha Hbound. unfold encode_depth_snapshot, decode_depth_snapshot in *.
  rewrite !length_app, !le_bytes_length, !(concat_map_length _ DEPTH_LEVEL_LEN) in Hbound
    by apply encode_side_level_length.
  unfold DEPTH_LEVEL_LEN in Hbound.
  rewrite !as_u32_small by lia.
  do 2 (eapply reads_bind; [apply reads_u32; unfold in_u32; lia|]).
  apply (reads_count_check (fun n => _ <? _) (fun n => CountTooLarge "depth levels" _ n)).
  - intros n Hn. rewrite length_app, !(concat_map_length _ DEPTH_LEVEL_LEN) in Hn
      by apply encode_side_level_length.
    rewrite <- Nat2Z.inj_add. apply count_fits; unfold DEPTH_LEVEL_LEN in *; lia.
  - rewrite !Nat2Z.id. destruct s as [b a]. simpl in *.
    eapply reads_bind; [apply (reads_repeat _ _ id)|].
    { eapply Forall_impl; [exact Hb|]. intros l Hl. by apply reads_side_level. }
    eapply reads_bind_last; [apply (reads_repeat _ _ id)|by rewrite !map_id].
    eapply Forall_impl; [exact Ha|]. intros l Hl. by apply reads_side_level.
Qed.

(** ** Whole messages *)

Definition body_view (b : MessageBody) : MessageBody :=
  match b with
  | BodyLifecycle records => BodyLifecycle (map lifecycle_view records)
  | BodyBar bar => BodyBar (bar_view bar)
  | _ => b
  end.

(** What a consumer sees of a message: the stream is the one of the body's type. *)
Definition message_view (m : MarketMessage) : MarketMessage :=
  mkMessage (type_stream (message_type (mm_body m))) (mm_flags m) (mm_market_seq m)
    (mm_sub_seq m) (mm_log_index m) (mm_ordinal m) (mm_epoch m) (mm_leader_id m) (mm_ts_ms m)
    (mm_symbol_id m) (body_view (mm_body m)).

Lemma reads_body b :
  body_typed b -> Z.of_nat (length (encode_body b)) < 2 ^ 32 ->
  reads (decode_body (message_type b)) (encode_body b) (body_view b).
Proof.
  destruct b as [l|r|s|l|l|r|r|r]; simpl; intros Ht Hb; apply reads_map.
  - rewrite <- (map_id l) at 2. apply reads_counted; auto using encode_trade_length; [unfold TRADE_RECORD_LEN; lia|].
    eapply Forall_impl; [exact Ht|]. apply reads_trade.
  - by apply reads_bbo.
  - destruct Ht. by apply reads_depth_snapshot.
  - rewrite <- (map_id l) at 2. apply reads_counted; [unfold DEPTH_LEVEL_LEN; lia| | |done].
    + intros u. apply encode_side_level_length.
    + eapply Forall_impl; [exact Ht|]. apply reads_update.
  - apply reads_counted; auto using encode_lifecycle_length; [unfold LIFECYCLE_RECORD_LEN; lia|].
    eapply Forall_impl; [exact Ht|]. apply reads_lifecycle.
  - by apply reads_status.
  - by apply reads_gap.
  - by apply reads_bar.
Qed.

Lemma encode_header_length m n : length (encode_header m n) = HEADER_LEN.
Proof. unfold encode_header. by rewrite !length_app, !le_bytes_length. Qed.

(** Reading the rest of the frame to its last byte. *)
Definition reads_end {A} (p : Decode A) (bs : list Z) (a : A) : Prop :=
  forall pre, p (mkDecoder (pre ++ bs) (length pre)) = Ok (a, mkDecoder (pre ++ bs) (length (pre ++ bs))).

Lemma reads_end_bind {A B} (p : Decode A) (f : A -> Decode B) bs1 bs2 a b :
  reads p bs1 a -> reads_end (f a) bs2 b -> reads_end (p ≫= f) (bs1 ++ bs2) b.
Proof.
  intros Hp Hf pre. unfold mbind, Decode_bind. rewrite Hp. specialize (Hf (pre ++ bs1)).
  by rewrite <- !app_assoc, !length_app in *.
Qed.

Lemma reads_end_body {A} t b bs (k : MessageBody -> Decode A) a :
  reads (decode_body t) bs b -> k b = mret a ->
  reads_end (body ← decode_body t; trailing ← get_remaining;
             if negb (bool_decide (trailing = 0%nat)) then fail (TrailingBytes trailing)
             else k body) bs a.
Proof.
  intros Hb Hk. rewrite <- (app_nil_r bs). eapply reads_end_bind; [done|]. intros pre.
  unfold mbind, Decode_bind, get_remaining, remaining. simpl.
  rewrite app_nil_r, bool_decide_true by lia. simpl. by rewrite Hk.
Qed.

Lemma decode_message_encode m :
  message_typed m -> Z.of_nat (length (encode_body (mm_body m))) < 2 ^ 32 ->
  reads_end (decode_message (length (encode_body (mm_body m)))) (encode m) (message_view m).
Proof.
  intros (? & ? & ? & ? & ? & ? & ? & ? & ? & ? & Hbody) Hlen.
  unfold decode_message, encode, encode_header. rewrite <- !app_assoc.
  rewrite as_u32_small by done.
  eapply reads_end_bind; [by apply reads_take|]. rewrite bool_decide_true by done. simpl negb.
  eapply reads_end_bind; [apply reads_u8|]. rewrite Z.eqb_refl. simpl negb.
  assert (in_u32 (Z.of_nat (length (encode_body (mm_body m))))) by (unfold in_u32; lia).
  assert (in_u16 0) by (unfold in_u16; lia).
  repeat (eapply reads_end_bind; [solve [eauto with wire]|]).
  rewrite Z.eqb_refl. simpl negb. eapply reads_end_body; [by apply reads_body|done].
Qed.

Lemma decode_encode m :
  message_typed m -> Z.of_nat (length (encode_body (mm_body m))) < 2 ^ 32 ->
  decode (encode m) = Ok (message_view m).
Proof.
  intros Hm Hlen. pose proof (decode_message_encode m Hm Hlen []) as E. simpl in E.
  unfold decode. assert (Hl : length (encode m) = (HEADER_LEN + length (encode_body (mm_body m)))%nat).
  { unfold encode. by rewrite length_app, encode_header_length. }
  rewrite bool_decide_false by lia.
  replace (length (encode m) - HEADER_LEN)%nat with (length (encode_body (mm_body m))) by lia.
  unfold Decoder_new. by rewrite E.
Qed.

(** ** Whatever arrives is typed *)

(** Every success of [p] on a frame of bytes stays inside it, consumes [n] bytes and returns a
    value with [Q a n]. *)
Definition yields {A} (p : Decode A) (Q : A -> nat -> Prop) : Prop :=
  forall d a d',
    Forall in_u8 (d_bytes d) -> (d_offset d <= length (d_bytes d))%nat -> p d = Ok (a, d') ->
    exists n, d' = mkDecoder (d_bytes d) (d_offset d + n) /\
      (d_offset d + n <= length (d_bytes d))%nat /\ Q a n.

Lemma yields_ret {A} (a : A) (Q : A -> nat -> Prop) : Q a 0%nat -> yields (mret a) Q.
Proof.
  intros HQ d a' d' _ Hle E. unfold mret, Decode_ret in E. simplify_eq. exists 0%nat.
  rewrite Nat.add_0_r. by destruct d'.
Qed.

Lemma yields_fail {A} e (Q : A -> nat -> Prop) : yields (fail e) Q.
Proof. by intros d a d'. Qed.

Lemma yields_bind {A B} (p : Decode A) (f : A -> Decode B) (R : A -> nat -> Prop) Q :
  yields p R -> (forall a n, R a n -> yields (f a) (fun b m => Q b (n + m)%nat)) ->
  yields (p ≫= f) Q.
Proof.
  intros Hp Hf d b d' Hd Hle E. unfold mbind, Decode_bind in E.
  destruct (p d) as [[a d1]|] eqn:Ea; [|done].
  destruct (Hp _ _ _ Hd Hle Ea) as (n & -> & Hn & HR).
  destruct (Hf _ _ HR (mkDecoder _ _) _ _ Hd Hn E) as (m & -> & Hm & HQ). simpl in *.
  exists (n + m)%nat. by rewrite Nat.add_assoc.
Qed.

Lemma yields_weaken {A} (p : Decode A) (R Q : A -> nat -> Prop) :
  yields p R -> (forall a n, R a n -> Q a n) -> yields p Q.
Proof. intros Hp HQ d a d' Hd Hle E. destruct (Hp _ _ _ Hd Hle E) as (n & ? & ? & ?). eauto. Qed.

Lemma yields_map {A B} (f : A -> B) (p : Decode A) Q :
  yields p (fun a n => Q (f a) n) -> yields (f <$> p) Q.
Proof.
  intros Hp d b d' Hd Hle E. unfold fmap, Decode_map in E.
  destruct (p d) as [[a d1]|] eqn:Ea; [|done]. simplify_eq. eauto.
Qed.

Lemma yields_if {A} (c : bool) (p q : Decode A) Q :
  (c = true -> yields p Q) -> (c = false -> yields q Q) -> yields (if c then p else q) Q.
Proof. destruct c; auto. Qed.

Lemma yields_remaining (Q : nat -> nat -> Prop) : (forall n, Q n 0%nat) -> yields get_remaining Q.
Proof.
  intros HQ d a d' _ Hle E. unfold get_remaining in E. simplify_eq. exists 0%nat.
  rewrite Nat.add_0_r. by destruct d'.
Qed.

Lemma yields_take n field :
  yields (take_bytes n field) (fun bs m => Forall in_u8 bs /\ length bs = n /\ m = n).
Proof.
  intros d a d' Hd Hle E. unfold take_bytes in E.
  case_bool_decide as Hend; [|done]. simplify_eq. exists n. split_and!; try done.
  - by apply Forall_take, Forall_drop.
  - rewrite length_take, length_drop. lia.
Qed.

Lemma yields_le n field :
  yields (bytes ← take_bytes n field; mret (le_value bytes))
    (fun v m => 0 <= v < 2 ^ (8 * Z.of_nat n) /\ m = n).
Proof.
  eapply yields_bind; [apply yields_take|]. intros bs m (Hb & <- & ->). apply yields_ret.
  split; [by apply le_value_range|lia].
Qed.

Lemma yields_u8 field : yields (dec_u8 field) (fun v n => in_u8 v /\ n = 1%nat).
Proof.
  eapply yields_bind; [apply yields_take|]. intros bs m (Hb & Hl & ->). apply yields_ret.
  split; [|lia]. destruct bs as [|b [|]]; try done. by inversion Hb.
Qed.
Lemma yields_u16 field : yields (dec_u16 field) (fun v n => in_u16 v /\ n = 2%nat).
Proof. apply (yields_le 2). Qed.
Lemma yields_u32 field : yields (dec_u32 field) (fun v n => in_u32 v /\ n = 4%nat).
Proof. apply (yields_le 4). Qed.
Lemma yields_u64 field : yields (dec_u64 field) (fun v n => in_u64 v /\ n = 8%nat).
Proof.
  eapply yields_weaken; [apply (yields_le 8)|]. intros v n [Hv ->]. split; [|done].
  unfold in_u64, U64_MAX. lia.
Qed.
Lemma yields_fixed field : yields (dec_fixed field) (fun v n => in_i128 v /\ n = 16%nat).
Proof.
  eapply yields_bind; [apply yields_take|]. intros bs m (Hb & Hl & ->). apply yields_ret.
  split; [apply wrap_i128_range|lia].
Qed.

Lemma yields_option_fixed field :
  yields (decode_option_fixed field) (fun v n => in_option in_i128 v /\ n = 17%nat).
Proof.
  eapply yields_bind; [apply yields_u8|]. intros c n [_ ->].
  apply yields_if; [intros _|intros _; apply yields_if; intros _; [|apply yields_fail]].
  - eapply yields_bind; [apply yields_take|]. intros bs n (_ & _ & ->). by apply yields_ret.
  - eapply yields_bind; [apply yields_fixed|]. intros v n [Hv ->]. by apply yields_ret.
Qed.

(** A code byte handed to an enumeration that consumes nothing. *)
Lemma yields_code {A} field (f : Z -> Decode A) (P : A -> Prop) :
  (forall c, in_u8 c -> yields (f c) (fun a n => P a /\ n = 0%nat)) ->
  yields (dec_u8 field ≫= f) (fun a n => P a /\ n = 1%nat).
Proof.
  intros Hf. eapply yields_bind; [apply yields_u8|]. intros c n [Hc ->].
  eapply yields_weaken; [by apply Hf|]. intros a n [? ->]. split; [done|lia].
Qed.

(** Case on an enumeration's code: every branch returns or fails. *)
Ltac yields_enum :=
  apply (yields_code _ _ (fun _ => True)); intros c _;
  cbv beta delta [decode_side decode_fee_asset decode_volume_unit decode_kind decode_reason
    from_code];
  repeat match goal with |- yields (match ?x with _ => _ end) _ => destruct x end;
  first [by apply yields_ret | apply yields_fail].

Lemma yields_side field :
  yields (dec_u8 field ≫= decode_side field) (fun _ n => True /\ n = 1%nat).
Proof. yields_enum. Qed.
Lemma yields_fee_asset field :
  yields (dec_u8 field ≫= decode_fee_asset field) (fun _ n => True /\ n = 1%nat).
Proof. yields_enum. Qed.
Lemma yields_volume_unit field :
  yields (dec_u8 field ≫= decode_volume_unit field) (fun _ n => True /\ n = 1%nat).
Proof. yields_enum. Qed.
Lemma yields_kind field : yields (dec_u8 field ≫= decode_kind) (fun _ n => True /\ n = 1%nat).
Proof. yields_enum. Qed.
Lemma yields_reason field : yields (dec_u8 field ≫= decode_reason) (fun _ n => True /\ n = 1%nat).
Proof. yields_enum. Qed.
Lemma yields_type field : yields (dec_u8 field ≫= from_code) (fun _ n => True /\ n = 1%nat).
Proof. yields_enum. Qed.
Lemma yields_errors field :
  yields (dec_u8 field ≫= decode_errors field) (fun e n => in_errors e /\ n = 1%nat).
Proof.
  apply yields_code. intros c Hc. unfold decode_errors.
  destruct (from_bits c) as [e|] eqn:E; [|apply yields_fail]. apply yields_ret.
  assert (e = c) as -> by (unfold from_bits in E; destruct (_ =? 0); by simplify_eq).
  done.
Qed.

#[export] Hint Resolve yields_u8 yields_u16 yields_u32 yields_u64 yields_fixed
  yields_option_fixed yields_side yields_fee_asset yields_volume_unit yields_kind yields_reason
  yields_type yields_errors : wire.

(** Run a record decoder, keeping what each field promises. *)
Ltac yield_fields :=
  repeat (eapply yields_bind; [solve [eauto with wire]|];
          let v := fresh "v" in let n := fresh "n" in intros v n [? ->]);
  try apply yields_ret.

Lemma yields_trade :
  yields decode_trade (fun r n => trade_typed r /\ n = length (encode_trade r)).
Proof.
  unfold decode_trade. yield_fields. rewrite encode_trade_length. unfold trade_typed.
  simpl. by split_and!.
Qed.

Lemma yields_level field :
  yields (decode_level field) (fun p n => level_typed p.2 /\ n = DEPTH_LEVEL_LEN).
Proof. unfold decode_level. yield_fields. unfold level_typed. simpl. by split_and!. Qed.

Lemma yields_side_level field :
  yields (decode_side_level field) (fun l n => level_typed l /\ n = DEPTH_LEVEL_LEN).
Proof.
  eapply yields_bind; [apply yields_level|]. intros p n [? ->]. apply yields_ret.
  split; [done|lia].
Qed.

Lemma yields_update :
  yields decode_update (fun u n => level_typed (lu_level u) /\ n = length (encode_update u)).
Proof.
  eapply yields_bind; [apply yields_level|]. intros p n [? ->]. apply yields_ret.
  split; [done|]. unfold encode_update. rewrite encode_side_level_length. lia.
Qed.

(** A decoded record is its own view. *)
Lemma yields_lifecycle :
  yields decode_lifecycle (fun r n =>
    (lifecycle_typed r /\ lifecycle_view r = r) /\ n = length (encode_lifecycle r)).
Proof.
  unfold decode_lifecycle. yield_fields. rewrite encode_lifecycle_length.
  unfold lifecycle_typed, lifecycle_view. simpl.
  match goal with |- context [negb (?c =? 0)] => destruct (Z.eqb_spec c 0) as [->|Hc] end;
    simpl; [by split_and!|].
  rewrite (proj2 (Z.eqb_neq _ _)) by done. by split_and!.
Qed.

Lemma yields_bbo : yields decode_bbo (fun r n => bbo_typed r /\ n = length (encode_bbo r)).
Proof.
  unfold decode_bbo. yield_fields. split; [unfold bbo_typed; simpl; by split_and!|].
  unfold encode_bbo. by rewrite !length_app, !put_fixed_length, !put_option_fixed_length.
Qed.

Lemma yields_status :
  yields decode_status (fun r n => status_typed r /\ n = length (encode_status r)).
Proof.
  unfold decode_status. yield_fields. split; [unfold status_typed; simpl; by split_and!|].
  unfold encode_status. by rewrite !length_app, !le_bytes_length.
Qed.

Lemma yields_gap : yields decode_gap (fun r n => gap_typed r /\ n = length (encode_gap r)).
Proof.
  unfold decode_gap. yield_fields. split; [unfold gap_typed; simpl; by split_and!|].
  unfold encode_gap. by rewrite !length_app, !le_bytes_length.
Qed.

Lemma in_u32_u64 v : in_u32 v -> in_u64 v.
Proof. unfold in_u32. range_lia. Qed.

Lemma yields_bar :
  yields decode_bar (fun r n => (bar_typed r /\ bar_view r = r) /\ n = length (encode_bar r)).
Proof.
  unfold decode_bar. yield_fields. split.
  - split.
    + unfold bar_typed. simpl. split_and!; auto using in_u32_u64.
    + unfold bar_view. simpl. f_equal. unfold wrap_u32. by apply Z.mod_small.
  - unfold encode_bar. by rewrite !length_app, !le_bytes_length, !put_fixed_length.
Qed.

(** [count] records of [len] bytes each. *)
Lemma yields_repeat {A} (one : Decode A) (P : A -> Prop) len count :
  yields one (fun a n => P a /\ n = len) ->
  yields (dec_repeat count one) (fun l n => Forall P l /\ length l = count /\ n = (count * len)%nat).
Proof.
  intros Hone. induction count as [|count IH]; simpl.
  - by apply yields_ret.
  - eapply yields_bind; [exact Hone|]. intros a n [Ha ->].
    eapply yields_bind; [exact IH|]. intros l n (Hl & Hlen & ->). apply yields_ret.
    split_and!; [by constructor|simpl; lia|lia].
Qed.

Lemma yields_counted {A} field len (one : Decode A) (P : A -> Prop) (enc : A -> list Z) :
  (forall a, length (enc a) = len) ->
  yields one (fun a n => P a /\ n = length (enc a)) ->
  yields (decode_counted field len one)
    (fun l n => Forall P l /\ n = length (encode_counted enc l)).
Proof.
  intros Hlen Hone. unfold decode_counted, dec_count.
  eapply (yields_bind _ _ (fun c n => n = 4%nat)).
  - eapply yields_bind; [apply yields_u32|]. intros c n [_ ->].
    eapply (yields_bind _ _ (fun _ n => n = 0%nat)); [by apply yields_remaining|].
    intros r n ->. apply yields_if; intros _; [apply yields_fail|by apply yields_ret].
  - intros c n ->. eapply yields_weaken.
    + apply (yields_repeat _ P len). eapply yields_weaken; [exact Hone|].
      intros a n [? ->]. by rewrite Hlen.
    + intros l n (Hl & Hc & ->). split; [done|]. unfold encode_counted.
      rewrite length_app, le_bytes_length, (concat_map_length enc len) by done. lia.
Qed.

Lemma yields_depth_snapshot :
  yields decode_depth_snapshot (fun s n =>
    (Forall level_typed (ds_bids s) /\ Forall level_typed (ds_asks s)) /\
    n = length (encode_depth_snapshot s)).
Proof.
  unfold decode_depth_snapshot.
  eapply yields_bind; [apply yields_u32|]. intros b n [_ ->].
  eapply yields_bind; [apply yields_u32|]. intros a n [_ ->].
  eapply (yields_bind _ _ (fun _ n => n = 0%nat)); [by apply yields_remaining|].
  intros r n ->. apply yields_if; intros _; [apply yields_fail|].
  eapply yields_bind; [apply yields_repeat, yields_side_level|]. intros bl n (Hb & Hbl & ->).
  eapply yields_bind; [apply yields_repeat, yields_side_level|]. intros al n (Ha & Hal & ->).
  apply yields_ret. split; [done|]. unfold encode_depth_snapshot.
  rewrite !length_app, !le_bytes_length, !(concat_map_length _ DEPTH_LEVEL_LEN)
    by apply encode_side_level_length. simpl. lia.
Qed.

Lemma yields_body t :
  yields (decode_body t) (fun b n =>
    (body_typed b /\ message_type b = t /\ body_view b = b) /\ n = length (encode_body b)).
Proof.
  destruct t; apply yields_map.
  - eapply yields_weaken; [apply (yields_counted _ _ _ trade_typed encode_trade)|naive_solver].
    + apply encode_trade_length.
    + apply yields_trade.
  - eapply yields_weaken; [apply yields_bbo|naive_solver].
  - eapply yields_weaken; [apply yields_depth_snapshot|naive_solver].
  - eapply yields_weaken; [apply (yields_counted _ _ _ (fun u => level_typed (lu_level u))
                                    encode_update)|naive_solver].
    + intros u. apply encode_side_level_length.
    + apply yields_update.
  - eapply yields_weaken.
    + apply (yields_counted _ _ _ (fun r => lifecycle_typed r /\ lifecycle_view r = r)
               encode_lifecycle); [apply encode_lifecycle_length|apply yields_lifecycle].
    + intros l n [Hl ->]. simpl. split_and!; try done.
      * eapply Forall_impl; [exact Hl|]. naive_solver.
      * f_equal. rewrite <- (map_id l) at 2. apply map_ext_Forall.
        eapply Forall_impl; [exact Hl|]. naive_solver.
  - eapply yields_weaken; [apply yields_status|naive_solver].
  - eapply yields_weaken; [apply yields_gap|naive_solver].
  - eapply yields_weaken; [apply yields_bar|]. intros r n [[? Hv] ->]. simpl. by rewrite Hv.
Qed.

Lemma type_stream_u16 t : in_u16 (type_stream t).
Proof. destruct t; split; vm_compute; congruence. Qed.

Lemma yields_message actual :
  yields (decode_message actual) (fun m n =>
    message_typed m /\ message_view m = m /\ Z.of_nat actual < 2 ^ 32 /\
    n = length (encode m)).
Proof.
  unfold decode_message.
  eapply yields_bind; [apply yields_take|]. intros magic n (_ & _ & ->).
  apply yields_if; intros _; [apply yields_fail|].
  eapply yields_bind; [apply yields_u8|]. intros version n [_ ->].
  apply yields_if; intros _; [apply yields_fail|]. yield_fields.
  apply yields_if; [intros _; apply yields_fail|intros Hact].
  eapply yields_bind; [apply yields_body|]. intros b n ((Hb & <- & Hview) & ->).
  eapply (yields_bind _ _ (fun _ n => n = 0%nat)); [by apply yields_remaining|].
  intros r n ->. apply yields_if; intros _; [apply yields_fail|]. apply yields_ret.
  apply negb_false_iff, Z.eqb_eq in Hact. split_and!.
  - unfold message_typed. simpl. auto 12 using type_stream_u16.
  - unfold message_view. simpl. by rewrite Hview.
  - unfold in_u32 in *. lia.
  - unfold encode. rewrite length_app, encode_header_length. simpl. lia.
Qed.

(** A program that only succeeds at the end of the frame. *)
Definition ends {A} (p : Decode A) : Prop :=
  forall d a d', p d = Ok (a, d') -> remaining d' = 0%nat.

Lemma ends_bind {A B} (p : Decode A) (f : A -> Decode B) : (forall a, ends (f a)) -> ends (p ≫= f).
Proof.
  intros Hf d b d' E. unfold mbind, Decode_bind in E. destruct (p d) as [[a d1]|]; [|done].
  by eapply Hf.
Qed.

Lemma ends_if {A} (c : bool) e (p : Decode A) : ends p -> ends (if c then fail e else p).
Proof. by destruct c. Qed.

Lemma ends_trailing {A} (k : Decode A) :
  (forall d a d', k d = Ok (a, d') -> d' = d) ->
  ends (trailing ← get_remaining;
        if negb (bool_decide (trailing = 0%nat)) then fail (TrailingBytes trailing) else k).
Proof.
  intros Hk d a d' E. unfold mbind, Decode_bind, get_remaining in E. simpl in E.
  case_bool_decide as Hr; [|done]. by rewrite (Hk _ _ _ E).
Qed.

Lemma decode_message_ends actual : ends (decode_message actual).
Proof.
  unfold decode_message.
  repeat first [apply ends_trailing | apply ends_bind; intros ? | apply ends_if].
  intros cur msg next E. unfold mret, Decode_ret in E. by simplify_eq.
Qed.

Lemma decode_Ok bytes m :
  decode bytes = Ok m ->
  (HEADER_LEN <= length bytes)%nat /\
  exists d, decode_message (length bytes - HEADER_LEN) (Decoder_new bytes) = Ok (m, d).
Proof.
  unfold decode. case_bool_decide as Hl; [done|]. intros E.
  destruct (decode_message _ _) as [[m' d]|]; [|done]. simplify_eq. eauto with lia.
Qed.

(** Failing after having read [bs]. *)
Definition refuses {A} (p : Decode A) (bs : list Z) (e : WireError) : Prop :=
  forall pre post, p (mkDecoder (pre ++ bs ++ post) (length pre)) = Err e.

Lemma refuses_bind {A B} (p : Decode A) (f : A -> Decode B) bs1 bs2 a e :
  reads p bs1 a -> refuses (f a) bs2 e -> refuses (p ≫= f) (bs1 ++ bs2) e.
Proof.
  intros Hp Hf pre post. unfold mbind, Decode_bind. rewrite <- (app_assoc bs1), Hp.
  specialize (Hf (pre ++ bs1) post). by rewrite <- !app_assoc, !length_app in Hf.
Qed.

Lemma refuses_mismatch m n actual :
  message_typed m -> Z.of_nat n < 2 ^ 32 -> actual <> n ->
  refuses (decode_message actual) (encode_header m n) (BodyLengthMismatch (Z.of_nat n) actual).
Proof.
  intros (? & ? & ? & ? & ? & ? & ? & ? & ? & ? & _) Hn Hne.
  unfold decode_message, encode_header. rewrite as_u32_small by done.
  eapply refuses_bind; [by apply reads_take|]. rewrite bool_decide_true by done. simpl negb.
  eapply refuses_bind; [apply reads_u8|]. rewrite Z.eqb_refl. simpl negb.
  assert (in_u32 (Z.of_nat n)) by (unfold in_u32; lia).
  assert (in_u16 0) by (unfold in_u16; lia).
  rewrite <- (app_nil_r (le_bytes 2 0)).
  repeat (eapply refuses_bind; [solve [eauto with wire]|]).
  rewrite (proj2 (Z.eqb_neq _ _)) by lia. done.
Qed.

(** A frame whose header announces another body length. *)
Lemma decode_mismatch m n rest :
  message_typed m -> Z.of_nat n < 2 ^ 32 -> length rest <> n ->
  decode (encode_header m n ++ rest) = Err (BodyLengthMismatch (Z.of_nat n) (length rest)).
Proof.
  intros Hm Hn Hne. unfold decode.
  rewrite length_app, encode_header_length, bool_decide_false by lia.
  replace (HEADER_LEN + length rest - HEADER_LEN)%nat with (length rest) by lia.
  pose proof (refuses_mismatch m n (length rest) Hm Hn Hne [] rest) as E.
  rewrite app_nil_l in E. unfold Decoder_new. change 0%nat with (length (A:=Z) []). by rewrite E.
Qed.

(** C38: Whatever bytes arrive, a message [decode] returns is well typed (every field in its
    machine type, error masks within the known bits, the stream that of its body), accounts for
    every byte of the frame, and survives being encoded and decoded again unchanged. *)
Theorem wire_decode_typed bytes m :
  Forall in_u8 bytes -> decode bytes = Ok m ->
  message_typed m /\ mm_stream m = type_stream (message_type (mm_body m)) /\
  length (encode m) = length bytes /\ decode (encode m) = Ok m.
Proof.
  intros Hb E. apply decode_Ok in E as [Hl [d E]].
  pose proof (decode_message_ends _ _ _ _ E) as Hend.
  destruct (yields_message _ (Decoder_new bytes) _ _ Hb (Nat.le_0_l _) E) as (n & -> & Hn & Ht & Hv & Hact & ->).
  unfold remaining, Decoder_new in *. cbn [d_bytes d_offset] in *.
  assert (Hlen : length (encode m) = length bytes) by lia.
  split_and!; try done; [by rewrite <- Hv at 1|].
  rewrite decode_encode; [by rewrite Hv|done|].
  unfold encode in Hlen. rewrite length_app, encode_header_length in Hlen. lia.
Qed.

(** C25: Decoding an encoded message returns the message: every field of every record of the
    eight bodies survives, for all machine-typed values, except the three the format documents
    as derived or narrowed (the stream comes from the body's type, a counterparty sequence 0 reads
    as none, and a bar width is taken modulo 2^32). *)
Theorem wire_roundtrip m :
  message_typed m -> Z.of_nat (length (encode_body (mm_body m))) < 2 ^ 32 ->
  decode (encode m) = Ok (message_view m).
Proof. apply decode_encode. Qed.


(** A frame that lost its tail or gained one is refused, never misread: every strict prefix of
    an encoded message is [TooShort] or a [BodyLengthMismatch], and so is every extension. *)
Theorem wire_rejects_resized m :
  message_typed m -> Z.of_nat (length (encode_body (mm_body m))) < 2 ^ 32 ->
  (forall k, (k < HEADER_LEN)%nat -> decode (take k (encode m)) = Err (TooShort k HEADER_LEN)) /\
  (forall k, (HEADER_LEN <= k < length (encode m))%nat ->
     decode (take k (encode m)) =
     Err (BodyLengthMismatch (Z.of_nat (length (encode_body (mm_body m)))) (k - HEADER_LEN))) /\
  (forall extra, extra <> [] ->
     decode (encode m ++ extra) =
     Err (BodyLengthMismatch (Z.of_nat (length (encode_body (mm_body m))))
            (length (encode_body (mm_body m)) + length extra))).
Proof.
  intros Hm Hlen.
  assert (Hl : length (encode m) = (HEADER_LEN + length (encode_body (mm_body m)))%nat).
  { unfold encode. by rewrite length_app, encode_header_length. }
  split_and!.
  - intros k Hk. unfold decode. rewrite length_take, bool_decide_true by lia. f_equal. f_equal. lia.
  - intros k Hk. unfold encode in *.
    rewrite take_app_ge, encode_header_length by (rewrite encode_header_length; lia).
    rewrite decode_mismatch; [|done|done|].
    + f_equal. f_equal. rewrite length_take. rewrite length_app, encode_header_length in Hk. lia.
    + rewrite length_take. rewrite length_app, encode_header_length in Hk. lia.
  - intros extra Hx. unfold encode. rewrite <- app_assoc.
    assert (0 < length extra)%nat by (destruct extra; [done|simpl; lia]).
    rewrite decode_mismatch; [|done|done|]; rewrite length_app; [done|lia].
Qed.

(** ** Witnesses *)

Definition sample_trade : TradeRecord :=
  mkTrade 10 1 1700000000000 (- 7) 5 35 1 (Some FeeBase) (- 1) (Some FeeQuote) 5 Sell 4 0.

Definition sample_message : MarketMessage :=
  mkMessage STREAM_TRADE FLAG_END_OF_BATCH 7 3 42 3 9 1 1700000000000 0
    (BodyTrade [sample_trade; sample_trade]).

Lemma sample_message_typed : message_typed sample_message.
Proof.
  unfold message_typed, in_u16, in_u32. simpl.
  split_and!; try (unfold STREAM_TRADE; range_lia); try done.
  repeat constructor; unfold in_u32; simpl; try range_lia; split; vm_compute; congruence.
Defined.

Lemma wire_roundtrip_witness : decode (encode sample_message) = Ok (message_view sample_message).
Proof. apply (wire_roundtrip sample_message sample_message_typed). vm_compute. reflexivity. Defined.

Lemma wire_decode_typed_witness :
  exists m, decode (encode sample_message) = Ok m /\ message_typed m /\ decode (encode m) = Ok m.
Proof.
  exists sample_message. assert (E : decode (encode sample_message) = Ok sample_message)
    by (vm_compute; reflexivity).
  split; [exact E|].
  destruct (wire_decode_typed (encode sample_message) sample_message) as (Ht & _ & _ & Hr).
  - vm_compute. repeat constructor; try congruence; split; congruence.
  - exact E.
  - exact (conj Ht Hr).
Defined.

Lemma wire_rejects_resized_witness :
  decode (take 100 (encode sample_message)) = Err (BodyLengthMismatch 244 36) /\
  decode (encode sample_message ++ [0]) = Err (BodyLengthMismatch 244 245).
Proof.
  destruct (wire_rejects_resized sample_message sample_message_typed) as (_ & Hcut & Hext);
    [vm_compute; reflexivity|].
  split.
  - rewrite Hcut; [reflexivity|]. replace (length (encode sample_message)) with 308%nat
      by (vm_compute; reflexivity). unfold HEADER_LEN. lia.
  - rewrite Hext; [reflexivity|congruence].
Defined.
