(* ===== verification/ShadowBook.v ===== *)
(** * The feed's shadow book ([src/src/market_data/mod.rs], [ShadowBook])

    The market-data task keeps its own aggregate of the visible book, fed by the depth journal and
    reset from snapshots. The theorems show that it stays the aggregate of the real book, and what
    a truncated reset does to it. *)

From stdpp Require Import relations.
From S2P Require Import Prelude BTree Fixed Order OrderBook Sweep BookInv Execute Depth Book.

(** ** State and operations *)

Record LevelState : Type := mkLevelState {
  ls_price : Fixed;
  ls_volume : Fixed;
  ls_orders : Z;
}.

Record ShadowBook : Type := mkShadow {
  sh_bids : list (Fixed * LevelState);
  sh_asks : list (Fixed * LevelState);
  sh_last_trade : option Fixed;
}.

Definition ShadowBook_default : ShadowBook := mkShadow [] [] None.

Definition set_last_trade (p : option Fixed) (self : ShadowBook) : ShadowBook :=
  mkShadow (sh_bids self) (sh_asks self) p.

(** The body of [apply] on the map of the change's side: [entry(key).or_insert(empty)], the two
    updates, and the removal of an emptied level. *)
Definition apply_to_side (change : DepthChange) (map : list (Fixed * LevelState))
    : list (Fixed * LevelState) :=
  let key := dc_price change in
  let level := match bt_get key map with
               | Some level => level
               | None => mkLevelState (dc_price change) FIXED_ZERO 0
               end in
  let volume := fixed_add (ls_volume level) (dc_delta_volume change) in
  let orders := ls_orders level + dc_delta_orders change in
  let level := mkLevelState (ls_price level) volume (wrap_u32 (Z.max orders 0)) in
  let map := bt_insert key level map in
  if (ls_volume level <=? FIXED_ZERO) && (ls_orders level =? 0) then bt_remove key map else map.

Definition shadow_apply (self : ShadowBook) (change : DepthChange) : ShadowBook :=
  match dc_side change with
  | Buy => mkShadow (apply_to_side change (sh_bids self)) (sh_asks self) (sh_last_trade self)
  | Sell => mkShadow (sh_bids self) (apply_to_side change (sh_asks self)) (sh_last_trade self)
  end.

(** [levels.iter().map(..).collect()] into a [BTreeMap]. *)
Definition collect_levels (levels : list DepthLevel) : list (Fixed * LevelState) :=
  foldl (fun map level =>
           bt_insert (dl_price level)
             (mkLevelState (dl_price level) (dl_volume level) (dl_orders level)) map) [] levels.

Definition shadow_reset (bids asks : list DepthLevel) (last_trade : option Fixed)
    (self : ShadowBook) : ShadowBook :=
  mkShadow (collect_levels bids) (collect_levels asks) last_trade.

Definition best_bid (self : ShadowBook) : option LevelState := last (bt_values (sh_bids self)).

Definition best_ask (self : ShadowBook) : option LevelState := head (bt_values (sh_asks self)).

Definition shadow_level (side : OrderSide) (price : Fixed) (self : ShadowBook)
    : option LevelState :=
  match side with
  | Buy => bt_get price (sh_bids self)
  | Sell => bt_get price (sh_asks self)
  end.

Definition level_record (level : LevelState) : DepthLevel :=
  mkDepthLevel (ls_price level) (ls_volume level) (ls_orders level).

Definition shadow_depth (side : OrderSide) (levels : Z) (self : ShadowBook) : list DepthLevel :=
  let iter := match side with
              | Buy => reverse (bt_values (sh_bids self))
              | Sell => bt_values (sh_asks self)
              end in
  level_record <$> take (Z.to_nat levels) iter.

(** ** What the shadow stands for *)

(** The entry of a level with the given totals. *)
Definition level_entry (p : Fixed) (t : Z * Z) : option LevelState :=
  if t.2 =? 0 then None else Some (mkLevelState p (wrap_i128 t.1) t.2).

(** A map of one side holds exactly the levels [lv]. *)
Definition holds (map : list (Fixed * LevelState)) (lv : Fixed -> Z * Z) : Prop :=
  bt_sorted map /\ forall p, bt_get p map = level_entry p (lv p).

(** The shadow is the aggregate of the book. *)
Definition mirrors (sh : ShadowBook) (b : OrderBook) : Prop :=
  holds (sh_bids sh) (fun p => book_level Buy p b) /\
  holds (sh_asks sh) (fun p => book_level Sell p b).

(** The number of orders of a level stays a [u32] through every prefix of the journal. *)
Definition orders_fit (b : OrderBook) (j : list DepthChange) : Prop :=
  forall side p j1 j2, j = j1 ++ j2 -> (book_level side p b).2 + journal_orders side p j1 < 2 ^ 32.

Lemma level_entry_ne p q t l : level_entry p t = Some l -> level_entry q t = Some l -> p = q.
Proof. unfold level_entry. destruct (_ =? 0); naive_solver. Qed.

(** One change, on the side it names. *)
Lemma apply_to_side_holds map lv c :
  holds map lv ->
  real_level (lv (dc_price c)).1 (lv (dc_price c)).2 ->
  real_level ((lv (dc_price c)).1 + dc_delta_volume c) ((lv (dc_price c)).2 + dc_delta_orders c) ->
  (lv (dc_price c)).2 + dc_delta_orders c < 2 ^ 32 ->
  holds (apply_to_side c map)
    (fun p => if dc_price c =? p
              then ((lv p).1 + dc_delta_volume c, (lv p).2 + dc_delta_orders c) else lv p).
Proof.
  intros [Hs Hg] (Hv & Hn & Hz) (Hv' & Hn' & Hz') Hfit. unfold apply_to_side. cbv zeta.
  set (q := dc_price c) in *.
  set (level := match bt_get q map with Some l => l | None => _ end).
  assert (Hlev : level = mkLevelState q (wrap_i128 (lv q).1) (lv q).2).
  { unfold level. rewrite Hg. unfold level_entry. destruct (Z.eqb_spec (lv q).2 0) as [E|E]; [|done].
    rewrite (Hz E), E. done. }
  rewrite Hlev. cbn [ls_price ls_volume ls_orders]. unfold fixed_add. rewrite wrap_i128_add.
  assert (Ho : wrap_u32 (Z.max ((lv q).2 + dc_delta_orders c) 0) = (lv q).2 + dc_delta_orders c).
  { rewrite Z.max_l by lia. apply Z.mod_small. lia. }
  rewrite Ho. set (v' := (lv q).1 + dc_delta_volume c) in *.
  set (n' := (lv q).2 + dc_delta_orders c) in *.
  assert (Hrm : (wrap_i128 v' <=? FIXED_ZERO) && (n' =? 0) = (n' =? 0)).
  { destruct (Z.eqb_spec n' 0) as [E|E]; [|by rewrite andb_false_r].
    rewrite (Hz' E), wrap_i128_id by range_lia. done. }
  rewrite Hrm. destruct (Z.eqb_spec n' 0) as [E|E].
  - split; [by apply bt_remove_sorted, bt_insert_sorted|]. intros p.
    destruct (Z.eqb_spec q p) as [<-|Hne].
    + rewrite bt_remove_get by (by apply bt_insert_sorted). unfold level_entry. cbn [fst snd].
      fold n'. by rewrite E.
    + rewrite bt_remove_get_ne, bt_insert_get_ne by done. apply Hg.
  - split; [by apply bt_insert_sorted|]. intros p. destruct (Z.eqb_spec q p) as [<-|Hne].
    + rewrite bt_insert_get. unfold level_entry. cbn [fst snd]. fold v' n'.
      by rewrite (proj2 (Z.eqb_neq _ _) E).
    + rewrite bt_insert_get_ne by done. apply Hg.
Qed.

Lemma holds_ext map lv lv' : holds map lv -> (forall p, lv p = lv' p) -> holds map lv'.
Proof. intros [Hs Hg] E. split; [done|]. intros p. by rewrite Hg, E. Qed.

(** ** A whole journal *)

Definition reflects (sh : ShadowBook) (lv : OrderSide -> Fixed -> Z * Z) : Prop :=
  holds (sh_bids sh) (lv Buy) /\ holds (sh_asks sh) (lv Sell).

Definition bump (j : list DepthChange) (lv : OrderSide -> Fixed -> Z * Z)
    (side : OrderSide) (p : Fixed) : Z * Z :=
  ((lv side p).1 + journal_volume side p j, (lv side p).2 + journal_orders side p j).

Lemma journal_one side p c :
  journal_volume side p [c] = (if journal_at side p c then dc_delta_volume c else 0) /\
  journal_orders side p [c] = (if journal_at side p c then dc_delta_orders c else 0).
Proof. unfold journal_volume, journal_orders. simpl. lia. Qed.

Lemma trail_cons side p v n c j :
  trail side p v n (c :: j) ->
  real_level v n /\
  trail side p (v + journal_volume side p [c]) (n + journal_orders side p [c]) j.
Proof.
  intros Ht. split; [by eapply trail_start|]. intros j1 j2 ->.
  rewrite <- !Z.add_assoc, <- journal_volume_app, <- journal_orders_app. by apply (Ht (c :: j1) j2).
Qed.

Lemma shadow_apply_reflects sh lv c :
  reflects sh lv ->
  (forall side p, trail side p (lv side p).1 (lv side p).2 [c]) ->
  (forall side p, (lv side p).2 + journal_orders side p [c] < 2 ^ 32) ->
  reflects (shadow_apply sh c) (bump [c] lv).
Proof.
  intros [Hb Ha] Ht Hfit.
  pose proof (trail_start _ _ _ _ _ (Ht (dc_side c) (dc_price c))) as R0.
  pose proof (trail_end _ _ _ _ _ (Ht (dc_side c) (dc_price c))) as R1.
  specialize (Hfit (dc_side c) (dc_price c)).
  destruct (journal_one (dc_side c) (dc_price c) c) as [E1 E2]. rewrite E1, E2 in *.
  assert (Hat : journal_at (dc_side c) (dc_price c) c = true)
    by (unfold journal_at; by rewrite bool_decide_true, Z.eqb_refl).
  rewrite Hat in *.
  assert (Hother : forall side p, side <> dc_side c -> lv side p = bump [c] lv side p).
  { intros side p Hne. unfold bump. destruct (journal_one side p c) as [-> ->].
    unfold journal_at. rewrite bool_decide_false by done. simpl.
    rewrite !Z.add_0_r. by destruct (lv side p). }
  assert (Hsame : forall p, (if dc_price c =? p
            then ((lv (dc_side c) p).1 + dc_delta_volume c, (lv (dc_side c) p).2 + dc_delta_orders c)
            else lv (dc_side c) p) = bump [c] lv (dc_side c) p).
  { intros p. unfold bump. destruct (journal_one (dc_side c) p c) as [-> ->].
    unfold journal_at. rewrite bool_decide_true by done. simpl.
    destruct (dc_price c =? p); [done|]. rewrite !Z.add_0_r. by destruct (lv (dc_side c) p). }
  unfold shadow_apply. destruct (dc_side c); split; simpl.
  - eapply holds_ext; [by apply apply_to_side_holds|exact Hsame].
  - eapply holds_ext; [exact Ha|]. intros p. by apply Hother.
  - eapply holds_ext; [exact Hb|]. intros p. by apply Hother.
  - eapply holds_ext; [by apply apply_to_side_holds|exact Hsame].
Qed.

Lemma shadow_journal j : forall sh lv,
  reflects sh lv ->
  (forall side p, trail side p (lv side p).1 (lv side p).2 j) ->
  (forall side p j1 j2, j = j1 ++ j2 -> (lv side p).2 + journal_orders side p j1 < 2 ^ 32) ->
  reflects (foldl shadow_apply sh j) (bump j lv).
Proof.
  induction j as [|c j IH]; intros sh lv [Hb Ha] Ht Hfit; simpl.
  - assert (E : forall side p, lv side p = bump [] lv side p).
    { intros side p. unfold bump. destruct (journal_nil side p) as [-> ->].
      rewrite !Z.add_0_r. by destruct (lv side p). }
    split; (eapply holds_ext; [done|intros p; apply E]).
  - assert (E : forall side p, bump j (bump [c] lv) side p = bump (c :: j) lv side p).
    { intros side p. unfold bump. change (c :: j) with ([c] ++ j).
      rewrite journal_volume_app, journal_orders_app. simpl. f_equal; lia. }
    destruct (IH (shadow_apply sh c) (bump [c] lv)) as [Hb' Ha'].
    + apply shadow_apply_reflects; [done| |].
      * intros side p. apply trail_single; [by eapply trail_start|].
        specialize (Ht side p). apply trail_cons in Ht as [_ Ht]. by apply trail_start in Ht.
      * intros side p. by apply (Hfit side p [c] j).
    + intros side p. specialize (Ht side p). by apply trail_cons in Ht as [_ Ht].
    + intros side p j1 j2 ->. unfold bump. cbn [snd].
      rewrite <- Z.add_assoc, <- journal_orders_app. by apply (Hfit side p (c :: j1) j2).
    + split; (eapply holds_ext; [done|intros p; apply E]).
Qed.

(** A request's journal takes the shadow of the book to the shadow of the new book. *)
Lemma request_mirrored `{I256Ops} `{!I256Laws} b b' sh :
  book_ok b -> record_depth b = true -> depth_journal b = [] -> request_step b b' ->
  orders_fit b (depth_journal b') -> mirrors sh b ->
  mirrors (foldl shadow_apply sh (depth_journal b')) b'.
Proof.
  intros Hok Hrec Hj Hstep Hfit Hm.
  destruct (request_step_journaled _ _ Hok Hstep) as (j & Hr & Ej & Hl).
  rewrite Hj, Hrec in Ej. simpl in Ej. subst j.
  destruct (shadow_journal (depth_journal b') sh (fun side p => book_level side p b)) as [Hb Ha].
  - exact Hm.
  - intros side p. apply Hl. by eapply book_real_level.
  - exact Hfit.
  - split; (eapply holds_ext; [done|intros p; unfold bump]);
      [destruct (Hl Buy p) as [-> _]|destruct (Hl Sell p) as [-> _]]; done.
Qed.

(** ** Reading the shadow back *)

Lemma distinct_prices_iff p l : p ∈ distinct_prices l <-> exists o, o ∈ l /\ o_price o = p.
Proof.
  split; [apply distinct_prices_elem|]. intros (o & Ho & <-).
  induction l as [|h l IH]; [by apply not_elem_of_nil in Ho|]. simpl.
  apply elem_of_cons in Ho as [->|Ho]; [left|].
  destruct (decide (o_price o = o_price h)) as [->|Hne]; [left|]. right.
  apply list_elem_of_filter. auto.
Qed.

(** Along a side in priority order the distinct prices strictly worsen. *)
Lemma distinct_prices_sorted side l :
  worsening side l -> StronglySorted (better side) (distinct_prices l).
Proof.
  induction l as [|o l IH]; intros Hs; simpl; [constructor|].
  inversion Hs as [|? ? Hs' Ho]; subst. constructor.
  - by apply strongly_sorted_filter, IH.
  - apply Forall_forall. intros q [Hne Hq]%list_elem_of_filter.
    apply distinct_prices_elem in Hq as (x & Hx & <-). rewrite Forall_forall in Ho.
    specialize (Ho x Hx). unfold better in *. destruct side; lia.
Qed.

Lemma level_orders_pos {K} p (m : list (K * Order)) :
  level_orders p m <> 0 <-> exists o, o ∈ bt_values m /\ o_price o = p.
Proof.
  assert (Hnn : forall m : list (K * Order), 0 <= level_orders p m).
  { intros m'. apply sum_Z_nonneg, Forall_fmap, Forall_true. intros e. simpl.
    destruct (at_price p e.2); lia. }
  induction m as [|[k o] m IH].
  - split; [done|]. by intros (o & ?%not_elem_of_nil & _).
  - rewrite level_orders_cons. unfold bt_values in *. rewrite fmap_cons. specialize (Hnn m).
    unfold at_price. destruct (Z.eqb_spec (o_price o) p) as [E|E].
    + split; [|lia]. intros _. exists o. split; [left|done].
    + rewrite Z.add_0_l, IH. split.
      * intros (x & ? & ?). exists x. split; [by right|done].
      * intros (x & [->|Hx]%elem_of_cons & ?); [done|eauto].
Qed.

Lemma book_level_present side p b :
  (book_level side p b).2 <> 0 <-> p ∈ distinct_prices (side_orders side b).
Proof. rewrite distinct_prices_iff. destruct side; simpl; apply level_orders_pos. Qed.

(** The prices of a side, ascending. *)
Definition ascending_prices (side : OrderSide) (b : OrderBook) : list Fixed :=
  match side with
  | Buy => reverse (distinct_prices (side_orders side b))
  | Sell => distinct_prices (side_orders side b)
  end.

Lemma strongly_sorted_reverse {A} (R : A -> A -> Prop) l :
  StronglySorted R l -> StronglySorted (flip R) (reverse l).
Proof.
  induction 1 as [|a l _ IH Ha]; [constructor|]. rewrite reverse_cons.
  apply strongly_sorted_app; [done|repeat constructor|].
  intros x y Hx ->%list_elem_of_singleton. rewrite elem_of_reverse in Hx.
  rewrite Forall_forall in Ha. by apply Ha.
Qed.

Lemma ascending_sorted n side b :
  book_inv n b -> StronglySorted Z.lt (ascending_prices side b).
Proof.
  intros Hinv. destruct side; simpl.
  - pose proof (distinct_prices_sorted _ _ (side_worsening _ (bk_bids _ _ Hinv))) as Hs.
    by apply strongly_sorted_reverse in Hs.
  - exact (distinct_prices_sorted _ _ (side_worsening _ (bk_asks _ _ Hinv))).
Qed.

(** A side map that holds a book's levels is determined by them. *)
Lemma holds_levels n side b map :
  book_inv n b -> holds map (fun p => book_level side p b) ->
  map = (fun p => (p, mkLevelState p (wrap_i128 (book_level side p b).1) (book_level side p b).2))
          <$> ascending_prices side b.
Proof.
  intros Hinv [Hs Hg]. pose proof (ascending_sorted _ side _ Hinv) as Hasc.
  set (f := fun p => (p, _)).
  assert (Hkeys : bt_sorted (f <$> ascending_prices side b)).
  { unfold bt_sorted. rewrite <- list_fmap_compose.
    replace (fst ∘ f <$> ascending_prices side b) with (ascending_prices side b)
      by (by rewrite list_fmap_id).
    eapply strongly_sorted_impl; [|exact Hasc]. intros x y. unfold key_lt, cmp, Z_cmp.
    by rewrite Z.compare_lt_iff. }
  apply bt_sorted_unique; [done|done|]. apply NoDup_Permutation.
  - by apply bt_sorted_NoDup.
  - by apply bt_sorted_NoDup.
  - intros [p l]. rewrite <- bt_get_elem, Hg by done. unfold level_entry.
    assert (Hin : p ∈ ascending_prices side b <-> (book_level side p b).2 <> 0).
    { rewrite book_level_present. destruct side; simpl; [apply elem_of_reverse|done]. }
    rewrite list_elem_of_fmap. unfold f. destruct (Z.eqb_spec (book_level side p b).2 0) as [E|E].
    + split; [done|]. intros (q & [= -> ->] & Hq). by apply Hin in Hq.
    + split; [intros [= <-]; exists p; split; [done|by apply Hin]|].
      intros (q & [= -> ->] & Hq). done.
Qed.

(** The number of orders of every level is a [u32]. *)
Definition levels_fit (b : OrderBook) : Prop := forall side p, (book_level side p b).2 < 2 ^ 32.

Lemma reference_state n b side p :
  book_inv n b -> levels_fit b ->
  level_record (mkLevelState p (wrap_i128 (book_level side p b).1) (book_level side p b).2) =
  reference_level side b p.
Proof.
  intros Hinv Hfit. unfold level_record, reference_level. simpl. f_equal. symmetry.
  apply Z.mod_small. destruct (book_real_level n b side p Hinv) as (_ & Hn & _).
  specialize (Hfit side p). lia.
Qed.

Lemma mirrors_depth n sh b side levels :
  book_inv n b -> levels_fit b -> mirrors sh b -> 0 <= levels ->
  shadow_depth side levels sh = depth side levels b.
Proof.
  intros Hinv Hfit [Hb Ha] Hl. rewrite (depth_reference n) by done.
  apply (holds_levels n Buy) in Hb; [|done]. apply (holds_levels n Sell) in Ha; [|done].
  unfold shadow_depth, bt_values. rewrite Hb, Ha, <- !list_fmap_compose.
  destruct side; unfold ascending_prices.
  - rewrite fmap_reverse, reverse_involutive, <- fmap_take, <- list_fmap_compose.
    apply list_fmap_ext. intros i p _. by apply (reference_state n).
  - rewrite <- fmap_take, <- list_fmap_compose.
    apply list_fmap_ext. intros i p _. by apply (reference_state n).
Qed.

(** ** Resetting from a snapshot of the book *)

Lemma collect_get ls p : forall map,
  bt_get p (foldl (fun map level => bt_insert (dl_price level)
             (mkLevelState (dl_price level) (dl_volume level) (dl_orders level)) map) map ls) =
  match last (filter (fun l => dl_price l = p) ls) with
  | Some l => Some (mkLevelState p (dl_volume l) (dl_orders l))
  | None => bt_get p map
  end.
Proof.
  induction ls as [|l ls IH]; intros map; simpl; [done|].
  rewrite IH, filter_cons. case_decide as E.
  - rewrite last_cons. destruct (last (filter _ ls)); [done|]. by rewrite E, bt_insert_get.
  - destruct (last (filter _ ls)); [done|]. by apply bt_insert_get_ne.
Qed.

Lemma collect_sorted ls : forall map, bt_sorted map ->
  bt_sorted (foldl (fun map level => bt_insert (dl_price level)
             (mkLevelState (dl_price level) (dl_volume level) (dl_orders level)) map) map ls).
Proof. induction ls as [|l ls IH]; intros map Hm; simpl; [done|]. by apply IH, bt_insert_sorted. Qed.

Lemma distinct_prices_NoDup l : NoDup (distinct_prices l).
Proof.
  induction l as [|o l IH]; simpl; constructor; [|by apply NoDup_filter].
  by intros [? _]%list_elem_of_filter.
Qed.

Lemma filter_reference side b p l :
  NoDup l ->
  filter (fun d => dl_price d = p) (reference_level side b <$> l) =
  (if decide (p ∈ l) then [reference_level side b p] else []).
Proof.
  induction l as [|q l IH]; intros Hnd; [done|]. rewrite fmap_cons, filter_cons.
  apply NoDup_cons in Hnd as [Hq Hnd]. rewrite IH by done. simpl.
  destruct (decide (q = p)) as [->|Hne].
  - rewrite decide_False, decide_True by (done || left). done.
  - destruct (decide (p ∈ l)) as [Hin|Hin]; [rewrite decide_True by (by right)|
      rewrite decide_False by (intros [?|?]%elem_of_cons; [congruence|done])]; done.
Qed.

(** Levels captured from the book, all of them. *)
Lemma collect_holds n side levels b :
  book_inv n b -> levels_fit b -> Z.of_nat (length (distinct_prices (side_orders side b))) <= levels ->
  holds (collect_levels (depth side levels b)) (fun p => book_level side p b).
Proof.
  intros Hinv Hfit Hall. split; [apply collect_sorted, bt_sorted_nil|]. intros p.
  unfold collect_levels. rewrite (depth_reference n), take_ge by (done || lia).
  rewrite collect_get, filter_reference by apply distinct_prices_NoDup. unfold level_entry.
  pose proof (book_level_present side p b) as Hp.
  destruct (Z.eqb_spec (book_level side p b).2 0) as [E|E].
  - rewrite decide_False by (by rewrite <- Hp; intros ?). done.
  - rewrite decide_True by (by apply Hp). simpl. do 2 f_equal. apply Z.mod_small.
    destruct (book_real_level n b side p Hinv) as (_ & Hn & _). specialize (Hfit side p). lia.
Qed.

Lemma reset_mirrors n levels b last_trade sh :
  book_inv n b -> levels_fit b ->
  (forall side, Z.of_nat (length (distinct_prices (side_orders side b))) <= levels) ->
  mirrors (shadow_reset (depth Buy levels b) (depth Sell levels b) last_trade sh) b.
Proof. intros Hinv Hfit Hall. split; simpl; by eapply collect_holds. Qed.

(** ** The journal on its way to the shadow

    The book appends to its journal; after each entry the journal is drained into a frame, frames
    queue up, and the task applies them in order. *)

Record Pipeline : Type := mkPipeline {
  pl_book : OrderBook;
  pl_queue : list (list DepthChange);
  pl_shadow : ShadowBook;
}.

Section Pipeline.
Context `{I256Ops} `{!I256Laws}.

Inductive pipeline_step : Pipeline -> Pipeline -> Prop :=
| pipe_request b b' j queue sh :
    request_step b b' -> book_sequence b < U64_MAX ->
    depth_journal b' = depth_journal b ++ j -> orders_fit b j ->
    pipeline_step (mkPipeline b queue sh) (mkPipeline b' queue sh)
| pipe_drain b queue sh :
    pipeline_step (mkPipeline b queue sh)
      (mkPipeline (take_depth_journal b).2 (queue ++ [(take_depth_journal b).1]) sh)
| pipe_deliver b frame queue sh :
    pipeline_step (mkPipeline b (frame :: queue) sh)
      (mkPipeline b queue (foldl shadow_apply sh frame)).

(** What the book has recorded and the shadow has not seen. *)
Definition undelivered (pl : Pipeline) : list DepthChange :=
  concat (pl_queue pl) ++ depth_journal (pl_book pl).

(** The shadow reflects some past levels, which what is undelivered takes to the present. *)
Definition tracking (pl : Pipeline) : Prop :=
  (book_ok (pl_book pl) /\ quiescent (pl_book pl)) /\ record_depth (pl_book pl) = true /\
  exists lv, reflects (pl_shadow pl) lv /\
    (forall side p, book_level side p (pl_book pl) = bump (undelivered pl) lv side p) /\
    (forall side p, trail side p (lv side p).1 (lv side p).2 (undelivered pl)) /\
    (forall side p j1 j2, undelivered pl = j1 ++ j2 ->
       (lv side p).2 + journal_orders side p j1 < 2 ^ 32).

Lemma bump_app j1 j2 lv side p : bump j2 (bump j1 lv) side p = bump (j1 ++ j2) lv side p.
Proof.
  unfold bump. rewrite journal_volume_app, journal_orders_app. simpl. f_equal; lia.
Qed.

Lemma request_is_step b b' : book_sequence b < U64_MAX -> request_step b b' -> book_step b b'.
Proof.
  intros Hseq Hreq. destruct Hreq as [| |request price volume b r b' Hp Hv E| |].
  3: { by apply (step_amend request price volume b r b'). }
  all: [> eapply step_execute|eapply step_cancel|eapply step_purge|eapply step_purge_due];
    eassumption.
Qed.

Lemma tracking_step pl pl' : pipeline_step pl pl' -> tracking pl -> tracking pl'.
Proof.
  intros Hstep (Hok & Hrec & lv & Hr & Hl & Ht & Hf). unfold tracking, undelivered in *.
  destruct Hstep as [b b' j queue sh Hreq Hseq Hj Hfit|b queue sh|b frame queue sh];
    cbn [pl_book pl_queue pl_shadow] in *.
  - split; [eapply step_ok; [by apply request_is_step|done]|].
    destruct (request_step_journaled _ _ (proj1 Hok) Hreq) as (j' & Er & Ej & Hl').
    rewrite Hrec in Ej. rewrite Hj in Ej. apply app_inv_head in Ej as <-.
    split; [congruence|]. exists lv. rewrite Hj, app_assoc. split_and!; [done| | |].
    + intros side p. destruct (Hl' side p) as [-> _]. rewrite <- bump_app. unfold bump at 1.
      by rewrite <- Hl.
    + intros side p. apply trail_app; [done|]. destruct (Hl' side p) as [_ T].
      rewrite (Hl side p) in T. apply T. by apply trail_end.
    + intros side p j1 j2 E. apply app_eq_inv in E as [(k & E & ->)|(k & -> & ->)].
      * by eapply Hf.
      * rewrite journal_orders_app, Z.add_assoc. specialize (Hfit side p k j2 eq_refl).
        rewrite (Hl side p) in Hfit. exact Hfit.
  - split; [by apply (step_ok b), Hok; apply step_take_journal|]. split; [done|].
    exists lv. simpl. rewrite concat_app, app_nil_r. simpl. rewrite app_nil_r. done.
  - split; [done|]. split; [done|]. exists (bump frame lv). simpl in *.
    rewrite <- app_assoc in *. split_and!.
    + apply shadow_journal; [done| |].
      * intros side p j1 j2 ->. apply (Ht side p j1 (j2 ++ concat queue ++ depth_journal b)).
        by rewrite <- app_assoc.
      * intros side p j1 j2 ->. apply (Hf side p j1 (j2 ++ concat queue ++ depth_journal b)).
        by rewrite <- app_assoc.
    + intros side p. by rewrite bump_app.
    + intros side p j1 j2 E. unfold bump. cbn [fst snd].
      rewrite <- !Z.add_assoc, <- journal_volume_app, <- journal_orders_app.
      apply (Ht side p (frame ++ j1) j2). by rewrite E, <- app_assoc.
    + intros side p j1 j2 E. unfold bump. cbn [fst snd].
      rewrite <- Z.add_assoc, <- journal_orders_app.
      apply (Hf side p (frame ++ j1) j2). by rewrite E, <- app_assoc.
Qed.

Lemma tracking_start b sh :
  book_ok b -> quiescent b -> record_depth b = true -> depth_journal b = [] -> levels_fit b ->
  mirrors sh b -> tracking (mkPipeline b [] sh).
Proof.
  intros Hok Hq Hrec Hj Hfit Hm. split; [done|]. split; [done|].
  exists (fun side p => book_level side p b). unfold undelivered. simpl. rewrite Hj.
  split_and!; [done| | |].
  - intros side p. unfold bump. destruct (journal_nil side p) as [-> ->].
    rewrite !Z.add_0_r. by destruct (book_level side p b).
  - intros side p. apply trail_nil. by eapply book_real_level.
  - intros side p j1 j2 E. symmetry in E. apply app_nil in E as [-> ->].
    destruct (journal_nil side p) as [_ ->]. specialize (Hfit side p). lia.
Qed.

(** Once everything is delivered the shadow is the book's aggregate. *)
Lemma tracking_caught_up pl :
  tracking pl ->
  mirrors (foldl shadow_apply (pl_shadow pl) (undelivered pl)) (pl_book pl) /\
  levels_fit (pl_book pl).
Proof.
  intros (Hok & Hrec & lv & Hr & Hl & Ht & Hf).
  pose proof (shadow_journal _ _ _ Hr Ht Hf) as [Hb Ha]. split.
  - split; (eapply holds_ext; [done|intros p; by rewrite Hl]).
  - intros side p. rewrite Hl. apply (Hf side p _ []). by rewrite app_nil_r.
Qed.
End Pipeline.

(** ** The properties *)

(** Each order of a side is counted once, so small books and journals of single orders fit. *)
Lemma level_orders_length {K} p (m : list (K * Order)) :
  level_orders p m <= Z.of_nat (length m).
Proof.
  induction m as [|[k o] m IH]; [done|]. rewrite level_orders_cons, length_cons.
  destruct (at_price p o); lia.
Qed.

Lemma journal_orders_length side p j :
  Forall (fun c => dc_delta_orders c <= 1) j -> journal_orders side p j <= Z.of_nat (length j).
Proof.
  induction 1 as [|c j Hc _ IH]; [done|]. change (c :: j) with ([c] ++ j).
  rewrite journal_orders_app, length_app. destruct (journal_one side p c) as [_ ->].
  simpl length. destruct (journal_at side p c); lia.
Qed.

Lemma orders_fit_small b j :
  Forall (fun c => dc_delta_orders c <= 1) j ->
  Z.of_nat (length (bids b) + length (asks b) + length j) < 2 ^ 32 -> orders_fit b j.
Proof.
  intros Hj Hlen side p j1 j2 ->. apply Forall_app in Hj as [Hj _].
  pose proof (journal_orders_length side p j1 Hj) as H1. rewrite length_app in Hlen.
  destruct side; simpl.
  - pose proof (level_orders_length p (bids b)). lia.
  - pose proof (level_orders_length p (asks b)). lia.
Qed.

Lemma levels_fit_small b :
  Z.of_nat (length (bids b) + length (asks b)) < 2 ^ 32 -> levels_fit b.
Proof.
  intros Hlen side p. destruct side; simpl.
  - pose proof (level_orders_length p (bids b)). lia.
  - pose proof (level_orders_length p (asks b)). lia.
Qed.

(** C15: The feed's shadow book is the order book's aggregate. Start from any sound book whose
    whole depth was captured into a reset, and interleave requests (executions, cancels,
    amendments, purges), drains of the depth journal into frames and frame deliveries in any way:
    applying what is still undelivered to the shadow gives exactly the current levels of the book,
    price by price, and the same depth at any number of levels, although the shadow only ever saw
    deltas and may be arbitrarily far behind. *)
Theorem shadow_tracks_book `{I256Ops} `{!I256Laws} b levels last_trade sh0 pl :
  book_ok b -> quiescent b -> record_depth b = true -> depth_journal b = [] -> levels_fit b ->
  (forall side, Z.of_nat (length (distinct_prices (side_orders side b))) <= levels) ->
  rtc pipeline_step
    (mkPipeline b []
       (shadow_reset (depth Buy levels b) (depth Sell levels b) last_trade sh0)) pl ->
  let sh := foldl shadow_apply (pl_shadow pl) (undelivered pl) in
  (forall side p, shadow_level side p sh = level_entry p (book_level side p (pl_book pl))) /\
  (forall side n, 0 <= n -> shadow_depth side n sh = depth side n (pl_book pl)).
Proof.
  intros Hok Hq Hrec Hj Hfit Hall Hsteps sh.
  assert (Ht : tracking pl).
  { assert (T0 : tracking (mkPipeline b []
                   (shadow_reset (depth Buy levels b) (depth Sell levels b) last_trade sh0)))
      by (apply tracking_start; try done; by eapply reset_mirrors).
    clear Hok Hq Hrec Hj Hfit Hall. induction Hsteps as [|x y z Hs _ IH]; [done|].
    apply IH. by eapply tracking_step. }
  destruct (tracking_caught_up pl Ht) as [Hm Hf]. destruct Ht as ((Hbook & _) & _). split.
  - intros side p. destruct Hm as [[_ Hb] [_ Ha]]. destruct side; [apply Hb|apply Ha].
  - intros side n Hn. by eapply mirrors_depth.
Qed.

Module ShadowDemo.
(** The demonstration book with its journal drained, and a buy that empties the best ask and takes
    part of the next. *)
Definition start : OrderBook := (take_depth_journal Demo.book).2.
Definition taker : Order := Order_new Buy 10100 700 0.
Definition after : OrderBook := Demo.place taker start.

Lemma start_ok : book_ok start /\ quiescent start.
Proof. eapply step_ok; [apply step_take_journal|apply Demo.book_is_ok]. Qed.

Lemma request : request_step start after.
Proof.
  unfold after, Demo.place.
  destruct (execute_order_inner taker SymbolConfig_default start) as [[[out o] b']| |] eqn:E;
    [|by vm_compute in E..].
  eapply req_execute; [|by vm_compute|exact E]. Demo.typed_order.
Qed.

(** Requested, drained and delivered. *)
Lemma run sh :
  rtc pipeline_step (mkPipeline start [] sh)
    (mkPipeline (take_depth_journal after).2 []
       (foldl shadow_apply sh (depth_journal after))).
Proof.
  eapply rtc_l.
  { eapply (pipe_request start after (depth_journal after)); [apply request|by vm_compute|by vm_compute|].
    apply orders_fit_small; [|by vm_compute]. repeat constructor; vm_compute; discriminate. }
  eapply rtc_l; [apply pipe_drain|]. eapply rtc_l; [apply pipe_deliver|]. apply rtc_refl.
Qed.
End ShadowDemo.

Lemma shadow_tracks_book_witness :
  let sh := foldl shadow_apply
              (shadow_reset (depth Buy 2 ShadowDemo.start) (depth Sell 2 ShadowDemo.start) None
                 ShadowBook_default) (depth_journal ShadowDemo.after) in
  shadow_depth Sell 5 sh = depth Sell 5 ShadowDemo.after.
Proof.
  destruct (shadow_tracks_book ShadowDemo.start 2 None ShadowBook_default _
              (proj1 ShadowDemo.start_ok) (proj2 ShadowDemo.start_ok) eq_refl eq_refl
              (levels_fit_small ShadowDemo.start eq_refl)
              (fun side => ltac:(destruct side; vm_compute; discriminate))
              (ShadowDemo.run _)) as [_ Hd].
  exact (Hd Sell 5 ltac:(lia)).
Defined.

(** A reset that captured fewer levels than the book has leaves the shadow wrong for good, also
    after every frame was delivered: with two ask levels and a reset of one, a buy that empties
    the first level leaves the book with a best ask and the shadow, hence the published top of
    book, with none. *)
Theorem truncated_reset_diverges :
  let sh := shadow_reset (depth Buy 1 ShadowDemo.start) (depth Sell 1 ShadowDemo.start) None
              ShadowBook_default in
  let after := Demo.place (Order_new Buy 10000 500 0) ShadowDemo.start in
  shadow_depth Sell 1 sh = depth Sell 1 ShadowDemo.start /\
  request_step ShadowDemo.start after /\
  depth Sell 1 after = [mkDepthLevel 10100 500 1] /\
  best_ask (foldl shadow_apply sh (depth_journal after)) = None.
Proof.
  cbv zeta. split; [by vm_compute|]. split; [|by split; vm_compute]. unfold Demo.place.
  destruct (execute_order_inner (Order_new Buy 10000 500 0) SymbolConfig_default ShadowDemo.start)
    as [[[out o] b']| |] eqn:E; [|by vm_compute in E..].
  eapply req_execute; [|by vm_compute|exact E]. Demo.typed_order.
Qed.
