(* ===== verification/MarketData.v ===== *)
(** * The market-data pipeline ([src/src/market_data/mod.rs])

    The bounded tap the state machine publishes frames to, the control handle of the leadership
    watcher, and the processor task: takeover snapshots, the frames buffered before one is
    installed, the shadow books, the messages of one applied entry, and the bars. The atomics the
    three share are one record; each operation is one step, and a message handed to the sink is
    appended to the list of what was sent (a sink failure is only logged). *)

From stdpp Require Import gmap.
From S2P Require Import Prelude BTree Fixed Order OrderBook MatchEvent StateMachine MarketMessage ShadowBook.

(** ** Configuration and counters *)

(** The fields of [MarketDataConfig] the pipeline reads; the others choose and configure a sink. *)
Record MarketDataConfig : Type := mkMdConfig {
  md_depth_levels : Z;
  md_status_every : Z;
  md_lifecycle_batch_max : nat;
  md_bar_intervals_ms : list Z;
  md_queue_capacity : nat;
  md_leader_only : bool;
}.

Definition MarketDataConfig_default : MarketDataConfig :=
  mkMdConfig 10 100 512 [1000; 60000] (Z.to_nat 8192) true.

Inductive Stat : Type :=
| StFrames | StTrades | StTradeMessages | StBbo | StDepthSnapshots | StDepthDeltas
| StLifecycleMessages | StLifecycleShed | StBars | StStatus | StGaps | StDroppedFrames
| StQueuedFrames | StQueuedPeak | StQueueCapacity | StSnapshots | StLastMarketSeq
| StLastLogIndex | StLastTsMs.

#[global] Instance Stat_eq_dec : EqDecision Stat.
Proof. solve_decision. Defined.

(** [MarketDataStats]: the [AtomicU64] counters. *)
Definition MarketDataStats : Type := Stat -> Z.

Definition stats_default : MarketDataStats := fun _ => 0.

(** [store]. *)
Definition stat_store (f : Stat) (v : Z) (stats : MarketDataStats) : MarketDataStats :=
  fun g => if decide (g = f) then v else stats g.

(** [fetch_add], which wraps. *)
Definition stat_add (f : Stat) (n : Z) (stats : MarketDataStats) : MarketDataStats :=
  stat_store f (wrap_u64 (stats f + n)) stats.

(** ** Shared atomics *)

Record Shared : Type := mkShared {
  s_leader : bool;      (* the publishing gate, also the tap's [enabled] *)
  s_epoch : Z;
  s_leader_id : Z;
  s_resetting : bool;
  s_pending : option SnapshotFrame;
  s_dropped : Z;
  s_gap_pending : bool;
  s_publishing : bool;  (* [stats.publishing] *)
  s_stats : MarketDataStats;
}.

Definition set_stats (f : MarketDataStats -> MarketDataStats) (s : Shared) : Shared :=
  mkShared (s_leader s) (s_epoch s) (s_leader_id s) (s_resetting s) (s_pending s) (s_dropped s)
    (s_gap_pending s) (s_publishing s) (f (s_stats s)).
Definition set_resetting (r : bool) (s : Shared) : Shared :=
  mkShared (s_leader s) (s_epoch s) (s_leader_id s) r (s_pending s) (s_dropped s)
    (s_gap_pending s) (s_publishing s) (s_stats s).
Definition set_pending (p : option SnapshotFrame) (s : Shared) : Shared :=
  mkShared (s_leader s) (s_epoch s) (s_leader_id s) (s_resetting s) p (s_dropped s)
    (s_gap_pending s) (s_publishing s) (s_stats s).
Definition set_leader_flag (l : bool) (s : Shared) : Shared :=
  mkShared l (s_epoch s) (s_leader_id s) (s_resetting s) (s_pending s) (s_dropped s)
    (s_gap_pending s) (s_publishing s) (s_stats s).
Definition set_gap_pending (g : bool) (s : Shared) : Shared :=
  mkShared (s_leader s) (s_epoch s) (s_leader_id s) (s_resetting s) (s_pending s) (s_dropped s)
    g (s_publishing s) (s_stats s).
Definition set_publishing (p : bool) (s : Shared) : Shared :=
  mkShared (s_leader s) (s_epoch s) (s_leader_id s) (s_resetting s) (s_pending s) (s_dropped s)
    (s_gap_pending s) p (s_stats s).

(** A frame that could not be kept: counted, and a gap is due. *)
Definition drop_frame (s : Shared) : Shared :=
  mkShared (s_leader s) (s_epoch s) (s_leader_id s) (s_resetting s) (s_pending s)
    (wrap_u64 (s_dropped s + 1)) true (s_publishing s) (stat_add StDroppedFrames 1 (s_stats s)).

(** ** The control handle *)

Definition begin_reset (s : Shared) : Shared := set_resetting true s.

Definition is_publishing (leader_only : bool) (s : Shared) : bool :=
  negb leader_only || s_leader s.

Definition set_epoch (epoch leader_id : Z) (s : Shared) : Shared :=
  mkShared (s_leader s) epoch leader_id (s_resetting s) (s_pending s) (s_dropped s)
    (s_gap_pending s) (s_publishing s) (s_stats s).

Definition set_leader (leader_only leader : bool) (s : Shared) : Shared :=
  if leader_only then
    let s := set_leader_flag leader s in
    if negb leader then set_resetting true s else s
  else set_leader_flag true s.

Definition push_snapshot (snapshot : SnapshotFrame) (s : Shared) : Shared :=
  set_resetting true (set_pending (Some snapshot) s).

(** ** The tap *)

(** [sender.try_send] on a bounded queue; [closed] when the receiver is gone. *)
Definition tap_publish (capacity : nat) (closed : bool) (frame : TapFrame)
    (st : Shared * list TapFrame) : Shared * list TapFrame :=
  let '(s, queue) := st in
  if negb (s_leader s) then (s, queue)
  else
    let s := set_stats (stat_add StFrames 1) s in
    if negb closed && bool_decide (length queue < Nat.max capacity 1)%nat then
      let queued := wrap_u64 (s_stats s StQueuedFrames + 1) in
      (set_stats (fun stats =>
         stat_store StQueuedPeak (Z.max (stats StQueuedPeak) queued)
           (stat_store StQueuedFrames queued stats)) s,
       queue ++ [frame])
    else (drop_frame s, queue).

(** ** Bars *)

Record BarAgg : Type := mkBarAgg {
  ba_interval_ms : Z;
  ba_window_start_ms : Z;
  ba_last_ts_ms : Z;
  ba_open : Fixed;
  ba_high : Fixed;
  ba_low : Fixed;
  ba_close : Fixed;
  ba_volume : Fixed;
  ba_trade_count : Z;
  ba_last_live_ms : Z;
}.

Definition BarAgg_new (interval_ms window_start_ms ts_ms : Z) (first_price : Fixed) : BarAgg :=
  mkBarAgg interval_ms window_start_ms ts_ms first_price first_price first_price first_price
    FIXED_ZERO 0 ts_ms.

Definition bar_update (ts_ms : Z) (fill : Fixed * Fixed) (self : BarAgg) : BarAgg :=
  mkBarAgg (ba_interval_ms self) (ba_window_start_ms self) ts_ms (ba_open self)
    (max (ba_high self) fill.1) (min (ba_low self) fill.1) fill.1
    (fixed_add (ba_volume self) fill.2) (wrap_u32 (ba_trade_count self + 1))
    (ba_last_live_ms self).

Definition bar_record (self : BarAgg) (bar_seq : Z) : BarRecord :=
  mkBar (ba_interval_ms self) (ba_window_start_ms self) (ba_last_ts_ms self) (ba_open self)
    (ba_high self) (ba_low self) (ba_close self) (ba_volume self) (ba_trade_count self) bar_seq.

Definition set_last_live (ms : Z) (self : BarAgg) : BarAgg :=
  mkBarAgg (ba_interval_ms self) (ba_window_start_ms self) (ba_last_ts_ms self) (ba_open self)
    (ba_high self) (ba_low self) (ba_close self) (ba_volume self) (ba_trade_count self) ms.

(** ** The processor *)

(** The lexicographic order of [(u8, Fixed)] in the set of touched levels. *)
#[global] Instance pair_cmp : Ord (Z * Z) := fun a b =>
  match Z.compare a.1 b.1 with Eq => Z.compare a.2 b.2 | c => c end.

Record MarketDataProcessor : Type := mkProcessor {
  p_config : MarketDataConfig;
  p_shared : Shared;
  p_shadow : gmap Z ShadowBook;
  p_bars : gmap (Z * Z) BarAgg;
  p_bar_seq : gmap (Z * Z) Z;
  p_active_market_seq : option Z;
  p_book_sequence : Z;
  p_pending_stops : Z;
  p_dropped_seen : Z;
  p_last_position : Z * Z;
  p_pre_snapshot : list TapFrame;
  p_sent : list MarketMessage;
}.

Definition MarketDataProcessor_new (config : MarketDataConfig) (shared : Shared)
    : MarketDataProcessor :=
  mkProcessor config shared ∅ ∅ ∅ None 0 0 0 (0, 0) [] [].

(** [MarketDataHandle::start_with_sink]: a leader-only node starts closed, and every feed starts
    waiting for its first snapshot. *)
Definition start_with_sink (config : MarketDataConfig) : MarketDataProcessor :=
  MarketDataProcessor_new config
    (mkShared (negb (md_leader_only config)) 0 0 true None 0 false false
       (stat_store StQueueCapacity (Z.of_nat (Nat.max (md_queue_capacity config) 1))
          stats_default)).

Definition set_shared (f : Shared -> Shared) (self : MarketDataProcessor) : MarketDataProcessor :=
  mkProcessor (p_config self) (f (p_shared self)) (p_shadow self) (p_bars self) (p_bar_seq self)
    (p_active_market_seq self) (p_book_sequence self) (p_pending_stops self) (p_dropped_seen self)
    (p_last_position self) (p_pre_snapshot self) (p_sent self).
Definition set_shadow (m : gmap Z ShadowBook) (self : MarketDataProcessor) : MarketDataProcessor :=
  mkProcessor (p_config self) (p_shared self) m (p_bars self) (p_bar_seq self)
    (p_active_market_seq self) (p_book_sequence self) (p_pending_stops self) (p_dropped_seen self)
    (p_last_position self) (p_pre_snapshot self) (p_sent self).
Definition set_bars (m : gmap (Z * Z) BarAgg) (self : MarketDataProcessor) : MarketDataProcessor :=
  mkProcessor (p_config self) (p_shared self) (p_shadow self) m (p_bar_seq self)
    (p_active_market_seq self) (p_book_sequence self) (p_pending_stops self) (p_dropped_seen self)
    (p_last_position self) (p_pre_snapshot self) (p_sent self).
Definition set_bar_seq (m : gmap (Z * Z) Z) (self : MarketDataProcessor) : MarketDataProcessor :=
  mkProcessor (p_config self) (p_shared self) (p_shadow self) (p_bars self) m
    (p_active_market_seq self) (p_book_sequence self) (p_pending_stops self) (p_dropped_seen self)
    (p_last_position self) (p_pre_snapshot self) (p_sent self).
Definition set_dropped_seen (n : Z) (self : MarketDataProcessor) : MarketDataProcessor :=
  mkProcessor (p_config self) (p_shared self) (p_shadow self) (p_bars self) (p_bar_seq self)
    (p_active_market_seq self) (p_book_sequence self) (p_pending_stops self) n
    (p_last_position self) (p_pre_snapshot self) (p_sent self).
Definition set_pre_snapshot (l : list TapFrame) (self : MarketDataProcessor) : MarketDataProcessor :=
  mkProcessor (p_config self) (p_shared self) (p_shadow self) (p_bars self) (p_bar_seq self)
    (p_active_market_seq self) (p_book_sequence self) (p_pending_stops self) (p_dropped_seen self)
    (p_last_position self) l (p_sent self).

(** The fields a reset point overwrites. *)
Definition set_reset_point (snapshot : SnapshotFrame) (self : MarketDataProcessor)
    : MarketDataProcessor :=
  mkProcessor (p_config self) (p_shared self) (p_shadow self) ∅ ∅
    (Some (sf_market_seq snapshot)) (sf_book_sequence snapshot) (sf_pending_stops snapshot)
    (s_dropped (p_shared self)) (sf_log_index snapshot, 0) (p_pre_snapshot self) (p_sent self).

Definition count (f : Stat) (n : Z) (self : MarketDataProcessor) : MarketDataProcessor :=
  set_shared (set_stats (stat_add f n)) self.

Definition publishing (self : MarketDataProcessor) : bool :=
  (negb (md_leader_only (p_config self)) || s_leader (p_shared self))
  && negb (s_resetting (p_shared self)).

Definition emit (stream flags market_seq sub_seq log_index ordinal ts_ms symbol_id : Z)
    (body : MessageBody) (self : MarketDataProcessor) : MarketDataProcessor :=
  let message := mkMessage stream flags market_seq sub_seq log_index ordinal
                   (s_epoch (p_shared self)) (s_leader_id (p_shared self)) ts_ms symbol_id body in
  mkProcessor (p_config self) (p_shared self) (p_shadow self) (p_bars self) (p_bar_seq self)
    (p_active_market_seq self) (p_book_sequence self) (p_pending_stops self) (p_dropped_seen self)
    (log_index, ordinal) (p_pre_snapshot self) (p_sent self ++ [message]).

(** The record [emit_bbo] publishes for a book, if it publishes one. *)
Definition bbo_of (book : ShadowBook) : option BboRecord :=
  let bid := best_bid book in
  let ask := best_ask book in
  match bid, ask, sh_last_trade book with
  | None, None, None => None
  | _, _, _ =>
      let '(bid_price, bid_volume) := match bid with
                                      | Some level => (ls_price level, ls_volume level)
                                      | None => (FIXED_ZERO, FIXED_ZERO)
                                      end in
      let '(ask_price, ask_volume) := match ask with
                                      | Some level => (ls_price level, ls_volume level)
                                      | None => (FIXED_ZERO, FIXED_ZERO)
                                      end in
      let both := bool_decide (is_Some bid) && bool_decide (is_Some ask) in
      Some (mkBbo (sh_last_trade book) bid_price bid_volume ask_price ask_volume
              (if both then midpoint bid_price ask_price else None)
              (if both then Some (fixed_sub ask_price bid_price) else None))
  end.

Definition emit_bbo (symbol market_seq log_index ordinal ts_ms sub_seq : Z)
    (self : MarketDataProcessor) : MarketDataProcessor :=
  match p_shadow self !! symbol with
  | None => self
  | Some book =>
      match bbo_of book with
      | None => self
      | Some bbo =>
          count StBbo 1
            (emit STREAM_BBO FLAG_END_OF_BATCH market_seq sub_seq log_index ordinal ts_ms symbol
               (BodyBbo bbo) self)
      end
  end.

(** ** Bars of one entry *)

(** The prints of an entry: price and volume of every fill event. *)
Definition bar_fills (events : list MatchEvent) : list (Fixed * Fixed) :=
  (fun event => (e_price event, e_volume event)) <$> filter (fun event => e_kind event = Fill) events.

(** A new bar over the given prints. *)
Definition fresh_bar (interval window ts_ms : Z) (first_price : Fixed)
    (fills : list (Fixed * Fixed)) : BarAgg :=
  foldl (fun bar fill => bar_update ts_ms fill bar) (BarAgg_new interval window ts_ms first_price) fills.

(** First loop of [update_bars]: one interval. [u64 % 0] panics. *)
Definition roll_bar (symbol ts_ms : Z) (first_price : Fixed) (fills : list (Fixed * Fixed))
    (interval : Z) (st : gmap (Z * Z) BarAgg * list (BarAgg * bool))
    : Comp (gmap (Z * Z) BarAgg * list (BarAgg * bool)) :=
  let '(bars, outgoing) := st in
  if interval =? 0 then Panic
  else
    let key := (symbol, interval) in
    let window := ts_ms - ts_ms mod interval in
    match bars !! key with
    | Some bar =>
        if ba_window_start_ms bar =? window then
          Ret (<[key := foldl (fun bar fill => bar_update ts_ms fill bar) bar fills]> bars, outgoing)
        else
          Ret (<[key := fresh_bar interval window ts_ms first_price fills]> bars,
               if 0 <? ba_trade_count bar then outgoing ++ [(bar, true)] else outgoing)
    | None => Ret (<[key := fresh_bar interval window ts_ms first_price fills]> bars, outgoing)
    end.

Fixpoint roll_bars (symbol ts_ms : Z) (first_price : Fixed) (fills : list (Fixed * Fixed))
    (intervals : list Z) (st : gmap (Z * Z) BarAgg * list (BarAgg * bool))
    : Comp (gmap (Z * Z) BarAgg * list (BarAgg * bool)) :=
  match intervals with
  | [] => Ret st
  | interval :: intervals =>
      let* st := roll_bar symbol ts_ms first_price fills interval st in
      roll_bars symbol ts_ms first_price fills intervals st
  end.

(** Second loop: a bar that moved on by a second of event time is sent live. *)
Definition live_bar (symbol interval : Z) (st : gmap (Z * Z) BarAgg * list (BarAgg * bool))
    : gmap (Z * Z) BarAgg * list (BarAgg * bool) :=
  let '(bars, outgoing) := st in
  let key := (symbol, interval) in
  match bars !! key with
  | Some bar =>
      if (ba_last_live_ms bar <? ba_last_ts_ms bar)
         && (1000 <=? Z.max 0 (ba_last_ts_ms bar - ba_last_live_ms bar))
      then
        let bar := set_last_live (ba_last_ts_ms bar) bar in
        (<[key := bar]> bars, outgoing ++ [(bar, false)])
      else (bars, outgoing)
  | None => (bars, outgoing)
  end.

Definition live_bars (symbol : Z) (intervals : list Z)
    (st : gmap (Z * Z) BarAgg * list (BarAgg * bool)) : gmap (Z * Z) BarAgg * list (BarAgg * bool) :=
  foldl (fun st interval => live_bar symbol interval st) st intervals.

(** Third loop: number and emit one outgoing bar. *)
Definition emit_bar (symbol market_seq log_index ordinal : Z) (sub_seq : nat)
    (out : BarAgg * bool) (self : MarketDataProcessor) : MarketDataProcessor :=
  let '(bar, closed) := out in
  let key := (symbol, ba_interval_ms bar) in
  let seq := wrap_u64 (default 0 (p_bar_seq self !! key) + 1) in
  let self := set_bar_seq (<[key := seq]> (p_bar_seq self)) self in
  let ts := if (closed : bool) then wrap_u64 (ba_window_start_ms bar + ba_interval_ms bar)
            else ba_last_ts_ms bar in
  count StBars 1
    (emit STREAM_BAR (if (closed : bool) then FLAG_BAR_CLOSE else FLAG_PARTIAL_BAR) market_seq
       (Z.min (Z.of_nat sub_seq) 65535) log_index ordinal ts symbol (BodyBar (bar_record bar seq))
       self).

Fixpoint emit_bars (symbol market_seq log_index ordinal : Z) (sub_seq : nat)
    (outgoing : list (BarAgg * bool)) (self : MarketDataProcessor) : MarketDataProcessor :=
  match outgoing with
  | [] => self
  | out :: outgoing =>
      emit_bars symbol market_seq log_index ordinal (S sub_seq) outgoing
        (emit_bar symbol market_seq log_index ordinal sub_seq out self)
  end.

Definition update_bars (symbol market_seq log_index ordinal ts_ms : Z) (events : list MatchEvent)
    (self : MarketDataProcessor) : Comp MarketDataProcessor :=
  let fills := bar_fills events in
  match fills with
  | [] => Ret self
  | (first_price, _) :: _ =>
      let intervals := md_bar_intervals_ms (p_config self) in
      let* st := roll_bars symbol ts_ms first_price fills intervals (p_bars self, []) in
      let '(bars, outgoing) := live_bars symbol intervals st in
      Ret (emit_bars symbol market_seq log_index ordinal 0 outgoing (set_bars bars self))
  end.

(** ** One applied entry *)

(** [self.shadow.entry(symbol).or_default()] followed by an update of the book. *)
Definition shadow_update (symbol : Z) (f : ShadowBook -> ShadowBook) (m : gmap Z ShadowBook)
    : gmap Z ShadowBook :=
  <[symbol := f (default ShadowBook_default (m !! symbol))]> m.

(** The depth loop: apply a change and remember its level. *)
Definition touch (symbol : Z) (st : gmap Z ShadowBook * list ((Z * Z) * unit))
    (change : DepthChange) : gmap Z ShadowBook * list ((Z * Z) * unit) :=
  let side := match dc_side change with Buy => 0 | Sell => 1 end in
  (shadow_update symbol (fun book => shadow_apply book change) st.1,
   bt_insert (side, dc_price change) tt st.2).

Definition trade_record (ts_ms : Z) (event : MatchEvent) (maker_sequence : Z) : TradeRecord :=
  mkTrade (ev_log_index (e_event_id event)) (ev_ordinal (e_event_id event)) ts_ms
    (e_price event) (e_volume event) (e_quote_volume event) (e_taker_fee event)
    (e_taker_fee_asset event) (e_maker_fee event) (e_maker_fee_asset event) (e_error event)
    (e_side event) (e_order_sequence event) maker_sequence.

(** The fill loop: the last price moves and a trade is recorded. *)
Definition trade_of (symbol ts_ms : Z) (st : gmap Z ShadowBook * list TradeRecord)
    (event : MatchEvent) : gmap Z ShadowBook * list TradeRecord :=
  if negb (bool_decide (e_kind event = Fill)) then st
  else
    match e_counterparty_sequence event with
    | None => st
    | Some maker_sequence =>
        (shadow_update symbol (set_last_trade (Some (e_price event))) st.1,
         st.2 ++ [trade_record ts_ms event maker_sequence])
    end.

(** The post-batch totals of the touched levels the shadow still has. *)
Definition level_updates (book : ShadowBook) (touched : list ((Z * Z) * unit)) : list LevelUpdate :=
  omap (fun t =>
          let side := if t.1.1 =? 0 then Buy else Sell in
          match shadow_level side t.1.2 book with
          | Some level => Some (mkLevelUpdate side (level_record level))
          | None => None
          end) touched.

Definition lifecycle_record (ts_ms : Z) (event : MatchEvent) : LifecycleRecord :=
  mkLifecycle (ev_log_index (e_event_id event)) (ev_ordinal (e_event_id event)) ts_ms
    (e_kind event) (e_order_sequence event) (e_side event) (e_counterparty_sequence event)
    (e_price event) (e_volume event) (e_quote_volume event) (e_volume_unit event)
    (e_taker_fee event) (e_taker_fee_asset event) (e_maker_fee event) (e_maker_fee_asset event)
    (e_error event) (e_reason event).

(** [records.retain(..)]: shed the first [overflow] rested records. *)
Fixpoint shed_rested (overflow : nat) (records : list LifecycleRecord) : list LifecycleRecord :=
  match overflow, records with
  | S overflow', record :: records =>
      if bool_decide (lc_kind record = Rested) then shed_rested overflow' records
      else record :: shed_rested overflow records
  | _, _ => records
  end.

Definition emit_depth_delta (frame : TapFrame) (ordinal : Z) (touched : list ((Z * Z) * unit))
    (self : MarketDataProcessor) : MarketDataProcessor :=
  let updates := match p_shadow self !! tf_symbol_id frame with
                 | Some book => level_updates book touched
                 | None => []
                 end in
  match updates with
  | [] => self
  | _ =>
      count StDepthDeltas 1
        (emit STREAM_DEPTH_DELTA FLAG_END_OF_BATCH (tf_market_seq frame) 0 (tf_log_index frame)
           ordinal (tf_ts_ms frame) (tf_symbol_id frame) (BodyDepthDelta updates) self)
  end.

Definition emit_trades (frame : TapFrame) (ordinal : Z) (trades : list TradeRecord)
    (self : MarketDataProcessor) : MarketDataProcessor :=
  match trades with
  | [] => self
  | _ =>
      let self := count StTrades (Z.of_nat (length trades)) self in
      count StTradeMessages 1
        (emit STREAM_TRADE FLAG_END_OF_BATCH (tf_market_seq frame) 0 (tf_log_index frame)
           ordinal (tf_ts_ms frame) (tf_symbol_id frame) (BodyTrade trades) self)
  end.

(** The records of an entry within the batch budget, and how many were shed. *)
Definition lifecycle_batch (max_records : nat) (ts_ms : Z) (events : list MatchEvent)
    : list LifecycleRecord * nat :=
  let records := lifecycle_record ts_ms <$> events in
  let max_records := Nat.max max_records 1 in
  if bool_decide (max_records < length records)%nat then
    let kept := shed_rested (length records - max_records) records in
    (kept, (length records - length kept)%nat)
  else (records, 0%nat).

Definition emit_lifecycle (frame : TapFrame) (ordinal : Z) (self : MarketDataProcessor)
    : MarketDataProcessor :=
  match tf_events frame with
  | [] => self
  | _ =>
      let '(records, shed) :=
        lifecycle_batch (md_lifecycle_batch_max (p_config self)) (tf_ts_ms frame) (tf_events frame) in
      let self := count StLifecycleShed (Z.of_nat shed) self in
      count StLifecycleMessages 1
        (emit STREAM_LIFECYCLE FLAG_END_OF_BATCH (tf_market_seq frame) 0 (tf_log_index frame)
           ordinal (tf_ts_ms frame) (tf_symbol_id frame) (BodyLifecycle records) self)
  end.

Definition emit_status (frame : TapFrame) (ordinal : Z) (self : MarketDataProcessor)
    : MarketDataProcessor :=
  let every := md_status_every (p_config self) in
  if (0 <? every) && (tf_market_seq frame mod every =? 0) then
    count StStatus 1
      (emit STREAM_STATUS 0 (tf_market_seq frame) 0 (tf_log_index frame) ordinal
         (tf_ts_ms frame) (tf_symbol_id frame)
         (BodyStatus (mkStatus (tf_log_index frame) ordinal (tf_market_seq frame) 0
                        (s_stats (p_shared self) StLastLogIndex) (p_book_sequence self)
                        (p_pending_stops self))) self)
  else self.

(** A gap marker when frames were dropped since the last one. *)
Definition emit_gap (frame : TapFrame) (self : MarketDataProcessor) : MarketDataProcessor :=
  if s_gap_pending (p_shared self) then
    let self := set_shared (set_gap_pending false) self in
    let dropped := s_dropped (p_shared self) in
    let delta := Z.max 0 (dropped - p_dropped_seen self) in
    let self := set_dropped_seen dropped self in
    let gap := mkGap (p_last_position self).1 (p_last_position self).2 (Z.min delta U32_MAX) in
    count StGaps 1
      (emit STREAM_STATUS FLAG_GAP (tf_market_seq frame) GAP_SUB_SEQ (tf_log_index frame) 0
         (tf_ts_ms frame) (tf_symbol_id frame) (BodyGap gap) self)
  else self.

(** The ordinal of an entry's last event. *)
Definition last_ordinal (frame : TapFrame) : Z :=
  match last (tf_events frame) with
  | Some event => ev_ordinal (e_event_id event)
  | None => 0
  end.

(** The rest of [ingest] for a frame at or above the boundary. *)
Definition publish_frame (frame : TapFrame) (self : MarketDataProcessor) : Comp MarketDataProcessor :=
  let self := emit_gap frame self in
  let symbol := tf_symbol_id frame in
  let ordinal := last_ordinal frame in
  let '(shadow, touched) := foldl (touch symbol) (p_shadow self, []) (tf_depth frame) in
  let '(shadow, trades) := foldl (trade_of symbol (tf_ts_ms frame)) (shadow, []) (tf_events frame) in
  let self := set_shadow shadow self in
  let self := match touched with [] => self | _ => emit_depth_delta frame ordinal touched self end in
  let self :=
    match touched, trades with
    | [], [] => self
    | _, _ => emit_bbo symbol (tf_market_seq frame) (tf_log_index frame) ordinal (tf_ts_ms frame) 0 self
    end in
  let self := emit_trades frame ordinal trades self in
  let self := emit_lifecycle frame ordinal self in
  let* self := update_bars symbol (tf_market_seq frame) (tf_log_index frame) ordinal
                 (tf_ts_ms frame) (tf_events frame) self in
  Ret (emit_status frame ordinal self).

Definition PRE_SNAPSHOT_MAX : nat := Z.to_nat 4096.
#[global] Opaque PRE_SNAPSHOT_MAX.

(** The counters every frame updates. *)
Definition note_frame (frame : TapFrame) (self : MarketDataProcessor) : MarketDataProcessor :=
  let self :=
    set_shared (set_stats (fun stats =>
      stat_store StLastTsMs (tf_ts_ms frame)
        (stat_store StLastLogIndex (tf_log_index frame)
           (stat_store StLastMarketSeq (tf_market_seq frame) (stat_add StFrames 1 stats))))) self in
  set_shared (set_publishing (publishing self)) self.

Definition ingest (frame : TapFrame) (self : MarketDataProcessor) : Comp MarketDataProcessor :=
  if s_resetting (p_shared self) then
    if bool_decide (length (p_pre_snapshot self) < PRE_SNAPSHOT_MAX)%nat
    then Ret (set_pre_snapshot (p_pre_snapshot self ++ [frame]) self)
    else Ret (set_shared drop_frame self)
  else
    let self := note_frame frame self in
    if negb (publishing self) then Ret self
    else
      match p_active_market_seq self with
      | Some active =>
          if tf_market_seq frame <? active then Ret self else publish_frame frame self
      | None => publish_frame frame self
      end.

(** [for frame in frames { self.ingest(frame) }]. *)
Fixpoint ingest_all (frames : list TapFrame) (self : MarketDataProcessor) : Comp MarketDataProcessor :=
  match frames with
  | [] => Ret self
  | frame :: frames => let* self := ingest frame self in ingest_all frames self
  end.

(** ** Takeover *)

(** The reset snapshot's two messages. *)
Definition emit_reset (snapshot : SnapshotFrame) (self : MarketDataProcessor) : MarketDataProcessor :=
  let symbol := sf_symbol_id snapshot in
  let levels := md_depth_levels (p_config self) in
  let side_depth side := match p_shadow self !! symbol with
                         | Some book => shadow_depth side levels book
                         | None => []
                         end in
  let body := mkDepthSnapshot (side_depth Buy) (side_depth Sell) in
  let self :=
    count StDepthSnapshots 1
      (emit STREAM_DEPTH_SNAPSHOT (Z.lor FLAG_SNAPSHOT FLAG_RESET) (sf_market_seq snapshot) 0
         (sf_log_index snapshot) 0 (sf_ts_ms snapshot) symbol (BodyDepthSnapshot body) self) in
  emit_bbo symbol (sf_market_seq snapshot) (sf_log_index snapshot) 0 (sf_ts_ms snapshot)
    SNAPSHOT_BBO_SUB_SEQ self.

(** [apply_snapshot] up to the replay of the buffered frames. *)
Definition install_snapshot (snapshot : SnapshotFrame) (self : MarketDataProcessor)
    : MarketDataProcessor :=
  let self := count StSnapshots 1 self in
  let self :=
    set_shadow (shadow_update (sf_symbol_id snapshot)
                  (shadow_reset (sf_bids snapshot) (sf_asks snapshot) (sf_last_trade snapshot))
                  (p_shadow self)) self in
  let self := set_reset_point snapshot self in
  let self := set_shared (set_resetting false) self in
  let self := set_shared (set_publishing (publishing self)) self in
  emit_reset snapshot self.

Definition apply_snapshot (snapshot : SnapshotFrame) (self : MarketDataProcessor)
    : Comp MarketDataProcessor :=
  let self := install_snapshot snapshot self in
  let buffered := p_pre_snapshot self in
  ingest_all buffered (set_pre_snapshot [] self).

(** ** The task's loop *)

Definition take_pending (self : MarketDataProcessor) : option SnapshotFrame * MarketDataProcessor :=
  (s_pending (p_shared self), set_shared (set_pending None) self).

(** What [select!] wakes up with: a queued frame, the wake-up of a pushed snapshot, or the end
    (the stop flag, or a closed queue). *)
Inductive Selected : Type := SelFrame | SelWake | SelStop.

(** One turn of [run]: install a pending snapshot, then handle what arrived. The flag says whether
    the loop goes on. *)
Definition run_turn (selected : Selected) (st : MarketDataProcessor * list TapFrame)
    : Comp (MarketDataProcessor * list TapFrame * bool) :=
  let '(self, queue) := st in
  let '(pending, self) := take_pending self in
  let* self := match pending with
               | Some snapshot => apply_snapshot snapshot self
               | None => Ret self
               end in
  match selected with
  | SelFrame =>
      match queue with
      | frame :: queue =>
          let self := set_shared (set_stats (fun stats =>
                        stat_store StQueuedFrames (wrap_u64 (stats StQueuedFrames - 1)) stats)) self in
          let* self := ingest frame self in
          Ret (self, queue, true)
      | [] => Ret (self, queue, false)
      end
  | SelWake => Ret (self, queue, true)
  | SelStop => Ret (self, queue, false)
  end.
