(* ===== verification/MarketDataSpec.v ===== *)
(** * What the feed publishes ([src/src/market_data/mod.rs], [MarketDataProcessor])

    The messages of one applied entry, the exactly-once handover around a takeover snapshot, the
    uniqueness of the dedupe key, post-batch depth totals, and the bars against their reference. *)

From stdpp Require Import gmap.
From S2P Require Import Prelude BTree Fixed Order OrderBook MatchEvent StateMachine MarketMessage ShadowBook.
From S2P Require Import MarketData.

(** ** Operations that only send *)

(** [self'] has sent [msgs] more and stands at the same boundary, gate and buffer. *)
Record emits (self self' : MarketDataProcessor) (msgs : list MarketMessage) : Prop := {
  em_sent : p_sent self' = p_sent self ++ msgs;
  em_config : p_config self' = p_config self;
  em_active : p_active_market_seq self' = p_active_market_seq self;
  em_leader : s_leader (p_shared self') = s_leader (p_shared self);
  em_resetting : s_resetting (p_shared self') = s_resetting (p_shared self);
  em_pre : p_pre_snapshot self' = p_pre_snapshot self;
}.

Lemma emits_refl self : emits self self [].
Proof. split; rewrite ?app_nil_r; done. Qed.

Lemma emits_trans s1 s2 s3 m1 m2 : emits s1 s2 m1 -> emits s2 s3 m2 -> emits s1 s3 (m1 ++ m2).
Proof. intros [] []. split; try congruence. rewrite app_assoc. congruence. Qed.

(** The state left alone by an operation that only sends. *)
Record stays (self self' : MarketDataProcessor) : Prop := {
  sy_bars : p_bars self' = p_bars self;
  sy_shadow : p_shadow self' = p_shadow self;
}.

Lemma stays_refl self : stays self self.
Proof. done. Qed.

Lemma stays_trans s1 s2 s3 : stays s1 s2 -> stays s2 s3 -> stays s1 s3.
Proof. intros [] []. split; congruence. Qed.

(** Every message of [msgs] is anchored at the frame and travels as [(stream, sub_seq)]. *)
Definition anchored (market_seq : Z) (keys : list (Z * Z)) (msgs : list MarketMessage) : Prop :=
  Forall (fun m => mm_market_seq m = market_seq) msgs /\
  ((fun m => (mm_stream m, mm_sub_seq m)) <$> msgs) = keys.

Lemma anchored_nil seq : anchored seq [] [].
Proof. split; [constructor|done]. Qed.

Lemma anchored_app seq k1 k2 m1 m2 :
  anchored seq k1 m1 -> anchored seq k2 m2 -> anchored seq (k1 ++ k2) (m1 ++ m2).
Proof.
  intros [F1 E1] [F2 E2]. split; [by apply Forall_app|]. by rewrite fmap_app, E1, E2.
Qed.

(** An operation that sends at most one message, with the given key. *)
Definition sends_one (seq : Z) (key : Z * Z) (body : MessageBody -> Prop)
    (self self' : MarketDataProcessor) : Prop :=
  stays self self' /\
  ((exists m, emits self self' [m] /\ anchored seq [key] [m] /\ body (mm_body m)) \/
   emits self self' []).

Lemma emit_sends stream flags seq sub log_index ordinal ts symbol body f n self :
  let self' := count f n (emit stream flags seq sub log_index ordinal ts symbol body self) in
  stays self self' /\
  exists m, emits self self' [m] /\ anchored seq [(stream, sub)] [m] /\ mm_body m = body.
Proof.
  cbv zeta. split; [done|]. eexists. split_and!; [by split|by split; [repeat constructor|]|done].
Qed.

(** ** The messages of one frame *)

Definition is_gap (b : MessageBody) : Prop := exists g, b = BodyGap g.
Definition is_status (b : MessageBody) : Prop := exists s, b = BodyStatus s.
Definition is_bbo (b : MessageBody) : Prop := exists r, b = BodyBbo r.

Lemma emit_gap_sends frame self :
  sends_one (tf_market_seq frame) (STREAM_STATUS, GAP_SUB_SEQ) is_gap self (emit_gap frame self).
Proof.
  unfold emit_gap. destruct (s_gap_pending _); [|by split; [|right; apply emits_refl]].
  split; [done|]. left. eexists.
  split_and!; [by split|by split; [repeat constructor|]|by eexists].
Qed.

Lemma emit_bbo_sends symbol seq log_index ordinal ts sub self :
  sends_one seq (STREAM_BBO, sub) is_bbo self (emit_bbo symbol seq log_index ordinal ts sub self).
Proof.
  unfold emit_bbo. destruct (p_shadow self !! symbol) as [book|]; [|by split; [|right; apply emits_refl]].
  destruct (bbo_of book) as [r|]; [|by split; [|right; apply emits_refl]].
  destruct (emit_sends STREAM_BBO FLAG_END_OF_BATCH seq sub log_index ordinal ts symbol (BodyBbo r)
              StBbo 1 self) as [Hs (m & He & Ha & Hb)].
  split; [done|]. left. exists m. split_and!; [done|done|]. rewrite Hb. by eexists.
Qed.

Lemma emit_status_sends frame ordinal self :
  sends_one (tf_market_seq frame) (STREAM_STATUS, 0) is_status self (emit_status frame ordinal self).
Proof.
  unfold emit_status. destruct (_ && _); [|by split; [|right; apply emits_refl]].
  split; [done|]. left. eexists. split_and!; [by split|by split; [repeat constructor|]|by eexists].
Qed.

(** The fills of a frame, as trade records. *)
Definition frame_trades (frame : TapFrame) : list TradeRecord :=
  omap (fun event =>
          if negb (bool_decide (e_kind event = Fill)) then None
          else trade_record (tf_ts_ms frame) event <$> e_counterparty_sequence event)
       (tf_events frame).

Lemma trade_loop symbol ts events : forall shadow trades,
  (foldl (trade_of symbol ts) (shadow, trades) events).2 =
  trades ++ omap (fun event =>
          if negb (bool_decide (e_kind event = Fill)) then None
          else trade_record ts event <$> e_counterparty_sequence event) events.
Proof.
  induction events as [|event events IH]; intros shadow trades; simpl; [by rewrite app_nil_r|].
  unfold trade_of at 2. simpl. case_bool_decide; simpl; [|apply IH].
  destruct (e_counterparty_sequence event); simpl; rewrite IH; [|done]. by rewrite <- app_assoc.
Qed.

Lemma emit_trades_sends frame ordinal trades self :
  stays self (emit_trades frame ordinal trades self) /\
  exists msgs, emits self (emit_trades frame ordinal trades self) msgs /\
    match trades with
    | [] => msgs = []
    | _ => exists m, msgs = [m] /\ anchored (tf_market_seq frame) [(STREAM_TRADE, 0)] [m] /\
             mm_body m = BodyTrade trades
    end.
Proof.
  unfold emit_trades. destruct trades as [|t l]; [split; [done|]; exists []; split; [apply emits_refl|done]|].
  split; [done|]. eexists. split; [by split|]. eexists. split; [done|].
  split; [by split; [repeat constructor|]|done].
Qed.

Lemma emit_lifecycle_sends frame ordinal self :
  stays self (emit_lifecycle frame ordinal self) /\
  exists msgs, emits self (emit_lifecycle frame ordinal self) msgs /\
    match tf_events frame with
    | [] => msgs = []
    | _ => exists m, msgs = [m] /\ anchored (tf_market_seq frame) [(STREAM_LIFECYCLE, 0)] [m] /\
             mm_body m = BodyLifecycle
               (lifecycle_batch (md_lifecycle_batch_max (p_config self)) (tf_ts_ms frame)
                  (tf_events frame)).1
    end.
Proof.
  unfold emit_lifecycle. destruct (tf_events frame) as [|e l] eqn:Ee.
  - split; [done|]. exists []. split; [apply emits_refl|done].
  - destruct (lifecycle_batch _ _ _) as [records shed] eqn:Eb. split; [done|].
    eexists. split; [by split|]. eexists. split; [done|].
    split; [by split; [repeat constructor|]|done].
Qed.

Lemma emit_depth_delta_sends frame ordinal touched self :
  stays self (emit_depth_delta frame ordinal touched self) /\
  exists msgs, emits self (emit_depth_delta frame ordinal touched self) msgs /\
    match match p_shadow self !! tf_symbol_id frame with
          | Some book => level_updates book touched
          | None => []
          end with
    | [] => msgs = []
    | updates => exists m, msgs = [m] /\
        anchored (tf_market_seq frame) [(STREAM_DEPTH_DELTA, 0)] [m] /\
        mm_body m = BodyDepthDelta updates
    end.
Proof.
  unfold emit_depth_delta. destruct (match _ with Some _ => _ | None => _ end) as [|u l].
  - split; [done|]. exists []. split; [apply emits_refl|done].
  - split; [done|]. eexists. split; [by split|]. eexists. split; [done|].
    split; [by split; [repeat constructor|]|done].
Qed.

(** ** What a consumer reads out of the messages *)

Definition body_trades (b : MessageBody) : list TradeRecord :=
  match b with BodyTrade records => records | _ => [] end.
Definition body_updates (b : MessageBody) : list LevelUpdate :=
  match b with BodyDepthDelta updates => updates | _ => [] end.
Definition body_lifecycle (b : MessageBody) : list LifecycleRecord :=
  match b with BodyLifecycle records => records | _ => [] end.
Definition body_bars (b : MessageBody) : list BarRecord :=
  match b with BodyBar bar => [bar] | _ => [] end.

(** All records of one kind carried by a sequence of messages. *)
Definition read_all {A} (f : MessageBody -> list A) (msgs : list MarketMessage) : list A :=
  concat ((fun m => f (mm_body m)) <$> msgs).

Lemma read_all_app {A} (f : MessageBody -> list A) m1 m2 :
  read_all f (m1 ++ m2) = read_all f m1 ++ read_all f m2.
Proof. unfold read_all. by rewrite fmap_app, concat_app. Qed.

Lemma read_all_one {A} (f : MessageBody -> list A) m : read_all f [m] = f (mm_body m).
Proof. unfold read_all. simpl. apply app_nil_r. Qed.

Lemma read_all_none {A} (f : MessageBody -> list A) msgs :
  Forall (fun m => f (mm_body m) = []) msgs -> read_all f msgs = [].
Proof. induction 1 as [|m l Hm _ IH]; [done|]. unfold read_all in *. simpl. by rewrite Hm. Qed.

(** ** Bars of one frame *)

(** The keys of [n] bars, the first with sub-sequence [k]. *)
Definition bar_keys (k n : nat) : list (Z * Z) :=
  (fun i => (STREAM_BAR, Z.min (Z.of_nat i) 65535)) <$> seq k n.

Definition is_bar (b : MessageBody) : Prop := exists r, b = BodyBar r.

Lemma emit_bars_sends symbol ms log_index ordinal outgoing : forall k self,
  stays self (emit_bars symbol ms log_index ordinal k outgoing self) /\
  exists msgs, emits self (emit_bars symbol ms log_index ordinal k outgoing self) msgs /\
    anchored ms (bar_keys k (length outgoing)) msgs /\
    Forall (fun m => is_bar (mm_body m)) msgs.
Proof.
  induction outgoing as [|[bar closed] outgoing IH]; intros k self; simpl.
  - split; [done|]. exists []. split_and!; [apply emits_refl|apply anchored_nil|constructor].
  - destruct (IH (S k) (emit_bar symbol ms log_index ordinal k (bar, closed) self))
      as [Hs (msgs & He & Ha & Hb)].
    split; [eapply stays_trans; [|exact Hs]; split; reflexivity|].
    eexists (_ :: msgs). split_and!.
    + apply (emits_trans _ (emit_bar symbol ms log_index ordinal k (bar, closed) self) _ [_]);
        [|exact He]. unfold emit_bar. split; reflexivity.
    + apply (anchored_app ms [_] _ [_]); [|done]. split; [repeat constructor|done].
    + constructor; [by eexists|done].
Qed.

Lemma roll_bars_total symbol ts first fills intervals : forall st,
  Forall (fun i => i <> 0) intervals ->
  exists st', roll_bars symbol ts first fills intervals st = Ret st' /\
    (length st'.2 <= length st.2 + length intervals)%nat.
Proof.
  induction intervals as [|i l IH]; intros [bars out] Hi; simpl.
  { eexists. split; [done|]. simpl. lia. }
  inversion Hi as [|? ? Hne Hl]; subst. rewrite (proj2 (Z.eqb_neq _ _)) by done.
  assert (Hone : forall bars' out', (length out' <= S (length out))%nat ->
            exists st', roll_bars symbol ts first fills l (bars', out') = Ret st' /\
              (length st'.2 <= length out + S (length l))%nat).
  { intros bars' out' Ho. destruct (IH (bars', out') Hl) as (st' & E & Hlen). exists st'.
    split; [done|]. simpl in *. lia. }
  destruct (bars !! (symbol, i)) as [bar|]; [destruct (_ =? _)|]; simpl; apply Hone; try lia.
  destruct (0 <? _); rewrite ?length_app; simpl; lia.
Qed.

Lemma live_bars_length symbol intervals : forall st,
  (length (live_bars symbol intervals st).2 <= length st.2 + length intervals)%nat.
Proof.
  induction intervals as [|i l IH]; intros [bars out]; simpl; [lia|].
  unfold live_bars in *. simpl. etrans; [apply IH|]. unfold live_bar.
  destruct (bars !! (symbol, i)) as [bar|]; simpl; [|lia].
  destruct (_ && _); simpl; rewrite ?length_app; simpl; lia.
Qed.

Lemma update_bars_sends symbol ms log_index ordinal ts events self :
  Forall (fun i => i <> 0) (md_bar_intervals_ms (p_config self)) ->
  exists self' msgs n,
    update_bars symbol ms log_index ordinal ts events self = Ret self' /\
    emits self self' msgs /\ p_shadow self' = p_shadow self /\
    (n <= 2 * length (md_bar_intervals_ms (p_config self)))%nat /\
    anchored ms (bar_keys 0 n) msgs /\ Forall (fun m => is_bar (mm_body m)) msgs.
Proof.
  intros Hi. unfold update_bars. destruct (bar_fills events) as [|[first v] fills] eqn:Ef.
  { exists self, [], 0%nat. split; [done|]. split; [apply emits_refl|]. split; [done|].
    split; [lia|]. split; [apply anchored_nil|constructor]. }
  destruct (roll_bars_total symbol ts first ((first, v) :: fills)
              (md_bar_intervals_ms (p_config self)) (p_bars self, []) Hi) as (st & -> & Hlen).
  simpl. pose proof (live_bars_length symbol (md_bar_intervals_ms (p_config self)) st) as Hlive.
  destruct (live_bars symbol _ st) as [bars out]. simpl in *.
  destruct (emit_bars_sends symbol ms log_index ordinal out 0 (set_bars bars self))
    as [[_ Hs] (msgs & He & Ha & Hb)].
  eexists _, msgs, (length out). split_and!; [done| |done|lia|done|done].
  destruct He. by split.
Qed.

(** ** One published frame *)

(** The shadow books after the entry. *)
Definition frame_shadow (frame : TapFrame) (books : gmap Z ShadowBook) : gmap Z ShadowBook :=
  (foldl (trade_of (tf_symbol_id frame) (tf_ts_ms frame))
     ((foldl (touch (tf_symbol_id frame)) (books, []) (tf_depth frame)).1, [])
     (tf_events frame)).1.

(** The levels the entry touched, in publication order. *)
Definition frame_touched (frame : TapFrame) : list ((Z * Z) * unit) :=
  (foldl (touch (tf_symbol_id frame)) (∅, []) (tf_depth frame)).2.

(** The totals published for them. *)
Definition frame_updates (frame : TapFrame) (books : gmap Z ShadowBook) : list LevelUpdate :=
  match frame_shadow frame books !! tf_symbol_id frame with
  | Some book => level_updates book (frame_touched frame)
  | None => []
  end.

(** The keys a frame can use, in order. *)
Definition frame_keys (bars : nat) : list (Z * Z) :=
  [(STREAM_STATUS, GAP_SUB_SEQ); (STREAM_DEPTH_DELTA, 0); (STREAM_BBO, 0); (STREAM_TRADE, 0);
   (STREAM_LIFECYCLE, 0)] ++ bar_keys 0 bars ++ [(STREAM_STATUS, 0)].

Record published (frame : TapFrame) (self self' : MarketDataProcessor)
    (msgs : list MarketMessage) : Prop := {
  pb_emits : emits self self' msgs;
  pb_shadow : p_shadow self' = frame_shadow frame (p_shadow self);
  pb_keys : exists n keys, (n <= 2 * length (md_bar_intervals_ms (p_config self)))%nat /\
    keys `sublist_of` frame_keys n /\ anchored (tf_market_seq frame) keys msgs;
  pb_trades : read_all body_trades msgs = frame_trades frame;
  pb_updates : read_all body_updates msgs = frame_updates frame (p_shadow self);
  pb_lifecycle : read_all body_lifecycle msgs =
    (lifecycle_batch (md_lifecycle_batch_max (p_config self)) (tf_ts_ms frame) (tf_events frame)).1;
}.

Lemma touched_indep symbol depth : forall s1 s2 t,
  (foldl (touch symbol) (s1, t) depth).2 = (foldl (touch symbol) (s2, t) depth).2.
Proof. induction depth as [|c l IH]; intros s1 s2 t; simpl; [done|]. apply IH. Qed.

(** A step that sends nothing or one message with [key]: what it contributes to a frame. *)
Record contributes (ms : Z) (full : list (Z * Z)) (self self' : MarketDataProcessor)
    (trades : list TradeRecord) (updates : list LevelUpdate) (lifecycle : list LifecycleRecord)
    (msgs : list MarketMessage) : Prop := {
  ct_emits : emits self self' msgs;
  ct_keys : exists keys, keys `sublist_of` full /\ anchored ms keys msgs;
  ct_trades : read_all body_trades msgs = trades;
  ct_updates : read_all body_updates msgs = updates;
  ct_lifecycle : read_all body_lifecycle msgs = lifecycle;
}.

Lemma contributes_nil ms full self : contributes ms full self self [] [] [] [].
Proof.
  split; try done; [apply emits_refl|]. exists []. split; [apply sublist_nil_l|apply anchored_nil].
Qed.

Lemma contributes_one ms key self self' m :
  emits self self' [m] -> anchored ms [key] [m] ->
  contributes ms [key] self self' (body_trades (mm_body m)) (body_updates (mm_body m))
    (body_lifecycle (mm_body m)) [m].
Proof. intros He Ha. split; rewrite ?read_all_one; try done. by exists [key]. Qed.

Lemma contributes_trans ms f1 f2 s1 s2 s3 t1 u1 l1 t2 u2 l2 m1 m2 :
  contributes ms f1 s1 s2 t1 u1 l1 m1 -> contributes ms f2 s2 s3 t2 u2 l2 m2 ->
  contributes ms (f1 ++ f2) s1 s3 (t1 ++ t2) (u1 ++ u2) (l1 ++ l2) (m1 ++ m2).
Proof.
  intros [E1 (k1 & S1 & A1) T1 U1 L1] [E2 (k2 & S2 & A2) T2 U2 L2].
  split; rewrite ?read_all_app; try congruence; [by eapply emits_trans|].
  exists (k1 ++ k2). split; [by apply sublist_app|by apply anchored_app].
Qed.

Lemma sends_one_contributes ms key body self self' :
  sends_one ms key body self self' ->
  (forall b, body b -> body_trades b = [] /\ body_updates b = [] /\ body_lifecycle b = []) ->
  exists msgs, contributes ms [key] self self' [] [] [] msgs.
Proof.
  intros [_ [(m & He & Ha & Hb)|He]] Hn.
  - exists [m]. destruct (Hn _ Hb) as (Et & Eu & El). rewrite <- Et, <- Eu, <- El at 1.
    by apply contributes_one.
  - exists []. split; try done. exists []. split; [apply sublist_nil_l|apply anchored_nil].
Qed.

Lemma emits_set_shadow m self : emits self (set_shadow m self) [].
Proof. split; rewrite ?app_nil_r; done. Qed.

Lemma touch_empty symbol depth sh :
  (foldl (touch symbol) (sh, []) depth).2 = [] -> depth = [].
Proof.
  destruct depth as [|c l]; [done|]. simpl. intros E. exfalso.
  assert (Hne : forall depth s t, t <> [] -> (foldl (touch symbol) (s, t) depth).2 <> []).
  { clear. induction depth as [|c l IH]; intros s t Ht; simpl; [done|]. apply IH.
    destruct t as [|[k v] t]; [done|]. simpl. by destruct (cmp _ _). }
  by eapply Hne in E.
Qed.

(** The middle of a frame: depth, top of book, trades. *)
Lemma depth_part_contributes frame ordinal touched self :
  exists msgs,
    contributes (tf_market_seq frame) [(STREAM_DEPTH_DELTA, 0)] self
      (match touched with [] => self | _ => emit_depth_delta frame ordinal touched self end)
      [] (match p_shadow self !! tf_symbol_id frame with
          | Some book => level_updates book touched
          | None => []
          end) [] msgs /\
    stays self (match touched with [] => self | _ => emit_depth_delta frame ordinal touched self end).
Proof.
  destruct (emit_depth_delta_sends frame ordinal touched self) as [Hs (msgs & He & Hm)].
  destruct touched as [|t l].
  - assert (E : match p_shadow self !! tf_symbol_id frame with
                | Some book => level_updates book [] | None => [] end = [])
      by (by destruct (p_shadow self !! _)).
    exists []. split; [|done]. rewrite E. apply contributes_nil.
  - exists msgs. split; [|done]. destruct (match p_shadow self !! tf_symbol_id frame with
                                        | Some book => level_updates book (t :: l)
                                        | None => [] end) as [|u us].
    + subst. split; try done. exists []. split; [apply sublist_nil_l|apply anchored_nil].
    + destruct Hm as (m & -> & Ha & Hb). pose proof (contributes_one _ _ _ _ _ He Ha) as C.
      by rewrite Hb in C.
Qed.

Lemma bbo_part_contributes frame ordinal (touched : list ((Z * Z) * unit)) (trades : list TradeRecord) self :
  exists msgs,
    contributes (tf_market_seq frame) [(STREAM_BBO, 0)] self
      (match touched, trades with
       | [], [] => self
       | _, _ => emit_bbo (tf_symbol_id frame) (tf_market_seq frame) (tf_log_index frame) ordinal
                   (tf_ts_ms frame) 0 self
       end) [] [] [] msgs /\
    stays self (match touched, trades with
       | [], [] => self
       | _, _ => emit_bbo (tf_symbol_id frame) (tf_market_seq frame) (tf_log_index frame) ordinal
                   (tf_ts_ms frame) 0 self
       end).
Proof.
  pose proof (emit_bbo_sends (tf_symbol_id frame) (tf_market_seq frame) (tf_log_index frame) ordinal
                (tf_ts_ms frame) 0 self) as Hs.
  destruct (sends_one_contributes _ _ _ _ _ Hs) as [m C]; [by intros b [g ->]|].
  destruct touched, trades; [exists []; split; [apply contributes_nil|done]|..];
    (exists m; split; [exact C|apply Hs]).
Qed.

Lemma trades_part_contributes frame ordinal trades self :
  exists msgs,
    contributes (tf_market_seq frame) [(STREAM_TRADE, 0)] self (emit_trades frame ordinal trades self)
      trades [] [] msgs /\ stays self (emit_trades frame ordinal trades self).
Proof.
  destruct (emit_trades_sends frame ordinal trades self) as [Hs (msgs & He & Hm)].
  exists msgs. split; [|done]. destruct trades as [|t l].
  - subst. split; try done. exists []. split; [apply sublist_nil_l|apply anchored_nil].
  - destruct Hm as (m & -> & Ha & Hb). pose proof (contributes_one _ _ _ _ _ He Ha) as C.
    by rewrite Hb in C.
Qed.

Lemma lifecycle_part_contributes frame ordinal self :
  exists msgs,
    contributes (tf_market_seq frame) [(STREAM_LIFECYCLE, 0)] self (emit_lifecycle frame ordinal self)
      [] [] (lifecycle_batch (md_lifecycle_batch_max (p_config self)) (tf_ts_ms frame)
               (tf_events frame)).1 msgs /\ stays self (emit_lifecycle frame ordinal self).
Proof.
  destruct (emit_lifecycle_sends frame ordinal self) as [Hs (msgs & He & Hm)].
  exists msgs. split; [|done]. destruct (tf_events frame) as [|t l].
  - subst. split; try done. exists []. split; [apply sublist_nil_l|apply anchored_nil].
  - destruct Hm as (m & -> & Ha & Hb). pose proof (contributes_one _ _ _ _ _ He Ha) as C.
    by rewrite Hb in C.
Qed.

(** Publishing a frame never fails, unless a configured bar width is zero. *)
Lemma publish_frame_published frame self :
  Forall (fun i => i <> 0) (md_bar_intervals_ms (p_config self)) ->
  exists self' msgs, publish_frame frame self = Ret self' /\ published frame self self' msgs.
Proof.
  intros Hi. unfold publish_frame.
  destruct (sends_one_contributes _ _ _ _ _ (emit_gap_sends frame self)) as [m1 C1];
    [by intros b [g ->]|]. pose proof (emit_gap_sends frame self) as [[_ Hsh1] _].
  set (s1 := emit_gap frame self) in *. rewrite Hsh1.
  assert (Htouch : (foldl (touch (tf_symbol_id frame)) (p_shadow self, []) (tf_depth frame)).2 =
                   frame_touched frame) by apply touched_indep.
  assert (Hshadow : (foldl (trade_of (tf_symbol_id frame) (tf_ts_ms frame))
     ((foldl (touch (tf_symbol_id frame)) (p_shadow self, []) (tf_depth frame)).1, [])
     (tf_events frame)).1 = frame_shadow frame (p_shadow self)) by done.
  pose proof (trade_loop (tf_symbol_id frame) (tf_ts_ms frame) (tf_events frame)
    (foldl (touch (tf_symbol_id frame)) (p_shadow self, []) (tf_depth frame)).1 []) as Htr.
  rewrite app_nil_l in Htr. fold (frame_trades frame) in Htr.
  destruct (foldl (touch _) _ _) as [shadow1 touched]. cbn [fst snd] in *. cbv zeta.
  destruct (foldl (trade_of _ _) _ _) as [shadow2 trades]. cbn [fst snd] in *.
  subst shadow2 touched trades.
  set (s2 := set_shadow (frame_shadow frame (p_shadow self)) s1).
  assert (C2 : contributes (tf_market_seq frame) [] s1 s2 [] [] [] []).
  { split; try done; [apply emits_set_shadow|]. exists []. split; [done|apply anchored_nil]. }
  destruct (depth_part_contributes frame (last_ordinal frame) (frame_touched frame) s2) as (m3 & C3 & [_ H3]).
  set (s3 := match frame_touched frame with [] => _ | _ => _ end) in *.
  destruct (bbo_part_contributes frame (last_ordinal frame) (frame_touched frame) (frame_trades frame) s3)
    as (m4 & C4 & [_ H4]).
  set (s4 := match frame_touched frame, frame_trades frame with [], [] => _ | _, _ => _ end) in *.
  destruct (trades_part_contributes frame (last_ordinal frame) (frame_trades frame) s4)
    as (m5 & C5 & [_ H5]).
  set (s5 := emit_trades _ _ _ s4) in *.
  destruct (lifecycle_part_contributes frame (last_ordinal frame) s5) as (m6 & C6 & [_ H6]).
  set (s6 := emit_lifecycle _ _ s5) in *.
  pose proof (contributes_trans _ _ _ _ _ _ _ _ _ _ _ _ _ _ C1 (contributes_trans _ _ _ _ _ _ _ _ _ _ _ _ _ _ C2
    (contributes_trans _ _ _ _ _ _ _ _ _ _ _ _ _ _ C3 (contributes_trans _ _ _ _ _ _ _ _ _ _ _ _ _ _ C4
    (contributes_trans _ _ _ _ _ _ _ _ _ _ _ _ _ _ C5 C6))))) as C.
  assert (Hcfg5 : p_config s5 = p_config self).
  { rewrite (em_config _ _ _ (ct_emits _ _ _ _ _ _ _ _ C5)), (em_config _ _ _ (ct_emits _ _ _ _ _ _ _ _ C4)),
      (em_config _ _ _ (ct_emits _ _ _ _ _ _ _ _ C3)), (em_config _ _ _ (ct_emits _ _ _ _ _ _ _ _ C2)).
    apply C1. }
  assert (Hcfg : p_config s6 = p_config self) by (rewrite (em_config _ _ _ (ct_emits _ _ _ _ _ _ _ _ C6)); done).
  destruct (update_bars_sends (tf_symbol_id frame) (tf_market_seq frame) (tf_log_index frame)
              (last_ordinal frame) (tf_ts_ms frame) (tf_events frame) s6)
    as (s7 & m7 & n & E7 & He7 & Hs7 & Hn & Ha7 & Hb7); [by rewrite Hcfg|]. rewrite E7. simpl.
  destruct (sends_one_contributes _ _ _ _ _ (emit_status_sends frame (last_ordinal frame) s7)) as [m8 C8];
    [by intros b [g ->]|]. pose proof (emit_status_sends frame (last_ordinal frame) s7) as [[_ H8] _].
  assert (C7 : contributes (tf_market_seq frame) (bar_keys 0 n) s6 s7 [] [] [] m7).
  { split; try done; [by exists (bar_keys 0 n)|..]; apply read_all_none;
      (eapply Forall_impl; [exact Hb7|]); by intros m [r ->]. }
  pose proof (contributes_trans _ _ _ _ _ _ _ _ _ _ _ _ _ _ C (contributes_trans _ _ _ _ _ _ _ _ _ _ _ _ _ _ C7 C8))
    as [He (keys & Hk & Ha) Ht Hu Hl].
  eexists _, _. split; [done|]. split; [exact He| |exists n, keys| | |].
  - rewrite H8, Hs7, H6, H5, H4, H3. done.
  - split; [by rewrite <- Hcfg|]. split; [|exact Ha]. rewrite <- app_assoc in Hk. exact Hk.
  - rewrite Ht. simpl. by rewrite !app_nil_r.
  - rewrite Hu. simpl. rewrite !app_nil_r. done.
  - rewrite Hl. simpl. rewrite !app_nil_r. by rewrite Hcfg5.
Qed.

(** ** Around a takeover *)

Lemma ingest_all_app fs1 fs2 self :
  ingest_all (fs1 ++ fs2) self = comp_bind (ingest_all fs2) (ingest_all fs1 self).
Proof.
  revert self. induction fs1 as [|f fs1 IH]; intros self; simpl; [done|].
  destruct (ingest f self); simpl; [apply IH|done|done].
Qed.

(** While a reset is pending frames are only kept. *)
Lemma ingest_all_buffers fs : forall self,
  s_resetting (p_shared self) = true ->
  (length (p_pre_snapshot self) + length fs <= PRE_SNAPSHOT_MAX)%nat ->
  ingest_all fs self = Ret (set_pre_snapshot (p_pre_snapshot self ++ fs) self).
Proof.
  induction fs as [|f fs IH]; intros self Hr Hlen; cbn [ingest_all].
  - rewrite app_nil_r. by destruct self.
  - simpl length in Hlen. unfold ingest. rewrite Hr, bool_decide_true by lia. cbn [comp_bind].
    rewrite IH; [|done|cbn [p_pre_snapshot set_pre_snapshot]; rewrite length_app; simpl; lia].
    cbn [p_pre_snapshot set_pre_snapshot]. by rewrite <- app_assoc.
Qed.

Lemma install_pre snapshot l self :
  install_snapshot snapshot (set_pre_snapshot l self) =
  set_pre_snapshot l (install_snapshot snapshot self).
Proof.
  unfold install_snapshot, emit_reset, emit_bbo. cbn [p_shadow set_pre_snapshot set_shadow count
    set_shared set_reset_point emit].
  destruct (shadow_update _ _ _ !! _) as [book|]; [|done]. by destruct (bbo_of book).
Qed.

Lemma install_keeps_pre snapshot self :
  p_pre_snapshot (install_snapshot snapshot self) = p_pre_snapshot self.
Proof.
  unfold install_snapshot, emit_reset, emit_bbo. cbn [p_shadow set_pre_snapshot set_shadow count
    set_shared set_reset_point emit].
  destruct (shadow_update _ _ _ !! _) as [book|]; [|done]. by destruct (bbo_of book).
Qed.

Lemma set_pre_twice l l' self : set_pre_snapshot l (set_pre_snapshot l' self) = set_pre_snapshot l self.
Proof. done. Qed.

(** Frames that arrive before the snapshot is installed and frames that arrive after. *)
Definition handover (snapshot : SnapshotFrame) (before after : list TapFrame)
    (self : MarketDataProcessor) : Comp MarketDataProcessor :=
  let* self := ingest_all before self in
  let* self := apply_snapshot snapshot self in
  ingest_all after self.

Lemma comp_bind_ret {A B} (f : A -> Comp B) a : comp_bind f (Ret a) = f a.
Proof. done. Qed.

Lemma pre_set l self : p_pre_snapshot (set_pre_snapshot l self) = l.
Proof. done. Qed.

(** The frames kept so far are replayed onto the installed snapshot. *)
Lemma apply_snapshot_kept snapshot kept self :
  apply_snapshot snapshot (set_pre_snapshot kept self) =
  ingest_all kept (set_pre_snapshot [] (install_snapshot snapshot self)).
Proof.
  unfold apply_snapshot. generalize (install_pre snapshot kept self).
  generalize (install_snapshot snapshot self). generalize (install_snapshot snapshot (set_pre_snapshot kept self)).
  intros s s' ->. by rewrite pre_set, set_pre_twice.
Qed.

(** When the snapshot is installed does not matter. *)
Lemma handover_eq snapshot before after self :
  s_resetting (p_shared self) = true ->
  (length (p_pre_snapshot self) + length before <= PRE_SNAPSHOT_MAX)%nat ->
  handover snapshot before after self =
  ingest_all (p_pre_snapshot self ++ before ++ after)
    (set_pre_snapshot [] (install_snapshot snapshot self)).
Proof.
  intros Hr Hlen. unfold handover. rewrite ingest_all_buffers by done.
  rewrite comp_bind_ret, apply_snapshot_kept.
  generalize (set_pre_snapshot [] (install_snapshot snapshot self)). intros s.
  by rewrite app_assoc, (ingest_all_app (p_pre_snapshot self ++ before)).
Qed.

(** Publishing, with the boundary installed. *)
Record ready (boundary : Z) (self : MarketDataProcessor) : Prop := {
  rd_gate : negb (md_leader_only (p_config self)) || s_leader (p_shared self) = true;
  rd_resetting : s_resetting (p_shared self) = false;
  rd_active : p_active_market_seq self = Some boundary;
  rd_intervals : Forall (fun i => i <> 0) (md_bar_intervals_ms (p_config self));
}.

Lemma ready_emits boundary self self' msgs :
  emits self self' msgs -> ready boundary self -> ready boundary self'.
Proof. intros [? Hc Ha Hl Hr ?] []. split; rewrite ?Hc, ?Ha, ?Hl, ?Hr; done. Qed.

Lemma note_frame_emits frame self : emits self (note_frame frame self) [].
Proof. split; rewrite ?app_nil_r; done. Qed.

(** At or above the boundary. *)
Definition accepted (boundary : Z) (frames : list TapFrame) : list TapFrame :=
  filter (fun f => boundary <= tf_market_seq f) frames.

Lemma ingest_ready boundary frame self :
  ready boundary self ->
  ingest frame self =
  if tf_market_seq frame <? boundary then Ret (note_frame frame self)
  else publish_frame frame (note_frame frame self).
Proof.
  intros [Hg Hr Ha _]. unfold ingest. rewrite Hr. cbv zeta.
  assert (Hp : publishing (note_frame frame self) = true).
  { unfold publishing. cbn. by rewrite Hg, Hr. }
  rewrite Hp. cbn [negb].
  change (p_active_market_seq (note_frame frame self)) with (p_active_market_seq self).
  by rewrite Ha.
Qed.

(** What a run of frames sends. *)
Record streamed (boundary : Z) (frames : list TapFrame) (self self' : MarketDataProcessor)
    (msgs : list MarketMessage) : Prop := {
  sm_emits : emits self self' msgs;
  sm_shadow : p_shadow self' = foldl (fun m f => frame_shadow f m) (p_shadow self) (accepted boundary frames);
  sm_trades : read_all body_trades msgs = concat (frame_trades <$> accepted boundary frames);
  sm_lifecycle : read_all body_lifecycle msgs =
    concat ((fun f => (lifecycle_batch (md_lifecycle_batch_max (p_config self)) (tf_ts_ms f)
                         (tf_events f)).1) <$> accepted boundary frames);
  sm_blocks : exists blocks,
    msgs = concat blocks /\
    Forall2 (fun f block => exists n keys,
      (n <= 2 * length (md_bar_intervals_ms (p_config self)))%nat /\
      keys `sublist_of` frame_keys n /\ anchored (tf_market_seq f) keys block)
      (accepted boundary frames) blocks;
}.

Lemma ingest_all_streamed boundary frames : forall self,
  ready boundary self ->
  exists self' msgs, ingest_all frames self = Ret self' /\ streamed boundary frames self self' msgs.
Proof.
  induction frames as [|f frames IH]; intros self Hrd; cbn [ingest_all].
  - exists self, []. split; [done|]. split; try done; [apply emits_refl|]. by exists [].
  - rewrite (ingest_ready boundary) by done. pose proof (note_frame_emits f self) as Hn.
    pose proof (ready_emits _ _ _ _ Hn Hrd) as Hrd1.
    assert (Hacc := filter_cons (fun f => boundary <= tf_market_seq f) f frames).
    fold (accepted boundary (f :: frames)) in Hacc. fold (accepted boundary frames) in Hacc.
    destruct (Z.ltb_spec (tf_market_seq f) boundary) as [Hlt|Hge].
    + rewrite decide_False in Hacc by lia. rewrite comp_bind_ret.
      destruct (IH _ Hrd1) as (self' & msgs & E & [He Hs Ht Hl Hb]).
      exists self', msgs. split; [done|]. split; rewrite ?Hacc; try done.
      by apply (emits_trans _ _ _ [] msgs Hn).
    + rewrite decide_True in Hacc by lia.
      destruct (publish_frame_published f (note_frame f self)) as (s1 & m1 & E1 & [He1 Hs1 Hk1 Ht1 _ Hl1]);
        [apply Hrd1|].
      rewrite E1, comp_bind_ret.
      pose proof (emits_trans _ _ _ _ _ Hn He1) as He01. rewrite app_nil_l in He01.
      pose proof (ready_emits _ _ _ _ He01 Hrd) as Hrd2.
      destruct (IH _ Hrd2) as (self' & msgs & E & [He Hs Ht Hl (blocks & -> & Hb)]).
      exists self', (m1 ++ concat blocks). split; [done|].
      pose proof (em_config _ _ _ He01) as Hc. rewrite Hc in Hl, Hb. split; rewrite ?Hacc.
      * by eapply emits_trans.
      * rewrite Hs, Hs1. done.
      * by rewrite read_all_app, Ht1, Ht.
      * by rewrite read_all_app, Hl1, Hl.
      * exists (m1 :: blocks). split; [done|]. constructor; [exact Hk1|done].
Qed.

(** The reset point: ready at the snapshot's boundary, two messages of its own. *)
Lemma install_facts snapshot self :
  negb (md_leader_only (p_config self)) || s_leader (p_shared self) = true ->
  Forall (fun i => i <> 0) (md_bar_intervals_ms (p_config self)) ->
  let self' := install_snapshot snapshot self in
  ready (sf_market_seq snapshot) self' /\ p_config self' = p_config self /\
  p_shadow self' =
    shadow_update (sf_symbol_id snapshot)
      (shadow_reset (sf_bids snapshot) (sf_asks snapshot) (sf_last_trade snapshot)) (p_shadow self) /\
  exists msgs keys, p_sent self' = p_sent self ++ msgs /\
    keys `sublist_of` [(STREAM_DEPTH_SNAPSHOT, 0); (STREAM_BBO, SNAPSHOT_BBO_SUB_SEQ)] /\
    anchored (sf_market_seq snapshot) keys msgs /\
    read_all body_trades msgs = [] /\ read_all body_lifecycle msgs = [].
Proof.
  intros Hg Hi self'. unfold self', install_snapshot, emit_reset. cbv zeta.
  match goal with |- context [count StDepthSnapshots 1 ?s] => set (s1 := count StDepthSnapshots 1 s) end.
  assert (Hrd : ready (sf_market_seq snapshot) s1) by (by split).
  assert (Hs1 : exists m, p_sent s1 = p_sent self ++ [m] /\
            anchored (sf_market_seq snapshot) [(STREAM_DEPTH_SNAPSHOT, 0)] [m] /\
            exists d, mm_body m = BodyDepthSnapshot d).
  { eexists. split; [done|]. split; [by split; [repeat constructor|]|by eexists]. }
  destruct Hs1 as (m & Hsent & Ha & d & Hd).
  pose proof (emit_bbo_sends (sf_symbol_id snapshot) (sf_market_seq snapshot) (sf_log_index snapshot) 0
                (sf_ts_ms snapshot) SNAPSHOT_BBO_SUB_SEQ s1) as [[_ Hsh] Hb].
  assert (Hcfg1 : p_config s1 = p_config self) by done.
  assert (Hsh1 : p_shadow s1 = shadow_update (sf_symbol_id snapshot)
      (shadow_reset (sf_bids snapshot) (sf_asks snapshot) (sf_last_trade snapshot)) (p_shadow self)) by done.
  clearbody s1. destruct Hb as [(m2 & He & Ha2 & [r Hr])|He].
  - split; [by eapply ready_emits|]. split; [by rewrite (em_config _ _ _ He)|].
    split; [by rewrite Hsh|]. exists [m; m2], [(STREAM_DEPTH_SNAPSHOT, 0); (STREAM_BBO, SNAPSHOT_BBO_SUB_SEQ)].
    split; [by rewrite (em_sent _ _ _ He), Hsent, <- app_assoc|]. split; [done|].
    split; [by apply (anchored_app _ [_] [_] [_] [_])|].
    unfold read_all. simpl. by rewrite Hd, Hr.
  - split; [by eapply ready_emits|]. split; [by rewrite (em_config _ _ _ He)|].
    split; [by rewrite Hsh|]. exists [m], [(STREAM_DEPTH_SNAPSHOT, 0)].
    split; [by rewrite (em_sent _ _ _ He), Hsent, app_nil_r|].
    split; [apply sublist_skip, sublist_nil_l|]. split; [done|].
    unfold read_all. simpl. by rewrite Hd.
Qed.

Lemma set_pre_config l s : p_config (set_pre_snapshot l s) = p_config s.
Proof. done. Qed.

(** A handover from a waiting processor, in terms of the run of frames it publishes. *)
Lemma handover_streamed snapshot before after self :
  s_resetting (p_shared self) = true ->
  negb (md_leader_only (p_config self)) || s_leader (p_shared self) = true ->
  Forall (fun i => i <> 0) (md_bar_intervals_ms (p_config self)) ->
  (length (p_pre_snapshot self) + length before <= PRE_SNAPSHOT_MAX)%nat ->
  exists self' reset keys msgs,
    handover snapshot before after self = Ret self' /\
    streamed (sf_market_seq snapshot) (p_pre_snapshot self ++ before ++ after)
      (set_pre_snapshot [] (install_snapshot snapshot self)) self' msgs /\
    p_sent self' = p_sent self ++ reset ++ msgs /\ p_config (install_snapshot snapshot self) = p_config self /\
    keys `sublist_of` [(STREAM_DEPTH_SNAPSHOT, 0); (STREAM_BBO, SNAPSHOT_BBO_SUB_SEQ)] /\
    anchored (sf_market_seq snapshot) keys reset /\
    read_all body_trades reset = [] /\ read_all body_lifecycle reset = [].
Proof.
  intros Hr Hg Hi Hlen. rewrite handover_eq by done.
  destruct (install_facts snapshot self Hg Hi) as (Hrd & Hc & _ & reset & keys & Hs & Hk & Ha & Ht & Hl).
  revert Hrd Hc Hs. generalize (install_snapshot snapshot self). intros s Hrd Hc Hs.
  destruct (ingest_all_streamed (sf_market_seq snapshot) (p_pre_snapshot self ++ before ++ after)
              (set_pre_snapshot [] s)) as (self' & msgs & E & Hm).
  { destruct Hrd. by split. }
  exists self', reset, keys, msgs. split; [done|]. split; [done|]. split; [|done].
  rewrite (em_sent _ _ _ (sm_emits _ _ _ _ _ Hm)). cbn [p_sent set_pre_snapshot]. by rewrite Hs, app_assoc.
Qed.

(** C17: A takeover loses nothing and repeats nothing. Frames keep arriving while a node that gained
    leadership waits for its snapshot; whenever the snapshot is installed among them (with at most
    4096 frames waiting and no bar width of zero), the outcome is the same state, and what is sent after the reset's own
    messages is exactly the entries at or above the snapshot's boundary, each once and in order:
    every fill in one trade record, every entry's lifecycle batch, and the shadow books of those
    entries on top of the snapshot's. *)
Theorem takeover_exactly_once snapshot before after self :
  s_resetting (p_shared self) = true ->
  negb (md_leader_only (p_config self)) || s_leader (p_shared self) = true ->
  Forall (fun i => i <> 0) (md_bar_intervals_ms (p_config self)) ->
  (length (p_pre_snapshot self) + length before <= PRE_SNAPSHOT_MAX)%nat ->
  let frames := accepted (sf_market_seq snapshot) (p_pre_snapshot self ++ before ++ after) in
  exists self' reset msgs,
    handover snapshot before after self = Ret self' /\
    handover snapshot [] (before ++ after) self = Ret self' /\
    p_sent self' = p_sent self ++ reset ++ msgs /\
    read_all body_trades reset = [] /\ read_all body_lifecycle reset = [] /\
    read_all body_trades msgs = concat (frame_trades <$> frames) /\
    read_all body_lifecycle msgs =
      concat ((fun f => (lifecycle_batch (md_lifecycle_batch_max (p_config self)) (tf_ts_ms f)
                           (tf_events f)).1) <$> frames) /\
    p_shadow self' = foldl (fun m f => frame_shadow f m)
      (shadow_update (sf_symbol_id snapshot)
         (shadow_reset (sf_bids snapshot) (sf_asks snapshot) (sf_last_trade snapshot)) (p_shadow self))
      frames.
Proof.
  intros Hr Hg Hi Hlen frames.
  destruct (handover_streamed snapshot before after self Hr Hg Hi Hlen)
    as (self' & reset & keys & msgs & E & [He Hs Ht Hl _] & Hsent & Hc & _ & _ & Htr & Hlr).
  destruct (install_facts snapshot self Hg Hi) as (_ & _ & Hsh & _).
  exists self', reset, msgs. split; [done|]. split.
  { rewrite <- E, !handover_eq by (done || (simpl; lia)). done. }
  split; [done|]. split; [done|]. split; [done|]. split; [done|].
  revert Hl Hs Hc Hsh. generalize (install_snapshot snapshot self). intros s Hl Hs Hc Hsh.
  split; [|by rewrite Hs; cbn [p_shadow set_pre_snapshot]; rewrite Hsh].
  rewrite Hl. cbn [p_config set_pre_snapshot]. by rewrite Hc.
Qed.

(** ** The dedupe key *)

(** Consumers dedupe by stream, market sequence and sub-sequence. *)
Definition message_key (m : MarketMessage) : Z * (Z * Z) :=
  (mm_market_seq m, (mm_stream m, mm_sub_seq m)).

Lemma anchored_keys ms keys msgs : anchored ms keys msgs -> message_key <$> msgs = (fun k => (ms, k)) <$> keys.
Proof.
  intros [F <-]. rewrite <- list_fmap_compose. induction F as [|m l E _ IH]; [done|].
  rewrite !fmap_cons, IH. unfold message_key. simpl. by rewrite E.
Qed.

Lemma bar_keys_NoDup k n : (k + n <= Z.to_nat 65536)%nat -> NoDup (bar_keys k n).
Proof.
  intros Hn. unfold bar_keys. apply NoDup_fmap_2_strong; [|apply NoDup_seq].
  intros i j Hi%elem_of_seq Hj%elem_of_seq [= E]. lia.
Qed.

Lemma frame_keys_NoDup n : (n <= Z.to_nat 65536)%nat -> NoDup (frame_keys n).
Proof.
  intros Hn. unfold frame_keys.
  assert (Hbars : forall k, k ∈ bar_keys 0 n -> k.1 = STREAM_BAR).
  { intros k (i & -> & _)%list_elem_of_fmap. done. }
  apply NoDup_app. split_and!.
  - apply (bool_decide_eq_true_1 _). vm_compute. reflexivity.
  - intros x Hx [Hb%Hbars| ->%list_elem_of_singleton]%elem_of_app.
    + repeat (apply elem_of_cons in Hx as [->|Hx]; [done|]). by apply elem_of_nil in Hx.
    + repeat (apply elem_of_cons in Hx as [[=]|Hx]). by apply elem_of_nil in Hx.
  - apply NoDup_app. split_and!; [by apply bar_keys_NoDup| |apply NoDup_singleton].
    by intros x Hb%Hbars ->%list_elem_of_singleton.
Qed.

(** Keys of consecutive frames: all distinct, each among its frame's. *)
Lemma blocks_keys bars frames blocks :
  (2 * bars <= Z.to_nat 65536)%nat ->
  StronglySorted (fun f g => tf_market_seq f < tf_market_seq g) frames ->
  Forall2 (fun f block => exists n keys, (n <= 2 * bars)%nat /\
    keys `sublist_of` frame_keys n /\ anchored (tf_market_seq f) keys block) frames blocks ->
  NoDup (message_key <$> concat blocks) /\
  Forall (fun k => exists f n, f ∈ frames /\ k.1 = tf_market_seq f /\ k.2 ∈ frame_keys n)
    (message_key <$> concat blocks).
Proof.
  intros Hbars Hs Hb. induction Hb as [|f block frames blocks (n & keys & Hn & Hk & Ha) Hb IH].
  - split; constructor.
  - inversion Hs as [|? ? Hs' Hlt]; subst. destruct (IH Hs') as (Hnd & Hin).
    simpl. rewrite fmap_app, (anchored_keys _ _ _ Ha). split; [|apply Forall_app; split].
    + apply NoDup_app. split_and!; [| |done].
      * apply NoDup_fmap_2; [intros ? ? [=]; done|]. eapply sublist_NoDup; [|exact Hk].
        apply frame_keys_NoDup. lia.
      * intros x (k & -> & _)%list_elem_of_fmap Hx. rewrite Forall_forall in Hin.
        rewrite Forall_forall in Hlt.
        destruct (Hin _ Hx) as (g & ? & Hg & E & _). specialize (Hlt g Hg). simpl in E. lia.
    + apply Forall_fmap, Forall_forall. intros k Hkk. exists f, n. split_and!; [left|done|].
      simpl. by eapply elem_of_sublist.
    + eapply Forall_impl; [exact Hin|]. intros k (g & n' & ? & ? & ?). exists g, n'.
      split_and!; [by right|done|done].
Qed.

(** No key of a frame is one of a reset. *)
Lemma frame_keys_not_reset n k :
  k ∈ frame_keys n -> k ∉ [(STREAM_DEPTH_SNAPSHOT, 0); (STREAM_BBO, SNAPSHOT_BBO_SUB_SEQ)].
Proof.
  intros [Hk|[(i & -> & _)%list_elem_of_fmap| ->%list_elem_of_singleton]%elem_of_app]%elem_of_app Hr.
  - assert (Hd : NoDup ([(STREAM_STATUS, GAP_SUB_SEQ); (STREAM_DEPTH_DELTA, 0); (STREAM_BBO, 0);
      (STREAM_TRADE, 0); (STREAM_LIFECYCLE, 0)] ++
      [(STREAM_DEPTH_SNAPSHOT, 0); (STREAM_BBO, SNAPSHOT_BBO_SUB_SEQ)]))
      by (apply (bool_decide_eq_true_1 _); vm_compute; reflexivity).
    apply NoDup_app in Hd as (_ & Hd & _). by apply (Hd k).
  - repeat (apply elem_of_cons in Hr as [[=]|Hr]). by apply elem_of_nil in Hr.
  - repeat (apply elem_of_cons in Hr as [[=]|Hr]). by apply elem_of_nil in Hr.
Qed.

Lemma accepted_sorted boundary frames :
  StronglySorted (fun f g => tf_market_seq f < tf_market_seq g) frames ->
  StronglySorted (fun f g => tf_market_seq f < tf_market_seq g) (accepted boundary frames).
Proof. apply strongly_sorted_filter. Qed.

(** The dedupe key identifies a message. Around a takeover, for frames in the order of their
    market sequences, no two messages share stream, market sequence and sub-sequence: not the gap
    marker and a status of one entry, not two bars, and not the reset's top of book and that of
    the first entry after it, which carry the same market sequence. *)
Theorem message_keys_unique snapshot before after self self' :
  s_resetting (p_shared self) = true ->
  negb (md_leader_only (p_config self)) || s_leader (p_shared self) = true ->
  Forall (fun i => i <> 0) (md_bar_intervals_ms (p_config self)) ->
  (length (p_pre_snapshot self) + length before <= PRE_SNAPSHOT_MAX)%nat ->
  (2 * length (md_bar_intervals_ms (p_config self)) <= Z.to_nat 65536)%nat ->
  StronglySorted (fun f g => tf_market_seq f < tf_market_seq g)
    (p_pre_snapshot self ++ before ++ after) ->
  handover snapshot before after self = Ret self' ->
  exists msgs, p_sent self' = p_sent self ++ msgs /\ NoDup (message_key <$> msgs).
Proof.
  intros Hr Hg Hi Hlen Hbars Hsorted E.
  destruct (handover_streamed snapshot before after self Hr Hg Hi Hlen)
    as (s & reset & keys & msgs & E' & [_ _ _ _ (blocks & -> & Hb)] & Hsent & Hc & Hk & Ha & _).
  rewrite E in E'. injection E' as <-. exists (reset ++ concat blocks). split; [done|].
  rewrite set_pre_config, Hc in Hb.
  destruct (blocks_keys _ _ _ Hbars (accepted_sorted _ _ Hsorted) Hb) as [Hnd Hin].
  rewrite fmap_app, (anchored_keys _ _ _ Ha). apply NoDup_app. split_and!; [| |done].
  - apply NoDup_fmap_2; [intros ? ? [=]; done|]. eapply sublist_NoDup; [|exact Hk].
    apply (bool_decide_eq_true_1 _). vm_compute. reflexivity.
  - intros x (k & -> & Hkk)%list_elem_of_fmap Hx. rewrite Forall_forall in Hin.
    destruct (Hin _ Hx) as (f & n & _ & _ & Hf). simpl in Hf.
    apply (frame_keys_not_reset _ _ Hf). exact (elem_of_sublist _ _ _ Hkk Hk).
Qed.

(** ** Depth deltas *)

(** The levels a journal names. *)
Definition touches (j : list DepthChange) (side : OrderSide) (p : Fixed) : Prop :=
  exists c, c ∈ j /\ dc_side c = side /\ dc_price c = p.

#[global] Instance pair_cmp_laws : OrdLaws (Z * Z).
Proof.
  split; unfold cmp, pair_cmp.
  - intros [a b] [c d]. simpl. destruct (Z.compare_spec a c) as [->|?|?].
    + rewrite Z.compare_eq_iff. naive_solver.
    + split; [done|]. intros [= -> ->]. lia.
    + split; [done|]. intros [= -> ->]. lia.
  - intros [a b] [c d]. simpl. rewrite (Z.compare_antisym a c).
    destruct (a ?= c); simpl; [apply Z.compare_antisym|done|done].
  - intros [a b] [c d] [e f]. simpl.
    destruct (Z.compare_spec a c), (Z.compare_spec c e), (Z.compare_spec a e); subst; try done; try lia.
    rewrite !Z.compare_lt_iff. lia.
Qed.

Definition side_bit (side : OrderSide) : Z := match side with Buy => 0 | Sell => 1 end.

Lemma touched_keys symbol depth : forall st x,
  x ∈ (foldl (touch symbol) st depth).2.*1 <->
  x ∈ st.2.*1 \/ exists c, c ∈ depth /\ x = (side_bit (dc_side c), dc_price c).
Proof.
  induction depth as [|c depth IH]; intros [m t] x; simpl.
  - split; [by left|]. by intros [?|(c & ?%elem_of_nil & _)].
  - rewrite IH. simpl. rewrite bt_insert_keys. fold (side_bit (dc_side c)). split.
    + intros [[->|?]|(d & ? & ->)]; [right; exists c; split; [left|done]|by left|].
      right. exists d. split; [by right|done].
    + intros [?|(d & [->|Hd]%elem_of_cons & ->)]; [by left; right|by left; left|right; eauto].
Qed.

Lemma frame_touched_iff frame side p :
  (side_bit side, p) ∈ (frame_touched frame).*1 <-> touches (tf_depth frame) side p.
Proof.
  unfold frame_touched, touches. rewrite touched_keys. simpl. split.
  - intros [?%elem_of_nil|(c & Hc & [= E ->])]; [done|]. exists c. split_and!; [done| |done].
    by destruct side, (dc_side c).
  - intros (c & Hc & <- & <-). right. eauto.
Qed.

(** Keys of the touched set are codes of sides. *)
Lemma frame_touched_side frame t :
  t ∈ frame_touched frame -> t.1.1 = side_bit (if t.1.1 =? 0 then Buy else Sell).
Proof.
  intros Ht. assert (Hk : t.1 ∈ (frame_touched frame).*1) by (apply list_elem_of_fmap; eauto).
  unfold frame_touched in Hk. rewrite touched_keys in Hk.
  destruct Hk as [?%elem_of_nil|(c & _ & E)]; [done|]. rewrite E. simpl. by destruct (dc_side c).
Qed.

(** A depth delta carries absolute post-batch totals, exactly of the levels that the entry
    touched and that still exist: every such level is announced with the totals the shadow book
    has after the whole entry, and nothing else is. In particular a level the entry emptied is
    not announced at all. *)
Theorem depth_delta_post_batch frame self :
  Forall (fun i => i <> 0) (md_bar_intervals_ms (p_config self)) ->
  exists self' msgs,
    publish_frame frame self = Ret self' /\ p_sent self' = p_sent self ++ msgs /\
    forall u,
      u ∈ read_all body_updates msgs <->
      exists side p level,
        touches (tf_depth frame) side p /\
        (p_shadow self' !! tf_symbol_id frame) ≫= shadow_level side p = Some level /\
        u = mkLevelUpdate side (level_record level).
Proof.
  intros Hi. destruct (publish_frame_published frame self Hi) as (self' & msgs & E & [He Hs _ _ Hu _]).
  exists self', msgs. split; [done|]. split; [apply He|]. intros u. rewrite Hu, Hs.
  unfold frame_updates. destruct (frame_shadow frame (p_shadow self) !! tf_symbol_id frame) as [book|]; simpl.
  - unfold level_updates. rewrite list_elem_of_omap. split.
    + intros ([[s p] []] & Ht & Hl). pose proof (frame_touched_side _ _ Ht) as Eside. simpl in *.
      set (side := if s =? 0 then Buy else Sell) in *.
      destruct (shadow_level side p book) as [level|] eqn:El; [|done]. injection Hl as <-.
      exists side, p, level. split; [|done]. apply frame_touched_iff. rewrite <- Eside.
      by apply (list_elem_of_fmap_2 fst _ _ Ht).
    + intros (side & p & level & Ht & Hl & ->). apply frame_touched_iff in Ht.
      apply list_elem_of_fmap in Ht as ([[s q] []] & [= <- <-] & Ht).
      exists ((side_bit side, p), tt). split; [done|]. simpl.
      assert (Eb : (if side_bit side =? 0 then Buy else Sell) = side) by (by destruct side).
      by rewrite Eb, Hl.
  - split; [by intros ?%elem_of_nil|]. by intros (side & p & level & _ & ? & _).
Qed.

(** ** Witnesses *)

Module FeedDemo.
(** Two fills two seconds apart, on a replica that publishes without leadership, and an entry the
    snapshot already contains. *)
Definition config : MarketDataConfig := mkMdConfig 10 100 512 [1000] 16 false.

Definition fill (log_index price volume : Z) : MatchEvent :=
  mkMatchEvent (mkEventId log_index 0) Fill log_index Buy (Some 1) None price volume price UnitBase
    None None 0 0 0 None.

Definition frame (seq ts price : Z) : TapFrame :=
  mkTapFrame (10 + seq) seq ts 7 [fill (10 + seq) price 2] [mkDepthChange Sell price (- 2) 0; mkDepthChange Buy 90 5 1].

Definition snapshot : SnapshotFrame := mkSnapshotFrame 14 5 900 7 [] [mkDepthLevel 100 4 1] None 5 0.

Definition waiting : MarketDataProcessor := start_with_sink config.

Definition before : list TapFrame := [frame 4 800 99; frame 5 1500 100].
Definition after : list TapFrame := [frame 6 1700 102; frame 7 3500 101].

Definition final : MarketDataProcessor :=
  match handover snapshot before after waiting with Ret s => s | _ => waiting end.

Lemma runs : handover snapshot before after waiting = Ret final.
Proof. vm_compute. reflexivity. Qed.

Lemma fits : (length (p_pre_snapshot waiting) + length before <= PRE_SNAPSHOT_MAX)%nat.
Proof. apply Nat.leb_le. vm_compute. reflexivity. Qed.

Lemma widths : Forall (fun i => i <> 0) (md_bar_intervals_ms (p_config waiting)).
Proof. by apply Forall_singleton. Qed.

Lemma touched_bid : touches (tf_depth (frame 5 1500 100)) Buy 90.
Proof. exists (mkDepthChange Buy 90 5 1). split; [right; left|split; reflexivity]. Qed.
End FeedDemo.

Lemma takeover_exactly_once_witness :
  exists self' reset msgs,
    handover FeedDemo.snapshot FeedDemo.before FeedDemo.after FeedDemo.waiting = Ret self' /\
    p_sent self' = reset ++ msgs /\ read_all body_trades reset = [] /\
    (tr_log_index <$> read_all body_trades msgs) = [15; 16; 17].
Proof.
  destruct (takeover_exactly_once FeedDemo.snapshot FeedDemo.before FeedDemo.after FeedDemo.waiting
              eq_refl eq_refl FeedDemo.widths FeedDemo.fits)
    as (self' & reset & msgs & E & _ & Hs & Hr & _ & Ht & _).
  exists self', reset, msgs. split; [exact E|]. split; [exact Hs|]. split; [exact Hr|].
  rewrite Ht. vm_compute. reflexivity.
Defined.

Lemma message_keys_unique_witness :
  exists msgs, p_sent FeedDemo.final = msgs /\ NoDup (message_key <$> msgs).
Proof.
  destruct (message_keys_unique FeedDemo.snapshot FeedDemo.before FeedDemo.after FeedDemo.waiting
              FeedDemo.final eq_refl eq_refl FeedDemo.widths FeedDemo.fits)
    as (msgs & Hs & Hnd).
  - apply Nat.leb_le. vm_compute. reflexivity.
  - repeat constructor; vm_compute; reflexivity.
  - exact FeedDemo.runs.
  - exists msgs. split; [exact Hs|exact Hnd].
Defined.

Lemma depth_delta_post_batch_witness :
  exists self' msgs, publish_frame (FeedDemo.frame 5 1500 100) FeedDemo.waiting = Ret self' /\
    p_sent self' = msgs /\ mkLevelUpdate Buy (mkDepthLevel 90 5 1) ∈ read_all body_updates msgs.
Proof.
  destruct (depth_delta_post_batch (FeedDemo.frame 5 1500 100) FeedDemo.waiting FeedDemo.widths)
    as (self' & msgs & E & Hs & Hu).
  exists self', msgs. split; [exact E|]. split; [exact Hs|]. apply Hu.
  exists Buy, 90, (mkLevelState 90 5 1).
  assert (Hself : self' = match publish_frame (FeedDemo.frame 5 1500 100) FeedDemo.waiting with Ret s => s | _ => self' end)
    by (rewrite E; reflexivity).
  split; [exact FeedDemo.touched_bid|]. split; [|reflexivity].
  rewrite Hself. vm_compute. reflexivity.
Defined.
