(* ===== verification/BarSpec.v ===== *)
(** * The bars of the feed ([src/src/market_data/mod.rs], [update_bars])

    A reference definition of OHLCV bars, computed from whole groups of prints that share a
    window, and the proof that the incremental bars and every closed bar published equal it. *)

From stdpp Require Import gmap.
From S2P Require Import Prelude BTree Fixed Order OrderBook MatchEvent StateMachine MarketMessage ShadowBook.
From S2P Require Import Depth MarketData MarketDataSpec.

(** ** The reference *)

(** The prints of one entry: its timestamp and its fills' prices and volumes. *)
Definition Print : Type := Z * list (Fixed * Fixed).

Definition window_of (interval ts_ms : Z) : Z := ts_ms - ts_ms mod interval.

(** The entries of a stream, cut where the window changes: the closed groups and the open one. *)
Definition group_step (interval : Z) (st : list (list Print) * list Print) (p : Print)
    : list (list Print) * list Print :=
  match st.2 with
  | [] => (st.1, [p])
  | q :: _ =>
      if window_of interval q.1 =? window_of interval p.1 then (st.1, st.2 ++ [p])
      else (st.1 ++ [st.2], [p])
  end.

Definition group_prints (interval : Z) (prints : list Print) : list (list Print) * list Print :=
  foldl (group_step interval) ([], []) prints.

(** The fills of a group, in order. *)
Definition group_fills (g : list Print) : list (Fixed * Fixed) := concat (g.*2).

(** The bar of a group: first, highest, lowest and last price, total volume, number of fills. *)
Definition reference_bar (interval : Z) (g : list Print) : BarRecord :=
  let fills := group_fills g in
  let first := match fills with f :: _ => f.1 | [] => 0 end in
  mkBar interval
    (match g with p :: _ => window_of interval p.1 | [] => 0 end)
    (match last g with Some p => p.1 | None => 0 end)
    first (foldr Z.max first fills.*1) (foldr Z.min first fills.*1)
    (match last fills with Some f => f.1 | None => 0 end)
    (wrap_i128 (sum_Z fills.*2)) (wrap_u32 (Z.of_nat (length fills))) 0.

(** ** One bar, incrementally *)

(** [b] carries exactly the fills of [g]. *)
Definition bar_is (interval : Z) (g : list Print) (b : BarAgg) : Prop :=
  bar_record b 0 = reference_bar interval g.

Lemma foldr_max_snoc (a : Z) l x : foldr Z.max a (l ++ [x]) = Z.max (foldr Z.max a l) x.
Proof. induction l as [|y l IH]; simpl; [lia|]. rewrite IH. lia. Qed.

Lemma foldr_min_snoc (a : Z) l x : foldr Z.min a (l ++ [x]) = Z.min (foldr Z.min a l) x.
Proof. induction l as [|y l IH]; simpl; [lia|]. rewrite IH. lia. Qed.

(** Fills already counted, with the window and last timestamp alongside. *)
Definition partial (interval window ts first : Z) (fills : list (Fixed * Fixed)) (b : BarAgg) : Prop :=
  bar_record b 0 =
  mkBar interval window ts first (foldr Z.max first fills.*1) (foldr Z.min first fills.*1)
    (match last fills with Some f => f.1 | None => first end)
    (wrap_i128 (sum_Z fills.*2)) (wrap_u32 (Z.of_nat (length fills))) 0.

Lemma partial_update interval window ts ts' first fills b f :
  partial interval window ts first fills b ->
  partial interval window ts' first (fills ++ [f]) (bar_update ts' f b).
Proof.
  unfold partial, bar_record, bar_update. cbn. intros [= -> -> _ -> -> -> _ -> ->].
  rewrite last_snoc, !fmap_app, length_app.
  change ([f].*1) with [f.1]. change ([f].*2) with [f.2].
  rewrite foldr_max_snoc, foldr_min_snoc, sum_Z_app. unfold fixed_add, max, min.
  rewrite wrap_i128_add, wrap_u32_add, Nat2Z.inj_add.
  change (sum_Z [f.2]) with (f.2 + 0). by rewrite Z.add_0_r.
Qed.

Lemma partial_same_ts interval window ts first new : forall fills b,
  partial interval window ts first fills b ->
  partial interval window ts first (fills ++ new) (foldl (fun bar fill => bar_update ts fill bar) b new).
Proof.
  induction new as [|f new IH]; intros fills b Hp; [by rewrite app_nil_r|]. simpl.
  replace (fills ++ f :: new) with ((fills ++ [f]) ++ new) by (by rewrite <- app_assoc).
  by eapply IH, partial_update.
Qed.

Lemma partial_updates interval window ts ts' first new fills b :
  new <> [] -> partial interval window ts first fills b ->
  partial interval window ts' first (fills ++ new)
    (foldl (fun bar fill => bar_update ts' fill bar) b new).
Proof.
  destruct new as [|f new]; [done|]. intros _ Hp. simpl.
  replace (fills ++ f :: new) with ((fills ++ [f]) ++ new) by (by rewrite <- app_assoc).
  by eapply partial_same_ts, partial_update.
Qed.

(** A group whose entries all have fills and share the first one's window. *)
Lemma bar_is_partial interval g p b :
  Forall (fun q => q.2 <> []) (p :: g) ->
  bar_is interval (p :: g) b <->
  partial interval (window_of interval p.1) (match last (p :: g) with Some q => q.1 | None => 0 end)
    (match group_fills (p :: g) with f :: _ => f.1 | [] => 0 end) (group_fills (p :: g)) b.
Proof.
  intros Hne. unfold bar_is, partial, reference_bar.
  destruct (last (group_fills (p :: g))) eqn:E; [done|].
  apply last_None in E. inversion Hne as [|? ? Hp _]; subst. unfold group_fills in E. simpl in E.
  apply app_nil in E as [? _]. done.
Qed.

Lemma group_fills_snoc g p : group_fills (g ++ [p]) = group_fills g ++ p.2.
Proof. unfold group_fills. rewrite fmap_app, concat_app. simpl. by rewrite app_nil_r. Qed.

(** The first entry of a window. *)
Lemma fresh_bar_is interval p f l :
  p.2 = f :: l ->
  bar_is interval [p] (fresh_bar interval (window_of interval p.1) p.1 f.1 p.2).
Proof.
  intros E. apply bar_is_partial; [by repeat constructor; rewrite E|].
  unfold group_fills. simpl. rewrite app_nil_r, E. unfold fresh_bar.
  apply (partial_updates interval _ p.1 _ _ _ []); [done|]. done.
Qed.

(** Another entry of the same window. *)
Lemma update_bar_is interval g p b :
  g <> [] -> Forall (fun q => q.2 <> []) (g ++ [p]) -> bar_is interval g b ->
  bar_is interval (g ++ [p]) (foldl (fun bar fill => bar_update p.1 fill bar) b p.2).
Proof.
  destruct g as [|q g]; [done|]. intros _ Hne Hb.
  assert (Hg : Forall (fun q => q.2 <> []) (q :: g)) by (by apply Forall_app in Hne as [? _]).
  assert (Hp : p.2 <> []) by (apply Forall_app in Hne as [_ Hp]; by inversion Hp).
  apply bar_is_partial in Hb; [|done]. apply (bar_is_partial interval (g ++ [p]) q); [done|].
  change (q :: g ++ [p]) with ((q :: g) ++ [p]). rewrite last_snoc, group_fills_snoc.
  replace (match group_fills (q :: g) ++ p.2 with f :: _ => f.1 | [] => 0 end)
    with (match group_fills (q :: g) with f :: _ => f.1 | [] => 0 end).
  - by eapply partial_updates.
  - destruct (group_fills (q :: g)) eqn:E; [|done]. unfold group_fills in E. simpl in E.
    apply app_nil in E as [E _]. by inversion Hg.
Qed.

(** ** The bars map of one entry *)

(** What one entry does to the bar of one interval. *)
Definition roll_cur (ts first : Z) (fills : list (Fixed * Fixed)) (i : Z) (cur : option BarAgg) : BarAgg :=
  match cur with
  | Some b =>
      if ba_window_start_ms b =? window_of i ts
      then foldl (fun bar fill => bar_update ts fill bar) b fills
      else fresh_bar i (window_of i ts) ts first fills
  | None => fresh_bar i (window_of i ts) ts first fills
  end.

Definition roll_closed (ts i : Z) (cur : option BarAgg) : list BarAgg :=
  match cur with
  | Some b =>
      if ba_window_start_ms b =? window_of i ts then []
      else if 0 <? ba_trade_count b then [b] else []
  | None => []
  end.

Lemma roll_bars_spec symbol ts first fills l : forall bars out,
  NoDup l -> Forall (fun i => i <> 0) l ->
  exists bars',
    roll_bars symbol ts first fills l (bars, out) =
      Ret (bars', out ++ concat ((fun i => (fun b => (b, true)) <$> roll_closed ts i (bars !! (symbol, i))) <$> l)) /\
    forall k, bars' !! k =
      if decide (k.1 = symbol /\ k.2 ∈ l) then Some (roll_cur ts first fills k.2 (bars !! k)) else bars !! k.
Proof.
  induction l as [|i l IH]; intros bars out Hnd Hne; cbn [roll_bars].
  - exists bars. split; [by rewrite app_nil_r|]. intros k. rewrite decide_False; [done|].
    by intros [_ ?%elem_of_nil].
  - apply NoDup_cons in Hnd as [Hi Hnd]. inversion Hne as [|? ? Hi0 Hl]; subst.
    assert (E : roll_bar symbol ts first fills i (bars, out) =
      Ret (<[(symbol, i) := roll_cur ts first fills i (bars !! (symbol, i))]> bars,
           out ++ ((fun b => (b, true)) <$> roll_closed ts i (bars !! (symbol, i))))).
    { unfold roll_bar, roll_cur, roll_closed, window_of. rewrite (proj2 (Z.eqb_neq _ _)) by done.
      destruct (bars !! (symbol, i)) as [b|]; [|by rewrite app_nil_r].
      destruct (_ =? _); [by rewrite app_nil_r|]. destruct (0 <? _); [done|by rewrite app_nil_r]. }
    rewrite E, comp_bind_ret.
    destruct (IH (<[(symbol, i) := roll_cur ts first fills i (bars !! (symbol, i))]> bars)
                (out ++ ((fun b => (b, true)) <$> roll_closed ts i (bars !! (symbol, i)))) Hnd Hl)
      as (bars' & -> & Hk).
    exists bars'. split.
    + rewrite fmap_cons. simpl concat. rewrite app_assoc. do 4 f_equal.
      apply list_fmap_ext. intros n j Hj. rewrite lookup_insert_ne; [done|].
      intros [= ->]. apply Hi. by eapply list_elem_of_lookup_2.
    + intros [s j]. rewrite Hk. simpl. destruct (decide (s = symbol /\ j ∈ l)) as [[-> Hj]|Hn].
      * rewrite decide_True by (split; [done|by right]). f_equal.
        rewrite lookup_insert_ne; [done|]. intros [= ->]. done.
      * destruct (decide (s = symbol /\ j = i)) as [[-> ->]|Hn'].
        -- rewrite decide_True by (split; [done|left]). by rewrite lookup_insert_eq.
        -- rewrite decide_False; [apply lookup_insert_ne; intros [= -> ->]; by apply Hn'|].
           intros [-> [->|?]%elem_of_cons]; [by apply Hn'|by apply Hn].
Qed.

Lemma live_bars_spec symbol l : forall bars out,
  exists bars' live,
    live_bars symbol l (bars, out) = (bars', out ++ live) /\
    Forall (fun o => o.2 = false) live /\
    forall k, (fun b => bar_record b 0) <$> (bars' !! k) = (fun b => bar_record b 0) <$> (bars !! k).
Proof.
  induction l as [|i l IH]; intros bars out.
  - exists bars, []. split_and!; [by rewrite app_nil_r|constructor|done].
  - change (live_bars symbol (i :: l) (bars, out)) with (live_bars symbol l (live_bar symbol i (bars, out))).
    unfold live_bar. destruct (bars !! (symbol, i)) as [b|] eqn:Eb; [|apply IH].
    destruct (_ && _); [|apply IH].
    destruct (IH (<[(symbol, i) := set_last_live (ba_last_ts_ms b) b]> bars)
                (out ++ [(set_last_live (ba_last_ts_ms b) b, false)])) as (bars' & live & E & Hl & Hk).
    rewrite E. eexists bars', (_ :: live).
    split_and!; [by rewrite <- app_assoc|by constructor|].
    intros k. rewrite Hk. destruct (decide (k = (symbol, i))) as [->|Hne].
    + by rewrite lookup_insert_eq, Eb.
    + by rewrite lookup_insert_ne.
Qed.

(** ** The closed bars among the messages *)

(** A bar as published, without its running number. *)
Definition unnumbered (r : BarRecord) : BarRecord :=
  mkBar (bar_interval_ms r) (bar_window_start_ms r) (bar_last_ts_ms r) (bar_open r) (bar_high r)
    (bar_low r) (bar_close r) (bar_volume r) (bar_trade_count r) 0.

(** The closed bars of one interval. *)
Definition closed_bars (i : Z) (msgs : list MarketMessage) : list BarRecord :=
  omap (fun m => match mm_body m with
                 | BodyBar r => if (mm_flags m =? FLAG_BAR_CLOSE) && (bar_interval_ms r =? i)
                                then Some (unnumbered r) else None
                 | _ => None
                 end) msgs.

Lemma closed_bars_app i m1 m2 : closed_bars i (m1 ++ m2) = closed_bars i m1 ++ closed_bars i m2.
Proof. apply omap_app. Qed.

Definition closed_outgoing (i : Z) (out : list (BarAgg * bool)) : list BarRecord :=
  omap (fun o => if o.2 && (ba_interval_ms o.1 =? i) then Some (bar_record o.1 0) else None) out.

Lemma emit_bars_closed symbol ms log_index ordinal i out : forall k self,
  closed_bars i (p_sent (emit_bars symbol ms log_index ordinal k out self)) =
  closed_bars i (p_sent self) ++ closed_outgoing i out /\
  p_bars (emit_bars symbol ms log_index ordinal k out self) = p_bars self.
Proof.
  induction out as [|[b closed] out IH]; intros k self; cbn [emit_bars].
  { split; [|done]. unfold closed_outgoing. simpl. by rewrite app_nil_r. }
  destruct (IH (S k) (emit_bar symbol ms log_index ordinal k (b, closed) self)) as [-> ->].
  split; [|done]. unfold emit_bar. cbn [p_sent count set_shared emit set_bar_seq].
  rewrite closed_bars_app, <- app_assoc. f_equal. unfold closed_outgoing. simpl.
  unfold closed_bars. simpl. destruct closed; simpl; [|done]. by destruct (ba_interval_ms b =? i).
Qed.

(** The bar of an interval is kept under that interval. *)
Definition keyed (bars : gmap (Z * Z) BarAgg) : Prop :=
  forall k b, bars !! k = Some b -> ba_interval_ms b = k.2.

Lemma fold_update_interval ts fills : forall b,
  ba_interval_ms (foldl (fun bar fill => bar_update ts fill bar) b fills) = ba_interval_ms b.
Proof. induction fills as [|f l IH]; intros b; simpl; [done|]. by rewrite IH. Qed.

Lemma roll_cur_interval ts first fills i cur :
  (forall b, cur = Some b -> ba_interval_ms b = i) -> ba_interval_ms (roll_cur ts first fills i cur) = i.
Proof.
  intros Hc. unfold roll_cur, fresh_bar. destruct cur as [b|].
  - destruct (_ =? _); rewrite fold_update_interval; [by apply Hc|done].
  - by rewrite fold_update_interval.
Qed.

(** The closed bars of [i] among those of all intervals. *)
Lemma closed_of_interval ts i bars symbol l :
  keyed bars -> NoDup l -> i ∈ l ->
  closed_outgoing i (concat ((fun j => (fun b => (b, true)) <$> roll_closed ts j (bars !! (symbol, j))) <$> l)) =
  (fun b => bar_record b 0) <$> roll_closed ts i (bars !! (symbol, i)).
Proof.
  intros Hk. assert (Hone : forall j, closed_outgoing i ((fun b => (b, true)) <$> roll_closed ts j (bars !! (symbol, j))) =
    if j =? i then (fun b => bar_record b 0) <$> roll_closed ts i (bars !! (symbol, i)) else []).
  { intros j. unfold closed_outgoing, roll_closed.
    destruct (bars !! (symbol, j)) as [b|] eqn:E.
    - pose proof (Hk _ _ E) as Hi. simpl in Hi. destruct (Z.eqb_spec j i) as [->|Hne].
      + rewrite E. destruct (_ =? window_of _ _); [done|]. destruct (0 <? _); [|done]. simpl.
        by rewrite Hi, Z.eqb_refl.
      + destruct (_ =? window_of _ _); [done|]. destruct (0 <? _); [|done]. simpl.
        by rewrite Hi, (proj2 (Z.eqb_neq _ _) Hne).
    - destruct (Z.eqb_spec j i) as [->|]; [by rewrite E|done]. }
  induction l as [|j l IH]; intros Hnd Hin; [by apply elem_of_nil in Hin|].
  apply NoDup_cons in Hnd as [Hj Hnd]. rewrite fmap_cons. simpl.
  unfold closed_outgoing in *. rewrite omap_app, Hone.
  apply elem_of_cons in Hin as [<-|Hin].
  - rewrite Z.eqb_refl. replace (omap _ (concat _)) with (@nil BarRecord); [apply app_nil_r|].
    symmetry. clear IH Hnd. induction l as [|j l IH]; [done|]. rewrite fmap_cons. simpl.
    rewrite omap_app, Hone. apply not_elem_of_cons in Hj as [Hne Hj].
    rewrite (proj2 (Z.eqb_neq _ _)) by congruence. by apply IH.
  - rewrite (proj2 (Z.eqb_neq j i)) by (intros ->; done). by apply IH.
Qed.

Lemma update_bars_one symbol ms log_index ordinal ts events self i :
  let l := md_bar_intervals_ms (p_config self) in
  NoDup l -> Forall (fun i => i <> 0) l -> i ∈ l -> keyed (p_bars self) ->
  match bar_fills events with
  | [] => update_bars symbol ms log_index ordinal ts events self = Ret self
  | f :: _ =>
      exists self' b,
        update_bars symbol ms log_index ordinal ts events self = Ret self' /\
        closed_bars i (p_sent self') = closed_bars i (p_sent self) ++
          ((fun b => bar_record b 0) <$> roll_closed ts i (p_bars self !! (symbol, i))) /\
        keyed (p_bars self') /\ p_bars self' !! (symbol, i) = Some b /\
        bar_record b 0 = bar_record (roll_cur ts f.1 (bar_fills events) i (p_bars self !! (symbol, i))) 0
  end.
Proof.
  intros l Hnd Hne Hi Hk. unfold update_bars.
  destruct (bar_fills events) as [|[first v] fills]; [done|].
  destruct (roll_bars_spec symbol ts first ((first, v) :: fills) l (p_bars self) [] Hnd Hne)
    as (bars1 & E1 & H1). fold l. rewrite E1, comp_bind_ret. rewrite app_nil_l.
  destruct (live_bars_spec symbol l bars1 (concat ((fun i => (fun b => (b, true)) <$>
              roll_closed ts i (p_bars self !! (symbol, i))) <$> l))) as (bars2 & live & E2 & Hlive & H2).
  rewrite E2.
  destruct (emit_bars_closed symbol ms log_index ordinal i (concat ((fun i => (fun b => (b, true)) <$>
              roll_closed ts i (p_bars self !! (symbol, i))) <$> l) ++ live) 0 (set_bars bars2 self))
    as [Ec Eb].
  assert (Hcur : exists b, bars2 !! (symbol, i) = Some b /\
    bar_record b 0 = bar_record (roll_cur ts first ((first, v) :: fills) i (p_bars self !! (symbol, i))) 0).
  { specialize (H2 (symbol, i)). rewrite H1 in H2. simpl in H2. rewrite decide_True in H2 by done.
    simpl in H2. destruct (bars2 !! (symbol, i)) as [b|]; [|done]. apply (inj Some) in H2. by exists b. }
  destruct Hcur as (b & Hb & Hbr). eexists _, b. split; [done|]. split.
  { rewrite Ec. cbn [p_sent set_bars]. f_equal. unfold closed_outgoing at 1. rewrite omap_app.
    fold (closed_outgoing i (concat ((fun i => (fun b => (b, true)) <$>
              roll_closed ts i (p_bars self !! (symbol, i))) <$> l))).
    rewrite (closed_of_interval ts i (p_bars self) symbol l Hk Hnd Hi).
    replace (omap _ live) with (@nil BarRecord); [apply app_nil_r|]. symmetry.
    clear -Hlive. induction Hlive as [|[b c] live E _ IH]; [done|]. simpl in *. by rewrite E. }
  rewrite Eb. cbn [p_bars set_bars]. split; [|done].
  intros k b' Hb'. specialize (H2 k). rewrite Hb', H1 in H2. simpl in H2.
  assert (Hint : forall b b', bar_record b 0 = bar_record b' 0 -> ba_interval_ms b = ba_interval_ms b')
    by (unfold bar_record; by intros ? ? [=]).
  destruct (decide _) as [[_ _]|_].
  - simpl in H2. apply (inj Some) in H2. rewrite (Hint _ _ H2). apply roll_cur_interval. intros b0. apply Hk.
  - destruct (p_bars self !! k) as [b0|] eqn:E0; [|done]. simpl in H2.
    apply (inj Some) in H2. rewrite (Hint _ _ H2). by apply Hk.
Qed.

(** ** Bars through whole frames *)

(** Nothing a step does concerns bars. *)
Record barless (self self' : MarketDataProcessor) : Prop := {
  bl_bars : p_bars self' = p_bars self;
  bl_config : p_config self' = p_config self;
  bl_closed : forall i, closed_bars i (p_sent self') = closed_bars i (p_sent self);
}.

Lemma barless_refl self : barless self self.
Proof. done. Qed.

Lemma barless_trans s1 s2 s3 : barless s1 s2 -> barless s2 s3 -> barless s1 s3.
Proof. intros [B1 C1 L1] [B2 C2 L2]. split; [congruence|congruence|]. intros i. by rewrite L2. Qed.

Lemma emits_barless self self' msgs :
  emits self self' msgs -> p_bars self' = p_bars self -> Forall (fun m => ~ is_bar (mm_body m)) msgs ->
  barless self self'.
Proof.
  intros [Hs Hc _ _ _ _] Hb Hm. split; [done|done|]. intros i. rewrite Hs, closed_bars_app.
  replace (closed_bars i msgs) with (@nil BarRecord); [apply app_nil_r|]. symmetry.
  clear Hs. induction Hm as [|m l Hn _ IH]; [done|]. unfold closed_bars in *. simpl.
  destruct (mm_body m) eqn:E; [exact IH..|]. exfalso. apply Hn. by eexists.
Qed.

Lemma sends_one_barless ms key body self self' :
  sends_one ms key body self self' -> (forall b, body b -> ~ is_bar b) -> barless self self'.
Proof.
  intros [[Hb _] [(m & He & _ & Hm)|He]] Hn; (eapply emits_barless; [exact He|done|]).
  - repeat constructor. by apply Hn.
  - constructor.
Qed.

Lemma emit_lifecycle_barless frame ordinal self : barless self (emit_lifecycle frame ordinal self).
Proof.
  destruct (emit_lifecycle_sends frame ordinal self) as [[Hb _] (msgs & He & Hm)].
  eapply emits_barless; [exact He|exact Hb|]. destruct (tf_events frame); [by subst|].
  destruct Hm as (m' & -> & _ & E). repeat constructor. rewrite E. by intros [r Hr].
Qed.

Lemma emit_trades_barless frame ordinal trades self : barless self (emit_trades frame ordinal trades self).
Proof.
  destruct (emit_trades_sends frame ordinal trades self) as [[Hb _] (msgs & He & Hm)].
  eapply emits_barless; [exact He|exact Hb|]. destruct trades; [by subst|].
  destruct Hm as (m' & -> & _ & E). repeat constructor. rewrite E. by intros [r Hr].
Qed.

Lemma emit_depth_delta_barless frame ordinal touched self :
  barless self (emit_depth_delta frame ordinal touched self).
Proof.
  destruct (emit_depth_delta_sends frame ordinal touched self) as [[Hb _] (msgs & He & Hm)].
  eapply emits_barless; [exact He|exact Hb|].
  destruct (match p_shadow self !! tf_symbol_id frame with
            | Some book => level_updates book touched | None => [] end); [by subst|].
  destruct Hm as (m' & -> & _ & E). repeat constructor. rewrite E. by intros [r Hr].
Qed.

Lemma emit_bbo_barless symbol ms log_index ordinal ts sub self :
  barless self (emit_bbo symbol ms log_index ordinal ts sub self).
Proof. eapply sends_one_barless; [apply emit_bbo_sends|]. by intros b [g ->] [r Hr]. Qed.

Lemma emit_gap_barless frame self : barless self (emit_gap frame self).
Proof. eapply sends_one_barless; [apply emit_gap_sends|]. by intros b [g ->] [r Hr]. Qed.

Lemma emit_status_barless frame ordinal self : barless self (emit_status frame ordinal self).
Proof. eapply sends_one_barless; [apply emit_status_sends|]. by intros b [g ->] [r Hr]. Qed.

(** A frame is bar-free but for its call of [update_bars]. *)
Lemma publish_frame_bars frame self self' :
  publish_frame frame self = Ret self' ->
  exists s1 s2, barless self s1 /\
    update_bars (tf_symbol_id frame) (tf_market_seq frame) (tf_log_index frame) (last_ordinal frame)
      (tf_ts_ms frame) (tf_events frame) s1 = Ret s2 /\ barless s2 self'.
Proof.
  unfold publish_frame. intros E.
  destruct (foldl (touch _) _ _) as [shadow1 touched]. cbv zeta in E.
  destruct (foldl (trade_of _ _) _ _) as [shadow2 trades].
  apply comp_bind_Ret in E as (s2 & Eu & E). injection E as <-.
  eexists _, s2. split; [|split; [exact Eu|apply emit_status_barless]].
  eapply barless_trans; [|apply emit_lifecycle_barless].
  eapply barless_trans; [|apply emit_trades_barless].
  apply (barless_trans _ (set_shadow shadow2 (emit_gap frame self))).
  { eapply barless_trans; [apply emit_gap_barless|done]. }
  generalize (set_shadow shadow2 (emit_gap frame self)). intros s.
  destruct touched as [|t l]; [destruct trades; [done|apply emit_bbo_barless]|].
  eapply barless_trans; [apply emit_depth_delta_barless|apply emit_bbo_barless].
Qed.

(** ** The whole stream *)

(** The prints of the frames that have fills. *)
Definition frame_prints (frames : list TapFrame) : list Print :=
  omap (fun f => match bar_fills (tf_events f) with
                 | [] => None
                 | fills => Some (tf_ts_ms f, fills)
                 end) frames.

(** The open bar of an interval is the reference bar of the open group. *)
Definition open_bar_is (symbol i : Z) (g : list Print) (self : MarketDataProcessor) : Prop :=
  match g with
  | [] => p_bars self !! (symbol, i) = None
  | _ => exists b, p_bars self !! (symbol, i) = Some b /\ bar_is i g b
  end.

Lemma bar_record_eq_parts b b' :
  bar_record b 0 = bar_record b' 0 ->
  ba_window_start_ms b = ba_window_start_ms b' /\ ba_trade_count b = ba_trade_count b'.
Proof. unfold bar_record. by intros [=]. Qed.

(** One print against the open group. *)
Lemma roll_step symbol i closed g p f l self :
  p.2 = f :: l -> Forall (fun q => q.2 <> []) g -> Z.of_nat (length (group_fills g)) < 2 ^ 32 ->
  open_bar_is symbol i g self ->
  let cur := p_bars self !! (symbol, i) in
  let st := group_step i (closed, g) p in
  bar_is i st.2 (roll_cur p.1 f.1 p.2 i cur) /\ st.2 <> [] /\ Forall (fun q => q.2 <> []) st.2 /\
  reference_bar i <$> st.1 =
    (reference_bar i <$> closed) ++ ((fun b => bar_record b 0) <$> roll_closed p.1 i cur) /\
  (length (group_fills st.2) <= length (group_fills g) + length p.2)%nat.
Proof.
  intros Ep Hne Hlen Hopen. unfold group_step, roll_cur, roll_closed. cbv zeta. cbn [fst snd].
  assert (Hp : p.2 <> []) by (by rewrite Ep).
  destruct g as [|q g]; cbn [open_bar_is] in Hopen.
  { rewrite Hopen. split_and!; [by eapply fresh_bar_is|done|by repeat constructor|by rewrite app_nil_r|].
    unfold group_fills. simpl. rewrite app_nil_r. lia. }
  destruct Hopen as (b & -> & Hb). unfold bar_is in Hb. pose proof Hb as Hparts.
  unfold bar_record, reference_bar in Hparts. injection Hparts as _ Hw _ _ _ _ _ _ Hc.
  rewrite Hw. destruct (_ =? _).
  - assert (Hall : Forall (fun q => q.2 <> []) ((q :: g) ++ [p])) by (apply Forall_app; split; [done|by apply Forall_singleton]).
    split_and!; [by apply update_bar_is|done|exact Hall|by rewrite app_nil_r|].
    + pose proof (group_fills_snoc (q :: g) p) as Es. simpl app in *. cbn [snd]. rewrite Es, length_app. lia.
  - assert (Hpos : 0 <? ba_trade_count b = true).
    { rewrite Hc. unfold wrap_u32. apply Z.ltb_lt. rewrite Z.mod_small by lia.
      inversion Hne as [|? ? Hq _]; subst. unfold group_fills. simpl. rewrite length_app.
      destruct q.2; [done|]. simpl. lia. }
    rewrite Hpos. split_and!; [by eapply fresh_bar_is|done|by repeat constructor| |].
    + cbn [fst]. rewrite fmap_app. simpl. by rewrite Hb.
    + cbn [snd]. unfold group_fills at 1. simpl. rewrite app_nil_r. lia.
Qed.

Lemma group_fills_app g1 g2 : group_fills (g1 ++ g2) = group_fills g1 ++ group_fills g2.
Proof. unfold group_fills. by rewrite fmap_app, concat_app. Qed.

Lemma bars_stream boundary symbol i frames : forall self self' closed g,
  ready boundary self -> keyed (p_bars self) ->
  NoDup (md_bar_intervals_ms (p_config self)) -> i ∈ md_bar_intervals_ms (p_config self) ->
  Forall (fun f => tf_symbol_id f = symbol) frames ->
  Forall (fun q => q.2 <> []) g ->
  Z.of_nat (length (group_fills g) + length (group_fills (frame_prints (accepted boundary frames)))) < 2 ^ 32 ->
  open_bar_is symbol i g self ->
  ingest_all frames self = Ret self' ->
  let st := foldl (group_step i) (closed, g) (frame_prints (accepted boundary frames)) in
  exists new,
    closed_bars i (p_sent self') = closed_bars i (p_sent self) ++ new /\
    reference_bar i <$> st.1 = (reference_bar i <$> closed) ++ new /\
    open_bar_is symbol i st.2 self'.
Proof.
  induction frames as [|f frames IH]; intros self self' closed g Hrd Hk Hnd Hi Hsym Hg Hlen Hopen E; cbn [ingest_all] in E.
  { injection E as <-. exists []. by rewrite !app_nil_r. }
  inversion Hsym as [|? ? Hf Hsym']; subst.
  rewrite (ingest_ready boundary) in E by done. pose proof (note_frame_emits f self) as Hn.
  pose proof (ready_emits _ _ _ _ Hn Hrd) as Hrd1.
  assert (Hacc := filter_cons (fun f => boundary <= tf_market_seq f) f frames).
  fold (accepted boundary (f :: frames)) in Hacc. fold (accepted boundary frames) in Hacc.
  destruct (Z.ltb_spec (tf_market_seq f) boundary) as [Hlt|Hge].
  { rewrite decide_False in Hacc by lia. rewrite Hacc in *. rewrite comp_bind_ret in E.
    by apply (IH (note_frame f self)). }
  rewrite decide_True in Hacc by lia. rewrite Hacc in *.
  apply comp_bind_Ret in E as (s3 & E1 & E).
  destruct (publish_frame_published f (note_frame f self)) as (s3' & m & E1' & [He1 _ _ _ _ _]); [apply Hrd1|].
  rewrite E1 in E1'. injection E1' as <-.
  pose proof (ready_emits _ _ _ _ He1 Hrd1) as Hrd3.
  pose proof (em_config _ _ _ He1) as Hc3. change (p_config (note_frame f self)) with (p_config self) in Hc3.
  destruct (publish_frame_bars _ _ _ E1) as (s1 & s2 & [B1 C1 L1] & Eu & [B2 C2 L2]).
  change (p_bars (note_frame f self)) with (p_bars self) in B1.
  change (p_sent (note_frame f self)) with (p_sent self) in L1.
  change (p_config (note_frame f self)) with (p_config self) in C1.
  pose proof (update_bars_one (tf_symbol_id f) (tf_market_seq f) (tf_log_index f) (last_ordinal f)
    (tf_ts_ms f) (tf_events f) s1 i) as Hu. cbv zeta in Hu. rewrite C1, B1 in Hu.
  specialize (Hu Hnd (rd_intervals _ _ Hrd) Hi Hk).
  change (frame_prints (f :: accepted boundary frames)) with
    (match match bar_fills (tf_events f) with [] => None | fills => Some (tf_ts_ms f, fills) end with
     | Some p => p :: frame_prints (accepted boundary frames)
     | None => frame_prints (accepted boundary frames) end) in *.
  destruct (bar_fills (tf_events f)) as [|fill fills] eqn:Efill.
  - rewrite Hu in Eu. injection Eu as <-.
    destruct (IH s3 self' closed g) as (new & N1 & N2 & N3); try done.
    + by rewrite B2, B1.
    + by rewrite Hc3.
    + by rewrite Hc3.
    + unfold open_bar_is in *. by rewrite B2, B1.
    + exists new. by rewrite N1, L2, L1.
  - destruct Hu as (s2' & b & Eu' & Hcl & Hk' & Hb & Hbr). rewrite Eu in Eu'. injection Eu' as <-.
    set (p := (tf_ts_ms f, fill :: fills)) in *. cbv iota beta in Hlen. cbv iota beta zeta.
    change (group_fills (p :: frame_prints (accepted boundary frames)))
      with (p.2 ++ group_fills (frame_prints (accepted boundary frames))) in Hlen.
    rewrite length_app in Hlen.
    destruct (roll_step (tf_symbol_id f) i closed g p fill fills self eq_refl Hg ltac:(lia) Hopen)
      as (R1 & R2 & R3 & R4 & R5). cbn [foldl].
    destruct (group_step i (closed, g) p) as [closed1 g1]. cbn [fst snd] in *.
    destruct (IH s3 self' closed1 g1) as (new & N1 & N2 & N3); try done.
    + by rewrite B2.
    + by rewrite Hc3.
    + by rewrite Hc3.
    + lia.
    + unfold open_bar_is. rewrite B2, Hb. destruct g1; [done|]. exists b. split; [done|].
      unfold bar_is. rewrite Hbr. exact R1.
    + exists (((fun b => bar_record b 0) <$> roll_closed p.1 i (p_bars self !! (tf_symbol_id f, i))) ++ new).
      split_and!; [|etrans; [exact N2|]; by rewrite R4, <- app_assoc|done].
      by rewrite N1, L2, Hcl, L1, app_assoc.
Qed.

Lemma install_bars snapshot self :
  p_bars (install_snapshot snapshot self) = ∅ /\
  forall i, closed_bars i (p_sent (install_snapshot snapshot self)) = closed_bars i (p_sent self).
Proof.
  unfold install_snapshot, emit_reset. cbv zeta.
  match goal with |- context [count StDepthSnapshots 1 ?s] => set (s1 := count StDepthSnapshots 1 s) end.
  destruct (emit_bbo_barless (sf_symbol_id snapshot) (sf_market_seq snapshot) (sf_log_index snapshot) 0
    (sf_ts_ms snapshot) SNAPSHOT_BBO_SUB_SEQ s1) as [-> _ Hcl]. split; [done|].
  intros i. rewrite Hcl. unfold s1. cbn [p_sent count set_shared emit set_reset_point set_shadow].
  by rewrite closed_bars_app, app_nil_r.
Qed.

(** C32: Between a takeover and the next reset, bars are what they claim to be. Let a processor that waits
    for its snapshot, with its gate open, install one and take the frames that were waiting and that
    follow, all of one symbol, with no reset behind it: at most [PRE_SNAPSHOT_MAX] frames waited, the
    configured widths are distinct and not zero, and the accepted frames have fewer than 2^32 fills. Then
    for every configured width the closed bars published are exactly the reference bars of the completed
    windows in order (first, highest, lowest and last price, total volume and number of the fills of the
    window's entries that were accepted), one per window, and the open bar is the reference bar of the
    accepted entries of the current window. A window that a takeover falls into counts from the takeover
    on, and the reset that ends the run drops the open bars ([periodic_reset_loses_queued]): a bar
    that is wider than the distance of two resets never covers its window. *)
Theorem bars_are_ohlcv snapshot before after self self' symbol i :
  s_resetting (p_shared self) = true ->
  negb (md_leader_only (p_config self)) || s_leader (p_shared self) = true ->
  Forall (fun i => i <> 0) (md_bar_intervals_ms (p_config self)) ->
  NoDup (md_bar_intervals_ms (p_config self)) -> i ∈ md_bar_intervals_ms (p_config self) ->
  (length (p_pre_snapshot self) + length before <= PRE_SNAPSHOT_MAX)%nat ->
  Forall (fun f => tf_symbol_id f = symbol) (p_pre_snapshot self ++ before ++ after) ->
  let prints := frame_prints (accepted (sf_market_seq snapshot) (p_pre_snapshot self ++ before ++ after)) in
  Z.of_nat (length (group_fills prints)) < 2 ^ 32 ->
  handover snapshot before after self = Ret self' ->
  exists msgs,
    p_sent self' = p_sent self ++ msgs /\
    closed_bars i msgs = reference_bar i <$> (group_prints i prints).1 /\
    open_bar_is symbol i (group_prints i prints).2 self'.
Proof.
  intros Hr Hg Hi Hnd Hin Hlen Hsym prints Hcount E.
  destruct (handover_streamed snapshot before after self Hr Hg Hi Hlen)
    as (s & reset & keys & msgs & E' & Hst & Hsent & Hc & Hk & Ha & _).
  rewrite E in E'. injection E' as <-. rewrite handover_eq in E by done.
  destruct (install_facts snapshot self Hg Hi) as (Hrd & _).
  destruct (install_bars snapshot self) as [Hb Hcl].
  revert E Hrd Hb Hcl Hc. generalize (install_snapshot snapshot self). intros s E Hrd Hb Hcl Hc.
  destruct (bars_stream (sf_market_seq snapshot) symbol i (p_pre_snapshot self ++ before ++ after)
              (set_pre_snapshot [] s) self' [] [])
    as (new & N1 & N2 & N3); try done.
  - destruct Hrd. by split.
  - intros k b. cbn [p_bars set_pre_snapshot]. by rewrite Hb, lookup_empty.
  - cbn [p_config set_pre_snapshot]. by rewrite Hc.
  - cbn [p_config set_pre_snapshot]. by rewrite Hc.
  - unfold open_bar_is. cbn [p_bars set_pre_snapshot]. by rewrite Hb, lookup_empty.
  - exists (reset ++ msgs). split; [done|]. split; [|exact N3].
    rewrite Hsent, closed_bars_app in N1. cbn [p_sent set_pre_snapshot] in N1.
    rewrite Hcl in N1. apply app_inv_head in N1. rewrite N1. symmetry. exact N2.
Qed.

(** ** Witness *)

Lemma bars_are_ohlcv_witness :
  closed_bars 1000 (p_sent FeedDemo.final) = [mkBar 1000 1000 1700 100 102 100 102 4 2 0].
Proof.
  destruct (bars_are_ohlcv FeedDemo.snapshot FeedDemo.before FeedDemo.after FeedDemo.waiting
              FeedDemo.final 7 1000 eq_refl eq_refl FeedDemo.widths) as (msgs & Hs & Hc & _).
  - apply NoDup_singleton.
  - left.
  - exact FeedDemo.fits.
  - repeat constructor.
  - vm_compute. reflexivity.
  - exact FeedDemo.runs.
  - rewrite Hs. simpl app. rewrite Hc. vm_compute. reflexivity.
Defined.
