(* ===== verification/LogStore.v ===== *)
(** * The write-ahead log ([src/src/store/log_store.rs])

    Segmented, append-only storage of Raft entries. A directory is the sequence of its segment
    files by number, with their bytes, and the state file; a [LogStore] is the directory together
    with what the process keeps in memory ([Inner]: index, runtime state, writer, segment table).
    CRC32 is [SnapshotFile.Crc32]; openraft's types and the postcard codec are the classes below.

    System calls take effect in order. One call may fail: the write (or the fsync) of an append, for
    which the code has an undo; truncating a file back to a length it had, deleting a file, and
    creating a segment succeed. The cached read handles always denote the file of their number and
    are left out. *)

From stdpp Require Import list.
From S2P Require Import Prelude BTree SnapshotFile.

(** What the log uses of openraft. *)
Class RaftLogTypes : Type := {
  LogIdOf : Type;
  VoteOf : Type;
  LogEntry : Type;
  entry_log_id : LogEntry -> LogIdOf;
  id_index : LogIdOf -> Z;
}.

(** Indices are [u64]s, and a log never reaches the last of them. *)
Class RaftLogLaws `{RaftLogTypes} : Prop := {
  id_index_range : forall l, 0 <= id_index l < U64_MAX;
}.

Definition entry_index `{RaftLogTypes} (e : LogEntry) : Z := id_index (entry_log_id e).

(** ** Data *)

Definition DEFAULT_SEGMENT_SIZE : Z := 64 * 1024 * 1024.
Definition SEGMENT_MAGIC : list Z := [77; 82; 70; 84].
Definition SEGMENT_VERSION : Z := 1.
Definition SEGMENT_HEADER_LEN : nat := 8.
Definition RECORD_HEADER_LEN : nat := 8.
Definition MAX_RECORD_LEN : Z := 256 * 1024 * 1024.

Inductive WalRecord `{RaftLogTypes} : Type :=
| WalEntry (entry : LogEntry)
| WalCommitted (committed : option LogIdOf).

Record PersistedState `{RaftLogTypes} : Type := mkPersisted {
  ps_vote : option VoteOf;
  ps_last_purged : option LogIdOf;
}.

(** postcard. *)
Class WalCodec `{RaftLogTypes} : Type := {
  encode_record : WalRecord -> option (list Z);
  decode_record : list Z -> option WalRecord;
  encode_state : PersistedState -> option (list Z);
  decode_state : list Z -> option PersistedState;
}.

Class WalCodecLaws `{WalCodec} : Prop := {
  record_codec : forall r bytes, encode_record r = Some bytes -> decode_record bytes = Some r;
  state_codec : forall p bytes, encode_state p = Some bytes -> decode_state bytes = Some p;
  record_bytes : forall r bytes, encode_record r = Some bytes -> Forall is_byte bytes;
}.

Record RecordLoc : Type := mkLoc { loc_seq : Z; loc_offset : nat; loc_len : Z }.

Record SegmentMeta : Type := mkMeta {
  meta_seq : Z;
  meta_first_index : option Z;
  meta_last_index : option Z;
}.

Definition SegmentMeta_new (seq : Z) : SegmentMeta := mkMeta seq None None.

Inductive FsyncPolicy : Type := FsyncNone | EveryAppend | Interval (millis : Z).

(** [fsync_ms]: the configured interval, in milliseconds. *)
Definition FsyncPolicy_from_option (fsync_ms : option Z) : FsyncPolicy :=
  match fsync_ms with
  | None => FsyncNone
  | Some interval => if interval =? 0 then EveryAppend else Interval interval
  end.

Definition is_every_append (p : FsyncPolicy) : bool :=
  match p with EveryAppend => true | _ => false end.

(** [io::ErrorKind] of the errors the log makes, and [EIo] for a failing system call. *)
Inductive WalError : Type := EInvalidData | EInvalidInput | ENotFound | EUnexpectedEof | EAlreadyExists | EIo.

(** A log directory: its segments by number, and the state file. *)
Record WalDir : Type := mkWalDir {
  wd_segments : list (Z * list Z);
  wd_state : option (list Z);
}.

Record LogStore `{RaftLogTypes} : Type := mkLogStore {
  ls_dir : WalDir;
  ls_segment_size : Z;
  ls_fsync : FsyncPolicy;
  ls_dirty : bool;
  ls_index : list (Z * RecordLoc);        (* BTreeMap *)
  ls_vote : option VoteOf;
  ls_committed : option LogIdOf;
  ls_last_purged : option LogIdOf;
  ls_last_log_id : option LogIdOf;
  ls_writer_seq : Z;
  ls_writer_len : nat;
  ls_segments : list SegmentMeta;
}.

Arguments mkPersisted {_}.
Arguments mkLogStore {_}.

Section LogStore.
Context `{!RaftLogTypes, !WalCodec, !Crc32}.
Implicit Types s : LogStore.

(** ** Updates of the parts of a store *)

Definition set_files (files : list (Z * list Z)) s : LogStore :=
  mkLogStore (mkWalDir files (wd_state (ls_dir s))) (ls_segment_size s) (ls_fsync s) (ls_dirty s)
    (ls_index s) (ls_vote s) (ls_committed s) (ls_last_purged s) (ls_last_log_id s)
    (ls_writer_seq s) (ls_writer_len s) (ls_segments s).
Definition set_state_file (bytes : list Z) s : LogStore :=
  mkLogStore (mkWalDir (wd_segments (ls_dir s)) (Some bytes)) (ls_segment_size s) (ls_fsync s)
    (ls_dirty s) (ls_index s) (ls_vote s) (ls_committed s) (ls_last_purged s) (ls_last_log_id s)
    (ls_writer_seq s) (ls_writer_len s) (ls_segments s).
Definition set_dirty (d : bool) s : LogStore :=
  mkLogStore (ls_dir s) (ls_segment_size s) (ls_fsync s) d
    (ls_index s) (ls_vote s) (ls_committed s) (ls_last_purged s) (ls_last_log_id s)
    (ls_writer_seq s) (ls_writer_len s) (ls_segments s).
Definition set_index (index : list (Z * RecordLoc)) s : LogStore :=
  mkLogStore (ls_dir s) (ls_segment_size s) (ls_fsync s) (ls_dirty s)
    index (ls_vote s) (ls_committed s) (ls_last_purged s) (ls_last_log_id s)
    (ls_writer_seq s) (ls_writer_len s) (ls_segments s).
Definition set_runtime (vote : option VoteOf) (committed last_purged last_log_id : option LogIdOf) s
    : LogStore :=
  mkLogStore (ls_dir s) (ls_segment_size s) (ls_fsync s) (ls_dirty s)
    (ls_index s) vote committed last_purged last_log_id
    (ls_writer_seq s) (ls_writer_len s) (ls_segments s).
Definition set_writer (seq : Z) (len : nat) s : LogStore :=
  mkLogStore (ls_dir s) (ls_segment_size s) (ls_fsync s) (ls_dirty s)
    (ls_index s) (ls_vote s) (ls_committed s) (ls_last_purged s) (ls_last_log_id s)
    seq len (ls_segments s).
Definition set_segments (segments : list SegmentMeta) s : LogStore :=
  mkLogStore (ls_dir s) (ls_segment_size s) (ls_fsync s) (ls_dirty s)
    (ls_index s) (ls_vote s) (ls_committed s) (ls_last_purged s) (ls_last_log_id s)
    (ls_writer_seq s) (ls_writer_len s) segments.

(** The bytes of a segment, and the directory with them replaced. *)
Definition file_of (seq : Z) (files : list (Z * list Z)) : option (list Z) := bt_get seq files.

Definition update_file (seq : Z) (f : list Z -> list Z) (files : list (Z * list Z)) : list (Z * list Z) :=
  (fun file : Z * list Z => if file.1 =? seq then (file.1, f file.2) else file) <$> files.

Definition remove_files (gone : list Z) (files : list (Z * list Z)) : list (Z * list Z) :=
  filter (fun file => file.1 ∉ gone) files.

(** ** Frames *)

(** [Disk::frame] followed by the payload; [to_le_bytes] keeps the low 32 bits of the length. *)
Definition frame (payload : list Z) : list Z :=
  to_le_bytes (Z.of_nat (length payload)) ++ to_le_bytes (crc_hash payload) ++ payload.

Definition segment_header : list Z := SEGMENT_MAGIC ++ to_le_bytes SEGMENT_VERSION.
#[global] Arguments frame : simpl never.
#[global] Arguments segment_header : simpl never.

(** Checking the eight bytes before the records. *)
Inductive HeaderCheck : Type := HeaderShort | HeaderBadMagic | HeaderBadVersion (version : Z) | HeaderOk.

Definition check_header (bytes : list Z) : HeaderCheck :=
  if bool_decide (length bytes < SEGMENT_HEADER_LEN)%nat then HeaderShort
  else if negb (bool_decide (slice 0 4 bytes = SEGMENT_MAGIC)) then HeaderBadMagic
  else
    match from_le_bytes (slice 4 8 bytes) with
    | None => HeaderShort (* unreachable: the slice has four bytes *)
    | Some version => if negb (version =? SEGMENT_VERSION) then HeaderBadVersion version else HeaderOk
    end.

(** The frame at [pos]. *)
Inductive FrameRead : Type := FrShort | FrBadCrc | FrPayload (payload : list Z).

Definition read_frame (pos : nat) (bytes : list Z) : FrameRead :=
  if bool_decide (length bytes < pos + RECORD_HEADER_LEN)%nat then FrShort
  else
    match from_le_bytes (slice pos (pos + 4) bytes), from_le_bytes (slice (pos + 4) (pos + 8) bytes) with
    | Some len, Some crc =>
        if (MAX_RECORD_LEN <? len)
           || (Z.of_nat (length bytes) <? Z.of_nat (pos + RECORD_HEADER_LEN) + len)
        then FrShort
        else
          let payload_start := (pos + RECORD_HEADER_LEN)%nat in
          let payload := slice payload_start (payload_start + Z.to_nat len) bytes in
          if crc_hash payload =? crc then FrPayload payload else FrBadCrc
    | _, _ => FrShort (* unreachable: both slices have four bytes *)
    end.

(** ** Reading a segment without modifying it *)

Fixpoint decode_wal_loop (fuel : nat) (bytes : list Z) (pos : nat) (records : list (nat * WalRecord))
    : Result (list (nat * WalRecord)) WalError :=
  match fuel with
  | O => Ok records
  | S fuel =>
      if bool_decide (length bytes <= pos)%nat then Ok records
      else
        match read_frame pos bytes with
        | FrShort => Ok records
        | FrBadCrc => Err EInvalidData
        | FrPayload payload =>
            match decode_record payload with
            | None => Err EInvalidData
            | Some record =>
                decode_wal_loop fuel bytes (pos + RECORD_HEADER_LEN + length payload)
                  (records ++ [(pos, record)])
            end
        end
  end.

(** Every turn consumes at least a frame header, so one turn per byte is enough. *)
Definition read_wal_bytes (bytes : list Z) : Result (list (nat * WalRecord)) WalError :=
  match check_header bytes with
  | HeaderOk => decode_wal_loop (S (length bytes)) bytes SEGMENT_HEADER_LEN []
  | _ => Err EInvalidData
  end.

(** ** Recovery of one segment *)

(** What recovery accumulates: the index and the parts of [RuntimeState] found in segments, the
    expected next index, and the bounds of the segment being read. *)
Record Scan : Type := mkScan {
  sc_index : list (Z * RecordLoc);
  sc_last_log_id : option LogIdOf;
  sc_committed : option LogIdOf;
  sc_expected : option Z;
  sc_first : option Z;
  sc_last : option Z;
}.

Definition Scan_new : Scan := mkScan [] None None None None None.

(** The record at [pos]; [None] is a gap in the indices, which is treated like a torn record. *)
Definition recover_record (seq : Z) (pos : nat) (len : Z) (record : WalRecord) (sc : Scan) : option Scan :=
  match record with
  | WalEntry entry =>
      let index_value := entry_index entry in
      if match sc_expected sc with Some expected => negb (index_value =? expected) | None => false end
      then None
      else
        Some (mkScan (bt_insert index_value (mkLoc seq pos len) (sc_index sc))
                (Some (entry_log_id entry)) (sc_committed sc) (Some (wrap_u64 (index_value + 1)))
                (match sc_first sc with None => Some index_value | first => first end)
                (Some index_value))
  | WalCommitted committed =>
      Some (mkScan (sc_index sc) (sc_last_log_id sc) committed (sc_expected sc)
              (sc_first sc) (sc_last sc))
  end.

(** The record loop: what was found, the end of the valid records, and whether a record was torn. *)
Fixpoint recover_loop (fuel : nat) (seq : Z) (bytes : list Z) (pos : nat) (sc : Scan)
    : Scan * nat * bool :=
  match fuel with
  | O => (sc, pos, false)
  | S fuel =>
      if bool_decide (length bytes <= pos)%nat then (sc, pos, false)
      else
        match read_frame pos bytes with
        | FrPayload payload =>
            match decode_record payload with
            | Some record =>
                match recover_record seq pos (Z.of_nat (length payload)) record sc with
                | Some sc => recover_loop fuel seq bytes (pos + RECORD_HEADER_LEN + length payload) sc
                | None => (sc, pos, true)
                end
            | None => (sc, pos, true)
            end
        | _ => (sc, pos, true)
        end
  end.

Record RecoveredSegment : Type := mkRecovered { rs_meta : option SegmentMeta; rs_stop : bool }.

Definition discard : RecoveredSegment := mkRecovered None true.

(** One segment: what becomes of it, its bytes afterwards, and what was found. *)
Definition recover_segment (recover_corrupt is_last : bool) (seq : Z) (bytes : list Z) (sc : Scan)
    : Result (RecoveredSegment * list Z * Scan) WalError :=
  let sc := mkScan (sc_index sc) (sc_last_log_id sc) (sc_committed sc) (sc_expected sc) None None in
  match check_header bytes with
  | HeaderShort =>
      if is_last then Ok (mkRecovered (Some (SegmentMeta_new seq)) false, segment_header, sc)
      else if recover_corrupt then Ok (discard, bytes, sc) else Err EInvalidData
  | HeaderBadMagic | HeaderBadVersion _ =>
      if recover_corrupt then Ok (discard, bytes, sc) else Err EInvalidData
  | HeaderOk =>
      let '(sc, valid_tail, torn) := recover_loop (S (length bytes)) seq bytes SEGMENT_HEADER_LEN sc in
      let meta := mkMeta seq (sc_first sc) (sc_last sc) in
      if torn then
        if negb is_last && negb recover_corrupt then Err EInvalidData
        else Ok (mkRecovered (Some meta) (negb is_last), take valid_tail bytes, sc)
      else Ok (mkRecovered (Some meta) false, bytes, sc)
  end.

(** All segments in order: the directory and segment table afterwards, and what was found. A
    segment that stops recovery takes every later one with it. *)
Fixpoint recover_segments (recover_corrupt : bool) (found : list (Z * list Z)) (sc : Scan)
    : Result (list (Z * list Z) * list SegmentMeta * Scan) WalError :=
  match found with
  | [] => Ok ([], [], sc)
  | (seq, bytes) :: later =>
      let is_last := match later with [] => true | _ => false end in
      match recover_segment recover_corrupt is_last seq bytes sc with
      | Err e => Err e
      | Ok (recovered, bytes, sc) =>
          let metas := match rs_meta recovered with Some meta => [meta] | None => [] end in
          let here := match rs_meta recovered with
                      | None => if rs_stop recovered then [] else [(seq, bytes)]
                      | Some _ => [(seq, bytes)]
                      end in
          if rs_stop recovered then Ok (here, metas, sc)
          else
            match recover_segments recover_corrupt later sc with
            | Err e => Err e
            | Ok (files, later_metas, sc) => Ok (here ++ files, metas ++ later_metas, sc)
            end
      end
  end.

(** ** Opening a log *)

(** What a segment below the purge marker looks like: nothing in it is above [purged]. *)
Definition covered_by (purged : Z) (meta : SegmentMeta) : bool :=
  match meta_last_index meta with None => true | Some last => last <=? purged end.

Definition id_above (purged : Z) (id : option LogIdOf) : option LogIdOf :=
  match id with
  | Some last => if id_index last <=? purged then None else id
  | None => None
  end.

(** Drop what the purge marker covers: a crash may have left it behind. *)
Definition self_heal (last_purged : option LogIdOf) (files : list (Z * list Z))
    (metas : list SegmentMeta) (sc : Scan)
    : list (Z * list Z) * list SegmentMeta * list (Z * RecordLoc) * option LogIdOf :=
  match last_purged with
  | None => (files, metas, sc_index sc, sc_last_log_id sc)
  | Some id =>
      let purged := id_index id in
      let gone := meta_seq <$> filter (fun m => covered_by purged m = true) metas in
      (remove_files gone files, filter (fun m => covered_by purged m = false) metas,
       filter (fun e => purged < e.1) (sc_index sc), id_above purged (sc_last_log_id sc))
  end.

(** At least one segment: a fresh log starts with segment 0. *)
Definition ensure_segment (files : list (Z * list Z)) (metas : list SegmentMeta)
    : list (Z * list Z) * list SegmentMeta :=
  match metas with
  | [] => (bt_insert 0 segment_header files, [SegmentMeta_new 0])
  | _ => (files, metas)
  end.

(** [open_with_segment_size_and_fsync]. *)
Definition open_log (segment_size : Z) (fsync_ms : option Z) (dir : WalDir) : Result LogStore WalError :=
  let fsync := FsyncPolicy_from_option fsync_ms in
  let recover_corrupt := negb (is_every_append fsync) in
  match recover_segments recover_corrupt (wd_segments dir) Scan_new with
  | Err e => Err e
  | Ok (files, metas, sc) =>
      match
        match wd_state dir with
        | None => Some (mkPersisted None None)
        | Some bytes => decode_state bytes
        end
      with
      | None => Err EInvalidData
      | Some persisted =>
          let '(files, metas, index, last_log_id) :=
            self_heal (ps_last_purged persisted) files metas sc in
          let '(files, metas) := ensure_segment files metas in
          match last metas with
          | None => Err ENotFound (* unreachable: a segment exists *)
          | Some active =>
              let writer_len := length (default [] (file_of (meta_seq active) files)) in
              Ok (mkLogStore (mkWalDir files (wd_state dir)) segment_size fsync true index
                    (ps_vote persisted) (sc_committed sc) (ps_last_purged persisted) last_log_id
                    (meta_seq active) writer_len metas)
          end
      end
  end.

(** ** Appending *)

(** A new active segment. [create_new] refuses a file that exists. *)
Definition rotate s : Result LogStore WalError :=
  let seq := wrap_u32 (ls_writer_seq s + 1) in
  match file_of seq (wd_segments (ls_dir s)) with
  | Some _ => Err EAlreadyExists
  | None =>
      let s := set_files (bt_insert seq segment_header (wd_segments (ls_dir s))) s in
      Ok (set_segments (ls_segments s ++ [SegmentMeta_new seq]) (set_writer seq SEGMENT_HEADER_LEN s))
  end.

(** Rotate when [len] more bytes do not fit. *)
Definition make_room (len : nat) s : Result LogStore WalError :=
  if bool_decide (SEGMENT_HEADER_LEN < ls_writer_len s)%nat
     && (ls_segment_size s <? Z.of_nat (ls_writer_len s + len))
  then rotate s else Ok s.

(** What the write of an append meets: success, a [write_all] that fails after some bytes, or an
    fsync that fails. *)
Inductive WriteIo : Type := IoOk | IoWriteFails (written : nat) | IoSyncFails.

(** The writer is in append mode: bytes go to the end of the file. *)
Definition write_bytes (bytes : list Z) s : LogStore :=
  set_files (update_file (ls_writer_seq s) (fun file => file ++ bytes) (wd_segments (ls_dir s))) s.

Definition set_len (len : nat) s : LogStore :=
  set_files (update_file (ls_writer_seq s) (take len) (wd_segments (ls_dir s))) s.

(** The bytes of a batch, and where each entry lies in them. *)
Fixpoint encode_entries (entries : list LogEntry) (buf : list Z) (locs : list (Z * nat * Z))
    : option (list Z * list (Z * nat * Z)) :=
  match entries with
  | [] => Some (buf, locs)
  | entry :: entries =>
      match encode_record (WalEntry entry) with
      | None => None
      | Some payload =>
          encode_entries entries (buf ++ frame payload)
            (locs ++ [(entry_index entry, length buf, wrap_u32 (Z.of_nat (length payload)))])
      end
  end.

Definition note_appended (seq : Z) (first_index last_index : option Z) (meta : SegmentMeta) : SegmentMeta :=
  if meta_seq meta =? seq then
    mkMeta seq (match meta_first_index meta with None => first_index | first => first end) last_index
  else meta.

Definition index_batch (seq : Z) (base : nat) (locs : list (Z * nat * Z)) (index : list (Z * RecordLoc))
    : list (Z * RecordLoc) :=
  foldl (fun index '(i, offset, len) => bt_insert i (mkLoc seq (base + offset) len) index) index locs.

(** A batch on a writer with room for it. *)
Definition append_batch (io : WriteIo) (entries : list LogEntry) (buf : list Z)
    (locs : list (Z * nat * Z)) s : LogStore * Result unit WalError :=
  let seq := ls_writer_seq s in
  let base := ls_writer_len s in
  let last_log_id := entry_log_id <$> last entries in
  match io with
  | IoWriteFails written =>
      (set_writer seq base (set_len base (write_bytes (take written buf) s)), Err EIo)
  | _ =>
      let s := set_dirty true (write_bytes buf s) in
      if is_every_append (ls_fsync s) && match io with IoSyncFails => true | _ => false end then
        (set_writer seq base (set_len base s), Err EIo)
      else
        let s := if is_every_append (ls_fsync s) then set_dirty false s else s in
        let s := set_writer seq (base + length buf) s in
        let s := set_segments (note_appended seq (entry_index <$> head entries) (id_index <$> last_log_id)
                                 <$> ls_segments s) s in
        let s := set_index (index_batch seq base locs (ls_index s)) s in
        (set_runtime (ls_vote s) (ls_committed s) (ls_last_purged s) last_log_id s, Ok ())
  end.

Definition append_blocking (io : WriteIo) (entries : list LogEntry) s : LogStore * Result unit WalError :=
  match entries with
  | [] => (s, Ok ())
  | _ =>
      match encode_entries entries [] [] with
      | None => (s, Err EInvalidData)
      | Some (buf, locs) =>
          match make_room (length buf) s with
          | Err e => (s, Err e)
          | Ok s => append_batch io entries buf locs s
          end
      end
  end.

(** A commit marker on a writer with room for it. *)
Definition append_marker (io : WriteIo) (payload : list Z) (committed : option LogIdOf) s
    : LogStore * Result unit WalError :=
  let base := ls_writer_len s in
  match io with
  | IoWriteFails written =>
      (set_writer (ls_writer_seq s) base (set_len base (write_bytes (take written (frame payload)) s)),
       Err EIo)
  | _ =>
      let s := set_dirty true (write_bytes (frame payload) s) in
      let s := set_writer (ls_writer_seq s) (base + RECORD_HEADER_LEN + length payload) s in
      (set_runtime (ls_vote s) committed (ls_last_purged s) (ls_last_log_id s) s, Ok ())
  end.

(** [save_committed_blocking]: a marker, never fsynced on its own. *)
Definition save_committed_blocking (io : WriteIo) (committed : option LogIdOf) s
    : LogStore * Result unit WalError :=
  match encode_record (WalCommitted committed) with
  | None => (s, Err EInvalidData)
  | Some payload =>
      match make_room (length payload) s with
      | Err e => (s, Err e)
      | Ok s => append_marker io payload committed s
      end
  end.

(** ** Vote, purge, truncate *)

(** [write_state_file]: temp file and rename, so the old or the new bytes are there. *)
Definition write_state_file (p : PersistedState) s : Result LogStore WalError :=
  match encode_state p with
  | None => Err EInvalidData
  | Some bytes => Ok (set_state_file bytes s)
  end.

Definition save_vote_blocking (vote : VoteOf) s : LogStore * Result unit WalError :=
  match write_state_file (mkPersisted (Some vote) (ls_last_purged s)) s with
  | Err e => (s, Err e)
  | Ok s => (set_runtime (Some vote) (ls_committed s) (ls_last_purged s) (ls_last_log_id s) s, Ok ())
  end.

Definition find_meta (seq : Z) (metas : list SegmentMeta) : option SegmentMeta :=
  List.find (fun m => meta_seq m =? seq) metas.

(** The active segment when the purge covers all of it: rotate before it is deleted. *)
Definition rotate_covered (purged : Z) s : Result LogStore WalError :=
  match find_meta (ls_writer_seq s) (ls_segments s) ≫= meta_last_index with
  | Some last => if last <=? purged then rotate s else Ok s
  | None => Ok s
  end.

Definition purge_covered (purged : Z) s : LogStore :=
  let doomed m := negb (meta_seq m =? ls_writer_seq s) && covered_by purged m in
  let covered := meta_seq <$> filter (fun m => doomed m = true) (ls_segments s) in
  set_segments (filter (fun m => meta_seq m ∉ covered) (ls_segments s))
    (set_files (remove_files covered (wd_segments (ls_dir s))) s).

(** The rest of a purge, once there is an active segment it does not cover. *)
Definition finish_purge (log_id : LogIdOf) s : LogStore :=
  let s := purge_covered (id_index log_id) s in
  let s := set_index (filter (fun e => id_index log_id < e.1) (ls_index s)) s in
  set_runtime (ls_vote s) (ls_committed s) (Some log_id) (id_above (id_index log_id) (ls_last_log_id s)) s.

Definition purge_blocking (log_id : LogIdOf) s : LogStore * Result unit WalError :=
  if match ls_last_purged s with Some prev => id_index log_id <? id_index prev | None => false end
  then (s, Err EInvalidInput)
  else
    match write_state_file (mkPersisted (ls_vote s) (Some log_id)) s with
    | Err e => (s, Err e)
    | Ok s =>
        match rotate_covered (id_index log_id) s with
        | Err e => (s, Err e)
        | Ok s => (finish_purge log_id s, Ok ())
        end
    end.

(** The last index entry at or below [upto]. *)
Definition last_upto (upto : Z) (index : list (Z * RecordLoc)) : option (Z * RecordLoc) :=
  last (filter (fun e => e.1 <= upto) index).

(** Where the log is cut: behind the record of the last kept entry, or behind the first header. *)
Definition cut_point (keep_upto : option Z) s : Z * nat :=
  match keep_upto ≫= fun upto => last_upto upto (ls_index s) with
  | Some (_, loc) => (loc_seq loc, loc_offset loc + RECORD_HEADER_LEN + Z.to_nat (loc_len loc))%nat
  | None => (default 0 (meta_seq <$> head (ls_segments s)), SEGMENT_HEADER_LEN)
  end.

(** [Disk::reopen]: [set_len] keeps [len] bytes, or extends with zeros. *)
Definition reopen (seq : Z) (len : nat) s : Result LogStore WalError :=
  match find_meta seq (ls_segments s) with
  | None => Err ENotFound
  | Some _ =>
      let resize file := take len file ++ replicate (len - length file) 0 in
      Ok (set_writer seq len (set_files (update_file seq resize (wd_segments (ls_dir s))) s))
  end.

(** Segments behind the cut are deleted, oldest first. *)
Definition drop_stale (seq : Z) s : LogStore :=
  let stale := meta_seq <$> filter (fun m => seq < meta_seq m) (ls_segments s) in
  set_segments (filter (fun m => meta_seq m ∉ stale) (ls_segments s))
    (set_files (remove_files stale (wd_segments (ls_dir s))) s).

Definition keep_index (keep_upto : option Z) (index : list (Z * RecordLoc)) : list (Z * RecordLoc) :=
  match keep_upto with
  | Some upto => filter (fun e => e.1 <= upto) index
  | None => []
  end.

(** The bounds of the cut segment, from the index. *)
Definition rebound (seq : Z) (index : list (Z * RecordLoc)) (meta : SegmentMeta) : SegmentMeta :=
  if meta_seq meta =? seq then
    mkMeta seq
      (fst <$> List.find (fun e => loc_seq e.2 =? seq) index)
      (match last index with
       | Some (i, loc) => if loc_seq loc =? seq then Some i else None
       | None => None
       end)
  else meta.

Definition truncated_last (new_last_index : option Z) (last_log_id : option LogIdOf) : option LogIdOf :=
  match new_last_index, last_log_id with
  | Some last_index, Some log_id => if last_index =? id_index log_id then Some log_id else None
  | _, _ => None
  end.

Definition truncated_committed (last_log_id committed : option LogIdOf) : option LogIdOf :=
  match last_log_id with
  | Some last =>
      match committed with
      | Some c => if id_index last <? id_index c then last_log_id else committed
      | None => committed
      end
  | None => None
  end.

(** The rest of a truncation, once the cut segment is reopened. *)
Definition finish_truncate (last_log_id : option LogIdOf) (seq : Z) s : LogStore :=
  let s := set_index (keep_index (id_index <$> last_log_id) (ls_index s)) s in
  let new_last_index := fst <$> last (ls_index s) in
  let s := set_segments (rebound seq (ls_index s) <$> ls_segments s) s in
  let new_last := truncated_last new_last_index last_log_id in
  set_runtime (ls_vote s) (truncated_committed new_last (ls_committed s)) (ls_last_purged s) new_last s.

Definition truncate_after_blocking (last_log_id : option LogIdOf) s : LogStore * Result unit WalError :=
  let '(seq, len) := cut_point (id_index <$> last_log_id) s in
  match reopen seq len (drop_stale seq s) with
  | Err e => (s, Err e)
  | Ok s => (finish_truncate last_log_id seq s, Ok ())
  end.

(** ** Reading *)

(** [read_exact_at]. *)
Definition read_exact_at (file : list Z) (offset len : nat) : Result (list Z) WalError :=
  if bool_decide (length file < offset + len)%nat then Err EUnexpectedEof
  else Ok (slice offset (offset + len) file).

(** The run of records that lie back to back from [end_] on in segment [seq]: the run, its end,
    and the rest. *)
Fixpoint contiguous_run (seq : Z) (end_ : nat) (locs : list RecordLoc)
    : list RecordLoc * nat * list RecordLoc :=
  match locs with
  | loc :: later =>
      if (loc_seq loc =? seq) && bool_decide (loc_offset loc = end_) then
        let '(run, end_, rest) :=
          contiguous_run seq (end_ + RECORD_HEADER_LEN + Z.to_nat (loc_len loc)) later in
        (loc :: run, end_, rest)
      else ([], end_, locs)
  | [] => ([], end_, [])
  end.

(** The records of a run in the bytes read for it. *)
Fixpoint parse_run (buf : list Z) (cursor : nat) (run : list RecordLoc) (out : list LogEntry)
    : Result (list LogEntry) WalError :=
  match run with
  | [] => Ok out
  | loc :: run =>
      let header_end := (cursor + RECORD_HEADER_LEN)%nat in
      match from_le_bytes (slice cursor (cursor + 4) buf), from_le_bytes (slice (cursor + 4) header_end buf) with
      | Some len, Some crc =>
          if negb (len =? loc_len loc) then Err EInvalidData
          else
            let payload_end := (header_end + Z.to_nat len)%nat in
            let payload := slice header_end payload_end buf in
            if negb (crc_hash payload =? crc) then Err EInvalidData
            else
              match decode_record payload with
              | None => Err EInvalidData
              | Some (WalEntry entry) => parse_run buf payload_end run (out ++ [entry])
              | Some (WalCommitted _) => parse_run buf payload_end run out
              end
      | _, _ => Err EUnexpectedEof (* unreachable: the buffer holds the whole run *)
      end
  end.

(** One turn per run; a run is not empty, so one turn per location is enough. *)
Fixpoint read_runs (fuel : nat) (s : LogStore) (locs : list RecordLoc) (out : list LogEntry)
    : Result (list LogEntry) WalError :=
  match fuel, locs with
  | _, [] => Ok out
  | O, _ => Ok out
  | S fuel, first :: later =>
      let '(run, end_, rest) :=
        contiguous_run (loc_seq first)
          (loc_offset first + RECORD_HEADER_LEN + Z.to_nat (loc_len first)) later in
      match find_meta (loc_seq first) (ls_segments s) ≫= fun m => file_of (meta_seq m) (wd_segments (ls_dir s)) with
      | None => Err ENotFound
      | Some file =>
          match read_exact_at file (loc_offset first) (end_ - loc_offset first) with
          | Err e => Err e
          | Ok buf =>
              match parse_run buf 0 (first :: run) out with
              | Err e => Err e
              | Ok out => read_runs fuel s rest out
              end
          end
      end
  end.

Definition read_entries_blocking (locs : list RecordLoc) s : Result (list LogEntry) WalError :=
  read_runs (length locs) s locs [].

(** [std::ops::Bound], and the ranges [BTreeMap::range] accepts. *)
Inductive Bound : Type := Included (i : Z) | Excluded (i : Z) | Unbounded.

Definition in_range (lo hi : Bound) (i : Z) : bool :=
  (match lo with Included a => a <=? i | Excluded a => a <? i | Unbounded => true end) &&
  (match hi with Included b => i <=? b | Excluded b => i <? b | Unbounded => true end).

Definition range_panics (lo hi : Bound) : bool :=
  match lo, hi with
  | Excluded a, Excluded b => b <=? a
  | Included a, Included b | Included a, Excluded b | Excluded a, Included b => b <? a
  | _, _ => false
  end.

Definition try_get_log_entries (lo hi : Bound) s : Comp (Result (list LogEntry) WalError) :=
  if range_panics lo hi then Panic
  else
    match snd <$> filter (fun e => in_range lo hi e.1 = true) (ls_index s) with
    | [] => Ret (Ok [])
    | locs => Ret (read_entries_blocking locs s)
    end.

(** [get_log_state]: the last log id falls back to the purge marker. *)
Definition get_log_state s : option LogIdOf * option LogIdOf :=
  (ls_last_purged s, match ls_last_log_id s with None => ls_last_purged s | id => id end).

Definition read_vote s : option VoteOf := ls_vote s.

Definition read_committed s : option LogIdOf := ls_committed s.
End LogStore.
