(* ===== verification/LogStoreInv.v ===== *)
(** * Theory of the write-ahead log: frames, recovery and the invariant

    A segment that recovery leaves alone is its header and whole frames ([seg_bytes]); a directory
    of such segments is described by their payloads. The file relates recovery of arbitrary and of
    torn directories to these descriptions, and gives the invariant [wal_ok] of an open log. *)

From stdpp Require Import list.
From S2P Require Import Prelude BTree SnapshotFile LogStore.

(** ** Slices and little-endian numbers *)

Lemma slice_app_mid {A B : list Z} (l : list Z) n :
  n = (length A + length l)%nat -> slice (length A) n (A ++ l ++ B) = l.
Proof. intros ->. unfold slice. by rewrite drop_app_length, Nat.add_comm, Nat.add_sub, take_app_length. Qed.

Lemma to_le_bytes_length v : length (to_le_bytes v) = 4%nat.
Proof. apply to_le_bytes_bytes. Qed.

Lemma from_le_bytes_four l : length l = 4%nat -> is_Some (from_le_bytes l).
Proof. destruct l as [|a [|b [|c [|d [|? ?]]]]]; simpl; try discriminate. by eexists. Qed.

Lemma byte_bits b i : is_byte b -> 8 <= i -> Z.testbit b i = false.
Proof. intros Hb Hi. by apply (testbit_high b 8). Qed.

(** A number read from four bytes is stored as those bytes. *)
Lemma to_from_le_bytes l v : Forall is_byte l -> from_le_bytes l = Some v -> to_le_bytes v = l /\ 0 <= v < 2 ^ 32.
Proof.
  destruct l as [|a [|b [|c [|d [|? ?]]]]]; simpl; try discriminate. intros Hl [= <-].
  rewrite !Forall_cons in Hl. destruct Hl as (Ha & Hb & Hc & Hd & _). unfold is_byte in *.
  assert (E : Z.lor (Z.lor a (Z.shiftl b 8)) (Z.lor (Z.shiftl c 16) (Z.shiftl d 24)) =
              a + b * 2 ^ 8 + c * 2 ^ 16 + d * 2 ^ 24).
  { rewrite !Z.shiftl_mul_pow2 by lia.
    assert (Hlor : forall x y n, 0 <= n -> 0 <= x < 2 ^ n -> Z.lor x (y * 2 ^ n) = x + y * 2 ^ n).
    { intros x y n Hn Hx. rewrite <- Z.add_lor_land.
      assert (Hz : Z.land x (y * 2 ^ n) = 0); [|lia].
      apply Z.bits_inj'. intros i Hi. rewrite Z.land_spec, Z.bits_0, Z.mul_pow2_bits by lia.
      destruct (Z_lt_le_dec i n) as [?|?].
      - by rewrite (Z.testbit_neg_r y), andb_false_r by lia.
      - by rewrite (testbit_high x n). }
    rewrite (Hlor a b 8) by lia.
    replace (d * 2 ^ 24) with ((d * 2 ^ 8) * 2 ^ 16) by lia.
    replace (Z.lor (c * 2 ^ 16) (d * 2 ^ 8 * 2 ^ 16)) with (Z.lor c (d * 2 ^ 8) * 2 ^ 16)
      by (rewrite <- !Z.shiftl_mul_pow2 by lia; by rewrite Z.shiftl_lor).
    rewrite (Hlor c d 8), (Hlor (a + b * 2 ^ 8) _ 16) by lia. lia. }
  rewrite E. split; [|lia]. unfold to_le_bytes. rewrite !land_255, !Z.shiftr_div_pow2 by lia.
  f_equal; [|f_equal; [|f_equal; [|f_equal]]]; Z.div_mod_to_equations; lia.
Qed.

Lemma to_le_bytes_inj v w : 0 <= v < 2 ^ 32 -> 0 <= w < 2 ^ 32 -> to_le_bytes v = to_le_bytes w -> v = w.
Proof.
  intros Hv Hw E. apply (f_equal from_le_bytes) in E. rewrite !from_to_le_bytes in E by done.
  by injection E.
Qed.

Lemma filter_fmap_key {A B} (f : A -> B) (P : B -> Prop) (Q : A -> Prop)
    `{forall x, Decision (P x)} `{forall x, Decision (Q x)} (l : list A) :
  (forall a, P (f a) <-> Q a) -> filter P (f <$> l) = f <$> filter Q l.
Proof.
  intros E. induction l as [|a l IH]; [done|]. rewrite fmap_cons, !filter_cons.
  destruct (decide (P (f a))) as [Hp|Hp], (decide (Q a)) as [Hq|Hq];
    rewrite ?fmap_cons, ?IH; try done; exfalso; naive_solver.
Qed.

(** An entry and where it lies. *)
Notation located := (LogEntry * RecordLoc)%type.

Section Theory.
Context `{!RaftLogTypes, !RaftLogLaws, !WalCodec, !WalCodecLaws, !Crc32, !Crc32Laws}.
Implicit Types (p q : list Z) (ps : list (list Z)).

(** ** Frames *)

Definition payload_ok (p : list Z) : Prop :=
  Z.of_nat (length p) <= MAX_RECORD_LEN /\ is_Some (decode_record p) /\ Forall is_byte p.

Lemma frame_length p : length (frame p) = (RECORD_HEADER_LEN + length p)%nat.
Proof. unfold frame. by rewrite !length_app, !to_le_bytes_length. Qed.

Lemma len_range p : Z.of_nat (length p) <= MAX_RECORD_LEN -> 0 <= Z.of_nat (length p) < 2 ^ 32.
Proof. unfold MAX_RECORD_LEN. lia. Qed.

Lemma frame_bytes p : Forall is_byte p -> Forall is_byte (frame p).
Proof.
  intros Hp. unfold frame. repeat (apply Forall_app; split); try apply to_le_bytes_bytes. done.
Qed.

(** The eight bytes of a frame header, wherever the frame stands. *)
Lemma frame_header_len pre p post :
  Z.of_nat (length p) <= MAX_RECORD_LEN ->
  from_le_bytes (slice (length pre) (length pre + 4) (pre ++ frame p ++ post)) = Some (Z.of_nat (length p)).
Proof.
  intros Hl. unfold frame. rewrite <- !app_assoc, slice_app_mid by (by rewrite to_le_bytes_length).
  apply from_to_le_bytes, len_range, Hl.
Qed.

Lemma frame_header_crc pre p post :
  from_le_bytes (slice (length pre + 4) (length pre + 8) (pre ++ frame p ++ post)) = Some (crc_hash p).
Proof.
  unfold frame. rewrite <- !app_assoc, (app_assoc pre).
  replace (length pre + 4)%nat with (length (pre ++ to_le_bytes (Z.of_nat (length p))))
    by (by rewrite length_app, to_le_bytes_length).
  rewrite slice_app_mid by (rewrite length_app, !to_le_bytes_length; lia).
  apply from_to_le_bytes, crc_range.
Qed.

Lemma frame_payload pre p post n m :
  n = (length pre + RECORD_HEADER_LEN)%nat -> m = (n + length p)%nat ->
  slice n m (pre ++ frame p ++ post) = p.
Proof.
  intros -> ->. unfold frame. rewrite <- !app_assoc, !(app_assoc pre), (app_assoc (pre ++ _)).
  match goal with |- slice ?k _ (?l ++ _ ++ _) = _ => replace k with (length l) end;
    [by apply slice_app_mid|]. rewrite !length_app, !to_le_bytes_length. unfold RECORD_HEADER_LEN. lia.
Qed.

Lemma read_frame_here pre p post :
  Z.of_nat (length p) <= MAX_RECORD_LEN ->
  read_frame (length pre) (pre ++ frame p ++ post) = FrPayload p.
Proof.
  intros Hl. unfold read_frame.
  rewrite bool_decide_eq_false_2 by (rewrite !length_app, frame_length; lia).
  rewrite frame_header_len, frame_header_crc by done.
  destruct (Z.ltb_spec MAX_RECORD_LEN (Z.of_nat (length p))) as [?|_]; [lia|]. cbn [orb].
  rewrite (proj2 (Z.ltb_ge _ _)) by (rewrite !length_app, frame_length; lia).
  rewrite (frame_payload pre p post) by lia. by rewrite Z.eqb_refl.
Qed.

(** A frame that was cut off is not read. *)
Lemma read_frame_torn pre p n :
  Z.of_nat (length p) <= MAX_RECORD_LEN -> (n < length (frame p))%nat ->
  read_frame (length pre) (pre ++ take n (frame p)) = FrShort.
Proof.
  intros Hl Hn. unfold read_frame. case_bool_decide as Hs; [done|].
  assert (Hn8 : (8 <= n)%nat).
  { rewrite length_app, length_take in Hs. unfold RECORD_HEADER_LEN in Hs. lia. }
  assert (Et : take n (frame p) =
            to_le_bytes (Z.of_nat (length p)) ++ to_le_bytes (crc_hash p) ++ take (n - 8) p).
  { unfold frame. rewrite !take_app, !to_le_bytes_length.
    rewrite (take_ge (to_le_bytes (Z.of_nat _))), (take_ge (to_le_bytes (crc_hash _)))
      by (rewrite to_le_bytes_length; lia).
    replace (n - 4 - 4)%nat with (n - 8)%nat by lia. done. }
  rewrite Et. rewrite slice_app_mid by (by rewrite to_le_bytes_length).
  rewrite from_to_le_bytes by (by apply len_range).
  destruct (from_le_bytes _); [|done].
  rewrite (proj2 (Z.ltb_lt _ (Z.of_nat (_ + _) + _))), orb_true_r; [done|].
  rewrite frame_length in Hn. rewrite !length_app, !to_le_bytes_length, length_take.
  unfold RECORD_HEADER_LEN in *. lia.
Qed.

(** Reading a frame from arbitrary bytes finds exactly its image. *)
Lemma read_frame_inv pos bytes p :
  Forall is_byte bytes -> read_frame pos bytes = FrPayload p ->
  drop pos bytes = frame p ++ drop (pos + RECORD_HEADER_LEN + length p) bytes /\
  Z.of_nat (length p) <= MAX_RECORD_LEN /\ Forall is_byte p.
Proof.
  intros Hb. unfold read_frame. case_bool_decide as Hs; [done|]. unfold RECORD_HEADER_LEN in *.
  destruct (from_le_bytes (slice pos _ _)) as [len|] eqn:El; [|done].
  destruct (from_le_bytes (slice (pos + 4) _ _)) as [crc|] eqn:Ec; [|done].
  assert (Hsl : forall i j, Forall is_byte (slice i j bytes)).
  { intros i j. unfold slice. by apply Forall_take, Forall_drop. }
  apply to_from_le_bytes in El as [El Hlen]; [|done]. apply to_from_le_bytes in Ec as [Ec _]; [|done].
  destruct (Z.ltb_spec MAX_RECORD_LEN len) as [?|Hmax]; [done|]. cbn [orb].
  destruct (Z.ltb_spec (Z.of_nat (length bytes)) (Z.of_nat (pos + 8) + len)) as [?|Hfit]; [done|].
  set (payload := slice _ _ _).
  assert (Elen : Z.of_nat (length payload) = len).
  { unfold payload, slice. rewrite length_take, length_drop. lia. }
  destruct (Z.eqb_spec (crc_hash payload) crc) as [Ecrc|?]; [|done]. intros [= <-].
  split; [|split; [lia|apply Hsl]].
  unfold frame. rewrite Elen, Ecrc, El, Ec, <- !app_assoc.
  replace len with (Z.of_nat (length payload)) in Hfit.
  assert (Hcut : forall i n : nat, (i + n <= length bytes)%nat ->
            drop i bytes = slice i (i + n) bytes ++ drop (i + n) bytes).
  { intros i n Hin. unfold slice. replace (i + n - i)%nat with n by lia.
    by rewrite <- drop_drop, take_drop. }
  rewrite (Hcut pos 4%nat) by lia. f_equal.
  rewrite (Hcut (pos + 4)%nat 4%nat) by lia. replace (pos + 4 + 4)%nat with (pos + 8)%nat by lia. f_equal.
  rewrite (Hcut (pos + 8)%nat (length payload)) at 1 by lia. f_equal.
  unfold payload at 2. f_equal. lia.
Qed.

(** Two frames at the front of the same bytes are the same frame. *)
Lemma frame_inj p q x y :
  Z.of_nat (length p) <= MAX_RECORD_LEN -> Z.of_nat (length q) <= MAX_RECORD_LEN ->
  frame p ++ x = frame q ++ y -> p = q /\ x = y.
Proof.
  intros Hp Hq E. pose proof (read_frame_here [] p x Hp) as Rp. pose proof (read_frame_here [] q y Hq) as Rq.
  cbn [length app] in Rp, Rq. rewrite E, Rq in Rp. injection Rp as ->. split; [done|]. by apply app_inv_head in E.
Qed.

Definition frames (ps : list (list Z)) : list Z := concat (frame <$> ps).

#[global] Arguments frames : simpl never.

Lemma frames_nil : frames [] = [].
Proof. done. Qed.

Lemma frames_cons p ps : frames (p :: ps) = frame p ++ frames ps.
Proof. done. Qed.

Lemma frames_app ps1 ps2 : frames (ps1 ++ ps2) = frames ps1 ++ frames ps2.
Proof. unfold frames. by rewrite fmap_app, concat_app. Qed.

Lemma frames_length_ge ps : (length ps <= length (frames ps))%nat.
Proof.
  induction ps as [|p ps IH]; [done|]. rewrite frames_cons, length_app, frame_length. cbn [length].
  unfold RECORD_HEADER_LEN. lia.
Qed.

Lemma frames_prefix ps ps' :
  Forall payload_ok ps -> Forall payload_ok ps' ->
  frames ps' `prefix_of` frames ps -> ps' `prefix_of` ps.
Proof.
  intros Hps Hps'. revert ps Hps. induction Hps' as [|p' ps' [Hp' _] _ IH]; intros ps Hps [z E];
    [apply prefix_nil|].
  destruct Hps as [|p ps [Hp _] Hps].
  { apply (f_equal length) in E. rewrite frames_cons, !length_app, frame_length in E.
    unfold RECORD_HEADER_LEN in E. rewrite frames_nil in E. cbn [length] in E. lia. }
  rewrite !frames_cons, <- app_assoc in E.
  apply frame_inj in E as [-> E]; [|done..]. apply prefix_cons, (IH ps Hps). by exists z.
Qed.

(** Any cut through frames leaves whole frames and a part of the next one. *)
Lemma frames_cut ps : forall n, (n <= length (frames ps))%nat ->
  exists ps1 ps2 m, ps = ps1 ++ ps2 /\
    ((take n (frames ps) = frames ps1 /\ m = 0%nat) \/
     exists p ps3, ps2 = p :: ps3 /\ (m < length (frame p))%nat /\
       take n (frames ps) = frames ps1 ++ take m (frame p)).
Proof.
  induction ps as [|p ps IH]; intros n Hn.
  - exists [], [], 0%nat. split; [done|]. left. split; [|done]. apply take_nil.
  - rewrite frames_cons in *. destruct (decide (n < length (frame p))%nat) as [Hlt|Hge].
    + exists [], (p :: ps), n. split; [done|]. right. exists p, ps. split; [done|]. split; [done|].
      by rewrite take_app_le by lia.
    + destruct (IH (n - length (frame p))%nat) as (ps1 & ps2 & m & -> & Hcut).
      { rewrite length_app in Hn. lia. }
      exists (p :: ps1), ps2, m. split; [done|]. rewrite take_app, take_ge by lia.
      destruct Hcut as [[E ->]|(q & ps3 & -> & Hm & E)]; rewrite E.
      * by left.
      * right. exists q, ps3. by rewrite frames_cons, <- app_assoc.
Qed.
(** ** Entries of segments *)

(** The index record of a located entry. *)
Definition key_of (x : located) : Z * RecordLoc := (entry_index x.1, x.2).

Definition record_entries (seq : Z) (pos : nat) (len : Z) (r : WalRecord) : list located :=
  match r with WalEntry e => [(e, mkLoc seq pos len)] | WalCommitted _ => [] end.

Fixpoint seg_entries (seq : Z) (pos : nat) (ps : list (list Z)) : list located :=
  match ps with
  | [] => []
  | p :: ps =>
      match decode_record p with
      | Some r => record_entries seq pos (Z.of_nat (length p)) r
      | None => []
      end ++ seg_entries seq (pos + RECORD_HEADER_LEN + length p) ps
  end.

(** Consecutive indices, from [next] on when it is known. *)
Fixpoint chain (next : option Z) (l : list located) : Prop :=
  match l with
  | [] => True
  | x :: l => from_option (fun n => entry_index x.1 = n) True next /\ chain (Some (entry_index x.1 + 1)) l
  end.

Definition next_after (next : option Z) (l : list located) : option Z :=
  match last l with Some x => Some (entry_index x.1 + 1) | None => next end.

Lemma next_after_app n l1 l2 : next_after (next_after n l1) l2 = next_after n (l1 ++ l2).
Proof. unfold next_after. rewrite last_app. by destruct (last l2). Qed.

Lemma next_after_cons n x l : next_after (Some (entry_index x.1 + 1)) l = next_after n (x :: l).
Proof. unfold next_after. rewrite last_cons. by destruct (last l). Qed.

Lemma chain_app n l1 l2 : chain n (l1 ++ l2) <-> chain n l1 /\ chain (next_after n l1) l2.
Proof.
  revert n. induction l1 as [|x l1 IH]; intros n; cbn [app chain]; [tauto|].
  rewrite IH, (next_after_cons n x). tauto.
Qed.

(** What a scan that meets the entries [l] has found. *)
Record scanned (sc : Scan) (l : list located) (sc' : Scan) : Prop := {
  sd_index : sc_index sc' = sc_index sc ++ (key_of <$> l);
  sd_last : sc_last_log_id sc' = match last l with Some x => Some (entry_log_id x.1) | None => sc_last_log_id sc end;
  sd_expected : sc_expected sc' = next_after (sc_expected sc) l;
}.

Lemma scanned_nil sc sc' :
  sc_index sc' = sc_index sc -> sc_last_log_id sc' = sc_last_log_id sc ->
  sc_expected sc' = sc_expected sc -> scanned sc [] sc'.
Proof. intros Ei El E. split; [by rewrite Ei, app_nil_r|done|done]. Qed.

Lemma scanned_app sc l1 sc1 l2 sc2 : scanned sc l1 sc1 -> scanned sc1 l2 sc2 -> scanned sc (l1 ++ l2) sc2.
Proof.
  intros [I1 L1 E1] [I2 L2 E2]. split.
  - by rewrite I2, I1, fmap_app, app_assoc.
  - rewrite L2, L1, last_app. by destruct (last l2).
  - by rewrite E2, E1, next_after_app.
Qed.

(** Every index found so far is below the expected one. *)
Definition scan_ok (sc : Scan) : Prop :=
  match sc_expected sc with
  | None => sc_index sc = []
  | Some n => Forall (fun e => e.1 < n) (sc_index sc)
  end.

Lemma bt_insert_last k (v : RecordLoc) m : Forall (fun e => e.1 < k) m -> bt_insert k v m = m ++ [(k, v)].
Proof.
  induction 1 as [|[k' v'] m Hk _ IH]; [done|].
  cbn [bt_insert app fst] in *. unfold cmp, Z_cmp in *.
  rewrite (proj2 (Z.compare_gt_iff k k')) by lia. by rewrite IH.
Qed.

Lemma entry_index_range e : 0 <= entry_index e < U64_MAX.
Proof. apply id_index_range. Qed.

Definition last_index_of (l : list located) (or : option Z) : option Z :=
  match last l with Some x => Some (entry_index x.1) | None => or end.

(** One record: accepted exactly when it continues the indices. *)
Lemma recover_record_spec seq pos len r sc :
  scan_ok sc ->
  match recover_record seq pos len r sc with
  | Some sc' =>
      chain (sc_expected sc) (record_entries seq pos len r) /\
      scanned sc (record_entries seq pos len r) sc' /\ scan_ok sc' /\
      sc_last sc' = last_index_of (record_entries seq pos len r) (sc_last sc)
  | None => ~ chain (sc_expected sc) (record_entries seq pos len r)
  end.
Proof.
  intros Hok. destruct r as [e|c]; cbn [recover_record record_entries].
  - pose proof (entry_index_range e) as Hr. unfold scan_ok in Hok.
    assert (Hlt : from_option (fun n => entry_index e = n) True (sc_expected sc) ->
              Forall (fun x => x.1 < entry_index e) (sc_index sc)).
    { destruct (sc_expected sc); simpl; [by intros ->|]. rewrite Hok. constructor. }
    assert (Hacc : (match sc_expected sc with Some n => negb (entry_index e =? n) | None => false end) = false <->
                   from_option (fun n => entry_index e = n) True (sc_expected sc)).
    { destruct (sc_expected sc); simpl; [|tauto]. rewrite negb_false_iff. apply Z.eqb_eq. }
    destruct (match sc_expected sc with Some _ => _ | None => _ end) eqn:Eb.
    + intros [Hc _]. apply Hacc in Hc. done.
    + apply proj1 in Hacc. specialize (Hacc eq_refl). specialize (Hlt Hacc).
      split; [by split|]. unfold scan_ok. cbn [sc_index sc_expected sc_last].
      rewrite bt_insert_last by done. rewrite wrap_u64_id by (unfold in_u64 in *; lia).
      split; [|split; [|done]].
      * split; [done|done|]. by unfold next_after.
      * rewrite Forall_app, Forall_singleton. split; [|simpl; lia].
        eapply Forall_impl; [exact Hlt|]. simpl. lia.
  - split; [done|]. split; [by apply scanned_nil|]. by split.
Qed.

(** What reading the payloads [ps] from [pos] on turns a scan into. *)
Record seg_scanned (seq : Z) (pos : nat) (ps : list (list Z)) (sc sc' : Scan) : Prop := {
  ss_chain : chain (sc_expected sc) (seg_entries seq pos ps);
  ss_scanned : scanned sc (seg_entries seq pos ps) sc';
  ss_ok : scan_ok sc';
  ss_last : sc_last sc' = last_index_of (seg_entries seq pos ps) (sc_last sc);
}.

Lemma seg_scanned_nil seq pos sc : scan_ok sc -> seg_scanned seq pos [] sc sc.
Proof. intros ?. by split; [|apply scanned_nil| |]. Qed.

Lemma seg_scanned_cons seq pos p r ps sc sc1 sc2 :
  decode_record p = Some r -> scan_ok sc ->
  recover_record seq pos (Z.of_nat (length p)) r sc = Some sc1 ->
  seg_scanned seq (pos + RECORD_HEADER_LEN + length p) ps sc1 sc2 ->
  seg_scanned seq pos (p :: ps) sc sc2.
Proof.
  intros Ed Hok Er [Hc Hs Hok2 Hl]. pose proof (recover_record_spec seq pos (Z.of_nat (length p)) r sc Hok) as Hrec.
  rewrite Er in Hrec. destruct Hrec as (Hc1 & Hs1 & _ & Hl1). split; cbn [seg_entries]; rewrite ?Ed.
  - apply chain_app. split; [done|]. by rewrite <- (sd_expected _ _ _ Hs1).
  - by apply scanned_app with sc1.
  - done.
  - rewrite Hl, Hl1. unfold last_index_of. rewrite last_app. by destruct (last (seg_entries _ _ _)).
Qed.

Lemma seg_entries_app seq pos ps1 ps2 :
  seg_entries seq pos (ps1 ++ ps2) =
  seg_entries seq pos ps1 ++ seg_entries seq (pos + length (frames ps1)) ps2.
Proof.
  revert pos. induction ps1 as [|p ps1 IH]; intros pos.
  - cbn. by rewrite Nat.add_0_r.
  - cbn [app seg_entries]. rewrite IH, <- app_assoc, frames_cons, length_app, frame_length.
    do 3 f_equal. lia.
Qed.

(** ** The record loop *)

(** Whole frames are read one by one. *)
Lemma recover_loop_frames seq ps : forall fuel pre post sc,
  Forall payload_ok ps -> scan_ok sc -> chain (sc_expected sc) (seg_entries seq (length pre) ps) ->
  exists sc',
    seg_scanned seq (length pre) ps sc sc' /\
    recover_loop (length ps + fuel) seq (pre ++ frames ps ++ post) (length pre) sc =
    recover_loop fuel seq (pre ++ frames ps ++ post) (length pre + length (frames ps)) sc'.
Proof.
  induction ps as [|p ps IH]; intros fuel pre post sc Hps Hok Hc.
  { exists sc. cbn. rewrite Nat.add_0_r. split; [by apply seg_scanned_nil|done]. }
  apply Forall_cons in Hps as [(Hmax & [r Ed] & _) Hps]. cbn [seg_entries] in Hc. rewrite Ed in Hc.
  apply chain_app in Hc as [Hc1 Hc2].
  pose proof (recover_record_spec seq (length pre) (Z.of_nat (length p)) r sc Hok) as Hrec.
  destruct (recover_record _ _ _ _ _) as [sc1|] eqn:Er; [|done]. destruct Hrec as (_ & Hs1 & Hok1 & _).
  assert (Epos : (length pre + RECORD_HEADER_LEN + length p)%nat = length (pre ++ frame p)).
  { rewrite length_app, frame_length. lia. }
  destruct (IH fuel (pre ++ frame p) post sc1) as (sc2 & Hs2 & E2); [done|done| |].
  { rewrite <- Epos, (sd_expected _ _ _ Hs1). done. }
  exists sc2. split; [eapply seg_scanned_cons; [done|done|exact Er|]; by rewrite Epos|].
  cbn [length plus recover_loop]. rewrite frames_cons, <- app_assoc.
  rewrite bool_decide_eq_false_2.
  2:{ rewrite !length_app, frame_length. unfold RECORD_HEADER_LEN. lia. }
  rewrite read_frame_here, Ed, Er, Epos by done. rewrite <- app_assoc in E2. rewrite E2.
  f_equal. rewrite !length_app. lia.
Qed.

Lemma recover_loop_end fuel seq bytes pos sc :
  (length bytes <= pos)%nat -> recover_loop fuel seq bytes pos sc = (sc, pos, false).
Proof. intros Hp. destruct fuel; [done|]. simpl. by rewrite bool_decide_eq_true_2. Qed.

(** From arbitrary bytes the loop takes whole frames that continue the indices, and stops. *)
Lemma recover_loop_sound seq bytes : forall fuel pos sc sc' pos' torn,
  Forall is_byte bytes -> scan_ok sc -> (length bytes < pos + fuel)%nat -> (pos <= length bytes)%nat ->
  recover_loop fuel seq bytes pos sc = (sc', pos', torn) ->
  exists ps,
    Forall payload_ok ps /\ pos' = (pos + length (frames ps))%nat /\
    drop pos bytes = frames ps ++ drop pos' bytes /\ (pos' <= length bytes)%nat /\
    seg_scanned seq pos ps sc sc' /\ (torn = false -> pos' = length bytes).
Proof.
  induction fuel as [|fuel IH]; intros pos sc sc' pos' torn Hb Hok Hfuel Hpos E; [lia|].
  assert (Hstop : (sc, pos, torn) = (sc', pos', torn) -> (torn = false -> pos = length bytes) ->
            exists ps, Forall payload_ok ps /\ pos' = (pos + length (frames ps))%nat /\
              drop pos bytes = frames ps ++ drop pos' bytes /\ (pos' <= length bytes)%nat /\
              seg_scanned seq pos ps sc sc' /\ (torn = false -> pos' = length bytes)).
  { intros [= <- <-] Ht. exists []. split; [done|]. split; [rewrite frames_nil; cbn [length]; lia|].
    split; [done|].
    split; [done|]. split; [by apply seg_scanned_nil|done]. }
  cbn [recover_loop] in E. case_bool_decide as Hend; [injection E as <- <- <-; apply Hstop; [done|lia]|].
  destruct (read_frame pos bytes) as [| |p] eqn:Ef; [injection E as <- <- <-; by apply Hstop..|].
  destruct (decode_record p) as [r|] eqn:Ed; [|injection E as <- <- <-; by apply Hstop].
  destruct (recover_record _ _ _ _ _) as [sc1|] eqn:Er; [|injection E as <- <- <-; by apply Hstop].
  apply read_frame_inv in Ef as (Edrop & Hmax & Hpb); [|done].
  pose proof (recover_record_spec seq pos (Z.of_nat (length p)) r sc Hok) as Hrec. rewrite Er in Hrec.
  destruct Hrec as (_ & _ & Hok1 & _).
  assert (Hlen : (pos + RECORD_HEADER_LEN + length p <= length bytes)%nat).
  { apply (f_equal length) in Edrop. rewrite length_app, frame_length, !length_drop in Edrop. lia. }
  destruct (IH (pos + RECORD_HEADER_LEN + length p)%nat _ _ _ _ Hb Hok1
              ltac:(unfold RECORD_HEADER_LEN; lia) Hlen E) as (ps & Hps & -> & Eps & Hle & Hs & Ht).
  exists (p :: ps). split; [constructor; [by split|done]|].
  rewrite frames_cons, length_app, frame_length, Nat.add_assoc, Nat.add_assoc. split; [done|].
  split; [by rewrite <- app_assoc, <- Eps|]. split; [done|]. split; [|done].
  by eapply seg_scanned_cons.
Qed.
End Theory.
