(* ===== verification/LogRecover.v ===== *)
(** * Theory of the write-ahead log: recovery of directories

    What [recover_segments] makes of any directory, of a directory of whole frames, and of one whose
    last record was torn; and the purge marker applied to recovered segments. *)

From stdpp Require Import list.
From S2P Require Import Prelude BTree SnapshotFile LogStore LogStoreInv.

(** A segment by its payloads. *)
Notation Seg := (Z * list (list Z))%type.

Section Recover.
Context `{!RaftLogTypes, !RaftLogLaws, !WalCodec, !WalCodecLaws, !Crc32, !Crc32Laws}.
Implicit Types (p : list Z) (ps : list (list Z)).

Definition seg_bytes (ps : list (list Z)) : list Z := segment_header ++ frames ps.
#[global] Arguments seg_bytes : simpl never.
Definition seg_file (g : Seg) : Z * list Z := (g.1, seg_bytes g.2).
Definition entries_in (g : Seg) : list located := seg_entries g.1 SEGMENT_HEADER_LEN g.2.
Definition dir_entries (segs : list Seg) : list located := concat (entries_in <$> segs).
Definition seg_ok (g : Seg) : Prop := Forall payload_ok g.2.

Definition meta_of (m : SegmentMeta) (g : Seg) : Prop :=
  meta_seq m = g.1 /\ meta_last_index m = last_index_of (entries_in g) None.

Lemma dir_entries_cons g segs : dir_entries (g :: segs) = entries_in g ++ dir_entries segs.
Proof. done. Qed.

Lemma dir_entries_app segs1 segs2 : dir_entries (segs1 ++ segs2) = dir_entries segs1 ++ dir_entries segs2.
Proof. unfold dir_entries. by rewrite fmap_app, concat_app. Qed.

(** Payloads at the end of the last segment bring their entries. *)
Lemma dir_entries_extend segs q ps new :
  dir_entries (segs ++ [(q, ps ++ new)]) =
  dir_entries (segs ++ [(q, ps)]) ++ seg_entries q (length (seg_bytes ps)) new.
Proof.
  rewrite !dir_entries_app, <- app_assoc. f_equal. unfold dir_entries. cbn. rewrite !app_nil_r.
  unfold entries_in. cbn [fst snd]. rewrite seg_entries_app. unfold seg_bytes. by rewrite length_app.
Qed.

Lemma meta_of_new q : meta_of (SegmentMeta_new q) (q, []).
Proof. done. Qed.

Lemma header_length : length segment_header = SEGMENT_HEADER_LEN.
Proof. done. Qed.

Lemma check_header_ok rest : check_header (segment_header ++ rest) = HeaderOk.
Proof.
  unfold check_header. rewrite bool_decide_eq_false_2 by (rewrite length_app, header_length; lia).
  rewrite bool_decide_eq_true_2 by done.
  change (slice 4 8 (segment_header ++ rest)) with (to_le_bytes SEGMENT_VERSION).
  by rewrite from_to_le_bytes.
Qed.

Lemma check_header_inv bytes :
  Forall is_byte bytes -> check_header bytes = HeaderOk -> exists rest, bytes = segment_header ++ rest.
Proof.
  intros Hb. unfold check_header. case_bool_decide as Hs; [done|]. case_bool_decide as Hm; [|done].
  destruct (from_le_bytes (slice 4 8 bytes)) as [v|] eqn:Ev; [|done].
  destruct (Z.eqb_spec v SEGMENT_VERSION) as [->|?]; [|done]. intros _.
  apply to_from_le_bytes in Ev as [Ev _]; [|unfold slice; by apply Forall_take, Forall_drop].
  exists (drop 8 bytes). unfold segment_header. rewrite <- Hm, Ev.
  change (slice 0 4 bytes) with (take 4 bytes). unfold slice.
  replace (drop 8 bytes) with (drop 4 (drop 4 bytes)) by (by rewrite drop_drop).
  change (8 - 4)%nat with 4%nat. by rewrite <- app_assoc, !take_drop.
Qed.

Lemma seg_bytes_app ps1 ps2 : seg_bytes (ps1 ++ ps2) = seg_bytes ps1 ++ frames ps2.
Proof. unfold seg_bytes. by rewrite frames_app, app_assoc. Qed.

Lemma seg_bytes_length ps : length (seg_bytes ps) = (SEGMENT_HEADER_LEN + length (frames ps))%nat.
Proof. unfold seg_bytes. by rewrite length_app, header_length. Qed.

Lemma frames_bytes ps : Forall payload_ok ps -> Forall is_byte (frames ps).
Proof.
  induction 1 as [|p ps (_ & _ & Hp) _ IH]; [done|]. rewrite frames_cons. apply Forall_app.
  split; [by apply frame_bytes|done].
Qed.

Lemma header_bytes : Forall is_byte segment_header.
Proof.
  apply Forall_app. split; [|apply to_le_bytes_bytes].
  repeat (apply Forall_cons; split; [unfold is_byte; lia|]). done.
Qed.

Lemma seg_bytes_bytes ps : Forall payload_ok ps -> Forall is_byte (seg_bytes ps).
Proof. intros ?. apply Forall_app. split; [apply header_bytes|by apply frames_bytes]. Qed.

(** ** One segment *)

(** The scan a segment starts with: its own bounds are unknown. *)
Definition fresh_bounds (sc : Scan) : Scan :=
  mkScan (sc_index sc) (sc_last_log_id sc) (sc_committed sc) (sc_expected sc) None None.

Lemma fresh_bounds_ok sc : scan_ok sc -> scan_ok (fresh_bounds sc).
Proof. done. Qed.

(** What recovery says of the segment [g] it keeps. *)
Record kept_as (sc : Scan) (g : Seg) (m : SegmentMeta) (sc' : Scan) : Prop := {
  ka_ok : seg_ok g;
  ka_meta : meta_of m g;
  ka_chain : chain (sc_expected sc) (entries_in g);
  ka_scanned : scanned sc (entries_in g) sc';
  ka_scan : scan_ok sc';
}.

Lemma kept_as_scanned sc seq ps sc' m :
  Forall payload_ok ps -> meta_seq m = seq -> meta_last_index m = sc_last sc' ->
  seg_scanned seq SEGMENT_HEADER_LEN ps (fresh_bounds sc) sc' -> kept_as sc (seq, ps) m sc'.
Proof.
  intros Hps Hm Hl [Hc [Hi Hls He] Hok Hlast]. split; [done| |done|by split|done].
  split; [done|]. by rewrite Hl, Hlast.
Qed.

Lemma kept_as_empty sc seq : scan_ok sc -> kept_as sc (seq, []) (SegmentMeta_new seq) (fresh_bounds sc).
Proof.
  intros Hok. apply kept_as_scanned; [done..|]. by apply seg_scanned_nil.
Qed.

(** Any bytes: the segment is discarded with everything behind it, or a whole-frame prefix of it
    that continues the indices is kept. *)
Lemma recover_segment_sound rc is_last seq bytes sc r bytes' sc' :
  Forall is_byte bytes -> scan_ok sc ->
  recover_segment rc is_last seq bytes sc = Ok (r, bytes', sc') ->
  (r = discard /\ scanned sc [] sc' /\ scan_ok sc') \/
  exists ps m,
    rs_meta r = Some m /\ bytes' = seg_bytes ps /\ (ps = [] \/ bytes' `prefix_of` bytes) /\
    kept_as sc (seq, ps) m sc'.
Proof.
  intros Hb Hok E. unfold recover_segment in E. fold (fresh_bounds sc) in E. cbv zeta in E.
  assert (Hdis : @Ok _ WalError (discard, bytes, fresh_bounds sc) = Ok (r, bytes', sc') ->
            (r = discard /\ scanned sc [] sc' /\ scan_ok sc') \/
            exists ps m, rs_meta r = Some m /\ bytes' = seg_bytes ps /\
              (ps = [] \/ bytes' `prefix_of` bytes) /\ kept_as sc (seq, ps) m sc').
  { intros [= <- <- <-]. left. split; [done|]. split; [by apply scanned_nil|done]. }
  destruct (check_header bytes) eqn:Ec.
  - destruct is_last; [|destruct rc; [by apply Hdis|done]].
    injection E as <- <- <-. right. exists [], (SegmentMeta_new seq). split; [done|].
    split; [done|]. split; [by left|]. by apply kept_as_empty.
  - destruct rc; [by apply Hdis|done].
  - destruct rc; [by apply Hdis|done].
  - destruct (recover_loop _ _ _ _ _) as [[sc1 tail] torn] eqn:El.
    apply check_header_inv in Ec as [rest ->]; [|done].
    apply recover_loop_sound in El as (ps & Hps & -> & Edrop & Hle & Hs & Ht);
      [|done|by apply fresh_bounds_ok|rewrite !length_app, header_length; lia
       |rewrite length_app, header_length; lia].
    assert (Etake : take (SEGMENT_HEADER_LEN + length (frames ps)) (segment_header ++ rest) = seg_bytes ps).
    { change SEGMENT_HEADER_LEN with (length segment_header) in *. rewrite drop_app_length in Edrop.
      rewrite take_app_add, Edrop. unfold seg_bytes. by rewrite take_app_length. }
    assert (Hk : kept_as sc (seq, ps) (mkMeta seq (sc_first sc1) (sc_last sc1)) sc1)
      by (by apply kept_as_scanned).
    right. exists ps, (mkMeta seq (sc_first sc1) (sc_last sc1)). destruct torn.
    + rewrite Etake in E. destruct (negb is_last && negb rc); [done|]. injection E as <- <- <-.
      split; [done|]. split; [done|]. split; [|done]. right. rewrite <- Etake. apply prefix_take.
    + injection E as <- <- <-. split; [done|].
      assert (Eb : segment_header ++ rest = seg_bytes ps).
      { rewrite <- Etake, take_ge; [done|]. rewrite <- Ht by done. done. }
      split; [done|]. split; [|done]. by right.
Qed.

(** Whole frames, and behind them possibly a part of one when nothing follows the segment. *)
Definition torn_tail (is_last : bool) (tail : list Z) : Prop :=
  tail = [] \/
  is_last = true /\ exists p n, Z.of_nat (length p) <= MAX_RECORD_LEN /\
    (0 < n < length (frame p))%nat /\ tail = take n (frame p).

Lemma recover_segment_exact rc is_last seq ps tail sc :
  Forall payload_ok ps -> scan_ok sc -> chain (sc_expected sc) (entries_in (seq, ps)) ->
  torn_tail is_last tail ->
  exists m sc',
    recover_segment rc is_last seq (seg_bytes ps ++ tail) sc =
    Ok (mkRecovered (Some m) false, seg_bytes ps, sc') /\ kept_as sc (seq, ps) m sc'.
Proof.
  intros Hps Hok Hc Ht. unfold recover_segment. fold (fresh_bounds sc).
  assert (Eb : seg_bytes ps ++ tail = segment_header ++ frames ps ++ tail)
    by (unfold seg_bytes; by rewrite <- app_assoc).
  rewrite Eb, check_header_ok. cbv zeta.
  set (bytes := segment_header ++ frames ps ++ tail).
  assert (Hfuel : exists k, S (length bytes) = (length ps + S k)%nat).
  { exists (length bytes - length ps)%nat. unfold bytes. rewrite !length_app.
    pose proof (frames_length_ge ps). lia. }
  destruct Hfuel as [k ->].
  destruct (recover_loop_frames seq ps (S k) segment_header tail (fresh_bounds sc)) as (sc' & Hs & El);
    [done|by apply fresh_bounds_ok|done|].
  rewrite header_length in Hs, El. unfold bytes. rewrite El.
  exists (mkMeta seq (sc_first sc') (sc_last sc')), sc'.
  assert (Hk : kept_as sc (seq, ps) (mkMeta seq (sc_first sc') (sc_last sc')) sc')
    by (by apply kept_as_scanned).
  split; [|done].
  destruct Ht as [->|[-> (p & n & Hmax & Hn & ->)]].
  - rewrite recover_loop_end by (rewrite !length_app, header_length; cbn; lia).
    by rewrite app_nil_r.
  - cbn [recover_loop].
    rewrite bool_decide_eq_false_2 by (rewrite !length_app, header_length, length_take; lia).
    rewrite app_assoc. fold (seg_bytes ps). rewrite <- seg_bytes_length.
    rewrite read_frame_torn by (done || lia). cbn [negb andb]. by rewrite take_app_length.
Qed.

(** ** All segments *)

(** Where a kept segment comes from: it is a prefix of the file of its number, or empty. *)
Definition from_file (g : Seg) (f : Z * list Z) : Prop :=
  g.1 = f.1 /\ (g.2 = [] \/ seg_bytes g.2 `prefix_of` f.2).

(** What recovery leaves of a directory, described by its segments. *)
Record recovers (sc : Scan) (segs : list Seg) (files : list (Z * list Z)) (metas : list SegmentMeta)
    (sc' : Scan) : Prop := {
  rc_files : files = seg_file <$> segs;
  rc_ok : Forall seg_ok segs;
  rc_metas : Forall2 meta_of metas segs;
  rc_chain : chain (sc_expected sc) (dir_entries segs);
  rc_scanned : scanned sc (dir_entries segs) sc';
}.

Lemma recovers_nil sc : recovers sc [] [] [] sc.
Proof. split; try done. by apply scanned_nil. Qed.

Lemma recovers_cons sc g m sc1 segs files metas sc' :
  kept_as sc g m sc1 -> recovers sc1 segs files metas sc' ->
  recovers sc (g :: segs) (seg_file g :: files) (m :: metas) sc'.
Proof.
  intros [Hg Hm Hc Hs Hok] [-> Ho Hms Hch Hss]. split; [done|by constructor|by constructor| |].
  - rewrite dir_entries_cons. apply chain_app. split; [done|]. by rewrite <- (sd_expected _ _ _ Hs).
  - rewrite dir_entries_cons. by apply scanned_app with sc1.
Qed.

Lemma recover_segments_sound rc found : forall sc files metas sc',
  Forall (fun f => Forall is_byte f.2) found -> scan_ok sc ->
  recover_segments rc found sc = Ok (files, metas, sc') ->
  exists segs k, recovers sc segs files metas sc' /\ Forall2 from_file segs (take k found).
Proof.
  induction found as [|[seq bytes] later IH]; intros sc files metas sc' Hb Hok E.
  - injection E as <- <- <-. exists [], 0%nat. split; [apply recovers_nil|constructor].
  - cbn [recover_segments] in E. cbv zeta in E. apply Forall_cons in Hb as [Hb Hlater].
    destruct (recover_segment _ _ _ _ _) as [[[r bytes'] sc1]|] eqn:Er; [|done].
    apply recover_segment_sound in Er as [(-> & Hs & Hok1)|(ps & m & Hm & -> & Hpre & Hk)]; [| |done..].
    + cbn in E. injection E as <- <- <-. exists [], 0%nat. split; [|constructor]. split; try done.
    + rewrite Hm in E. destruct (rs_stop r) eqn:Estop.
      * injection E as <- <- <-. exists [(seq, ps)], 1%nat.
        split; [|constructor; [by split|constructor]].
        eapply recovers_cons; [exact Hk|apply recovers_nil].
      * destruct (recover_segments rc later sc1) as [[[files' metas'] sc2]|] eqn:Es; [|done].
        injection E as <- <- <-. destruct (IH _ _ _ _ Hlater (ka_scan _ _ _ _ Hk) Es) as (segs & k & Hr & Hf).
        exists ((seq, ps) :: segs), (S k). split; [|by constructor]. eapply recovers_cons; [exact Hk|exact Hr].
Qed.

(** The lenient mode never refuses a directory. *)
Lemma recover_segments_lenient found : forall sc,
  exists files metas sc', recover_segments true found sc = Ok (files, metas, sc').
Proof.
  induction found as [|[seq bytes] later IH]; intros sc; [by repeat eexists|].
  cbn [recover_segments]. cbv zeta.
  assert (Hok : exists r bytes' sc', recover_segment true (match later with [] => true | _ => false end) seq bytes sc
                = Ok (r, bytes', sc')).
  { unfold recover_segment. destruct (check_header bytes); [by destruct later; repeat eexists|by repeat eexists..|].
    destruct (recover_loop _ _ _ _ _) as [[? ?] []]; rewrite ?andb_false_r; by repeat eexists. }
  destruct Hok as (r & bytes' & sc1 & ->). destruct (rs_stop r); [by repeat eexists|].
  destruct (IH sc1) as (files & metas & sc2 & ->). by repeat eexists.
Qed.

Lemma recover_segments_step rc q bytes later sc m bytes' sc1 :
  recover_segment rc (match later with [] => true | _ => false end) q bytes sc =
    Ok (mkRecovered (Some m) false, bytes', sc1) ->
  recover_segments rc ((q, bytes) :: later) sc =
  match recover_segments rc later sc1 with
  | Err e => Err e
  | Ok (files, metas, sc') => Ok ((q, bytes') :: files, m :: metas, sc')
  end.
Proof. intros E. cbn [recover_segments]. cbv zeta. by rewrite E. Qed.

(** Whatever part of some frames was written: whole frames and a torn tail. *)
Lemma frames_cut_tail ps n :
  Forall payload_ok ps ->
  exists psa psb tail, ps = psa ++ psb /\ torn_tail true tail /\ take n (frames ps) = frames psa ++ tail.
Proof.
  intros Hps. assert (Emin : take n (frames ps) = take (Nat.min n (length (frames ps))) (frames ps)).
  { destruct (Nat.min_spec n (length (frames ps))) as [[? ->]|[? ->]]; [done|]. by rewrite !take_ge by lia. }
  destruct (frames_cut ps (Nat.min n (length (frames ps)))) as (psa & psb & m & -> & Hcut); [lia|].
  exists psa, psb. rewrite Emin. destruct Hcut as [[-> _]|(p & ps3 & -> & Hm & ->)].
  - exists []. split; [done|]. split; [by left|]. by rewrite app_nil_r.
  - apply Forall_app in Hps as [_ Hps]. apply Forall_cons in Hps as [[Hmax _] _].
    destruct m as [|m]; [exists []; split; [done|]; split; [by left|done]|].
    eexists. split; [done|]. split; [|reflexivity]. right. split; [done|]. exists p, (S m).
    split; [done|]. split; [lia|done].
Qed.

(** A last file that recovery turns into the payloads [ps]. *)
Definition last_recovers (rc : bool) (seq : Z) (bytes : list Z) (ps : list (list Z)) : Prop :=
  forall sc, scan_ok sc -> chain (sc_expected sc) (entries_in (seq, ps)) ->
  exists m sc', recover_segment rc true seq bytes sc = Ok (mkRecovered (Some m) false, seg_bytes ps, sc') /\
    kept_as sc (seq, ps) m sc'.

Lemma last_torn rc seq ps tail :
  Forall payload_ok ps -> torn_tail true tail -> last_recovers rc seq (seg_bytes ps ++ tail) ps.
Proof. intros Hps Ht sc Hok Hc. by apply recover_segment_exact. Qed.

(** A segment whose header was not written completely starts afresh. *)
Lemma last_short rc seq k : (k <= SEGMENT_HEADER_LEN)%nat -> last_recovers rc seq (take k segment_header) [].
Proof.
  intros Hk. destruct (decide (k = SEGMENT_HEADER_LEN)) as [->|Hne].
  - change (take SEGMENT_HEADER_LEN segment_header) with (seg_bytes [] ++ []). apply last_torn; [done|by left].
  - intros sc Hok _. exists (SegmentMeta_new seq), (fresh_bounds sc). split; [|by apply kept_as_empty].
    unfold recover_segment, check_header. rewrite bool_decide_eq_true_2; [done|].
    rewrite length_take, header_length. lia.
Qed.

(** Whole segments are recovered as they are, in both modes, and the last file as it recovers. *)
Lemma recover_segments_exact rc segs seq bytes ps : forall sc,
  Forall seg_ok segs -> last_recovers rc seq bytes ps -> scan_ok sc ->
  chain (sc_expected sc) (dir_entries (segs ++ [(seq, ps)])) ->
  exists files metas sc',
    recover_segments rc ((seg_file <$> segs) ++ [(seq, bytes)]) sc = Ok (files, metas, sc') /\
    recovers sc (segs ++ [(seq, ps)]) files metas sc'.
Proof.
  induction segs as [|[q qs] segs IH]; intros sc Hseg Hlast Hok Hc.
  - cbn [app fmap list_fmap recover_segments]. cbv zeta.
    cbn [app] in Hc. rewrite dir_entries_cons in Hc. apply chain_app in Hc as [Hc _].
    destruct (Hlast sc Hok Hc) as (m & sc' & -> & Hk).
    cbn. exists [(seq, seg_bytes ps)], [m], sc'. split; [done|].
    eapply recovers_cons; [exact Hk|apply recovers_nil].
  - cbn [app] in Hseg, Hc. apply Forall_cons in Hseg as [Hq Hseg]. rewrite dir_entries_cons in Hc.
    apply chain_app in Hc as [Hc1 Hc2].
    destruct (recover_segment_exact rc false q qs [] sc) as (m & sc1 & E1 & Hk); [done..|by left|].
    destruct (IH sc1) as (files & metas & sc2 & E2 & Hr); [done|done|apply Hk| |].
    { rewrite (sd_expected _ _ _ (ka_scanned _ _ _ _ Hk)). done. }
    rewrite fmap_cons. cbn [app]. unfold seg_file at 1. cbn [fst snd].
    rewrite <- (app_nil_r (seg_bytes qs)).
    rewrite (recover_segments_step rc q _ _ sc m (seg_bytes qs) sc1), E2.
    2:{ rewrite <- E1. by destruct segs. }
    eexists _, _, _. split; [reflexivity|]. eapply recovers_cons; [exact Hk|exact Hr].
Qed.
End Recover.
