(* ===== verification/LogOps.v ===== *)
(** * Theory of the write-ahead log: the invariant and the operations

    [wal_ok s segs]: the open log [s] keeps the whole-frame segments [segs] on disk, and its
    memory agrees with them. Opening, appending, purging and truncating preserve it; the lemmas say
    how they change the segments. *)

From stdpp Require Import list.
From S2P Require Import Prelude BTree SnapshotFile LogStore LogStoreInv LogRecover.

(** ** Lists *)

Lemma Forall2_filter {A B} (R : A -> B -> Prop) (P : A -> Prop) (Q : B -> Prop)
    `{forall x, Decision (P x)} `{forall x, Decision (Q x)} l k :
  Forall2 R l k -> (forall x y, x ∈ l -> R x y -> P x <-> Q y) -> Forall2 R (filter P l) (filter Q k).
Proof.
  intros HF. induction HF as [|x y l k Hxy HF IH]; intros HPQ; [constructor|].
  rewrite !filter_cons. specialize (IH (fun x' y' Hx => HPQ x' y' (list_elem_of_further _ _ _ Hx))).
  pose proof (HPQ x y (list_elem_of_here _ _) Hxy) as E.
  destruct (decide (P x)), (decide (Q y)); [by constructor|tauto..|done].
Qed.

Lemma Forall2_impl_in {A B} (R R' : A -> B -> Prop) l k :
  Forall2 R l k -> (forall x y, x ∈ l -> y ∈ k -> R x y -> R' x y) -> Forall2 R' l k.
Proof.
  induction 1 as [|x y l k Hxy _ IH]; intros Hi; constructor; [apply Hi; [left..|done]|].
  apply IH. intros. apply Hi; [by right..|done].
Qed.

Lemma filter_ext_in {A} (P Q : A -> Prop) `{forall x, Decision (P x)} `{forall x, Decision (Q x)} (l : list A) :
  (forall x, x ∈ l -> P x <-> Q x) -> filter P l = filter Q l.
Proof.
  induction l as [|x l IH]; intros E; [done|]. rewrite !filter_cons, IH by (intros; apply E; by right).
  pose proof (E x (list_elem_of_here _ _)). destruct (decide (P x)), (decide (Q x)); tauto.
Qed.

Section Ops.
Context `{!RaftLogTypes, !RaftLogLaws, !WalCodec, !WalCodecLaws, !Crc32, !Crc32Laws}.
Implicit Types (s : LogStore) (p : list Z) (ps : list (list Z)) (x y : located) (segs : list Seg).

(** ** Chains are sorted *)

Definition idx (x : located) : Z := entry_index x.1.

Lemma chain_weaken n l : chain n l -> chain None l.
Proof. destruct l; [done|]. by intros [_ ?]. Qed.

Lemma chain_ge n l : chain (Some n) l -> Forall (fun x => n <= idx x) l.
Proof.
  revert n. induction l as [|x l IH]; intros n; [constructor|]. intros [E Hc]. unfold idx in *.
  simpl in E. constructor; [lia|]. eapply Forall_impl; [by apply IH|]. simpl. lia.
Qed.

Lemma chain_sorted n l : chain n l -> StronglySorted (fun x y => idx x < idx y) l.
Proof.
  revert n. induction l as [|x l IH]; intros n; [constructor|]. intros [_ Hc].
  constructor; [by eapply IH|]. eapply Forall_impl; [by apply chain_ge|]. unfold idx. simpl. lia.
Qed.

Lemma sorted_le_last l x :
  StronglySorted (fun x y => idx x < idx y) l -> last l = Some x -> Forall (fun y => idx y <= idx x) l.
Proof.
  intros Hs Hl. apply last_Some in Hl as [l' ->]. apply Forall_app. split; [|by repeat constructor].
  apply strongly_sorted_app_inv in Hs as (_ & _ & Hlt). apply Forall_forall. intros y Hy.
  specialize (Hlt y x Hy ltac:(left)). lia.
Qed.

Lemma last_elem l x : last l = Some x -> x ∈ l.
Proof. intros [l' ->]%last_Some. apply elem_of_app. right. left. Qed.

(** ** What lies above the purge marker *)

Definition above (purged : option LogIdOf) (x : located) : Prop :=
  match purged with Some id => id_index id < idx x | None => True end.

#[global] Instance above_dec purged x : Decision (above purged x).
Proof. unfold above. destruct purged; apply _. Defined.

Definition live (purged : option LogIdOf) (segs : list Seg) : list located :=
  filter (above purged) (dir_entries segs).

(** The log id of the last of some entries. *)
Definition last_id (l : list located) : option LogIdOf := (fun x => entry_log_id x.1) <$> last l.

(** Segments of a purge: those it drops have nothing above the marker, and those it keeps end
    above it or are empty. *)
Record purge_split (purged : Z) (drop : Seg -> Prop) (segs : list Seg) : Prop := {
  pp_drop : forall g, g ∈ segs -> drop g -> Forall (fun x => idx x <= purged) (entries_in g);
  pp_keep : forall g, g ∈ segs -> ~ drop g ->
    entries_in g = [] \/ exists x, last (entries_in g) = Some x /\ purged < idx x;
}.

Lemma purge_split_tail purged drop g segs : purge_split purged drop (g :: segs) -> purge_split purged drop segs.
Proof. intros [Hd Hk]. split; intros g' Hg'; [apply Hd|apply Hk]; by right. Qed.

Lemma purge_kept purged (drop : Seg -> Prop) `{forall g, Decision (drop g)} segs : forall n,
  chain n (dir_entries segs) -> purge_split purged drop segs ->
  exists pre, dir_entries segs = pre ++ dir_entries (filter (fun g => ~ drop g) segs) /\
    Forall (fun x => idx x <= purged) pre.
Proof.
  induction segs as [|g segs IH]; intros n Hc Hp; [by exists []|].
  rewrite dir_entries_cons in Hc. pose proof (chain_sorted _ _ Hc) as Hsort.
  apply chain_app in Hc as [_ Hc]. destruct (IH _ Hc (purge_split_tail _ _ _ _ Hp)) as (pre & E & Hpre).
  rewrite filter_cons, dir_entries_cons. destruct (decide (~ drop g)) as [Hk|Hd].
  - rewrite dir_entries_cons. destruct (pp_keep _ _ _ Hp g (list_elem_of_here _ _) Hk) as [Hnil|(x & Hl & Hx)].
    + exists pre. by rewrite Hnil.
    + destruct pre as [|y pre]; [exists []; by rewrite E|]. exfalso.
      apply Forall_cons in Hpre as [Hy _]. apply strongly_sorted_app_inv in Hsort as (_ & _ & Hlt).
      specialize (Hlt x y (last_elem _ _ Hl)). rewrite E in Hlt. specialize (Hlt ltac:(left)). lia.
  - exists (entries_in g ++ pre). rewrite E, <- app_assoc. split; [done|]. apply Forall_app.
    split; [|done]. apply (pp_drop _ _ _ Hp); [left|]. by destruct (decide (drop g)).
Qed.

Lemma kept_last purged (drop : Seg -> Prop) `{forall g, Decision (drop g)} segs x :
  purge_split purged drop segs ->
  last (dir_entries (filter (fun g => ~ drop g) segs)) = Some x -> purged < idx x.
Proof.
  intros Hp. induction segs as [|g segs IH] using rev_ind; [done|].
  assert (Hp' : purge_split purged drop segs).
  { destruct Hp as [Hd Hk]. split; intros g' Hg'; [apply Hd|apply Hk]; apply elem_of_app; by left. }
  rewrite filter_app, dir_entries_app, last_app. destruct (last (dir_entries (filter _ [g]))) as [y|] eqn:E.
  - intros [= ->]. rewrite filter_cons in E. destruct (decide (~ drop g)) as [Hk|]; [|done].
    cbn in E. rewrite app_nil_r in E.
    destruct (pp_keep _ _ _ Hp g) as [Hn|(z & Hz & ?)]; [apply elem_of_app; right; left|done| |].
    + by rewrite Hn in E.
    + rewrite Hz in E. by injection E as ->.
  - by apply IH.
Qed.

(** What a purge leaves of the directory is what is above the marker. *)
Lemma purge_live id (drop : Seg -> Prop) `{forall g, Decision (drop g)} segs n :
  chain n (dir_entries segs) -> purge_split (id_index id) drop segs ->
  let kept := filter (fun g => ~ drop g) segs in
  chain None (dir_entries kept) /\ live (Some id) kept = live (Some id) segs /\
  id_above (id_index id) (last_id (dir_entries segs)) = last_id (dir_entries kept).
Proof.
  intros Hc Hp kept. destruct (purge_kept _ drop segs n Hc Hp) as (pre & E & Hpre). fold kept in E.
  rewrite E in Hc. apply chain_app in Hc as [_ Hc]. split; [by eapply chain_weaken|].
  unfold live. rewrite E, filter_app. split.
  - rewrite (list_filter_none _ pre); [done|]. intros x Hx. rewrite Forall_forall in Hpre.
    specialize (Hpre x Hx). simpl. lia.
  - unfold last_id. rewrite last_app. destruct (last (dir_entries kept)) as [x|] eqn:El.
    + apply (kept_last (id_index id)) in El as Hx; [|done]. cbn. fold (entry_index x.1). fold (idx x).
      by rewrite (proj2 (Z.leb_gt _ _)) by lia.
    + destruct (last pre) as [x|] eqn:El'; [|done]. cbn. rewrite Forall_forall in Hpre.
      specialize (Hpre x (last_elem _ _ El')). fold (entry_index x.1). fold (idx x).
      by rewrite (proj2 (Z.leb_le _ _)).
Qed.

(** ** Files of a directory of segments *)

Definition sorted_seqs (segs : list Seg) : Prop := StronglySorted Z.lt segs.*1.

Lemma seg_file_keys segs : (seg_file <$> segs).*1 = segs.*1.
Proof. rewrite <- list_fmap_compose. done. Qed.

Lemma sorted_seqs_NoDup segs : sorted_seqs segs -> NoDup segs.*1.
Proof.
  unfold sorted_seqs. induction 1 as [|q l _ IH Hf]; constructor; [|done].
  intros Hq. rewrite Forall_forall in Hf. specialize (Hf _ Hq). lia.
Qed.

Lemma file_of_seg segs g : sorted_seqs segs -> g ∈ segs -> file_of g.1 (seg_file <$> segs) = Some (seg_bytes g.2).
Proof.
  intros Hs Hg. apply bt_get_elem.
  - unfold bt_sorted. rewrite seg_file_keys. eapply strongly_sorted_impl; [|exact Hs].
    intros a b Hab. by apply Z.compare_lt_iff.
  - by apply (list_elem_of_fmap_2 seg_file).
Qed.

Lemma update_file_last q f segs ps :
  sorted_seqs (segs ++ [(q, ps)]) ->
  update_file q f (seg_file <$> (segs ++ [(q, ps)])) = (seg_file <$> segs) ++ [(q, f (seg_bytes ps))].
Proof.
  intros Hs. unfold update_file. rewrite fmap_app, fmap_app. f_equal.
  - rewrite <- list_fmap_compose. apply list_fmap_ext. intros i g Hg. simpl.
    unfold sorted_seqs in Hs. rewrite fmap_app in Hs. apply strongly_sorted_app_inv in Hs as (_ & _ & Hlt).
    specialize (Hlt g.1 q (list_elem_of_fmap_2 fst _ _ (list_elem_of_lookup_2 _ _ _ Hg)) ltac:(left)).
    by rewrite (proj2 (Z.eqb_neq _ _)) by lia.
  - simpl. by rewrite Z.eqb_refl.
Qed.

Lemma remove_files_segs (gone : list Z) segs :
  remove_files gone (seg_file <$> segs) = seg_file <$> filter (fun g => ~ g.1 ∈ gone) segs.
Proof. apply filter_fmap_key. done. Qed.

(** ** The invariant *)

Definition decoded_state (bytes : option (list Z)) : option PersistedState :=
  match bytes with None => Some (mkPersisted None None) | Some bytes => decode_state bytes end.

(** Files, segment table, index and last log id that describe the segments [segs] under a purge
    marker. *)
Record table_ok (purged : option LogIdOf) segs (files : list (Z * list Z)) (metas : list SegmentMeta)
    (index : list (Z * RecordLoc)) (last_log_id : option LogIdOf) : Prop := {
  to_files : files = seg_file <$> segs;
  to_segs : Forall seg_ok segs;
  to_seqs : sorted_seqs segs;
  to_range : Forall (fun q => 0 <= q <= U32_MAX) segs.*1;
  to_chain : chain None (dir_entries segs);
  to_metas : Forall2 meta_of metas segs;
  to_index : index = key_of <$> live purged segs;
  to_last : last_log_id = last_id (dir_entries segs);
  to_purged : forall id x, purged = Some id -> last (dir_entries segs) = Some x -> id_index id < idx x;
}.

Record wal_ok s segs : Prop := {
  wo_table : table_ok (ls_last_purged s) segs (wd_segments (ls_dir s)) (ls_segments s) (ls_index s)
               (ls_last_log_id s);
  wo_writer : exists segs' ps, segs = segs' ++ [(ls_writer_seq s, ps)] /\
    ls_writer_len s = length (seg_bytes ps);
  wo_state : decoded_state (wd_state (ls_dir s)) = Some (mkPersisted (ls_vote s) (ls_last_purged s));
}.

(** The entries of an open log. *)
Definition entries_of s segs : list LogEntry := (live (ls_last_purged s) segs).*1.

(** Purging by the segment table agrees with purging the segments. *)
Lemma metas_split purged metas segs n (gone : list Z) :
  Forall2 meta_of metas segs -> sorted_seqs segs -> chain n (dir_entries segs) ->
  (forall m, m ∈ metas -> meta_seq m ∈ gone -> covered_by purged m = true) ->
  (forall m, m ∈ metas -> meta_seq m ∉ gone -> covered_by purged m = false \/ meta_last_index m = None) ->
  purge_split purged (fun g => g.1 ∈ gone) segs.
Proof.
  intros Hm Hs Hc Hd Hk.
  assert (Hpart : forall g, g ∈ segs -> exists m, m ∈ metas /\ meta_of m g).
  { intros g Hg. apply list_elem_of_lookup_1 in Hg as [i Hi].
    destruct (Forall2_lookup_r _ _ _ _ _ Hm Hi) as (m & Hmi & ?). exists m. split; [|done].
    by eapply list_elem_of_lookup_2. }
  assert (Hsorted : forall g, g ∈ segs -> StronglySorted (fun x y => idx x < idx y) (entries_in g)).
  { intros g Hg. apply list_elem_of_split in Hg as (l1 & l2 & ->).
    rewrite dir_entries_app, dir_entries_cons in Hc. apply chain_sorted in Hc.
    apply strongly_sorted_app_inv in Hc as (_ & Hc & _). by apply strongly_sorted_app_inv in Hc as (? & _). }
  split; intros g Hg Hdrop; destruct (Hpart g Hg) as (m & Hin & Hseq & Hlast);
    rewrite <- Hseq in Hdrop; unfold last_index_of in Hlast.
  - specialize (Hd m Hin Hdrop). unfold covered_by in Hd. rewrite Hlast in Hd.
    destruct (last (entries_in g)) as [x|] eqn:El.
    + apply Z.leb_le in Hd. eapply Forall_impl; [eapply sorted_le_last; [by apply Hsorted|done]|].
      simpl. unfold idx in *. lia.
    + apply last_None in El. rewrite El. constructor.
  - specialize (Hk m Hin Hdrop). unfold covered_by in Hk. rewrite Hlast in Hk.
    destruct (last (entries_in g)) as [x|] eqn:El; [|left; by apply last_None].
    right. exists x. split; [done|]. destruct Hk as [Hk|?]; [|done]. by apply Z.leb_gt in Hk.
Qed.

Lemma metas_kept metas segs (gone : list Z) :
  Forall2 meta_of metas segs ->
  Forall2 meta_of (filter (fun m => meta_seq m ∉ gone) metas) (filter (fun g : Seg => ~ g.1 ∈ gone) segs).
Proof. intros Hm. apply Forall2_filter; [done|]. by intros m g _ [-> _]. Qed.

Lemma metas_seqs metas segs : Forall2 meta_of metas segs -> meta_seq <$> metas = segs.*1.
Proof. induction 1 as [|m g ms gs [E _] _ IH]; [done|]. by rewrite !fmap_cons, E, IH. Qed.

(** The table has one entry per number. *)
Lemma unique_meta metas m m' :
  NoDup (meta_seq <$> metas) -> m ∈ metas -> m' ∈ metas -> meta_seq m = meta_seq m' -> m = m'.
Proof.
  intros Hnd [i Hi]%list_elem_of_lookup_1 [j Hj]%list_elem_of_lookup_1 E.
  assert (i = j) as ->; [|congruence].
  eapply NoDup_lookup; [exact Hnd| |]; rewrite list_lookup_fmap; [by rewrite Hi|].
  rewrite Hj. simpl. by rewrite E.
Qed.

Lemma find_meta_Some seq metas m :
  NoDup (meta_seq <$> metas) -> m ∈ metas -> meta_seq m = seq -> find_meta seq metas = Some m.
Proof.
  intros Hnd Hin Hm. unfold find_meta. destruct (List.find _ _) as [m'|] eqn:E.
  - apply List.find_some in E as [Hin' E]. apply Z.eqb_eq in E. apply list_elem_of_In in Hin'.
    f_equal. apply unique_meta with metas; congruence.
  - apply list_elem_of_In in Hin. apply (List.find_none _ _ E) in Hin. simpl in Hin.
    by apply Z.eqb_neq in Hin.
Qed.

(** In a table without duplicates, being listed among the selected numbers is being selected. *)
Lemma gone_iff (sel : SegmentMeta -> bool) metas m :
  NoDup (meta_seq <$> metas) -> m ∈ metas ->
  meta_seq m ∈ meta_seq <$> filter (fun m => sel m = true) metas <-> sel m = true.
Proof.
  intros Hnd Hm. rewrite list_elem_of_fmap. split.
  - intros (m' & E & [Hsel Hm']%list_elem_of_filter). by rewrite (unique_meta metas m m').
  - intros Hsel. exists m. split; [done|]. by apply list_elem_of_filter.
Qed.

Lemma live_None segs : live None segs = dir_entries segs.
Proof. by apply list_filter_all. Qed.

(** ** Purging *)

(** Dropping the selected segments, when the selection agrees with the marker. *)
Lemma table_purge id sel segs files metas index last_log_id purged :
  table_ok purged segs files metas index last_log_id ->
  (forall prev, purged = Some prev -> id_index prev <= id_index id) ->
  (forall m, m ∈ metas -> sel m = true -> covered_by (id_index id) m = true) ->
  (forall m, m ∈ metas -> sel m = false -> covered_by (id_index id) m = false \/ meta_last_index m = None) ->
  let gone := meta_seq <$> filter (fun m => sel m = true) metas in
  let kept := filter (fun g : Seg => ~ g.1 ∈ gone) segs in
  table_ok (Some id) kept (remove_files gone files) (filter (fun m => meta_seq m ∉ gone) metas)
    (filter (fun e => id_index id < e.1) index) (id_above (id_index id) last_log_id) /\
  live (Some id) kept = live (Some id) segs.
Proof.
  intros [-> Hseg Hseqs Hrange Hc Hm -> -> Hp] Hmono Hsel Hsel' gone kept.
  assert (Hnd : NoDup (meta_seq <$> metas)) by (rewrite (metas_seqs _ _ Hm); by apply sorted_seqs_NoDup).
  assert (Hsplit : purge_split (id_index id) (fun g : Seg => g.1 ∈ gone) segs).
  { apply metas_split with metas None; [done..| |]; intros m Hin Hg.
    - apply Hsel; [done|]. by apply (gone_iff sel metas m) in Hg.
    - apply Hsel'; [done|]. destruct (sel m) eqn:E; [|done]. destruct Hg. by apply gone_iff. }
  destruct (purge_live id _ segs None Hc Hsplit) as (Hc' & Hlive & Habove). fold kept in Hc', Hlive, Habove.
  split; [|done]. split; try done.
  - by rewrite remove_files_segs.
  - by apply filter_Forall.
  - by apply strongly_sorted_filter_fst.
  - rewrite Forall_fmap in *. by apply filter_Forall.
  - by apply metas_kept.
  - rewrite Hlive. rewrite (filter_fmap_key key_of _ (above (Some id))) by (intros ?; reflexivity). f_equal.
    unfold live. rewrite list_filter_filter. apply filter_ext_in. intros x _. unfold above.
    destruct purged as [prev|]; [|tauto]. specialize (Hmono prev eq_refl). split; [tauto|]. lia.
  - intros id' x Eid Hl. injection Eid as <-. exact (kept_last _ _ _ _ Hsplit Hl).
Qed.

(** ** Opening *)

Lemma self_heal_ok purged segs files metas sc :
  recovers Scan_new segs files metas sc -> sorted_seqs segs ->
  Forall (fun q => 0 <= q <= U32_MAX) segs.*1 ->
  let '(files', metas', index, last_log_id) := self_heal purged files metas sc in
  exists segs', table_ok purged segs' files' metas' index last_log_id /\ live purged segs' = live purged segs.
Proof.
  intros [-> Hok Hm Hc [Hi Hl _]] Hs Hr. cbn in Hi, Hl.
  assert (Hl' : sc_last_log_id sc = last_id (dir_entries segs)).
  { rewrite Hl. unfold last_id. by destruct (last (dir_entries segs)). }
  assert (Ht : table_ok None segs (seg_file <$> segs) metas (sc_index sc) (sc_last_log_id sc)).
  { split; try done. by rewrite Hi, live_None. }
  destruct purged as [id|]; cbn [self_heal]; [|by exists segs].
  set (gone := meta_seq <$> _). cbv zeta.
  destruct (table_purge id (covered_by (id_index id)) _ _ _ _ _ _ Ht) as [Ht' Hlive]; [done..| |].
  { intros. by left. }
  fold gone in Ht', Hlive. eexists. split; [|exact Hlive].
  assert (E : filter (fun m => covered_by (id_index id) m = false) metas = filter (fun m => meta_seq m ∉ gone) metas);
    [|rewrite E; exact Ht'].
  assert (Hnd : NoDup (meta_seq <$> metas)) by (rewrite (metas_seqs _ _ Hm); by apply sorted_seqs_NoDup).
  apply filter_ext_in. intros m Hin. unfold gone. rewrite gone_iff by done. by rewrite not_true_iff_false.
Qed.

Lemma ensure_segment_ok purged segs files metas index last_log_id :
  table_ok purged segs files metas index last_log_id ->
  let '(files', metas') := ensure_segment files metas in
  exists segs', segs' <> [] /\ table_ok purged segs' files' metas' index last_log_id /\
    live purged segs' = live purged segs.
Proof.
  intros Ht. pose proof (to_metas _ _ _ _ _ _ Ht) as Hm. destruct metas as [|m metas]; cbn [ensure_segment].
  - apply Forall2_nil_inv_l in Hm as ->. destruct Ht. exists [(0, [])].
    split; [done|]. split; [|done]. split; try done.
    + by subst.
    + by repeat constructor.
    + by repeat constructor.
    + repeat constructor; unfold U32_MAX; simpl; lia.
    + by repeat constructor.
  - exists segs. split; [|done]. intros ->. inversion Hm.
Qed.

(** Whatever recovery found, opening makes a log of it; the state file only has to decode. *)
Lemma open_recovered size ms dir segs files metas sc persisted :
  recover_segments (negb (is_every_append (FsyncPolicy_from_option ms))) (wd_segments dir) Scan_new =
    Ok (files, metas, sc) ->
  recovers Scan_new segs files metas sc -> sorted_seqs segs ->
  Forall (fun q => 0 <= q <= U32_MAX) segs.*1 ->
  decoded_state (wd_state dir) = Some persisted ->
  exists s segs', open_log size ms dir = Ok s /\ wal_ok s segs' /\
    ls_vote s = ps_vote persisted /\ ls_last_purged s = ps_last_purged persisted /\
    entries_of s segs' = (live (ps_last_purged persisted) segs).*1.
Proof.
  intros E Hrec Hs Hr Hd. unfold open_log. rewrite E. fold (decoded_state (wd_state dir)). rewrite Hd.
  pose proof (self_heal_ok (ps_last_purged persisted) segs files metas sc Hrec Hs Hr) as Hheal.
  destruct (self_heal _ _ _ _) as [[[files1 metas1] index] last_log_id].
  destruct Hheal as (segs1 & Ht1 & Hl1). apply ensure_segment_ok in Ht1.
  destruct (ensure_segment files1 metas1) as [files2 metas2]. destruct Ht1 as (segs2 & Hne & Ht2 & Hl2).
  destruct segs2 as [|[q ps] segs2 _] using rev_ind; [done|].
  pose proof (to_metas _ _ _ _ _ _ Ht2) as Hm.
  apply Forall2_app_inv_r in Hm as (ms1 & ms2 & _ & Hm & Ems).
  apply Forall2_cons_inv_r in Hm as (m & ms3 & [Hq _] & Hm3 & ->). apply Forall2_nil_inv_r in Hm3 as ->.
  rewrite Ems, last_app. cbn [last]. rewrite <- Ems. eexists _, _. split; [reflexivity|].
  split; [|split; [done|split; [done|]]].
  - split; cbn [ls_last_purged ls_dir wd_segments ls_segments ls_index ls_last_log_id ls_writer_seq ls_writer_len
                wd_state ls_vote]; [exact Ht2| |by destruct persisted].
    exists segs2, ps. rewrite Hq. split; [done|]. rewrite (to_files _ _ _ _ _ _ Ht2).
    rewrite (file_of_seg _ (q, ps) (to_seqs _ _ _ _ _ _ Ht2)); [done|]. apply elem_of_app. right. left.
  - unfold entries_of. cbn [ls_last_purged]. by rewrite Hl2, Hl1.
Qed.
(** ** The log a store implements *)

(** Vote, purge marker and live entries. *)
Record Log : Type := mkLog {
  log_vote : option VoteOf;
  log_purged : option LogIdOf;
  log_entries : list LogEntry;
}.

Definition implements s (L : Log) : Prop :=
  exists segs, wal_ok s segs /\ L = mkLog (ls_vote s) (ls_last_purged s) (entries_of s segs).

(** Consecutive indices of entries, from [next] on. *)
Fixpoint consecutive (next : option Z) (es : list LogEntry) : Prop :=
  match es with
  | [] => True
  | e :: es => match next with Some n => entry_index e = n | None => True end /\
               consecutive (Some (entry_index e + 1)) es
  end.

Lemma chain_consecutive n l : chain n l <-> consecutive n l.*1.
Proof. revert n. induction l as [|x l IH]; intros n; [done|]. simpl. rewrite IH. by destruct n. Qed.

Lemma table_NoDup purged segs files metas index last_log_id :
  table_ok purged segs files metas index last_log_id -> NoDup (meta_seq <$> metas).
Proof. intros []. erewrite metas_seqs by done. by apply sorted_seqs_NoDup. Qed.

(** Where the next entry goes: behind the last log id openraft is told. *)
Definition next_index s : option Z := (fun id => id_index id + 1) <$> (get_log_state s).2.

(** ** Appending *)

Definition encodable (e : LogEntry) : Prop :=
  exists p, encode_record (WalEntry e) = Some p /\ Z.of_nat (length p) <= MAX_RECORD_LEN.

Lemma encoded_ok r p : encode_record r = Some p -> Z.of_nat (length p) <= MAX_RECORD_LEN -> payload_ok p.
Proof.
  intros E Hl. split; [done|]. split; [by exists r; apply record_codec|by eapply record_bytes].
Qed.

Definition locate (seq : Z) (base : nat) (l : Z * nat * Z) : Z * RecordLoc :=
  (l.1.1, mkLoc seq (base + l.1.2) l.2).

Lemma encode_entries_ok es : forall buf locs,
  Forall encodable es ->
  exists ps locs', encode_entries es buf locs = Some (buf ++ frames ps, locs ++ locs') /\
    Forall payload_ok ps /\
    forall seq base, (seg_entries seq (base + length buf) ps).*1 = es /\
      key_of <$> seg_entries seq (base + length buf) ps = locate seq base <$> locs'.
Proof.
  induction es as [|e es IH]; intros buf locs Hes.
  - exists [], []. cbn [encode_entries]. rewrite !app_nil_r. done.
  - apply Forall_cons in Hes as [(p & Ep & Hl) Hes]. cbn [encode_entries]. rewrite Ep.
    destruct (IH (buf ++ frame p)
                (locs ++ [(entry_index e, length buf, wrap_u32 (Z.of_nat (length p)))]) Hes)
      as (ps & locs' & -> & Hps & Hloc).
    exists (p :: ps), ((entry_index e, length buf, wrap_u32 (Z.of_nat (length p))) :: locs').
    split; [by rewrite frames_cons, <- !app_assoc|].
    split; [constructor; [by eapply encoded_ok|done]|]. intros seq base. cbn [seg_entries].
    rewrite (record_codec _ _ Ep). cbn [record_entries app]. destruct (Hloc seq base) as [Hl1 Hl2].
    assert (Epos : (base + length buf + RECORD_HEADER_LEN + length p = base + length (buf ++ frame p))%nat).
    { rewrite length_app, frame_length. lia. }
    rewrite Epos, !fmap_cons, Hl1, Hl2. split; [done|]. f_equal. unfold locate, key_of. cbn [fst snd].
    unfold wrap_u32. rewrite Z.mod_small by (by apply len_range). done.
Qed.

Lemma index_batch_ok seq base locs : forall index,
  StronglySorted Z.lt ((index ++ (locate seq base <$> locs)).*1) ->
  index_batch seq base locs index = index ++ (locate seq base <$> locs).
Proof.
  induction locs as [|[[i o] l] locs IH]; intros index Hs; [by rewrite app_nil_r|].
  change (index_batch seq base ((i, o, l) :: locs) index)
    with (index_batch seq base locs (bt_insert i (mkLoc seq (base + o) l) index)).
  rewrite bt_insert_last.
  - rewrite IH; [by rewrite <- app_assoc|]. by rewrite <- app_assoc.
  - rewrite fmap_app in Hs. apply strongly_sorted_app_inv in Hs as (_ & _ & Hlt).
    apply Forall_forall. intros x Hx. apply (Hlt x.1 i); [by apply list_elem_of_fmap_2|left].
Qed.

Lemma live_sorted purged segs : chain None (dir_entries segs) -> StronglySorted Z.lt (key_of <$> live purged segs).*1.
Proof.
  intros Hc. apply chain_sorted in Hc. unfold live. induction Hc as [|x l Hs IH Hf]; [constructor|].
  rewrite filter_cons. case_decide; [|done]. rewrite !fmap_cons. constructor; [done|].
  rewrite !Forall_fmap. apply filter_Forall. eapply Forall_impl; [exact Hf|]. done.
Qed.

(** What a purge marker says of the entries behind the last one. *)
Lemma next_above purged segs files metas index last_log_id n l :
  table_ok purged segs files metas index last_log_id ->
  n = (fun id => id_index id + 1) <$> match last_log_id with None => purged | id => id end ->
  chain n l ->
  chain None (dir_entries segs ++ l) /\ (forall x, x ∈ l -> above purged x).
Proof.
  intros Ht -> Hc. pose proof (to_purged _ _ _ _ _ _ Ht) as Hp. rewrite (to_last _ _ _ _ _ _ Ht) in Hc.
  unfold last_id in Hc. destruct (last (dir_entries segs)) as [x|] eqn:El; cbn in Hc.
  - split.
    + apply chain_app. split; [apply (to_chain _ _ _ _ _ _ Ht)|]. unfold next_after. by rewrite El.
    + intros y Hy. apply chain_ge in Hc. rewrite Forall_forall in Hc. specialize (Hc y Hy).
      unfold above. destruct purged as [id|]; [|done]. specialize (Hp id x eq_refl eq_refl).
      unfold idx in *. unfold entry_index in Hp at 1. lia.
  - apply last_None in El. rewrite El. split; [by eapply chain_weaken|].
    intros y Hy. destruct purged as [id|]; [|done]. cbn in Hc. apply chain_ge in Hc.
    rewrite Forall_forall in Hc. specialize (Hc y Hy). unfold above. lia.
Qed.
End Ops.
