(* ===== verification/LogWrite.v ===== *)
(** * Theory of the write-ahead log: what the operations do to the segments

    Rotation, append, commit marker, vote, purge and truncation on a store that satisfies [wal_ok],
    and reading entries back. *)

From stdpp Require Import list.
From S2P Require Import Prelude BTree SnapshotFile LogStore LogStoreInv LogRecover LogOps.

Section Write.
Context `{!RaftLogTypes, !RaftLogLaws, !WalCodec, !WalCodecLaws, !Crc32, !Crc32Laws}.
Implicit Types (s : LogStore) (p : list Z) (ps : list (list Z)) (x y : located) (segs : list Seg).

(** ** Rotation *)

(** What writing leaves alone of a store. *)
Record same_state s s' : Prop := {
  sa_vote : ls_vote s' = ls_vote s;
  sa_committed : ls_committed s' = ls_committed s;
  sa_purged : ls_last_purged s' = ls_last_purged s;
  sa_last : ls_last_log_id s' = ls_last_log_id s;
}.

Lemma same_state_refl s : same_state s s.
Proof. done. Qed.

Lemma empty_segment q segs : dir_entries (segs ++ [(q, [])]) = dir_entries segs.
Proof. rewrite dir_entries_app. by rewrite app_nil_r. Qed.

Lemma writer_max s segs : wal_ok s segs -> Forall (fun q => q <= ls_writer_seq s) segs.*1.
Proof.
  intros [Ht (segs' & ps & -> & _) _]. pose proof (to_seqs _ _ _ _ _ _ Ht) as Hs. unfold sorted_seqs in Hs.
  rewrite fmap_app in *. apply strongly_sorted_app_inv in Hs as (_ & _ & Hlt). apply Forall_app.
  split; [|by repeat constructor]. apply Forall_forall. intros q Hq.
  specialize (Hlt q (ls_writer_seq s) Hq ltac:(left)). lia.
Qed.

Lemma bt_insert_max (q : Z) (v : list Z) m : Forall (fun e => e.1 < q) m -> bt_insert q v m = m ++ [(q, v)].
Proof.
  induction 1 as [|[k' v'] m Hk _ IH]; [done|]. cbn [bt_insert app fst] in *. unfold cmp, Z_cmp in *.
  rewrite (proj2 (Z.compare_gt_iff q k')) by lia. by rewrite IH.
Qed.

Lemma bt_get_max (q : Z) (m : list (Z * list Z)) : Forall (fun e => e.1 < q) m -> bt_get q m = None.
Proof.
  induction 1 as [|[k' v'] m Hk _ IH]; [done|]. cbn [bt_get fst] in *. unfold cmp, Z_cmp in *.
  by rewrite (proj2 (Z.compare_gt_iff q k')) by lia.
Qed.

Lemma rotate_ok s segs :
  wal_ok s segs -> ls_writer_seq s < U32_MAX ->
  exists s', rotate s = Ok s' /\ same_state s s' /\ wal_ok s' (segs ++ [(ls_writer_seq s + 1, [])]).
Proof.
  intros Hok Hseq. pose proof (writer_max s segs Hok) as Hmax. destruct Hok as [Ht Hw Hst].
  assert (Hr0 : 0 <= ls_writer_seq s).
  { destruct Hw as (segs' & ps & -> & _). pose proof (to_range _ _ _ _ _ _ Ht) as Hr.
    rewrite fmap_app, Forall_app in Hr. destruct Hr as [_ Hr]. by apply Forall_cons in Hr as [[? _] _]. }
  assert (Hlt : Forall (fun e => e.1 < ls_writer_seq s + 1) (seg_file <$> segs)).
  { rewrite Forall_fmap. rewrite Forall_fmap in Hmax. eapply Forall_impl; [exact Hmax|]. simpl. lia. }
  unfold rotate. unfold wrap_u32. rewrite Z.mod_small by (unfold U32_MAX in Hseq; lia).
  unfold file_of. rewrite (to_files _ _ _ _ _ _ Ht), bt_get_max by done.
  eexists. split; [reflexivity|]. split; [done|]. split.
  - cbn. destruct Ht as [Hf Hseg Hseqs Hrange Hc Hm Hi Hl Hp]. rewrite bt_insert_max by done. split.
    + by rewrite fmap_app.
    + apply Forall_app. split; [done|]. by repeat constructor.
    + unfold sorted_seqs in *. rewrite fmap_app. apply strongly_sorted_app; [done|by repeat constructor|].
      intros a b Ha ->%list_elem_of_singleton. rewrite Forall_forall in Hmax. specialize (Hmax a Ha). simpl. lia.
    + rewrite fmap_app. apply Forall_app. split; [done|]. repeat constructor; simpl; lia.
    + by rewrite empty_segment.
    + apply Forall2_app; [done|]. by repeat constructor.
    + unfold live. by rewrite empty_segment.
    + by rewrite empty_segment.
    + by rewrite empty_segment.
  - exists segs, []. done.
  - done.
Qed.

Lemma make_room_ok len s segs :
  wal_ok s segs -> ls_writer_seq s < U32_MAX ->
  exists s' segs', make_room len s = Ok s' /\ same_state s s' /\ wal_ok s' segs' /\
    dir_entries segs' = dir_entries segs.
Proof.
  intros Hok Hseq. unfold make_room. destruct (_ && _).
  - destruct (rotate_ok s segs Hok Hseq) as (s' & E & Hs & Hok'). eexists s', _. split; [done|].
    split; [done|]. split; [exact Hok'|]. apply empty_segment.
  - exists s, segs. done.
Qed.

(** ** Writing to the active segment *)

Lemma write_files s segs ps bytes :
  wd_segments (ls_dir s) = seg_file <$> (segs ++ [(ls_writer_seq s, ps)]) ->
  sorted_seqs (segs ++ [(ls_writer_seq s, ps)]) ->
  wd_segments (ls_dir (write_bytes bytes s)) = (seg_file <$> segs) ++ [(ls_writer_seq s, seg_bytes ps ++ bytes)].
Proof. intros Ef Hs. unfold write_bytes. cbn. by rewrite Ef, update_file_last. Qed.

(** A failed write is undone: whatever reached the file, the directory is as before. *)
Lemma undo_files s segs bytes :
  wal_ok s segs ->
  wd_segments (ls_dir (set_len (ls_writer_len s) (write_bytes bytes s))) = wd_segments (ls_dir s).
Proof.
  intros [Ht (segs' & ps & -> & Hlen) _]. pose proof (to_files _ _ _ _ _ _ Ht) as Ef.
  pose proof (to_seqs _ _ _ _ _ _ Ht) as Hs. unfold set_len, write_bytes. cbn. rewrite Ef.
  unfold update_file. rewrite <- list_fmap_compose. rewrite <- list_fmap_compose. apply list_fmap_ext.
  intros i g Hg. cbn. destruct (Z.eqb_spec g.1 (ls_writer_seq s)) as [E|E]; cbn; [|by rewrite (proj2 (Z.eqb_neq _ _))].
  rewrite E, Z.eqb_refl. unfold seg_file. rewrite E. f_equal. cbn [fst snd].
  assert (g = (ls_writer_seq s, ps)) as ->.
  { apply list_elem_of_lookup_2 in Hg. apply elem_of_app in Hg as [Hg|Hg].
    - exfalso. unfold sorted_seqs in Hs. rewrite fmap_app in Hs.
      apply strongly_sorted_app_inv in Hs as (_ & _ & Hlt).
      specialize (Hlt g.1 (ls_writer_seq s) (list_elem_of_fmap_2 fst _ _ Hg) ltac:(left)). lia.
    - by apply list_elem_of_singleton in Hg. }
  cbn [fst snd]. rewrite Hlen. apply take_app_length.
Qed.

(** Payloads appended to the active segment. *)
Lemma table_append purged segs q ps new files metas index last_log_id metas' :
  table_ok purged (segs ++ [(q, ps)]) files metas index last_log_id ->
  Forall payload_ok new ->
  let l := seg_entries q (length (seg_bytes ps)) new in
  chain (next_after None (dir_entries (segs ++ [(q, ps)]))) l ->
  (forall x, x ∈ l -> above purged x) ->
  Forall2 meta_of metas' (segs ++ [(q, ps ++ new)]) ->
  table_ok purged (segs ++ [(q, ps ++ new)]) ((seg_file <$> segs) ++ [(q, seg_bytes ps ++ frames new)]) metas'
    (index ++ (key_of <$> l)) (match last_id l with None => last_log_id | id => id end) /\
  dir_entries (segs ++ [(q, ps ++ new)]) = dir_entries (segs ++ [(q, ps)]) ++ l.
Proof.
  intros [Hf Hseg Hseqs Hrange Hc Hm Hi Hl Hp] Hnew l Hcl Hal Hm'.
  assert (E : dir_entries (segs ++ [(q, ps ++ new)]) = dir_entries (segs ++ [(q, ps)]) ++ l).
  { apply dir_entries_extend. }
  split; [|done]. split.
  - rewrite fmap_app. f_equal. cbn. unfold seg_file. cbn [fst snd]. by rewrite seg_bytes_app.
  - rewrite Forall_app in Hseg |- *. destruct Hseg as [? Hlast]. split; [done|].
    apply Forall_cons in Hlast as [Hlast _]. constructor; [|done]. by apply Forall_app.
  - unfold sorted_seqs in *. by rewrite fmap_app in *.
  - by rewrite fmap_app in *.
  - rewrite E. by apply chain_app.
  - done.
  - unfold live. rewrite E, filter_app, fmap_app, Hi. f_equal. by rewrite (list_filter_all _ l).
  - unfold last_id. rewrite E, last_app, Hl. by destruct (last l).
  - intros id x -> Hlast. rewrite E, last_app in Hlast. destruct (last l) as [y|] eqn:El.
    + injection Hlast as ->. exact (Hal x (last_elem _ _ El)).
    + by apply Hp.
Qed.
(** The segment table when only the active segment's entry changes. *)
Lemma metas_last (f : SegmentMeta -> SegmentMeta) metas segs q ps ps' :
  Forall2 meta_of metas (segs ++ [(q, ps)]) -> sorted_seqs (segs ++ [(q, ps)]) ->
  (forall m, meta_seq m <> q -> f m = m) ->
  (forall m, meta_of m (q, ps) -> meta_of (f m) (q, ps')) ->
  Forall2 meta_of (f <$> metas) (segs ++ [(q, ps')]).
Proof.
  intros Hm Hs Hne Hq. apply Forall2_app_inv_r in Hm as (ms1 & ms2 & Hm1 & Hm2 & ->).
  rewrite fmap_app. apply Forall2_app.
  - unfold sorted_seqs in Hs. rewrite fmap_app in Hs. apply strongly_sorted_app_inv in Hs as (_ & _ & Hlt).
    clear Hm2. apply Forall2_fmap_l. eapply Forall2_impl_in; [exact Hm1|].
    intros m g Hmin Hgin Hmg. change (meta_of (f m) g). rewrite Hne; [done|]. rewrite (proj1 Hmg).
    specialize (Hlt g.1 q (list_elem_of_fmap_2 fst _ _ Hgin) ltac:(left)). lia.
  - apply Forall2_cons_inv_r in Hm2 as (m & ms3 & Hmq & Hm3 & ->).
    apply Forall2_nil_inv_r in Hm3 as ->. constructor; [by apply Hq|constructor].
Qed.

(** Nothing on disk changed, and what changed in memory is not described by the invariant. *)
Lemma wal_ok_ext s s' segs :
  wal_ok s segs -> ls_dir s' = ls_dir s -> ls_segments s' = ls_segments s -> ls_index s' = ls_index s ->
  ls_vote s' = ls_vote s -> ls_last_purged s' = ls_last_purged s -> ls_last_log_id s' = ls_last_log_id s ->
  ls_writer_seq s' = ls_writer_seq s -> ls_writer_len s' = ls_writer_len s ->
  wal_ok s' segs /\ entries_of s' segs = entries_of s segs.
Proof.
  intros [Ht Hw Hst] Ed Es Ei Ev Ep El Eq En. split; [|unfold entries_of; by rewrite Ep].
  split; by rewrite ?Ed, ?Es, ?Ei, ?Ep, ?El, ?Eq, ?En, ?Ev.
Qed.

Lemma dir_eta s : mkWalDir (wd_segments (ls_dir s)) (wd_state (ls_dir s)) = ls_dir s.
Proof. by destruct (ls_dir s). Qed.

(** The undo of a failed write. *)
Lemma undo_ok s segs bytes d :
  wal_ok s segs ->
  let s' := set_writer (ls_writer_seq s) (ls_writer_len s)
              (set_len (ls_writer_len s) (set_dirty d (write_bytes bytes s))) in
  wal_ok s' segs /\ entries_of s' segs = entries_of s segs.
Proof.
  intros Hok s'. apply (wal_ok_ext s s'); [exact Hok| |done..].
  cbn. rewrite <- dir_eta. f_equal. exact (undo_files s segs bytes Hok).
Qed.

Lemma last_id_fst (l : list located) : last_id l = entry_log_id <$> last l.*1.
Proof. rewrite fmap_last. unfold last_id. by destruct (last l). Qed.

(** The store after a batch was written. *)
Definition appended (dirty : bool) (es : list LogEntry) (buf : list Z) (locs : list (Z * nat * Z)) s
    : LogStore :=
  let seq := ls_writer_seq s in
  let base := ls_writer_len s in
  let last_log_id := entry_log_id <$> last es in
  let s' := set_writer seq (base + length buf) (set_dirty dirty (write_bytes buf s)) in
  let s' := set_segments (note_appended seq (entry_index <$> head es) (id_index <$> last_log_id)
                            <$> ls_segments s) s' in
  let s' := set_index (index_batch seq base locs (ls_index s)) s' in
  set_runtime (ls_vote s) (ls_committed s) (ls_last_purged s) last_log_id s'.

Lemma append_success_ok es buf locs s segs dirty :
  es <> [] -> wal_ok s segs -> Forall encodable es -> consecutive (next_index s) es ->
  encode_entries es [] [] = Some (buf, locs) ->
  exists segs', wal_ok (appended dirty es buf locs s) segs' /\ entries_of (appended dirty es buf locs s) segs' =
    entries_of s segs ++ es.
Proof.
  intros Hne Hok Henc Hcons Eenc. set (s4 := appended _ _ _ _ _).
  set (seq := ls_writer_seq s). set (base := ls_writer_len s).
  set (last_log_id := entry_log_id <$> last es).
  set (metas := note_appended seq (entry_index <$> head es) (id_index <$> last_log_id) <$> ls_segments s).
  destruct (encode_entries_ok es [] [] Henc) as (ps' & locs' & E & Hps' & Hloc).
  rewrite E in Eenc. injection Eenc as <- <-. cbn [app length] in *.
  destruct Hok as [Ht (segs' & ps & -> & Hlen) Hst]. destruct (Hloc seq base) as [Hes Hkeys].
  rewrite Nat.add_0_r in Hes, Hkeys. fold base in Hlen. rewrite Hlen in Hes, Hkeys.
  set (l := seg_entries seq (length (seg_bytes ps)) ps') in *.
  destruct (next_above _ _ _ _ _ _ _ l Ht eq_refl) as [Hch Hal].
  { apply chain_consecutive. rewrite Hes. unfold next_index, get_log_state in Hcons. cbn [snd] in Hcons.
    by destruct (ls_last_log_id s). }
  apply chain_app in Hch as [_ Hch].
  assert (Hlast : last l <> None).
  { intros El%last_None. rewrite El in Hes. by subst es. }
  assert (Hlastid : last_id l = last_log_id).
  { unfold last_log_id. by rewrite last_id_fst, Hes. }
  assert (Hm' : Forall2 meta_of metas (segs' ++ [(seq, ps ++ ps')])).
  { eapply metas_last; [apply (to_metas _ _ _ _ _ _ Ht)|apply (to_seqs _ _ _ _ _ _ Ht)| |].
    - intros m Hm. unfold note_appended. by rewrite (proj2 (Z.eqb_neq _ _)).
    - intros m [Hm _]. unfold note_appended. cbn in Hm. rewrite Hm, Z.eqb_refl. split; [done|].
      cbn [meta_last_index]. unfold entries_in. cbn [fst snd]. rewrite seg_entries_app, <- seg_bytes_length.
      fold seq l. unfold last_index_of. rewrite last_app. rewrite <- Hlastid. unfold last_id.
      by destruct (last l). }
  destruct (table_append _ _ _ _ ps' _ _ _ _ _ Ht Hps' Hch Hal Hm') as [Ht' Hdir].
  fold seq l in Ht', Hdir.
  assert (Hidx : index_batch seq base locs' (ls_index s) = ls_index s ++ (key_of <$> l)).
  { rewrite index_batch_ok; [by rewrite Hkeys, Hlen|].
    rewrite Hlen, <- Hkeys, (to_index _ _ _ _ _ _ Ht), <- fmap_app.
    assert (El : live (ls_last_purged s) (segs' ++ [(seq, ps)]) ++ l =
                 live (ls_last_purged s) (segs' ++ [(seq, ps ++ ps')])).
    { unfold live. rewrite Hdir, filter_app. f_equal. symmetry. by apply list_filter_all. }
    fold seq. rewrite El. apply live_sorted, (to_chain _ _ _ _ _ _ Ht'). }
  exists (segs' ++ [(seq, ps ++ ps')]). split.
  - split.
    + change (table_ok (ls_last_purged s) (segs' ++ [(seq, ps ++ ps')])
                (wd_segments (ls_dir (write_bytes (frames ps') s))) metas
                (index_batch seq base locs' (ls_index s)) last_log_id). rewrite Hidx.
      rewrite (write_files s segs' ps) by apply Ht. rewrite <- Hlastid.
      destruct (last_id l) eqn:El; [exact Ht'|]. exfalso. unfold last_id in El. by destruct (last l).
    + exists segs', (ps ++ ps'). split; [done|]. cbn. rewrite seg_bytes_app, length_app. lia.
    + done.
  - unfold entries_of. cbn [ls_last_purged s4 set_runtime]. unfold live. rewrite Hdir, filter_app, fmap_app.
    f_equal. by rewrite (list_filter_all _ l).
Qed.
Definition append_log (es : list LogEntry) (L : Log) : Log :=
  mkLog (log_vote L) (log_purged L) (log_entries L ++ es).

Lemma implements_same s s' segs segs' L :
  wal_ok s' segs' -> same_state s s' -> dir_entries segs' = dir_entries segs ->
  L = mkLog (ls_vote s) (ls_last_purged s) (entries_of s segs) -> implements s' L.
Proof.
  intros Hok [Ev _ Ep _] Ed ->. exists segs'. split; [done|]. unfold entries_of, live.
  by rewrite Ev, Ep, Ed.
Qed.

Lemma append_batch_ok io es buf locs s segs :
  es <> [] -> wal_ok s segs -> Forall encodable es -> consecutive (next_index s) es ->
  encode_entries es [] [] = Some (buf, locs) ->
  let L := mkLog (ls_vote s) (ls_last_purged s) (entries_of s segs) in
  let '(s', r) := append_batch io es buf locs s in
  r = Ok () /\ implements s' (append_log es L) \/ r = Err EIo /\ io <> IoOk /\ implements s' L.
Proof.
  intros Hne Hok Henc Hcons Eenc L.
  assert (Hsucc : forall d, implements (appended d es buf locs s) (append_log es L)).
  { intros d. destruct (append_success_ok es buf locs s segs d) as (segs' & Hok' & He); [done..|].
    exists segs'. split; [exact Hok'|]. rewrite He. done. }
  assert (Hundo : forall bytes d, implements (set_writer (ls_writer_seq s) (ls_writer_len s)
            (set_len (ls_writer_len s) (set_dirty d (write_bytes bytes s)))) L).
  { intros bytes d. destruct (undo_ok s segs bytes d Hok) as [Hok' He]. exists segs. split; [exact Hok'|].
    unfold L. by rewrite <- He. }
  unfold append_batch. cbv zeta.
  change (ls_fsync (set_dirty true (write_bytes buf s))) with (ls_fsync s).
  destruct io as [|n|]; rewrite ?andb_false_r, ?andb_true_r.
  - left. split; [done|]. destruct (is_every_append _); [exact (Hsucc false)|exact (Hsucc true)].
  - right. split; [done|]. split; [done|]. exact (Hundo (take n buf) (ls_dirty s)).
  - destruct (is_every_append (ls_fsync s)); [right|left].
    + split; [done|]. split; [done|]. exact (Hundo buf true).
    + split; [done|]. exact (Hsucc true).
Qed.
Lemma append_blocking_ok io es s L :
  implements s L -> Forall encodable es -> consecutive (next_index s) es -> ls_writer_seq s < U32_MAX ->
  let '(s', r) := append_blocking io es s in
  r = Ok () /\ implements s' (append_log es L) \/ r = Err EIo /\ io <> IoOk /\ implements s' L.
Proof.
  intros (segs & Hok & EL) Henc Hcons Hseq. destruct es as [|e es].
  { left. split; [done|]. exists segs. split; [done|]. rewrite EL. unfold append_log. cbn. by rewrite app_nil_r. }
  unfold append_blocking. destruct (encode_entries_ok (e :: es) [] [] Henc) as (ps & locs & E & _ & _).
  rewrite E. destruct (make_room_ok (length ([] ++ frames ps)) s segs Hok Hseq) as (s1 & segs1 & -> & Hs & Hok1 & Ed).
  assert (Ev : entries_of s1 segs1 = entries_of s segs).
  { unfold entries_of, live. by rewrite (sa_purged _ _ Hs), Ed. }
  pose proof (append_batch_ok io (e :: es) ([] ++ frames ps) ([] ++ locs) s1 segs1 ltac:(done) Hok1 Henc) as Hb.
  assert (Hn : next_index s1 = next_index s).
  { unfold next_index, get_log_state. by rewrite (sa_last _ _ Hs), (sa_purged _ _ Hs). }
  rewrite Hn in Hb. specialize (Hb Hcons E). cbv zeta in Hb.
  by rewrite Ev, (sa_purged _ _ Hs), (sa_vote _ _ Hs), <- EL in Hb.
Qed.

(** ** Commit markers *)

Lemma marker_entries q pos p c : decode_record p = Some (WalCommitted c) -> seg_entries q pos [p] = [].
Proof. intros E. cbn. by rewrite E. Qed.

Lemma save_committed_ok io committed s L :
  implements s L -> ls_writer_seq s < U32_MAX ->
  (exists p, encode_record (WalCommitted committed) = Some p /\ Z.of_nat (length p) <= MAX_RECORD_LEN) ->
  let '(s', r) := save_committed_blocking io committed s in
  implements s' L /\
  (r = Ok () /\ read_committed s' = committed \/
   r = Err EIo /\ io <> IoOk /\ read_committed s' = read_committed s).
Proof.
  intros (segs & Hok & EL) Hseq (p & Ep & Hl). unfold save_committed_blocking, append_marker. rewrite Ep.
  destruct (make_room_ok (length p) s segs Hok Hseq) as (s1 & segs1 & -> & Hs & Hok1 & Ed).
  assert (HL : L = mkLog (ls_vote s1) (ls_last_purged s1) (entries_of s1 segs1)).
  { rewrite EL. unfold entries_of, live. by rewrite (sa_purged _ _ Hs), (sa_vote _ _ Hs), Ed. }
  assert (Hundo : forall n, implements (set_writer (ls_writer_seq s1) (ls_writer_len s1)
            (set_len (ls_writer_len s1) (write_bytes (take n (frame p)) s1))) L).
  { intros n. destruct (undo_ok s1 segs1 (take n (frame p)) (ls_dirty s1) Hok1) as [Hok' He].
    exists segs1. split; [exact Hok'|]. rewrite HL, <- He. done. }
  assert (Hsucc : implements (set_runtime (ls_vote s1) committed (ls_last_purged s1) (ls_last_log_id s1)
            (set_writer (ls_writer_seq s1) (ls_writer_len s1 + RECORD_HEADER_LEN + length p)
              (set_dirty true (write_bytes (frame p) s1)))) L).
  { destruct Hok1 as [Ht (segs' & ps & -> & Hlen) Hst].
    assert (Hnil : forall pos, seg_entries (ls_writer_seq s1) pos [p] = []).
    { intros pos. by apply marker_entries with committed, record_codec. }
    assert (Hm' : Forall2 meta_of (ls_segments s1) (segs' ++ [(ls_writer_seq s1, ps ++ [p])])).
    { rewrite <- (list_fmap_id (ls_segments s1)).
      eapply metas_last; [apply (to_metas _ _ _ _ _ _ Ht)|apply (to_seqs _ _ _ _ _ _ Ht)|done|].
      intros m [Hq Hlast]. split; [done|]. unfold entries_in in *. cbn [fst snd] in *.
      by rewrite seg_entries_app, Hnil, app_nil_r. }
    assert (Hp : Forall payload_ok [p]) by (constructor; [by eapply encoded_ok|constructor]).
    destruct (table_append _ segs' _ ps [p] _ _ _ _ (ls_segments s1) Ht Hp) as [Ht' Hdir];
      [by rewrite Hnil|rewrite Hnil; by intros ? ?%not_elem_of_nil|exact Hm'|].
    rewrite Hnil in Ht', Hdir. cbn in Ht'. rewrite app_nil_r in Ht', Hdir.
    exists (segs' ++ [(ls_writer_seq s1, ps ++ [p])]). split; [split|].
    - change (table_ok (ls_last_purged s1) (segs' ++ [(ls_writer_seq s1, ps ++ [p])])
                (wd_segments (ls_dir (write_bytes (frame p) s1))) (ls_segments s1) (ls_index s1)
                (ls_last_log_id s1)).
      rewrite (write_files s1 segs' ps) by apply Ht.
      change (frames [p]) with (frame p ++ []) in Ht'. rewrite !app_nil_r in Ht'. exact Ht'.
    - exists segs', (ps ++ [p]). split; [done|]. cbn [ls_writer_len set_runtime set_writer].
      rewrite seg_bytes_app, frames_cons, !length_app, frame_length, frames_nil. cbn [length]. lia.
    - done.
    - rewrite HL. unfold entries_of, live. cbn [ls_last_purged set_runtime ls_vote]. by rewrite Hdir. }
  destruct io; cbn [fst snd].
  - split; [exact Hsucc|]. by left.
  - split; [apply Hundo|]. right. split; [done|]. split; [done|]. apply Hs.
  - split; [exact Hsucc|]. by left.
Qed.

(** ** The vote *)

Lemma save_vote_ok vote s L bytes :
  implements s L -> encode_state (mkPersisted (Some vote) (ls_last_purged s)) = Some bytes ->
  let '(s', r) := save_vote_blocking vote s in
  r = Ok () /\ implements s' (mkLog (Some vote) (log_purged L) (log_entries L)).
Proof.
  intros (segs & [Ht Hw Hst] & ->) E. unfold save_vote_blocking, write_state_file. rewrite E.
  split; [done|]. exists segs. split; [|done]. split; [exact Ht|exact Hw|].
  cbn. by apply state_codec.
Qed.

(** ** Purge *)

Definition purge_log (id : LogIdOf) (L : Log) : Log :=
  mkLog (log_vote L) (Some id) (filter (fun e => id_index id < entry_index e) (log_entries L)).

Lemma live_purge_fst purged id segs :
  (forall prev, purged = Some prev -> id_index prev <= id_index id) ->
  (live (Some id) segs).*1 = filter (fun e => id_index id < entry_index e) (live purged segs).*1.
Proof.
  intros Hmono. unfold live. rewrite (filter_fmap_key fst _ (above (Some id))) by (intros ?; reflexivity).
  f_equal. rewrite list_filter_filter. apply filter_ext_in. intros x _. unfold above, idx.
  destruct purged as [prev|]; [|tauto]. specialize (Hmono prev eq_refl). split; [|tauto]. intros ?. lia.
Qed.

Lemma rotate_covered_ok purged s segs :
  wal_ok s segs -> ls_writer_seq s < U32_MAX ->
  exists s' segs', rotate_covered purged s = Ok s' /\ same_state s s' /\ wal_ok s' segs' /\
    dir_entries segs' = dir_entries segs /\
    (forall m, m ∈ ls_segments s' -> meta_seq m = ls_writer_seq s' ->
       covered_by purged m = false \/ meta_last_index m = None).
Proof.
  intros Hok Hseq. unfold rotate_covered.
  assert (Hfind : forall m, m ∈ ls_segments s -> meta_seq m = ls_writer_seq s ->
            find_meta (ls_writer_seq s) (ls_segments s) = Some m).
  { intros m Hin Hm. eapply find_meta_Some; [by eapply table_NoDup, (wo_table _ _ Hok)|done..]. }
  assert (Hrot : exists s' segs', rotate s = Ok s' /\ same_state s s' /\ wal_ok s' segs' /\
            dir_entries segs' = dir_entries segs /\
            (forall m, m ∈ ls_segments s' -> meta_seq m = ls_writer_seq s' ->
               covered_by purged m = false \/ meta_last_index m = None)).
  { destruct (rotate_ok s segs Hok Hseq) as (s' & E & Hs & Hok'). exists s', (segs ++ [(ls_writer_seq s + 1, [])]).
    split; [done|]. split; [done|]. split; [done|]. split; [apply empty_segment|].
    intros m Hm Hmw. right. pose proof (to_metas _ _ _ _ _ _ (wo_table _ _ Hok')) as Hmetas.
    assert (Ew : ls_writer_seq s' = ls_writer_seq s + 1).
    { destruct (wo_writer _ _ Hok') as (? & ? & E' & _). apply app_inj_tail in E' as [_ E']. by injection E'. }
    apply list_elem_of_lookup_1 in Hm as [i Hi].
    destruct (Forall2_lookup_l _ _ _ _ _ Hmetas Hi) as (g & Hg & Hgm). destruct Hgm as [Hgs ->].
    apply list_elem_of_lookup_2, elem_of_app in Hg as [Hg|Hg%list_elem_of_singleton]; [|by subst g].
    pose proof (writer_max s segs Hok) as Hmax. rewrite Forall_fmap, Forall_forall in Hmax.
    specialize (Hmax g Hg). simpl in Hmax. lia. }
  assert (Hstay : (forall m, m ∈ ls_segments s -> meta_seq m = ls_writer_seq s ->
               covered_by purged m = false \/ meta_last_index m = None) ->
            exists s' segs', Ok s = (Ok s' : Result LogStore WalError) /\ same_state s s' /\ wal_ok s' segs' /\
            dir_entries segs' = dir_entries segs /\
            (forall m, m ∈ ls_segments s' -> meta_seq m = ls_writer_seq s' ->
               covered_by purged m = false \/ meta_last_index m = None)) by (intros; by exists s, segs).
  destruct (find_meta _ _ ≫= meta_last_index) as [last|] eqn:El.
  - destruct (Z.leb_spec last purged) as [?|Hlt]; [exact Hrot|]. apply Hstay. intros m Hin Hm. left.
    rewrite (Hfind m Hin Hm) in El. cbn in El. unfold covered_by. rewrite El. by apply Z.leb_gt.
  - apply Hstay. intros m Hin Hm. right. rewrite (Hfind m Hin Hm) in El. done.
Qed.

(** The state file has no part in rotation. *)
Lemma rotate_state bytes s :
  rotate (set_state_file bytes s) =
  match rotate s with Ok s' => Ok (set_state_file bytes s') | Err e => Err e end.
Proof.
  unfold rotate. cbn [set_state_file ls_writer_seq ls_dir wd_segments].
  by destruct (file_of _ (wd_segments (ls_dir s))).
Qed.

Lemma rotate_covered_state purged bytes s :
  rotate_covered purged (set_state_file bytes s) =
  match rotate_covered purged s with Ok s' => Ok (set_state_file bytes s') | Err e => Err e end.
Proof.
  unfold rotate_covered. cbn [set_state_file ls_writer_seq ls_segments].
  destruct (find_meta _ _ ≫= _) as [last|]; [|done]. destruct (last <=? purged); [apply rotate_state|done].
Qed.

Lemma purge_writer s segs (gone : list Z) :
  (exists segs' ps, segs = segs' ++ [(ls_writer_seq s, ps)] /\ ls_writer_len s = length (seg_bytes ps)) ->
  ls_writer_seq s ∉ gone ->
  exists segs' ps, filter (fun g : Seg => ~ g.1 ∈ gone) segs = segs' ++ [(ls_writer_seq s, ps)] /\
    ls_writer_len s = length (seg_bytes ps).
Proof.
  intros (segs' & ps & -> & Hlen) Hg. rewrite filter_app, filter_cons, decide_True by exact Hg.
  by exists (filter (fun g : Seg => ~ g.1 ∈ gone) segs'), ps.
Qed.

Lemma purge_blocking_ok id s L bytes :
  implements s L -> ls_writer_seq s < U32_MAX ->
  (forall prev, ls_last_purged s = Some prev -> id_index prev <= id_index id) ->
  encode_state (mkPersisted (ls_vote s) (Some id)) = Some bytes ->
  let '(s', r) := purge_blocking id s in r = Ok () /\ implements s' (purge_log id L).
Proof.
  intros (segs & Hok & ->) Hseq Hmono Eenc. unfold purge_blocking, finish_purge.
  assert (Hreg : (match ls_last_purged s with Some prev => id_index id <? id_index prev | None => false end) = false).
  { destruct (ls_last_purged s) as [prev|]; [|done]. apply Z.ltb_ge. by apply Hmono. }
  rewrite Hreg. unfold write_state_file. cbn [ls_vote]. rewrite Eenc, rotate_covered_state.
  destruct (rotate_covered_ok (id_index id) s segs Hok Hseq) as (s1 & segs1 & -> & Hs & [Ht Hw Hst] & Ed & Hact).
  set (sel := fun m => negb (meta_seq m =? ls_writer_seq s1) && covered_by (id_index id) m).
  set (gone := meta_seq <$> filter (fun m => sel m = true) (ls_segments s1)).
  destruct (table_purge id sel _ _ _ _ _ _ Ht) as [Ht' Hlive].
  { by rewrite (sa_purged _ _ Hs). }
  { unfold sel. intros m _ [_ ?]%andb_true_iff. done. }
  { unfold sel. intros m Hm [Hn|?]%andb_false_iff; [|by left]. apply negb_false_iff, Z.eqb_eq in Hn.
    by apply Hact. }
  fold gone in Ht', Hlive. split; [done|]. exists (filter (fun g : Seg => ~ g.1 ∈ gone) segs1). split; [split|].
  - exact Ht'.
  - apply (purge_writer s1 segs1 gone Hw). intros (m & Em & Hm)%list_elem_of_fmap.
    apply list_elem_of_filter in Hm as [Hm _]. unfold sel in Hm. by rewrite <- Em, Z.eqb_refl in Hm.
  - cbn. rewrite (sa_vote _ _ Hs). by apply state_codec.
  - unfold purge_log, entries_of. cbn [log_vote log_purged log_entries].
    cbn [ls_last_purged set_runtime ls_vote set_index purge_covered set_segments set_files set_state_file].
    rewrite (sa_vote _ _ Hs), Hlive. f_equal. rewrite <- (live_purge_fst (ls_last_purged s)) by done.
    unfold live. by rewrite Ed.
Qed.
End Write.
