(* ===== verification/LogCut.v ===== *)
(** * Theory of the write-ahead log: truncation and reading

    Cutting the log behind an entry, and reading entries back by their locations. *)

From stdpp Require Import list.
From S2P Require Import Prelude BTree SnapshotFile LogStore LogStoreInv LogRecover LogOps LogWrite.

Section Cut.
Context `{!RaftLogTypes, !RaftLogLaws, !WalCodec, !WalCodecLaws, !Crc32, !Crc32Laws}.
Implicit Types (s : LogStore) (p : list Z) (ps : list (list Z)) (x y : located) (segs : list Seg).

(** ** Where an entry lies *)

(** The payload of an entry, in its segment. *)
Definition lies_at (segs : list Seg) (x : located) (A : list Seg) (q : Z) (ps1 : list (list Z)) (p : list Z)
    (ps2 : list (list Z)) (B : list Seg) : Prop :=
  segs = A ++ (q, ps1 ++ p :: ps2) :: B /\ decode_record p = Some (WalEntry x.1) /\
  x.2 = mkLoc q (length (seg_bytes ps1)) (Z.of_nat (length p)).

Lemma seg_entry_split q ps x : forall pos, x ∈ seg_entries q pos ps ->
  exists ps1 p ps2, ps = ps1 ++ p :: ps2 /\ decode_record p = Some (WalEntry x.1) /\
    x.2 = mkLoc q (pos + length (frames ps1)) (Z.of_nat (length p)).
Proof.
  induction ps as [|p ps IH]; intros pos Hx; [by apply not_elem_of_nil in Hx|].
  cbn [seg_entries] in Hx. apply elem_of_app in Hx as [Hx|Hx].
  - destruct (decode_record p) as [[e|c]|] eqn:E; cbn in Hx; [|by apply not_elem_of_nil in Hx..].
    apply list_elem_of_singleton in Hx as ->. exists [], p, ps. rewrite frames_nil, Nat.add_0_r. done.
  - destruct (IH _ Hx) as (ps1 & p' & ps2 & -> & E & El). exists (p :: ps1), p', ps2.
    split; [done|]. split; [done|]. rewrite El, frames_cons, length_app, frame_length. f_equal. lia.
Qed.

Lemma entry_lies_at segs x : x ∈ dir_entries segs -> exists A q ps1 p ps2 B, lies_at segs x A q ps1 p ps2 B.
Proof.
  intros Hx. unfold dir_entries in Hx. apply list_elem_of_In, in_concat in Hx as (l & Hl & Hx).
  apply list_elem_of_In, list_elem_of_fmap in Hl as ([q ps] & -> & Hg). apply list_elem_of_In in Hx.
  apply list_elem_of_split in Hg as (A & B & ->).
  destruct (seg_entry_split _ _ _ _ Hx) as (ps1 & p & ps2 & E & Ed & El). cbn in E. subst ps.
  exists A, q, ps1, p, ps2, B. split; [done|]. split; [done|]. by rewrite seg_bytes_length.
Qed.

(** Cutting behind a payload keeps the entries up to it. *)
Lemma cut_entries A q ps1 ps2 B :
  dir_entries (A ++ (q, ps1 ++ ps2) :: B) =
  dir_entries (A ++ [(q, ps1)]) ++ seg_entries q (length (seg_bytes ps1)) ps2 ++ dir_entries B.
Proof.
  rewrite !dir_entries_app, !dir_entries_cons. unfold entries_in. cbn [fst snd].
  rewrite seg_entries_app, seg_bytes_length. unfold dir_entries at 4. cbn. by rewrite app_nil_r, <- !app_assoc.
Qed.

Lemma cut_last A q ps1 p e :
  decode_record p = Some (WalEntry e) ->
  dir_entries (A ++ [(q, ps1 ++ [p])]) =
  dir_entries (A ++ [(q, ps1)]) ++ [(e, mkLoc q (length (seg_bytes ps1)) (Z.of_nat (length p)))].
Proof. intros E. rewrite cut_entries. cbn. by rewrite E. Qed.
(** ** Truncation *)

Lemma live_idx_sorted purged segs :
  chain None (dir_entries segs) -> StronglySorted (fun x y => idx x < idx y) (live purged segs).
Proof.
  intros Hc%chain_sorted. by apply strongly_sorted_filter.
Qed.

(** The segments behind number [q], by the table. *)
Lemma drop_stale_ok metas A q ps B :
  Forall2 meta_of metas (A ++ (q, ps) :: B) -> sorted_seqs (A ++ (q, ps) :: B) ->
  let stale := meta_seq <$> filter (fun m => q < meta_seq m) metas in
  remove_files stale (seg_file <$> (A ++ (q, ps) :: B)) = seg_file <$> (A ++ [(q, ps)]) /\
  Forall2 meta_of (filter (fun m => meta_seq m ∉ stale) metas) (A ++ [(q, ps)]).
Proof.
  intros Hm Hs stale.
  assert (Estale : stale = filter (fun z => q < z) (A ++ (q, ps) :: B).*1).
  { unfold stale. rewrite <- (metas_seqs _ _ Hm). symmetry. by apply filter_fmap_key. }
  assert (Hkept : filter (fun g : Seg => ~ g.1 ∈ stale) (A ++ (q, ps) :: B) = A ++ [(q, ps)]).
  { unfold sorted_seqs in Hs. rewrite fmap_app, fmap_cons in Hs.
    apply strongly_sorted_app_inv in Hs as (_ & Hs & Hlt). inversion Hs as [|? ? _ Hf]; subst.
    rewrite filter_app, filter_cons, decide_True.
    - rewrite (list_filter_all _ A), (list_filter_none _ B); [done| |].
      + intros g Hg Hn. apply Hn. rewrite Estale. apply list_elem_of_filter.
        rewrite Forall_fmap, Forall_forall in Hf. split; [by apply Hf|].
        apply list_elem_of_fmap_2, elem_of_app. right. by right.
      + intros g Hg Hn. rewrite Estale in Hn. apply list_elem_of_filter in Hn as [Hn _].
        specialize (Hlt g.1 q (list_elem_of_fmap_2 fst _ _ Hg) ltac:(left)). lia.
    - rewrite Estale. intros [Hn _]%list_elem_of_filter. simpl in Hn. lia. }
  split; [by rewrite remove_files_segs, Hkept|]. rewrite <- Hkept. by apply metas_kept.
Qed.

(** What the cut point says: the segments split there, and the kept index and last log id describe
    what is before it. *)
Record cut_at s segs (last_log_id : option LogIdOf) A q ps1 ps2 B : Prop := {
  ct_segs : segs = A ++ (q, ps1 ++ ps2) :: B;
  ct_point : cut_point (id_index <$> last_log_id) s = (q, length (seg_bytes ps1));
  ct_index : keep_index (id_index <$> last_log_id) (ls_index s) = key_of <$> live (ls_last_purged s) (A ++ [(q, ps1)]);
  ct_last : truncated_last (fst <$> last (keep_index (id_index <$> last_log_id) (ls_index s))) last_log_id =
            last_id (dir_entries (A ++ [(q, ps1)]));
  ct_bound : last_index_of (entries_in (q, ps1)) None =
             match last (keep_index (id_index <$> last_log_id) (ls_index s)) with
             | Some (i, loc) => if loc_seq loc =? q then Some i else None
             | None => None
             end;
  ct_above : forall x, last (dir_entries (A ++ [(q, ps1)])) = Some x -> above (ls_last_purged s) x;
  ct_live : live (ls_last_purged s) (A ++ [(q, ps1)]) =
            match last_log_id with
            | Some id => filter (fun x => idx x <= id_index id) (live (ls_last_purged s) segs)
            | None => []
            end;
}.

(** Nothing is kept: the cut is behind the header of the first segment. *)
Lemma cut_all s segs last_log_id :
  wal_ok s segs ->
  keep_index (id_index <$> last_log_id) (ls_index s) = [] ->
  (match last_log_id with Some id => filter (fun x => idx x <= id_index id) (live (ls_last_purged s) segs) | None => [] end) = [] ->
  exists q ps2 B, cut_at s segs last_log_id [] q [] ps2 B.
Proof.
  intros Hok Hk Hl. destruct segs as [|[q ps] B].
  { destruct (wo_writer _ _ Hok) as (segs' & ? & E & _). by destruct segs'. }
  exists q, ps, B. split; rewrite ?Hk; try done.
  unfold cut_point. assert (E : ((id_index <$> last_log_id) ≫= fun upto => last_upto upto (ls_index s)) = None).
  { destruct last_log_id as [id|]; [|done]. cbn. unfold last_upto. cbn in Hk. by rewrite Hk. }
  rewrite E. pose proof (to_metas _ _ _ _ _ _ (wo_table _ _ Hok)) as Hm.
  apply Forall2_cons_inv_r in Hm as (m & ms & [Hq _] & _ & ->). cbn. by rewrite Hq.
Qed.

(** The cut behind the last entry at or below [upto]. *)
Lemma cut_behind s segs id x :
  wal_ok s segs ->
  last (filter (fun x => idx x <= id_index id) (live (ls_last_purged s) segs)) = Some x ->
  entry_log_id x.1 = id ->
  exists A q ps1 ps2 B, cut_at s segs (Some id) A q ps1 ps2 B.
Proof.
  intros Hok Hlast Hid. pose proof (wo_table _ _ Hok) as Ht.
  pose proof (last_elem _ _ Hlast) as Hx. apply list_elem_of_filter in Hx as [Hle Hx].
  pose proof Hx as [Hab Hdir]%list_elem_of_filter.
  destruct (entry_lies_at _ _ Hdir) as (A & q & ps1 & p & ps2 & B & Esegs & Ed & Eloc).
  pose proof (to_chain _ _ _ _ _ _ Ht) as Hc. pose proof (chain_sorted _ _ Hc) as Hsort.
  set (segs' := A ++ [(q, ps1 ++ [p])]).
  assert (Ecut : dir_entries segs' = dir_entries (A ++ [(q, ps1)]) ++ [x]).
  { unfold segs'. rewrite (cut_last _ _ _ _ _ Ed), <- Eloc. by destruct x. }
  assert (Eall : exists rest, dir_entries segs = dir_entries segs' ++ rest).
  { rewrite Esegs. replace (ps1 ++ p :: ps2) with ((ps1 ++ [p]) ++ ps2) by (by rewrite <- app_assoc).
    rewrite cut_entries. by eexists. }
  destruct Eall as [rest Eall].
  assert (Elast : last (dir_entries segs') = Some x) by (by rewrite Ecut, last_snoc).
  assert (Hlive : live (ls_last_purged s) segs' =
            filter (fun x => idx x <= id_index id) (live (ls_last_purged s) segs)).
  { unfold live. rewrite Eall, !filter_app, (list_filter_none _ (filter _ rest)), app_nil_r.
    - symmetry. apply list_filter_all. intros y [_ Hy]%list_elem_of_filter.
      rewrite Eall in Hsort. apply strongly_sorted_app_inv in Hsort as (Hs1 & _ & _).
      pose proof (sorted_le_last _ _ Hs1 Elast) as Hm. rewrite Forall_forall in Hm. specialize (Hm y Hy). lia.
    - intros y Hy Hyle. pose proof Hy as [_ Hyr]%list_elem_of_filter.
      rewrite Eall in Hsort. apply strongly_sorted_app_inv in Hsort as (_ & _ & Hlt).
      specialize (Hlt x y (last_elem _ _ Elast) Hyr).
      assert (Hs2 : StronglySorted (fun x y => idx x < idx y)
                (filter (fun x => idx x <= id_index id) (live (ls_last_purged s) segs))).
      { by apply strongly_sorted_filter, live_idx_sorted. }
      pose proof (sorted_le_last _ _ Hs2 Hlast) as Hm. rewrite Forall_forall in Hm.
      assert (Hyin : y ∈ filter (fun x => idx x <= id_index id) (live (ls_last_purged s) segs)).
      { apply list_elem_of_filter. split; [done|]. unfold live. rewrite Eall, filter_app.
        apply elem_of_app. by right. }
      specialize (Hm y Hyin). lia. }
  assert (Hkeep : keep_index (id_index <$> Some id) (ls_index s) = key_of <$> live (ls_last_purged s) segs').
  { cbn. rewrite (to_index _ _ _ _ _ _ Ht), Hlive. apply filter_fmap_key. intros ?. reflexivity. }
  assert (Hkl : last (keep_index (id_index <$> Some id) (ls_index s)) = Some (key_of x)).
  { by rewrite Hkeep, Hlive, fmap_last, Hlast. }
  exists A, q, (ps1 ++ [p]), ps2, B. split; fold segs'.
  - by rewrite Esegs, <- app_assoc.
  - unfold cut_point. cbn in Hkl |- *. unfold last_upto. rewrite Hkl. cbn. rewrite Eloc. cbn.
    by rewrite seg_bytes_app, length_app, frames_cons, frames_nil, app_nil_r, frame_length, Nat2Z.id, Nat.add_assoc.
  - exact Hkeep.
  - assert (El : last_id (dir_entries segs') = Some id) by (unfold last_id; rewrite Elast; cbn; by rewrite Hid).
    rewrite El, Hkl. cbn. unfold entry_index. by rewrite Hid, Z.eqb_refl.
  - rewrite Hkl. cbn. rewrite Eloc. cbn. rewrite Z.eqb_refl. unfold last_index_of, entries_in. cbn [fst snd].
    rewrite seg_entries_app. cbn. rewrite Ed. cbn. by rewrite last_snoc.
  - intros y Hy. rewrite Elast in Hy. by injection Hy as <-.
  - exact Hlive.
Qed.
Lemma truncate_cut_ok s segs last_log_id A q ps1 ps2 B :
  wal_ok s segs -> cut_at s segs last_log_id A q ps1 ps2 B ->
  let '(s', r) := truncate_after_blocking last_log_id s in
  r = Ok () /\ wal_ok s' (A ++ [(q, ps1)]) /\ ls_vote s' = ls_vote s /\ ls_last_purged s' = ls_last_purged s.
Proof.
  intros [Ht Hw Hst] [Esegs Hpoint Hindex Hlast Hbound Habove _]. subst segs.
  unfold truncate_after_blocking, finish_truncate. rewrite Hpoint.
  destruct Ht as [Hf Hseg Hseqs Hrange Hc Hm Hi Hl Hp].
  destruct (drop_stale_ok _ A q _ B Hm Hseqs) as [Hfiles Hmetas].
  set (s1 := drop_stale q s). set (stale := meta_seq <$> _) in Hfiles, Hmetas.
  assert (Hs' : sorted_seqs (A ++ [(q, ps1 ++ ps2)])).
  { unfold sorted_seqs in *. rewrite fmap_app in *. cbn in *.
    apply strongly_sorted_app_inv in Hseqs as (? & _ & Hlt). apply strongly_sorted_app; [done|by repeat constructor|].
    intros a b Ha ->%list_elem_of_singleton. apply Hlt; [done|left]. }
  assert (Hfind : exists m, find_meta q (ls_segments s1) = Some m).
  { apply Forall2_app_inv_r in Hmetas as (ms1 & ms2 & _ & Hm2 & Ems).
    apply Forall2_cons_inv_r in Hm2 as (m & ms3 & [Hq _] & _ & ->).
    unfold find_meta. destruct (List.find _ _) as [m'|] eqn:E; [by exists m'|].
    exfalso. assert (Hin : List.In m (ls_segments s1)).
    { apply list_elem_of_In. change (m ∈ filter (fun m => meta_seq m ∉ stale) (ls_segments s)).
      rewrite Ems. apply elem_of_app. right. left. }
    apply (List.find_none _ _ E) in Hin. simpl in Hin. apply Z.eqb_neq in Hin. by apply Hin. }
  destruct Hfind as [m Hfind]. unfold reopen. rewrite Hfind. split; [done|]. split; [|done].
  assert (Hres : forall len, len = length (seg_bytes ps1) ->
            update_file q (fun file => take len file ++ replicate (len - length file) 0)
              (wd_segments (ls_dir s1)) = seg_file <$> (A ++ [(q, ps1)])).
  { intros len ->. unfold s1, drop_stale. cbn [wd_segments ls_dir set_segments set_files]. fold stale.
    rewrite Hf, Hfiles, update_file_last by done. rewrite fmap_app. f_equal. cbn. unfold seg_file. cbn [fst snd].
    rewrite seg_bytes_app, take_app_length, length_app.
    replace (length (seg_bytes ps1) - _)%nat with 0%nat by lia. by rewrite app_nil_r. }
  split.
  - cbn [ls_last_purged ls_dir wd_segments ls_segments ls_index ls_last_log_id set_runtime set_segments set_index
         set_writer set_files]. rewrite (Hres _ eq_refl). split.
    + done.
    + apply Forall_app in Hseg as [? Hseg]. apply Forall_cons in Hseg as [Hseg _]. apply Forall_app.
      split; [done|]. repeat constructor. by apply Forall_app in Hseg as [? _].
    + unfold sorted_seqs in *. by rewrite fmap_app in *.
    + rewrite fmap_app, Forall_app in *. destruct Hrange as [? Hrange]. split; [done|].
      apply Forall_cons in Hrange as [? _]. by constructor.
    + rewrite cut_entries in Hc. by apply chain_app in Hc as [? _].
    + eapply metas_last; [exact Hmetas|exact Hs'| |].
      * intros m' Hm'. unfold rebound. by rewrite (proj2 (Z.eqb_neq _ _)).
      * intros m' [Hm' _]. unfold rebound. cbn in Hm'. rewrite Hm', Z.eqb_refl. split; [done|].
        cbn [meta_last_index]. by rewrite Hbound.
    + exact Hindex.
    + exact Hlast.
    + intros id x Hid Hx. specialize (Habove x Hx).
      change (ls_last_purged s1) with (ls_last_purged s) in Hid. by rewrite Hid in Habove.
  - exists A, ps1. done.
  - exact Hst.
Qed.

(** The log id openraft may truncate after: an entry's, or one below every entry. *)
Definition truncatable (last_log_id : option LogIdOf) (L : Log) : Prop :=
  match last_log_id with
  | Some id => (exists e, e ∈ log_entries L /\ entry_log_id e = id) \/
               Forall (fun e => id_index id < entry_index e) (log_entries L)
  | None => True
  end.

Definition truncate_log (last_log_id : option LogIdOf) (L : Log) : Log :=
  mkLog (log_vote L) (log_purged L)
    (match last_log_id with
     | Some id => filter (fun e => entry_index e <= id_index id) (log_entries L)
     | None => []
     end).

Lemma sorted_inj l x y :
  StronglySorted (fun x y => idx x < idx y) l -> x ∈ l -> y ∈ l -> idx x = idx y -> x = y.
Proof.
  induction 1 as [|z l _ IH Hf]; [by intros ?%not_elem_of_nil|]. rewrite Forall_forall in Hf.
  intros [->|Hx]%elem_of_cons [->|Hy]%elem_of_cons E; [done|..|by apply IH].
  - specialize (Hf _ Hy). lia.
  - specialize (Hf _ Hx). lia.
Qed.

Lemma cut_exists last_log_id s segs :
  wal_ok s segs -> truncatable last_log_id (mkLog (ls_vote s) (ls_last_purged s) (entries_of s segs)) ->
  exists A q ps1 ps2 B, cut_at s segs last_log_id A q ps1 ps2 B.
Proof.
  intros Hok Htr. pose proof (wo_table _ _ Hok) as Ht. destruct last_log_id as [id|].
  - destruct (last (filter (fun x => idx x <= id_index id) (live (ls_last_purged s) segs))) as [x|] eqn:El.
    + apply cut_behind with x; [done..|]. pose proof (last_elem _ _ El) as Hx.
      apply list_elem_of_filter in Hx as [Hle Hx].
      pose proof (live_idx_sorted (ls_last_purged s) segs (to_chain _ _ _ _ _ _ Ht)) as Hs.
      destruct Htr as [(e & He & Hid)|Hall].
      * apply list_elem_of_fmap in He as (y & -> & Hy). rewrite <- Hid. f_equal. f_equal.
        apply (sorted_inj _ _ _ Hs); [done..|].
        assert (Hle' : idx y <= idx x).
        { pose proof (sorted_le_last _ _ (strongly_sorted_filter _ (fun x => idx x <= id_index id) _ Hs) El) as Hm.
          rewrite Forall_forall in Hm. apply Hm, list_elem_of_filter. split; [|done].
          unfold idx, entry_index. rewrite Hid. lia. }
        unfold idx at 2 in Hle'. unfold idx, entry_index in *. rewrite Hid in *. lia.
      * exfalso. rewrite Forall_forall in Hall. specialize (Hall x.1 (list_elem_of_fmap_2 fst _ _ Hx)).
        unfold idx in Hle. lia.
    + apply last_None in El. exists []. destruct (cut_all s segs (Some id) Hok) as (q & ps2 & B & Hcut); [|done|].
      { cbn. rewrite (to_index _ _ _ _ _ _ Ht), (filter_fmap_key key_of _ (fun x => idx x <= id_index id))
          by (intros ?; reflexivity). by rewrite El. }
      by exists q, [], ps2, B.
  - destruct (cut_all s segs None Hok) as (q & ps2 & B & Hcut); [done..|]. by exists [], q, [], ps2, B.
Qed.

Lemma truncate_after_ok last_log_id s L :
  implements s L -> truncatable last_log_id L ->
  let '(s', r) := truncate_after_blocking last_log_id s in
  r = Ok () /\ implements s' (truncate_log last_log_id L).
Proof.
  intros (segs & Hok & ->) Htr. destruct (cut_exists _ _ _ Hok Htr) as (A & q & ps1 & ps2 & B & Hcut).
  pose proof (truncate_cut_ok s segs last_log_id A q ps1 ps2 B Hok Hcut) as Hres.
  destruct (truncate_after_blocking last_log_id s) as [s' r]. destruct Hres as (-> & Hok' & Ev & Ep).
  split; [done|]. exists (A ++ [(q, ps1)]). split; [done|]. unfold truncate_log, entries_of.
  rewrite Ev, Ep, (ct_live _ _ _ _ _ _ _ _ Hcut). cbn [log_vote log_purged log_entries]. f_equal.
  destruct last_log_id as [id|]; [|done]. by apply filter_fmap_key.
Qed.
(** ** Reading back *)

(** The payload of a located entry. *)
Definition payload_of (x : located) (p : list Z) : Prop :=
  decode_record p = Some (WalEntry x.1) /\ loc_len x.2 = Z.of_nat (length p) /\
  Z.of_nat (length p) <= MAX_RECORD_LEN.

(** The entry's frame is in [file] at its offset. *)
Definition frame_at (file : list Z) (x : located) : Prop :=
  exists p, payload_of x p /\
    drop (loc_offset x.2) file = frame p ++ drop (loc_offset x.2 + RECORD_HEADER_LEN + length p) file.

Lemma parse_run_ok ys : forall pys pre out,
  Forall2 payload_of ys pys ->
  parse_run (pre ++ frames pys) (length pre) (snd <$> ys) out = Ok (out ++ ys.*1).
Proof.
  induction ys as [|y ys IH]; intros pys pre out Hps.
  - cbn. by rewrite app_nil_r.
  - apply Forall2_cons_inv_l in Hps as (p & pys' & (Ed & El & Hmax) & Hps & ->).
    rewrite frames_cons, fmap_cons. cbn [parse_run].
    change (length pre + RECORD_HEADER_LEN)%nat with (length pre + 8)%nat.
    rewrite frame_header_len, frame_header_crc by done. rewrite El, Z.eqb_refl, Nat2Z.id. cbn [negb].
    rewrite (frame_payload pre p (frames pys')) by done. rewrite Z.eqb_refl, Ed. cbn [negb].
    replace (length pre + 8 + length p)%nat with (length (pre ++ frame p))
      by (rewrite length_app, frame_length; unfold RECORD_HEADER_LEN; lia).
    rewrite app_assoc, IH by done. by rewrite <- app_assoc.
Qed.

Lemma contiguous_run_ok q file xs : forall pos,
  (pos <= length file)%nat -> (forall x, x ∈ xs -> loc_seq x.2 = q -> frame_at file x) ->
  exists ys zs pys, xs = ys ++ zs /\ Forall2 payload_of ys pys /\
    contiguous_run q pos (snd <$> xs) = (snd <$> ys, pos + length (frames pys), snd <$> zs)%nat /\
    drop pos file = frames pys ++ drop (pos + length (frames pys)) file /\
    (pos + length (frames pys) <= length file)%nat.
Proof.
  induction xs as [|x xs IH]; intros pos Hpos Hat.
  - exists [], [], []. rewrite frames_nil, Nat.add_0_r. done.
  - rewrite fmap_cons. cbn [contiguous_run].
    destruct (Z.eqb_spec (loc_seq x.2) q) as [Eq|?]; [case_bool_decide as Eo|]; cbn [andb].
    2,3: exists [], (x :: xs), []; rewrite frames_nil, Nat.add_0_r; done.
    destruct (Hat x (list_elem_of_here _ _) Eq) as (p & Hp & Edrop). rewrite Eo in Edrop.
    assert (Hle : (pos + RECORD_HEADER_LEN + length p <= length file)%nat).
    { apply (f_equal length) in Edrop. rewrite length_app, frame_length, !length_drop in Edrop. lia. }
    destruct (IH (pos + RECORD_HEADER_LEN + length p)%nat Hle) as (ys & zs & pys & -> & Hps & E & Ed & Hle').
    { intros. apply Hat; [by right|done]. }
    exists (x :: ys), zs, (p :: pys). split; [done|]. split; [by constructor|].
    rewrite (proj1 (proj2 Hp)), Nat2Z.id, E, frames_cons, length_app, frame_length, !Nat.add_assoc.
    split; [done|]. split; [|done]. by rewrite Edrop, Ed, app_assoc.
Qed.

(** Every located entry of the segments can be read through the store. *)
Definition readable s (x : located) : Prop :=
  exists file m, find_meta (loc_seq x.2) (ls_segments s) = Some m /\ meta_seq m = loc_seq x.2 /\
    file_of (loc_seq x.2) (wd_segments (ls_dir s)) = Some file /\ frame_at file x.

Lemma frame_at_le file x p :
  drop (loc_offset x.2) file = frame p ++ drop (loc_offset x.2 + RECORD_HEADER_LEN + length p) file ->
  (loc_offset x.2 + RECORD_HEADER_LEN + length p <= length file)%nat.
Proof.
  intros E. apply (f_equal length) in E. rewrite length_app, frame_length, !length_drop in E.
  unfold RECORD_HEADER_LEN in *. lia.
Qed.

Lemma read_runs_ok s : forall fuel xs out,
  (length xs <= fuel)%nat -> (forall x, x ∈ xs -> readable s x) ->
  read_runs fuel s (snd <$> xs) out = Ok (out ++ xs.*1).
Proof.
  induction fuel as [|fuel IH]; intros xs out Hf Hr.
  { destruct xs; [|simpl in Hf; lia]. cbn. by rewrite app_nil_r. }
  destruct xs as [|x xs]; [cbn; by rewrite app_nil_r|]. rewrite fmap_cons. cbn [read_runs].
  destruct (Hr x (list_elem_of_here _ _)) as (file & m & Hm & Hq & Hfile & p & Hp & Edrop).
  pose proof (frame_at_le _ _ _ Edrop) as Hle.
  destruct (contiguous_run_ok (loc_seq x.2) file xs (loc_offset x.2 + RECORD_HEADER_LEN + length p) Hle)
    as (ys & zs & pys & -> & Hps & E & Ed & Hle').
  { intros y Hy Eq. destruct (Hr y) as (file' & _ & _ & _ & Hfile' & Hat); [by right|].
    rewrite Eq, Hfile in Hfile'. by injection Hfile' as <-. }
  rewrite (proj1 (proj2 Hp)), Nat2Z.id, E, Hm. cbn [mbind option_bind]. rewrite Hq, Hfile.
  set (total := length (frames (p :: pys))).
  assert (Etot : (loc_offset x.2 + RECORD_HEADER_LEN + length p + length (frames pys) = loc_offset x.2 + total)%nat).
  { unfold total. rewrite frames_cons, length_app, frame_length. lia. }
  rewrite Etot in *. replace (loc_offset x.2 + total - loc_offset x.2)%nat with total by lia.
  unfold read_exact_at. rewrite bool_decide_eq_false_2 by lia.
  assert (Eslice : slice (loc_offset x.2) (loc_offset x.2 + total) file = frames (p :: pys)).
  { unfold slice. replace (loc_offset x.2 + total - loc_offset x.2)%nat with total by lia.
    rewrite Edrop, Ed, app_assoc, <- frames_cons. apply take_app_length. }
  rewrite Eslice. change (x.2 :: (snd <$> ys)) with (snd <$> (x :: ys)).
  pose proof (parse_run_ok (x :: ys) (p :: pys) [] out ltac:(by constructor)) as Hparse.
  cbn [app length] in Hparse. rewrite Hparse.
  rewrite IH.
  - by rewrite !fmap_cons, fmap_app, <- app_assoc.
  - simpl in Hf. rewrite length_app in Hf. lia.
  - intros z Hz. apply Hr. right. apply elem_of_app. by right.
Qed.

Lemma entries_readable s segs x : wal_ok s segs -> x ∈ dir_entries segs -> readable s x.
Proof.
  intros Hok Hx. destruct (entry_lies_at _ _ Hx) as (A & q & ps1 & p & ps2 & B & -> & Ed & Eloc).
  pose proof (wo_table _ _ Hok) as Ht. unfold readable. rewrite Eloc. cbn [loc_seq].
  assert (Hin : (q, ps1 ++ p :: ps2) ∈ A ++ (q, ps1 ++ p :: ps2) :: B) by (apply elem_of_app; right; left).
  exists (seg_bytes (ps1 ++ p :: ps2)).
  pose proof Hin as [i Hi]%list_elem_of_lookup_1.
  destruct (Forall2_lookup_r _ _ _ _ _ (to_metas _ _ _ _ _ _ Ht) Hi) as (m & Hm & [Hq _]).
  exists m. split.
  { eapply find_meta_Some; [by eapply table_NoDup|by eapply list_elem_of_lookup_2|done]. }
  split; [done|]. split.
  { rewrite (to_files _ _ _ _ _ _ Ht). exact (file_of_seg _ _ (to_seqs _ _ _ _ _ _ Ht) Hin). }
  exists p. split.
  - split; [done|]. rewrite Eloc. split; [done|].
    pose proof (to_segs _ _ _ _ _ _ Ht) as Hs. rewrite Forall_forall in Hs. specialize (Hs _ Hin).
    apply Forall_app in Hs as [_ Hs]. by apply Forall_cons in Hs as [[? _] _].
  - rewrite Eloc. cbn [loc_offset]. rewrite seg_bytes_app, drop_app_length, frames_cons. f_equal.
    rewrite <- Nat.add_assoc, <- frame_length, <- drop_drop, drop_app_length. by rewrite drop_app_length.
Qed.

Lemma read_back s segs lo hi :
  wal_ok s segs -> range_panics lo hi = false ->
  try_get_log_entries lo hi s =
  Ret (Ok (filter (fun e => in_range lo hi (entry_index e) = true) (entries_of s segs))).
Proof.
  intros Hok Hp. unfold try_get_log_entries. rewrite Hp.
  rewrite (to_index _ _ _ _ _ _ (wo_table _ _ Hok)).
  rewrite (filter_fmap_key key_of _ (fun x => in_range lo hi (idx x) = true)) by (intros ?; reflexivity).
  unfold entries_of. rewrite (filter_fmap_key fst _ (fun x => in_range lo hi (idx x) = true)) by (intros ?; reflexivity).
  set (xs := filter _ (live _ segs)). rewrite <- list_fmap_compose.
  change (snd ∘ key_of <$> xs) with (snd <$> xs).
  assert (Hread : read_entries_blocking (snd <$> xs) s = Ok xs.*1).
  { unfold read_entries_blocking. rewrite read_runs_ok; [done|by rewrite length_fmap|].
    intros y Hy. apply (entries_readable s segs); [done|].
    apply list_elem_of_filter in Hy as [_ Hy]. by apply list_elem_of_filter in Hy as [_ ?]. }
  rewrite <- Hread. by destruct xs.
Qed.
End Cut.
