(* ===== verification/LogStoreSpec.v ===== *)
(** * The write-ahead log: what it promises

    The abstract log of a store, the operations on it, and the theorems: every sequence of
    operations, failed writes and restarts included, implements the abstract log; a crash inside
    an append, with the writes before it on disk, loses at most the part of that batch that did not
    reach it; recovery of damaged directories. *)

From stdpp Require Import list.
From S2P Require Import Prelude BTree SnapshotFile LogStore LogStoreInv LogRecover LogOps LogWrite LogCut.

Section Spec.
Context `{!RaftLogTypes, !RaftLogLaws, !WalCodec, !WalCodecLaws, !Crc32, !Crc32Laws}.
Implicit Types (s : LogStore) (L : Log) (es : list LogEntry).

(** ** Reopening *)

Lemma recovered_seqs (segs : list Seg) (found : list (Z * list Z)) k :
  Forall2 from_file segs (take k found) -> segs.*1 = take k found.*1.
Proof.
  intros Hf. rewrite <- fmap_take. induction Hf as [|g f gs fs [E _] _ IH]; [done|].
  by rewrite !fmap_cons, E, IH.
Qed.

(** A directory of whole segments whose last file recovers to a segment that continues them. *)
Lemma reopen_ok size ms segs seq bytes ps state persisted :
  Forall seg_ok segs -> last_recovers (negb (is_every_append (FsyncPolicy_from_option ms))) seq bytes ps ->
  chain None (dir_entries (segs ++ [(seq, ps)])) -> sorted_seqs (segs ++ [(seq, ps)]) ->
  Forall (fun q => 0 <= q <= U32_MAX) (segs ++ [(seq, ps)]).*1 -> decoded_state state = Some persisted ->
  exists s, open_log size ms (mkWalDir ((seg_file <$> segs) ++ [(seq, bytes)]) state) = Ok s /\
    implements s (mkLog (ps_vote persisted) (ps_last_purged persisted)
                    (live (ps_last_purged persisted) (segs ++ [(seq, ps)])).*1).
Proof.
  intros Hsegs Hlast Hc Hs Hr Hd.
  destruct (recover_segments_exact _ segs seq bytes ps Scan_new Hsegs Hlast) as (files & metas & sc & E & Hrec);
    [done|exact Hc|].
  destruct (open_recovered size ms (mkWalDir ((seg_file <$> segs) ++ [(seq, bytes)]) state)
              _ files metas sc persisted E Hrec Hs Hr Hd) as (s & segs' & Eo & Hok & Ev & Ep & He).
  exists s. split; [exact Eo|]. exists segs'. split; [done|]. by rewrite Ev, Ep, He.
Qed.

Lemma reopen_same size ms s L : implements s L -> exists s', open_log size ms (ls_dir s) = Ok s' /\ implements s' L.
Proof.
  intros (segs & [Ht (segs' & ps & -> & Hlen) Hst] & ->).
  pose proof (to_segs _ _ _ _ _ _ Ht) as Hsegs. apply Forall_app in Hsegs as [Hsegs Hps].
  apply Forall_cons in Hps as [Hps _].
  destruct (reopen_ok size ms segs' (ls_writer_seq s) (seg_bytes ps ++ []) ps (wd_state (ls_dir s))
              (mkPersisted (ls_vote s) (ls_last_purged s))) as (s' & E & Him);
    [done|apply last_torn; [done|by left]|apply Ht..|done|].
  exists s'. split; [|exact Him]. rewrite <- E, app_nil_r.
  rewrite <- (dir_eta s), (to_files _ _ _ _ _ _ Ht), fmap_app. done.
Qed.

(** ** The abstract log *)

(** The log id openraft is told as the last one, and the index that follows it. *)
Definition log_last L : option LogIdOf :=
  match last (log_entries L) with Some e => Some (entry_log_id e) | None => log_purged L end.

Definition log_next L : option Z := (fun id => id_index id + 1) <$> log_last L.

Lemma last_filter_last {A} (P : A -> Prop) `{forall x, Decision (P x)} (l : list A) x :
  last l = Some x -> P x -> last (filter P l) = Some x.
Proof.
  intros [l' ->]%last_Some Hx. rewrite filter_app, filter_cons, decide_True by done.
  by rewrite filter_nil, last_snoc.
Qed.

Lemma get_log_state_ok s L : implements s L -> get_log_state s = (log_purged L, log_last L).
Proof.
  intros (segs & [Ht _ _] & ->). unfold get_log_state, log_last. cbn [log_purged log_entries].
  rewrite (to_last _ _ _ _ _ _ Ht). unfold last_id, entries_of. rewrite fmap_last.
  destruct (last (dir_entries segs)) as [x|] eqn:El; cbn.
  - unfold live. rewrite (last_filter_last _ _ x El); [done|]. unfold above.
    destruct (ls_last_purged s) eqn:Ep; [|done]. by apply (to_purged _ _ _ _ _ _ Ht).
  - apply last_None in El. unfold live. by rewrite El.
Qed.

Inductive WalOp : Type :=
| OpAppend (io : WriteIo) (entries : list LogEntry)
| OpCommitted (io : WriteIo) (committed : option LogIdOf)
| OpVote (vote : VoteOf)
| OpPurge (log_id : LogIdOf)
| OpTruncate (last_log_id : option LogIdOf)
| OpReopen (segment_size : Z) (fsync_ms : option Z).

Definition run_op (op : WalOp) s : LogStore * Result unit WalError :=
  match op with
  | OpAppend io es => append_blocking io es s
  | OpCommitted io c => save_committed_blocking io c s
  | OpVote v => save_vote_blocking v s
  | OpPurge id => purge_blocking id s
  | OpTruncate id => truncate_after_blocking id s
  | OpReopen size ms => match open_log size ms (ls_dir s) with Ok s' => (s', Ok ()) | Err e => (s, Err e) end
  end.

Definition spec_op (op : WalOp) L : Log :=
  match op with
  | OpAppend _ es => append_log es L
  | OpVote v => mkLog (Some v) (log_purged L) (log_entries L)
  | OpPurge id => purge_log id L
  | OpTruncate id => truncate_log id L
  | OpCommitted _ _ | OpReopen _ _ => L
  end.

(** What openraft may ask for, and what the environment provides: batches continue the log, a purge
    does not go back, a truncation names an entry (or lies below the log), the codec encodes, records
    fit, and segment numbers are left. *)
Definition admissible (op : WalOp) s L : Prop :=
  match op with
  | OpAppend _ es =>
      Forall encodable es /\ consecutive (log_next L) es /\ ls_writer_seq s < U32_MAX
  | OpCommitted _ c =>
      (exists p, encode_record (WalCommitted c) = Some p /\ Z.of_nat (length p) <= MAX_RECORD_LEN) /\
      ls_writer_seq s < U32_MAX
  | OpVote v => is_Some (encode_state (mkPersisted (Some v) (log_purged L)))
  | OpPurge id =>
      (forall prev, log_purged L = Some prev -> id_index prev <= id_index id) /\
      is_Some (encode_state (mkPersisted (log_vote L) (Some id))) /\ ls_writer_seq s < U32_MAX
  | OpTruncate id => truncatable id L
  | OpReopen _ _ => True
  end.

(** Whether the operation's write is one that fails. *)
Definition faulty (op : WalOp) : Prop :=
  match op with
  | OpAppend io _ | OpCommitted io _ => io <> IoOk
  | _ => False
  end.

Lemma run_op_ok op s L :
  implements s L -> admissible op s L ->
  let '(s', r) := run_op op s in
  r = Ok () /\ implements s' (spec_op op L) \/ r = Err EIo /\ faulty op /\ implements s' L.
Proof.
  intros Him Had. pose proof Him as (segs & Hok & EL).
  assert (Ev : log_vote L = ls_vote s) by (by rewrite EL).
  assert (Ep : log_purged L = ls_last_purged s) by (by rewrite EL).
  destruct op as [io es|io c|v|id|id|size ms]; cbn [run_op spec_op faulty admissible] in *.
  - destruct Had as (Henc & Hcons & Hseq). apply append_blocking_ok; [done..| |done].
    unfold next_index. by rewrite (get_log_state_ok s L Him).
  - destruct Had as (Henc & Hseq). pose proof (save_committed_ok io c s L Him Hseq Henc) as Hr.
    destruct (save_committed_blocking io c s) as [s' r].
    destruct Hr as [Hi [[-> _]|(-> & Hio & _)]]; [by left|by right].
  - destruct Had as [bytes Hb]. rewrite Ep in Hb.
    pose proof (save_vote_ok v s L bytes Him Hb) as Hr.
    destruct (save_vote_blocking v s) as [s' r]. by left.
  - destruct Had as (Hmono & [bytes Hb] & Hseq). rewrite Ev in Hb. rewrite Ep in Hmono.
    pose proof (purge_blocking_ok id s L bytes Him Hseq Hmono Hb) as Hr.
    destruct (purge_blocking id s) as [s' r]. by left.
  - pose proof (truncate_after_ok id s L Him Had) as Hr.
    destruct (truncate_after_blocking id s) as [s' r]. by left.
  - destruct (reopen_same size ms s L Him) as (s' & -> & Hi). by left.
Qed.

(** A store and the log it should hold, after opening a fresh directory and any sequence of
    operations; an operation that reports an error leaves the log as it was. *)
Inductive wal_run : LogStore -> Log -> Prop :=
| run_fresh size ms s : open_log size ms (mkWalDir [] None) = Ok s -> wal_run s (mkLog None None [])
| run_done op s L s' : wal_run s L -> admissible op s L -> run_op op s = (s', Ok ()) -> wal_run s' (spec_op op L)
| run_failed op s L s' e : wal_run s L -> admissible op s L -> run_op op s = (s', Err e) -> wal_run s' L.

Lemma fresh_ok size ms : exists s, open_log size ms (mkWalDir [] None) = Ok s /\ implements s (mkLog None None []).
Proof.
  destruct (open_recovered size ms (mkWalDir [] None) [] [] [] Scan_new (mkPersisted None None))
    as (s & segs & E & Hok & Ev & Ep & He); [done|apply recovers_nil|constructor|constructor|done|].
  exists s. split; [done|]. exists segs. split; [done|]. by rewrite Ev, Ep, He.
Qed.

Lemma wal_run_implements s L : wal_run s L -> implements s L.
Proof.
  induction 1 as [size ms s E|op s L s' _ IH Had E|op s L s' e _ IH Had E].
  - destruct (fresh_ok size ms) as (s' & E' & Hi). rewrite E in E'. by injection E' as ->.
  - pose proof (run_op_ok op s L IH Had) as Hr. rewrite E in Hr. by destruct Hr as [[_ ?]|[? _]].
  - pose proof (run_op_ok op s L IH Had) as Hr. rewrite E in Hr. by destruct Hr as [[? _]|(_ & _ & ?)].
Qed.

(** ** Crashes *)

(** The directory a crash leaves while a batch is appended, with every earlier write still in it:
    nothing happened yet; the header of a new segment was written in part; the batch was written in
    part. Crashes that also lose earlier writes that were not synced are [crash_image] of [LogSync]. *)
Inductive append_crash s es : WalDir -> Prop :=
| crash_before : append_crash s es (ls_dir s)
| crash_rotating k :
    (k <= SEGMENT_HEADER_LEN)%nat ->
    append_crash s es (mkWalDir (bt_insert (ls_writer_seq s + 1) (take k segment_header)
                                   (wd_segments (ls_dir s))) (wd_state (ls_dir s)))
| crash_writing buf locs s' n :
    encode_entries es [] [] = Some (buf, locs) -> make_room (length buf) s = Ok s' ->
    append_crash s es (ls_dir (write_bytes (take n buf) s')).

Lemma prefix_take_fst (l1 l2 : list located) : exists k, l1.*1 = take k (l1 ++ l2).*1.
Proof. exists (length l1). by rewrite fmap_app, <- (length_fmap fst l1), take_app_length. Qed.

(** A batch written in part behind the active segment: its whole records are recovered. *)
Lemma crash_writing_ok s segs ps psa psb tail es size ms :
  wal_ok s (segs ++ [(ls_writer_seq s, ps)]) -> Forall payload_ok psa -> torn_tail true tail ->
  (seg_entries (ls_writer_seq s) (length (seg_bytes ps)) (psa ++ psb)).*1 = es ->
  consecutive (next_index s) es ->
  exists s' k,
    open_log size ms (mkWalDir ((seg_file <$> segs) ++ [(ls_writer_seq s, seg_bytes (ps ++ psa) ++ tail)])
                        (wd_state (ls_dir s))) = Ok s' /\
    implements s' (append_log (take k es)
                     (mkLog (ls_vote s) (ls_last_purged s) (entries_of s (segs ++ [(ls_writer_seq s, ps)])))).
Proof.
  intros [Ht _ Hst] Hpsa Htail Hes Hcons. rewrite seg_entries_app in Hes.
  set (la := seg_entries (ls_writer_seq s) (length (seg_bytes ps)) psa) in *. set (lb := seg_entries _ _ psb) in *.
  destruct (next_above _ _ _ _ _ _ (next_index s) (la ++ lb) Ht) as [Hch Hal].
  { unfold next_index, get_log_state. cbn [snd]. by destruct (ls_last_log_id s). }
  { apply chain_consecutive. by rewrite Hes. }
  rewrite app_assoc in Hch. apply chain_app in Hch as [Hch _].
  pose proof (dir_entries_extend segs (ls_writer_seq s) ps psa) as Hdir. fold la in Hdir.
  pose proof (to_segs _ _ _ _ _ _ Ht) as Hsg. apply Forall_app in Hsg as [Hsegs Hsg].
  apply Forall_cons in Hsg as [Hps _].
  destruct (reopen_ok size ms segs (ls_writer_seq s) (seg_bytes (ps ++ psa) ++ tail) (ps ++ psa)
              (wd_state (ls_dir s)) (mkPersisted (ls_vote s) (ls_last_purged s))) as (s' & E' & Hi).
  - done.
  - apply last_torn; [by apply Forall_app|done].
  - by rewrite Hdir.
  - pose proof (to_seqs _ _ _ _ _ _ Ht) as Hsq. unfold sorted_seqs in *. by rewrite fmap_app in *.
  - pose proof (to_range _ _ _ _ _ _ Ht) as Hrg. by rewrite fmap_app in *.
  - exact Hst.
  - destruct (prefix_take_fst la lb) as [k Ek]. rewrite Hes in Ek. exists s', k. split; [exact E'|].
    unfold append_log, entries_of. cbn [log_vote log_purged log_entries ps_vote ps_last_purged] in *.
    unfold live in *. rewrite Hdir, filter_app, fmap_app, (list_filter_all _ la), Ek in Hi; [done|].
    intros x Hx. apply Hal, elem_of_app. by left.
Qed.

(** A new segment whose header was written in part: nothing is lost or gained. *)
Lemma crash_rotating_ok s segs k size ms :
  wal_ok s segs -> ls_writer_seq s < U32_MAX -> (k <= SEGMENT_HEADER_LEN)%nat ->
  exists s', open_log size ms (mkWalDir (bt_insert (ls_writer_seq s + 1) (take k segment_header)
                                           (wd_segments (ls_dir s))) (wd_state (ls_dir s))) = Ok s' /\
    implements s' (mkLog (ls_vote s) (ls_last_purged s) (entries_of s segs)).
Proof.
  intros Hok Hseq Hk. destruct (rotate_ok s segs Hok Hseq) as (sr & _ & Hs & [Ht _ _]).
  destruct (reopen_ok size ms segs (ls_writer_seq s + 1) (take k segment_header) [] (wd_state (ls_dir s))
              (mkPersisted (ls_vote s) (ls_last_purged s))) as (s' & E & Hi);
    [apply (wo_table _ _ Hok)|by apply last_short|apply Ht..|apply Hok|].
  exists s'. split.
  - rewrite (to_files _ _ _ _ _ _ (wo_table _ _ Hok)), bt_insert_max; [done|].
    pose proof (writer_max s segs Hok) as Hmax. rewrite Forall_fmap in Hmax.
    rewrite Forall_fmap. eapply Forall_impl; [exact Hmax|]. simpl. lia.
  - cbn [ps_vote ps_last_purged] in Hi. unfold live in Hi. by rewrite empty_segment in Hi.
Qed.

Lemma append_crash_ok s es L d size ms :
  implements s L -> admissible (OpAppend IoOk es) s L -> append_crash s es d ->
  exists s' k, open_log size ms d = Ok s' /\ implements s' (append_log (take k es) L).
Proof.
  intros Him (Henc & Hcons & Hseq) Hcr.
  assert (Hnone : forall s', implements s' L -> implements s' (append_log (take 0 es) L)).
  { intros s' Hi. unfold append_log. cbn. rewrite app_nil_r. by destruct L. }
  pose proof Him as (segs & Hok & EL).
  destruct Hcr as [|k Hk|buf locs s1 n Eenc Eroom].
  - destruct (reopen_same size ms s L Him) as (s' & E & Hi). exists s', 0%nat. split; [done|by apply Hnone].
  - destruct (crash_rotating_ok s segs k size ms Hok Hseq Hk) as (s' & E & Hi).
    exists s', 0%nat. split; [exact E|]. apply Hnone. by rewrite EL.
  - destruct (encode_entries_ok es [] [] Henc) as (ps' & locs' & E & Hps' & Hloc).
    rewrite E in Eenc. injection Eenc as <- <-. cbn [app length] in *.
    destruct (make_room_ok (length (frames ps')) s segs Hok Hseq) as (s1' & segs1 & E1 & Hs & Hok1 & Ed).
    rewrite Eroom in E1. injection E1 as <-.
    destruct (wo_writer _ _ Hok1) as (segs' & ps & -> & Hlen).
    destruct (Hloc (ls_writer_seq s1) (length (seg_bytes ps))) as [Hes _]. rewrite Nat.add_0_r in Hes.
    destruct (frames_cut_tail ps' n Hps') as (psa & psb & tail & -> & Htail & Etake).
    apply Forall_app in Hps' as [Hpsa _].
    assert (Hcons' : consecutive (next_index s1) es).
    { unfold log_next, log_last in Hcons. unfold next_index. rewrite (get_log_state_ok s1 L); [done|].
      eapply implements_same; [exact Hok1|exact Hs|exact Ed|exact EL]. }
    destruct (crash_writing_ok s1 segs' ps psa psb tail es size ms Hok1 Hpsa Htail Hes Hcons') as (s' & k & E' & Hi).
    exists s', k. split.
    + rewrite <- E', <- (dir_eta (write_bytes _ _)). f_equal.
      rewrite (write_files s1 segs' ps) by apply (wo_table _ _ Hok1).
      by rewrite Etake, seg_bytes_app, <- app_assoc.
    + rewrite EL. unfold entries_of, live in Hi |- *. by rewrite (sa_vote _ _ Hs), (sa_purged _ _ Hs), Ed in Hi.
Qed.

(** ** Damaged directories *)

Lemma sorted_take segs_keys k : StronglySorted Z.lt segs_keys -> StronglySorted Z.lt (take k segs_keys).
Proof.
  intros Hs. rewrite <- (take_drop k segs_keys) in Hs. by apply strongly_sorted_app_inv in Hs as (? & _ & _).
Qed.

(** The lenient open of any directory, with the segments it keeps. *)
Lemma open_lenient size ms d persisted :
  FsyncPolicy_from_option ms <> EveryAppend ->
  StronglySorted Z.lt (wd_segments d).*1 -> Forall (fun q => 0 <= q <= U32_MAX) (wd_segments d).*1 ->
  Forall (fun f => Forall is_byte f.2) (wd_segments d) -> decoded_state (wd_state d) = Some persisted ->
  exists s segs k, open_log size ms d = Ok s /\ Forall2 from_file segs (take k (wd_segments d)) /\
    chain None (dir_entries segs) /\ Forall seg_ok segs /\
    implements s (mkLog (ps_vote persisted) (ps_last_purged persisted)
                    (live (ps_last_purged persisted) segs).*1).
Proof.
  intros Hp Hs Hr Hb Hd. destruct (recover_segments_lenient (wd_segments d) Scan_new) as (files & metas & sc & E).
  destruct (recover_segments_sound true (wd_segments d) Scan_new files metas sc Hb) as (segs & k & Hrec & Hf);
    [done|exact E|]. pose proof (recovered_seqs _ _ _ Hf) as Eq.
  assert (Ep : negb (is_every_append (FsyncPolicy_from_option ms)) = true).
  { by destruct (FsyncPolicy_from_option ms). }
  destruct (open_recovered size ms d segs files metas sc persisted) as (s & segs' & Eo & Hok & Ev & Epu & He).
  - by rewrite Ep.
  - exact Hrec.
  - unfold sorted_seqs. rewrite Eq. by apply sorted_take.
  - rewrite Eq. by apply Forall_take.
  - exact Hd.
  - exists s, segs, k. split; [exact Eo|]. split; [exact Hf|]. destruct Hrec as [_ Hseg _ Hc _].
    split; [exact Hc|]. split; [exact Hseg|]. exists segs'. split; [exact Hok|]. by rewrite Ev, Epu, He.
Qed.

(** ** Blocks of a chain *)

(** A chain of entries of another chain is a block of it. *)
Lemma chain_block l : forall n l' m,
  chain n l -> chain m l' -> (forall x, x ∈ l' -> x ∈ l) -> exists a b, l = a ++ l' ++ b.
Proof.
  induction l as [|y l IH]; intros n l' m Hc Hc' Hin.
  - exists [], []. destruct l' as [|x l']; [done|]. exfalso. by apply (not_elem_of_nil x), Hin; left.
  - destruct l' as [|x l']; [by exists [], (y :: l)|].
    pose proof (chain_sorted _ _ Hc) as Hs. inversion Hs as [|? ? Hs' Hf]; subst. rewrite Forall_forall in Hf.
    destruct Hc as [_ Hc]. pose proof Hc' as [_ Hct].
    pose proof (chain_ge _ _ Hct) as Hge. rewrite Forall_forall in Hge.
    pose proof (Hin x (list_elem_of_here _ _)) as Hx. apply elem_of_cons in Hx as [->|Hx].
    + destruct (IH _ l' _ Hc Hct) as (a & b & E).
      { intros z Hz. specialize (Hin z (list_elem_of_further _ _ _ Hz)). apply elem_of_cons in Hin as [->|?]; [|done].
        specialize (Hge _ Hz). unfold idx in Hge. lia. }
      destruct a as [|z a]; [by exists [], b; rewrite E|]. destruct l' as [|w l'].
      { exists [], l. done. }
      exfalso. cbn in E. subst l. destruct Hc as [Ez Hcz], Hct as [Ew _]. cbn in Ez, Ew.
      apply chain_ge in Hcz. rewrite Forall_forall in Hcz.
      specialize (Hcz w ltac:(apply elem_of_app; right; left)). unfold idx in Hcz. lia.
    + destruct (IH _ (x :: l') _ Hc Hc') as (a & b & E).
      { intros z Hz. specialize (Hin z Hz). apply elem_of_cons in Hin as [->|?]; [|done]. exfalso.
        pose proof (Hf _ Hx) as Hxy. apply elem_of_cons in Hz as [->|Hz]; [lia|].
        specialize (Hge _ Hz). unfold idx in *. lia. }
      exists (y :: a), b. by rewrite E.
Qed.

(** Files cut short: every segment file is there, with a prefix of its bytes. *)
Definition cut_short (d d' : WalDir) : Prop :=
  Forall2 (fun f f' => f'.1 = f.1 /\ f'.2 `prefix_of` f.2) (wd_segments d) (wd_segments d') /\
  wd_state d' = wd_state d.

Lemma prefix_bytes (l l' : list Z) : l' `prefix_of` l -> Forall is_byte l -> Forall is_byte l'.
Proof. intros [z ->] Hl. by apply Forall_app in Hl as [? _]. Qed.

Lemma cut_short_entries (segs segs' : list Seg) found k :
  Forall seg_ok segs -> Forall seg_ok segs' ->
  Forall2 (fun f f' : Z * list Z => f'.1 = f.1 /\ f'.2 `prefix_of` f.2) (seg_file <$> segs) found ->
  Forall2 from_file segs' (take k found) ->
  forall x, x ∈ dir_entries segs' -> x ∈ dir_entries segs.
Proof.
  intros Hok Hok' Hcut Hfrom x Hx. unfold dir_entries in *.
  apply list_elem_of_In, in_concat in Hx as (l & Hl & Hx). apply list_elem_of_In in Hl, Hx.
  apply list_elem_of_fmap in Hl as (g' & -> & Hg'). rewrite Forall_forall in Hok'. specialize (Hok' _ Hg').
  apply list_elem_of_lookup_1 in Hg' as [i Hi].
  destruct (Forall2_lookup_l _ _ _ _ _ Hfrom Hi) as (f' & Hf' & Eq & Hpre).
  apply lookup_take_Some in Hf' as [Hf' _].
  destruct (Forall2_lookup_r _ _ _ _ _ Hcut Hf') as (f & Hf & Ef & Hpre').
  rewrite list_lookup_fmap in Hf. destruct (segs !! i) as [g|] eqn:Hg; [|done]. injection Hf as <-.
  apply list_elem_of_lookup_2 in Hg. rewrite Forall_forall in Hok. specialize (Hok _ Hg).
  assert (Hps : g'.2 `prefix_of` g.2).
  { destruct Hpre as [->|Hpre]; [apply prefix_nil|]. apply frames_prefix; [done..|].
    apply (prefix_app_inv segment_header). change (seg_bytes g'.2 `prefix_of` seg_bytes g.2). by trans (f'.2). }
  destruct Hps as [z Ez]. apply list_elem_of_In, in_concat. exists (entries_in g).
  split; apply list_elem_of_In; [by apply list_elem_of_fmap_2|]. unfold entries_in in *.
  rewrite Eq, Ef in Hx. cbn [seg_file fst] in Hx. rewrite Ez, seg_entries_app. apply elem_of_app. by left.
Qed.

Lemma cut_short_ok size ms s L d :
  FsyncPolicy_from_option ms <> EveryAppend -> implements s L -> cut_short (ls_dir s) d ->
  exists s' L' a b, open_log size ms d = Ok s' /\ implements s' L' /\
    log_vote L' = log_vote L /\ log_purged L' = log_purged L /\
    log_entries L = a ++ log_entries L' ++ b.
Proof.
  intros Hp (segs & [Ht _ Hst] & ->) [Hcut Hstate]. rewrite (to_files _ _ _ _ _ _ Ht) in Hcut.
  assert (Eq : (wd_segments d).*1 = segs.*1).
  { rewrite <- seg_file_keys. clear -Hcut. induction Hcut as [|f f' l l' [E _] _ IH]; [done|].
    by rewrite !fmap_cons, E, IH. }
  destruct (open_lenient size ms d (mkPersisted (ls_vote s) (ls_last_purged s)) Hp)
    as (s' & segs' & k & E & Hf & Hc' & Hok' & Hi).
  - rewrite Eq. apply (to_seqs _ _ _ _ _ _ Ht).
  - rewrite Eq. apply (to_range _ _ _ _ _ _ Ht).
  - pose proof (to_segs _ _ _ _ _ _ Ht) as Hsg. clear -Hcut Hsg.
    assert (Hb : Forall (fun f => Forall is_byte f.2) (seg_file <$> segs)).
    { rewrite Forall_fmap. eapply Forall_impl; [exact Hsg|]. intros g Hg. by apply seg_bytes_bytes. }
    induction Hcut as [|f f' l l' [_ Hpre] _ IH]; [constructor|].
    apply Forall_cons in Hb as [Hb1 Hb]. constructor; [by eapply prefix_bytes|by apply IH].
  - by rewrite Hstate.
  - destruct (chain_block _ _ _ _ (to_chain _ _ _ _ _ _ Ht) Hc'
                (cut_short_entries _ _ _ _ (to_segs _ _ _ _ _ _ Ht) Hok' Hcut Hf)) as (a & b & Eab).
    eexists s', _, (filter (above (ls_last_purged s)) a).*1, (filter (above (ls_last_purged s)) b).*1.
    split; [exact E|]. split; [exact Hi|]. split; [done|]. split; [done|]. cbn [log_entries ps_last_purged].
    unfold entries_of, live. by rewrite Eab, !filter_app, !fmap_app.
Qed.

(** ** What a store serves *)

(** The reads openraft makes answer for the log [L], whose indices are consecutive. *)
Definition serves s L : Prop :=
  (forall lo hi, range_panics lo hi = false ->
     try_get_log_entries lo hi s =
     Ret (Ok (filter (fun e => in_range lo hi (entry_index e) = true) (log_entries L)))) /\
  get_log_state s = (log_purged L, log_last L) /\ read_vote s = log_vote L /\
  consecutive None (log_entries L).

Lemma above_chain id l : forall n, chain n l -> chain None (filter (above (Some id)) l).
Proof.
  induction l as [|x l IH]; intros n Hc; [done|]. rewrite filter_cons. destruct Hc as [Hx Hc].
  case_decide as Ha; [|by apply (IH _ Hc)].
  rewrite list_filter_all; [by split|]. intros y Hy. apply chain_ge in Hc. rewrite Forall_forall in Hc.
  specialize (Hc y Hy). unfold above, idx in *. lia.
Qed.

Lemma live_chain purged segs files metas index last_log_id :
  table_ok purged segs files metas index last_log_id -> consecutive None (live purged segs).*1.
Proof.
  intros Ht. pose proof (to_chain _ _ _ _ _ _ Ht) as Hc. apply chain_consecutive.
  destruct purged as [id|]; [by apply above_chain with None|by rewrite live_None].
Qed.

Lemma implements_serves s L : implements s L -> serves s L.
Proof.
  intros Him. pose proof Him as (segs & Hok & EL). split; [|split; [|split]].
  - intros lo hi Hr. rewrite EL. by apply read_back.
  - by apply get_log_state_ok.
  - by rewrite EL.
  - rewrite EL. cbn. by eapply live_chain, (wo_table _ _ Hok).
Qed.
(** ** The theorems *)

(** C5: The write-ahead log implements a log. After opening a fresh directory and any sequence of
    appends, commit markers, votes, purges, truncations and restarts (under any segment size and
    fsync policy, with writes and fsyncs that fail), the reads openraft makes answer for the abstract
    log those operations describe, whose indices are consecutive; and every admissible operation
    succeeds, except that a failing write or fsync is reported and leaves the log as it was. *)
Theorem wal_refines_log s L :
  wal_run s L ->
  serves s L /\
  forall op, admissible op s L ->
    let '(s', r) := run_op op s in
    r = Ok () /\ serves s' (spec_op op L) \/ r = Err EIo /\ faulty op /\ serves s' L.
Proof.
  intros Hrun%wal_run_implements. split; [by apply implements_serves|]. intros op Had.
  pose proof (run_op_ok op s L Hrun Had) as Hr. destruct (run_op op s) as [s' r].
  destruct Hr as [[-> Hi]|(-> & Hf & Hi)]; [left|right]; auto using implements_serves.
Qed.

(** C9: A torn append damages nothing but itself. Let a process die while it appends a batch to a
    running log, with every write it made before still on disk: this is so when only the process dies,
    and after a power cut when the writes before were synced; what a power cut costs under the policies
    that leave acknowledged writes unsynced is not said here ([crash_loses_only_unsynced],
    [periodic_sync_bounds_loss]). Wherever the batch's own writes are cut, in the header of a new
    segment or at any byte of the batch, the next open succeeds, whatever policy it is given, with the
    same vote and purge marker, every entry there was before and, behind them, a prefix of the batch. *)
Theorem wal_crash_keeps_prefix s L es d size ms :
  wal_run s L -> admissible (OpAppend IoOk es) s L -> append_crash s es d ->
  exists s' k, open_log size ms d = Ok s' /\ serves s' (append_log (take k es) L).
Proof.
  intros Hrun%wal_run_implements Had Hcr.
  destruct (append_crash_ok s es L d size ms Hrun Had Hcr) as (s' & k & E & Hi).
  exists s', k. split; [exact E|by apply implements_serves].
Qed.

(** C24: Unless every append is fsynced, a log always opens. Whatever bytes the segment files hold,
    in any number and order of damage, opening succeeds as long as the state file decodes, with
    the stored vote and purge marker, and serves a log with consecutive indices above the marker. *)
Theorem wal_opens_any_bytes size ms d persisted :
  FsyncPolicy_from_option ms <> EveryAppend ->
  StronglySorted Z.lt (wd_segments d).*1 -> Forall (fun q => 0 <= q <= U32_MAX) (wd_segments d).*1 ->
  Forall (fun f => Forall is_byte f.2) (wd_segments d) -> decoded_state (wd_state d) = Some persisted ->
  exists s L, open_log size ms d = Ok s /\ serves s L /\ log_vote L = ps_vote persisted /\
    log_purged L = ps_last_purged persisted /\
    Forall (fun e => forall id, log_purged L = Some id -> id_index id < entry_index e) (log_entries L).
Proof.
  intros Hp Hs Hr Hb Hd. destruct (open_lenient size ms d persisted Hp Hs Hr Hb Hd)
    as (s & segs & k & E & _ & _ & _ & Hi).
  eexists s, _. split; [exact E|]. split; [apply implements_serves, Hi|]. split; [done|]. split; [done|].
  cbn. rewrite Forall_fmap. apply Forall_forall. intros x [Hx _]%list_elem_of_filter id Eid.
  cbn in Eid. unfold above in Hx. by rewrite Eid in Hx.
Qed.

(** Files cut short by a crash never make up entries. When every segment file survives with
    some prefix of its bytes, a log that does not fsync every append opens with the same vote and
    purge marker and with a contiguous block of the entries it had. *)
Theorem wal_cut_short_block size ms s L d :
  FsyncPolicy_from_option ms <> EveryAppend -> wal_run s L -> cut_short (ls_dir s) d ->
  exists s' L' a b, open_log size ms d = Ok s' /\ serves s' L' /\
    log_vote L' = log_vote L /\ log_purged L' = log_purged L /\ log_entries L = a ++ log_entries L' ++ b.
Proof.
  intros Hp Hrun%wal_run_implements Hcut.
  destruct (cut_short_ok size ms s L d Hp Hrun Hcut) as (s' & L' & a & b & E & Hi & Ev & Epu & Eab).
  exists s', L', a, b. split; [exact E|]. split; [by apply implements_serves|done].
Qed.
End Spec.

(** ** A concrete log *)

Module WalDemo.
(** Log ids are indices; an entry is an index and a byte; the codec writes tagged bytes. *)
Definition byteb (b : Z) : bool := (0 <=? b) && (b <? 256).

#[local] Instance types : RaftLogTypes :=
  {| LogIdOf := Z; VoteOf := Z; LogEntry := Z * Z; entry_log_id := fst; id_index := fun i => i mod 256 |}.

#[local] Instance laws : RaftLogLaws.
Proof. split. intros l. cbn. pose proof (Z.mod_pos_bound l 256). unfold U64_MAX. lia. Qed.

Definition encode_demo (r : WalRecord) : option (list Z) :=
  match r with
  | WalEntry (i, b) => if byteb i && byteb b then Some [0; i; b] else None
  | WalCommitted None => Some [1]
  | WalCommitted (Some i) => if byteb i then Some [1; i] else None
  end.

Definition decode_demo (bytes : list Z) : option WalRecord :=
  match bytes with
  | [0; i; b] => Some (WalEntry (i, b))
  | [1] => Some (WalCommitted None)
  | [1; i] => Some (WalCommitted (Some i))
  | _ => None
  end.

Definition encode_option (o : option Z) : list Z := match o with None => [0] | Some v => [1; v] end.

#[local] Instance codec : WalCodec :=
  {| encode_record := encode_demo; decode_record := decode_demo;
     encode_state := fun p => Some (encode_option (ps_vote p) ++ encode_option (ps_last_purged p));
     decode_state := fun bytes =>
       match bytes with
       | [0; 0] => Some (mkPersisted None None)
       | [1; v; 0] => Some (mkPersisted (Some v) None)
       | [0; 1; p] => Some (mkPersisted None (Some p))
       | [1; v; 1; p] => Some (mkPersisted (Some v) (Some p))
       | _ => None
       end |}.

Lemma byteb_spec b : byteb b = true -> is_byte b.
Proof. unfold byteb, is_byte. intros [?%Z.leb_le ?%Z.ltb_lt]%andb_true_iff. lia. Qed.

#[local] Instance codec_laws : WalCodecLaws.
Proof.
  split.
  - intros [[i b]|[i|]] bytes; cbn.
    + destruct (byteb i && byteb b); [|done]. by intros [= <-].
    + destruct (byteb i); [|done]. by intros [= <-].
    + by intros [= <-].
  - intros [[v|] [p|]] bytes [= <-]; done.
  - intros [[i b]|[i|]] bytes; cbn.
    + destruct (byteb i) eqn:Ei, (byteb b) eqn:Eb; cbn; [|done..]. intros [= <-].
      repeat (apply Forall_cons; split; [by apply byteb_spec || (unfold is_byte; lia)|]). done.
    + destruct (byteb i) eqn:Ei; cbn; [|done]. intros [= <-].
      repeat (apply Forall_cons; split; [by apply byteb_spec || (unfold is_byte; lia)|]). done.
    + intros [= <-]. repeat (apply Forall_cons; split; [unfold is_byte; lia|]). done.
Qed.

#[local] Existing Instances sum_crc sum_crc_laws.

(** Two entries fill a segment. *)
Definition size : Z := 30.

Definition opened (fsync_ms : option Z) (d : WalDir) : LogStore :=
  match open_log size fsync_ms d with
  | Ok s => s
  | Err _ => mkLogStore d size FsyncNone false [] None None None None 0 0 []
  end.

Definition fresh (fsync_ms : option Z) : LogStore := opened fsync_ms (mkWalDir [] None).

Definition batch (i : Z) : list LogEntry := [(i, 7); (i + 1, 7)].

Definition append (i : Z) (s : LogStore) : LogStore := (append_blocking IoOk (batch i) s).1.

(** Four segments of two entries. *)
Definition four (fsync_ms : option Z) : LogStore := append 7 (append 5 (append 3 (append 1 (fresh fsync_ms)))).

Lemma batch_encodable i : byteb i = true -> byteb (i + 1) = true -> Forall encodable (batch i).
Proof.
  intros Hi Hj. repeat constructor.
  - exists [0; i; 7]. cbn. rewrite Hi. split; [done|]. unfold MAX_RECORD_LEN. simpl. lia.
  - exists [0; i + 1; 7]. cbn. rewrite Hj. split; [done|]. unfold MAX_RECORD_LEN. simpl. lia.
Qed.

Lemma one_run : wal_run (append 1 (fresh None)) (mkLog None None (batch 1)).
Proof.
  apply (run_done (OpAppend IoOk (batch 1)) (fresh None) (mkLog None None [])).
  - by apply (run_fresh size None).
  - split; [by apply batch_encodable|]. by vm_compute.
  - by vm_compute.
Qed.
End WalDemo.

(** ** Witnesses *)

Import WalDemo.
#[local] Existing Instances types laws codec codec_laws sum_crc sum_crc_laws.

(** Two logs: one entry batch, a read of it, and a purge that is admissible after it. *)
Lemma wal_refines_log_witness :
  serves (append 1 (fresh None)) (mkLog None None (batch 1)) /\
  let '(s', r) := run_op (@OpPurge types 1) (append 1 (fresh None)) in
  r = Ok () /\ serves s' (@mkLog types None (Some 1) [(2, 7)]) \/
  r = Err EIo /\ faulty (@OpPurge types 1) /\ serves s' (mkLog None None (batch 1)).
Proof.
  split; [exact (proj1 (wal_refines_log _ _ one_run))|].
  apply (proj2 (wal_refines_log _ _ one_run) (@OpPurge types 1)).
  split; [done|]. split; [by eexists|by vm_compute].
Defined.

(** A batch of two is cut in its second record. *)
Lemma wal_crash_keeps_prefix_witness :
  let s := append 1 (fresh None) in
  let d := mkWalDir [(0, segment_header ++ frame [0; 1; 7] ++ frame [0; 2; 7]);
                     (1, segment_header ++ frame [0; 3; 7] ++ [3; 0])] None in
  append_crash s (batch 3) d /\
  exists s' k, open_log size (Some 0) d = Ok s' /\ serves s' (append_log (take k (batch 3)) (mkLog None None (batch 1))).
Proof.
  assert (Hcr : append_crash (append 1 (fresh None)) (batch 3)
                  (mkWalDir [(0, segment_header ++ frame [0; 1; 7] ++ frame [0; 2; 7]);
                             (1, segment_header ++ frame [0; 3; 7] ++ [3; 0])] None)).
  { apply (crash_writing _ _ (frame [0; 3; 7] ++ frame [0; 4; 7]) [(3, 0%nat, 3); (4, 11%nat, 3)]
             (default (fresh None) (match make_room 22 (append 1 (fresh None)) with Ok s => Some s | _ => None end)) 13);
      by vm_compute. }
  split; [exact Hcr|].
  apply (wal_crash_keeps_prefix (append 1 (fresh None)) (mkLog None None (batch 1)) (batch 3)); [exact one_run| |exact Hcr].
  split; [by apply batch_encodable|by vm_compute].
Defined.

(** Two files of noise. *)
Lemma wal_opens_any_bytes_witness :
  exists s L, open_log size (Some 100) (mkWalDir [(0, [1; 2; 3; 4; 5; 6; 7; 8; 9]); (5, segment_header ++ [255])] (Some [1; 9; 1; 4])) = Ok s /\
    serves s L /\ log_vote L = (Some 9 : option (@VoteOf types)) /\ log_purged L = (Some 4 : option (@LogIdOf types)) /\
    Forall (fun e => forall id, log_purged L = Some id -> id_index id < entry_index e) (log_entries L).
Proof.
  apply (wal_opens_any_bytes size (Some 100)
           (mkWalDir [(0, [1; 2; 3; 4; 5; 6; 7; 8; 9]); (5, segment_header ++ [255])] (Some [1; 9; 1; 4]))
           (@mkPersisted types (Some 9) (Some 4))).
  - done.
  - repeat constructor.
  - apply Forall_cons; split; [by vm_compute|]. apply Forall_cons; split; [by vm_compute|done].
  - apply Forall_cons; split; [apply (bool_decide_unpack _); by vm_compute|].
    apply Forall_cons; split; [apply (bool_decide_unpack _); by vm_compute|done].
  - done.
Defined.

(** The only segment loses its last byte. *)
Lemma wal_cut_short_block_witness :
  let d := mkWalDir [(0, segment_header ++ frame [0; 1; 7] ++ take 10 (frame [0; 2; 7]))] None in
  exists s' L' a b, open_log size None d = Ok s' /\ serves s' L' /\
    log_vote L' = None /\ log_purged L' = None /\ batch 1 = a ++ log_entries L' ++ b.
Proof.
  apply (wal_cut_short_block size None (append 1 (fresh None)) (mkLog None None (batch 1))); [done|exact one_run|].
  split; [|done]. apply Forall2_cons; split; [|done]. split; [done|]. exists [7]. by vm_compute.
Defined.

(** ** What the code does not promise *)

(** Truncation is not crash-safe when every append is fsynced. It deletes the segments behind
    the cut from the oldest to the newest; a crash after the first of them leaves a gap between the
    segments, and the next open refuses the directory. *)
Theorem truncate_crash_blocks_open :
  let s := four (Some 0) in
  let d := mkWalDir (remove_files [1] (wd_segments (ls_dir s))) (wd_state (ls_dir s)) in
  (truncate_after_blocking (Some (1 : @LogIdOf types)) s).2 = Ok () /\
  (cut_point (Some 1) s).1 = 0 /\ (meta_seq <$> ls_segments s) = [0; 1; 2; 3] /\
  open_log size (Some 0) d = Err EInvalidData.
Proof. cbv zeta. split; [|split; [|split]]; vm_compute; reflexivity. Qed.

(** Recovery accepts a log with a hole at its front. The first segment, when it is cut back to
    its header, is an empty segment and not the end of the log, and the first index found is not
    compared with the purge marker: entries 1 and 2 are gone, nothing says they were purged, and
    entries 3 and 4 are served. *)
Theorem recovery_accepts_hole :
  let s := append 3 (append 1 (fresh None)) in
  let d := mkWalDir (update_file 0 (take 8) (wd_segments (ls_dir s))) (wd_state (ls_dir s)) in
  let s' := opened None d in
  open_log size None d = Ok s' /\
  try_get_log_entries Unbounded Unbounded s' = Ret (Ok (batch 3)) /\
  get_log_state s' = (None, Some (4 : @LogIdOf types)).
Proof. cbv zeta. split; [|split]; vm_compute; reflexivity. Qed.
