(* ===== verification/LogSync.v ===== *)
(** * What of the write-ahead log is durable ([src/src/store/log_store.rs])

    The log's files together with how much of each one [sync_data] has made durable: the calls its
    operations make under their fsync policy, and the task that syncs the active segment
    periodically. The operations are those of [LogStore], with the syncs where the code has them;
    calls of [sync_data] succeed unless the task's own call is said to fail. *)

From stdpp Require Import list gmap.
From S2P Require Import Prelude BTree SnapshotFile LogStore.

(** [FsyncPolicy::enabled]. *)
Definition fsync_enabled (p : FsyncPolicy) : bool := match p with FsyncNone => false | _ => true end.

(** The periodic task: waiting for a tick; it took the dirty flag; it syncs a clone of the active
    segment's descriptor, which held [len] bytes when it was cloned. *)
Inductive FsyncWorker : Type :=
| WorkerWaiting
| WorkerTook
| WorkerSyncing (seq : Z) (len : nat).

(** A store, how many bytes of each segment are durable, and the task once it is started. *)
Record SyncedLog `{RaftLogTypes} : Type := mkSynced {
  sy_store : LogStore;
  sy_durable : gmap Z nat;
  sy_worker : option FsyncWorker;
}.

Arguments mkSynced {_}.

Section Sync.
Context `{!RaftLogTypes, !WalCodec, !Crc32}.
Implicit Types (s : LogStore) (st : SyncedLog).

Definition file_len (q : Z) s : nat := length (default [] (file_of q (wd_segments (ls_dir s)))).

Definition durable_len (q : Z) st : nat := default 0%nat (sy_durable st !! q).

Definition with_store s st : SyncedLog := mkSynced s (sy_durable st) (sy_worker st).

Definition with_durable (q : Z) (len : nat) st : SyncedLog :=
  mkSynced (sy_store st) (<[q := len]> (sy_durable st)) (sy_worker st).

Definition with_worker (w : FsyncWorker) st : SyncedLog :=
  mkSynced (sy_store st) (sy_durable st) (Some w).

(** [sync_data] on segment [q]. *)
Definition sync_data (q : Z) st : SyncedLog := with_durable q (file_len q (sy_store st)) st.

Definition enabled st : bool := fsync_enabled (ls_fsync (sy_store st)).

(** ** The operations *)

(** [Disk::rotate]: the segment left behind, then the header of the new one. *)
Definition synced_rotate st : Result SyncedLog WalError :=
  let st := if enabled st then sync_data (ls_writer_seq (sy_store st)) st else st in
  match rotate (sy_store st) with
  | Err e => Err e
  | Ok s =>
      let st := with_durable (ls_writer_seq s) 0 (with_store s st) in
      Ok (if enabled st then sync_data (ls_writer_seq s) st else st)
  end.

Definition synced_make_room (len : nat) st : Result SyncedLog WalError :=
  if bool_decide (SEGMENT_HEADER_LEN < ls_writer_len (sy_store st))%nat
     && (ls_segment_size (sy_store st) <? Z.of_nat (ls_writer_len (sy_store st) + len))
  then synced_rotate st else Ok st.

(** A batch: synced under [EveryAppend]; the undo of a failed write is synced under any policy but
    [None]. *)
Definition synced_append_batch (io : WriteIo) (entries : list LogEntry) (buf : list Z)
    (locs : list (Z * nat * Z)) st : SyncedLog * Result unit WalError :=
  let '(s, r) := append_batch io entries buf locs (sy_store st) in
  let st := with_store s st in
  let syncs := match io with
               | IoWriteFails _ => enabled st
               | IoOk | IoSyncFails => is_every_append (ls_fsync s)
               end in
  (if syncs then sync_data (ls_writer_seq s) st else st, r).

Definition synced_append (io : WriteIo) (entries : list LogEntry) st : SyncedLog * Result unit WalError :=
  match entries with
  | [] => (st, Ok ())
  | _ =>
      match encode_entries entries [] [] with
      | None => (st, Err EInvalidData)
      | Some (buf, locs) =>
          match synced_make_room (length buf) st with
          | Err e => (st, Err e)
          | Ok st => synced_append_batch io entries buf locs st
          end
      end
  end.

(** A commit marker is not synced. *)
Definition synced_save_committed (io : WriteIo) (committed : option LogIdOf) st
    : SyncedLog * Result unit WalError :=
  match encode_record (WalCommitted committed) with
  | None => (st, Err EInvalidData)
  | Some payload =>
      match synced_make_room (length payload) st with
      | Err e => (st, Err e)
      | Ok st => let '(s, r) := append_marker io payload committed (sy_store st) in (with_store s st, r)
      end
  end.

(** The state file is synced before it is renamed; no segment is touched. *)
Definition synced_save_vote (vote : VoteOf) st : SyncedLog * Result unit WalError :=
  let '(s, r) := save_vote_blocking vote (sy_store st) in (with_store s st, r).

(** Bytes cut from a file, or all of them when it is deleted, no longer count as durable, nor among
    those the task is about to make durable. *)
Definition recount st : SyncedLog :=
  let s := sy_store st in
  mkSynced s (map_imap (fun q len => Some (len `min` file_len q s)%nat) (sy_durable st))
    ((fun w => match w with
               | WorkerSyncing q len => WorkerSyncing q (len `min` file_len q s)
               | w => w
               end) <$> sy_worker st).

Definition synced_rotate_covered (purged : Z) st : Result SyncedLog WalError :=
  let s := sy_store st in
  match find_meta (ls_writer_seq s) (ls_segments s) ≫= meta_last_index with
  | Some last => if last <=? purged then synced_rotate st else Ok st
  | None => Ok st
  end.

Definition synced_purge (log_id : LogIdOf) st : SyncedLog * Result unit WalError :=
  let s := sy_store st in
  if match ls_last_purged s with Some prev => id_index log_id <? id_index prev | None => false end
  then (st, Err EInvalidInput)
  else
    match write_state_file (mkPersisted (ls_vote s) (Some log_id)) s with
    | Err e => (st, Err e)
    | Ok s =>
        match synced_rotate_covered (id_index log_id) (with_store s st) with
        | Err e => (with_store s st, Err e)
        | Ok st => (recount (with_store (finish_purge log_id (sy_store st)) st), Ok ())
        end
    end.

(** [Disk::reopen] syncs the file it cut. *)
Definition synced_truncate (last_log_id : option LogIdOf) st : SyncedLog * Result unit WalError :=
  let s := sy_store st in
  let '(seq, len) := cut_point (id_index <$> last_log_id) s in
  match reopen seq len (drop_stale seq s) with
  | Err e => (st, Err e)
  | Ok s =>
      let st := recount (with_store s st) in
      let st := if enabled st then sync_data seq st else st in
      (with_store (finish_truncate last_log_id seq s) st, Ok ())
  end.

(** ** Opening *)

(** A fresh directory: the header of the first segment is synced. *)
Definition synced_fresh s : SyncedLog :=
  mkSynced s {[ls_writer_seq s := file_len (ls_writer_seq s) s]} None.

(** After a crash: what survived is on disk, and the repair of a torn tail is synced. *)
Definition synced_recovered s : SyncedLog :=
  mkSynced s (list_to_map ((fun file => (file.1, length file.2)) <$> wd_segments (ls_dir s))) None.

(** After a restart of the process alone: no file is lost, and none is synced but a repaired one. *)
Definition synced_restarted s (durable : gmap Z nat) : SyncedLog := recount (mkSynced s durable None).

(** ** The periodic task *)

(** [start_fsync_worker], once, and under [Interval] only. *)
Definition start_fsync_worker st : SyncedLog :=
  match ls_fsync (sy_store st), sy_worker st with
  | Interval _, None => with_worker WorkerWaiting st
  | _, _ => st
  end.

(** The steps of [fsync_loop]; [None] where the task is somewhere else. A tick takes the dirty flag. *)
Definition fsync_tick st : option SyncedLog :=
  match sy_worker st with
  | Some WorkerWaiting =>
      Some (if ls_dirty (sy_store st)
            then with_worker WorkerTook (with_store (set_dirty false (sy_store st)) st) else st)
  | _ => None
  end.

(** It clones the descriptor of the active segment, under the disk's read lock. *)
Definition fsync_clone (ok : bool) st : option SyncedLog :=
  let s := sy_store st in
  match sy_worker st with
  | Some WorkerTook =>
      Some (if ok then with_worker (WorkerSyncing (ls_writer_seq s) (file_len (ls_writer_seq s) s)) st
            else with_worker WorkerWaiting (with_store (set_dirty true s) st))
  | _ => None
  end.

(** Its [sync_data] returns: what the file held when it was called is durable. *)
Definition fsync_done (ok : bool) st : option SyncedLog :=
  match sy_worker st with
  | Some (WorkerSyncing q len) =>
      Some (if ok then with_worker WorkerWaiting (with_durable q (len `max` durable_len q st) st)
            else with_worker WorkerWaiting (with_store (set_dirty true (sy_store st)) st))
  | _ => None
  end.

(** ** Crashes *)

(** A crash keeps of every segment a prefix that has at least its durable bytes. *)
Record crash_image st (d : WalDir) : Prop := {
  ci_files : Forall2 (fun file left : Z * list Z =>
      left.1 = file.1 /\ exists n, (durable_len file.1 st <= n)%nat /\ left.2 = take n file.2)
    (wd_segments (ls_dir (sy_store st))) (wd_segments d);
  ci_state : wd_state d = wd_state (ls_dir (sy_store st));
}.

(** The end of a record, and the indices whose records are durable. *)
Definition loc_end (loc : RecordLoc) : nat :=
  (loc_offset loc + RECORD_HEADER_LEN + Z.to_nat (loc_len loc))%nat.

Definition record_durable st (loc : RecordLoc) : Prop := (loc_end loc <= durable_len (loc_seq loc) st)%nat.

#[global] Instance record_durable_dec st loc : Decision (record_durable st loc).
Proof. unfold record_durable. apply _. Defined.

Definition durable_index st : list Z := (filter (fun e => record_durable st e.2) (ls_index (sy_store st))).*1.
End Sync.
