(* ===== verification/LogSyncSpec.v ===== *)
(** * What a crash can take from the write-ahead log

    With fsync enabled, whatever operations ran and however far the periodic task got, a crash loses
    nothing but a tail of the log that was not synced yet; nothing at all when every append is
    synced, or once the task has caught up. What was in the log when the task cloned its descriptor
    is durable once that sync returns. *)

From stdpp Require Import list gmap.
From S2P Require Import Prelude BTree SnapshotFile LogStore LogStoreInv LogRecover LogOps LogWrite LogCut LogStoreSpec LogSync.

Section Spec.
Context `{!RaftLogTypes, !RaftLogLaws, !WalCodec, !WalCodecLaws, !Crc32, !Crc32Laws}.
Implicit Types (s : LogStore) (st : SyncedLog) (L : Log) (es : list LogEntry) (segs : list Seg).

(** ** Runs *)

Definition synced_op (op : WalOp) st : SyncedLog * Result unit WalError :=
  match op with
  | OpAppend io es => synced_append io es st
  | OpCommitted io c => synced_save_committed io c st
  | OpVote v => synced_save_vote v st
  | OpPurge id => synced_purge id st
  | OpTruncate id => synced_truncate id st
  | OpReopen _ _ => (st, Ok ())
  end.

(** What the durability of files is modelled for: no [sync_data] of an operation fails, and no write
    of a commit marker (its undo is not synced). *)
Definition sound_io (op : WalOp) : Prop :=
  match op with
  | OpAppend io _ => io <> IoSyncFails
  | OpCommitted io _ => io = IoOk
  | OpReopen _ _ => False
  | _ => True
  end.

(** The steps of the periodic task. *)
Inductive worker_step st : SyncedLog -> Prop :=
| step_start : worker_step st (start_fsync_worker st)
| step_tick st' : fsync_tick st = Some st' -> worker_step st st'
| step_clone ok st' : fsync_clone ok st = Some st' -> worker_step st st'
| step_done ok st' : fsync_done ok st = Some st' -> worker_step st st'.

(** A store with its task, and the log it holds: from a fresh directory, through operations and
    steps of the task in any order, and through crashes. *)
Inductive synced_run : SyncedLog -> Log -> Prop :=
| srun_fresh size ms s :
    open_log size ms (mkWalDir [] None) = Ok s -> fsync_enabled (ls_fsync s) = true ->
    synced_run (synced_fresh s) (mkLog None None [])
| srun_done op st L st' :
    synced_run st L -> admissible op (sy_store st) L -> sound_io op ->
    synced_op op st = (st', Ok ()) -> synced_run st' (spec_op op L)
| srun_failed op st L st' e :
    synced_run st L -> admissible op (sy_store st) L -> sound_io op ->
    synced_op op st = (st', Err e) -> synced_run st' L
| srun_worker st L st' : synced_run st L -> worker_step st st' -> synced_run st' L
| srun_crash st L d size ms s L' :
    synced_run st L -> crash_image st d -> open_log size ms d = Ok s ->
    fsync_enabled (ls_fsync s) = true -> implements s L' -> synced_run (synced_recovered s) L'.

(** ** The operations are those of the store *)

Lemma synced_rotate_store st :
  match synced_rotate st with
  | Ok st' => rotate (sy_store st) = Ok (sy_store st')
  | Err e => rotate (sy_store st) = Err e
  end.
Proof.
  unfold synced_rotate. destruct (enabled st); cbn [sync_data with_durable sy_store].
  all: destruct (rotate (sy_store st)) as [s'|e]; [|done].
  all: by destruct (enabled _).
Qed.

Lemma synced_room_store len st :
  match synced_make_room len st with
  | Ok st' => make_room len (sy_store st) = Ok (sy_store st')
  | Err e => make_room len (sy_store st) = Err e
  end.
Proof.
  unfold synced_make_room, make_room. destruct (_ && _); [apply synced_rotate_store|done].
Qed.

Lemma synced_covered_store purged st :
  match synced_rotate_covered purged st with
  | Ok st' => rotate_covered purged (sy_store st) = Ok (sy_store st')
  | Err e => rotate_covered purged (sy_store st) = Err e
  end.
Proof.
  unfold synced_rotate_covered, rotate_covered. destruct (_ ≫= _) as [last|]; [|done].
  destruct (last <=? purged); [apply synced_rotate_store|done].
Qed.

Lemma synced_op_store op st st' r :
  sound_io op -> synced_op op st = (st', r) -> run_op op (sy_store st) = (sy_store st', r).
Proof.
  destruct op as [io es|io c|v|id|id|size ms]; cbn [synced_op run_op sound_io]; intros Hio.
  - unfold synced_append, append_blocking. destruct es as [|e es]; [by intros [= <- <-]|].
    destruct (encode_entries _ _ _) as [[buf locs]|]; [|by intros [= <- <-]].
    pose proof (synced_room_store (length buf) st) as Hr.
    destruct (synced_make_room _ _) as [st1|e1]; rewrite Hr; [|by intros [= <- <-]].
    unfold synced_append_batch. destruct (append_batch _ _ _ _ _) as [s2 r2].
    intros [= <- <-]. f_equal. by destruct (match io with IoWriteFails _ => _ | _ => _ end).
  - unfold synced_save_committed, save_committed_blocking.
    destruct (encode_record _) as [p|]; [|by intros [= <- <-]].
    pose proof (synced_room_store (length p) st) as Hr.
    destruct (synced_make_room _ _) as [st1|e1]; rewrite Hr; [|by intros [= <- <-]].
    destruct (append_marker _ _ _ _) as [s2 r2]. by intros [= <- <-].
  - unfold synced_save_vote. destruct (save_vote_blocking _ _) as [s2 r2]. by intros [= <- <-].
  - unfold synced_purge, purge_blocking. destruct (match ls_last_purged _ with Some _ => _ | None => _ end);
      [by intros [= <- <-]|].
    destruct (write_state_file _ _) as [s1|e1]; [|by intros [= <- <-]].
    pose proof (synced_covered_store (id_index id) (with_store s1 st)) as Hr. cbn [sy_store with_store] in Hr.
    destruct (synced_rotate_covered _ _) as [st1|e1]; rewrite Hr; by intros [= <- <-].
  - unfold synced_truncate, truncate_after_blocking. destruct (cut_point _ _) as [q len].
    destruct (reopen _ _ _) as [s1|e1]; [|by intros [= <- <-]].
    by intros [= <- <-].
  - done.
Qed.

Lemma worker_step_store st st' : worker_step st st' -> exists d, sy_store st' = set_dirty d (sy_store st).
Proof.
  assert (Hsame : exists d, sy_store st = set_dirty d (sy_store st)).
  { exists (ls_dirty (sy_store st)). by destruct (sy_store st). }
  intros [|st1 E|ok st1 E|ok st1 E].
  - unfold start_fsync_worker. by destruct (ls_fsync _), (sy_worker st).
  - unfold fsync_tick in E. destruct (sy_worker st) as [[]|]; try done. injection E as <-.
    destruct (ls_dirty _); [by exists false|done].
  - unfold fsync_clone in E. destruct (sy_worker st) as [[]|]; try done. injection E as <-.
    destruct ok; [done|by exists true].
  - unfold fsync_done in E. destruct (sy_worker st) as [[]|]; try done. injection E as <-.
    destruct ok; [done|by exists true].
Qed.

Lemma wal_ok_dirty s segs d : wal_ok s segs -> wal_ok (set_dirty d s) segs.
Proof. intros Hok. by apply (wal_ok_ext s (set_dirty d s)). Qed.

Lemma implements_dirty s L d : implements s L -> implements (set_dirty d s) L.
Proof. intros (segs & Hok & ->). exists segs. split; [by apply wal_ok_dirty|done]. Qed.

Lemma synced_run_implements st L : synced_run st L -> implements (sy_store st) L.
Proof.
  induction 1 as [size ms s E _|op st L st' _ IH Had Hio E|op st L st' e _ IH Had Hio E|st L st' _ IH Hw
                 |st L d size ms s L' _ _ _ _ _ Hi].
  - destruct (fresh_ok size ms) as (s' & E' & Hi). rewrite E in E'. by injection E' as ->.
  - pose proof (run_op_ok op _ L IH Had) as Hr. rewrite (synced_op_store op st st' _ Hio E) in Hr.
    by destruct Hr as [[_ ?]|[? _]].
  - pose proof (run_op_ok op _ L IH Had) as Hr. rewrite (synced_op_store op st st' _ Hio E) in Hr.
    by destruct Hr as [[? _]|(_ & _ & ?)].
  - destruct (worker_step_store _ _ Hw) as [d ->]. by apply implements_dirty.
  - done.
Qed.
(** ** File lengths *)

Lemma file_len_seg s segs q ps : wal_ok s segs -> (q, ps) ∈ segs -> file_len q s = length (seg_bytes ps).
Proof.
  intros [Ht _ _] Hg. unfold file_len. rewrite (to_files _ _ _ _ _ _ Ht).
  by rewrite (file_of_seg segs (q, ps) (to_seqs _ _ _ _ _ _ Ht) Hg).
Qed.

Lemma file_len_none s segs q : wal_ok s segs -> q ∉ segs.*1 -> file_len q s = 0%nat.
Proof.
  intros [Ht _ _] Hq. unfold file_len, file_of. rewrite (to_files _ _ _ _ _ _ Ht).
  destruct (bt_get q (seg_file <$> segs)) as [v|] eqn:E; [|done]. exfalso. apply Hq.
  assert (Hin : (q, v) ∈ seg_file <$> segs).
  { apply bt_get_elem; [|done]. unfold bt_sorted. rewrite seg_file_keys.
    eapply strongly_sorted_impl; [|exact (to_seqs _ _ _ _ _ _ Ht)]. intros a b. apply Z.compare_lt_iff. }
  rewrite <- seg_file_keys. apply list_elem_of_fmap. by exists (q, v).
Qed.

Lemma writer_len s segs : wal_ok s segs -> (SEGMENT_HEADER_LEN <= file_len (ls_writer_seq s) s)%nat.
Proof.
  intros Hok. destruct (wo_writer _ _ Hok) as (segs' & ps & E & _).
  rewrite (file_len_seg s segs (ls_writer_seq s) ps Hok), seg_bytes_length by (rewrite E; apply elem_of_app; right; left).
  lia.
Qed.

(** Every indexed record lies within its file. *)
Lemma index_elem s segs e : wal_ok s segs -> e ∈ ls_index s -> exists x, e = key_of x /\ x ∈ dir_entries segs.
Proof.
  intros Hok He. rewrite (to_index _ _ _ _ _ _ (wo_table _ _ Hok)) in He.
  apply list_elem_of_fmap in He as (x & -> & [_ Hx]%list_elem_of_filter). by exists x.
Qed.

Lemma loc_fits s segs e : wal_ok s segs -> e ∈ ls_index s -> (loc_end e.2 <= file_len (loc_seq e.2) s)%nat.
Proof.
  intros Hok He. destruct (index_elem s segs e Hok He) as (x & -> & Hx).
  destruct (entry_lies_at _ _ Hx) as (A & q & ps1 & p & ps2 & B & E & _ & El). cbn [key_of snd].
  rewrite El. cbn [loc_seq]. rewrite (file_len_seg s segs q (ps1 ++ p :: ps2) Hok)
    by (rewrite E; apply elem_of_app; right; left).
  unfold loc_end. cbn [loc_offset loc_len snd]. rewrite seg_bytes_app, frames_cons, !length_app, frame_length. lia.
Qed.

Lemma durable_len_insert q q' n st :
  durable_len q' (with_durable q n st) = if decide (q = q') then n else durable_len q' st.
Proof.
  unfold durable_len, with_durable. cbn [sy_durable]. destruct (decide (q = q')) as [->|Hne].
  - by rewrite lookup_insert_eq.
  - by rewrite lookup_insert_ne.
Qed.

Lemma durable_len_sync q q' st :
  durable_len q' (sync_data q st) = if decide (q = q') then file_len q (sy_store st) else durable_len q' st.
Proof. apply durable_len_insert. Qed.

Lemma durable_len_recount q st :
  durable_len q (recount st) = (durable_len q st `min` file_len q (sy_store st))%nat.
Proof.
  unfold durable_len, recount. cbn [sy_durable]. rewrite map_lookup_imap.
  destruct (sy_durable st !! q); cbn; lia.
Qed.

(** ** The invariant *)

(** Nothing is waiting to be synced. *)
Definition all_durable st : Prop := forall q, (file_len q (sy_store st) <= durable_len q st)%nat.

(** With the flag clear the active segment is durable, or the task is about to make it so. *)
Definition worker_ok st : Prop :=
  let w := ls_writer_seq (sy_store st) in
  ls_dirty (sy_store st) = false ->
  match sy_worker st with
  | Some WorkerTook => True
  | Some (WorkerSyncing q n) =>
      (file_len w (sy_store st) <= durable_len w st)%nat \/ q = w /\ (file_len w (sy_store st) <= n)%nat
  | _ => (file_len w (sy_store st) <= durable_len w st)%nat
  end.

Record sync_ok st : Prop := {
  so_enabled : enabled st = true;
  so_closed : forall q, q <> ls_writer_seq (sy_store st) -> (file_len q (sy_store st) <= durable_len q st)%nat;
  so_header : (SEGMENT_HEADER_LEN <= durable_len (ls_writer_seq (sy_store st)) st)%nat;
  so_every : ls_fsync (sy_store st) = EveryAppend ->
    forall e, e ∈ ls_index (sy_store st) -> record_durable st e.2;
  so_worker : worker_ok st;
}.

Lemma all_durable_records st segs e :
  wal_ok (sy_store st) segs -> all_durable st -> e ∈ ls_index (sy_store st) -> record_durable st e.2.
Proof.
  intros Hok Hall He. unfold record_durable. pose proof (loc_fits _ _ e Hok He). specialize (Hall (loc_seq e.2)). lia.
Qed.

Lemma all_durable_ok st segs :
  wal_ok (sy_store st) segs -> enabled st = true -> all_durable st -> sync_ok st.
Proof.
  intros Hok Hen Hall. split; [done|by intros| |by intros; eapply all_durable_records|].
  - pose proof (writer_len _ _ Hok). specialize (Hall (ls_writer_seq (sy_store st))). lia.
  - intros _. specialize (Hall (ls_writer_seq (sy_store st))). destruct (sy_worker st) as [[]|]; auto.
Qed.

(** With the closed segments durable, syncing the active one leaves nothing. *)
Lemma sync_active st :
  (forall q, q <> ls_writer_seq (sy_store st) -> (file_len q (sy_store st) <= durable_len q st)%nat) ->
  all_durable (sync_data (ls_writer_seq (sy_store st)) st).
Proof.
  intros Hc q. rewrite durable_len_sync. cbn [sync_data with_durable sy_store].
  destruct (decide _) as [<-|Hne]; [done|]. apply Hc. congruence.
Qed.

(** ** The operations keep it *)

Lemma rotate_files s segs s' :
  wal_ok s segs -> ls_writer_seq s < U32_MAX -> rotate s = Ok s' ->
  wal_ok s' (segs ++ [(ls_writer_seq s', [])]) /\ ls_writer_seq s' ∉ segs.*1 /\ ls_fsync s' = ls_fsync s.
Proof.
  intros Hok Hseq E. destruct (rotate_ok s segs Hok Hseq) as (s1 & E1 & _ & Hok1).
  rewrite E1 in E. injection E as ->.
  destruct (wo_writer _ _ Hok1) as (segs' & ps & Eseg & _). apply app_inj_tail in Eseg as [_ Eseg].
  injection Eseg as Eq _. split; [by rewrite <- Eq|]. split.
  - intros Hin. pose proof (writer_max s segs Hok) as Hm. rewrite Forall_forall in Hm. specialize (Hm _ Hin). lia.
  - unfold rotate in E1. destruct (file_of _ _); [done|]. by injection E1 as <-.
Qed.

Lemma synced_rotate_ok st segs st' :
  wal_ok (sy_store st) segs -> ls_writer_seq (sy_store st) < U32_MAX -> sync_ok st -> synced_rotate st = Ok st' ->
  exists segs', wal_ok (sy_store st') segs' /\ enabled st' = true /\ all_durable st'.
Proof.
  intros Hok Hseq Hso E. pose proof (synced_rotate_store st) as Hr. rewrite E in Hr.
  destruct (rotate_files _ _ _ Hok Hseq Hr) as (Hok' & Hfresh & Hf).
  eexists. split; [exact Hok'|]. pose proof (so_enabled _ Hso) as Hen.
  assert (Hen' : enabled st' = true) by (unfold enabled in *; by rewrite Hf).
  split; [done|]. unfold synced_rotate in E. rewrite Hen in E. cbn [sync_data with_durable sy_store] in E.
  rewrite Hr in E. unfold enabled in E, Hen'. cbn [with_durable with_store sy_store] in E. rewrite Hen' in E.
  injection E as E. intros q. rewrite <- E, durable_len_sync, durable_len_insert. cbn [sync_data with_durable with_store sy_store].
  destruct (decide (ls_writer_seq (sy_store st') = q)) as [<-|Hne]; [done|].
  assert (Hlen : file_len q (sy_store st') = file_len q (sy_store st)).
  { destruct (decide (q ∈ segs.*1)) as [([q' ps] & -> & Hg)%list_elem_of_fmap|Hq]; cbn [fst].
    - rewrite (file_len_seg _ _ q' ps Hok Hg). apply (file_len_seg _ _ q' ps Hok'). apply elem_of_app. by left.
    - rewrite (file_len_none _ _ q Hok Hq). apply (file_len_none _ _ q Hok'). rewrite fmap_app.
      intros [?|Hin%list_elem_of_singleton]%elem_of_app; [done|]. by subst q. }
  rewrite Hlen. unfold durable_len. cbn [with_store sy_durable].
  change (file_len q (sy_store st) <= durable_len q (sync_data (ls_writer_seq (sy_store st)) st))%nat.
  apply (sync_active st (so_closed _ Hso)).
Qed.

Lemma synced_room_ok len st segs st' :
  wal_ok (sy_store st) segs -> ls_writer_seq (sy_store st) < U32_MAX -> sync_ok st ->
  synced_make_room len st = Ok st' ->
  exists segs', wal_ok (sy_store st') segs' /\ sync_ok st' /\ ls_index (sy_store st') = ls_index (sy_store st) /\
    get_log_state (sy_store st') = get_log_state (sy_store st).
Proof.
  intros Hok Hseq Hso E. pose proof (synced_room_store len st) as Hr. rewrite E in Hr. unfold synced_make_room in E.
  destruct (_ && _).
  - destruct (synced_rotate_ok st segs st' Hok Hseq Hso E) as (segs' & Hok' & Hen & Hall).
    exists segs'. split; [done|]. split; [by eapply all_durable_ok|].
    pose proof (synced_rotate_store st) as Hr'. rewrite E in Hr'. unfold rotate in Hr'.
    destruct (file_of _ _); [done|]. by injection Hr' as <-.
  - injection E as <-. by exists segs.
Qed.

Lemma file_of_update w f files q :
  file_of q (update_file w f files) = (if q =? w then f else id) <$> file_of q files.
Proof.
  unfold file_of, update_file. induction files as [|[k v] files IH]; [by destruct (q =? w)|].
  rewrite fmap_cons. cbn [fst snd]. destruct (Z.eqb_spec k w) as [Ek|Ek]; cbn [bt_get]; unfold cmp, Z_cmp in *.
  all: destruct (Z.compare_spec q k) as [E|E|E]; try done; cbn; subst q.
  - by rewrite (proj2 (Z.eqb_eq k w) Ek).
  - by rewrite (proj2 (Z.eqb_neq k w) Ek).
Qed.

Lemma update_len w f q s s' :
  wd_segments (ls_dir s') = update_file w f (wd_segments (ls_dir s)) -> q <> w -> file_len q s' = file_len q s.
Proof.
  intros E Hq. unfold file_len. rewrite E, file_of_update, (proj2 (Z.eqb_neq q w) Hq).
  by destruct (file_of q _).
Qed.

(** What a batch leaves alone, and the dirty flag. *)
Lemma batch_frame io es buf locs s s' r :
  append_batch io es buf locs s = (s', r) -> io <> IoSyncFails ->
  ls_writer_seq s' = ls_writer_seq s /\ ls_fsync s' = ls_fsync s /\
  (forall q, q <> ls_writer_seq s -> file_len q s' = file_len q s) /\
  (io = IoOk -> is_every_append (ls_fsync s) = false -> ls_dirty s' = true).
Proof.
  intros E Hio. unfold append_batch in E. destruct io as [|n|]; [| |done].
  - change (ls_fsync (set_dirty true (write_bytes buf s))) with (ls_fsync s) in E.
    rewrite andb_false_r in E. injection E as <- <-.
    destruct (is_every_append _); (split; [done|split; [done|split; [|done]]]); intros q Hq; by eapply update_len.
  - injection E as <- <-. split; [done|]. split; [done|]. split; [|done]. intros q Hq.
    transitivity (file_len q (write_bytes (take n buf) s)); by eapply update_len.
Qed.

Lemma batch_sync_ok io es buf locs st segs st' r :
  es <> [] -> wal_ok (sy_store st) segs -> Forall encodable es -> consecutive (next_index (sy_store st)) es ->
  encode_entries es [] [] = Some (buf, locs) -> io <> IoSyncFails -> sync_ok st ->
  synced_append_batch io es buf locs st = (st', r) -> sync_ok st'.
Proof.
  intros Hne Hok Henc Hcons Eenc Hio [Hen Hcl Hhd Hev Hwk] E. unfold synced_append_batch in E.
  pose proof (append_batch_ok io es buf locs _ segs Hne Hok Henc Hcons Eenc) as Hb. cbv zeta in Hb.
  destruct (append_batch io es buf locs (sy_store st)) as [s' r'] eqn:Eb.
  destruct (batch_frame _ _ _ _ _ _ _ Eb Hio) as (Hw & Hf & Hlen & Hd).
  assert (exists segs', wal_ok s' segs') as [segs' Hok'].
  { destruct Hb as [[_ (segs' & ? & _)]|(_ & _ & segs' & ? & _)]; by exists segs'. }
  assert (Hcl' : forall q, q <> ls_writer_seq s' -> (file_len q s' <= durable_len q (with_store s' st))%nat).
  { intros q Hq. rewrite Hw in Hq. rewrite Hlen by done. by apply Hcl. }
  injection E as <- <-.
  assert (Hsync : sync_ok (sync_data (ls_writer_seq s') (with_store s' st))).
  { apply all_durable_ok with segs'; [done|by unfold enabled in *; cbn; rewrite Hf|].
    by apply (sync_active (with_store s' st)). }
  unfold enabled in *. cbn [with_store sy_store] in *. rewrite Hf in *.
  destruct io as [|n|]; [|by rewrite Hen|done].
  destruct (is_every_append _) eqn:Ee; [done|].
  split; unfold enabled; cbn [with_store sy_store]; rewrite ?Hf; [done|done|by rewrite Hw| |].
  - intros Heq. by rewrite Heq in Ee.
  - intros Hdirty. cbn in Hdirty. by rewrite Hd in Hdirty.
Qed.

Lemma sync_ok_same st s' :
  sync_ok st -> wd_segments (ls_dir s') = wd_segments (ls_dir (sy_store st)) ->
  ls_writer_seq s' = ls_writer_seq (sy_store st) -> ls_fsync s' = ls_fsync (sy_store st) ->
  ls_index s' = ls_index (sy_store st) -> ls_dirty s' = ls_dirty (sy_store st) -> sync_ok (with_store s' st).
Proof.
  intros [Hen Hcl Hhd Hev Hwk] Ef Ew Ep Ei Ed.
  assert (Hlen : forall q, file_len q s' = file_len q (sy_store st)) by (intros q; unfold file_len; by rewrite Ef).
  unfold enabled, worker_ok in *. split; unfold enabled, worker_ok; cbn [with_store sy_store sy_worker];
    rewrite ?Ew, ?Ep, ?Ei, ?Ed; [done| |done|done|by rewrite Hlen].
  intros q Hq. rewrite Hlen. by apply Hcl.
Qed.

Lemma file_of_remove gone files q :
  file_of q (remove_files gone files) = if decide (q ∈ gone) then None else file_of q files.
Proof.
  unfold file_of, remove_files. induction files as [|[k v] files IH]; [by case_decide|].
  rewrite filter_cons. cbn [bt_get fst]. unfold cmp, Z_cmp in *.
  destruct (decide (k ∉ gone)) as [Hk|Hk]; cbn [bt_get]; unfold cmp, Z_cmp in *.
  - destruct (Z.compare_spec q k) as [->|?|?]; [by rewrite decide_False|done..].
  - apply dec_stable in Hk. rewrite IH. destruct (Z.compare_spec q k) as [->|?|?]; [by rewrite !decide_True|done..].
Qed.

Lemma append_sync_ok io es st L st' r :
  implements (sy_store st) L -> admissible (OpAppend io es) (sy_store st) L -> io <> IoSyncFails -> sync_ok st ->
  synced_append io es st = (st', r) -> sync_ok st'.
Proof.
  intros Him (Henc & Hcons & Hseq) Hio Hso E. unfold synced_append in E.
  destruct es as [|e es]; [by injection E as <- <-|]. destruct (encode_entries _ _ _) as [[buf locs]|] eqn:Ee;
    [|by injection E as <- <-].
  destruct (synced_make_room _ st) as [st1|e1] eqn:Er; [|by injection E as <- <-].
  pose proof Him as (segs & Hok & _).
  destruct (synced_room_ok _ st segs st1 Hok Hseq Hso Er) as (segs1 & Hok1 & Hso1 & _ & Hst).
  eapply (batch_sync_ok io (e :: es) buf locs st1 segs1); [done..| |done|done|exact Hso1|exact E].
  unfold next_index. rewrite Hst, (get_log_state_ok _ _ Him). exact Hcons.
Qed.

Lemma committed_sync_ok c st L st' r :
  implements (sy_store st) L -> admissible (OpCommitted IoOk c) (sy_store st) L -> sync_ok st ->
  synced_save_committed IoOk c st = (st', r) -> sync_ok st'.
Proof.
  intros Him (_ & Hseq) Hso E. unfold synced_save_committed in E.
  destruct (encode_record _) as [p|]; [|by injection E as <- <-].
  destruct (synced_make_room _ st) as [st1|e1] eqn:Er; [|by injection E as <- <-].
  pose proof Him as (segs & Hok & _).
  destruct (synced_room_ok _ st segs st1 Hok Hseq Hso Er) as (_ & _ & [Hen Hcl Hhd Hev _] & _ & _).
  injection E as <- <-. split; [exact Hen| |exact Hhd|exact Hev|by intros [=]].
  intros q Hq. cbn in Hq. unfold durable_len. cbn [with_store sy_store sy_durable].
  erewrite update_len; [by apply Hcl|reflexivity|done].
Qed.

Lemma vote_sync_ok v st st' r : sync_ok st -> synced_save_vote v st = (st', r) -> sync_ok st'.
Proof.
  intros Hso. unfold synced_save_vote, save_vote_blocking, write_state_file.
  destruct (encode_state _); intros [= <- <-]; by apply sync_ok_same.
Qed.

Lemma covered_sync_ok purged st segs st' :
  wal_ok (sy_store st) segs -> ls_writer_seq (sy_store st) < U32_MAX -> sync_ok st ->
  synced_rotate_covered purged st = Ok st' -> sync_ok st'.
Proof.
  intros Hok Hseq Hso. unfold synced_rotate_covered.
  assert (Hst : Ok st = (Ok st' : Result SyncedLog WalError) -> sync_ok st') by (by intros [= <-]).
  destruct (_ ≫= _) as [last|]; [|done]. destruct (last <=? purged); [|done]. intros E.
  destruct (synced_rotate_ok st segs st' Hok Hseq Hso E) as (segs' & ? & ? & ?). by eapply all_durable_ok.
Qed.

(** The state file has no part in rotation. *)
Definition with_state (bytes : list Z) st : SyncedLog := with_store (set_state_file bytes (sy_store st)) st.

Lemma covered_with_state purged bytes st st' :
  synced_rotate_covered purged (with_state bytes st) = Ok st' ->
  exists st0, synced_rotate_covered purged st = Ok st0 /\ st' = with_state bytes st0.
Proof.
  unfold synced_rotate_covered. cbn [with_state with_store sy_store set_state_file ls_writer_seq ls_segments].
  destruct (_ ≫= _) as [last|]; [destruct (last <=? purged)|]; [|intros [= <-]; by exists st..].
  unfold synced_rotate, enabled. cbn [with_state with_store sy_store set_state_file ls_fsync ls_writer_seq].
  destruct (fsync_enabled _) eqn:Ef; cbn [sync_data with_durable sy_store]; unfold rotate;
    cbn [with_state with_store sy_store set_state_file ls_writer_seq ls_dir wd_segments];
    (destruct (file_of _ _); [done|]); cbn; rewrite Ef; intros [= <-]; by eexists.
Qed.

Lemma purged_len id q s :
  file_len q (finish_purge id s) =
  if decide (q ∈ meta_seq <$> filter (fun m => negb (meta_seq m =? ls_writer_seq s) && covered_by (id_index id) m = true)
                   (ls_segments s))
  then 0%nat else file_len q s.
Proof. unfold file_len, finish_purge, purge_covered. cbn. rewrite file_of_remove. by case_decide. Qed.

Lemma purged_sync_ok id st segs :
  sync_ok st -> wal_ok (finish_purge id (sy_store st)) segs ->
  sync_ok (recount (with_store (finish_purge id (sy_store st)) st)).
Proof.
  intros [Hen Hcl Hhd Hev Hwk] Hok. set (s' := finish_purge id (sy_store st)) in *.
  assert (Hle : forall q, (file_len q s' <= file_len q (sy_store st))%nat).
  { intros q. unfold s'. rewrite purged_len. case_decide; lia. }
  assert (Hw : file_len (ls_writer_seq (sy_store st)) s' = file_len (ls_writer_seq (sy_store st)) (sy_store st)).
  { unfold s'. rewrite purged_len, decide_False; [done|]. intros (m & Em & [Hm _]%list_elem_of_filter)%list_elem_of_fmap.
    by rewrite <- Em, Z.eqb_refl in Hm. }
  pose proof (writer_len _ _ Hok) as Hhdr.
  change (ls_writer_seq s') with (ls_writer_seq (sy_store st)) in Hhdr.
  split; cbn [recount with_store sy_store]; [done| | | |].
  - intros q Hq. rewrite durable_len_recount. cbn [with_store sy_store]. specialize (Hcl q Hq). specialize (Hle q).
    unfold durable_len in *. cbn [with_store sy_durable]. lia.
  - rewrite durable_len_recount. cbn [with_store sy_store]. unfold durable_len in *.
    cbn [with_store sy_durable]. change (ls_writer_seq s') with (ls_writer_seq (sy_store st)). lia.
  - intros Hp e He. unfold record_durable. rewrite durable_len_recount. cbn [with_store sy_store].
    pose proof (loc_fits _ _ e Hok He). assert (He' : e ∈ ls_index (sy_store st)).
    { unfold s' in He. cbn in He. by apply list_elem_of_filter in He as [_ ?]. }
    specialize (Hev Hp e He'). unfold record_durable, durable_len in *. cbn [with_store sy_durable]. lia.
  - unfold worker_ok in *. cbn [recount with_store sy_store sy_worker]. intros Hd. specialize (Hwk Hd).
    change (ls_writer_seq s') with (ls_writer_seq (sy_store st)). rewrite durable_len_recount. cbn [with_store sy_store].
    unfold durable_len in *. cbn [with_store sy_durable]. rewrite Hw.
    destruct (sy_worker st) as [[| |q n]|]; cbn [fmap option_fmap option_map]; [lia|done| |lia].
    destruct Hwk as [?|[-> ?]]; [left; lia|right; split; [done|]]. rewrite Hw. lia.
Qed.

Lemma purge_sync_ok id st L st' r :
  implements (sy_store st) L -> admissible (OpPurge id) (sy_store st) L -> sync_ok st ->
  synced_purge id st = (st', r) -> sync_ok st'.
Proof.
  intros Him Had Hso E. pose proof (run_op_ok (OpPurge id) _ L Him Had) as Hr.
  rewrite (synced_op_store (OpPurge id) st st' r I E) in Hr.
  assert (exists segs', wal_ok (sy_store st') segs') as [segs' Hok'].
  { destruct Hr as [[_ (segs' & ? & _)]|(_ & [] & _)]. by exists segs'. }
  pose proof Him as (segs & Hok & _). destruct Had as (_ & _ & Hseq). unfold synced_purge in E.
  destruct (match ls_last_purged _ with Some _ => _ | None => _ end); [by injection E as <- <-|].
  unfold write_state_file in E. destruct (encode_state _) as [bytes|]; [|by injection E as <- <-].
  destruct (synced_rotate_covered _ _) as [st1|e1] eqn:Er; injection E as <- <-; [|by apply sync_ok_same].
  apply purged_sync_ok with segs'; [|exact Hok'].
  apply covered_with_state in Er as (st0 & Er & ->). apply sync_ok_same; [|done..].
  by eapply covered_sync_ok.
Qed.

(** A truncation syncs the segment it cut; the others it keeps were closed before. *)
Lemma truncate_sync_ok id st L st' r :
  implements (sy_store st) L -> truncatable id L -> sync_ok st -> synced_truncate id st = (st', r) -> sync_ok st'.
Proof.
  intros (segs & Hok & ->) Htr [Hen Hcl _ _ _] E.
  destruct (cut_exists _ _ _ Hok Htr) as (A & q & ps1 & ps2 & B & Hcut).
  pose proof (truncate_cut_ok _ segs id A q ps1 ps2 B Hok Hcut) as Hr.
  pose proof (synced_op_store (OpTruncate id) st st' r I E) as Eop. cbn [run_op] in Eop. rewrite Eop in Hr.
  destruct Hr as (Hr & Hok' & _ & _). unfold synced_truncate in E. rewrite (ct_point _ _ _ _ _ _ _ _ Hcut) in E.
  pose proof (ct_segs _ _ _ _ _ _ _ _ Hcut) as Esegs.
  destruct (reopen _ _ _) as [s1|e1] eqn:Eo; [|injection E as _ <-; done].
  assert (Ef : ls_fsync s1 = ls_fsync (sy_store st)).
  { unfold reopen in Eo. destruct (find_meta _ _); [|done]. by injection Eo as <-. }
  unfold enabled in E. cbn [recount with_store sy_store] in E. rewrite Ef in E. unfold enabled in Hen.
  rewrite Hen in E. injection E as <- <-. cbn [with_store sy_store] in Hok'.
  eapply all_durable_ok; [exact Hok'|unfold enabled; cbn; by rewrite Ef|].
  set (s' := finish_truncate id q s1) in *. intros q'. cbn [with_store sy_store].
  change (durable_len q' (with_store s' (sync_data q (recount (with_store s1 st)))))
    with (durable_len q' (sync_data q (recount (with_store s1 st)))).
  rewrite durable_len_sync, durable_len_recount. cbn [recount with_store sy_store].
  change (file_len q' s') with (file_len q' s1). case_decide as Hq; [by subst q'|].
  assert (Hle : (file_len q' s1 <= durable_len q' st)%nat); [|change (durable_len q' (with_store s1 st)) with (durable_len q' st); lia].
  change (file_len q' s1) with (file_len q' s').
  destruct (decide (q' ∈ A.*1)) as [([q0 ps] & -> & HA)%list_elem_of_fmap|HA]; cbn [fst].
  - rewrite (file_len_seg s' _ q0 ps Hok') by (apply elem_of_app; by left).
    rewrite <- (file_len_seg (sy_store st) segs q0 ps Hok) by (rewrite Esegs; apply elem_of_app; by left).
    apply Hcl. destruct (wo_writer _ _ Hok) as (S & psw & ES & _). intros ->.
    pose proof (to_seqs _ _ _ _ _ _ (wo_table _ _ Hok)) as Hs. unfold sorted_seqs in Hs. rewrite Esegs in Hs, ES.
    destruct B as [|b B _] using rev_ind.
    + apply app_inj_tail in ES as [_ ES]. injection ES as -> _. done.
    + rewrite app_comm_cons, app_assoc in ES. apply app_inj_tail in ES as [_ ->].
      rewrite fmap_app in Hs. apply strongly_sorted_app_inv in Hs as (_ & _ & Hlt).
      specialize (Hlt (ls_writer_seq (sy_store st)) (ls_writer_seq (sy_store st))
                    (list_elem_of_fmap_2 fst _ _ HA)). rewrite fmap_cons, fmap_app in Hlt.
      specialize (Hlt ltac:(right; apply elem_of_app; right; left)). lia.
  - rewrite (file_len_none s' _ q' Hok'); [lia|]. rewrite fmap_app.
    intros [?|?%list_elem_of_singleton]%elem_of_app; [done|]. by subst q'.
Qed.

Lemma worker_sync_ok st st' : worker_step st st' -> sync_ok st -> sync_ok st'.
Proof.
  intros Hw Hso. pose proof Hso as [Hen Hcl Hhd Hev Hwk]. unfold worker_ok in Hwk.
  destruct Hw as [|st' E|ok st' E|ok st' E].
  - unfold start_fsync_worker. destruct (ls_fsync _) eqn:Ef; [done..|]. destruct (sy_worker st) eqn:Ew; [done|].
    split; [done..| |done]. cbn. by rewrite Ef.
  - unfold fsync_tick in E. destruct (sy_worker st) as [[]|] eqn:Ew; try done. injection E as <-.
    destruct (ls_dirty _) eqn:Ed; [|done]. split; [done..|]. by intros _.
  - unfold fsync_clone in E. destruct (sy_worker st) as [[]|] eqn:Ew; try done. injection E as <-.
    destruct ok; [|by split]. split; [done..|]. intros _. by right.
  - unfold fsync_done in E. destruct (sy_worker st) as [[| |q n]|] eqn:Ew; try done. injection E as <-.
    destruct ok; [|by split].
    assert (Hge : forall q', (durable_len q' st <= durable_len q' (with_worker WorkerWaiting (with_durable q (n `max` durable_len q st) st)))%nat).
    { intros q'. change (durable_len q' (with_worker WorkerWaiting ?st0)) with (durable_len q' st0).
      rewrite durable_len_insert. case_decide as Hq; [subst q'|]; lia. }
    split; [done| | | |].
    + intros q' Hq'. specialize (Hcl q' Hq'). specialize (Hge q'). cbn [with_worker with_durable sy_store] in *. lia.
    + cbn [with_worker with_durable sy_store]. specialize (Hge (ls_writer_seq (sy_store st))). lia.
    + intros Hp e He. specialize (Hev Hp e He). unfold record_durable in *. specialize (Hge (loc_seq e.2)). lia.
    + intros Hd. cbn [with_worker sy_worker with_durable sy_store] in *. specialize (Hwk Hd).
      specialize (Hge (ls_writer_seq (sy_store st))). destruct Hwk as [?|[-> ?]]; [lia|].
      change (durable_len ?a (with_worker WorkerWaiting ?st0)) with (durable_len a st0).
      rewrite durable_len_insert, decide_True by done. lia.
Qed.

Lemma op_sync_ok op st L st' r :
  implements (sy_store st) L -> admissible op (sy_store st) L -> sound_io op -> sync_ok st ->
  synced_op op st = (st', r) -> sync_ok st'.
Proof.
  destruct op as [io es|io c|v|id|id|size ms]; cbn [synced_op sound_io]; intros Him Had Hio Hso E.
  - by eapply append_sync_ok.
  - subst io. by eapply committed_sync_ok.
  - by eapply vote_sync_ok.
  - by eapply purge_sync_ok.
  - by eapply truncate_sync_ok.
  - done.
Qed.

Lemma recovered_durable s segs : wal_ok s segs -> all_durable (synced_recovered s).
Proof.
  intros Hok q. unfold synced_recovered, durable_len. cbn [sy_store sy_durable].
  destruct (decide (q ∈ segs.*1)) as [([q' ps] & -> & Hg)%list_elem_of_fmap|Hq];
    [|rewrite (file_len_none s segs q Hok Hq); lia]. cbn [fst].
  rewrite (file_len_seg s segs q' ps Hok Hg), (to_files _ _ _ _ _ _ (wo_table _ _ Hok)).
  rewrite (elem_of_list_to_map_1 _ q' (length (seg_bytes ps))); [done| |].
  - rewrite <- list_fmap_compose. change (fst ∘ _) with (fst : Z * list Z -> Z). rewrite seg_file_keys.
    apply sorted_seqs_NoDup, (to_seqs _ _ _ _ _ _ (wo_table _ _ Hok)).
  - apply list_elem_of_fmap. exists (seg_file (q', ps)). split; [done|]. by apply (list_elem_of_fmap_2 seg_file).
Qed.

Lemma fresh_durable size ms s : open_log size ms (mkWalDir [] None) = Ok s -> all_durable (synced_fresh s).
Proof.
  intros E q. unfold synced_fresh, durable_len. cbn [sy_store sy_durable].
  destruct (decide (q = ls_writer_seq s)) as [->|Hq]; [by rewrite lookup_singleton_eq|].
  rewrite lookup_singleton_ne by done. injection E as <-. unfold file_len, file_of. cbn in *.
  unfold cmp, Z_cmp. destruct (Z.compare_spec q 0); [done|cbn; lia..].
Qed.

Lemma synced_run_ok st L : synced_run st L -> sync_ok st.
Proof.
  induction 1 as [size ms s E He|op st L st' Hrun IH Had Hio E|op st L st' e Hrun IH Had Hio E|st L st' _ IH Hw
                 |st L d size ms s L' _ _ _ _ He Hi].
  - pose proof (synced_run_implements _ _ (srun_fresh size ms s E He)) as (segs & Hok & _).
    eapply all_durable_ok; [exact Hok|done|by eapply fresh_durable].
  - eapply op_sync_ok; eauto using synced_run_implements.
  - eapply op_sync_ok; eauto using synced_run_implements.
  - by eapply worker_sync_ok.
  - destruct Hi as (segs & Hok & _). eapply all_durable_ok; [exact Hok|done|by eapply recovered_durable].
Qed.

(** ** Crashes *)

(** Frames cut at [n] bytes: the whole frames before it, and a part of the next. *)
Lemma frames_cut_whole ps n :
  Forall payload_ok ps ->
  exists psa psb tail, ps = psa ++ psb /\ torn_tail true tail /\ take n (frames ps) = frames psa ++ tail /\
    forall ps1 ps2, ps = ps1 ++ ps2 -> (length (frames ps1) <= n)%nat -> ps1 `prefix_of` psa.
Proof.
  intros Hps. set (n' := Nat.min n (length (frames ps))).
  assert (Etake : take n (frames ps) = take n' (frames ps)).
  { unfold n'. destruct (Nat.min_spec n (length (frames ps))) as [[? ->]|[? ->]]; [done|]. by rewrite !take_ge by lia. }
  assert (Hlen : length (take n' (frames ps)) = n') by (rewrite length_take; lia).
  assert (Hle : forall ps1 ps2, ps = ps1 ++ ps2 -> (length (frames ps1) <= n)%nat -> (length (frames ps1) <= n')%nat).
  { intros ps1 ps2 E Hn. assert (length (frames ps1) <= length (frames ps))%nat; [|lia].
    rewrite E, frames_app, length_app. lia. }
  destruct (frames_cut ps n') as (psa & psb & m & Eps & Hcut); [lia|].
  assert (Hlong : forall ps1 ps2, ps = ps1 ++ ps2 -> ~ ps1 `prefix_of` psa ->
            exists p psb', psb = p :: psb' /\ (length (frames psa) + length (frame p) <= length (frames ps1))%nat).
  { intros ps1 ps2 E Hno. destruct (prefix_weak_total ps1 psa ps) as [?|[more Em]]; [by exists ps2|by exists psb|done|].
    destruct more as [|p more]; [exfalso; apply Hno; by rewrite Em, app_nil_r|].
    rewrite Em, <- app_assoc, Eps in E. apply app_inv_head in E. exists p, (more ++ ps2). split; [done|].
    rewrite Em, frames_app, frames_cons, !length_app. lia. }
  exists psa, psb. rewrite Etake in *. destruct Hcut as [[E _]|(p & ps3 & -> & Hm & E)]; rewrite E in *.
  - exists []. split; [done|]. split; [by left|]. split; [by rewrite app_nil_r|]. intros ps1 ps2 E1 Hn.
    destruct (decide (ps1 `prefix_of` psa)) as [?|Hno]; [done|]. exfalso.
    destruct (Hlong ps1 ps2 E1 Hno) as (p & psb' & _ & Hl). specialize (Hle ps1 ps2 E1 Hn).
    rewrite frame_length in Hl. unfold RECORD_HEADER_LEN in Hl. lia.
  - exists (take m (frame p)). split; [done|]. split; [|split; [done|]].
    + destruct m as [|m]; [by left|right]. split; [done|]. exists p, (S m). split; [|split; [lia|done]].
      rewrite Eps, Forall_app in Hps. destruct Hps as [_ Hps]. by apply Forall_cons in Hps as [[? _] _].
    + intros ps1 ps2 E1 Hn. destruct (decide (ps1 `prefix_of` psa)) as [?|Hno]; [done|]. exfalso.
      destruct (Hlong ps1 ps2 E1 Hno) as (p' & psb' & Ep & Hl). injection Ep as <- _.
      specialize (Hle ps1 ps2 E1 Hn). rewrite length_app, length_take in Hlen. lia.
Qed.

(** What a crash leaves of the files: the closed segments, and the active one up to some point behind
    its durable bytes. *)
Lemma crash_files st d segs ps :
  wal_ok (sy_store st) (segs ++ [(ls_writer_seq (sy_store st), ps)]) -> sync_ok st -> crash_image st d ->
  exists n, (durable_len (ls_writer_seq (sy_store st)) st <= n)%nat /\
    wd_segments d = (seg_file <$> segs) ++ [(ls_writer_seq (sy_store st), take n (seg_bytes ps))].
Proof.
  intros Hok Hso [Hf _]. set (w := ls_writer_seq (sy_store st)) in *.
  rewrite (to_files _ _ _ _ _ _ (wo_table _ _ Hok)), fmap_app in Hf.
  apply Forall2_app_inv_l in Hf as (l1 & l2 & Hf1 & Hf2 & ->).
  apply Forall2_cons_inv_l in Hf2 as ([q bytes] & l3 & (Eq & n & Hn & Eb) & Hf2 & ->).
  apply Forall2_nil_inv_l in Hf2 as ->. cbn in Eq, Hn, Eb. subst q bytes. exists n. split; [done|]. f_equal.
  symmetry. apply list_eq_Forall2, Forall2_fmap_l. apply Forall2_fmap_l in Hf1. eapply Forall2_impl_in; [exact Hf1|].
  intros [q qs] [q' bytes] Hg _ (Eq & n' & Hn' & Eb). cbn in *. subst q' bytes. unfold seg_file. cbn. f_equal.
  symmetry. apply take_ge. assert (Hin : (q, qs) ∈ segs ++ [(w, ps)]) by (apply elem_of_app; by left).
  rewrite <- (file_len_seg _ _ q qs Hok Hin). etransitivity; [apply (so_closed _ Hso)|exact Hn'].
  intros E. pose proof (to_seqs _ _ _ _ _ _ (wo_table _ _ Hok)) as Hs. unfold sorted_seqs in Hs.
  rewrite fmap_app in Hs. apply strongly_sorted_app_inv in Hs as (_ & _ & Hlt).
  specialize (Hlt q w (list_elem_of_fmap_2 fst _ _ Hg) ltac:(left)). unfold w in Hlt. lia.
Qed.

(** Opening what is left: the whole records of the active segment that survived. *)
Lemma crash_open st segs ps d size ms :
  wal_ok (sy_store st) (segs ++ [(ls_writer_seq (sy_store st), ps)]) -> sync_ok st -> crash_image st d ->
  exists s' psa psb, open_log size ms d = Ok s' /\ ps = psa ++ psb /\
    implements s' (mkLog (ls_vote (sy_store st)) (ls_last_purged (sy_store st))
      (live (ls_last_purged (sy_store st)) (segs ++ [(ls_writer_seq (sy_store st), psa)])).*1) /\
    forall ps1 ps2, ps = ps1 ++ ps2 ->
      (length (seg_bytes ps1) <= durable_len (ls_writer_seq (sy_store st)) st)%nat -> ps1 `prefix_of` psa.
Proof.
  intros Hok Hso Hcr. destruct (crash_files st d segs ps Hok Hso Hcr) as (n & Hn & Ef).
  pose proof (so_header _ Hso) as Hhd. set (w := ls_writer_seq (sy_store st)) in *.
  destruct Hok as [Ht _ Hst]. pose proof (to_segs _ _ _ _ _ _ Ht) as Hsg. apply Forall_app in Hsg as [Hsegs Hsg].
  apply Forall_cons in Hsg as [Hps _].
  destruct (frames_cut_whole ps (n - SEGMENT_HEADER_LEN) Hps) as (psa & psb & tail & -> & Htail & E & Hwhole).
  apply Forall_app in Hps as [Hpsa _].
  assert (Eb : take n (seg_bytes (psa ++ psb)) = seg_bytes psa ++ tail).
  { unfold seg_bytes. rewrite take_app_ge by (rewrite header_length; lia).
    by rewrite header_length, E, app_assoc. }
  destruct (reopen_ok size ms segs w (seg_bytes psa ++ tail) psa (wd_state (ls_dir (sy_store st)))
              (mkPersisted (ls_vote (sy_store st)) (ls_last_purged (sy_store st)))) as (s' & Eo & Hi).
  - done.
  - by apply last_torn.
  - pose proof (to_chain _ _ _ _ _ _ Ht) as Hc. rewrite dir_entries_extend in Hc. by apply chain_app in Hc as [Hc _].
  - pose proof (to_seqs _ _ _ _ _ _ Ht) as Hsq. unfold sorted_seqs in *. by rewrite fmap_app in *.
  - pose proof (to_range _ _ _ _ _ _ Ht) as Hrg. by rewrite fmap_app in *.
  - exact Hst.
  - exists s', psa, psb. split; [|split; [done|split; [exact Hi|]]].
    + rewrite <- Eo. f_equal. destruct d as [files state]. cbn in Ef. rewrite Ef, Eb. f_equal.
      exact (ci_state _ _ Hcr).
    + intros ps1 ps2 E1 Hl. apply (Hwhole ps1 ps2 E1). rewrite seg_bytes_length in Hl. lia.
Qed.

(** The records of the surviving segments: a prefix of the log, with every durable one. *)
Lemma survives st segs psa psb x :
  wal_ok (sy_store st) (segs ++ [(ls_writer_seq (sy_store st), psa ++ psb)]) ->
  (forall ps1 ps2, psa ++ psb = ps1 ++ ps2 ->
     (length (seg_bytes ps1) <= durable_len (ls_writer_seq (sy_store st)) st)%nat -> ps1 `prefix_of` psa) ->
  x ∈ dir_entries (segs ++ [(ls_writer_seq (sy_store st), psa ++ psb)]) -> record_durable st x.2 ->
  x ∈ dir_entries (segs ++ [(ls_writer_seq (sy_store st), psa)]).
Proof.
  set (w := ls_writer_seq (sy_store st)). intros Hok Hwhole Hx Hd.
  rewrite dir_entries_app in Hx |- *. apply elem_of_app in Hx as [Hx|Hx]; apply elem_of_app; [by left|right].
  unfold dir_entries in *. cbn in *. rewrite app_nil_r in *. unfold entries_in in *. cbn [fst snd] in *.
  pose proof Hx as Hx0. apply seg_entry_split in Hx as (ps1 & p & ps2 & E & Ed & El).
  assert (Hpre : (ps1 ++ [p]) `prefix_of` psa).
  { apply (Hwhole (ps1 ++ [p]) ps2); [by rewrite <- app_assoc|]. unfold record_durable, loc_end in Hd.
    rewrite El in Hd. cbn [loc_offset loc_len loc_seq] in Hd. fold w.
    rewrite seg_bytes_app, length_app, seg_bytes_length, frames_cons, length_app, frame_length, frames_nil, length_nil.
    fold w in Hd. lia. }
  destruct Hpre as [more ->]. rewrite <- app_assoc. rewrite seg_entries_app. apply elem_of_app. right. cbn [app seg_entries].
  rewrite Ed. apply elem_of_app. left. cbn. apply list_elem_of_singleton. destruct x as [e loc]. cbn in *. by rewrite El.
Qed.

(** ** The task *)

(** A record that is durable, or will be once the task's sync returns. *)
Definition promised st (loc : RecordLoc) : Prop :=
  record_durable st loc \/
  exists n, sy_worker st = Some (WorkerSyncing (loc_seq loc) n) /\ (loc_end loc <= n)%nat.

(** From one store to the next, nothing promised is taken back and new records come behind the log. *)
Record keeps L st st' : Prop := {
  ke_promised : forall e, e ∈ ls_index (sy_store st) -> e ∈ ls_index (sy_store st') ->
    promised st e.2 -> promised st' e.2;
  ke_index : forall e n, e ∈ ls_index (sy_store st') -> log_next L = Some n -> e.1 < n ->
    e ∈ ls_index (sy_store st);
}.

Lemma sync_promised q st segs e :
  wal_ok (sy_store st) segs -> e ∈ ls_index (sy_store st) -> promised st e.2 -> promised (sync_data q st) e.2.
Proof.
  intros Hok He [Hd|Hw]; [left|by right]. unfold record_durable in *. rewrite durable_len_sync.
  pose proof (loc_fits _ _ e Hok He). case_decide as Hq; [by rewrite Hq|done].
Qed.

Lemma rotate_index s s' : rotate s = Ok s' -> ls_index s' = ls_index s.
Proof. unfold rotate. destruct (file_of _ _); [done|]. by intros [= <-]. Qed.

Lemma synced_rotate_keeps L st segs st' :
  wal_ok (sy_store st) segs -> ls_writer_seq (sy_store st) < U32_MAX -> sync_ok st ->
  synced_rotate st = Ok st' -> keeps L st st'.
Proof.
  intros Hok Hseq Hso E. destruct (synced_rotate_ok st segs st' Hok Hseq Hso E) as (segs' & Hok' & _ & Hall).
  pose proof (synced_rotate_store st) as Hr. rewrite E in Hr. apply rotate_index in Hr.
  split; [|intros e n He _ _; by rewrite <- Hr]. intros e _ He _. left. by eapply all_durable_records.
Qed.

Lemma keeps_refl L st : keeps L st st.
Proof. by split. Qed.

Lemma keeps_then L st1 st2 st3 :
  ls_index (sy_store st2) = ls_index (sy_store st1) -> keeps L st1 st2 -> keeps L st2 st3 -> keeps L st1 st3.
Proof.
  intros Ei [Hp1 _] [Hp2 Hi2]. split.
  - intros e He1 He3 Hp. rewrite <- Ei in He1. apply Hp2; [done..|]. apply Hp1; [by rewrite <- Ei|done..].
  - intros e n He Hn Hlt. rewrite <- Ei. by eapply Hi2.
Qed.

Lemma room_keeps L len st segs st' :
  wal_ok (sy_store st) segs -> ls_writer_seq (sy_store st) < U32_MAX -> sync_ok st ->
  synced_make_room len st = Ok st' -> keeps L st st'.
Proof.
  intros Hok Hseq Hso. unfold synced_make_room. destruct (_ && _); [|intros [= <-]; apply keeps_refl].
  by eapply synced_rotate_keeps.
Qed.

Lemma with_store_keeps L st s' : ls_index s' = ls_index (sy_store st) -> keeps L st (with_store s' st).
Proof. intros Ei. split; [done|]. intros e n He _ _. cbn in He. by rewrite Ei in He. Qed.

(** *** New records *)

Lemma bt_insert_elem (k : Z) (v : RecordLoc) m e : e ∈ bt_insert k v m -> e = (k, v) \/ e ∈ m.
Proof.
  induction m as [|[k' v'] m IH]; cbn [bt_insert].
  - intros He%list_elem_of_singleton. by left.
  - destruct (cmp k k') eqn:E.
    + intros [->|He]%elem_of_cons; [|right; by right]. apply cmp_eq in E as ->. by left.
    + intros [->|He]%elem_of_cons; [by left|by right].
    + intros [->|He]%elem_of_cons; [right; left|]. destruct (IH He) as [?|?]; [by left|right; by right].
Qed.

Lemma index_batch_elem seq base locs : forall index e,
  e ∈ index_batch seq base locs index -> e ∈ index \/ e.1 ∈ locs.*1.*1.
Proof.
  induction locs as [|[[i o] l] locs IH]; intros index e He; [by left|].
  destruct (IH (bt_insert i (mkLoc seq (base + o) l) index) e He) as [Hi|Hi]; [|right; by right].
  apply bt_insert_elem in Hi as [->|Hi]; [right; left|by left].
Qed.

Lemma encode_entries_keys es : forall buf locs buf' locs',
  encode_entries es buf locs = Some (buf', locs') -> locs'.*1.*1 = locs.*1.*1 ++ (entry_index <$> es).
Proof.
  induction es as [|e es IH]; intros buf locs buf' locs'; cbn [encode_entries].
  - intros [= <- <-]. by rewrite app_nil_r.
  - destruct (encode_record _) as [p|]; [|done]. intros E%IH. rewrite E, !fmap_app. cbn. by rewrite <- app_assoc.
Qed.

Lemma consecutive_ge es : forall n, consecutive (Some n) es -> Forall (fun e => n <= entry_index e) es.
Proof.
  induction es as [|e es IH]; intros n; [constructor|]. intros [E Hc]. constructor; [lia|].
  eapply Forall_impl; [by apply IH|]. cbn. lia.
Qed.

Lemma batch_keeps L io es buf locs st segs' st' r :
  wal_ok (sy_store st') segs' -> io <> IoSyncFails -> consecutive (log_next L) es ->
  encode_entries es [] [] = Some (buf, locs) ->
  synced_append_batch io es buf locs st = (st', r) -> keeps L st st'.
Proof.
  intros Hok' Hio Hcons Eenc E. unfold synced_append_batch in E.
  destruct (append_batch io es buf locs (sy_store st)) as [s' r'] eqn:Eb. injection E as <- _.
  assert (Hidx : forall e n, e ∈ ls_index s' -> log_next L = Some n -> e.1 < n -> e ∈ ls_index (sy_store st)).
  { intros e n He Hn Hlt. unfold append_batch in Eb. destruct io as [|m|]; [|injection Eb as <- _; exact He|done].
    change (ls_fsync (set_dirty true (write_bytes buf (sy_store st)))) with (ls_fsync (sy_store st)) in Eb.
    rewrite andb_false_r in Eb.
    assert (e ∈ index_batch (ls_writer_seq (sy_store st)) (ls_writer_len (sy_store st)) locs (ls_index (sy_store st))) as Hb.
    { revert He. injection Eb as <- _. cbn. destruct (is_every_append (ls_fsync (sy_store st))). all: done. }
    apply index_batch_elem in Hb as [?|Hb]; [done|]. rewrite (encode_entries_keys _ _ _ _ _ Eenc) in Hb. cbn in Hb.
    apply list_elem_of_fmap in Hb as (e' & E' & He'). rewrite Hn in Hcons. apply consecutive_ge in Hcons.
    rewrite Forall_forall in Hcons. specialize (Hcons _ He'). lia. }
  assert (Es : sy_store (if match io with IoWriteFails _ => enabled (with_store s' st) | _ => is_every_append (ls_fsync s') end
                         then sync_data (ls_writer_seq s') (with_store s' st) else with_store s' st) = s')
    by (by destruct (match io with IoWriteFails _ => _ | _ => _ end)).
  split; [|intros e n; rewrite Es; apply Hidx]. intros e _ He Hp. rewrite Es in Hok', He.
  destruct (match io with IoWriteFails _ => _ | _ => _ end); [|exact Hp].
  by apply (sync_promised _ (with_store s' st) segs' e).
Qed.

Lemma append_keeps io es st L st' r :
  implements (sy_store st) L -> admissible (OpAppend io es) (sy_store st) L -> io <> IoSyncFails -> sync_ok st ->
  synced_append io es st = (st', r) -> keeps L st st'.
Proof.
  intros Him Had Hio Hso E. pose proof (run_op_ok (OpAppend io es) _ L Him Had) as Hr.
  rewrite (synced_op_store (OpAppend io es) st st' r Hio E) in Hr.
  assert (exists segs', wal_ok (sy_store st') segs') as [segs' Hok'].
  { destruct Hr as [[_ (segs' & ? & _)]|(_ & _ & segs' & ? & _)]; by exists segs'. }
  destruct Had as (_ & Hcons & Hseq). unfold synced_append in E.
  destruct es as [|e es]; [injection E as <- <-; apply keeps_refl|].
  destruct (encode_entries _ _ _) as [[buf locs]|] eqn:Ee; [|injection E as <- <-; apply keeps_refl].
  destruct (synced_make_room _ st) as [st1|e1] eqn:Er; [|injection E as <- <-; apply keeps_refl].
  pose proof Him as (segs & Hok & _).
  destruct (synced_room_ok _ st segs st1 Hok Hseq Hso Er) as (_ & _ & _ & Ei & _).
  apply keeps_then with st1; [exact Ei|by eapply room_keeps|by eapply batch_keeps].
Qed.

Lemma committed_keeps c st L st' r :
  implements (sy_store st) L -> admissible (OpCommitted IoOk c) (sy_store st) L -> sync_ok st ->
  synced_save_committed IoOk c st = (st', r) -> keeps L st st'.
Proof.
  intros Him (_ & Hseq) Hso E. unfold synced_save_committed in E.
  destruct (encode_record _) as [p|]; [|injection E as <- <-; apply keeps_refl].
  destruct (synced_make_room _ st) as [st1|e1] eqn:Er; [|injection E as <- <-; apply keeps_refl].
  pose proof Him as (segs & Hok & _).
  destruct (synced_room_ok _ st segs st1 Hok Hseq Hso Er) as (_ & _ & _ & Ei & _).
  apply keeps_then with st1; [exact Ei|by eapply room_keeps|]. injection E as <- <-. by apply with_store_keeps.
Qed.

Lemma vote_keeps L v st st' r : synced_save_vote v st = (st', r) -> keeps L st st'.
Proof.
  unfold synced_save_vote, save_vote_blocking, write_state_file.
  destruct (encode_state _); intros [= <- <-]; by apply with_store_keeps.
Qed.

Lemma purged_keeps L id st segs :
  wal_ok (finish_purge id (sy_store st)) segs ->
  keeps L st (recount (with_store (finish_purge id (sy_store st)) st)).
Proof.
  intros Hok. split.
  - intros e _ He Hp. cbn [recount with_store sy_store] in He. pose proof (loc_fits _ _ e Hok He) as Hf.
    destruct Hp as [Hd|(n & Ew & Hn)].
    + left. unfold record_durable in *. rewrite durable_len_recount. cbn [with_store sy_store].
      unfold durable_len in *. cbn [with_store sy_durable]. lia.
    + right. exists (n `min` file_len (loc_seq e.2) (finish_purge id (sy_store st)))%nat. split; [|lia].
      unfold recount. cbn [with_store sy_worker sy_store]. by rewrite Ew.
  - intros e n He _ _. cbn in He. by apply list_elem_of_filter in He as [_ ?].
Qed.

Lemma purge_keeps id st L st' r :
  implements (sy_store st) L -> admissible (OpPurge id) (sy_store st) L -> sync_ok st ->
  synced_purge id st = (st', r) -> keeps L st st'.
Proof.
  intros Him Had Hso E. pose proof (run_op_ok (OpPurge id) _ L Him Had) as Hr.
  rewrite (synced_op_store (OpPurge id) st st' r I E) in Hr.
  assert (exists segs', wal_ok (sy_store st') segs') as [segs' Hok'].
  { destruct Hr as [[_ (segs' & ? & _)]|(_ & [] & _)]. by exists segs'. }
  pose proof Him as (segs & Hok & _). destruct Had as (_ & _ & Hseq). unfold synced_purge in E.
  destruct (match ls_last_purged _ with Some _ => _ | None => _ end); [injection E as <- <-; apply keeps_refl|].
  unfold write_state_file in E. destruct (encode_state _) as [bytes|]; [|injection E as <- <-; apply keeps_refl].
  destruct (synced_rotate_covered _ _) as [st1|e1] eqn:Er; injection E as <- <-; [|by apply with_store_keeps].
  apply covered_with_state in Er as (st0 & Er & ->).
  assert (ls_index (sy_store st0) = ls_index (sy_store st) /\ keeps L st st0) as [Ei Hk].
  { pose proof (synced_covered_store (id_index id) st) as Hs. rewrite Er in Hs. unfold rotate_covered in Hs.
    unfold synced_rotate_covered in Er. destruct (_ ≫= _) as [last|]; [destruct (last <=? _)|].
    - split; [by apply rotate_index|by eapply synced_rotate_keeps].
    - injection Er as <-. split; [done|apply keeps_refl].
    - injection Er as <-. split; [done|apply keeps_refl]. }
  apply keeps_then with st0; [exact Ei|exact Hk|].
  apply keeps_then with (with_state bytes st0); [done|by apply with_store_keeps|].
  by apply purged_keeps with segs'.
Qed.

Lemma op_keeps op st L st' r :
  implements (sy_store st) L -> admissible op (sy_store st) L -> sound_io op -> (forall id, op <> OpTruncate id) ->
  sync_ok st -> synced_op op st = (st', r) -> keeps L st st'.
Proof.
  destruct op as [io es|io c|v|id|id|size ms]; cbn [synced_op sound_io]; intros Him Had Hio Hnt Hso E.
  - by eapply append_keeps.
  - subst io. by eapply committed_keeps.
  - by eapply vote_keeps.
  - by eapply purge_keeps.
  - by destruct (Hnt id).
  - done.
Qed.

(** What the log goes on to after any operation but a truncation lies behind it. *)
Lemma log_next_mono op s L n :
  admissible op s L -> (forall id, op <> OpTruncate id) -> log_next L = Some n ->
  exists n', log_next (spec_op op L) = Some n' /\ n <= n'.
Proof.
  intros Had Hnt Hn. unfold log_next, log_last in *. destruct op as [io es|io c|v|id|id|size ms];
    cbn [spec_op append_log purge_log log_entries log_purged] in *; try by exists n.
  - destruct Had as (_ & Hcons & _). rewrite last_app. destruct (last es) as [e|] eqn:El; [|by exists n].
    eexists. split; [done|]. unfold log_next, log_last in Hcons. rewrite Hn in Hcons. apply consecutive_ge in Hcons.
    apply last_Some in El as [es' ->]. apply Forall_app in Hcons as [_ Hcons].
    apply Forall_cons in Hcons as [Hge _]. exact (Z.le_le_succ_r _ _ Hge).
  - destruct Had as (Hmono & _). assert (Hlow : n <= id_index id + 1 \/ exists e, last (log_entries L) = Some e /\
        n = entry_index e + 1 /\ id_index id < entry_index e).
    { destruct (last (log_entries L)) as [e|]; cbn in Hn.
      - destruct (Z.lt_ge_cases (id_index id) (entry_index e)); [right; exists e|left].
        + split; [done|]. split; [by injection Hn as <-|done].
        + injection Hn as <-. unfold entry_index in *. lia.
      - left. destruct (log_purged L) as [prev|]; [|done]. injection Hn as <-. specialize (Hmono prev eq_refl). lia. }
    destruct Hlow as [Hle|(e & El & -> & Hlt)].
    + destruct (last (filter _ (log_entries L))) as [e'|] eqn:El; eexists; (split; [done|]); [|done].
      assert (Hin : e' ∈ filter (fun e => id_index id < entry_index e) (log_entries L)).
      { apply last_Some in El as [l' ->]. apply elem_of_app. right. left. }
      apply list_elem_of_filter in Hin as [Hgt _]. unfold entry_index in Hgt. cbn. lia.
    + rewrite (last_filter_last _ _ e El) by exact Hlt. eexists. split; [done|]. reflexivity.
  - by destruct (Hnt id).
Qed.

(** ** The log's entries and their records *)

Lemma entry_indexed s segs e :
  wal_ok s segs -> e ∈ entries_of s segs -> exists x, x.1 = e /\ x ∈ live (ls_last_purged s) segs /\ key_of x ∈ ls_index s.
Proof.
  intros Hok (x & -> & Hx)%list_elem_of_fmap. exists x. split; [done|]. split; [done|].
  rewrite (to_index _ _ _ _ _ _ (wo_table _ _ Hok)). by apply list_elem_of_fmap_2.
Qed.

Lemma consecutive_behind l1 e l2 : forall n,
  consecutive n (l1 ++ e :: l2) -> consecutive (Some (entry_index e + 1)) l2.
Proof.
  induction l1 as [|z l1 IH]; intros n; [intros [_ Hr]; exact Hr|]. intros [_ Hr]. exact (IH _ Hr).
Qed.

Lemma entry_below_next s L e :
  implements s L -> e ∈ log_entries L -> exists n, log_next L = Some n /\ entry_index e < n.
Proof.
  intros Him He. pose proof (implements_serves _ _ Him) as (_ & _ & _ & Hc).
  unfold log_next, log_last. destruct (last (log_entries L)) as [y|] eqn:El.
  - exists (entry_index y + 1). split; [done|]. apply last_Some in El as [l El]. rewrite El in He, Hc.
    apply elem_of_app in He as [He|He%list_elem_of_singleton]; [|subst; lia].
    apply list_elem_of_split in He as (l1 & l2 & ->). rewrite <- app_assoc in Hc.
    apply consecutive_behind, consecutive_ge, Forall_app in Hc as [_ Hy]. apply Forall_cons in Hy as [Hy _]. lia.
  - apply last_None in El. rewrite El in He. by apply not_elem_of_nil in He.
Qed.

Lemma entries_NoDup s segs : wal_ok s segs -> NoDup (entries_of s segs).
Proof.
  intros Hok. pose proof (live_idx_sorted (ls_last_purged s) segs (to_chain _ _ _ _ _ _ (wo_table _ _ Hok))) as Hs.
  unfold entries_of. induction Hs as [|x l _ IH Hf]; [constructor|]. rewrite fmap_cons. constructor; [|done].
  intros (y & E & Hy)%list_elem_of_fmap. rewrite Forall_forall in Hf. specialize (Hf y Hy). unfold idx in Hf.
  rewrite E in Hf. lia.
Qed.

Lemma take_all {A} (l : list A) k : NoDup l -> (forall x, x ∈ l -> x ∈ take k l) -> take k l = l.
Proof.
  intros Hnd Hall. destruct (drop k l) as [|x r] eqn:E.
  - rewrite <- (take_drop k l) at 2. by rewrite E, app_nil_r.
  - exfalso. rewrite <- (take_drop k l), E in Hnd. apply NoDup_app in Hnd as (_ & Hnd & _).
    apply (Hnd x); [|left]. apply Hall. rewrite <- (take_drop k l), E. apply elem_of_app. right. left.
Qed.

Lemma crash_keeps_durable st L d size ms :
  synced_run st L -> crash_image st d ->
  exists s' k, open_log size ms d = Ok s' /\
    implements s' (mkLog (log_vote L) (log_purged L) (take k (log_entries L))) /\
    forall e, e ∈ log_entries L -> entry_index e ∈ durable_index st -> e ∈ take k (log_entries L).
Proof.
  intros Hrun Hcr. pose proof (synced_run_ok _ _ Hrun) as Hso.
  destruct (synced_run_implements _ _ Hrun) as (segs0 & Hok & ->). cbn [log_vote log_purged log_entries].
  destruct (wo_writer _ _ Hok) as (segs & ps & -> & _).
  destruct (crash_open st segs ps d size ms Hok Hso Hcr) as (s' & psa & psb & Eo & -> & Hi & Hwhole).
  set (w := ls_writer_seq (sy_store st)) in *. set (p := ls_last_purged (sy_store st)) in *.
  assert (exists k, (live p (segs ++ [(w, psa)])).*1 = take k (entries_of (sy_store st) (segs ++ [(w, psa ++ psb)]))) as [k Ek].
  { unfold entries_of, live. rewrite dir_entries_extend, filter_app. apply prefix_take_fst. }
  exists s', k. rewrite <- Ek. split; [done|]. split; [done|]. intros e He Hdur.
  destruct (entry_indexed _ _ e Hok He) as (x & <- & Hx & Hkey). pose proof Hx as [Hab Hdir]%list_elem_of_filter.
  apply list_elem_of_fmap_2, list_elem_of_filter. split; [done|].
  apply (survives st segs psa psb x Hok Hwhole Hdir).
  apply list_elem_of_fmap in Hdur as (kv & Ekv & [Hd Hin]%list_elem_of_filter).
  destruct (index_elem _ _ kv Hok Hin) as (y & -> & Hy).
  assert (x = y) as ->; [|done].
  eapply sorted_inj; [apply (chain_sorted _ _ (to_chain _ _ _ _ _ _ (wo_table _ _ Hok)))|done..].
Qed.

(** Nothing to lose: every append is synced, or the task has synced all there is. *)
Definition settled st : Prop :=
  ls_fsync (sy_store st) = EveryAppend \/
  ls_dirty (sy_store st) = false /\ sy_worker st = Some WorkerWaiting.

Lemma settled_durable st L e :
  synced_run st L -> settled st -> e ∈ log_entries L -> entry_index e ∈ durable_index st.
Proof.
  intros Hrun Hs He. pose proof (synced_run_ok _ _ Hrun) as Hso.
  destruct (synced_run_implements _ _ Hrun) as (segs & Hok & ->).
  destruct (entry_indexed _ _ e Hok He) as (x & <- & _ & Hkey). unfold durable_index.
  apply list_elem_of_fmap. exists (key_of x). split; [done|]. apply list_elem_of_filter. split; [|done].
  destruct Hs as [Hev|[Hd Hw]]; [by apply (so_every _ Hso)|].
  apply (all_durable_records st segs (key_of x) Hok); [|done]. intros q.
  destruct (decide (q = ls_writer_seq (sy_store st))) as [->|Hq]; [|by apply (so_closed _ Hso)].
  pose proof (so_worker _ Hso Hd) as Hwk. by rewrite Hw in Hwk.
Qed.

(** Operations other than truncations, while the task syncs. *)
Inductive writes : SyncedLog -> Log -> SyncedLog -> Log -> Prop :=
| writes_none st L : writes st L st L
| writes_op op st L st1 L1 st2 r :
    writes st L st1 L1 -> admissible op (sy_store st1) L1 -> sound_io op -> (forall id, op <> OpTruncate id) ->
    synced_op op st1 = (st2, r) -> writes st L st2 (match r with Ok _ => spec_op op L1 | Err _ => L1 end).

Lemma writes_run st L st2 L2 : writes st L st2 L2 -> synced_run st L -> synced_run st2 L2.
Proof.
  induction 1 as [|op st L st1 L1 st2 [[]|e] _ IH Had Hio _ E]; intros Hrun; [done|..].
  - by eapply srun_done; [apply IH| | |].
  - by eapply srun_failed; [apply IH| | |].
Qed.

(** What was promised of the records below [n] stays so. *)
Lemma writes_keep st L st2 L2 n :
  writes st L st2 L2 -> synced_run st L -> log_next L = Some n ->
  (forall e, e ∈ ls_index (sy_store st) -> promised st e.2) ->
  (exists n2, log_next L2 = Some n2 /\ n <= n2) /\
  forall e, e ∈ ls_index (sy_store st2) -> e.1 < n -> promised st2 e.2.
Proof.
  induction 1 as [st L|op st L st1 L1 st2 r Hw IH Had Hio Hnt E]; intros Hrun Hn Hp.
  { split; [by exists n|]. intros e He _. by apply Hp. }
  destruct (IH Hrun Hn Hp) as [(n1 & Hn1 & Hle) Hp1].
  pose proof (writes_run _ _ _ _ Hw Hrun) as Hrun1. pose proof (synced_run_implements _ _ Hrun1) as Him1.
  destruct (op_keeps op st1 L1 st2 r Him1 Had Hio Hnt (synced_run_ok _ _ Hrun1) E) as [Hk Hi]. split.
  - destruct r as [[]|e]; [|by exists n1]. destruct (log_next_mono op _ _ n1 Had Hnt Hn1) as (n2 & -> & ?).
    exists n2. split; [done|lia].
  - intros e He Hlt. assert (He1 : e ∈ ls_index (sy_store st1)) by (eapply Hi; [done|exact Hn1|lia]).
    apply Hk; [done..|]. by apply Hp1.
Qed.

Lemma clone_promises st L st1 e :
  synced_run st L -> fsync_clone true st = Some st1 -> e ∈ ls_index (sy_store st1) -> promised st1 e.2.
Proof.
  intros Hrun E He. pose proof (synced_run_ok _ _ Hrun) as Hso.
  destruct (synced_run_implements _ _ Hrun) as (segs & Hok & _). unfold fsync_clone in E.
  destruct (sy_worker st) as [[]|]; try done. injection E as <-. cbn [with_worker sy_store] in He.
  pose proof (loc_fits _ _ e Hok He) as Hf.
  destruct (decide (loc_seq e.2 = ls_writer_seq (sy_store st))) as [Eq|Hq].
  - right. exists (file_len (ls_writer_seq (sy_store st)) (sy_store st)). cbn. rewrite Eq. split; [done|by rewrite <- Eq].
  - left. unfold record_durable. pose proof (so_closed _ Hso _ Hq).
    change (durable_len (loc_seq e.2) (with_worker _ st)) with (durable_len (loc_seq e.2) st). lia.
Qed.

Lemma done_durable st st' loc : fsync_done true st = Some st' -> promised st loc -> record_durable st' loc.
Proof.
  unfold fsync_done. destruct (sy_worker st) as [[| |q n]|] eqn:Ew; try done. intros [= <-] Hp.
  unfold record_durable. change (durable_len ?a (with_worker WorkerWaiting ?st0)) with (durable_len a st0).
  rewrite durable_len_insert. destruct Hp as [Hd|(n' & Ew' & Hn)]; unfold record_durable in *.
  - case_decide as Hq; [subst q|]; lia.
  - rewrite Ew in Ew'. injection Ew' as -> ->. rewrite decide_True by done. lia.
Qed.

(** ** The theorems *)

(** C10: A crash loses only what was not synced. With fsync on, after any operations, steps of the
    periodic task and earlier crashes, whatever prefix of each file a crash leaves beyond its durable
    bytes, the log opens again under every policy, with the same vote and purge marker and a prefix of
    its entries; every entry whose record was durable is in it; and nothing is lost at all when every
    append is synced, or once the task waits with the dirty flag clear. *)
Theorem crash_loses_only_unsynced st L d size ms :
  synced_run st L -> crash_image st d ->
  exists s' k, open_log size ms d = Ok s' /\
    serves s' (mkLog (log_vote L) (log_purged L) (take k (log_entries L))) /\
    (forall e, e ∈ log_entries L -> entry_index e ∈ durable_index st -> e ∈ take k (log_entries L)) /\
    (settled st -> take k (log_entries L) = log_entries L).
Proof.
  intros Hrun Hcr. destruct (crash_keeps_durable st L d size ms Hrun Hcr) as (s' & k & E & Hi & Hd).
  exists s', k. split; [done|]. split; [by apply implements_serves|]. split; [done|]. intros Hs.
  apply take_all; [|by intros e He; apply Hd; [|by eapply settled_durable]].
  destruct (synced_run_implements _ _ Hrun) as (segs & Hok & ->). by eapply entries_NoDup.
Qed.

(** C11: Periodic sync bounds the loss. What was in the log when the task cloned the descriptor of the
    active segment, and was not purged since, survives every crash after that sync returned, whatever
    was appended, marked, voted, purged or rotated in between. *)
Theorem periodic_sync_bounds_loss st L st1 st2 L2 st3 d size ms :
  synced_run st L -> fsync_clone true st = Some st1 -> writes st1 L st2 L2 -> fsync_done true st2 = Some st3 ->
  crash_image st3 d ->
  exists s' k, open_log size ms d = Ok s' /\
    serves s' (mkLog (log_vote L2) (log_purged L2) (take k (log_entries L2))) /\
    forall e, e ∈ log_entries L -> e ∈ log_entries L2 -> e ∈ take k (log_entries L2).
Proof.
  intros Hrun Ec Hw Ed Hcr. assert (Hrun1 : synced_run st1 L) by (eapply srun_worker; [done|by eapply step_clone]).
  pose proof (writes_run _ _ _ _ Hw Hrun1) as Hrun2.
  assert (Hrun3 : synced_run st3 L2) by (eapply srun_worker; [done|by eapply step_done]).
  destruct (crash_keeps_durable st3 L2 d size ms Hrun3 Hcr) as (s' & k & E & Hi & Hd).
  exists s', k. split; [done|]. split; [by apply implements_serves|]. intros e He He2. apply Hd; [done|].
  destruct (entry_below_next _ _ e (synced_run_implements _ _ Hrun1) He) as (n & Hn & Hlt).
  destruct (writes_keep _ _ _ _ n Hw Hrun1 Hn) as [_ Hp]; [intros e' He'; by apply (clone_promises st L)|].
  destruct (synced_run_implements _ _ Hrun3) as (segs & Hok & ->).
  destruct (entry_indexed _ _ e Hok He2) as (x & <- & _ & Hkey).
  apply list_elem_of_fmap. exists (key_of x). split; [done|]. apply list_elem_of_filter. split; [|done].
  apply (done_durable st2); [done|]. apply Hp; [|done].
  unfold fsync_done in Ed. destruct (sy_worker st2) as [[]|]; try done. injection Ed as <-. exact Hkey.
Qed.
End Spec.

(** ** Concrete runs *)

Import WalDemo.
#[local] Existing Instances types laws codec codec_laws sum_crc sum_crc_laws.

(** Under a sync every 100 ms: a batch, a tick, its clone, a second batch, and the sync's return. *)
Module SyncRuns.
Definition begun : SyncedLog := start_fsync_worker (synced_fresh (fresh (Some 100))).
Definition one : SyncedLog := (synced_append IoOk (batch 1) begun).1.
Definition step (f : SyncedLog -> option SyncedLog) (st : SyncedLog) : SyncedLog := default st (f st).
Definition ticked : SyncedLog := step fsync_tick one.
Definition cloned : SyncedLog := step (fsync_clone true) ticked.
Definition two : SyncedLog := (synced_append IoOk (batch 3) cloned).1.
Definition done : SyncedLog := step (fsync_done true) two.

Lemma sync_one_run : synced_run one (mkLog None None (batch 1)).
Proof.
  apply (srun_done (OpAppend IoOk (batch 1)) begun (mkLog None None [])).
  - eapply srun_worker; [|apply step_start]. by apply (srun_fresh size (Some 100)).
  - split; [by apply batch_encodable|]. by vm_compute.
  - discriminate.
  - by vm_compute.
Qed.

Lemma ticked_run : synced_run ticked (mkLog None None (batch 1)).
Proof. eapply srun_worker; [apply sync_one_run|]. apply step_tick. by vm_compute. Qed.

Lemma two_writes : writes cloned (mkLog None None (batch 1)) two (mkLog None None (batch 1 ++ batch 3)).
Proof.
  apply (writes_op (OpAppend IoOk (batch 3)) cloned (mkLog None None (batch 1)) cloned (mkLog None None (batch 1)) two (Ok ())).
  - apply writes_none.
  - split; [by apply batch_encodable|]. by vm_compute.
  - discriminate.
  - discriminate.
  - by vm_compute.
Qed.
End SyncRuns.

(** Checking a crash image. *)
Fixpoint leftb (st : SyncedLog) (files rest : list (Z * list Z)) : bool :=
  match files, rest with
  | [], [] => true
  | (q, bytes) :: files, (q', bytes') :: rest =>
      (q' =? q) && bool_decide (bytes' = take (durable_len q st `max` length bytes') bytes) && leftb st files rest
  | _, _ => false
  end.

Lemma leftb_image st files rest state :
  wd_segments (ls_dir (sy_store st)) = files -> wd_state (ls_dir (sy_store st)) = state ->
  leftb st files rest = true -> crash_image st (mkWalDir rest state).
Proof.
  intros Ef Es E. split; [|done]. rewrite Ef. cbn [wd_segments]. clear Ef Es. revert rest E.
  induction files as [|[q bytes] files IH]; intros [|[q' bytes'] rest] E; try done.
  cbn in E. apply andb_true_iff in E as [[Eq%Z.eqb_eq Eb%bool_decide_eq_true]%andb_true_iff E].
  constructor; [|by apply IH]. split; [done|]. eexists. split; [|exact Eb]. apply Nat.le_max_l.
Qed.

(** ** Witnesses *)

(** Before the first tick: one record and a torn one are left. *)
Lemma crash_loses_only_unsynced_witness :
  let d := mkWalDir [(0, segment_header ++ frame [0; 1; 7] ++ [3; 0])] None in
  crash_image SyncRuns.one d /\
  exists s' k, open_log size (Some 0) d = Ok s' /\
    serves s' (mkLog (None : option (@VoteOf types)) None (take k (batch 1))) /\
    (forall e, e ∈ batch 1 -> entry_index e ∈ durable_index SyncRuns.one -> e ∈ take k (batch 1)) /\
    (settled SyncRuns.one -> take k (batch 1) = batch 1).
Proof.
  assert (Hcr : crash_image SyncRuns.one (mkWalDir [(0, segment_header ++ frame [0; 1; 7] ++ [3; 0])] None)).
  { eapply leftb_image; [by vm_compute..|]. by vm_compute. }
  split; [exact Hcr|].
  exact (crash_loses_only_unsynced SyncRuns.one (mkLog None None (batch 1)) _ size (Some 0) SyncRuns.sync_one_run Hcr).
Defined.

(** The second batch went to a new segment and is lost; the first is kept. *)
Lemma periodic_sync_bounds_loss_witness :
  let d := mkWalDir [(0, segment_header ++ frame [0; 1; 7] ++ frame [0; 2; 7]); (1, segment_header)] None in
  exists s' k, open_log size (Some 100) d = Ok s' /\
    serves s' (mkLog (None : option (@VoteOf types)) None (take k (batch 1 ++ batch 3))) /\
    forall e, e ∈ batch 1 -> e ∈ batch 1 ++ batch 3 -> e ∈ take k (batch 1 ++ batch 3).
Proof.
  apply (periodic_sync_bounds_loss SyncRuns.ticked (mkLog None None (batch 1)) SyncRuns.cloned SyncRuns.two
           (mkLog None None (batch 1 ++ batch 3)) SyncRuns.done).
  - exact SyncRuns.ticked_run.
  - by vm_compute.
  - exact SyncRuns.two_writes.
  - by vm_compute.
  - eapply leftb_image; [by vm_compute..|]. by vm_compute.
Defined.

(** ** What the code does not promise *)

(** Turning the periodic sync on over a log written without it leaves that log unsynced. The task
    flushes recovered data on its first tick, but only the active segment: the closed ones are never
    synced. With the flag clear and the task waiting, a crash takes entries 1 and 2 and leaves 3 and 4. *)
Theorem recovered_segments_stay_unsynced :
  let before := (synced_append IoOk (batch 3) (synced_append IoOk (batch 1) (synced_fresh (fresh None))).1).1 in
  let s := opened (Some 100) (ls_dir (sy_store before)) in
  let st := SyncRuns.step (fsync_done true) (SyncRuns.step (fsync_clone true) (SyncRuns.step fsync_tick
              (start_fsync_worker (synced_restarted s (sy_durable before))))) in
  let d := mkWalDir (update_file 0 (take 8) (wd_segments (ls_dir (sy_store st)))) None in
  settled st /\ crash_image st d /\
  try_get_log_entries Unbounded Unbounded s = Ret (Ok (batch 1 ++ batch 3)) /\
  try_get_log_entries Unbounded Unbounded (opened (Some 100) d) = Ret (Ok (batch 3)).
Proof.
  cbv zeta. split; [right; split; by vm_compute|]. split; [|split; by vm_compute].
  eapply leftb_image; [by vm_compute..|]. by vm_compute.
Qed.
