(* ===== verification/Api.v ===== *)
(** * The HTTP edge ([src/src/network/api.rs])

    What stands between a client's request and the Raft log: the validation of requests, batches and
    keys, the symbol guard and the intake stamp of [/write] and [/write_batch], the named reads of
    the state machine, and the event pages. The handlers' calls of openraft (membership metrics,
    [client_write], the linearizer) are the parameters of the definitions or the caller's business.
    Texts of errors are the constructors of [EdgeError]; a JSON text is the value it encodes. *)

From stdpp Require Import strings gmap.
From S2P Require Import Prelude BTree Fixed Order OrderBook MatchEvent StateMachine.

Definition DEFAULT_EVENTS_PAGE : nat := Z.to_nat 500.
Definition MAX_EVENTS_PAGE : nat := Z.to_nat 1000.
Definition MAX_EVENTS_WAIT_MS : Z := 1000.
Definition MAX_CLIENT_ORDER_ID_BYTES : nat := 128.
Definition MAX_READ_KEY_BYTES : nat := 128.
Definition MAX_BATCH_REQUESTS : nat := 128.

Inductive EdgeError : Type :=
| TooFewVoters (voters min_voters : Z)
| IdEmpty | IdTooLong | IdBadCharacter
| KeyEmpty | KeyTooLong | KeyNotPrintable
| EventsLimit | EventsWait
| BatchEmpty | BatchTooLong | NestedBatch | DuplicateId (id : string)
| WrongSymbol (symbol_id configured : Z)
| BatchItem (index : nat) (error : EdgeError).

(** ** Validation *)

Definition ensure_min_voters (min_voters voters : Z) : Result unit EdgeError :=
  if min_voters <=? 1 then Ok ()
  else if voters <? min_voters then Err (TooFewVoters voters min_voters) else Ok ().

(** Bytes of a [&str]. *)
Definition bytes_of (s : string) : list Z :=
  (fun a => Z.of_nat (Ascii.nat_of_ascii a)) <$> String.list_ascii_of_string s.

Definition is_ascii_alphanumeric (b : Z) : bool :=
  ((48 <=? b) && (b <=? 57)) || ((65 <=? b) && (b <=? 90)) || ((97 <=? b) && (b <=? 122)).

(** ['.'], ['_'], ['-'] and [':'] besides letters and digits. *)
Definition id_byte (b : Z) : bool :=
  is_ascii_alphanumeric b || (b =? 46) || (b =? 95) || (b =? 45) || (b =? 58).

Definition is_ascii_graphic (b : Z) : bool := (33 <=? b) && (b <=? 126).

Definition validate_client_order_id (id : string) : Result unit EdgeError :=
  let bytes := bytes_of id in
  if bool_decide (bytes = []) then Err IdEmpty
  else if bool_decide (MAX_CLIENT_ORDER_ID_BYTES < length bytes)%nat then Err IdTooLong
  else if negb (forallb id_byte bytes) then Err IdBadCharacter
  else Ok ().

Definition validate_read_key (key : string) : Result unit EdgeError :=
  let bytes := bytes_of key in
  if bool_decide (bytes = []) then Err KeyEmpty
  else if bool_decide (MAX_READ_KEY_BYTES < length bytes)%nat then Err KeyTooLong
  else if negb (forallb is_ascii_graphic bytes) then Err KeyNotPrintable
  else Ok ().

Record EventsRequest : Type := mkEventsRequest {
  er_after : option EventId;
  er_limit : option nat;
  er_wait_ms : option Z;
}.

Definition validate_events_request (req : EventsRequest) : Result unit EdgeError :=
  if match er_limit req with
     | Some limit => negb (bool_decide (1 <= limit <= MAX_EVENTS_PAGE)%nat)
     | None => false
     end
  then Err EventsLimit
  else if match er_wait_ms req with Some wait_ms => MAX_EVENTS_WAIT_MS <? wait_ms | None => false end
  then Err EventsWait
  else Ok ().

(** The items of a batch; [ids] are the client order ids seen so far. An item is never a batch when
    [validate_request] is reached, so only its id is left to validate. *)
Fixpoint validate_items (requests : list MatchEngineRequest) (ids : gset string) : Result unit EdgeError :=
  match requests with
  | [] => Ok ()
  | Batch _ :: _ => Err NestedBatch
  | Place _ (Some id) :: requests =>
      match validate_client_order_id id with
      | Err e => Err e
      | Ok _ =>
          if bool_decide (id ∈ ids) then Err (DuplicateId id) else validate_items requests ({[id]} ∪ ids)
      end
  | _ :: requests => validate_items requests ids
  end.

Definition validate_batch (requests : list MatchEngineRequest) : Result unit EdgeError :=
  if bool_decide (requests = []) then Err BatchEmpty
  else if bool_decide (MAX_BATCH_REQUESTS < length requests)%nat then Err BatchTooLong
  else validate_items requests ∅.

Definition validate_request (request : MatchEngineRequest) : Result unit EdgeError :=
  match request with
  | Place _ (Some id) => validate_client_order_id id
  | Batch requests => validate_batch requests
  | _ => Ok ()
  end.

Definition validate_order_symbol (order : Order) (configured : Z) : Result unit EdgeError :=
  if negb (o_symbol_id order =? configured) then Err (WrongSymbol (o_symbol_id order) configured) else Ok ().

(** Behind a [ConfigureSymbol] a batch is left to the state machine. *)
Fixpoint validate_request_symbol (configured : Z) (request : MatchEngineRequest) : Result unit EdgeError :=
  match request with
  | Place order _ | Cancel order | Amend order _ _ => validate_order_symbol order configured
  | Batch requests =>
      (fix items (index : nat) (requests : list MatchEngineRequest) : Result unit EdgeError :=
         match requests with
         | [] => Ok ()
         | ConfigureSymbol _ :: _ => Ok ()
         | request :: requests =>
             match validate_request_symbol configured request with
             | Err e => Err (BatchItem index e)
             | Ok _ => items (S index) requests
             end
         end) 0%nat requests
  | PurgeExpired _ _ | ConfigureSymbol _ => Ok ()
  end.

(** Only the leader checks; a follower's answer must stay the forwardable Raft error. *)
Definition guard_request_symbol (is_leader : bool) (configured : Z) (request : MatchEngineRequest)
    : Result unit EdgeError :=
  if negb is_leader then Ok () else validate_request_symbol configured request.

(** ** The intake stamp *)

Definition set_timestamp (t : Z) (o : Order) : Order :=
  mkOrder (o_live o) (o_side o) (o_symbol_id o) (o_price o) (o_volume o) (o_volume_unit o)
    (o_requested_volume o) (o_requested_volume_unit o) (o_maker_fee_rate o) (o_taker_fee_rate o)
    (o_id o) (o_sequence o) (o_tif o) (o_post_only o) (o_stop_price o) (o_display_volume o)
    (o_hidden_volume o) t.

Fixpoint stamp_request_at (now_ms : Z) (request : MatchEngineRequest) : MatchEngineRequest :=
  match request with
  | Place order id => Place (set_timestamp now_ms order) id
  | Cancel order => Cancel (set_timestamp now_ms order)
  | Amend order price volume => Amend (set_timestamp now_ms order) price volume
  | Batch requests => Batch (stamp_request_at now_ms <$> requests)
  | PurgeExpired _ _ | ConfigureSymbol _ => request
  end.

(** ** Writes *)

(** What a handler knows of its node: the voters, whether it leads, its clock. *)
Record EdgeNode : Type := mkEdgeNode {
  en_min_voters : Z;
  en_voters : Z;
  en_is_leader : bool;
  en_now_ms : Z;
}.

(** [/write] up to the Raft proposal: the request it proposes. *)
Definition admit_write (node : EdgeNode) (configured : Z) (request : MatchEngineRequest)
    : Result MatchEngineRequest EdgeError :=
  match ensure_min_voters (en_min_voters node) (en_voters node) with
  | Err e => Err e
  | Ok _ =>
      match validate_request request with
      | Err e => Err e
      | Ok _ =>
          match guard_request_symbol (en_is_leader node) configured request with
          | Err e => Err e
          | Ok _ => Ok (stamp_request_at (en_now_ms node) request)
          end
      end
  end.

(** [/write_batch]. *)
Definition admit_batch (node : EdgeNode) (configured : Z) (requests : list MatchEngineRequest)
    : Result MatchEngineRequest EdgeError :=
  match ensure_min_voters (en_min_voters node) (en_voters node) with
  | Err e => Err e
  | Ok _ =>
      match validate_batch requests with
      | Err e => Err e
      | Ok _ =>
          let request := Batch requests in
          match guard_request_symbol (en_is_leader node) configured request with
          | Err e => Err e
          | Ok _ => Ok (stamp_request_at (en_now_ms node) request)
          end
      end
  end.

(** ** Reads *)

(** [str::starts_with] and [str::trim_start_matches]; every removal shortens the text. *)
Definition starts_with (prefix s : str) : bool := bool_decide (take (length prefix) s = prefix).

Fixpoint trim_start_matches (fuel : nat) (prefix s : str) : str :=
  match fuel with
  | O => s
  | S fuel => if starts_with prefix s then trim_start_matches fuel prefix (drop (length prefix) s) else s
  end.

(** [str::parse] for an unsigned type with maximum [max]: an optional plus, then digits. *)
Definition parse_unsigned (max : Z) (s : str) : option Z :=
  let digits := match s with c :: s' => if c =? CH_PLUS then s' else s | [] => [] end in
  match digits with
  | [] => None
  | _ => match digits_value 0 digits with Some v => if v <=? max then Some v else None | None => None end
  end.

Definition NULL : str := lit "null".

(** [ReadState]. The depth and configuration texts are JSON of the values. *)
Inductive ReadState : Type :=
| RsOrders (orders : list Order)
| RsDepth (bids asks : list DepthLevel)
| RsConfig (config : SymbolConfig)
| RsMarketData (enabled : bool)
| RsText (text : str).

Definition optional_text (value : option Fixed) : str :=
  match value with None => NULL | Some value => to_string value end.

Section Reads.
Context `{RaftTypes}.

Definition depth_json (levels : Z) (s : StateMachineStoreInner) : ReadState :=
  RsDepth (depth Buy levels (orderbook s)) (depth Sell levels (orderbook s)).

Definition DEPTH_PREFIX : str := lit "orderbook_depth:".

Definition read_state_owned (key : str) (s : StateMachineStoreInner) : ReadState :=
  if bool_decide (key = lit "orderbook_orders") then RsOrders (orders s)
  else if bool_decide (key = lit "orderbook_stops") then RsOrders (stops (orderbook s))
  else if bool_decide (key = lit "orderbook_depth") then depth_json 10 s
  else if bool_decide (key = lit "orderbook_spread") then RsText (optional_text (spread (orderbook s)))
  else if bool_decide (key = lit "marketdata_status")
  then RsMarketData (match market_data s with Some _ => true | None => false end)
  else if bool_decide (key = lit "orderbook_last_trade_price")
  then RsText (optional_text (last_trade_price (orderbook s)))
  else if bool_decide (key = lit "orderbook_sequence") || bool_decide (key = lit "orderbook_sequance")
  then RsText (show_u128 (book_sequence (orderbook s)))
  else if bool_decide (key = lit "symbol_config") then RsConfig (symbol_config s)
  else if bool_decide (key = lit "symbol_id") then RsText (show_u128 (cfg_symbol_id (symbol_config s)))
  else if starts_with DEPTH_PREFIX key then
    let levels :=
      Z.min (default 10 (parse_unsigned U64_MAX (trim_start_matches (length key) DEPTH_PREFIX key))) 200 in
    depth_json levels s
  else RsText [].

(** ** Event pages *)

Record EventsResponse : Type := mkEventsResponse {
  ep_events : list MatchEvent;
  ep_next_after : option EventId;
  ep_oldest_event_id : option EventId;
  ep_last_event_id : option EventId;
  ep_has_more : bool;
}.

Definition events_page (after : option EventId) (limit : nat) (s : StateMachineStoreInner) : EventsResponse :=
  let '(page_events, next_after, has_more) := events_since after limit s in
  mkEventsResponse page_events next_after (oldest_event_id s) (last_event_id s) has_more.

(** The long poll: one turn per wake-up, each with the store as it then is and whether the deadline
    has passed. [None]: still waiting. *)
Fixpoint read_events_page (after : option EventId) (limit : nat) (wait_ms : Z)
    (turns : list (StateMachineStoreInner * bool)) : option EventsResponse :=
  match turns with
  | [] => None
  | (s, deadline_passed) :: turns =>
      let page := events_page after limit s in
      if negb (bool_decide (ep_events page = [])) || (wait_ms =? 0) || deadline_passed
      then Some page else read_events_page after limit wait_ms turns
  end.

(** [/events] behind the linearizer. *)
Definition serve_events (req : EventsRequest) (turns : list (StateMachineStoreInner * bool))
    : Result (option EventsResponse) EdgeError :=
  match validate_events_request req with
  | Err e => Err e
  | Ok _ =>
      let limit := Nat.max 1 (Nat.min MAX_EVENTS_PAGE (default DEFAULT_EVENTS_PAGE (er_limit req))) in
      Ok (read_events_page (er_after req) limit (default 0 (er_wait_ms req)) turns)
  end.

Record EventsStatus : Type := mkEventsStatus {
  st_oldest_event_id : option EventId;
  st_last_event_id : option EventId;
  st_retained_events : nat;
  st_evictions_total : Z;
  st_retention_limit : nat;
  st_submission_retention_limit : nat;
  st_submission_evictions_total : Z;
}.

Definition events_status (s : StateMachineStoreInner) : EventsStatus :=
  mkEventsStatus (oldest_event_id s) (last_event_id s) (length (events s)) (events_evicted s)
    (max_events s) (max_submissions s) (submissions_evicted s).
End Reads.
