(* ===== verification/Freeze.v ===== *)
(** * Freeze and settlement estimates of the order desk ([src/demos/order_system/src/freeze.rs])

    The engine holds no balances. The desk estimates, from an order, the symbol configuration and
    the fee rates, which asset an order system would freeze for the order and how much, and what a
    full fill would deliver, receive and cost. Assets are named by their code, a list of code
    points. An estimate that overflows is [None]. *)

From S2P Require Import Prelude BTree Fixed Order.

(** ** Data *)

Inductive Product : Type := Spot | Perpetual.
Inductive PositionSide : Type := Long | Short.

Definition MIN_PERPETUAL_LEVERAGE : Z := 1.
Definition MAX_PERPETUAL_LEVERAGE : Z := 100.

Inductive FreezeRole : Type := Maker | Taker.

Inductive FreezeBasis : Type :=
| QuoteNotional | BasePrincipal | QuoteNotionalPlusFee | QuoteCollateralPlusFee | PerpetualMarginPlusFee.

Inductive FeeFunding : Type :=
| WithholdFromBaseDelivery | WithholdFromQuoteProceeds | DeductFromQuoteFreeze
| BaseFromBaseDelivery | BaseAgainstQuoteCollateral | DeductFromMargin.

#[global] Instance Product_eq_dec : EqDecision Product.
Proof. solve_decision. Defined.

Record AssetAmount : Type := mkAssetAmount { aa_asset : str; aa_amount : Fixed }.

Record SettlementLeg : Type := mkSettlementLeg {
  leg_role : FreezeRole;
  leg_fee_rate : Fixed;
  leg_delivers : AssetAmount;
  leg_receives : AssetAmount;
  leg_fee : AssetAmount;
}.

Record PerpetualTerms : Type := mkPerpetualTerms {
  pt_leverage : Z;
  pt_position : PositionSide;
  pt_notional : Fixed;
  pt_initial_margin : Fixed;
  pt_fee : AssetAmount;
  pt_buffer : Fixed;
}.

Record FreezeEstimate : Type := mkFreezeEstimate {
  fz_asset : str;
  fz_amount : Fixed;
  fz_basis : FreezeBasis;
  fz_role : FreezeRole;
  fz_fee_rate : Fixed;
  fz_reference_price : Fixed;
}.

Record OrderEconomics : Type := mkOrderEconomics {
  oe_product : Product;
  oe_freeze : FreezeEstimate;
  oe_maker : option SettlementLeg;
  oe_taker : option SettlementLeg;
  oe_fee_funding : FeeFunding;
  oe_perpetual : option PerpetualTerms;
}.

Record AssetFreeze : Type := mkAssetFreeze { af_asset : str; af_amount : Fixed; af_orders : nat }.

(** [Amounts]. *)
Record Amounts : Type := mkAmounts { am_price : Fixed; am_base : Fixed; am_quote : Fixed }.

(** The message of [validate_leverage]. *)
Inductive LeverageError : Type := LeverageOutOfRange.

Definition perpetual_supported (symbol : SymbolConfig) : bool :=
  bool_decide (fee_asset_policy symbol = PolicyQuote).

Definition validate_leverage (leverage : Z) : Result unit LeverageError :=
  if negb ((MIN_PERPETUAL_LEVERAGE <=? leverage) && (leverage <=? MAX_PERPETUAL_LEVERAGE))
  then Err LeverageOutOfRange else Ok ().

(** Whether the order can ever rest and earn the maker rate. *)
Definition can_rest (order : Order) : bool :=
  bool_decide (o_live order = Limit) && negb (is_stop order) && negb (is_immediate (o_tif order)).

Definition fee_funding (policy : FeeAssetPolicy) (side : OrderSide) : FeeFunding :=
  match policy, side with
  | PolicyReceived, Buy => WithholdFromBaseDelivery
  | PolicyReceived, Sell => WithholdFromQuoteProceeds
  | PolicyQuote, Buy => DeductFromQuoteFreeze
  | PolicyQuote, Sell => WithholdFromQuoteProceeds
  | PolicyBase, Buy => BaseFromBaseDelivery
  | PolicyBase, Sell => BaseAgainstQuoteCollateral
  end.

Definition selected_rate (can_rest : bool) (maker_rate taker_rate : Fixed) (worst_case_freeze : bool)
    : FreezeRole * Fixed :=
  if negb can_rest then (Taker, max taker_rate FIXED_ZERO)
  else if worst_case_freeze then
    let maker_rate := max maker_rate FIXED_ZERO in
    let taker_rate := max taker_rate FIXED_ZERO in
    if maker_rate <=? taker_rate then (Taker, taker_rate) else (Maker, maker_rate)
  else (Maker, max maker_rate FIXED_ZERO).

(** ** Rounding *)

Definition precision_step (decimals : Z) : Fixed := 10 ^ (18 - Z.min decimals 18).

Definition ceil_quote (value : Fixed) (symbol : SymbolConfig) : Fixed :=
  ceil_to_multiple value (precision_step (asset_decimals (quote_asset symbol))).

Definition base_step (symbol : SymbolConfig) : Fixed :=
  max (base_lot symbol) (precision_step (asset_decimals (base_asset symbol))).

Definition ceil_base (value : Fixed) (symbol : SymbolConfig) : Fixed :=
  ceil_to_multiple value (base_step symbol).

(** The code of a fee asset. *)
Definition code_of_asset (symbol : SymbolConfig) (asset : FeeAsset) : str :=
  match asset with
  | FeeBase => asset_code (base_asset symbol)
  | FeeQuote => asset_code (quote_asset symbol)
  end.

(** ** The estimates *)
Section Estimates.
Context `{I256Ops}.

(** The price an order is estimated at. *)
Definition reference_price (order : Order) (fallback_price : option Fixed) : option Fixed :=
  if FIXED_ZERO <? o_price order then Some (o_price order)
  else if FIXED_ZERO <? o_stop_price order then Some (o_stop_price order)
  else if bool_decide (o_live order = Market) then
    match fallback_price with
    | Some price => if FIXED_ZERO <? price then Some price else None
    | None => None
    end
  else None.

(** Base and quote quantities at [price]. *)
Definition base_and_quote (order : Order) (symbol : SymbolConfig) (price : Fixed)
    : option (Fixed * Fixed) :=
  match o_volume_unit order with
  | UnitBase =>
      let base := open_volume order in
      quote ← checked_mul price base;
      Some (base, quote)
  | UnitQuote =>
      let requested := o_volume order in
      raw_base ← checked_div requested price;
      match o_live order with
      | Limit =>
          let base := floor_to_multiple raw_base (base_lot symbol) in
          quote ← checked_mul price base;
          Some (base, quote)
      | Market =>
          let base :=
            match o_side order with
            | Buy => floor_to_multiple raw_base (base_lot symbol)
            | Sell => ceil_to_multiple raw_base (base_lot symbol)
            end in
          Some (base, requested)
      end
  end.

Definition order_amounts (order : Order) (symbol : SymbolConfig) (fallback_price : option Fixed)
    : option Amounts :=
  price ← reference_price order fallback_price;
  '(base, quote) ← base_and_quote order symbol price;
  if (base <=? FIXED_ZERO) || (quote <=? FIXED_ZERO) then None
  else Some (mkAmounts price base quote).

Definition settlement_leg (order : Order) (symbol : SymbolConfig) (amounts : Amounts)
    (role : FreezeRole) (fee_rate : Fixed) : option SettlementLeg :=
  let fee_asset := fee_asset (fee_asset_policy symbol) (o_side order) in
  fee_amount ← match fee_asset with
               | FeeBase => checked_mul (am_base amounts) fee_rate
               | FeeQuote => checked_mul (am_quote amounts) fee_rate
               end;
  let fee := mkAssetAmount (code_of_asset symbol fee_asset) fee_amount in
  let base := mkAssetAmount (asset_code (base_asset symbol)) (am_base amounts) in
  let quote := mkAssetAmount (asset_code (quote_asset symbol)) (am_quote amounts) in
  let '(delivers, receives) :=
    match o_side order with Buy => (quote, base) | Sell => (base, quote) end in
  Some (mkSettlementLeg role fee_rate delivers receives fee).

Definition freeze_estimate (order : Order) (symbol : SymbolConfig) (amounts : Amounts)
    (role : FreezeRole) (fee_rate : Fixed) : option FreezeEstimate :=
  let fee_asset := fee_asset (fee_asset_policy symbol) (o_side order) in
  let quote_code := asset_code (quote_asset symbol) in
  let base_code := asset_code (base_asset symbol) in
  '(asset, amount, basis) ←
    match fee_asset_policy symbol, o_side order with
    | PolicyReceived, Buy => Some (quote_code, ceil_quote (am_quote amounts) symbol, QuoteNotional)
    | PolicyReceived, Sell => Some (base_code, ceil_base (am_base amounts) symbol, BasePrincipal)
    | PolicyQuote, Buy =>
        fee ← checked_mul (am_quote amounts) fee_rate;
        Some (quote_code, ceil_quote (saturating_add (am_quote amounts) fee) symbol, QuoteNotionalPlusFee)
    | PolicyQuote, Sell => Some (base_code, ceil_base (am_base amounts) symbol, BasePrincipal)
    | PolicyBase, _ =>
        if negb (bool_decide (fee_asset = FeeBase)) then None
        else
          bought_back ← checked_mul (am_base amounts) (am_price amounts);
          let notional := max (am_quote amounts) bought_back in
          base_fee ← checked_mul (am_base amounts) fee_rate;
          reserve ← checked_mul base_fee (am_price amounts);
          Some (quote_code, ceil_quote (saturating_add notional reserve) symbol, QuoteCollateralPlusFee)
    end;
  Some (mkFreezeEstimate asset amount basis role fee_rate (am_price amounts)).

Definition perpetual_economics (order : Order) (symbol : SymbolConfig) (amounts : Amounts)
    (role : FreezeRole) (fee_rate : Fixed) (leverage : Z) : option OrderEconomics :=
  if negb (perpetual_supported symbol)
     || match validate_leverage leverage with Err _ => true | Ok _ => false end
  then None
  else
    value ← checked_mul (am_base amounts) (am_price amounts);
    let notional := max (am_quote amounts) value in
    let leverage_value := from_units leverage in
    initial_margin ← checked_div notional leverage_value;
    fee_amount ← checked_mul notional fee_rate;
    let buffer := FIXED_ZERO in
    let amount :=
      ceil_quote (saturating_add (saturating_add initial_margin fee_amount) buffer) symbol in
    let position := match o_side order with Buy => Long | Sell => Short end in
    let quote_code := asset_code (quote_asset symbol) in
    Some (mkOrderEconomics Perpetual
            (mkFreezeEstimate quote_code amount PerpetualMarginPlusFee role fee_rate (am_price amounts))
            None None DeductFromMargin
            (Some (mkPerpetualTerms leverage position notional initial_margin
                     (mkAssetAmount quote_code fee_amount) buffer))).

Definition estimate (order : Order) (symbol : SymbolConfig) (fallback_price : option Fixed)
    (worst_case_freeze : bool) (product : Product) (leverage : Z) : option OrderEconomics :=
  amounts ← order_amounts order symbol fallback_price;
  let can_rest := can_rest order in
  let '(role, rate) :=
    selected_rate can_rest (o_maker_fee_rate order) (o_taker_fee_rate order) worst_case_freeze in
  if bool_decide (product = Perpetual) then
    perpetual_economics order symbol amounts role rate leverage
  else
    maker ← (if can_rest
             then Some <$> settlement_leg order symbol amounts Maker (o_maker_fee_rate order)
             else Some None);
    taker ← settlement_leg order symbol amounts Taker (o_taker_fee_rate order);
    freeze ← freeze_estimate order symbol amounts role rate;
    Some (mkOrderEconomics Spot freeze maker (Some taker)
            (fee_funding (fee_asset_policy symbol) (o_side order)) None).

Definition estimate_order_economics (order : Order) (symbol : SymbolConfig) (product : Product)
    (leverage : Z) : option OrderEconomics :=
  estimate order symbol None false product leverage.

Definition estimate_ticket_economics (order : Order) (symbol : SymbolConfig)
    (fallback_price : option Fixed) (product : Product) (leverage : Z) : option OrderEconomics :=
  estimate order symbol fallback_price true product leverage.
End Estimates.

(** ** Aggregation *)

(** [Ord for String]: lexicographic; on scalar values that is the order of the UTF-8 bytes. *)
Fixpoint str_cmp (a b : str) : comparison :=
  match a, b with
  | [], [] => Eq
  | [], _ :: _ => Lt
  | _ :: _, [] => Gt
  | x :: a, y :: b => match x ?= y with Eq => str_cmp a b | c => c end
  end.

#[global] Instance str_ord : Ord str := str_cmp.

#[global] Instance str_ord_laws : OrdLaws str.
Proof.
  split; unfold cmp, str_ord.
  - induction a as [|x a IH]; intros [|y b]; simpl; try done.
    destruct (Z.compare_spec x y); split; try done; try (intros [= ? ?]; lia).
    + intros ?%IH. congruence.
    + intros [= _ ?]. by apply IH.
  - induction a as [|x a IH]; intros [|y b]; simpl; try done.
    rewrite (Z.compare_antisym x y). destruct (x ?= y); simpl; auto.
  - induction a as [|x a IH]; intros [|y b] [|z c]; simpl; try done.
    destruct (Z.compare_spec x y), (Z.compare_spec y z), (Z.compare_spec x z); try done; try lia; eauto.
Qed.

(** One estimate entered into the map of totals. *)
Definition add_freeze (by_asset : list (str * (Fixed * nat))) (estimate : FreezeEstimate)
    : list (str * (Fixed * nat)) :=
  let '(amount, orders) := default (FIXED_ZERO, 0%nat) (bt_get (fz_asset estimate) by_asset) in
  bt_insert (fz_asset estimate) (saturating_add amount (fz_amount estimate), S orders) by_asset.

Definition summarize_freezes (estimates : list FreezeEstimate) : list AssetFreeze :=
  (fun '(asset, (amount, orders)) => mkAssetFreeze asset amount orders) <$> foldl add_freeze [] estimates.
