(* ===== verification/FreezeSpec.v ===== *)
(** * The freeze estimates: what they promise

    What one fill takes out of the frozen asset, and the theorem that the estimate for a limit order
    covers all its fills in the engine, at the taker's and at the maker's rate; the bounds of the
    perpetual margin; the totals by asset against their reference. *)

From stdpp Require Import relations.
From S2P Require Import Prelude BTree Fixed Order OrderBook Sweep BookInv Execute Book Freeze.

(** ** Scaled products *)

(** [a * k] in fixed point, truncated. *)
Definition scaled (a k : Z) : Z := Z.quot (a * k) SCALE.

Lemma scaled_div a k : 0 <= a -> 0 <= k -> scaled a k = a * k / SCALE.
Proof. intros. unfold scaled. apply Z.quot_div_nonneg; [nia|done]. Qed.

Lemma scaled_nonneg a k : 0 <= a -> 0 <= k -> 0 <= scaled a k.
Proof. intros. rewrite scaled_div by done. apply Z.div_pos; [nia|done]. Qed.

Lemma scaled_mono a a' k k' : a <= a' -> 0 <= k <= k' -> 0 <= a' -> scaled a k <= scaled a' k'.
Proof. intros. apply Z.quot_le_mono; [done|nia]. Qed.

Lemma scaled_comm a k : scaled a k = scaled k a.
Proof. unfold scaled. by rewrite Z.mul_comm. Qed.

Lemma scaled_one a k : 0 <= a -> 0 <= k <= SCALE -> scaled a k <= a.
Proof.
  intros Ha Hk. rewrite scaled_div by lia. apply Z.div_le_upper_bound; [done|]. nia.
Qed.

Lemma scaled_add a b k : 0 <= a -> 0 <= b -> 0 <= k -> scaled a k + scaled b k <= scaled (a + b) k.
Proof.
  intros. rewrite !scaled_div by lia. apply Z.div_le_lower_bound; [done|].
  pose proof (Z.mul_div_le (a * k) SCALE eq_refl). pose proof (Z.mul_div_le (b * k) SCALE eq_refl). lia.
Qed.

(** The parts of a sum, each truncated, do not exceed the truncated whole. *)
Lemma sum_scaled (l : list Z) k :
  Forall (fun a => 0 <= a) l -> 0 <= k -> sum_Z ((fun a => scaled a k) <$> l) <= scaled (sum_Z l) k.
Proof.
  intros Hl Hk. induction Hl as [|a l Ha Hl IH]; [done|]. cbn [fmap list_fmap sum_Z foldr] in *.
  pose proof (scaled_add a (foldr Z.add 0 l) k Ha (sum_Z_nonneg _ Hl) Hk). unfold sum_Z in *. lia.
Qed.

Lemma sum_le {A} (f g : A -> Z) l : Forall (fun x => f x <= g x) l -> sum_Z (f <$> l) <= sum_Z (g <$> l).
Proof. induction 1 as [|x l Hx _ IH]; [done|]. cbn [fmap list_fmap sum_Z foldr] in *. unfold sum_Z in *. lia. Qed.

Lemma sum_add {A} (f g : A -> Z) l : sum_Z ((fun x => f x + g x) <$> l) = sum_Z (f <$> l) + sum_Z (g <$> l).
Proof. induction l as [|x l IH]; [done|]. cbn [fmap list_fmap sum_Z foldr] in *. unfold sum_Z in *. lia. Qed.

(** ** What a fill takes *)

(** One side of a fill: base quantity, notional and the side's fee. *)
Record Leg : Type := mkLeg { lg_base : Z; lg_notional : Z; lg_fee : Z }.

Definition taker_leg (f : MatchResult) : Leg := mkLeg (m_matches f) (m_notional f) (m_taker_fee f).
Definition maker_leg (f : MatchResult) : Leg := mkLeg (m_matches f) (m_notional f) (m_maker_fee f).

(** The asset an order freezes under a policy. *)
Definition frozen_asset (symbol : SymbolConfig) (side : OrderSide) : str :=
  match fee_asset_policy symbol, side with
  | PolicyReceived, Sell | PolicyQuote, Sell => asset_code (base_asset symbol)
  | _, _ => asset_code (quote_asset symbol)
  end.

(** What a fill takes out of it. A fee withheld from what the side receives takes nothing; under
    [PolicyBase] base that is owed is bought at [price]. *)
Definition fill_draw (policy : FeeAssetPolicy) (side : OrderSide) (price : Z) (l : Leg) : Z :=
  match policy, side with
  | PolicyReceived, Buy => lg_notional l
  | PolicyReceived, Sell | PolicyQuote, Sell => lg_base l
  | PolicyQuote, Buy => lg_notional l + lg_fee l
  | PolicyBase, Buy => lg_notional l + scaled (lg_fee l) price
  | PolicyBase, Sell => scaled (lg_base l) price + scaled (lg_fee l) price
  end.

(** A fill within the estimate: nothing dearer than [price] when buying, no rate above [rate]. *)
Definition leg_within (policy : FeeAssetPolicy) (side : OrderSide) (price rate : Z) (l : Leg) : Prop :=
  0 <= lg_base l /\ 0 <= lg_notional l /\
  (side = Buy -> lg_notional l <= scaled (lg_base l) price) /\
  lg_fee l <= scaled (match fee_asset policy side with FeeBase => lg_base l | FeeQuote => lg_notional l end) rate.

(** The unrounded freeze for [base] at [price]. *)
Definition freeze_need (policy : FeeAssetPolicy) (side : OrderSide) (price base rate : Z) : Z :=
  match policy, side with
  | PolicyReceived, Buy => scaled base price
  | PolicyReceived, Sell | PolicyQuote, Sell => base
  | PolicyQuote, Buy => scaled base price + scaled (scaled base price) rate
  | PolicyBase, _ => scaled base price + scaled (scaled base rate) price
  end.

Section Draws.
Context (policy : FeeAssetPolicy) (side : OrderSide) (price base rate : Z) (legs : list Leg).
Context (Hprice : 0 <= price) (Hrate : 0 <= rate).
Context (Hlegs : Forall (leg_within policy side price rate) legs).
Context (Hbase : sum_Z (lg_base <$> legs) <= base).

Lemma bases_nonneg : Forall (fun v => 0 <= v) (lg_base <$> legs).
Proof. rewrite Forall_fmap. eapply Forall_impl; [exact Hlegs|]. by intros l (? & _). Qed.

Lemma base_nonneg : 0 <= base.
Proof. pose proof (sum_Z_nonneg _ bases_nonneg). lia. Qed.

Lemma value_bound : sum_Z ((fun l => scaled (lg_base l) price) <$> legs) <= scaled base price.
Proof.
  pose proof (sum_scaled _ price bases_nonneg Hprice) as Hs. rewrite <- list_fmap_compose in Hs.
  etrans; [exact Hs|]. apply scaled_mono; [done|lia|apply base_nonneg].
Qed.

Lemma notional_bound : side = Buy -> sum_Z (lg_notional <$> legs) <= scaled base price.
Proof.
  intros Hside. etrans; [|apply value_bound]. apply sum_le. eapply Forall_impl; [exact Hlegs|].
  intros l (_ & _ & Hn & _). by apply Hn.
Qed.

(** Fees on the base. *)
Lemma base_fee_bound :
  fee_asset policy side = FeeBase ->
  sum_Z ((fun l => scaled (lg_fee l) price) <$> legs) <= scaled (scaled base rate) price.
Proof.
  intros Hfee. set (fees := (fun l => scaled (lg_base l) rate) <$> legs).
  assert (Hnn : Forall (fun v => 0 <= v) fees).
  { subst fees. rewrite Forall_fmap. eapply Forall_impl; [exact Hlegs|]. intros l (Hb & _). by apply scaled_nonneg. }
  trans (sum_Z ((fun v => scaled v price) <$> fees)).
  { subst fees. rewrite <- list_fmap_compose. apply sum_le. eapply Forall_impl; [exact Hlegs|].
    intros l (Hb & _ & _ & Hf). rewrite Hfee in Hf. cbn. apply scaled_mono; [done|lia|by apply scaled_nonneg]. }
  etrans; [by apply sum_scaled|]. apply scaled_mono; [|lia|apply scaled_nonneg; [apply base_nonneg|done]].
  pose proof (sum_scaled _ rate bases_nonneg Hrate) as Hs. rewrite <- list_fmap_compose in Hs.
  etrans; [exact Hs|]. apply scaled_mono; [done|lia|apply base_nonneg].
Qed.

(** Fees on the notional. *)
Lemma quote_fee_bound :
  side = Buy -> fee_asset policy side = FeeQuote ->
  sum_Z (lg_fee <$> legs) <= scaled (scaled base price) rate.
Proof.
  intros Hside Hfee.
  assert (Hnn : Forall (fun v => 0 <= v) (lg_notional <$> legs)).
  { rewrite Forall_fmap. eapply Forall_impl; [exact Hlegs|]. by intros l (_ & ? & _). }
  trans (sum_Z ((fun v => scaled v rate) <$> (lg_notional <$> legs))).
  { rewrite <- list_fmap_compose. apply sum_le. eapply Forall_impl; [exact Hlegs|].
    intros l (_ & _ & _ & Hf). by rewrite Hfee in Hf. }
  etrans; [by apply sum_scaled|].
  apply scaled_mono; [by apply notional_bound|lia|apply scaled_nonneg; [apply base_nonneg|done]].
Qed.

(** Fills of at most [base] take at most the freeze for [base]. *)
Lemma draws_bound : sum_Z (fill_draw policy side price <$> legs) <= freeze_need policy side price base rate.
Proof.
  pose proof value_bound as Hv. pose proof notional_bound as Hn. pose proof base_fee_bound as Hb.
  pose proof quote_fee_bound as Hq. unfold fill_draw, freeze_need in *.
  destruct policy, side; cbn [fee_asset] in *; rewrite ?sum_add;
    try specialize (Hn eq_refl); try specialize (Hb eq_refl); try specialize (Hq eq_refl eq_refl);
    first [exact Hbase|exact Hn|by apply Z.add_le_mono].
Qed.
End Draws.

(** ** The estimate of a limit order *)
Section Estimate.
Context `{I256Ops} `{!I256Laws}.

(** A multiplication of non-negative numbers that yields something yields the scaled product. *)
Lemma checked_mul_nonneg a b c :
  0 <= a <= I128_MAX -> 0 <= b <= I128_MAX -> checked_mul a b = Some c -> c = scaled a b /\ 0 <= c <= I128_MAX.
Proof.
  intros Ha Hb. rewrite checked_mul_spec by range_lia. intros [Hr ->]%checked_i128_Some.
  pose proof (scaled_nonneg a b ltac:(lia) ltac:(lia)). unfold scaled in *. split; [done|]. range_lia.
Qed.

Lemma checked_mul_rate a r : 0 <= a <= I128_MAX -> 0 <= r <= SCALE -> checked_mul a r = Some (scaled a r).
Proof.
  intros Ha Hr. rewrite checked_mul_spec by (unfold SCALE in *; range_lia). apply checked_i128_Some. split; [|done].
  pose proof (scaled_one a r ltac:(lia) Hr). pose proof (scaled_nonneg a r ltac:(lia) ltac:(lia)).
  unfold scaled in *. range_lia.
Qed.

(** Rounding up does not wrap below this bound: quantities of 4e19 units. *)
Definition LARGEST : Z := 2 ^ 125.

Lemma precision_step_range d : 0 <= d -> 0 < precision_step d <= 10 ^ 18.
Proof.
  intros Hd. unfold precision_step. split; [apply Z.pow_pos_nonneg; lia|]. apply Z.pow_le_mono_r; lia.
Qed.

Lemma ceil_covers v step : 0 <= v <= 2 * LARGEST -> 0 < step <= LARGEST -> v <= ceil_to_multiple v step.
Proof.
  intros Hv Hs. destruct (ceil_to_multiple_bounds v step) as [Hc _]; [lia| |done].
  unfold LARGEST, I128_MAX in *. lia.
Qed.

Record symbol_typed (symbol : SymbolConfig) : Prop := {
  sy_base_decimals : 0 <= asset_decimals (base_asset symbol);
  sy_quote_decimals : 0 <= asset_decimals (quote_asset symbol);
  sy_base_lot : base_lot symbol <= LARGEST;
}.

(** The freeze of amounts at one price is at least the need. *)
Lemma freeze_estimate_covers order symbol a role rate f :
  symbol_typed symbol -> 0 < am_price a <= I128_MAX -> 0 < am_base a <= LARGEST ->
  am_quote a = scaled (am_base a) (am_price a) -> am_quote a <= LARGEST -> 0 <= rate <= SCALE ->
  freeze_estimate order symbol a role rate = Some f ->
  fz_asset f = frozen_asset symbol (o_side order) /\
  freeze_need (fee_asset_policy symbol) (o_side order) (am_price a) (am_base a) rate <= fz_amount f.
Proof.
  intros [Hbd Hqd Hlot] Hp Hb Eq Hq Hr. pose proof (precision_step_range _ Hbd) as Hsb.
  pose proof (precision_step_range _ Hqd) as Hsq. rewrite Eq in Hq.
  assert (Hlarge : 2 * LARGEST < I128_MAX /\ 10 ^ 18 <= LARGEST) by (vm_compute; split; [reflexivity|discriminate]).
  set (q := scaled (am_base a) (am_price a)) in *.
  assert (Hq0 : 0 <= q) by (apply scaled_nonneg; lia).
  pose proof (scaled_one q rate Hq0 Hr) as Hfee. pose proof (scaled_nonneg q rate Hq0 ltac:(lia)) as Hfee0.
  set (bf := scaled (am_base a) rate).
  assert (Hbf : 0 <= bf <= am_base a) by (split; [apply scaled_nonneg|apply scaled_one]; lia).
  assert (Hres : 0 <= scaled bf (am_price a) <= q).
  { split; [apply scaled_nonneg; lia|]. apply scaled_mono; lia. }
  assert (Hsat : forall x y, 0 <= x <= LARGEST -> 0 <= y <= LARGEST -> saturating_add x y = x + y).
  { intros x y ??. unfold saturating_add, saturate_i128. unfold I128_MIN. lia. }
  assert (Hcq : forall v, 0 <= v <= 2 * LARGEST -> v <= ceil_quote v symbol).
  { intros v Hv. apply ceil_covers; lia. }
  assert (Hcb : am_base a <= ceil_base (am_base a) symbol).
  { apply ceil_covers; [lia|]. unfold base_step, max. lia. }
  assert (Hmul : forall x, 0 <= x <= am_base a -> checked_mul x (am_price a) = Some (scaled x (am_price a))).
  { intros x Hx. rewrite checked_mul_spec by range_lia. apply checked_i128_Some. split; [|done].
    pose proof (scaled_nonneg x (am_price a) ltac:(lia) ltac:(lia)).
    pose proof (scaled_mono x (am_base a) (am_price a) (am_price a) ltac:(lia) ltac:(lia) ltac:(lia)) as Hm.
    fold q in Hm. unfold scaled in * |-. range_lia. }
  unfold freeze_estimate, frozen_asset, freeze_need. rewrite Eq.
  destruct (fee_asset_policy symbol), (o_side order); cbn -[checked_mul]; rewrite ?checked_mul_rate by lia;
    cbn -[checked_mul]; fold bf q.
  1,2,4: intros [= <-]; cbn; split; [done|]; auto; apply Hcq; lia.
  1: intros [= <-]; cbn; split; [done|]; rewrite Hsat by lia; apply Hcq; lia.
  all: rewrite (Hmul (am_base a)) by lia; cbn -[checked_mul]; rewrite (Hmul bf) by lia; cbn -[checked_mul];
    intros [= <-]; cbn; split; [done|]; unfold max; fold q; rewrite Z.max_id, Hsat by lia; apply Hcq; lia.
Qed.

(** ** What the engine charges *)

Lemma fill_fee_bound matches n asset rate :
  0 <= matches <= I128_MAX -> (forall v, n = Some v -> 0 <= v <= I128_MAX) -> rate_ok rate ->
  default 0 (fill_fee matches n asset rate) <=
  scaled (match asset with FeeBase => matches | FeeQuote => default 0 n end) (max rate 0).
Proof.
  intros Hm Hn Hr. rewrite fill_fee_spec; [|lia|range_lia| |done].
  2:{ intros v E. specialize (Hn v E). split; [lia|range_lia]. }
  assert (Hgo : forall v, 0 <= v -> Z.quot (v * rate) SCALE <= scaled v (max rate 0)).
  { intros v Hv. apply Z.quot_le_mono; [done|]. unfold max. nia. }
  destruct asset; cbn; [apply Hgo; lia|]. destruct n as [v|]; cbn; [apply Hgo, Hn|]; done.
Qed.

Lemma scaled_notional p v n : 0 < p <= I128_MAX -> 0 <= v <= I128_MAX -> notional p v = n ->
  0 <= default 0 n <= scaled v p /\ (forall w, n = Some w -> 0 <= w <= I128_MAX).
Proof.
  intros Hp Hv <-. destruct (notional_spec p v) as [E Hn]; [lia|lia|range_lia|range_lia|].
  pose proof (scaled_nonneg v p ltac:(lia) ltac:(lia)) as Hs. split.
  - rewrite E. rewrite scaled_comm in *. unfold scaled in *. destruct (checked_i128 _) eqn:Ec; cbn; [|lia].
    apply checked_i128_Some in Ec as [_ ->]. lia.
  - intros w Ew. specialize (Hn w Ew). range_lia.
Qed.

(** A fill against [maker] stays within an estimate whose price is no better than the maker's and
    whose rate is at least the side's. *)
Lemma taker_leg_within taker maker v policy price rate :
  0 < v <= I128_MAX -> 0 < o_price maker <= I128_MAX -> 0 <= rate ->
  rate_ok (o_taker_fee_rate taker) -> o_taker_fee_rate taker <= rate ->
  (o_side taker = Buy -> o_price maker <= price) ->
  leg_within policy (o_side taker) price rate (taker_leg (new_with_policy taker maker v policy)).
Proof.
  intros Hv Hp Hrate Hr Hle Hlim.
  destruct (scaled_notional (o_price maker) v _ Hp ltac:(lia) eq_refl) as [Hn Hns].
  split; [cbn; lia|]. split; [exact (proj1 Hn)|]. split; cbn -[notional fill_fee].
  - intros Hb. specialize (Hlim Hb). etrans; [apply Hn|]. apply scaled_mono; [done|lia..].
  - etrans; [apply fill_fee_bound; [lia|exact Hns|done]|].
    apply scaled_mono; [by destruct (fee_asset _ _)|unfold max; lia|].
    destruct (fee_asset _ _); [lia|apply Hn].
Qed.

Lemma maker_leg_within taker maker v policy price rate :
  0 < v <= I128_MAX -> 0 < o_price maker <= I128_MAX -> 0 <= rate ->
  rate_ok (o_maker_fee_rate maker) -> o_maker_fee_rate maker <= rate ->
  (o_side maker = Buy -> o_price maker <= price) ->
  leg_within policy (o_side maker) price rate (maker_leg (new_with_policy taker maker v policy)).
Proof.
  intros Hv Hp Hrate Hr Hle Hlim.
  destruct (scaled_notional (o_price maker) v _ Hp ltac:(lia) eq_refl) as [Hn Hns].
  split; [cbn; lia|]. split; [exact (proj1 Hn)|]. split; cbn -[notional fill_fee].
  - intros Hb. specialize (Hlim Hb). etrans; [apply Hn|]. apply scaled_mono; [done|lia..].
  - etrans; [apply fill_fee_bound; [lia|exact Hns|done]|].
    apply scaled_mono; [by destruct (fee_asset _ _)|unfold max; lia|].
    destruct (fee_asset _ _); [lia|apply Hn].
Qed.

(** ** The ticket of a limit order *)

(** The open volume of an order without hidden volume is its volume; with hidden volume, it is at least
    that, unless the sum wraps to a negative number. *)
Lemma open_volume_plain order :
  order_typed order -> o_hidden_volume order = 0 -> open_volume order = o_volume order.
Proof. intros Ht Hh. unfold open_volume, fixed_add. rewrite Hh, Z.add_0_r. apply wrap_i128_id, Ht. Qed.

Lemma open_volume_covers order :
  order_typed order -> 0 <= o_hidden_volume order -> 0 < open_volume order ->
  o_volume order <= open_volume order.
Proof.
  intros Ht Hh Hpos. pose proof (ot_volume _ Ht). pose proof (ot_hidden _ Ht).
  unfold open_volume, fixed_add, in_i128 in *.
  destruct (decide (o_volume order + o_hidden_volume order <= I128_MAX)) as [Hle|Hgt].
  - rewrite wrap_i128_id by (unfold in_i128; lia). lia.
  - exfalso. set (z := o_volume order + o_hidden_volume order) in *.
    assert (E : wrap_i128 z = z - 2 ^ 128).
    { unfold wrap_i128. replace (z - I128_MIN) with (z - 2 ^ 128 - I128_MIN + 1 * 2 ^ 128) by lia.
      rewrite Z.mod_add, Z.mod_small; unfold I128_MIN, I128_MAX in *; lia. }
    unfold I128_MAX in *. lia.
Qed.

(** The amounts are taken at the limit price, for the base quantity the engine admits, or more. *)
Lemma limit_amounts order config fallback a :
  o_live order = Limit -> 0 < o_price order ->
  order_amounts order config fallback = Some a ->
  am_price a = o_price order /\ 0 < am_base a /\
  checked_mul (o_price order) (am_base a) = Some (am_quote a) /\
  am_base a = match o_volume_unit order with
              | UnitBase => open_volume order
              | UnitQuote => floor_to_multiple (default 0 (checked_div (o_volume order) (o_price order)))
                               (base_lot config)
              end.
Proof.
  intros Hl Hp. unfold order_amounts, reference_price, base_and_quote, FIXED_ZERO.
  rewrite (proj2 (Z.ltb_lt _ _) Hp), Hl. cbn -[checked_mul checked_div].
  destruct (o_volume_unit order); [|destruct (checked_div _ _) as [raw|]; [|done]]; cbn -[checked_mul];
    destruct (checked_mul _ _) as [quote|] eqn:Eq; try done; cbn -[checked_mul];
    destruct ((_ <=? 0) || (_ <=? 0))%bool eqn:E; try done; apply orb_false_iff in E as [? ?];
    intros [= <-]; cbn -[checked_mul]; split_and!; try done; lia.
Qed.

Lemma normalized_base order config o :
  o_live order = Limit -> normalize_order order config = Ok o ->
  o_volume o = match o_volume_unit order with
               | UnitBase => o_volume order
               | UnitQuote => floor_to_multiple (default 0 (checked_div (o_volume order) (o_price order)))
                                (base_lot config)
               end.
Proof.
  intros Hl. unfold normalize_order. set (o1 := if o_requested_volume order =? FIXED_ZERO then _ else order).
  assert (E : o_volume_unit o1 = o_volume_unit order /\ o_volume o1 = o_volume order /\
              o_price o1 = o_price order /\ o_live o1 = o_live order) by (subst o1; by destruct (_ =? _)).
  destruct E as (Eu & Ev & Ep & El). rewrite Eu, Ev, Ep, El, Hl. destruct (o_volume_unit order); cbn -[checked_div].
  - by intros [= <-].
  - destruct (_ || _)%bool; [done|]. destruct (checked_div _ _); [|done].
    cbn. destruct (_ <=? _); [done|]. by intros [= <-].
Qed.

(** A trade in which a resting order is the maker. *)
Definition maker_fill (o : Order) (config : SymbolConfig) (f : MatchResult) : Prop :=
  0 < m_matches f <= I128_MAX /\ identity (m_maker f) = identity o /\
  f = new_with_policy (m_taker f) (m_maker f) (m_matches f) (fee_asset_policy config).

Lemma max_rate r : rate_ok r -> 0 <= max r 0 <= SCALE.
Proof. unfold rate_ok, max. rewrite MIN_FEE_RATE_val, MAX_FEE_RATE_val. unfold SCALE. lia. Qed.

(** The rate of the ticket: at least the taker's, and at least the maker's if the order can rest. *)
Lemma selected_rate_ok can maker taker role rate :
  rate_ok maker -> rate_ok taker -> selected_rate can maker taker true = (role, rate) ->
  0 <= rate <= SCALE /\ taker <= rate /\ (can = true -> maker <= rate).
Proof.
  intros Hm Ht. pose proof (max_rate _ Hm). pose proof (max_rate _ Ht). unfold selected_rate, FIXED_ZERO in *.
  destruct can; cbn; [destruct (max maker 0 <=? max taker 0) eqn:E|]; intros [= _ <-]; unfold max in *; lia.
Qed.

Lemma spot_freeze order config fallback worst leverage e :
  estimate order config fallback worst Spot leverage = Some e ->
  exists a role rate, order_amounts order config fallback = Some a /\
    selected_rate (can_rest order) (o_maker_fee_rate order) (o_taker_fee_rate order) worst = (role, rate) /\
    freeze_estimate order config a role rate = Some (oe_freeze e).
Proof.
  unfold estimate. destruct (order_amounts order config fallback) as [a|]; [|done].
  cbn -[freeze_estimate settlement_leg]. destruct (selected_rate _ _ _ _) as [role rate].
  destruct (if can_rest order then _ else _) as [mk|]; [|done]. cbn -[freeze_estimate settlement_leg].
  destruct (settlement_leg _ _ _ _ _) as [tk|]; [|done]. cbn -[freeze_estimate].
  destruct (freeze_estimate _ _ _ _ _) as [f|] eqn:E; [|done]. intros [= <-]. by exists a, role, rate.
Qed.

Lemma executed_order order config b out o b' :
  executed order config b out o b' -> out_rejected out = None ->
  normalize_order (numbered order b) config = Ok o /\ taker_ok o /\
  Forall (fun f => trade_ok o (order_limit o) config f) (out_fills out).
Proof.
  intros Hx Hr. assert (Ht : forall f, f ∈ out_fills out -> trade_ok o (order_limit o) config f).
  { intros f Hf. by apply (executed_trade _ _ _ _ _ _ o f Hx); left. }
  apply Forall_forall in Ht. by destruct Hx.
Qed.

Lemma draws_map {A} (g : A -> Leg) (l : list A) policy side price :
  fill_draw policy side price <$> (g <$> l) = (fun f => fill_draw policy side price (g f)) <$> l.
Proof. by rewrite <- list_fmap_compose. Qed.

(** C22: The freeze estimated for a spot limit ticket covers the order for life. Let the desk estimate a
    limit order of a spot symbol whose hidden volume is not negative (a new ticket has none; an iceberg
    shows a part of its volume), at its own limit price and the worse of its two rates, and let the
    estimated base and quote amounts be at most [LARGEST], 2^125 raw units. When a sound engine whose
    sequence counter is not used up accepts the order, the fills of its execution at the taker's rate and all later fills of what rests at the
    maker's rate, never more in total than its size, take no more out of the frozen asset than the
    estimate: notionals, base delivered, and the fees that are not withheld from what the order
    receives. Beyond that size a freeze can wrap ([freeze_wraps_negative]); perpetual tickets freeze a
    margin instead ([perpetual_margin_bounds]). *)
Theorem ticket_freeze_covers_order order config b out o b' later leverage e :
  book_ok b -> order_typed order -> book_sequence b < U64_MAX -> symbol_typed config ->
  o_live order = Limit -> 0 <= o_hidden_volume order ->
  estimate_ticket_economics order config None Spot leverage = Some e ->
  (forall a, order_amounts order config None = Some a -> am_base a <= LARGEST /\ am_quote a <= LARGEST) ->
  execute_order_inner order config b = Ret (out, o, b') -> out_rejected out = None ->
  Forall (maker_fill o config) later -> (can_rest order = false -> later = []) ->
  fills_volume (out_fills out) + fills_volume later <= o_volume o ->
  let draw := fill_draw (fee_asset_policy config) (o_side order) (o_price order) in
  fz_asset (oe_freeze e) = frozen_asset config (o_side order) /\
  sum_Z ((fun f => draw (taker_leg f)) <$> out_fills out) + sum_Z ((fun f => draw (maker_leg f)) <$> later)
  <= fz_amount (oe_freeze e).
Proof.
  intros Hok Ht Hseq Hsy Hl Hh He Hlarge E Hrej Hlater Hnever Hvol draw.
  destruct (spot_freeze order config None true leverage e He) as (a & role & rate & Ea & Er & Ef).
  pose proof (execute_spec order config b Hok Ht Hseq) as Hx. rewrite E in Hx.
  destruct (executed_order _ _ _ _ _ _ Hx Hrej) as (En & Htk & Htr).
  pose proof (numbered_typed order b Hok Ht Hseq) as Hnt.
  destruct (normalize_order_Ok _ _ _ Hnt En) as (_ & _ & v & u & r & ru & Eo).
  assert (Ef' : o_live o = o_live order /\ o_side o = o_side order /\ o_price o = o_price order /\
               o_maker_fee_rate o = o_maker_fee_rate order /\ o_taker_fee_rate o = o_taker_fee_rate order)
    by (by rewrite Eo).
  clear Eo. destruct Ef' as (Eol & Eos & Eop & Eom & Eot).
  pose proof (tk_price _ Htk ltac:(congruence)) as Hp. rewrite Eop in Hp.
  pose proof (tk_rates _ Htk) as Hrates. rewrite Eom, Eot in Hrates.
  destruct (selected_rate_ok _ _ _ _ _ (proj1 Hrates) (proj2 Hrates) Er) as (Hrate & Htaker & Hmaker).
  destruct (limit_amounts _ _ _ _ Hl (proj1 Hp) Ea) as (Ep & Hb & Eq & Eb).
  assert (Hcover : o_volume o <= am_base a).
  { pose proof (normalized_base (numbered order b) config o Hl En) as Ev. cbn in Ev. rewrite Ev, Eb in *.
    destruct (o_volume_unit order); [by apply open_volume_covers|done]. }
  destruct (Hlarge a Ea) as [Hlb Hlq].
  assert (Hbi : am_base a <= I128_MAX) by (unfold LARGEST, I128_MAX in *; lia).
  destruct (checked_mul_nonneg (o_price order) (am_base a) (am_quote a) ltac:(lia) ltac:(lia) Eq) as [Eq' _]. rewrite scaled_comm, <- Ep in Eq'.
  destruct (freeze_estimate_covers order config a role rate (oe_freeze e) Hsy) as [Hasset Hneed];
    [lia|lia|done|done|done|done|]. split; [done|]. etrans; [|exact Hneed].
  set (legs := (taker_leg <$> out_fills out) ++ (maker_leg <$> later)).
  trans (sum_Z (fill_draw (fee_asset_policy config) (o_side order) (am_price a) <$> legs)).
  { subst legs draw. rewrite fmap_app, sum_Z_app, !draws_map, Ep. lia. }
  apply draws_bound; [lia|lia| |].
  - subst legs. apply Forall_app. split; rewrite Forall_fmap.
    + eapply Forall_impl; [exact Htr|]. intros f [Hpos Hcross Hid _ Hmp Hmv _ Hres].
      apply identity_fields in Hid as (Es & _ & _ & _ & _ & _ & _ & _ & Etr & _).
      cbn. rewrite Hres, Ep, <- Eos, <- Es. rewrite Eot in Etr.
      apply taker_leg_within; [lia|done|lia|rewrite Etr; apply Hrates|by rewrite Etr|].
      intros Hs. rewrite Es in Hs. unfold order_limit in Hcross. rewrite Hs, Eol, Hl in Hcross. cbn in Hcross. lia.
    + rewrite Forall_forall in Hlater |- *. intros f Hin. destruct (Hlater f Hin) as (Hpos & Hid & Hres).
      apply identity_fields in Hid as (Es & Epr & _ & _ & _ & _ & _ & Emr & _ & _).
      cbn. rewrite Hres, Ep, <- Eos, <- Es. rewrite Eop in Epr. rewrite Eom in Emr.
      apply maker_leg_within; [lia|lia|lia|rewrite Emr; apply Hrates| |lia].
      rewrite Emr. apply Hmaker. destruct (can_rest order); [done|]. rewrite Hnever in Hin by done.
      by apply not_elem_of_nil in Hin.
  - subst legs. rewrite fmap_app, sum_Z_app, <- !list_fmap_compose.
    unfold fills_volume in Hvol. etrans; [exact Hvol|exact Hcover].
Qed.
End Estimate.

(** ** Totals by asset *)

(** The estimates of one asset. *)
Definition of_asset (asset : str) (l : list FreezeEstimate) : list FreezeEstimate :=
  filter (fun f => fz_asset f = asset) l.

Definition asset_amount (asset : str) (l : list FreezeEstimate) : Z := sum_Z (fz_amount <$> of_asset asset l).

(** What the summary says of one asset: the total, up to the largest amount, and the number. *)
Definition reference_total (asset : str) (l : list FreezeEstimate) : option (Fixed * nat) :=
  match of_asset asset l with
  | [] => None
  | fs => Some (Z.min I128_MAX (sum_Z (fz_amount <$> fs)), length fs)
  end.

Lemma of_asset_snoc asset l f :
  of_asset asset (l ++ [f]) = of_asset asset l ++ (if decide (fz_asset f = asset) then [f] else []).
Proof. unfold of_asset. by rewrite filter_app, filter_cons, filter_nil. Qed.

Lemma amounts_nonneg asset l :
  Forall (fun f => 0 <= fz_amount f) l -> Forall (fun z => 0 <= z) (fz_amount <$> of_asset asset l).
Proof. intros Hl. rewrite Forall_fmap. unfold of_asset. by apply filter_Forall. Qed.

Lemma totals_reference l :
  Forall (fun f => 0 <= fz_amount f) l ->
  bt_sorted (foldl add_freeze [] l) /\
  forall asset, bt_get asset (foldl add_freeze [] l) = reference_total asset l.
Proof.
  induction l as [|f l IH] using rev_ind; intros Hl; [by split; [apply bt_sorted_nil|]|].
  apply Forall_app in Hl as [Hl Hf]. apply Forall_cons in Hf as [Hf _]. destruct (IH Hl) as [Hs Hg].
  rewrite foldl_app. cbn [foldl]. unfold add_freeze at 1 3. rewrite Hg.
  destruct (default _ _) as [amount n] eqn:Ed. split; [by apply bt_insert_sorted|].
  intros asset. destruct (decide (asset = fz_asset f)) as [->|Hne].
  - rewrite bt_insert_get. unfold reference_total in *. rewrite of_asset_snoc, decide_True by done.
    pose proof (sum_Z_nonneg _ (amounts_nonneg (fz_asset f) l Hl)) as Hnn.
    assert (Ea : amount = Z.min I128_MAX (sum_Z (fz_amount <$> of_asset (fz_asset f) l)) /\
                 n = length (of_asset (fz_asset f) l)).
    { destruct (of_asset (fz_asset f) l) eqn:E; cbn in Ed; by injection Ed as <- <-. }
    destruct Ea as [-> ->]. destruct (of_asset (fz_asset f) l ++ [f]) eqn:E; [by destruct (of_asset _ l)|].
    rewrite <- E, fmap_app, sum_Z_app, length_app. cbn. do 2 f_equal; [|lia].
    unfold saturating_add, saturate_i128, I128_MIN, I128_MAX. lia.
  - rewrite bt_insert_get_ne, Hg by done. unfold reference_total.
    by rewrite of_asset_snoc, decide_False, app_nil_r by done.
Qed.

(** The totals by asset are their reference: one entry for every asset that is named, in
    lexicographic order, with the number of its estimates and the sum of their amounts, up to the
    largest amount there is. *)
Theorem freeze_summary_is_reference l :
  Forall (fun f => 0 <= fz_amount f) l ->
  StronglySorted key_lt (af_asset <$> summarize_freezes l) /\
  forall x, x ∈ summarize_freezes l <-> reference_total (af_asset x) l = Some (af_amount x, af_orders x).
Proof.
  intros Hl. destruct (totals_reference l Hl) as [Hs Hg]. unfold summarize_freezes. split.
  - rewrite <- list_fmap_compose. unfold bt_sorted in Hs. erewrite list_fmap_ext; [exact Hs|].
    by intros i [asset [amount n]] _.
  - intros x. rewrite <- Hg, bt_get_elem by done. rewrite list_elem_of_fmap. split.
    + intros ([asset [amount n]] & -> & Hx). exact Hx.
    + intros Hx. exists (af_asset x, (af_amount x, af_orders x)). by destruct x.
Qed.

(** ** Legs and margins *)
Section Legs.
Context `{I256Ops} `{!I256Laws}.

(** A settlement leg says what one side of a fill delivers, receives and pays. *)
Definition leg_matches (config : SymbolConfig) (side : OrderSide) (asset : FeeAsset) (l : Leg)
    (leg : SettlementLeg) : Prop :=
  let base := mkAssetAmount (asset_code (base_asset config)) (lg_base l) in
  let quote := mkAssetAmount (asset_code (quote_asset config)) (lg_notional l) in
  (leg_delivers leg, leg_receives leg) = (match side with Buy => (quote, base) | Sell => (base, quote) end) /\
  leg_fee leg = mkAssetAmount (code_of_asset config asset) (lg_fee l).

(** The settlement legs of a limit order in base units are the engine's numbers for a fill of its
    whole size at its price: the maker leg, when it can rest, those of a fill with the order as the
    maker, and the taker leg those of a fill with it as the taker. *)
Theorem settlement_legs_match order config fallback worst leverage e other :
  order_typed order -> o_live order = Limit -> o_volume_unit order = UnitBase -> o_hidden_volume order = 0 ->
  0 < o_price order -> estimate order config fallback worst Spot leverage = Some e ->
  let as_maker := new_with_policy other order (o_volume order) (fee_asset_policy config) in
  let as_taker := new_with_policy order (set_price (o_price order) other) (o_volume order) (fee_asset_policy config) in
  (if can_rest order
   then exists leg, oe_maker e = Some leg /\ leg_fee_rate leg = o_maker_fee_rate order /\
          leg_matches config (o_side order) (m_maker_fee_asset as_maker) (maker_leg as_maker) leg
   else oe_maker e = None) /\
  exists leg, oe_taker e = Some leg /\ leg_fee_rate leg = o_taker_fee_rate order /\
    leg_matches config (o_side order) (m_taker_fee_asset as_taker) (taker_leg as_taker) leg.
Proof.
  intros Ht Hl Hu Hh Hp. unfold estimate. cbn zeta.
  destruct (order_amounts order config fallback) as [a|] eqn:Ea; [|done].
  destruct (limit_amounts _ _ _ _ Hl Hp Ea) as (Ep & _ & Eq & Eb).
  rewrite Hu, open_volume_plain in Eb by done.
  cbn -[freeze_estimate settlement_leg]. destruct (selected_rate _ _ _ _) as [role rate].
  assert (Hleg : forall role r leg, settlement_leg order config a role r = Some leg ->
    leg_fee_rate leg = r /\
    leg_matches config (o_side order) (fee_asset (fee_asset_policy config) (o_side order))
      (mkLeg (o_volume order) (am_quote a)
         (default 0 (fill_fee (o_volume order) (Some (am_quote a)) (fee_asset (fee_asset_policy config) (o_side order)) r)))
      leg).
  { intros role' r leg. unfold settlement_leg, leg_matches, fill_fee. rewrite <- Eb.
    destruct (fee_asset _ _); destruct (checked_mul _ r); try done; destruct (o_side order); by intros [= <-]. }
  rewrite Eb in Eq. unfold new_with_policy, notional, maker_leg, taker_leg. cbn -[checked_mul fill_fee]. rewrite Eq.
  cbn -[checked_mul fill_fee freeze_estimate settlement_leg].
  destruct (settlement_leg order config a Maker _) as [mk|] eqn:Em;
    destruct (settlement_leg order config a Taker _) as [tk|] eqn:Et; destruct (can_rest order);
    cbn -[checked_mul fill_fee freeze_estimate]; try done;
    destruct (freeze_estimate _ _ _ _ _) as [f|]; try done; intros [= <-];
    cbn -[checked_mul fill_fee]; (split; [|exists tk; by split; [|apply (Hleg Taker)]]); try done.
  exists mk. by split; [|apply (Hleg Maker)].
Qed.

(** A perpetual order freezes its margin and its fee. The estimate exists only for a quote-fee
    symbol and a leverage between 1 and 100; the initial margin is the notional divided by the
    leverage, the fee the notional at the selected rate, which is never negative, and the freeze is
    their sum rounded up to the precision of the quote asset. *)
Theorem perpetual_margin_bounds order config fallback worst leverage e :
  symbol_typed config ->
  rate_ok (o_maker_fee_rate order) -> rate_ok (o_taker_fee_rate order) ->
  (forall a, order_amounts order config fallback = Some a ->
     am_quote a <= LARGEST /\ forall v, checked_mul (am_base a) (am_price a) = Some v -> v <= LARGEST) ->
  estimate order config fallback worst Perpetual leverage = Some e ->
  let step := precision_step (asset_decimals (quote_asset config)) in
  fee_asset_policy config = PolicyQuote /\ 1 <= leverage <= 100 /\
  exists t, oe_perpetual e = Some t /\ pt_leverage t = leverage /\
    pt_initial_margin t = pt_notional t / leverage /\
    aa_amount (pt_fee t) = scaled (pt_notional t) (fz_fee_rate (oe_freeze e)) /\ 0 <= aa_amount (pt_fee t) /\
    fz_asset (oe_freeze e) = asset_code (quote_asset config) /\
    Z.divide step (fz_amount (oe_freeze e)) /\
    pt_initial_margin t + aa_amount (pt_fee t) <= fz_amount (oe_freeze e)
      < pt_initial_margin t + aa_amount (pt_fee t) + step.
Proof.
  intros Hsy Hm Ht Hlarge He. cbn zeta. unfold estimate in He.
  destruct (order_amounts order config fallback) as [a|] eqn:Ea; [|done]. destruct (Hlarge a eq_refl) as [Hq Hv].
  cbn -[perpetual_economics] in He. destruct (selected_rate _ _ _ _) as [role rate] eqn:Er.
  assert (Hrate : 0 <= rate <= SCALE).
  { pose proof (max_rate _ Hm). pose proof (max_rate _ Ht). unfold selected_rate, FIXED_ZERO in Er.
    destruct (can_rest order), worst; cbn in Er; try destruct (_ <=? _); by injection Er as <- <-. }
  unfold perpetual_economics, perpetual_supported, validate_leverage in He.
  destruct (bool_decide (fee_asset_policy config = PolicyQuote)) eqn:Ep; [|done]. apply bool_decide_eq_true_1 in Ep.
  cbn -[checked_mul checked_div] in He.
  destruct ((MIN_PERPETUAL_LEVERAGE <=? leverage) && (leverage <=? MAX_PERPETUAL_LEVERAGE))%bool eqn:El; [|done].
  apply andb_prop in El as [El1 El2]. unfold MIN_PERPETUAL_LEVERAGE, MAX_PERPETUAL_LEVERAGE in *.
  cbn -[checked_mul checked_div] in He. destruct (checked_mul (am_base a) (am_price a)) as [v|]; [|done].
  specialize (Hv v eq_refl). cbn -[checked_mul checked_div] in He. set (n := max (am_quote a) v) in *.
  assert (Hq0 : 0 < am_quote a).
  { unfold order_amounts in Ea. destruct (reference_price _ _); [|done]. cbn -[base_and_quote] in Ea.
    destruct (base_and_quote _ _ _) as [[base quote]|]; [|done]. cbn in Ea. unfold FIXED_ZERO in Ea.
    destruct (base <=? 0), (quote <=? 0) eqn:E; cbn in Ea; try done. injection Ea as <-. cbn. lia. }
  assert (Hn : 0 < n <= LARGEST) by (subst n; unfold max; lia).
  assert (Hlarge' : 2 * LARGEST + 10 ^ 18 <= I128_MAX) by (vm_compute; discriminate).
  assert (Elev : from_units leverage = leverage * SCALE).
  { apply wrap_i128_id. unfold SCALE. range_lia. }
  rewrite Elev, checked_div_spec in He by (unfold SCALE; range_lia).
  rewrite (proj2 (Z.eqb_neq (leverage * SCALE) 0)) in He by (unfold SCALE; lia).
  rewrite Z.quot_mul_cancel_r, Z.quot_div_nonneg in He by (unfold SCALE; lia).
  pose proof (Z.div_pos n leverage ltac:(lia) ltac:(lia)) as Hd0.
  pose proof (Z.div_le_upper_bound n leverage n ltac:(lia) ltac:(nia)) as Hd.
  rewrite (proj2 (checked_i128_Some _ (n / leverage))) in He by (split; [range_lia|done]).
  cbn -[checked_mul] in He. rewrite checked_mul_rate in He by lia. cbn in He. injection He as <-. cbn.
  pose proof (scaled_nonneg n rate ltac:(lia) ltac:(lia)) as Hf0. pose proof (scaled_one n rate ltac:(lia) Hrate) as Hf.
  assert (Esat : saturating_add (saturating_add (n / leverage) (scaled n rate)) FIXED_ZERO = n / leverage + scaled n rate).
  { unfold saturating_add, saturate_i128, FIXED_ZERO, I128_MIN. lia. }
  pose proof (precision_step_range _ (sy_quote_decimals _ Hsy)) as Hstep.
  destruct (ceil_to_multiple_bounds (n / leverage + scaled n rate)
              (precision_step (asset_decimals (quote_asset config)))) as [Hc1 Hc2]; [lia|lia|].
  destruct (Hc2 ltac:(lia)) as [Hdiv Hc3]. split; [done|]. split; [lia|]. eexists. split; [done|]. cbn.
  unfold ceil_quote. rewrite Esat. split_and!; try done; lia.
Qed.
End Legs.

(** ** Concrete orders *)

Module FreezeDemo.
Definition symbol (policy : FeeAssetPolicy) : SymbolConfig :=
  mkSymbolConfig 0 (default_symbol_assets 8).1 (default_symbol_assets 2).2 18 1 (10 ^ 10) policy.

(** Price and size in units, rates in thousandths. *)
Definition limit (side : OrderSide) (price volume maker taker : Z) : Order :=
  with_fee_rates (Order_new side (price * SCALE) (volume * SCALE) 0) (maker * 10 ^ 15) (taker * 10 ^ 15).

Lemma symbol_ok policy : symbol_typed (symbol policy).
Proof. split; vm_compute; discriminate. Qed.

Lemma limit_typed side price volume maker taker :
  in_i128 (price * SCALE) -> in_i128 (volume * SCALE) -> in_i128 (maker * 10 ^ 15) -> in_i128 (taker * 10 ^ 15) ->
  order_typed (limit side price volume maker taker).
Proof. intros. split; try done; by vm_compute. Qed.

(** A seller of two at 100, and a buyer of five. *)
Definition ask : Order := limit Sell 100 2 1 2.
Definition bid : Order := limit Buy 100 5 1 2.

Definition run (o : Order) (b : OrderBook) : Outcome * Order * OrderBook :=
  match execute_order_inner o (symbol PolicyQuote) b with Ret r => r | _ => (Outcome_new 0, o, b) end.

Definition book : OrderBook := (run ask OrderBook_new).2.

(** What is left of the buyer is filled later by another seller. *)
Definition later (o : Order) : MatchResult :=
  new_with_policy (limit Sell 90 3 0 0) (set_volume (3 * SCALE) o) (3 * SCALE) PolicyQuote.

Definition none : OrderEconomics :=
  mkOrderEconomics Spot (mkFreezeEstimate [] 0 QuoteNotional Maker 0 0) None None DeductFromMargin None.

Definition ticket : OrderEconomics :=
  default none (estimate_ticket_economics bid (symbol PolicyQuote) None Spot 1).
Definition resting (policy : FeeAssetPolicy) : OrderEconomics :=
  default none (estimate_order_economics bid (symbol policy) Spot 1).
Definition margined : OrderEconomics :=
  default none (estimate_order_economics bid (symbol PolicyQuote) Perpetual 3).

Definition bought : Outcome * Order * OrderBook := run bid book.

Lemma crossed_ok : book_ok book.
Proof.
  refine (proj1 (reachable_ok book (rtc_once _ _ _))).
  apply (step_execute ask (symbol PolicyQuote) OrderBook_new (run ask OrderBook_new).1.1 (run ask OrderBook_new).1.2);
    [|by vm_compute|by vm_compute].
  apply limit_typed; vm_compute; split; discriminate.
Qed.
End FreezeDemo.

(** A freeze can wrap to a negative amount. Margin and fee are added with saturation, but the
    sum is then rounded up with an operation that wraps: an order over 1.5e20 quote units with a fee
    of a fifth is accepted by the engine and estimated to freeze less than nothing. *)
Theorem freeze_wraps_negative :
  let order := FreezeDemo.limit Buy (15 * 10 ^ 19) 1 0 200 in
  let config := FreezeDemo.symbol PolicyQuote in
  (exists e, estimate_ticket_economics order config None Spot 1 = Some e /\ fz_amount (oe_freeze e) < 0) /\
  exists out o b', execute_order_inner order config OrderBook_new = Ret (out, o, b') /\
    out_rejected out = None /\ out_resting out = Some (o_volume order).
Proof.
  split.
  - eexists. split; [vm_compute; reflexivity|]. by vm_compute.
  - eexists _, _, _. split; [vm_compute; reflexivity|]. split; by vm_compute.
Qed.

(** A buyer of five at 100 under the quote policy: two are bought at the taker's rate, three rest and
    are bought later at the maker's rate. The estimate is 501; they cost 500.4 + 0.3. *)
Lemma ticket_freeze_covers_order_witness :
  let draw := fill_draw (fee_asset_policy (FreezeDemo.symbol PolicyQuote)) (o_side FreezeDemo.bid)
                (o_price FreezeDemo.bid) in
  fz_amount (oe_freeze FreezeDemo.ticket) = 501 * SCALE /\
  sum_Z ((fun f => draw (taker_leg f)) <$> out_fills FreezeDemo.bought.1.1) +
  sum_Z ((fun f => draw (maker_leg f)) <$> [FreezeDemo.later FreezeDemo.bought.1.2])
  <= fz_amount (oe_freeze FreezeDemo.ticket).
Proof.
  split; [by vm_compute|].
  apply (ticket_freeze_covers_order FreezeDemo.bid (FreezeDemo.symbol PolicyQuote) FreezeDemo.book
           FreezeDemo.bought.1.1 FreezeDemo.bought.1.2 FreezeDemo.bought.2
           [FreezeDemo.later FreezeDemo.bought.1.2] 1 FreezeDemo.ticket).
  - exact FreezeDemo.crossed_ok.
  - apply FreezeDemo.limit_typed; vm_compute; split; discriminate.
  - vm_compute. reflexivity.
  - apply FreezeDemo.symbol_ok.
  - reflexivity.
  - vm_compute. discriminate.
  - vm_compute. reflexivity.
  - intros a Ea. vm_compute in Ea. injection Ea as <-. split; vm_compute; discriminate.
  - vm_compute. reflexivity.
  - vm_compute. reflexivity.
  - constructor; [|constructor]. split; [vm_compute; split; [reflexivity|discriminate]|].
    split; vm_compute; reflexivity.
  - vm_compute. discriminate.
  - vm_compute. discriminate.
Defined.

Lemma freeze_summary_is_reference_witness :
  let f asset amount := mkFreezeEstimate asset amount QuoteNotional Maker 0 0 in
  let l := [f [66] 5; f [65] 1; f [66] 7] in
  mkAssetFreeze [66] 12 2 ∈ summarize_freezes l.
Proof.
  apply (freeze_summary_is_reference [mkFreezeEstimate [66] 5 QuoteNotional Maker 0 0;
           mkFreezeEstimate [65] 1 QuoteNotional Maker 0 0; mkFreezeEstimate [66] 7 QuoteNotional Maker 0 0]);
    [repeat constructor; discriminate|reflexivity].
Defined.

Lemma settlement_legs_match_witness :
  exists leg, oe_maker (FreezeDemo.resting PolicyReceived) = Some leg /\
    leg_fee leg = mkAssetAmount [66; 84; 67] (5 * 10 ^ 15).
Proof.
  destruct (settlement_legs_match FreezeDemo.bid (FreezeDemo.symbol PolicyReceived) None false 1
              (FreezeDemo.resting PolicyReceived) FreezeDemo.ask) as [(leg & Em & _ & Hleg) _];
    try (vm_compute; reflexivity).
  - apply FreezeDemo.limit_typed; vm_compute; split; discriminate.
  - exists leg. split; [exact Em|]. destruct Hleg as [_ ->]. vm_compute. reflexivity.
Defined.

Lemma perpetual_margin_bounds_witness :
  16716 * 10 ^ 16 <= fz_amount (oe_freeze FreezeDemo.margined) < 16719 * 10 ^ 16.
Proof.
  destruct (perpetual_margin_bounds FreezeDemo.bid (FreezeDemo.symbol PolicyQuote) None false 3 FreezeDemo.margined)
    as (_ & _ & t & Et & _ & _ & _ & _ & _ & _ & Hb).
  - apply FreezeDemo.symbol_ok.
  - split; vm_compute; discriminate.
  - split; vm_compute; discriminate.
  - intros a Ea. vm_compute in Ea. injection Ea as <-. split; [vm_compute; discriminate|].
    intros v Ev. vm_compute in Ev. injection Ev as <-. vm_compute. discriminate.
  - vm_compute. reflexivity.
  - vm_compute in Et. injection Et as <-. vm_compute in Hb |- *. exact Hb || (split; [discriminate|reflexivity]).
Defined.
