(* ===== verification/ApiSpec.v ===== *)
(** * The HTTP edge: what it admits, what it reads

    A batch is admitted exactly when it is well formed and its orders are of the configured symbol
    ([batch_admission_exact]); no admitted order is refused for its symbol by the state machine it
    was checked against ([edge_guard_sound]); a long poll answers with its first turn that has news
    ([long_poll_first_news]); texts of numbers parse back to the store's values ([text_reads]). *)

From stdpp Require Import strings gmap.
From S2P Require Import Prelude BTree Fixed Order OrderBook MatchEvent StateMachine StateReads StateSpec Api.

Section Admission.
Implicit Types (request : MatchEngineRequest) (requests pre post : list MatchEngineRequest).

(** A client order id of the wire: 1 to 128 bytes of letters, digits and [._-:]. *)
Definition valid_id (id : string) : Prop :=
  (1 <= length (bytes_of id) <= 128)%nat /\ Forall (fun b => id_byte b = true) (bytes_of id).

Definition client_id request : option string :=
  match request with Place _ id => id | _ => None end.

Definition is_batch request : Prop := match request with Batch _ => True | _ => False end.

(** A well-formed batch. *)
Record batch_ok requests : Prop := {
  bo_len : (1 <= length requests <= 128)%nat;
  bo_flat : Forall (fun r => ~ is_batch r) requests;
  bo_ids : Forall (fun r => from_option valid_id True (client_id r)) requests;
  bo_distinct : NoDup (omap client_id requests);
}.

Lemma forallb_Forall {A} (p : A -> bool) l : forallb p l = true <-> Forall (fun x => p x = true) l.
Proof. rewrite forallb_forall, Forall_forall. split; intros H x Hx; apply H; by apply list_elem_of_In. Qed.

Lemma validate_id_spec id : validate_client_order_id id = Ok () <-> valid_id id.
Proof.
  unfold validate_client_order_id, valid_id. rewrite <- forallb_Forall.
  change MAX_CLIENT_ORDER_ID_BYTES with 128%nat. case_bool_decide as He.
  { rewrite He. simpl. split; [done|]. intros [? _]. lia. }
  assert (0 < length (bytes_of id))%nat by (destruct (bytes_of id); simpl; [done|lia]).
  case_bool_decide; [split; [done|lia]|].
  destruct (forallb id_byte _); simpl; split; try done; try lia; intros [_ ?]; done.
Qed.

(** The items, against the ids before them. *)
Record items_ok (ids : gset string) requests : Prop := {
  io_flat : Forall (fun r => ~ is_batch r) requests;
  io_ids : Forall (fun r => from_option valid_id True (client_id r)) requests;
  io_distinct : NoDup (omap client_id requests);
  io_fresh : forall id, id ∈ omap client_id requests -> id ∉ ids;
}.

Lemma items_ok_skip ids r requests :
  ~ is_batch r -> client_id r = None -> items_ok ids (r :: requests) <-> items_ok ids requests.
Proof.
  intros Hb Hc. split; intros [Hf Hi Hn Hd]; simpl in *; rewrite ?Hc in *.
  - inversion Hf; inversion Hi; subst. by split.
  - split; simpl; rewrite ?Hc; try done; constructor; rewrite ?Hc; done.
Qed.

Lemma items_ok_id ids o id requests :
  items_ok ids (Place o (Some id) :: requests) <->
  valid_id id /\ id ∉ ids /\ items_ok ({[id]} ∪ ids) requests.
Proof.
  split.
  - intros [Hf Hi Hn Hd]. simpl in *. inversion Hf; inversion Hi; subst.
    apply NoDup_cons in Hn as [Hni Hn]. split; [done|]. split; [apply Hd; left|].
    split; try done. intros id' Hin. apply not_elem_of_union. split.
    + rewrite elem_of_singleton. by intros ->.
    + apply Hd. by right.
  - intros (Hv & Hni & [Hf Hi Hn Hd]). split; simpl.
    + constructor; [by intros []|done].
    + by constructor.
    + constructor; [|done]. intros Hin. apply Hd in Hin. set_solver.
    + intros id' [->|Hin]%elem_of_cons; [done|]. apply Hd in Hin. set_solver.
Qed.

Lemma validate_items_spec requests : forall ids,
  validate_items requests ids = Ok () <-> items_ok ids requests.
Proof.
  induction requests as [|r requests IH]; intros ids.
  { split; [|done]. intros _. split; simpl; try constructor. intros id []%not_elem_of_nil. }
  destruct r as [o [id|]|o|o p v|now day|config|rs].
  2-6: (rewrite items_ok_skip by (done || by intros []); apply IH).
  - rewrite items_ok_id, <- IH, <- validate_id_spec. cbn [validate_items].
    destruct (validate_client_order_id id) as [[]|e]; [|by split; [|intros [? _]]].
    case_bool_decide; [split; [done|]; by intros (_ & ? & _)|]. by split; [|intros (_ & _ & ?)].
  - split; [done|]. intros [Hf _ _ _]. inversion Hf as [|? ? Hb]. by destruct Hb.
Qed.

Lemma validate_batch_spec requests : validate_batch requests = Ok () <-> batch_ok requests.
Proof.
  unfold validate_batch. change MAX_BATCH_REQUESTS with 128%nat. case_bool_decide as He.
  { split; [done|]. intros [Hl _ _ _]. subst. simpl in Hl. lia. }
  assert (1 <= length requests)%nat by (destruct requests; [done|simpl; lia]).
  case_bool_decide as Hl; [split; [done|]; intros [? _ _ _]; lia|].
  rewrite validate_items_spec. split; intros [? ? ?]; split; try done; try lia.
Qed.

(** ** The symbol guard *)

(** The order a request names. *)
Definition named_order request : option Order :=
  match request with Place o _ | Cancel o | Amend o _ _ => Some o | _ => None end.

Definition configures request : Prop := match request with ConfigureSymbol _ => True | _ => False end.

(** Every order in front of the first configuration is of [configured]. *)
Definition symbols_ok (configured : Z) requests : Prop :=
  forall pre r post o, requests = pre ++ r :: post -> Forall (fun r => ~ configures r) pre ->
  named_order r = Some o -> o_symbol_id o = configured.

(** The guard of a batch's items. *)
Definition guard_items (configured : Z) : nat -> list MatchEngineRequest -> Result unit EdgeError :=
  fix items (index : nat) (requests : list MatchEngineRequest) : Result unit EdgeError :=
    match requests with
    | [] => Ok ()
    | ConfigureSymbol _ :: _ => Ok ()
    | request :: requests =>
        match validate_request_symbol configured request with
        | Err e => Err (BatchItem index e)
        | Ok _ => items (S index) requests
        end
    end.

Lemma guard_batch configured requests :
  validate_request_symbol configured (Batch requests) = guard_items configured 0 requests.
Proof. done. Qed.

Lemma symbols_ok_configure configured config requests :
  symbols_ok configured (ConfigureSymbol config :: requests).
Proof.
  intros [|r' pre] r post o E Hp Hn; simplify_eq/=. inversion Hp as [|? ? Hc]. by destruct Hc.
Qed.

Lemma symbols_ok_cons configured r requests :
  ~ configures r ->
  symbols_ok configured (r :: requests) <->
  from_option (fun o => o_symbol_id o = configured) True (named_order r) /\ symbols_ok configured requests.
Proof.
  intros Hc. split.
  - intros Hs. split.
    + destruct (named_order r) as [o|] eqn:E; [|done]. by apply (Hs [] r requests o).
    + intros pre r' post o -> Hp Hn. apply (Hs (r :: pre) r' post o); [done|by constructor|done].
  - intros [Hr Hs] [|r' pre] r'' post o E Hp Hn; simplify_eq/=; [by rewrite Hn in Hr|].
    inversion Hp; subst. by eapply Hs.
Qed.

(** An item that is neither a configuration nor a batch passes when its order is of the symbol. *)
Lemma guard_item configured r :
  ~ is_batch r ->
  validate_request_symbol configured r = Ok () <->
  from_option (fun o => o_symbol_id o = configured) True (named_order r).
Proof.
  intros Hb.
  destruct r; try done; try (by destruct Hb); simpl; unfold validate_order_symbol; rewrite <- Z.eqb_eq;
    by destruct (_ =? _).
Qed.

Lemma guard_items_spec configured requests : forall index,
  Forall (fun r => ~ is_batch r) requests ->
  guard_items configured index requests = Ok () <-> symbols_ok configured requests.
Proof.
  induction requests as [|r requests IH]; intros index Hf.
  { split; [|done]. intros _ [|? ?] ? ? ? E; discriminate E. }
  inversion Hf as [|? ? Hb Hf']; subst.
  assert (Hrec : ~ configures r ->
            match validate_request_symbol configured r with
            | Err e => Err (BatchItem index e)
            | Ok _ => guard_items configured (S index) requests
            end = Ok () <-> symbols_ok configured (r :: requests)).
  { intros Hc. rewrite symbols_ok_cons, <- (IH (S index)), <- (guard_item _ _ Hb) by done.
    destruct (validate_request_symbol configured r) as [[]|e]; split; try done; try (by intros [? _]);
      by intros [_ ?]. }
  destruct r; try (by apply Hrec; intros []).
  split; [|done]. intros _. apply symbols_ok_configure.
Qed.

Lemma guard_batch_spec configured requests :
  batch_ok requests ->
  validate_request_symbol configured (Batch requests) = Ok () <-> symbols_ok configured requests.
Proof. intros [_ Hf _ _]. rewrite guard_batch. by apply guard_items_spec. Qed.

Definition enough_voters (node : EdgeNode) : Prop :=
  en_min_voters node <= 1 \/ en_min_voters node <= en_voters node.

Lemma ensure_voters_spec node :
  ensure_min_voters (en_min_voters node) (en_voters node) = Ok () <-> enough_voters node.
Proof.
  unfold ensure_min_voters, enough_voters. destruct (_ <=? 1) eqn:E1; [split; [lia|done]|].
  destruct (_ <? _) eqn:E2; split; try done; lia.
Qed.
End Admission.

(** ** Admitted orders at the state machine *)
Section Guard.
Context `{RaftTypes}.
Context `{I256Ops}.

Lemma apply_batch_symbol local requests li : forall ordinal acc s fx acc' s' fx',
  apply_batch local requests li ordinal acc s fx = Ret (acc', s', fx') ->
  Forall (fun r => ~ configures r) requests -> symbol_config s' = symbol_config s.
Proof.
  induction requests as [|r requests IH]; intros ordinal acc s fx acc' s' fx' E Hc.
  { by injection E as _ <- _. }
  inversion Hc as [|? ? Hr Hrs]; subst.
  apply comp_bind_Ret in E as ([[[resp n] s1] fx1] & E1 & E). cbv beta iota in E.
  rewrite (IH _ _ _ _ _ _ _ E Hrs).
  apply (apply_one_symbol _ _ _ _ _ _ _ _ _ _ E1). intros config ->. by apply Hr.
Qed.

(** Stamping keeps what the guard looks at. *)
Lemma stamp_configures now r : configures (stamp_request_at now r) <-> configures r.
Proof. by destruct r. Qed.

Lemma stamp_named now r :
  named_order (stamp_request_at now r) = set_timestamp now <$> named_order r.
Proof. by destruct r. Qed.

Lemma admit_batch_spec node configured requests request :
  admit_batch node configured requests = Ok request <->
  enough_voters node /\ batch_ok requests /\
  (en_is_leader node = true -> symbols_ok configured requests) /\
  request = Batch (stamp_request_at (en_now_ms node) <$> requests).
Proof.
  unfold admit_batch, guard_request_symbol. rewrite <- ensure_voters_spec.
  destruct (ensure_min_voters _ _) as [[]|e]; [|by split; [|intros [? _]]].
  rewrite <- validate_batch_spec. destruct (validate_batch requests) as [[]|e] eqn:Eb;
    [|by split; [|intros (_ & ? & _)]].
  apply validate_batch_spec in Eb. rewrite <- (guard_batch_spec _ _ Eb).
  destruct (en_is_leader node); cbn [negb]; cbv iota.
  - destruct (validate_request_symbol _ _) as [[]|e].
    + split; [intros [= <-]; done|]. by intros (_ & _ & _ & ->).
    + split; [done|]. intros (_ & _ & Hg & _). by specialize (Hg eq_refl).
  - split; [intros [= <-]; done|]. by intros (_ & _ & _ & ->).
Qed.

Lemma admitted_symbol node configured requests admitted pre r post o :
  admit_batch node configured requests = Ok (Batch admitted) -> en_is_leader node = true ->
  admitted = pre ++ r :: post -> Forall (fun r => ~ configures r) pre -> named_order r = Some o ->
  o_symbol_id o = configured.
Proof.
  intros Ha Hl E Hp Hn. apply admit_batch_spec in Ha as (_ & _ & Hs & [= Ea]). specialize (Hs Hl).
  rewrite Ea in E. apply fmap_app_inv in E as (pre0 & rest & -> & Er & ->).
  destruct rest as [|r0 post0]; [done|]. injection Er as Er _. subst r.
  rewrite stamp_named in Hn. destruct (named_order r0) as [o0|] eqn:E0; [|done]. injection Hn as <-.
  apply (Hs pre0 r0 post0 o0); [done| |done].
  rewrite Forall_fmap in Hp. eapply Forall_impl; [exact Hp|]. intros x. unfold compose. by rewrite stamp_configures.
Qed.

(** The HTTP edge admits a batch exactly when the node sees enough voters, the batch holds 1 to
    128 requests, none of them a batch, their client order ids are well formed and pairwise distinct,
    and on the leader every order in front of the first reconfiguration is of the configured symbol;
    what it proposes is that batch with the intake time stamped on every order. *)
Theorem batch_admission_exact (node : EdgeNode) (configured : Z)
    (requests : list MatchEngineRequest) (request : MatchEngineRequest) :
  admit_batch node configured requests = Ok request <->
  enough_voters node /\ batch_ok requests /\
  (en_is_leader node = true -> symbols_ok configured requests) /\
  request = Batch (stamp_request_at (en_now_ms node) <$> requests).
Proof. apply admit_batch_spec. Qed.

(** C23: No order of a batch the leader admitted against the state it is applied to is refused for
    its symbol: at its turn, after any requests of the batch that do not reconfigure the symbol, the
    state machine finds the configuration the edge checked it against. *)
Theorem edge_guard_sound (node : EdgeNode) (local : NodeLocal) (requests admitted : list MatchEngineRequest)
    (s s' : StateMachineStoreInner) (pre post : list MatchEngineRequest) (r : MatchEngineRequest)
    (o : Order) (log_index ordinal : Z) (acc responses : list MatchEngineResponse) (fx fx' : Effects) :
  admit_batch node (cfg_symbol_id (symbol_config s)) requests = Ok (Batch admitted) ->
  en_is_leader node = true ->
  admitted = pre ++ r :: post -> Forall (fun r => ~ configures r) pre -> named_order r = Some o ->
  apply_batch local pre log_index ordinal acc s fx = Ret (responses, s', fx') ->
  configured_symbol_for o s' = Ok (symbol_config s).
Proof.
  intros Ha Hl E Hp Hn Hb. pose proof (apply_batch_symbol _ _ _ _ _ _ _ _ _ _ Hb Hp) as Ec.
  unfold configured_symbol_for. rewrite Ec, (admitted_symbol _ _ _ _ _ _ _ _ Ha Hl E Hp Hn).
  by rewrite Z.eqb_refl.
Qed.
End Guard.

(** ** Event pages *)
Section Poll.
Context `{RaftTypes}.

(** The page size of a request. *)
Definition page_limit (req : EventsRequest) : nat :=
  Nat.max 1 (Nat.min MAX_EVENTS_PAGE (default DEFAULT_EVENTS_PAGE (er_limit req))).

(** Whether a turn ends the poll. *)
Definition turn_answers (req : EventsRequest) (turn : StateMachineStoreInner * bool) : Prop :=
  after_cursor (er_after req) (events turn.1) <> [] \/ default 0 (er_wait_ms req) = 0 \/ turn.2 = true.

Lemma events_page_events after limit s :
  ep_events (events_page after limit s) = take limit (after_cursor after (events s)).
Proof. unfold events_page. by rewrite events_since_spec. Qed.

Lemma events_page_more after limit s :
  ep_has_more (events_page after limit s) = bool_decide (limit < length (after_cursor after (events s)))%nat.
Proof. unfold events_page. by rewrite events_since_spec. Qed.

Lemma page_empty after limit s :
  (0 < limit)%nat -> ep_events (events_page after limit s) = [] <-> after_cursor after (events s) = [].
Proof.
  intros Hl. rewrite events_page_events. split; [|by intros ->; rewrite take_nil].
  destruct (after_cursor after (events s)), limit; simpl; done || lia.
Qed.

Lemma page_limit_range req : (1 <= page_limit req <= 1000)%nat.
Proof. unfold page_limit. change MAX_EVENTS_PAGE with (Z.to_nat 1000). lia. Qed.

Lemma read_page_turn req s late turns :
  read_events_page (er_after req) (page_limit req) (default 0 (er_wait_ms req)) ((s, late) :: turns) =
  if negb (bool_decide (ep_events (events_page (er_after req) (page_limit req) s) = []))
     || (default 0 (er_wait_ms req) =? 0) || late
  then Some (events_page (er_after req) (page_limit req) s)
  else read_events_page (er_after req) (page_limit req) (default 0 (er_wait_ms req)) turns.
Proof. done. Qed.

Lemma turn_test req s late :
  negb (bool_decide (ep_events (events_page (er_after req) (page_limit req) s) = []))
    || (default 0 (er_wait_ms req) =? 0) || late = true <-> turn_answers req (s, late).
Proof.
  unfold turn_answers. simpl. rewrite !orb_true_iff, negb_true_iff, bool_decide_eq_false, Z.eqb_eq.
  rewrite page_empty by (pose proof (page_limit_range req); lia). tauto.
Qed.

(** C30: The long poll of [/events] answers with the first turn that has events behind the cursor, or
    at once when no wait was asked for, or when the deadline has passed, and with that turn's page:
    the first events behind the cursor, at most 1000 of them, and whether more are left; it stays
    silent only while no turn qualifies. *)
Theorem long_poll_first_news (req : EventsRequest) (turns : list (StateMachineStoreInner * bool))
    (answer : option EventsResponse) :
  serve_events req turns = Ok answer ->
  match answer with
  | None => Forall (fun turn => ~ turn_answers req turn) turns
  | Some page => exists pre s late post,
      turns = pre ++ (s, late) :: post /\ Forall (fun turn => ~ turn_answers req turn) pre /\
      turn_answers req (s, late) /\
      ep_events page = take (page_limit req) (after_cursor (er_after req) (events s)) /\
      ep_has_more page = bool_decide (page_limit req < length (after_cursor (er_after req) (events s)))%nat /\
      ep_last_event_id page = last_event_id s /\ (1 <= page_limit req <= 1000)%nat
  end.
Proof.
  unfold serve_events. destruct (validate_events_request req); [|done]. intros [= E].
  fold (page_limit req) in E. revert answer E. induction turns as [|[s late] turns IH]; intros answer E.
  { simpl in E. subst. constructor. }
  rewrite read_page_turn in E. destruct (_ || _ || _)%bool eqn:Et in E.
  - subst answer. exists [], s, late, turns. apply turn_test in Et.
    split; [done|]. split; [constructor|]. split; [done|].
    rewrite events_page_events, events_page_more. split; [done|]. split; [done|].
    split; [|apply page_limit_range]. unfold events_page. by rewrite events_since_spec.
  - assert (Hn : ~ turn_answers req (s, late)) by (rewrite <- turn_test; congruence).
    specialize (IH answer E). destruct answer as [page|]; [|by constructor].
    destruct IH as (pre & s1 & late1 & post & -> & Hpre & Hrest).
    exists ((s, late) :: pre), s1, late1, post. split; [done|]. split; [by constructor|done].
Qed.
End Poll.

(** ** Texts of numbers *)

Lemma digit_not_plus c : is_digit c = true -> (c =? CH_PLUS) = false.
Proof. unfold is_digit, CH_PLUS. lia. Qed.

(** A printed number parses back when it fits. *)
Lemma parse_unsigned_show max v :
  0 <= v <= max -> v < 2 ^ 127 -> parse_unsigned max (show_u128 v) = Some v.
Proof.
  intros Hv Hmax. destruct (show_u128_spec v) as [Hd Hval]; [lia|].
  pose proof (show_u128_nonempty v) as Hne. unfold parse_unsigned.
  destruct (show_u128 v) as [|c ds] eqn:E; [done|]. inversion Hd; subst.
  rewrite (digit_not_plus c) by done. rewrite Hval. destruct (v <=? max) eqn:Em; [done|lia].
Qed.

Lemma parse_unsigned_chars max s v c :
  parse_unsigned max s = Some v -> c ∈ s -> is_digit c = true \/ c = CH_PLUS.
Proof.
  unfold parse_unsigned. intros H Hc.
  assert (Hd : forall ds, is_Some (digits_value 0 ds) -> all_digits ds).
  { assert (forall acc ds, is_Some (digits_value acc ds) -> all_digits ds) as Hg; [|by intros ds; apply Hg].
    intros acc ds. revert acc. induction ds as [|d ds IH]; intros acc; simpl; [by constructor|].
    destruct (is_digit d) eqn:E; [|by intros [? ?]]. intros Hs. constructor; [done|]. by eapply IH. }
  destruct s as [|x s']; [by apply not_elem_of_nil in Hc|].
  destruct (Z.eqb_spec x CH_PLUS) as [->|Hx].
  - apply elem_of_cons in Hc as [->|Hc]; [by right|left]. destruct s' as [|y s']; [done|].
    destruct (digits_value 0 (y :: s')) eqn:E; [|done].
    assert (Ha : all_digits (y :: s')) by (apply Hd; by eexists). by eapply Forall_forall in Ha.
  - left. destruct (digits_value 0 (x :: s')) eqn:E; [|done].
    assert (Ha : all_digits (x :: s')) by (apply Hd; by eexists). by eapply Forall_forall in Ha.
Qed.

Section Texts.
Context `{RaftTypes}.

(** What follows the depth prefix when it is digits. *)
Lemma trim_depth_prefix fuel ds :
  all_digits ds -> trim_start_matches (S (S fuel)) DEPTH_PREFIX (DEPTH_PREFIX ++ ds) = ds.
Proof.
  intros Hd.
  assert (E1 : starts_with DEPTH_PREFIX (DEPTH_PREFIX ++ ds) = true).
  { unfold starts_with. apply bool_decide_eq_true. by rewrite take_app_length. }
  assert (E2 : starts_with DEPTH_PREFIX ds = false).
  { unfold starts_with. apply bool_decide_eq_false. intros E. destruct Hd as [|c ds Hc _]; [done|].
    change (lit "orderbook_depth:") with DEPTH_PREFIX in *. injection E as E _. subst c. done. }
  cbn [trim_start_matches]. rewrite E1, drop_app_length.
  destruct fuel; cbn [trim_start_matches]; by rewrite E2.
Qed.

(** Reading [orderbook_depth:N] shows both sides to [N] levels, at most 200. *)
Lemma read_depth_key v s :
  0 <= v <= U64_MAX ->
  read_state_owned (DEPTH_PREFIX ++ show_u128 v) s = depth_json (Z.min v 200) s.
Proof.
  intros Hv. assert (v < 2 ^ 127) by (unfold U64_MAX in Hv; lia).
  destruct (show_u128_spec v) as [Hd _]; [lia|].
  unfold read_state_owned.
  assert (Hne : forall key, (length key <= 15)%nat \/ starts_with DEPTH_PREFIX key = false ->
            bool_decide (DEPTH_PREFIX ++ show_u128 v = key) = false).
  { intros key Hk. apply bool_decide_eq_false. intros <-. destruct Hk as [Hk|Hk].
    - rewrite length_app in Hk. change (length DEPTH_PREFIX) with 16%nat in Hk. lia.
    - unfold starts_with in Hk. rewrite take_app_length in Hk. by apply bool_decide_eq_false in Hk. }
  rewrite !Hne by (first [left; vm_compute; lia | right; vm_compute; reflexivity]).
  replace (starts_with DEPTH_PREFIX (DEPTH_PREFIX ++ show_u128 v)) with true
    by (symmetry; unfold starts_with; apply bool_decide_eq_true; by rewrite take_app_length).
  rewrite length_app. change (length DEPTH_PREFIX) with (2 + 14)%nat. cbn [Nat.add].
  cbn [orb]. cbv iota zeta. rewrite trim_depth_prefix by done.
  by rewrite parse_unsigned_show.
Qed.
End Texts.

(** ** Concrete runs *)
Section Demo.
#[local] Existing Instance demo_raft.

Definition demo_edge : EdgeNode := mkEdgeNode 3 3 true 1700000000000.

Definition demo_requests : list MatchEngineRequest :=
  [Place demo_ask (Some "ask-1"%string); Place demo_bid (Some "bid-1"%string); Cancel demo_bid].

Definition demo_admitted : list MatchEngineRequest :=
  stamp_request_at (en_now_ms demo_edge) <$> demo_requests.

Definition demo_poll : EventsRequest := mkEventsRequest None (Some 1%nat) (Some 1000).

(** The first two requests, applied. *)
Definition demo_applied : Comp (list MatchEngineResponse * StateMachineStoreInner * Effects) :=
  apply_batch demo_node (take 2 demo_admitted) 1 0 [] demo_store no_effects.

Example demo_batch_admitted :
  admit_batch demo_edge (cfg_symbol_id (symbol_config demo_store)) demo_requests = Ok (Batch demo_admitted).
Proof. vm_compute. reflexivity. Qed.

Example demo_batch_duplicate :
  validate_batch (demo_requests ++ [Place demo_bid (Some "bid-1"%string)]) = Err (DuplicateId "bid-1").
Proof. vm_compute. reflexivity. Qed.

Example demo_batch_wrong_symbol :
  admit_batch demo_edge 7 demo_requests = Err (BatchItem 0 (WrongSymbol (o_symbol_id demo_ask) 7)).
Proof. vm_compute. reflexivity. Qed.

Lemma batch_admission_exact_witness :
  enough_voters demo_edge /\ batch_ok demo_requests /\
  (en_is_leader demo_edge = true -> symbols_ok (cfg_symbol_id (symbol_config demo_store)) demo_requests).
Proof.
  destruct (proj1 (batch_admission_exact demo_edge (cfg_symbol_id (symbol_config demo_store))
                     demo_requests (Batch demo_admitted))) as (Hv & Hb & Hs & _).
  - vm_compute. reflexivity.
  - exact (conj Hv (conj Hb Hs)).
Defined.

Definition comp_state (r : Comp (list MatchEngineResponse * StateMachineStoreInner * Effects))
    : StateMachineStoreInner := match r with Ret r => r.1.2 | _ => demo_store end.

Definition comp_responses (r : Comp (list MatchEngineResponse * StateMachineStoreInner * Effects))
    : list MatchEngineResponse := match r with Ret r => r.1.1 | _ => [] end.

Definition comp_effects (r : Comp (list MatchEngineResponse * StateMachineStoreInner * Effects))
    : Effects := match r with Ret r => r.2 | _ => no_effects end.

Lemma edge_guard_sound_witness :
  configured_symbol_for (set_timestamp 1700000000000 demo_bid) (comp_state demo_applied) =
  Ok (symbol_config demo_store).
Proof.
  apply (edge_guard_sound demo_edge demo_node demo_requests demo_admitted demo_store
           (comp_state demo_applied) (take 2 demo_admitted) []
           (Cancel (set_timestamp 1700000000000 demo_bid)) (set_timestamp 1700000000000 demo_bid)
           1 0 [] (comp_responses demo_applied) no_effects (comp_effects demo_applied)).
  - vm_compute. reflexivity.
  - reflexivity.
  - reflexivity.
  - constructor; [intros []|]. constructor; [intros []|]. constructor.
  - reflexivity.
  - vm_compute. reflexivity.
Defined.

(** Nothing at the first turn, one event of two at the second. *)
Lemma long_poll_first_news_witness :
  exists page, serve_events demo_poll [(demo_store, false); (comp_state demo_applied, false)] =
               Ok (Some page) /\
  exists pre s late post,
    [(demo_store, false); (comp_state demo_applied, false)] = pre ++ (s, late) :: post /\
    turn_answers demo_poll (s, late) /\
    ep_events page = take (page_limit demo_poll) (after_cursor None (events s)).
Proof.
  exists (events_page None 1 (comp_state demo_applied)). split; [vm_compute; reflexivity|].
  destruct (long_poll_first_news demo_poll [(demo_store, false); (comp_state demo_applied, false)]
              (Some (events_page None 1 (comp_state demo_applied))))
    as (pre & s & late & post & E & _ & Ht & Ep & _).
  - vm_compute. reflexivity.
  - exact (ex_intro _ pre (ex_intro _ s (ex_intro _ late (ex_intro _ post (conj E (conj Ht Ep)))))).
Defined.
End Demo.
