(* ===== verification/Client.v ===== *)
(** * The engine client ([src/src/client.rs])

    Errors, the retry policy and the two request loops: retrying transient failures with a growing
    delay, and following a [ForwardToLeader] answer to the leader it names. The HTTP library is the
    class [Transport]: one exchange takes the state of everything on the other side of the socket to
    the next. Durations are nanoseconds. *)

From stdpp Require Import list.
From S2P Require Import Prelude BTree Fixed.

(** ** Errors *)

(** openraft's [RPCError], by the arms the client distinguishes. *)
Inductive RPCError : Type := RpcTimeout | RpcUnreachable | RpcNetwork | RpcRemoteError.

Inductive ClientError : Type :=
| ClientRpc (error : RPCError)
| ClientApi (status : Z) (body : str)
| ClientNoLeader
| ClientTimeout
| ClientDecode (message : str).

Definition is_retryable (error : ClientError) : bool :=
  match error with
  | ClientTimeout => true
  | ClientRpc (RpcTimeout | RpcUnreachable | RpcNetwork) => true
  | ClientApi status _ => (status =? 429) || ((500 <=? status) && (status <? 600))
  | ClientNoLeader | ClientDecode _ | ClientRpc RpcRemoteError => false
  end.

Definition api_status (error : ClientError) : option Z :=
  match error with ClientApi status _ => Some status | _ => None end.

(** ** Policy *)

Record ClientConfig : Type := mkClientConfig {
  timeout : Z;
  max_retries : nat;
  max_forward_retries : nat;
  initial_backoff : Z;
  max_backoff : Z;
}.

Definition ms (n : Z) : Z := n * 1000000.

Definition ClientConfig_default : ClientConfig := mkClientConfig (ms 5000) 3 3 (ms 50) (ms 1000).

(** [Duration::MAX]. *)
Definition DURATION_MAX : Z := U64_MAX * 1000000000 + 999999999.

Definition backoff (config : ClientConfig) (attempt : nat) : Z :=
  let factor := 2 ^ Z.of_nat (Nat.min attempt 10) in
  Z.min (Z.min (initial_backoff config * factor) DURATION_MAX) (max_backoff config).

(** ** The transport *)

(** [reqwest::Error], by the predicates the client asks. *)
Record ReqwestError : Type := mkReqwestError { re_is_timeout : bool; re_is_connect : bool }.

(** The response head, and what reading its body gives. *)
Record HttpResponse (Body : Type) : Type := mkHttpResponse {
  hr_status : Z;
  hr_body : Result Body ReqwestError;
}.
Arguments mkHttpResponse {Body}.
Arguments hr_status {Body}.
Arguments hr_body {Body}.

(** One request to [addr/uri], with a JSON body or none. *)
Class Transport (World Req Body : Type) : Type :=
  exchange : str -> str -> option Req -> World -> Result (HttpResponse Body) ReqwestError * World.

(** openraft's [ForwardToLeader]. *)
Record ForwardToLeader : Type := mkForward { fw_leader_id : option Z; fw_leader_addr : option str }.

Definition is_success (status : Z) : bool := (200 <=? status) && (status <? 300).

(** What one loop did, in order. *)
Inductive ClientStep : Type := Sent (addr : str) | Slept (delay : Z).

Section Client.
Context {World Req Body RespT ErrT : Type} `{Transport World Req Body}.
(** The text of a body, serde's reading of one, and [TryAsRef<ForwardToLeader>]. *)
Variables (body_text : Body -> str) (from_json : Body -> Result (Result RespT ErrT) str)
  (try_as_ref : ErrT -> option ForwardToLeader).
Variable config : ClientConfig.
Implicit Types (w : World) (leader : Z * str) (trace : list ClientStep).

(** One request without a retry. *)
Definition send leader (uri : str) (req : option Req) w : Result (Result RespT ErrT) ClientError * World :=
  let '(res, w) := exchange leader.2 uri req w in
  match res with
  | Err e =>
      (Err (if re_is_timeout e then ClientTimeout
            else if re_is_connect e then ClientRpc RpcUnreachable
            else ClientRpc RpcNetwork), w)
  | Ok resp =>
      if negb (is_success (hr_status resp)) then
        (Err (ClientApi (hr_status resp) match hr_body resp with Ok body => body_text body | Err _ => [] end), w)
      else
        (match hr_body resp with
         | Err _ => Err (ClientDecode [])
         | Ok body =>
             match from_json body with
             | Ok res => Ok res
             | Err message => Err (ClientDecode message)
             end
         end, w)
  end.

(** The loop of [send_with_retry]. *)
Fixpoint retry_loop (fuel : nat) leader (uri : str) (req : option Req) (attempt : nat) trace w
    : option (Result (Result RespT ErrT) ClientError * list ClientStep * World) :=
  match fuel with
  | O => None
  | S fuel =>
      let '(res, w) := send leader uri req w in
      let trace := trace ++ [Sent leader.2] in
      match res with
      | Ok res => Some (Ok res, trace, w)
      | Err error =>
          if is_retryable error && bool_decide (attempt < max_retries config)%nat then
            retry_loop fuel leader uri req (S attempt) (trace ++ [Slept (backoff config (S attempt))]) w
          else Some (Err error, trace, w)
      end
  end.

Definition send_with_retry leader (uri : str) (req : option Req) w
    : option (Result (Result RespT ErrT) ClientError * list ClientStep * World) :=
  retry_loop (S (max_retries config)) leader uri req 0 [] w.

(** The loop of [send_with_forwarding]; the leader it ends with is the client's new target. *)
Fixpoint forward_loop (fuel : nat) leader (uri : str) (req : option Req) (forward : bool)
    (transient_attempts forward_attempts : nat) trace w
    : option (Result (Result RespT ErrT) ClientError * (Z * str) * list ClientStep * World) :=
  match fuel with
  | O => None
  | S fuel =>
      let '(res, w) := send leader uri req w in
      let trace := trace ++ [Sent leader.2] in
      match res with
      | Err error =>
          if is_retryable error && bool_decide (transient_attempts < max_retries config)%nat then
            forward_loop fuel leader uri req forward (S transient_attempts) forward_attempts
              (trace ++ [Slept (backoff config (S transient_attempts))]) w
          else Some (Err error, leader, trace, w)
      | Ok (Ok value) => Some (Ok (Ok value), leader, trace, w)
      | Ok (Err inner) =>
          match try_as_ref inner with
          | None => Some (Ok (Err inner), leader, trace, w)
          | Some forward_to =>
              match fw_leader_id forward_to, fw_leader_addr forward_to with
              | Some leader_id, Some addr =>
                  let leader := (leader_id, addr) in
                  if forward && bool_decide (forward_attempts < max_forward_retries config)%nat then
                    forward_loop fuel leader uri req forward transient_attempts (S forward_attempts)
                      (trace ++ [Slept (backoff config (S forward_attempts))]) w
                  else Some (Ok (Err inner), leader, trace, w)
              | _, _ => Some (Err ClientNoLeader, leader, trace, w)
              end
          end
      end
  end.

Definition send_with_forwarding leader (uri : str) (req : option Req) (forward : bool) w
    : option (Result (Result RespT ErrT) ClientError * (Z * str) * list ClientStep * World) :=
  forward_loop (S (max_retries config + max_forward_retries config)) leader uri req forward 0 0 [] w.
End Client.
