(* ===== verification/ClientSpec.v ===== *)
(** * What the client guarantees

    Every request ends within the configured retries ([forwarding_ends]); the target of every
    attempt is the last leader an answer named; and a write that carries a fresh client order id
    executes at most once however often replies are lost, while no other write comes between its
    attempts ([retried_write_applies_once]): the composition of the client's loop, the edge's checks
    and the state machine's dedupe map. *)

From stdpp Require Import strings gmap.
From S2P Require Import Prelude BTree Fixed Order OrderBook BookInv MatchEvent StateMachine StateInv.
From S2P Require Import StateReads StateSpec Api Client.

(** ** Traces *)

Definition is_sent (step : ClientStep) : bool := match step with Sent _ => true | Slept _ => false end.

Definition sends (trace : list ClientStep) : nat := length (filter (fun x => is_sent x = true) trace).

(** Requests and delays alternate. *)
Fixpoint alternating (trace : list ClientStep) : Prop :=
  match trace with
  | [Sent _] => True
  | Sent _ :: Slept _ :: trace => alternating trace
  | _ => False
  end.

Definition delays_within (bound : Z) (trace : list ClientStep) : Prop :=
  Forall (fun x => match x with Slept d => d <= bound | Sent _ => True end) trace.

Lemma sends_app l1 l2 : sends (l1 ++ l2) = (sends l1 + sends l2)%nat.
Proof. unfold sends. by rewrite filter_app, length_app. Qed.

Lemma sends_one a : sends [Sent a] = 1%nat.
Proof. done. Qed.

Lemma sends_pair a d l : sends (Sent a :: Slept d :: l) = S (sends l).
Proof. done. Qed.

Lemma backoff_capped config attempt : backoff config attempt <= max_backoff config.
Proof. unfold backoff. lia. Qed.

(** The delay never shrinks from one attempt to the next. *)
Lemma backoff_monotone config a b :
  0 <= initial_backoff config -> (a <= b)%nat -> backoff config a <= backoff config b.
Proof.
  intros Hi Hab. unfold backoff.
  assert (2 ^ Z.of_nat (Nat.min a 10) <= 2 ^ Z.of_nat (Nat.min b 10)) by (apply Z.pow_le_mono_r; lia).
  nia.
Qed.

Section Loop.
Context {World Req Body RespT ErrT : Type} `{Transport World Req Body}.
Variables (body_text : Body -> str) (from_json : Body -> Result (Result RespT ErrT) str)
  (try_as_ref : ErrT -> option ForwardToLeader).
Variable config : ClientConfig.

#[local] Notation loop := (forward_loop body_text from_json try_as_ref config).

(** The loop ends: every turn but the last uses up a retry of one of the two kinds. *)
Lemma forward_loop_ends uri req forward : forall fuel leader t f trace w,
  (t <= max_retries config)%nat -> (f <= max_forward_retries config)%nat ->
  (max_retries config - t + (max_forward_retries config - f) < fuel)%nat ->
  exists res leader' steps w',
    loop fuel leader uri req forward t f trace w = Some (res, leader', trace ++ steps, w') /\
    alternating steps /\ delays_within (max_backoff config) steps /\
    (1 <= sends steps <=
     1 + (max_retries config - t) + (if forward then max_forward_retries config - f else 0))%nat.
Proof.
  induction fuel as [|fuel IH]; intros leader t f trace w Ht Hf Hfuel; [lia|].
  cbn [forward_loop]. destruct (send _ _ leader uri req w) as [res w1].
  assert (Hstop : forall (r : Result (Result RespT ErrT) ClientError) (l : Z * str),
    exists res0 leader' steps w',
      Some (r, l, trace ++ [Sent leader.2], w1) = Some (res0, leader', trace ++ steps, w') /\
      alternating steps /\ delays_within (max_backoff config) steps /\
      (1 <= sends steps <= 1 + (max_retries config - t) +
         (if forward then max_forward_retries config - f else 0))%nat).
  { intros r l. exists r, l, [Sent leader.2], w1. split; [done|]. split; [done|].
    split; [repeat constructor|]. rewrite sends_one. destruct forward; lia. }
  assert (Hmore : forall l t' f' attempt, (t' <= max_retries config)%nat ->
    (f' <= max_forward_retries config)%nat ->
    (max_retries config - t' + (max_forward_retries config - f') < fuel)%nat ->
    (1 + (max_retries config - t') + (if forward then max_forward_retries config - f' else 0) <
     1 + (max_retries config - t) + (if forward then max_forward_retries config - f else 0))%nat ->
    exists res0 leader' steps w',
      loop fuel l uri req forward t' f' ((trace ++ [Sent leader.2]) ++ [Slept (backoff config attempt)]) w1
        = Some (res0, leader', trace ++ steps, w') /\
      alternating steps /\ delays_within (max_backoff config) steps /\
      (1 <= sends steps <= 1 + (max_retries config - t) +
         (if forward then max_forward_retries config - f else 0))%nat).
  { intros l t' f' attempt Ht' Hf' Hfu Hlt.
    destruct (IH l t' f' ((trace ++ [Sent leader.2]) ++ [Slept (backoff config attempt)]) w1)
      as (res0 & leader' & steps & w' & E & Ha & Hd & Hs); [done..|].
    exists res0, leader', (Sent leader.2 :: Slept (backoff config attempt) :: steps), w'.
    rewrite E. split; [by rewrite <- !app_assoc|]. split; [done|].
    split; [constructor; [done|]; constructor; [apply backoff_capped|done]|].
    rewrite sends_pair. lia. }
  destruct res as [[value|inner]|error].
  - apply Hstop.
  - destruct (try_as_ref inner) as [fw|]; [|apply Hstop].
    destruct (fw_leader_id fw) as [id|], (fw_leader_addr fw) as [addr|]; try apply Hstop.
    destruct forward; simpl; [|apply Hstop]. case_bool_decide; [|apply Hstop].
    apply Hmore; lia.
  - destruct (is_retryable error); simpl; [|apply Hstop]. case_bool_decide; [|apply Hstop].
    apply Hmore; [lia|lia|lia|destruct forward; lia].
Qed.

(** A rule for the loop: [P] holds before every attempt, [Q] of every outcome that may end it. *)
Lemma forward_loop_rule (P : World -> Prop)
    (Q : Result (Result RespT ErrT) ClientError -> World -> Prop) uri req forward :
  (forall leader w, P w ->
    let '(res, w') := send body_text from_json leader uri req w in
    Q res w' /\
    match res with
    | Err error => is_retryable error = true -> P w'
    | Ok (Err inner) =>
        match try_as_ref inner with
        | Some fw => P w' /\ Q (Err ClientNoLeader) w'
        | None => True
        end
    | Ok (Ok _) => True
    end) ->
  forall fuel leader t f trace w out,
  P w -> loop fuel leader uri req forward t f trace w = Some out -> Q out.1.1.1 out.2.
Proof.
  intros Hstep. induction fuel as [|fuel IH]; intros leader t f trace w out Hw E; [done|].
  cbn [forward_loop] in E. specialize (Hstep leader w Hw).
  destruct (send _ _ leader uri req w) as [res w1]. destruct Hstep as [HQ Hres].
  destruct res as [[value|inner]|error].
  - by injection E as <-.
  - destruct (try_as_ref inner) as [fw|]; [|by injection E as <-]. destruct Hres as [HP HN].
    destruct (fw_leader_id fw) as [id|], (fw_leader_addr fw) as [addr|]; try (by injection E as <-).
    destruct (forward && _)%bool; [eapply IH; [exact HP|exact E]|by injection E as <-].
  - destruct (is_retryable error) eqn:Er; simpl in E; [|by injection E as <-].
    case_bool_decide; [|by injection E as <-]. eapply IH; [by apply Hres|exact E].
Qed.

(** Every request of the client ends: whatever the network does, it sends at least one and at most
    1 + max_retries requests, and max_forward_retries more when it may follow the leader; requests
    and delays alternate, and no delay exceeds max_backoff. *)
Theorem forwarding_ends (leader : Z * str) (uri : str) (req : option Req) (forward : bool) (w : World) :
  exists res leader' trace w',
    send_with_forwarding body_text from_json try_as_ref config leader uri req forward w =
      Some (res, leader', trace, w') /\
    alternating trace /\ delays_within (max_backoff config) trace /\
    (1 <= sends trace <=
     1 + max_retries config + (if forward then max_forward_retries config else 0))%nat.
Proof.
  destruct (forward_loop_ends uri req forward (S (max_retries config + max_forward_retries config))
              leader 0 0 [] w) as (res & leader' & steps & w' & E & Ha & Hd & Hs); try lia.
  exists res, leader', steps, w'. rewrite !Nat.sub_0_r in Hs. done.
Qed.
End Loop.

(** ** A client in front of a replica *)
Section Engine.
Context `{RaftTypes} `{I256Ops} `{!I256Laws}.
(** The log id openraft assigns to an index. *)
Variable log_id_at : Z -> LogId.
Hypothesis log_id_at_index : forall i, log_id_index (log_id_at i) = i.
Variables (local : NodeLocal) (min_voters voters : Z).
Implicit Types s : StateMachineStoreInner.

(** What becomes of one attempt: it never arrives, a follower names the leader, or the leader
    applies it and its reply is lost, replaced by an error of a proxy, or delivered. *)
Inductive Fate : Type :=
| Unreached | AtFollower (fw : ForwardToLeader) | ReplyLost | ReplyReplaced (status : Z) | Delivered.

(** The other side: the leader's store, the next log index, and the fate and the time of the
    attempts to come; at the end of the script the network is down. *)
Record Engine : Type := mkEngine {
  eg_store : StateMachineStoreInner;
  eg_next : Z;
  eg_net : list (Fate * Z);
}.

(** A response body: the write's answer with its log index, or the text of an error. *)
Definition WriteBody : Type := option (Result (Z * MatchEngineResponse) ForwardToLeader).

Definition read_write_body (body : WriteBody) : Result (Result (Z * MatchEngineResponse) ForwardToLeader) str :=
  match body with Some answer => Ok answer | None => Err [] end.

(** Applying an admitted request at the next index. *)
Definition apply_next (request : MatchEngineRequest) (eg : Engine) (net : list (Fate * Z))
    : option (Z * MatchEngineResponse) * Engine :=
  match apply_entry local (mkEntry (log_id_at (eg_next eg)) (Normal request)) (eg_store eg) with
  | Ret (resp, s, _) => (Some (eg_next eg, resp), mkEngine s (eg_next eg + 1) net)
  | _ => (None, mkEngine (eg_store eg) (eg_next eg) net)
  end.

#[local] Instance engine_transport : Transport Engine MatchEngineRequest WriteBody :=
  fun _ _ req eg =>
    match eg_net eg with
    | [] => (Err (mkReqwestError false true), eg)
    | (fate, now) :: net =>
        let down := mkEngine (eg_store eg) (eg_next eg) net in
        match fate, req with
        | Unreached, _ => (Err (mkReqwestError false true), down)
        | AtFollower fw, _ => (Ok (mkHttpResponse 200 (Ok (Some (Err fw)))), down)
        | _, None => (Ok (mkHttpResponse 400 (Ok None)), down)
        | _, Some request =>
            match admit_write (mkEdgeNode min_voters voters true now)
                    (cfg_symbol_id (symbol_config (eg_store eg))) request with
            | Err _ => (Ok (mkHttpResponse 400 (Ok None)), down)
            | Ok request =>
                match apply_next request eg net with
                | (None, eg) => (Err (mkReqwestError false false), eg)
                | (Some answer, eg) =>
                    match fate with
                    | Delivered => (Ok (mkHttpResponse 200 (Ok (Some (Ok answer)))), eg)
                    | ReplyReplaced status => (Ok (mkHttpResponse (Z.max status 300) (Ok None)), eg)
                    | _ => (Err (mkReqwestError true false), eg)
                    end
                end
            end
        end
    end.

(** [MatchEngineClient::write]. *)
Definition client_write (config : ClientConfig) (leader : Z * str) (request : MatchEngineRequest)
    (eg : Engine) :=
  send_with_forwarding (fun _ : WriteBody => []) read_write_body Some config leader [] (Some request) true eg.

Section Once.
Variables (order : Order) (id : string) (s : StateMachineStoreInner) (index : Z).

(** The order, stamped and applied once to [s] at [index]. *)
Definition applied_once (resp : MatchEngineResponse) s1 : Prop :=
  exists now fx, in_u64 now /\
    apply_entry local (mkEntry (log_id_at index) (Normal (Place (set_timestamp now order) (Some id)))) s =
    Ret (resp, s1, fx).

(** Equal but for the applied log id. *)
Definition same_but_applied (s1 s2 : StateMachineStoreInner) : Prop :=
  s2 = set_applied (last_applied_log s2) (last_membership s2) s1.

(** What the dedupe map answers. *)
Definition answers (resp : MatchEngineResponse) (s1 : StateMachineStoreInner) : Prop :=
  exists record, submissions s1 !! id = Some record /\ duplicate_response record s1 = resp.

(** What the guarantee needs of the replica the first attempt meets: a sound store whose events are
    before the entry's, a sequence counter that is not used up, a fresh id, room for the order's own
    events in an empty window (the window may be full: older events make room), and a dedupe map
    for one submission at least. *)
Record once_ready : Prop := {
  or_ok : sm_ok s;
  or_before : events_before index 0 s;
  or_typed : order_typed order;
  or_budget : budget 1 s;
  or_fresh : submissions s !! id = None;
  or_events : forall now resp n s1 fx, in_u64 now ->
    apply_place (set_timestamp now order) (Some id) index 0
      (set_applied (Some (log_id_at index)) (last_membership s) s) (mkEffects [] []) = Ret (resp, n, s1, fx) ->
    (n <= max_events s)%nat /\ Z.of_nat n <= U32_MAX;
  or_subs : (0 < max_submissions s)%nat;
}.

Hypothesis ready : once_ready.

Lemma stamped_typed now : in_u64 now -> order_typed (set_timestamp now order).
Proof. intros Hn. destruct (or_typed ready). by split. Qed.

(** The first application is remembered. *)
Lemma applied_answers resp s1 : applied_once resp s1 -> answers resp s1.
Proof.
  intros (now & fx & Hnow & E).
  unfold apply_entry in E. cbn [en_payload en_log_id] in E. rewrite log_id_at_index in E.
  apply comp_bind_Ret in E as ([[[resp' n] s'] fx'] & E & [= <- <- <-]).
  cbn [apply_one] in E. destruct (or_events ready _ _ _ _ _ Hnow E) as [Hroom Hcount].
  eapply place_answered; [..|exact E|lia|exact Hroom|apply ready]; try done; try apply ready.
  - apply set_applied_ok, ready.
  - by apply stamped_typed.
Qed.

(** A further application answers the same and changes nothing else. *)
Lemma answers_again resp s1 log_id now :
  answers resp s1 ->
  let s2 := set_applied (Some log_id) (last_membership s1) s1 in
  apply_entry local (mkEntry log_id (Normal (Place (set_timestamp now order) (Some id)))) s1 =
    Ret (resp, s2, mkEffects [] []) /\ answers resp s2.
Proof.
  intros (record & Hr & Hd) s2. split; [|by exists record].
  unfold apply_entry, apply_one. cbn [en_payload en_log_id]. fold s2. unfold apply_place.
  change (submissions s2) with (submissions s1). rewrite Hr. simpl comp_bind. by rewrite <- Hd.
Qed.

(** Where the engine can be: untouched, or behind the one application. *)
Definition untouched (eg : Engine) : Prop := eg_store eg = s /\ eg_next eg = index.

Definition settled (resp : MatchEngineResponse) (eg : Engine) : Prop :=
  exists s1, applied_once resp s1 /\ same_but_applied s1 (eg_store eg).

Definition progress (eg : Engine) : Prop :=
  Forall (fun turn => in_u64 turn.2) (eg_net eg) /\
  (untouched eg \/ exists resp, settled resp eg /\ answers resp (eg_store eg)).

Definition write_outcome (res : Result (Result (Z * MatchEngineResponse) ForwardToLeader) ClientError)
    (eg : Engine) : Prop :=
  match res with
  | Ok (Ok (_, resp)) => settled resp eg
  | _ => eg_store eg = s \/ exists resp, settled resp eg
  end.

Lemma progress_outcome eg : progress eg -> eg_store eg = s \/ exists resp, settled resp eg.
Proof. intros [_ [[Hs _]|(resp & Hs & _)]]; [by left|right; by exists resp]. Qed.

(** Applying the stamped order at the next index keeps the progress, and answers it. *)
Lemma apply_next_progress eg net now :
  progress eg -> in_u64 now -> Forall (fun turn => in_u64 turn.2) net ->
  let '(answer, eg') := apply_next (Place (set_timestamp now order) (Some id)) eg net in
  progress eg' /\ match answer with Some (_, resp) => settled resp eg' | None => True end.
Proof.
  intros [_ Hp] Hnow Hnet. unfold apply_next.
  destruct (apply_entry local _ _) as [[[resp s1] fx]| |] eqn:E; [|split; [by split|done]..].
  destruct Hp as [[E1 E2]|(resp1 & (s2 & Ha & Hsame) & Hans)].
  - rewrite E1, E2 in *. assert (Ha : applied_once resp s1) by (by exists now, fx).
    assert (Hset : settled resp (mkEngine s1 (index + 1) net)).
    { exists s1. split; [done|]. unfold same_but_applied. by destruct s1. }
    split; [|done]. split; [done|]. right. exists resp. split; [done|by apply applied_answers].
  - destruct (answers_again resp1 _ (log_id_at (eg_next eg)) now Hans) as [E' Hans'].
    rewrite E' in E. injection E as <- <- <-.
    assert (Hset : settled resp1 (mkEngine (set_applied (Some (log_id_at (eg_next eg)))
                      (last_membership (eg_store eg)) (eg_store eg)) (eg_next eg + 1) net)).
    { exists s2. split; [done|]. unfold same_but_applied in *. simpl. by rewrite Hsame. }
    split; [|done]. split; [done|]. right. by exists resp1.
Qed.

Lemma admitted_place now eg request :
  admit_write (mkEdgeNode min_voters voters true now) (cfg_symbol_id (symbol_config (eg_store eg)))
    (Place order (Some id)) = Ok request ->
  request = Place (set_timestamp now order) (Some id).
Proof.
  unfold admit_write. destruct (ensure_min_voters _ _); [|done].
  destruct (validate_request _); [|done]. destruct (guard_request_symbol _ _ _); [|done].
  by intros [= <-].
Qed.

Lemma write_attempt leader eg :
  progress eg ->
  let '(res, eg') := send (fun _ : WriteBody => []) read_write_body leader [] (Some (Place order (Some id))) eg in
  progress eg' /\ write_outcome res eg'.
Proof.
  intros Hp. unfold send, exchange, engine_transport.
  assert (Hdown : forall fate now net, eg_net eg = (fate, now) :: net ->
            progress (mkEngine (eg_store eg) (eg_next eg) net)).
  { intros fate now net E. destruct Hp as [Hnet Hp]. rewrite E in Hnet. inversion Hnet. by split. }
  destruct (eg_net eg) as [|[fate now] net] eqn:E; simpl.
  { split; [done|]. by apply progress_outcome. }
  specialize (Hdown fate now net eq_refl). pose proof (progress_outcome _ Hdown) as Hout.
  assert (Hnow : in_u64 now /\ Forall (fun turn => in_u64 turn.2) net).
  { destruct Hp as [Hnet _]. rewrite E in Hnet. by inversion Hnet. }
  assert (Happly :
    match admit_write (mkEdgeNode min_voters voters true now)
            (cfg_symbol_id (symbol_config (eg_store eg))) (Place order (Some id)) with
    | Err _ => True
    | Ok request =>
        let '(answer, eg') := apply_next request eg net in
        progress eg' /\ match answer with Some (_, resp) => settled resp eg' | None => True end
    end).
  { destruct (admit_write _ _ _) as [request|e] eqn:Ea; [|done].
    apply admitted_place in Ea. subst request. by apply apply_next_progress; [|apply Hnow..]. }
  destruct fate as [|fw| |status|]; simpl; [by split|by split|..].
  all: destruct (admit_write _ _ _) as [request|e]; simpl; [|by split].
  all: destruct (apply_next request eg net) as [[[i resp]|] eg'] eqn:En; destruct Happly as [Hp' Hs'].
  all: try (split; [exact Hp'|by apply progress_outcome]).
  - destruct (is_success _) eqn:Es; simpl; (split; [exact Hp'|by apply progress_outcome]).
  - split; [exact Hp'|exact Hs'].
Qed.

(** C14: A write that carries a fresh client order id executes at most once, as long as no other write
    comes between its attempts. Let the leader's store be sound, its sequence counter not used up, its
    event window large enough for the events of this one order (it may be full of others) and its dedupe
    map large enough for one submission. Then, whether attempts never arrive, are answered by followers,
    or are applied with their replies lost or replaced by an error status: when the client returns a
    response, the replica is in the state that applying the order once gives, up to the applied log id,
    and the response is that application's; when it returns an error, the order was applied once or not
    at all. *)
Theorem retried_write_applies_once (config : ClientConfig) (leader : Z * str) (net : list (Fate * Z))
    (out : Result (Result (Z * MatchEngineResponse) ForwardToLeader) ClientError * (Z * str) *
           list ClientStep * Engine) :
  Forall (fun turn => in_u64 turn.2) net ->
  client_write config leader (Place order (Some id)) (mkEngine s index net) = Some out ->
  write_outcome out.1.1.1 out.2.
Proof.
  intros Hnet E. unfold client_write, send_with_forwarding in E.
  apply (forward_loop_rule (fun _ : WriteBody => []) read_write_body Some config progress write_outcome)
    in E; [done| |].
  - intros l eg Hp. pose proof (write_attempt l eg Hp) as Ha.
    destruct (send _ _ _ _ _ eg) as [res eg']. destruct Ha as [Hp' Hq]. split; [done|].
    destruct res as [[value|inner]|error]; [done| |done]. split; [done|]. by apply progress_outcome.
  - split; [done|]. by left.
Qed.
End Once.
End Engine.

(** ** A concrete run *)
Section Demo.
#[local] Existing Instance demo_raft.

Definition demo_log_id (i : Z) : LogId := i.

(** A lost reply, a dead socket, a follower that names the leader, then the answer. *)
Definition demo_fates : list (Fate * Z) :=
  [(ReplyLost, 1000); (Unreached, 2000); (AtFollower (mkForward (Some 2) (Some [50])), 3000);
   (Delivered, 4000)].

(** A store for one event and one submission that already holds both. *)
Definition crowded_store : StateMachineStoreInner :=
  match apply_place demo_ask (Some "z"%string) 1 0 (fresh_store 1 1) no_effects with
  | Ret (_, _, s, _) => s
  | _ => demo_store
  end.

Example crowded_store_full :
  length (events crowded_store) = max_events crowded_store /\
  length (submission_order crowded_store) = max_submissions crowded_store.
Proof. vm_compute. split; reflexivity. Qed.

Lemma crowded_store_ok : sm_ok crowded_store.
Proof.
  pose proof (apply_place_spec demo_ask (Some "z"%string) 1 0 (fresh_store 1 1) no_effects
                (proj1 (fresh_store_ok 1 1)) (proj1 demo_orders_typed) eq_refl) as Hp.
  unfold crowded_store. destruct (apply_place _ _ _ _ _ _) as [[[[resp n] s'] fx]| |] eqn:E;
    [|vm_compute in E; discriminate..].
  destruct Hp as (evs & subs & _ & Hg & _). by eapply grows_sm_ok.
Qed.

Definition demo_write :=
  client_write demo_log_id demo_node 1 1 ClientConfig_default (1, [49]) (Place demo_ask (Some "a"%string))
    (mkEngine crowded_store 2 demo_fates).

Definition demo_write_steps : list ClientStep :=
  match demo_write with Some (_, _, trace, _) => trace | None => [] end.

Example demo_write_trace :
  demo_write_steps =
  [Sent [49]; Slept (ms 100); Sent [49]; Slept (ms 200); Sent [49]; Slept (ms 100); Sent [50]].
Proof. vm_compute. reflexivity. Qed.

Lemma demo_ready : once_ready demo_log_id demo_ask "a"%string crowded_store 2.
Proof.
  split; [exact crowded_store_ok|repeat constructor|exact (proj1 demo_orders_typed)
         |vm_compute; discriminate|reflexivity| |].
  - intros now resp n s1 fx _ E. vm_compute in E. injection E as <- <- <- <-. vm_compute. split; [lia|discriminate].
  - vm_compute. lia.
Qed.

Lemma retried_write_applies_once_witness :
  exists out, demo_write = Some out /\
    write_outcome demo_log_id demo_node demo_ask "a"%string crowded_store 2 out.1.1.1 out.2.
Proof.
  destruct demo_write as [out|] eqn:E; [|vm_compute in E; discriminate].
  exists out. split; [reflexivity|].
  apply (retried_write_applies_once demo_log_id (fun i => eq_refl) demo_node 1 1 demo_ask "a"%string
           crowded_store 2 demo_ready ClientConfig_default (1, [49]) demo_fates out); [|exact E].
  repeat constructor; vm_compute; discriminate.
Defined.

(** The answer is a success. *)
Example demo_write_succeeds :
  match demo_write with Some (Ok (Ok (i, _)), leader, _, _) => i = 3 /\ leader = (2, [50]) | _ => False end.
Proof. vm_compute. split; reflexivity. Qed.
End Demo.
