(* ===== verification/Desk.v ===== *)
(** * The order desk ([src/demos/order_system/src/state.rs])

    The desk in front of one engine per product: tickets become orders, a ledger keeps the leverage
    of perpetual orders by sequence, and every view carries freeze estimates. The engine is the
    class [EngineClient]; a text that is JSON is the value it encodes, and the messages of errors
    are the constructors of [ApiMessage]. Actions run in an error monad over the backend and the
    engine's world. *)

From stdpp Require Import strings gmap.
From S2P Require Import Prelude BTree Fixed Order OrderBook MatchEvent StateMachine Api Freeze Client.

Definition MAX_STATE_ORDERS : nat := 200.
Definition DEFAULT_EVENTS_LIMIT : nat := Z.to_nat 500.
Definition USIZE_MAX : Z := U64_MAX.

(** ** Errors *)

Inductive ApiMessage : Type :=
| MsgLeverage | MsgPerpetualPolicy | MsgPerpetualBackend
| MsgGtdNeedsExpiry | MsgGtdZeroExpiry | MsgTif (other : str) | MsgFeeRate (field : str)
| MsgSymbolLocked | MsgSymbolInvalid | MsgDecode (key : str) | MsgClient (error : ClientError)
| MsgWrite | MsgEventsUnavailable
| MsgHeaders | MsgCursorPair | MsgEventsLimit | MsgBookLimit.

Inductive ApiKind : Type :=
| KindBadRequest | KindUnavailable | KindNotConfigured | KindDecode | KindNoLeader | KindTimeout
| KindTransport | KindSymbolLocked | KindWriteRejected.

Record ApiError : Type := mkApiError {
  ae_status : Z;
  ae_kind : ApiKind;
  ae_message : ApiMessage;
  ae_leader_id : option Z;
  ae_leader_addr : option str;
}.

Definition ApiError_new (status : Z) (kind : ApiKind) (message : ApiMessage) : ApiError :=
  mkApiError status kind message None None.

Definition bad_request (message : ApiMessage) : ApiError := ApiError_new 400 KindBadRequest message.
Definition conflict (kind : ApiKind) (message : ApiMessage) : ApiError := ApiError_new 409 kind message.
Definition unavailable (message : ApiMessage) : ApiError := ApiError_new 503 KindUnavailable message.
Definition not_configured (message : ApiMessage) : ApiError := ApiError_new 400 KindNotConfigured message.
Definition decode_error (message : ApiMessage) : ApiError := ApiError_new 502 KindDecode message.

(** [StatusCode::from_u16]: 100 to 999. *)
Definition status_from_u16 (status : Z) : option Z :=
  if (100 <=? status) && (status <? 1000) then Some status else None.

Definition client_error (error : ClientError) : ApiError :=
  let status :=
    match error with
    | ClientNoLeader => 503
    | ClientTimeout => 504
    | ClientApi status _ => default 502 (status_from_u16 status)
    | ClientRpc _ | ClientDecode _ => 502
    end in
  let kind :=
    match error with
    | ClientNoLeader => KindNoLeader
    | ClientTimeout => KindTimeout
    | ClientApi _ _ => KindBadRequest
    | ClientRpc _ | ClientDecode _ => KindTransport
    end in
  ApiError_new status kind (MsgClient error).

(** openraft's [ClientWriteError]. *)
Inductive ClientWriteError : Type :=
| WriteForward (forward : ForwardToLeader)
| WriteDiscarded (forward : ForwardToLeader)
| WriteMembership.

Definition write_error (error : ClientWriteError) : ApiError :=
  let forward := match error with WriteForward f | WriteDiscarded f => Some f | WriteMembership => None end in
  let api := conflict KindWriteRejected MsgWrite in
  match forward with
  | Some forward =>
      mkApiError (ae_status api) (ae_kind api) (ae_message api) (fw_leader_id forward) (fw_leader_addr forward)
  | None => api
  end.

(** ** Tickets *)

Record PlaceTicket : Type := mkPlaceTicket {
  pk_side : OrderSide;
  pk_product : Product;
  pk_leverage : option Z;
  pk_order_type : OrderType;
  pk_tif : str;
  pk_price : option Fixed;
  pk_volume : Fixed;
  pk_volume_unit : VolumeUnit;
  pk_post_only : bool;
  pk_stop_price : option Fixed;
  pk_display_volume : option Fixed;
  pk_expiry_ms : option Z;
  pk_maker_fee_rate : Fixed;
  pk_taker_fee_rate : Fixed;
  pk_client_order_id : option string;
}.

Record CancelTicket : Type := mkCancelTicket {
  ck_product : Product;
  ck_side : OrderSide;
  ck_price : Fixed;
  ck_sequence : Z;
}.

Record AmendTicket : Type := mkAmendTicket {
  ak_product : Product;
  ak_side : OrderSide;
  ak_price : Fixed;
  ak_sequence : Z;
  ak_new_price : option Fixed;
  ak_new_volume : option Fixed;
}.

Definition to_ascii_uppercase (s : str) : str :=
  (fun c => if (97 <=? c) && (c <=? 122) then c - 32 else c) <$> s.

Definition parse_tif (tif : str) (expiry_ms : option Z) : Result TimeInForce ApiError :=
  let upper := to_ascii_uppercase tif in
  if bool_decide (upper = []) || bool_decide (upper = lit "GTC") then Ok Gtc
  else if bool_decide (upper = lit "IOC") then Ok Ioc
  else if bool_decide (upper = lit "FOK") then Ok Fok
  else if bool_decide (upper = lit "DAY") then Ok Day
  else if bool_decide (upper = lit "GTD") then
    match expiry_ms with
    | None => Err (bad_request MsgGtdNeedsExpiry)
    | Some expiry => if expiry =? 0 then Err (bad_request MsgGtdZeroExpiry) else Ok (Gtd expiry)
    end
  else Err (bad_request (MsgTif upper)).

Definition validate_fee_rate (rate : Fixed) (field : str) : Result Fixed ApiError :=
  if negb ((MIN_FEE_RATE <=? rate) && (rate <=? MAX_FEE_RATE)) then Err (bad_request (MsgFeeRate field))
  else Ok rate.

(** The sixteen assignments behind [Order::new]. *)
Definition ticket_order (t : PlaceTicket) (symbol_id : Z) (tif : TimeInForce) (maker taker : Fixed) : Order :=
  let order := Order_new (pk_side t) (default FIXED_ZERO (pk_price t)) (pk_volume t) 0 in
  mkOrder (pk_order_type t) (o_side order) symbol_id (o_price order) (o_volume order) (pk_volume_unit t)
    (o_requested_volume order) (o_requested_volume_unit order) maker taker (o_id order) (o_sequence order)
    tif (pk_post_only t) (default FIXED_ZERO (pk_stop_price t))
    (default FIXED_ZERO (pk_display_volume t)) (o_hidden_volume order) (o_timestamp order).

Definition build_order (t : PlaceTicket) (symbol_id : Z) : Result Order ApiError :=
  match parse_tif (pk_tif t) (pk_expiry_ms t) with
  | Err e => Err e
  | Ok tif =>
      match validate_fee_rate (pk_maker_fee_rate t) (lit "maker_fee_rate") with
      | Err e => Err e
      | Ok maker =>
          match validate_fee_rate (pk_taker_fee_rate t) (lit "taker_fee_rate") with
          | Err e => Err e
          | Ok taker => Ok (ticket_order t symbol_id tif maker taker)
          end
      end
  end.

Definition validate_product (symbol : SymbolConfig) (product : Product) (leverage : Z) : Result unit ApiError :=
  if negb (bool_decide (product = Perpetual)) then Ok ()
  else
    match validate_leverage leverage with
    | Err _ => Err (bad_request MsgLeverage)
    | Ok _ => if negb (perpetual_supported symbol) then Err (bad_request MsgPerpetualPolicy) else Ok ()
    end.

(** ** Backends and the leverage ledger *)

Record EngineBackend : Type := mkBackend {
  be_product : Product;
  be_engine_id : Z;
  be_http_addr : str;
  be_leverages : gmap Z Z;
}.

Definition EngineBackend_new (product : Product) (engine_id : Z) (http_addr : str) : EngineBackend :=
  mkBackend product engine_id http_addr ∅.

Definition set_leverages (m : gmap Z Z) (be : EngineBackend) : EngineBackend :=
  mkBackend (be_product be) (be_engine_id be) (be_http_addr be) m.

Definition remember_leverage (sequence : option Z) (leverage : Z) (be : EngineBackend) : EngineBackend :=
  if negb (bool_decide (be_product be = Perpetual)) then be
  else match sequence with
       | Some sequence => set_leverages (<[sequence := leverage]> (be_leverages be)) be
       | None => be
       end.

Definition take_leverage (sequence : Z) (be : EngineBackend) : option Z * EngineBackend :=
  (be_leverages be !! sequence, set_leverages (delete sequence (be_leverages be)) be).

Definition restore_leverage (sequence leverage : Z) (be : EngineBackend) : EngineBackend :=
  set_leverages (<[sequence := leverage]> (be_leverages be)) be.

(** ** Views *)

Record DeskOrder : Type := mkDeskOrder {
  do_order : Order;
  do_product : Product;
  do_leverage : option Z;
  do_economics : option OrderEconomics;
}.

Record FreezeState : Type := mkFreezeState {
  fs_orders : list AssetFreeze;
  fs_stops : list AssetFreeze;
  fs_total : list AssetFreeze;
  fs_estimated : nat;
  fs_unestimated : nat;
}.

Definition estimated_freezes (items : list DeskOrder) : list FreezeEstimate :=
  omap (fun entry => oe_freeze <$> do_economics entry) items.

Definition freeze_state (orders stops : list DeskOrder) : FreezeState :=
  let total_orders := (length orders + length stops)%nat in
  let estimated :=
    length (filter (fun entry => bool_decide (is_Some (do_economics entry)) = true) (orders ++ stops)) in
  mkFreezeState
    (summarize_freezes (estimated_freezes orders))
    (summarize_freezes (estimated_freezes stops))
    (summarize_freezes (estimated_freezes orders ++ estimated_freezes stops))
    estimated (total_orders - estimated).

(** [slice::sort_by], which is stable. *)
Fixpoint sort_insert {A} (le : A -> A -> bool) (x : A) (l : list A) : list A :=
  match l with
  | [] => [x]
  | y :: l' => if le x y then x :: l else y :: sort_insert le x l'
  end.

Definition sort_by {A} (le : A -> A -> bool) (l : list A) : list A := foldr (sort_insert le) [] l.

(** Best price first, then the older order. *)
Definition desk_before (side : OrderSide) (a b : Order) : bool :=
  let better :=
    match side with Buy => o_price b <? o_price a | Sell => o_price a <? o_price b end in
  better || ((o_price a =? o_price b) && (o_sequence a <=? o_sequence b)).

Definition on_side (side : OrderSide) (order : Order) : bool := bool_decide (o_side order = side).

Definition depth_from_orders (orders : list Order) (side : OrderSide) (levels : Z) : list DepthLevel :=
  if levels =? 0 then []
  else
    let side_orders := sort_by (desk_before side) (filter (fun o => on_side side o = true) orders) in
    reverse (depth_walk side_orders levels []).

(** ** The engine, as the desk sees it *)

(** What the desk asks of [RaftMetrics]. *)
Record RaftMetrics : Type := mkRaftMetrics {
  rm_current_leader : option Z;
  rm_current_term : Z;
  rm_raft_state : str;
  rm_running_ok : bool;
  rm_nodes : list (Z * str);
}.

Class EngineClient (W : Type) : Type := {
  client_read : str -> W -> Result ReadState ClientError * W;
  client_submit : MatchEngineRequest -> W ->
    Result (Result (Z * MatchEngineResponse) ClientWriteError) ClientError * W;
  client_events : EventsRequest -> W -> Result (option EventsResponse) ClientError * W;
  client_events_status : W -> Result EventsStatus ClientError * W;
  client_metrics : W -> Result RaftMetrics ClientError * W;
}.

Record OrderResult : Type := mkOrderResult {
  or_product : Product;
  or_sequence : option Z;
  or_log_index : Z;
  or_events_list : list MatchEvent;
  or_events_truncated : bool;
  or_error : option str;
}.

Definition order_result (response : Z * MatchEngineResponse) (product : Product) : OrderResult :=
  mkOrderResult product (rs_sequence response.2) response.1 (rs_events response.2)
    (rs_events_truncated response.2) (rs_error response.2).

Record FullBookResponse : Type := mkFullBook {
  fb_product : Product;
  fb_market_seq : Z;
  fb_counts : nat * nat * nat;
  fb_bids : list DeskOrder;
  fb_asks : list DeskOrder;
  fb_stops : list DeskOrder;
  fb_depth_bids : list DepthLevel;
  fb_depth_asks : list DepthLevel;
  fb_freeze : FreezeState;
  fb_truncated : bool;
}.

Inductive PreviewReason : Type := ReasonPolicy | ReasonStopOrTrade | ReasonLimitPrice.

Record FreezePreview : Type := mkFreezePreview {
  fp_product : Product;
  fp_economics : option OrderEconomics;
  fp_reason : option PreviewReason;
}.

Record OrdersState : Type := mkOrdersState {
  os_total : nat;
  os_truncated : bool;
  os_items : list DeskOrder;
}.

Record NodeState : Type := mkNodeState {
  ns_id : Z;
  ns_http_addr : str;
  ns_is_leader : bool;
  ns_leader_id : option Z;
  ns_leader_addr : option str;
  ns_term : Z;
  ns_raft_state : str;
  ns_healthy : bool;
  ns_ready : bool;
}.

Record EngineState : Type := mkEngineState {
  es_node : NodeState;
  es_symbol : SymbolConfig;
  es_locked : bool;
  es_sequence : Z;
  es_spread : option Fixed;
  es_last_trade_price : option Fixed;
  es_depth_bids : list DepthLevel;
  es_depth_asks : list DepthLevel;
  es_orders : OrdersState;
  es_stops : OrdersState;
  es_freeze : FreezeState;
  es_events : EventsStatus;
  es_market_data : bool;
}.

Record EventsPage : Type := mkEventsPage { pg_product : Product; pg_page : EventsResponse }.

Section Backend.
Context `{I256Ops}.
Context {W : Type} `{EngineClient W}.

(** ** Actions: an error monad over the backend and the world *)

Definition Act (A : Type) : Type := EngineBackend * W -> Result A ApiError * (EngineBackend * W).

Definition act_ret {A} (a : A) : Act A := fun st => (Ok a, st).
Definition act_fail {A} (e : ApiError) : Act A := fun st => (Err e, st).
Definition act_bind {A B} (m : Act A) (f : A -> Act B) : Act B :=
  fun st => match m st with (Ok a, st) => f a st | (Err e, st) => (Err e, st) end.

#[local] Notation "'do' x <- m ; k" := (act_bind m (fun x => k))
  (at level 200, x name, m at level 100, k at level 200).

(** [?] on a value. *)
Definition lift {A} (r : Result A ApiError) : Act A :=
  fun st => (r, st).

Definition product_of : Act Product := fun st => (Ok (be_product st.1), st).

Definition update_backend (f : EngineBackend -> EngineBackend) : Act unit :=
  fun st => (Ok (), (f st.1, st.2)).

Definition take_leverage_act (sequence : Z) : Act (option Z) :=
  fun st => let '(l, be) := take_leverage sequence st.1 in (Ok l, (be, st.2)).

(** A call of the client, its failure mapped by [client_error]. *)
Definition call {A} (f : W -> Result A ClientError * W) : Act A :=
  fun st =>
    let '(res, w) := f st.2 in
    (match res with Ok a => Ok a | Err e => Err (client_error e) end, (st.1, w)).

(** [desk_orders]: the orders with their tag and estimate. *)
Definition desk_order (be : EngineBackend) (symbol : SymbolConfig) (order : Order) : DeskOrder :=
  let leverage :=
    if bool_decide (be_product be = Perpetual) then be_leverages be !! o_sequence order else None in
  let economics :=
    match be_product be, leverage with
    | Perpetual, None => None
    | _, _ => estimate_order_economics order symbol (be_product be) (default 1 leverage)
    end in
  mkDeskOrder order (be_product be) leverage economics.

Definition desk_orders (be : EngineBackend) (orders : list Order) (symbol : SymbolConfig) : list DeskOrder :=
  desk_order be symbol <$> orders.

Definition desk_orders_act (orders : list Order) (symbol : SymbolConfig) : Act (list DeskOrder) :=
  fun st => (Ok (desk_orders st.1 orders symbol), st).

(** ** Reads *)

Definition read_state (key : str) : Act ReadState := call (client_read key).

Definition read_symbol_config : Act SymbolConfig :=
  do raw <- read_state (lit "symbol_config");
  match raw with RsConfig config => act_ret config | _ => act_fail (decode_error (MsgDecode (lit "symbol_config"))) end.

Definition read_orders (key : str) : Act (list Order) :=
  do raw <- read_state key;
  match raw with RsOrders orders => act_ret orders | _ => act_fail (decode_error (MsgDecode key)) end.

(** [read_text(key).parse()] for an unsigned integer of the given maximum. *)
Definition read_number (max : Z) (key : str) : Act Z :=
  do raw <- read_state key;
  match raw with
  | RsText text =>
      match parse_unsigned max text with
      | Some v => act_ret v
      | None => act_fail (decode_error (MsgDecode key))
      end
  | _ => act_fail (decode_error (MsgDecode key))
  end.

Definition desk_symbol_id : Act Z := read_number U32_MAX (lit "symbol_id").
Definition desk_sequence : Act Z := read_number U64_MAX (lit "orderbook_sequence").

Definition read_optional_fixed (key : str) : Act (option Fixed) :=
  do raw <- read_state key;
  match raw with
  | RsText raw =>
      if bool_decide (raw = []) || bool_decide (raw = NULL) then act_ret None
      else match from_str raw with
           | Ok v => act_ret (Some v)
           | Err _ => act_fail (decode_error (MsgDecode key))
           end
  | _ => act_fail (decode_error (MsgDecode key))
  end.

(** Failures of this read are ignored; only a non-empty object counts. *)
Definition read_market_data : Act bool :=
  fun st =>
    let '(res, st) := read_state (lit "marketdata_status") st in
    (Ok match res with
        | Ok (RsMarketData enabled) => enabled
        | Ok (RsConfig _ | RsDepth _ _) => true
        | _ => false
        end, st).

(** ** Writes *)

Definition desk_write (request : MatchEngineRequest) : Act OrderResult :=
  fun st =>
    let '(res, w) := client_submit request st.2 in
    (match res with
     | Ok (Ok response) => Ok (order_result response (be_product st.1))
     | Ok (Err error) => Err (write_error error)
     | Err error => Err (client_error error)
     end, (st.1, w)).

Definition desk_place (ticket : PlaceTicket) : Act OrderResult :=
  do product <- product_of;
  let leverage := default 1 (pk_leverage ticket) in
  do symbol <- read_symbol_config;
  do _u <- lift (validate_product symbol product leverage);
  do order <- lift (build_order ticket (cfg_symbol_id symbol));
  do result <- desk_write (Place order (pk_client_order_id ticket));
  match or_error result with
  | None =>
      do _u <- update_backend (remember_leverage (or_sequence result) leverage);
      act_ret result
  | Some _ => act_ret result
  end.

Definition preview_freeze (ticket : PlaceTicket) : Act FreezePreview :=
  do product <- product_of;
  let leverage := default 1 (pk_leverage ticket) in
  do _u <- lift (if bool_decide (product = Perpetual) then
                   match validate_leverage leverage with Err _ => Err (bad_request MsgLeverage) | Ok _ => Ok () end
                 else Ok ());
  do symbol <- read_symbol_config;
  do order <- lift (build_order ticket (cfg_symbol_id symbol));
  do fallback_price <- read_optional_fixed (lit "orderbook_last_trade_price");
  let economics := estimate_ticket_economics order symbol fallback_price product leverage in
  let reason :=
    match economics with
    | Some _ => None
    | None =>
        Some (if bool_decide (product = Perpetual) && negb (perpetual_supported symbol) then ReasonPolicy
              else match o_live order with Market => ReasonStopOrTrade | _ => ReasonLimitPrice end)
    end in
  act_ret (mkFreezePreview product economics reason).

Definition desk_cancel (request : CancelTicket) : Act OrderResult :=
  let sequence := ck_sequence request in
  do symbol_id <- desk_symbol_id;
  let order := with_symbol (Order_new (ck_side request) (ck_price request) FIXED_ZERO sequence) symbol_id in
  do result <- desk_write (Cancel order);
  match or_error result with
  | None => do _l <- take_leverage_act sequence; act_ret result
  | Some _ => act_ret result
  end.

Definition desk_amend (request : AmendTicket) : Act OrderResult :=
  let old_sequence := ak_sequence request in
  do leverage <- take_leverage_act old_sequence;
  do symbol_id <- desk_symbol_id;
  let order := with_symbol (Order_new (ak_side request) (ak_price request) FIXED_ZERO old_sequence) symbol_id in
  do result <- desk_write (Amend order (ak_new_price request) (ak_new_volume request));
  match leverage with
  | Some leverage =>
      let sequence :=
        match or_error result, or_sequence result with
        | None, Some new_sequence => new_sequence
        | _, _ => old_sequence
        end in
      do _u <- update_backend (restore_leverage sequence leverage);
      act_ret result
  | None => act_ret result
  end.

Definition desk_configure_symbol (config : SymbolConfig) : Act OrderResult :=
  do sequence <- desk_sequence;
  if 0 <? sequence then act_fail (conflict KindSymbolLocked MsgSymbolLocked)
  else
    match validate config with
    | Err _ => act_fail (bad_request MsgSymbolInvalid)
    | Ok _ => desk_write (ConfigureSymbol config)
    end.

(** ** The book and the state *)

Definition take_max (limit : Z) {A} (l : list A) : list A :=
  if Z.of_nat (length l) <=? limit then l else take (Z.to_nat limit) l.

Definition desk_side (side : OrderSide) (entries : list DeskOrder) : list DeskOrder :=
  sort_by (fun a b => desk_before side (do_order a) (do_order b))
    (filter (fun entry => on_side side (do_order entry) = true) entries).

Definition desk_book (limit : Z) : Act FullBookResponse :=
  do orders <- read_orders (lit "orderbook_orders");
  do stops <- read_orders (lit "orderbook_stops");
  do sequence <- desk_sequence;
  do symbol <- read_symbol_config;
  do product <- product_of;
  do all_orders <- desk_orders_act orders symbol;
  do all_stops <- desk_orders_act stops symbol;
  let bids := desk_side Buy all_orders in
  let asks := desk_side Sell all_orders in
  act_ret (mkFullBook product sequence (length bids, length asks, length all_stops)
             (take_max limit bids) (take_max limit asks) (take_max limit all_stops)
             (depth_from_orders orders Buy USIZE_MAX) (depth_from_orders orders Sell USIZE_MAX)
             (freeze_state all_orders all_stops)
             (negb (limit =? USIZE_MAX) &&
              ((limit <? Z.of_nat (length bids)) || (limit <? Z.of_nat (length asks))
               || (limit <? Z.of_nat (length all_stops))))).

Definition orders_state (items : list DeskOrder) : OrdersState :=
  mkOrdersState (length items) (bool_decide (MAX_STATE_ORDERS < length items)%nat)
    (take MAX_STATE_ORDERS items).

Definition node_state (be : EngineBackend) (metrics : RaftMetrics) : NodeState :=
  mkNodeState (be_engine_id be) (be_http_addr be)
    (bool_decide (rm_current_leader metrics = Some (be_engine_id be)))
    (rm_current_leader metrics)
    (match rm_current_leader metrics with
     | Some id => snd <$> List.find (fun node => node.1 =? id) (rm_nodes metrics)
     | None => None
     end)
    (rm_current_term metrics) (rm_raft_state metrics) (rm_running_ok metrics)
    (rm_running_ok metrics && match rm_current_leader metrics with Some _ => true | None => false end).

Definition node_state_act (metrics : RaftMetrics) : Act NodeState :=
  fun st => (Ok (node_state st.1 metrics), st).

Definition desk_state (depth : Z) : Act EngineState :=
  let depth := Z.max 1 (Z.min 200 depth) in
  do symbol <- read_symbol_config;
  do orders <- read_orders (lit "orderbook_orders");
  do stops <- read_orders (lit "orderbook_stops");
  do sequence <- desk_sequence;
  do spread <- read_optional_fixed (lit "orderbook_spread");
  do last_trade_price <- read_optional_fixed (lit "orderbook_last_trade_price");
  do events <- call client_events_status;
  do metrics <- call client_metrics;
  do market_data <- read_market_data;
  do node <- node_state_act metrics;
  do all_orders <- desk_orders_act orders symbol;
  do all_stops <- desk_orders_act stops symbol;
  let freeze := freeze_state all_orders all_stops in
  let by_sequence := sort_by (fun a b => o_sequence (do_order a) <=? o_sequence (do_order b)) all_orders in
  act_ret (mkEngineState node symbol (0 <? sequence) sequence spread last_trade_price
             (depth_from_orders orders Buy depth) (depth_from_orders orders Sell depth)
             (orders_state by_sequence) (orders_state all_stops) freeze events market_data).

(** A page of events; [None] from the engine is a failed linearizable read. *)
Definition desk_events (after : option EventId) (limit : nat) : Act EventsPage :=
  do product <- product_of;
  do page <- call (client_events (mkEventsRequest after (Some limit) None));
  match page with
  | Some page => act_ret (mkEventsPage product page)
  | None => act_fail (unavailable MsgEventsUnavailable)
  end.

(** ** The two products *)

(** [DemoApp]: the spot backend, and perhaps a perpetual one, each in front of its own engine. *)
Record DemoApp : Type := mkDemoApp {
  app_spot : EngineBackend * W;
  app_perpetual : option (EngineBackend * W);
}.

Definition DemoApp_new (engine_id : Z) (engine_addr : str) (spot_world : W)
    (perpetual : option (Z * str * W)) : DemoApp :=
  mkDemoApp (EngineBackend_new Spot engine_id engine_addr, spot_world)
    ((fun '(engine_id, addr, w) => (EngineBackend_new Perpetual engine_id addr, w)) <$> perpetual).

Definition backend (app : DemoApp) (product : Product) : Result (EngineBackend * W) ApiError :=
  match product with
  | Spot => Ok (app_spot app)
  | Perpetual =>
      match app_perpetual app with
      | Some backend => Ok backend
      | None => Err (not_configured MsgPerpetualBackend)
      end
  end.

(** An action of one product's backend. *)
Definition on_backend {A} (product : Product) (act : Act A) (app : DemoApp) : Result A ApiError * DemoApp :=
  match backend app product with
  | Err e => (Err e, app)
  | Ok st =>
      let '(res, st) := act st in
      (res, match product with
            | Spot => mkDemoApp st (app_perpetual app)
            | Perpetual => mkDemoApp (app_spot app) (Some st)
            end)
  end.

Definition app_place (ticket : PlaceTicket) : DemoApp -> Result OrderResult ApiError * DemoApp :=
  on_backend (pk_product ticket) (desk_place ticket).
Definition app_cancel (request : CancelTicket) : DemoApp -> Result OrderResult ApiError * DemoApp :=
  on_backend (ck_product request) (desk_cancel request).
Definition app_amend (request : AmendTicket) : DemoApp -> Result OrderResult ApiError * DemoApp :=
  on_backend (ak_product request) (desk_amend request).
Definition app_preview_freeze (ticket : PlaceTicket) : DemoApp -> Result FreezePreview ApiError * DemoApp :=
  on_backend (pk_product ticket) (preview_freeze ticket).
Definition app_configure_symbol (product : Product) (config : SymbolConfig)
    : DemoApp -> Result OrderResult ApiError * DemoApp :=
  on_backend product (desk_configure_symbol config).
Definition app_book (product : Product) (limit : Z) : DemoApp -> Result FullBookResponse ApiError * DemoApp :=
  on_backend product (desk_book limit).
Definition app_events (product : Product) (after : option EventId) (limit : nat)
    : DemoApp -> Result EventsPage ApiError * DemoApp :=
  on_backend product (desk_events after limit).
End Backend.
