(* ===== verification/DeskSpec.v ===== *)
(** * What the order desk shows and remembers

    In front of a sound engine the desk's book is the engine's book ([desk_book_shows_engine]): the
    orders it sorts again come out in the engine's priority, and the depth it aggregates is the
    engine's depth. The leverage ledger holds only admissible leverages, and none on spot
    ([desk_ledger_sound]); which failures touch it ([desk_errors_keep_ledger]); and where it loses an
    open order ([leverage_lost_while_open]). *)

From stdpp Require Import strings gmap sorting relations.
From S2P Require Import Prelude BTree Fixed Order OrderBook Sweep BookInv MatchEvent StateMachine StateInv.
From S2P Require Import StateSpec Api ApiSpec Freeze Client Desk.

(** ** Sorting *)
Section Sorting.
Context {A : Type} (le : A -> A -> bool).
Context (le_total : forall x y, le x y = true \/ le y x = true).
Context (le_trans : forall x y z, le x y = true -> le y z = true -> le x z = true).

Lemma sort_insert_perm x l : sort_insert le x l ≡ₚ x :: l.
Proof.
  induction l as [|y l IH]; simpl; [done|]. destruct (le x y); [done|].
  rewrite IH. apply Permutation_swap.
Qed.

Lemma sort_by_perm l : sort_by le l ≡ₚ l.
Proof. induction l as [|x l IH]; simpl; [done|]. by rewrite sort_insert_perm, IH. Qed.

Lemma sort_insert_sorted x l :
  StronglySorted (fun a b => le a b = true) l -> StronglySorted (fun a b => le a b = true) (sort_insert le x l).
Proof.
  induction 1 as [|y l Hs IH Hf]; simpl; [by repeat constructor|].
  destruct (le x y) eqn:E.
  - constructor; [by constructor|]. constructor; [done|].
    eapply Forall_impl; [exact Hf|]. intros z. by apply le_trans.
  - constructor; [done|]. rewrite sort_insert_perm. constructor; [|done].
    destruct (le_total x y); congruence.
Qed.

Lemma sort_by_sorted l : StronglySorted (fun a b => le a b = true) (sort_by le l).
Proof. induction l as [|x l IH]; [constructor|]. by apply sort_insert_sorted. Qed.

(** A sorted list without ties is what sorting any arrangement of it gives. *)
Lemma sort_by_unique l l' :
  l ≡ₚ l' -> StronglySorted (fun a b => le a b = true) l' ->
  (forall x y, x ∈ l' -> y ∈ l' -> le x y = true -> le y x = true -> x = y) ->
  sort_by le l = l'.
Proof.
  intros Hp Hs Ha. apply (StronglySorted_unique_strong (fun a b => le a b = true));
    [|apply sort_by_sorted|done|by rewrite sort_by_perm].
  intros x y Hx Hy. apply Ha; [|done]. by rewrite <- Hp, <- (sort_by_perm l).
Qed.
End Sorting.

Lemma sort_by_fmap {A B} (f : A -> B) (leb : B -> B -> bool) (lea : A -> A -> bool) l :
  (forall a b, leb (f a) (f b) = lea a b) -> sort_by leb (f <$> l) = f <$> sort_by lea l.
Proof.
  intros Hf.
  assert (Hi : forall x l, sort_insert leb (f x) (f <$> l) = f <$> sort_insert lea x l).
  { intros x l0. induction l0 as [|y l0 IH]; [done|]. rewrite fmap_cons. cbn [sort_insert].
    rewrite Hf. destruct (lea x y); [done|]. by rewrite fmap_cons, IH. }
  induction l as [|x l IH]; [done|]. rewrite fmap_cons. cbn [sort_by foldr] in *.
  unfold sort_by in IH. by rewrite IH, Hi.
Qed.

Lemma filter_fmap {A B} (f : A -> B) (p : B -> bool) (l : list A) :
  filter (fun b => p b = true) (f <$> l) = f <$> filter (fun a => p (f a) = true) l.
Proof.
  induction l as [|a l IH]; [done|]. rewrite fmap_cons, !filter_cons, IH. by case_decide.
Qed.

(** ** The engine's sides, sorted again *)

Lemma desk_before_total side x y : desk_before side x y = true \/ desk_before side y x = true.
Proof. unfold desk_before. destruct side; lia. Qed.

Lemma desk_before_trans side x y z :
  desk_before side x y = true -> desk_before side y z = true -> desk_before side x z = true.
Proof. unfold desk_before. destruct side; lia. Qed.

Section Side.
Context {K : Type} `{BookKeyLaws K}.
Implicit Types m : list (K * Order).

Lemma side_values_sorted m :
  side_ok m -> StronglySorted (fun a b => desk_before (key_side K) a b = true) (bt_values m).
Proof.
  intros [Hs Hm]. unfold bt_sorted, bt_values in *.
  induction m as [|[k o] m IH]; [constructor|]. rewrite fmap_cons in *. simpl in *.
  inversion Hs as [|? ? Hs' Hf]; subst. inversion Hm as [|? ? Hk Hm']; subst.
  constructor; [by apply IH|]. apply Forall_fmap, Forall_forall. intros [k' o'] Hin.
  rewrite Forall_fmap, Forall_forall in Hf. specialize (Hf _ Hin). simpl in *.
  rewrite Forall_forall in Hm'. pose proof (mk_key _ (Hm' _ Hin)) as E'. pose proof (mk_key _ Hk) as E.
  simpl in *. subst k k'. apply key_priority in Hf. rewrite !key_price_of, !key_sequence_of in Hf.
  unfold desk_before, better in *. destruct (key_side K); lia.
Qed.

Lemma side_values_unique m x y :
  side_ok m -> x ∈ bt_values m -> y ∈ bt_values m ->
  desk_before (key_side K) x y = true -> desk_before (key_side K) y x = true -> x = y.
Proof.
  intros [Hs Hm] ([k o] & -> & Hx)%list_elem_of_fmap ([k' o'] & -> & Hy)%list_elem_of_fmap Hxy Hyx. simpl in *.
  rewrite Forall_forall in Hm. pose proof (mk_key _ (Hm _ Hx)) as E. pose proof (mk_key _ (Hm _ Hy)) as E'.
  simpl in *. assert (k = k').
  { subst. f_equal; revert Hxy Hyx; unfold desk_before; destruct (key_side K); lia. }
  subst k'. apply (bt_get_elem _ _ _ Hs) in Hx, Hy. congruence.
Qed.

(** Whatever order the engine lists its orders in, the desk sorts a side as the engine does. *)
Lemma sort_side m l :
  side_ok m -> l ≡ₚ bt_values m -> sort_by (desk_before (key_side K)) l = bt_values m.
Proof.
  intros Hm Hp. apply sort_by_unique; [apply desk_before_total|apply desk_before_trans|done| |].
  - by apply side_values_sorted.
  - intros x y. by apply side_values_unique.
Qed.

Lemma side_values_side m : side_ok m -> Forall (fun o => o_side o = key_side K) (bt_values m).
Proof. intros [_ Hm]. apply Forall_fmap. eapply Forall_impl; [exact Hm|]. intros x Hx. apply (mk_side _ Hx). Qed.
End Side.

Definition side_values (side : OrderSide) (b : OrderBook) : list Order :=
  match side with Buy => bt_values (bids b) | Sell => bt_values (asks b) end.

Lemma filter_desk_side b side (l : list Order) :
  side_ok (bids b) -> side_ok (asks b) -> l ≡ₚ side_values Buy b ++ side_values Sell b ->
  filter (fun o => on_side side o = true) l ≡ₚ side_values side b.
Proof.
  intros Hb Ha ->. pose proof (side_values_side _ Hb) as Fb. pose proof (side_values_side _ Ha) as Fa.
  simpl in Fb, Fa. rewrite filter_app. unfold side_values, on_side. rewrite Forall_forall in Fb, Fa.
  destruct side.
  - rewrite list_filter_all by (intros o Ho; rewrite (Fb _ Ho); done).
    rewrite list_filter_none by (intros o Ho; rewrite (Fa _ Ho); done). by rewrite app_nil_r.
  - rewrite list_filter_none by (intros o Ho; rewrite (Fb _ Ho); done).
    by rewrite list_filter_all by (intros o Ho; rewrite (Fa _ Ho); done).
Qed.

Lemma desk_sorts_side b side l :
  side_ok (bids b) -> side_ok (asks b) -> l ≡ₚ side_values Buy b ++ side_values Sell b ->
  sort_by (desk_before side) (filter (fun o => on_side side o = true) l) = side_values side b.
Proof.
  intros Hb Ha Hl. pose proof (filter_desk_side b side l Hb Ha Hl) as Hp.
  destruct side; [exact (sort_side (bids b) _ Hb Hp)|exact (sort_side (asks b) _ Ha Hp)].
Qed.

(** The desk's aggregation of the engine's orders is the engine's depth. *)
Lemma depth_from_engine_orders b side levels orders :
  side_ok (bids b) -> side_ok (asks b) -> orders ≡ₚ side_values Buy b ++ side_values Sell b ->
  depth_from_orders orders side levels = depth side levels b.
Proof.
  intros Hb Ha Ho. unfold depth_from_orders, depth. destruct (levels =? 0); [done|].
  rewrite (desk_sorts_side b side orders) by done. by destruct side.
Qed.

(** ** The desk in front of a replica *)
Section Shown.
Context `{RaftTypes} `{I256Ops} `{!I256Laws}.
Variables (log_id_at : Z -> LogId) (local : NodeLocal).

(** A leader: its store, its next log index and its clock. *)
Record DeskEngine : Type := mkDeskEngine {
  de_store : StateMachineStoreInner;
  de_next : Z;
  de_now : Z;
}.

Definition engine_submit (request : MatchEngineRequest) (w : DeskEngine)
    : Result (Result (Z * MatchEngineResponse) ClientWriteError) ClientError * DeskEngine :=
  match admit_write (mkEdgeNode 1 1 true (de_now w)) (cfg_symbol_id (symbol_config (de_store w))) request with
  | Err _ => (Err (ClientApi 400 []), w)
  | Ok request =>
      match apply_entry local (mkEntry (log_id_at (de_next w)) (Normal request)) (de_store w) with
      | Ret (response, s, _) => (Ok (Ok (de_next w, response)), mkDeskEngine s (de_next w + 1) (de_now w))
      | _ => (Err (ClientRpc RpcNetwork), w)
      end
  end.

#[local] Instance desk_engine : EngineClient DeskEngine := {
  client_read key w := (Ok (read_state_owned key (de_store w)), w);
  client_submit := engine_submit;
  client_events req w :=
    (match serve_events req [(de_store w, true)] with
     | Ok page => Ok page
     | Err _ => Err (ClientApi 400 [])
     end, w);
  client_events_status w := (Ok (events_status (de_store w)), w);
  client_metrics w := (Ok (mkRaftMetrics (Some 1) 1 [] true [(1, [])]), w);
}.

Implicit Types (be : EngineBackend) (w : DeskEngine) (s : StateMachineStoreInner).

Lemma read_orders_engine be w :
  read_orders (lit "orderbook_orders") (be, w) = (Ok (orders (de_store w)), (be, w)).
Proof. reflexivity. Qed.

Lemma read_stops_engine be w :
  read_orders (lit "orderbook_stops") (be, w) = (Ok (stops (orderbook (de_store w))), (be, w)).
Proof. reflexivity. Qed.

Lemma read_symbol_engine be w : read_symbol_config (be, w) = (Ok (symbol_config (de_store w)), (be, w)).
Proof. reflexivity. Qed.

Lemma read_number_engine be w max key v :
  read_state_owned key (de_store w) = RsText (show_u128 v) -> 0 <= v <= max -> max < 2 ^ 127 ->
  read_number max key (be, w) = (Ok v, (be, w)).
Proof.
  intros E Hv Hmax. unfold read_number, act_bind, read_state, call. cbn [client_read desk_engine snd fst].
  rewrite E. by rewrite parse_unsigned_show by lia.
Qed.

Lemma read_sequence_engine be w :
  0 <= book_sequence (orderbook (de_store w)) <= U64_MAX ->
  desk_sequence (be, w) = (Ok (book_sequence (orderbook (de_store w))), (be, w)).
Proof. intros Hs. by apply read_number_engine. Qed.

Lemma read_symbol_id_engine be w :
  0 <= cfg_symbol_id (symbol_config (de_store w)) <= U32_MAX ->
  desk_symbol_id (be, w) = (Ok (cfg_symbol_id (symbol_config (de_store w))), (be, w)).
Proof. intros Hs. by apply read_number_engine. Qed.

Lemma desk_orders_orders be os symbol : do_order <$> desk_orders be os symbol = os.
Proof.
  unfold desk_orders. rewrite <- list_fmap_compose. rewrite <- (list_fmap_id os) at 2. by apply list_fmap_ext.
Qed.

Lemma desk_side_engine be b symbol side l :
  side_ok (bids b) -> side_ok (asks b) -> l ≡ₚ side_values Buy b ++ side_values Sell b ->
  desk_side side (desk_orders be l symbol) = desk_orders be (side_values side b) symbol.
Proof.
  intros Hb Ha Hl. unfold desk_side, desk_orders. rewrite filter_fmap.
  rewrite (sort_by_fmap _ _ (desk_before side)) by done. f_equal. by apply desk_sorts_side.
Qed.

Lemma estimated_count (items : list DeskOrder) :
  length (filter (fun entry => bool_decide (is_Some (do_economics entry)) = true) items) =
  length (estimated_freezes items).
Proof.
  induction items as [|[o p l e] items IH]; [done|]. rewrite filter_cons. simpl.
  destruct e as [e|]; simpl; [by rewrite IH|done].
Qed.

Lemma estimated_le (items : list DeskOrder) : (length (estimated_freezes items) <= length items)%nat.
Proof.
  induction items as [|[o p l e] items IH]; simpl; [lia|]. destruct e; simpl; lia.
Qed.

Lemma estimated_app (l1 l2 : list DeskOrder) :
  estimated_freezes (l1 ++ l2) = estimated_freezes l1 ++ estimated_freezes l2.
Proof. unfold estimated_freezes. apply omap_app. Qed.

(** C16: In front of a sound replica the desk's book page is the engine's book: both sides in the
    engine's price-time priority up to the page limit, the parked stops, the same depth the engine
    aggregates itself, the engine's sequence; every order counts either as estimated or as not, and
    reading changes neither the desk nor the engine. *)
Theorem desk_book_shows_engine be w (limit : Z) :
  sm_ok (de_store w) -> book_sequence (orderbook (de_store w)) <= U64_MAX ->
  let b := orderbook (de_store w) in
  exists view, desk_book limit (be, w) = (Ok view, (be, w)) /\
    fb_market_seq view = book_sequence b /\
    do_order <$> fb_bids view = take_max limit (bt_values (bids b)) /\
    do_order <$> fb_asks view = take_max limit (bt_values (asks b)) /\
    do_order <$> fb_stops view = take_max limit (stops b) /\
    fb_depth_bids view = depth Buy USIZE_MAX b /\ fb_depth_asks view = depth Sell USIZE_MAX b /\
    fb_counts view = (length (bids b), length (asks b), length (stops b)) /\
    (fs_estimated (fb_freeze view) + fs_unestimated (fb_freeze view) =
     length (bids b) + length (asks b) + length (stops b))%nat.
Proof.
  intros Hs Hq b. destruct (sm_book _ Hs) as [[Hb Ha _ _ _ Hn] _].
  pose (os := orders (de_store w)). pose (symbol := symbol_config (de_store w)).
  assert (Ho : os ≡ₚ side_values Buy b ++ side_values Sell b) by done.
  pose proof (desk_side_engine be b symbol Buy os Hb Ha Ho) as EB.
  pose proof (desk_side_engine be b symbol Sell os Hb Ha Ho) as ES.
  pose proof (depth_from_engine_orders b Buy USIZE_MAX os Hb Ha Ho) as DB.
  pose proof (depth_from_engine_orders b Sell USIZE_MAX os Hb Ha Ho) as DS.
  assert (Hmap : forall l, do_order <$> take_max limit (desk_orders be l symbol) = take_max limit l).
  { intros l. unfold take_max, desk_orders. rewrite length_fmap. destruct (_ <=? limit).
    - apply desk_orders_orders.
    - rewrite fmap_take. f_equal. apply desk_orders_orders. }
  eexists. unfold desk_book, act_bind. rewrite read_orders_engine, read_stops_engine.
  rewrite read_sequence_engine by (split; [exact Hn|exact Hq]). rewrite read_symbol_engine.
  cbn [product_of desk_orders_act fst snd]. unfold act_ret. fold os symbol b. rewrite EB, ES, DB, DS.
  split; [reflexivity|]. cbn [fb_market_seq fb_bids fb_asks fb_stops fb_depth_bids fb_depth_asks fb_counts
    fb_freeze]. rewrite !Hmap. unfold desk_orders. rewrite !length_fmap. unfold side_values, bt_values.
  rewrite !length_fmap. do 7 (split; [done|]).
  unfold freeze_state. cbn [fs_estimated fs_unestimated]. rewrite estimated_count.
  pose proof (estimated_le ((desk_order be symbol <$> os) ++ (desk_order be symbol <$> stops b))) as Hle.
  rewrite length_app, !length_fmap in Hle. rewrite !length_fmap.
  assert (length os = length (bids b) + length (asks b))%nat.
  { unfold os, orders, bt_values. by rewrite length_app, !length_fmap. }
  lia.
Qed.
End Shown.

(** ** The leverage ledger *)
Section Ledger.
Context `{I256Ops}.
Context {W : Type} `{EngineClient W}.
Implicit Types (be : EngineBackend) (st : EngineBackend * W).

(** An action that never touches the backend. *)
Definition keeps_backend {A} (m : Act (W := W) A) : Prop := forall st, (m st).2.1 = st.1.

(** An action whose failures leave the backend as it was. *)
Definition fails_clean {A} (m : Act (W := W) A) : Prop :=
  forall st e st', m st = (Err e, st') -> st'.1 = st.1.

Lemma keeps_bind {A B} (m : Act A) (f : A -> Act B) :
  keeps_backend m -> (forall a, keeps_backend (f a)) -> keeps_backend (act_bind m f).
Proof.
  intros Hm Hf st. unfold act_bind. specialize (Hm st). destruct (m st) as [[a|e] st1]; [|done].
  simpl in Hm. by rewrite Hf.
Qed.

Lemma clean_bind {A B} (m : Act A) (f : A -> Act B) :
  keeps_backend m -> (forall a, fails_clean (f a)) -> fails_clean (act_bind m f).
Proof.
  intros Hm Hf st e st' E. unfold act_bind in E. specialize (Hm st).
  destruct (m st) as [[a|e'] st1]; simpl in Hm.
  - by rewrite (Hf _ _ _ _ E).
  - by injection E as _ <-.
Qed.

Lemma keeps_clean {A} (m : Act A) : keeps_backend m -> fails_clean m.
Proof. intros Hm st e st' E. specialize (Hm st). by rewrite E in Hm. Qed.

Lemma keeps_ret {A} (a : A) : keeps_backend (act_ret a).
Proof. done. Qed.
Lemma keeps_fail {A} e : keeps_backend (@act_fail W A e).
Proof. done. Qed.
Lemma keeps_lift {A} (r : Result A ApiError) : keeps_backend (lift r).
Proof. done. Qed.
Lemma keeps_product : keeps_backend product_of.
Proof. done. Qed.
Lemma keeps_call {A} (f : W -> Result A ClientError * W) : keeps_backend (call f).
Proof. intros st. unfold call. by destruct (f st.2). Qed.
Lemma keeps_read key : keeps_backend (read_state key).
Proof. apply keeps_call. Qed.
Lemma keeps_write r : keeps_backend (desk_write r).
Proof. intros st. unfold desk_write. by destruct (client_submit r st.2). Qed.
Lemma keeps_market_data : keeps_backend read_market_data.
Proof.
  intros st. unfold read_market_data. pose proof (keeps_call (client_read (lit "marketdata_status")) st) as E.
  unfold read_state. by destruct (call _ st).
Qed.
Lemma keeps_entries orders symbol : keeps_backend (desk_orders_act orders symbol).
Proof. done. Qed.
Lemma keeps_node metrics : keeps_backend (node_state_act metrics).
Proof. done. Qed.

#[local] Hint Resolve keeps_ret keeps_fail keeps_lift keeps_product keeps_call keeps_write
  keeps_market_data keeps_entries keeps_node keeps_read : desk.

(** Reads, by cases on the decoded value. *)
#[local] Ltac solve_keeps :=
  repeat first
    [ progress intros
    | progress cbv zeta
    | solve [eauto 2 with desk]
    | apply keeps_bind
    | match goal with |- keeps_backend (match ?x with _ => _ end) => destruct x end ].

Lemma keeps_symbol_config : keeps_backend read_symbol_config.
Proof. unfold read_symbol_config, read_state. solve_keeps. Qed.
Lemma keeps_orders key : keeps_backend (read_orders key).
Proof. unfold read_orders, read_state. solve_keeps. Qed.
Lemma keeps_number max key : keeps_backend (read_number max key).
Proof. unfold read_number, read_state. solve_keeps. Qed.
Lemma keeps_optional_fixed key : keeps_backend (read_optional_fixed key).
Proof. unfold read_optional_fixed, read_state. solve_keeps. Qed.

#[local] Hint Resolve keeps_symbol_config keeps_orders keeps_number keeps_optional_fixed : desk.

Lemma keeps_preview t : keeps_backend (preview_freeze t).
Proof. unfold preview_freeze. solve_keeps. Qed.
Lemma keeps_configure config : keeps_backend (desk_configure_symbol config).
Proof. unfold desk_configure_symbol, desk_sequence. solve_keeps. Qed.
Lemma keeps_book limit : keeps_backend (desk_book limit).
Proof. unfold desk_book, desk_sequence. solve_keeps. Qed.
Lemma keeps_state depth : keeps_backend (desk_state depth).
Proof. unfold desk_state, desk_sequence. solve_keeps. Qed.
Lemma keeps_events after limit : keeps_backend (desk_events after limit).
Proof. unfold desk_events. solve_keeps. Qed.

(** What placing leaves: the ledger as it was, or one more admissible leverage. *)
Lemma bind_Ok {A B} (m : Act A) (f : A -> Act B) st res :
  act_bind m f st = res -> keeps_backend m ->
  (exists e st1, res = (Err e, st1) /\ st1.1 = st.1) \/
  exists a st1, m st = (Ok a, st1) /\ st1.1 = st.1 /\ f a st1 = res.
Proof.
  intros E Hm. unfold act_bind in E. specialize (Hm st). destruct (m st) as [[a|e] st1]; simpl in Hm.
  - right. by exists a, st1.
  - left. by exists e, st1.
Qed.

Lemma validate_product_Ok symbol product leverage :
  validate_product symbol product leverage = Ok () ->
  product = Spot \/ 1 <= leverage <= 100 /\ fee_asset_policy symbol = PolicyQuote.
Proof.
  unfold validate_product, validate_leverage, perpetual_supported, MIN_PERPETUAL_LEVERAGE, MAX_PERPETUAL_LEVERAGE.
  case_bool_decide; simpl; [|by left; destruct product].
  destruct (1 <=? leverage) eqn:E1, (leverage <=? 100) eqn:E2; simpl; try done.
  case_bool_decide; [|done]. right. split; [lia|done].
Qed.

Lemma place_backend t st res st' :
  desk_place t st = (res, st') ->
  st'.1 = st.1 \/
  exists r seq, res = Ok r /\
    (be_product st.1 = Spot \/ 1 <= default 1 (pk_leverage t) <= 100) /\
    st'.1 = remember_leverage seq (default 1 (pk_leverage t)) st.1.
Proof.
  intros E. unfold desk_place in E. set (lev := default 1 (pk_leverage t)) in *.
  apply bind_Ok in E; [|apply keeps_product].
  destruct E as [(e & st1 & [= -> ->] & E1)|(p & st1 & Ep & E1 & E)]; [by left|].
  injection Ep as <- <-. cbv zeta in E.
  apply bind_Ok in E; [|apply keeps_symbol_config].
  destruct E as [(e & st2 & [= -> ->] & E2)|(symbol & st2 & _ & E2 & E)]; [by left|].
  apply bind_Ok in E; [|apply keeps_lift].
  destruct E as [(e & st3 & [= -> ->] & E3)|([] & st3 & Ev & E3 & E)]; [left; congruence|].
  apply bind_Ok in E; [|apply keeps_lift].
  destruct E as [(e & st4 & [= -> ->] & E4)|(o & st4 & _ & E4 & E)]; [left; congruence|].
  apply bind_Ok in E; [|apply keeps_write].
  destruct E as [(e & st5 & [= -> ->] & E5)|(r & st5 & _ & E5 & E)]; [left; congruence|].
  assert (Est : st5.1 = st.1) by congruence.
  destruct (or_error r) as [err|]; [injection E as <- <-; by left|].
  injection E as <- <-. right. exists r, (or_sequence r). split; [done|]. cbn [fst]. rewrite Est.
  split; [|done]. injection Ev as Ev _.
  destruct (validate_product_Ok _ _ _ Ev) as [?|[? _]]; [by left|by right].
Qed.

Lemma cancel_backend r st res st' :
  desk_cancel r st = (res, st') ->
  st'.1 = st.1 \/ exists x, res = Ok x /\ st'.1 = (take_leverage (ck_sequence r) st.1).2.
Proof.
  intros E. unfold desk_cancel in E. cbv zeta in E.
  apply bind_Ok in E; [|apply keeps_number].
  destruct E as [(e & st1 & [= -> ->] & E1)|(sid & st1 & _ & E1 & E)]; [by left|].
  apply bind_Ok in E; [|apply keeps_write].
  destruct E as [(e & st2 & [= -> ->] & E2)|(x & st2 & _ & E2 & E)]; [left; congruence|].
  destruct (or_error x) as [err|]; injection E as <- <-; [left; congruence|].
  right. exists x. split; [done|]. simpl. by rewrite E2, E1.
Qed.

(** Amending takes the leverage out first, and puts it back only when the engine answers. *)
Lemma amend_backend r st res st' :
  desk_amend r st = (res, st') ->
  let taken := take_leverage (ak_sequence r) st.1 in
  st'.1 = taken.2 \/
  exists x l seq, res = Ok x /\ taken.1 = Some l /\ st'.1 = restore_leverage seq l taken.2.
Proof.
  intros E taken. unfold desk_amend in E. cbv zeta in E. unfold act_bind at 1 in E.
  unfold take_leverage_act in E. fold taken in E. destruct taken as [l be1] eqn:Et. cbn [fst snd] in E |- *.
  apply bind_Ok in E; [|apply keeps_number].
  destruct E as [(e & st1 & [= -> ->] & E1)|(sid & st1 & _ & E1 & E)]; [by left|].
  apply bind_Ok in E; [|apply keeps_write].
  destruct E as [(e & st2 & [= -> ->] & E2)|(x & st2 & _ & E2 & E)]; [left; by rewrite E2, E1|].
  assert (Est : st2.1 = be1) by (rewrite E2, E1; done).
  destruct l as [l|]; [|injection E as <- <-; by left].
  injection E as <- <-. right. eexists x, l, _. split; [done|]. split; [done|]. simpl. by rewrite Est.
Qed.

(** ** Every run of the desk *)

(** One request to a backend, or a change of the engine behind it. *)
Inductive desk_step : EngineBackend * W -> EngineBackend * W -> Prop :=
| step_place t st : desk_step st (desk_place t st).2
| step_cancel r st : desk_step st (desk_cancel r st).2
| step_amend r st : desk_step st (desk_amend r st).2
| step_configure config st : desk_step st (desk_configure_symbol config st).2
| step_preview t st : desk_step st (preview_freeze t st).2
| step_book limit st : desk_step st (desk_book limit st).2
| step_state depth st : desk_step st (desk_state depth st).2
| step_events after limit st : desk_step st (desk_events after limit st).2
| step_engine be w w' : desk_step (be, w) (be, w').

Definition ledger_ok be : Prop :=
  match be_product be with
  | Spot => be_leverages be = ∅
  | Perpetual => map_Forall (fun _ l => 1 <= l <= 100) (be_leverages be)
  end.

Lemma remember_ok seq l be :
  ledger_ok be -> (be_product be = Spot \/ 1 <= l <= 100) -> ledger_ok (remember_leverage seq l be).
Proof.
  unfold ledger_ok, remember_leverage. intros Hok Hl. destruct (be_product be) eqn:Ep; simpl; [by rewrite Ep|].
  destruct seq as [seq|]; simpl; rewrite Ep; [|done].
  apply map_Forall_insert_2; [|done]. by destruct Hl.
Qed.

Lemma take_ok seq be : ledger_ok be -> ledger_ok (take_leverage seq be).2.
Proof.
  unfold ledger_ok. simpl. destruct (be_product be); simpl; [intros ->; apply delete_empty|].
  by apply map_Forall_delete.
Qed.

Lemma restore_ok seq seq' l be :
  ledger_ok be -> be_leverages be !! seq = Some l -> ledger_ok (restore_leverage seq' l (take_leverage seq be).2).
Proof.
  intros Hok Hl. pose proof (take_ok seq be Hok) as Ht. unfold ledger_ok in *. simpl in *.
  destruct (be_product be); [by rewrite Hok, lookup_empty in Hl|].
  apply map_Forall_insert_2; [by apply (Hok seq)|done].
Qed.

Lemma take_product seq be : be_product (take_leverage seq be).2 = be_product be.
Proof. done. Qed.

Lemma desk_step_ok st st' :
  desk_step st st' -> ledger_ok st.1 -> ledger_ok st'.1 /\ be_product st'.1 = be_product st.1.
Proof.
  intros Hstep Hok.
  assert (Hkeep : forall A (m : Act A), keeps_backend m ->
            ledger_ok (m st).2.1 /\ be_product (m st).2.1 = be_product st.1).
  { intros A m Hm. by rewrite Hm. }
  destruct Hstep as [t st|r st|r st|config st|t st|limit st|depth st|after limit st|be w w'].
  - destruct (desk_place t st) as [res st'] eqn:E. simpl.
    destruct (place_backend _ _ _ _ E) as [->|(r & seq & _ & Hl & ->)]; [done|].
    split; [by apply remember_ok|]. unfold remember_leverage. destruct (negb _); [done|]. by destruct seq.
  - destruct (desk_cancel r st) as [res st'] eqn:E. simpl.
    destruct (cancel_backend _ _ _ _ E) as [->|(x & _ & ->)]; [done|]. split; [by apply take_ok|done].
  - destruct (desk_amend r st) as [res st'] eqn:E. simpl.
    destruct (amend_backend _ _ _ _ E) as [->|(x & l & seq & _ & El & ->)].
    + split; [by apply take_ok|done].
    + split; [by apply restore_ok|done].
  - apply Hkeep, keeps_configure.
  - apply Hkeep, keeps_preview.
  - apply Hkeep, keeps_book.
  - apply Hkeep, keeps_state.
  - apply Hkeep, keeps_events.
  - done.
Qed.

(** Over every run of a backend, whatever its engine answers, the leverage ledger of a spot backend
    stays empty and that of a perpetual one holds only leverages from 1 to 100; so an order is
    shown with a leverage only on the perpetual desk, and a perpetual order without one is never
    estimated. *)
Theorem desk_ledger_sound (product : Product) (id : Z) (addr : str) (w : W) st
    (orders : list Order) (symbol : SymbolConfig) (entry : DeskOrder) :
  rtc desk_step (EngineBackend_new product id addr, w) st ->
  entry ∈ desk_orders st.1 orders symbol ->
  ledger_ok st.1 /\ be_product st.1 = product /\ do_product entry = product /\
  match do_leverage entry with
  | Some l => product = Perpetual /\ 1 <= l <= 100
  | None => product = Perpetual -> do_economics entry = None
  end.
Proof.
  intros Hrun Hin.
  assert (Hst : ledger_ok st.1 /\ be_product st.1 = product).
  { assert (H1 : ledger_ok (EngineBackend_new product id addr)) by (by destruct product).
    remember (EngineBackend_new product id addr, w) as st0 eqn:E0.
    assert (Hx : ledger_ok st0.1 /\ be_product st0.1 = product) by (by subst).
    clear E0 H1. induction Hrun as [|x y z Hxy _ IH]; [done|]. destruct Hx as [Hx Ep].
    destruct (desk_step_ok _ _ Hxy Hx) as [Hy Ey]. apply IH; [done|]. split; [done|congruence]. }
  destruct Hst as [Hok Hp]. split; [done|]. split; [done|].
  apply list_elem_of_fmap in Hin as (o & -> & _). unfold desk_order. cbn [do_product do_leverage do_economics].
  split; [done|]. unfold ledger_ok in Hok. rewrite Hp in *. destruct product; simpl.
  - by intros [=].
  - destruct (be_leverages st.1 !! o_sequence o) as [l|] eqn:El; [|done]. split; [done|]. by apply (Hok (o_sequence o)).
Qed.

(** A failed request leaves the leverage ledger as it was, except an amend: it has already taken the
    order's leverage out, and every failure (a read of the symbol id, the write) loses it. *)
Theorem desk_errors_keep_ledger st st' (e : ApiError) (t : PlaceTicket) (c : CancelTicket)
    (a : AmendTicket) (config : SymbolConfig) :
  (desk_place t st = (Err e, st') -> st'.1 = st.1) /\
  (desk_cancel c st = (Err e, st') -> st'.1 = st.1) /\
  (desk_configure_symbol config st = (Err e, st') -> st'.1 = st.1) /\
  (desk_amend a st = (Err e, st') ->
   be_leverages st'.1 = delete (ak_sequence a) (be_leverages st.1)).
Proof.
  split; [|split; [|split]]; intros E.
  - by destruct (place_backend _ _ _ _ E) as [?|(r & seq & [=] & _)].
  - by destruct (cancel_backend _ _ _ _ E) as [?|(x & [=] & _)].
  - apply (keeps_clean _ (keeps_configure config) _ _ _ E).
  - by destruct (amend_backend _ _ _ _ E) as [->|(x & l & seq & [=] & _)].
Qed.
End Ledger.

(** ** Concrete runs *)
Section Demo.
#[local] Existing Instance demo_raft.

Definition desk_log_id (i : Z) : LogId := i.
#[local] Instance demo_desk_engine : EngineClient DeskEngine := desk_engine desk_log_id demo_node.

(** A perpetual engine: the fresh store, its symbol with fees in quote currency. *)
Definition perp_store : StateMachineStoreInner :=
  set_symbol (with_fee_asset_policy (symbol_config demo_store) PolicyQuote) false demo_store.

Definition perp_ticket : PlaceTicket :=
  mkPlaceTicket Buy Perpetual (Some 10) Limit [] (Some (from_units 100)) (from_units 2) UnitBase false
    None None None 2000000000000000 2000000000000000 None.

Definition perp_start : EngineBackend * DeskEngine :=
  (EngineBackend_new Perpetual 1 [], mkDeskEngine perp_store 1 1000).

(** The desk after the ticket. *)
Definition perp_placed : Result OrderResult ApiError * (EngineBackend * DeskEngine) :=
  desk_place perp_ticket perp_start.

(** An amend that only shrinks, one the engine refuses, and a cancel that names another price. *)
Definition shrink : AmendTicket := mkAmendTicket Perpetual Buy (from_units 100) 0 None (Some (from_units 1)).
Definition refused : AmendTicket := mkAmendTicket Perpetual Buy (from_units 100) 0 (Some (-1)) None.
Definition misnamed : CancelTicket := mkCancelTicket Perpetual Buy (from_units 99) 0.

(** The open orders as the desk shows them: sequence, leverage, whether estimated. *)
Definition shown_orders (st : EngineBackend * DeskEngine) : list (Z * option Z * bool) :=
  (fun e => (o_sequence (do_order e), do_leverage e, bool_decide (is_Some (do_economics e)))) <$>
  desk_orders st.1 (orders (de_store st.2)) (symbol_config (de_store st.2)).

Definition accepted (res : Result OrderResult ApiError) : bool :=
  match res with Ok r => bool_decide (or_error r = None) | Err _ => false end.

(** The desk loses the leverage of an order that stays open, and with it its freeze estimate,
    whenever the engine's answer carries no error text: the engine reports a refused amend, and a
    cancel that finds nothing, as a rejection event with the request's own sequence. After an amend
    that keeps the order in place, an amend the engine refuses, or a cancel that names another
    price, the order is still open and unestimated. *)
Theorem leverage_lost_while_open :
  shown_orders perp_placed.2 = [(0, Some 10, true)] /\
  accepted (desk_amend shrink perp_placed.2).1 = true /\
  shown_orders (desk_amend shrink perp_placed.2).2 = [(0, None, false)] /\
  accepted (desk_amend refused perp_placed.2).1 = true /\
  shown_orders (desk_amend refused perp_placed.2).2 = [(0, None, false)] /\
  accepted (desk_cancel misnamed perp_placed.2).1 = true /\
  shown_orders (desk_cancel misnamed perp_placed.2).2 = [(0, None, false)].
Proof. repeat split; vm_compute; reflexivity. Qed.

(** The spot desk in front of the store that holds the demo ask. *)
Definition spot_engine : DeskEngine := mkDeskEngine demo_placed.1.2 2 1000.
Definition spot_desk : EngineBackend := EngineBackend_new Spot 1 [].

Lemma desk_book_shows_engine_witness :
  exists view, desk_book 5 (spot_desk, spot_engine) = (Ok view, (spot_desk, spot_engine)) /\
    do_order <$> fb_asks view = take_max 5 (bt_values (asks (orderbook demo_placed.1.2))).
Proof.
  destruct (desk_book_shows_engine desk_log_id demo_node spot_desk spot_engine 5) as (view & E & _ & _ & Ha & _).
  - exact (proj1 demo_placed_ok).
  - vm_compute. discriminate.
  - exists view. exact (conj E Ha).
Defined.

Definition perp_entry : DeskOrder :=
  match desk_orders perp_placed.2.1 (orders (de_store perp_placed.2.2)) (symbol_config demo_store) with
  | entry :: _ => entry
  | [] => mkDeskOrder demo_ask Spot None None
  end.

Lemma desk_ledger_sound_witness : do_leverage perp_entry = Some 10 /\ ledger_ok perp_placed.2.1.
Proof.
  destruct (desk_ledger_sound Perpetual 1 [] perp_start.2 perp_placed.2
              (orders (de_store perp_placed.2.2)) (symbol_config demo_store) perp_entry) as (Hok & _).
  - apply rtc_once. exact (step_place perp_ticket perp_start).
  - apply list_elem_of_In. vm_compute. left. reflexivity.
  - split; [vm_compute; reflexivity|exact Hok].
Defined.

(** An amend against an engine that does not answer: leverage 10 is lost. *)
Definition dead_engine : EngineClient unit := {|
  client_read _ w := (Err ClientTimeout, w);
  client_submit _ w := (Err ClientTimeout, w);
  client_events _ w := (Err ClientTimeout, w);
  client_events_status w := (Err ClientTimeout, w);
  client_metrics w := (Err ClientTimeout, w);
|}.

Definition perp_known : EngineBackend := restore_leverage 0 10 (EngineBackend_new Perpetual 1 []).

Definition failed_amend : Result OrderResult ApiError * (EngineBackend * unit) :=
  @desk_amend unit dead_engine shrink (perp_known, ()).

Lemma desk_errors_keep_ledger_witness :
  failed_amend.1 = Err (client_error ClientTimeout) /\
  be_leverages failed_amend.2.1 = delete 0 (be_leverages perp_known).
Proof.
  split; [vm_compute; reflexivity|].
  apply (@desk_errors_keep_ledger unit dead_engine (perp_known, ()) failed_amend.2
           (client_error ClientTimeout) perp_ticket misnamed shrink (symbol_config demo_store)).
  vm_compute. reflexivity.
Defined.
End Demo.
