(* ===== verification/MdProtocol.v ===== *)
(** * Stream names and payloads of the market-data service ([src/demos/market_data_system/src/protocol.rs])

    What a subscription name means, the label of a bar interval, and the payloads of every stream.
    A JSON payload is the record of its fields; texts inside it that are numbers printed with
    [to_string] are the numbers. *)

From stdpp Require Import strings.
From S2P Require Import Prelude Fixed Order OrderBook MatchEvent MarketMessage Api.

(** ** Streams *)

Inductive Speed : Type := Ms100 | Ms1000.

#[global] Instance Speed_eq_dec : EqDecision Speed.
Proof. solve_decision. Defined.

Definition speed_millis (s : Speed) : Z := match s with Ms100 => 100 | Ms1000 => 1000 end.

Definition speed_label (s : Speed) : str := match s with Ms100 => lit "100ms" | Ms1000 => lit "1000ms" end.

Definition speed_parse (value : str) : option Speed :=
  if bool_decide (value = lit "100ms") then Some Ms100
  else if bool_decide (value = lit "1000ms") then Some Ms1000 else None.

Inductive StreamKind : Type :=
| KindTrade | KindSweep | KindBookTicker
| KindDepthDiff (speed : Speed)
| KindDepthPartial (levels : Z) (speed : Speed)
| KindKline (interval_ms : Z)
| KindStatus | KindLifecycle.

#[global] Instance StreamKind_eq_dec : EqDecision StreamKind.
Proof. solve_decision. Defined.

Record StreamSpec : Type := mkStreamSpec { ss_key : str; ss_symbol : str; ss_kind : StreamKind }.

Definition is_latest_value (spec : StreamSpec) : bool :=
  match ss_kind spec with KindBookTicker | KindDepthPartial _ _ => true | _ => false end.

Inductive ProtocolError : Type :=
| UnknownStream | UnknownSymbol | InvalidRequest | SubscriptionLimit | QueueFull | TooManyControls.

(** The wire code of an error. *)
Definition error_code (e : ProtocolError) : Z :=
  match e with
  | UnknownStream | UnknownSymbol => 0
  | InvalidRequest => 1
  | SubscriptionLimit | QueueFull => 2
  | TooManyControls => 3
  end.

Record SymbolSpec : Type := mkSymbolSpec {
  sp_symbol : str;
  sp_symbol_id : Z;
  sp_base_asset : str;
  sp_quote_asset : str;
}.

(** The configuration the protocol and the sessions read. *)
Record MdServiceConfig : Type := mkMdServiceConfig {
  mc_symbols : list SymbolSpec;
  mc_lifecycle : bool;
  mc_max_streams : nat;
  mc_queue : nat;
  mc_snapshot_levels : nat;
}.

Definition to_ascii_lower (s : str) : str :=
  (fun c => if (65 <=? c) && (c <=? 90) then c + 32 else c) <$> s.

Definition eq_ignore_ascii_case (a b : str) : bool := bool_decide (to_ascii_lower a = to_ascii_lower b).

(** [Config::symbol]. *)
Definition config_symbol (config : MdServiceConfig) (name : str) : option SymbolSpec :=
  List.find (fun spec => eq_ignore_ascii_case (sp_symbol spec) name) (mc_symbols config).

Definition CH_AT : Z := 64.

Definition strip_str_prefix (prefix s : str) : option str :=
  if starts_with prefix s then Some (drop (length prefix) s) else None.

Definition strip_suffix (suffix s : str) : option str :=
  match strip_str_prefix (reverse suffix) (reverse s) with Some r => Some (reverse r) | None => None end.

(** The named bar intervals. *)
Definition KLINE_LABELS : list (str * Z) :=
  [(lit "1s", 1000); (lit "1m", 60000); (lit "3m", 180000); (lit "5m", 300000); (lit "15m", 900000);
   (lit "30m", 1800000); (lit "1h", 3600000); (lit "2h", 7200000); (lit "4h", 14400000);
   (lit "6h", 21600000); (lit "8h", 28800000); (lit "12h", 43200000); (lit "1d", 86400000);
   (lit "3d", 259200000); (lit "1w", 604800000); (lit "1M", 2592000000)].

Definition parse_kline_interval (label : str) : option Z :=
  match List.find (fun entry => bool_decide (entry.1 = label)) KLINE_LABELS with
  | Some (_, millis) => Some millis
  | None =>
      match strip_suffix (lit "ms") label with
      | Some digits => parse_unsigned U64_MAX digits
      | None => None
      end
  end.

Definition kline_label (interval_ms : Z) : str :=
  match List.find (fun entry => entry.2 =? interval_ms) KLINE_LABELS with
  | Some (label, _) => label
  | None => show_u128 interval_ms ++ lit "ms"
  end.

Definition parse_depth (rest : str) : option StreamKind :=
  match rsplit_once CH_AT rest with
  | None => None
  | Some (head, speed) =>
      match speed_parse speed with
      | None => None
      | Some speed =>
          if bool_decide (head = lit "depth") then Some (KindDepthDiff speed)
          else
            match strip_str_prefix (lit "depth") head with
            | None => None
            | Some digits =>
                match parse_unsigned U64_MAX digits with
                | Some levels =>
                    if (levels =? 5) || (levels =? 10) || (levels =? 20)
                    then Some (KindDepthPartial levels speed) else None
                | None => None
                end
            end
      end
  end.

(** What follows the symbol in a stream name. *)
Definition parse_kind (config : MdServiceConfig) (rest : str) : option StreamKind :=
  if bool_decide (rest = lit "trade") then Some KindTrade
  else if bool_decide (rest = lit "sweep") then Some KindSweep
  else if bool_decide (rest = lit "bookTicker") then Some KindBookTicker
  else if bool_decide (rest = lit "status") then Some KindStatus
  else if bool_decide (rest = lit "lifecycle") && mc_lifecycle config then Some KindLifecycle
  else match strip_str_prefix (lit "kline_") rest with
       | Some label => KindKline <$> parse_kline_interval label
       | None => parse_depth rest
       end.

Definition stream_key (symbol rest : str) : str := symbol ++ CH_AT :: rest.

Definition parse_stream (config : MdServiceConfig) (name : str) : Result StreamSpec ProtocolError :=
  match split_once CH_AT name with
  | None => Err UnknownStream
  | Some (symbol, rest) =>
      match config_symbol config symbol with
      | None => Err UnknownStream
      | Some spec =>
          match parse_kind config rest with
          | None => Err UnknownStream
          | Some kind => Ok (mkStreamSpec (stream_key (sp_symbol spec) rest) (sp_symbol spec) kind)
          end
      end
  end.

(** ** Payloads *)

(** The code of a fee asset in a payload. *)
Definition payload_fee_asset (symbol : SymbolSpec) (asset : option FeeAsset) : option str :=
  (fun asset => match asset with FeeBase => sp_base_asset symbol | FeeQuote => sp_quote_asset symbol end) <$> asset.

Record FeeFields : Type := mkFeeFields {
  ff_tf : Fixed; ff_tfa : option str; ff_mf : Fixed; ff_mfa : option str; ff_err : list str }.

Definition fee_fields_with_assets (symbol : SymbolSpec) (fill : TradeRecord) : FeeFields :=
  mkFeeFields (tr_taker_fee fill) (payload_fee_asset symbol (tr_taker_fee_asset fill))
    (tr_maker_fee fill) (payload_fee_asset symbol (tr_maker_fee_asset fill))
    (code_as_str <$> errors_codes (tr_error fill)).

Definition side_is_maker (fill : TradeRecord) : bool := bool_decide (tr_taker_side fill = Sell).

Definition fill_volume (fills : list TradeRecord) : Fixed * Fixed :=
  foldl (fun '(volume, quote) fill =>
           (saturating_add volume (tr_volume fill), saturating_add quote (tr_quote_volume fill)))
    (FIXED_ZERO, FIXED_ZERO) fills.

(** One fill of a sweep. *)
Record SweepFill : Type := mkSweepFill {
  sf_t : Z; sf_p : Fixed; sf_q : Fixed; sf_qv : Fixed; sf_ms : Z; sf_fees : FeeFields }.

(** A payload: its symbol is the feed's own. *)
Inductive Payload : Type :=
| PayTrade (E t L : Z) (p q qv : Fixed) (T : Z) (m : bool) (ts ms : Z) (fees : FeeFields)
| PaySweep (E u L T ts : Z) (m : bool) (fills : list SweepFill) (volume quote_volume : Fixed)
| PayTicker (u E : Z) (bbo : BboRecord)
| PayDepthUpdate (E U u : Z) (b a : list (Fixed * Fixed))
| PayDepthSnapshot (E last_update_id : Z) (bids asks : list (Fixed * Fixed * Z))
| PayDepthPartial (last_update_id : Z) (bids asks : list (Fixed * Fixed * Z))
| PayKline (E t T : Z) (i : str) (bar : BarRecord) (x : bool) (q : Fixed)
| PayStatus (E last_update_id : Z) (status : StatusRecord) (epoch leader_id : Z) (ready : bool)
| PayLifecycle (E : Z) (events : list LifecycleRecord)
| PayResync (reason : str) (dropped : Z).

Definition trade_payload (symbol : SymbolSpec) (fill : TradeRecord) : Payload :=
  PayTrade (tr_ts_ms fill) (tr_ordinal fill) (tr_log_index fill) (tr_price fill) (tr_volume fill)
    (tr_quote_volume fill) (tr_ts_ms fill) (side_is_maker fill) (tr_taker_sequence fill)
    (tr_maker_sequence fill) (fee_fields_with_assets symbol fill).

(** [None] is the empty payload. *)
Definition sweep_payload (symbol : SymbolSpec) (message : MarketMessage) : option Payload :=
  match mm_body message with
  | BodyTrade (first :: rest) =>
      let fills := first :: rest in
      let '(volume, quote) := fill_volume fills in
      Some (PaySweep (mm_ts_ms message) (wrap_u64 (mm_market_seq message + 1)) (mm_log_index message)
              (tr_ts_ms first) (tr_taker_sequence first) (side_is_maker first)
              ((fun fill => mkSweepFill (tr_ordinal fill) (tr_price fill) (tr_volume fill)
                              (tr_quote_volume fill) (tr_maker_sequence fill)
                              (fee_fields_with_assets symbol fill)) <$> fills)
              volume quote)
  | _ => None
  end.

Definition kline_payload (bar : BarRecord) (quote_volume : Fixed) (ts_ms : Z) (closed : bool) : Payload :=
  PayKline ts_ms (bar_window_start_ms bar)
    (Z.max 0 (saturating_add_u64 (bar_window_start_ms bar) (bar_interval_ms bar) - 1))
    (kline_label (bar_interval_ms bar)) bar closed quote_volume.
