(* ===== verification/MdFeed.v ===== *)
(** * The market-data service's feed ([src/demos/market_data_system/src/feed.rs])

    One symbol's feed task: the derived depth book, the state sessions read at subscription, the
    conflation windows of the two speeds and the publishing of every stream. The broadcast channels
    of tokio are the numbers of their receivers ([Registry]) and the record of what was sent
    ([fe_sent]); one message or one tick is one operation. *)

From stdpp Require Import strings gmap.
From S2P Require Import Prelude BTree Fixed Order OrderBook MatchEvent MarketMessage Api MdProtocol.

(** ** The depth book *)

Record Level : Type := mkLevel { lv_volume : Fixed; lv_orders : Z }.

Record DepthBook : Type := mkDepthBook {
  db_bids : list (Z * Level);
  db_asks : list (Z * Level);
}.

Definition DepthBook_empty : DepthBook := mkDepthBook [] [].

Definition depth_levels (side : OrderSide) (d : DepthBook) : list (Z * Level) :=
  match side with Buy => db_bids d | Sell => db_asks d end.

Definition set_depth_levels (side : OrderSide) (m : list (Z * Level)) (d : DepthBook) : DepthBook :=
  match side with Buy => mkDepthBook m (db_asks d) | Sell => mkDepthBook (db_bids d) m end.

(** [DepthBook::apply]: absolute totals; a volume that is not positive deletes the level. *)
Definition depth_apply (side : OrderSide) (price volume : Fixed) (orders : Z) (d : DepthBook) : DepthBook :=
  let levels := depth_levels side d in
  if volume <=? FIXED_ZERO then set_depth_levels side (bt_remove price levels) d
  else set_depth_levels side (bt_insert price (mkLevel volume orders) levels) d.

Definition depth_total (side : OrderSide) (price : Fixed) (d : DepthBook) : Fixed :=
  match bt_get price (depth_levels side d) with Some level => lv_volume level | None => FIXED_ZERO end.

Definition level_row (entry : Z * Level) : Fixed * Fixed * Z := (entry.1, lv_volume entry.2, lv_orders entry.2).

(** [DepthBook::top], best first. *)
Definition depth_top (side : OrderSide) (limit : nat) (d : DepthBook) : list (Fixed * Fixed * Z) :=
  match side with
  | Buy => level_row <$> take limit (reverse (db_bids d))
  | Sell => level_row <$> take limit (db_asks d)
  end.

(** [DepthBook::touched]: the prices come sorted out of a set; sorting them by price, or by price
    backwards, is keeping or reversing them. *)
Definition depth_touched (side : OrderSide) (prices : list (Z * unit)) (d : DepthBook) : list (Fixed * Fixed) :=
  let levels := (fun entry : Z * unit => (entry.1, depth_total side entry.1 d)) <$> prices in
  match side with Buy => reverse levels | Sell => levels end.

(** ** The state shared with sessions *)

Record SharedState : Type := mkShared {
  ss_depth : DepthBook;
  ss_bbo : option BboRecord;
  ss_bbo_update_id : Z;
  ss_bars : gmap Z BarRecord;
  ss_bar_quote : gmap (Z * Z) Fixed;
  ss_status : option StatusRecord;
  ss_last_update_id : Z;
  ss_last_ts_ms : Z;
  ss_snapshot_seen : bool;
  ss_depth_stale : bool;
  ss_epoch : Z;
  ss_leader_id : Z;
}.

Definition SharedState_default : SharedState :=
  mkShared DepthBook_empty None 0 ∅ ∅ None 0 0 false false 0 0.

Definition shared_ready (s : SharedState) : bool := ss_snapshot_seen s && negb (ss_depth_stale s).

(** What one operation changes of it. *)
Definition set_ss_message (ts_ms epoch leader_id : Z) (s : SharedState) : SharedState :=
  mkShared (ss_depth s) (ss_bbo s) (ss_bbo_update_id s) (ss_bars s) (ss_bar_quote s) (ss_status s)
    (ss_last_update_id s) ts_ms (ss_snapshot_seen s) (ss_depth_stale s) epoch leader_id.
Definition set_ss_depth (d : DepthBook) (s : SharedState) : SharedState :=
  mkShared d (ss_bbo s) (ss_bbo_update_id s) (ss_bars s) (ss_bar_quote s) (ss_status s)
    (ss_last_update_id s) (ss_last_ts_ms s) (ss_snapshot_seen s) (ss_depth_stale s) (ss_epoch s)
    (ss_leader_id s).
Definition set_ss_sync (last_update_id : Z) (seen stale : bool) (s : SharedState) : SharedState :=
  mkShared (ss_depth s) (ss_bbo s) (ss_bbo_update_id s) (ss_bars s) (ss_bar_quote s) (ss_status s)
    last_update_id (ss_last_ts_ms s) seen stale (ss_epoch s) (ss_leader_id s).
Definition set_ss_bbo (bbo : BboRecord) (update_id : Z) (s : SharedState) : SharedState :=
  mkShared (ss_depth s) (Some bbo) update_id (ss_bars s) (ss_bar_quote s) (ss_status s)
    (ss_last_update_id s) (ss_last_ts_ms s) (ss_snapshot_seen s) (ss_depth_stale s) (ss_epoch s)
    (ss_leader_id s).
Definition set_ss_bars (bars : gmap Z BarRecord) (bar_quote : gmap (Z * Z) Fixed) (s : SharedState) : SharedState :=
  mkShared (ss_depth s) (ss_bbo s) (ss_bbo_update_id s) bars bar_quote (ss_status s)
    (ss_last_update_id s) (ss_last_ts_ms s) (ss_snapshot_seen s) (ss_depth_stale s) (ss_epoch s)
    (ss_leader_id s).
Definition set_ss_status (status : StatusRecord) (s : SharedState) : SharedState :=
  mkShared (ss_depth s) (ss_bbo s) (ss_bbo_update_id s) (ss_bars s) (ss_bar_quote s) (Some status)
    (ss_last_update_id s) (ss_last_ts_ms s) (ss_snapshot_seen s) (ss_depth_stale s) (ss_epoch s)
    (ss_leader_id s).

(** ** The registry *)

(** The streams that have a sender, with their receivers. *)
Notation Registry := (gmap str nat).

Definition registry_subscribe (key : str) (r : Registry) : Registry :=
  <[key := S (default 0%nat (r !! key))]> r.

Definition registry_has_subscribers (key : str) (r : Registry) : bool :=
  bool_decide (0 < default 0%nat (r !! key))%nat.

Definition registry_remove_if_unused (key : str) (r : Registry) : Registry :=
  if bool_decide (r !! key = Some 0%nat) then delete key r else r.

(** [str::contains]. *)
Fixpoint str_contains (sub s : str) : bool :=
  starts_with sub s || match s with [] => false | _ :: s => str_contains sub s end.

Definition registry_depth_keys (r : Registry) : list str :=
  filter (fun key => str_contains (lit "@depth") key = true) (map_to_list r).*1.

(** ** Conflation windows *)

Record DepthWindow : Type := mkDepthWindow {
  dw_bids : list (Z * unit);
  dw_asks : list (Z * unit);
  dw_first_seq : option Z;
  dw_last_seq : option Z;
  dw_ts_ms : Z;
  dw_changed : bool;
}.

Definition DepthWindow_default : DepthWindow := mkDepthWindow [] [] None None 0 false.

Definition window_prices (side : OrderSide) (w : DepthWindow) : list (Z * unit) :=
  match side with Buy => dw_bids w | Sell => dw_asks w end.

Definition window_note (w : DepthWindow) (update : LevelUpdate) : DepthWindow :=
  let price := dl_price (lu_level update) in
  match lu_side update with
  | Buy => mkDepthWindow (bt_insert price () (dw_bids w)) (dw_asks w) (dw_first_seq w) (dw_last_seq w)
             (dw_ts_ms w) (dw_changed w)
  | Sell => mkDepthWindow (dw_bids w) (bt_insert price () (dw_asks w)) (dw_first_seq w) (dw_last_seq w)
              (dw_ts_ms w) (dw_changed w)
  end.

Definition window_add (msg : MarketMessage) (updates : list LevelUpdate) (w : DepthWindow) : DepthWindow :=
  let w := foldl window_note w updates in
  let seq := mm_market_seq msg in
  mkDepthWindow (dw_bids w) (dw_asks w)
    (Some (match dw_first_seq w with Some s => Z.min s seq | None => seq end))
    (Some (match dw_last_seq w with Some s => Z.max s seq | None => seq end))
    (mm_ts_ms msg) true.

Definition window_reset (w : DepthWindow) : DepthWindow := mkDepthWindow [] [] None None (dw_ts_ms w) false.

(** ** The feed *)

Record Feed : Type := mkFeed {
  fe_symbol : SymbolSpec;
  fe_bar_intervals_ms : list Z;
  fe_lifecycle : bool;
  fe_snapshot_levels : nat;
  fe_shared : SharedState;
  fe_registry : Registry;
  fe_seen : gmap Z (Z * Z);
  fe_fast : DepthWindow;
  fe_slow : DepthWindow;
  fe_last_depth_u : option Z;
  fe_messages : Z;
  fe_gaps : Z;
  fe_resyncs : Z;
  fe_published : Z;
  fe_sent : list (str * Payload);
}.

Definition Feed_new (symbol : SymbolSpec) (bar_intervals_ms : list Z) (lifecycle : bool)
    (snapshot_levels : nat) (registry : Registry) : Feed :=
  mkFeed symbol bar_intervals_ms lifecycle snapshot_levels SharedState_default registry ∅
    DepthWindow_default DepthWindow_default None 0 0 0 0 [].

Definition set_fe_shared (s : SharedState) (f : Feed) : Feed :=
  mkFeed (fe_symbol f) (fe_bar_intervals_ms f) (fe_lifecycle f) (fe_snapshot_levels f) s (fe_registry f)
    (fe_seen f) (fe_fast f) (fe_slow f) (fe_last_depth_u f) (fe_messages f) (fe_gaps f) (fe_resyncs f)
    (fe_published f) (fe_sent f).
Definition set_fe_windows (fast slow : DepthWindow) (last_depth_u : option Z) (f : Feed) : Feed :=
  mkFeed (fe_symbol f) (fe_bar_intervals_ms f) (fe_lifecycle f) (fe_snapshot_levels f) (fe_shared f)
    (fe_registry f) (fe_seen f) fast slow last_depth_u (fe_messages f) (fe_gaps f) (fe_resyncs f)
    (fe_published f) (fe_sent f).
Definition set_fe_seen (seen : gmap Z (Z * Z)) (f : Feed) : Feed :=
  mkFeed (fe_symbol f) (fe_bar_intervals_ms f) (fe_lifecycle f) (fe_snapshot_levels f) (fe_shared f)
    (fe_registry f) seen (fe_fast f) (fe_slow f) (fe_last_depth_u f) (wrap_u64 (fe_messages f + 1))
    (fe_gaps f) (fe_resyncs f) (fe_published f) (fe_sent f).
Definition count_resync (gaps resyncs : Z) (f : Feed) : Feed :=
  mkFeed (fe_symbol f) (fe_bar_intervals_ms f) (fe_lifecycle f) (fe_snapshot_levels f) (fe_shared f)
    (fe_registry f) (fe_seen f) (fe_fast f) (fe_slow f) (fe_last_depth_u f) (fe_messages f)
    (wrap_u64 (fe_gaps f + gaps)) (wrap_u64 (fe_resyncs f + resyncs)) (fe_published f) (fe_sent f).

(** [publish_key]: sent when somebody listens. *)
Definition publish_key (key : str) (payload : Payload) (f : Feed) : Feed :=
  if registry_has_subscribers key (fe_registry f) then
    mkFeed (fe_symbol f) (fe_bar_intervals_ms f) (fe_lifecycle f) (fe_snapshot_levels f) (fe_shared f)
      (fe_registry f) (fe_seen f) (fe_fast f) (fe_slow f) (fe_last_depth_u f) (fe_messages f) (fe_gaps f)
      (fe_resyncs f) (wrap_u64 (fe_published f + 1)) (fe_sent f ++ [(key, payload)])
  else f.

Definition publish (suffix : str) (payload : Payload) (f : Feed) : Feed :=
  publish_key (stream_key (sp_symbol (fe_symbol f)) suffix) payload f.

Definition feed_depth_keys (f : Feed) : list str :=
  filter (fun key => starts_with (stream_key (sp_symbol (fe_symbol f)) []) key = true)
    (registry_depth_keys (fe_registry f)).

Definition publish_keys (keys : list str) (payload : Payload) (f : Feed) : Feed :=
  foldl (fun f key => publish_key key payload f) f keys.

Definition broadcast_resync (reason : str) (dropped : Z) (f : Feed) : Feed :=
  let f := count_resync 0 1 f in
  publish_keys (feed_depth_keys f) (PayResync reason dropped) f.

(** [fill.ts_ms / interval] panics on an interval of zero. *)
Definition bar_window (ts_ms interval : Z) : Comp Z :=
  if interval =? 0 then Panic else Ret (ts_ms / interval * interval).

Fixpoint accumulate_fill (fill : TradeRecord) (intervals : list Z) (quotes : gmap (Z * Z) Fixed)
    : Comp (gmap (Z * Z) Fixed) :=
  match intervals with
  | [] => Ret quotes
  | interval :: intervals =>
      let* window := bar_window (tr_ts_ms fill) interval in
      let entry := default FIXED_ZERO (quotes !! (interval, window)) in
      accumulate_fill fill intervals
        (<[(interval, window) := saturating_add entry (tr_quote_volume fill)]> quotes)
  end.

Fixpoint accumulate_fills (fills : list TradeRecord) (intervals : list Z) (quotes : gmap (Z * Z) Fixed)
    : Comp (gmap (Z * Z) Fixed) :=
  match fills with
  | [] => Ret quotes
  | fill :: fills =>
      let* quotes := accumulate_fill fill intervals quotes in
      accumulate_fills fills intervals quotes
  end.

Definition accumulate_quotes (fills : list TradeRecord) (f : Feed) : Comp Feed :=
  let s := fe_shared f in
  let* quotes := accumulate_fills fills (fe_bar_intervals_ms f) (ss_bar_quote s) in
  let newest := ss_last_ts_ms s in
  let quotes :=
    filter (fun entry : (Z * Z) * Fixed =>
              newest <= saturating_add_u64 entry.1.2 (wrap_u64 (entry.1.1 * 2))) quotes in
  Ret (set_fe_shared (set_ss_bars (ss_bars s) quotes s) f).

Definition quote_volume (bar : BarRecord) (s : SharedState) : Fixed :=
  default FIXED_ZERO (ss_bar_quote s !! (bar_interval_ms bar, bar_window_start_ms bar)).

Definition apply_level (side : OrderSide) (d : DepthBook) (level : DepthLevel) : DepthBook :=
  depth_apply side (dl_price level) (dl_volume level) (dl_orders level) d.

(** [apply_snapshot]. *)
Definition feed_apply_snapshot (message : MarketMessage) (snapshot : DepthSnapshotRecord) (f : Feed) : Feed :=
  let s := fe_shared f in
  if ss_snapshot_seen s && negb (ss_depth_stale s) then f
  else
    let d := foldl (apply_level Buy) DepthBook_empty (ds_bids snapshot) in
    let d := foldl (apply_level Sell) d (ds_asks snapshot) in
    let s := set_ss_sync (mm_market_seq message) true false (set_ss_depth d s) in
    let f := set_fe_windows (window_reset (fe_fast f)) (window_reset (fe_slow f))
               (Some (mm_market_seq message)) (set_fe_shared s f) in
    if negb (Z.land (mm_flags message) FLAG_RESET =? 0) then
      let f := broadcast_resync (lit "reset") 0 f in
      let s := fe_shared f in
      let payload :=
        PayDepthSnapshot (ss_last_ts_ms s) (ss_last_update_id s)
          (depth_top Buy (fe_snapshot_levels f) (ss_depth s))
          (depth_top Sell (fe_snapshot_levels f) (ss_depth s)) in
      publish_keys (filter (fun key => str_contains (lit "@depth@") key = true) (feed_depth_keys f)) payload f
    else f.

Definition apply_update (d : DepthBook) (update : LevelUpdate) : DepthBook :=
  apply_level (lu_side update) d (lu_level update).

(** [apply_delta]. *)
Definition feed_apply_delta (message : MarketMessage) (updates : list LevelUpdate) (f : Feed) : Feed :=
  let s := fe_shared f in
  if negb (ss_snapshot_seen s) || ss_depth_stale s then f
  else
    let f := set_fe_shared (set_ss_depth (foldl apply_update (ss_depth s) updates) s) f in
    set_fe_windows (window_add message updates (fe_fast f)) (window_add message updates (fe_slow f))
      (fe_last_depth_u f) f.

(** [position <= previous]. *)
Definition position_le (a b : Z * Z) : bool := (a.1 <? b.1) || ((a.1 =? b.1) && (a.2 <=? b.2)).

(** The arms of [apply]. *)
Definition feed_body (message : MarketMessage) (f : Feed) : Comp Feed :=
  let ts := mm_ts_ms message in
  match mm_body message with
  | BodyDepthSnapshot snapshot => Ret (feed_apply_snapshot message snapshot f)
  | BodyDepthDelta updates => Ret (feed_apply_delta message updates f)
  | BodyBbo bbo =>
      let update_id := wrap_u64 (mm_market_seq message + 1) in
      let f := set_fe_shared (set_ss_bbo bbo update_id (fe_shared f)) f in
      Ret (publish (lit "bookTicker") (PayTicker update_id ts bbo) f)
  | BodyTrade fills =>
      let* f := accumulate_quotes fills f in
      let f := foldl (fun f fill => publish (lit "trade") (trade_payload (fe_symbol f) fill) f) f fills in
      Ret (match sweep_payload (fe_symbol f) message with
           | Some payload => publish (lit "sweep") payload f
           | None => f
           end)
  | BodyLifecycle records =>
      Ret (if fe_lifecycle f then publish (lit "lifecycle") (PayLifecycle ts records) f else f)
  | BodyBar bar =>
      let quote := quote_volume bar (fe_shared f) in
      let s := fe_shared f in
      let f := set_fe_shared (set_ss_bars (<[bar_interval_ms bar := bar]> (ss_bars s)) (ss_bar_quote s) s) f in
      let closed := negb (Z.land (mm_flags message) FLAG_BAR_CLOSE =? 0) in
      Ret (publish (lit "kline_" ++ kline_label (bar_interval_ms bar)) (kline_payload bar quote ts closed) f)
  | BodyStatus status =>
      let f := set_fe_shared (set_ss_status status (fe_shared f)) f in
      let s := fe_shared f in
      Ret (publish (lit "status")
             (PayStatus ts (ss_last_update_id s) status (mm_epoch message) (mm_leader_id message)
                (shared_ready s)) f)
  | BodyGap gap =>
      let f := count_resync 1 0 f in
      let s := fe_shared f in
      let f := set_fe_shared (set_ss_sync (ss_last_update_id s) (ss_snapshot_seen s) true s) f in
      Ret (broadcast_resync (lit "gap") (gap_dropped gap) f)
  end.

(** [Feed::apply]. *)
Definition feed_apply (message : MarketMessage) (f : Feed) : Comp Feed :=
  let position := (mm_market_seq message, mm_sub_seq message) in
  if match fe_seen f !! mm_stream message with
     | Some previous => position_le position previous
     | None => false
     end
  then Ret f
  else
    let f := set_fe_seen (<[mm_stream message := position]> (fe_seen f)) f in
    let f := set_fe_shared
               (set_ss_message (mm_ts_ms message) (mm_epoch message) (mm_leader_id message) (fe_shared f)) f in
    feed_body message f.

Definition feed_window (speed : Speed) (f : Feed) : DepthWindow :=
  match speed with Ms100 => fe_fast f | Ms1000 => fe_slow f end.

(** The update ids of a flush. *)
Definition flush_ids (last_depth_u : option Z) (first_seq last_seq : Z) : Z * Z :=
  let last_update_id := wrap_u64 (last_seq + 1) in
  let first_update_id :=
    match last_depth_u with
    | Some previous => if previous <? last_update_id then previous + 1 else wrap_u64 (first_seq + 1)
    | None => wrap_u64 (first_seq + 1)
    end in
  (Z.min first_update_id last_update_id, last_update_id).

(** The partial-depth streams of a flush. *)
Definition flush_partial (speed : Speed) (last_update_id : Z) (f : Feed) (levels : nat) : Feed :=
  let key := stream_key (sp_symbol (fe_symbol f))
               (lit "depth" ++ show_u128 (Z.of_nat levels) ++ lit "@" ++ speed_label speed) in
  if negb (registry_has_subscribers key (fe_registry f)) then f
  else
    let d := ss_depth (fe_shared f) in
    publish_key key (PayDepthPartial last_update_id (depth_top Buy levels d) (depth_top Sell levels d)) f.

Definition set_last_update_id (last_update_id : Z) (s : SharedState) : SharedState :=
  set_ss_sync last_update_id (ss_snapshot_seen s) (ss_depth_stale s) s.

(** The publishing part of a flush: the diff of the window's prices, then the partial depths. *)
Definition flush_publish (speed : Speed) (window : DepthWindow) (ids : Z * Z) (f : Feed) : Feed :=
  let f := set_fe_windows (fe_fast f) (fe_slow f) (Some ids.2) f in
  let d := ss_depth (fe_shared f) in
  let payload :=
    PayDepthUpdate (dw_ts_ms window) ids.1 ids.2
      (depth_touched Buy (dw_bids window) d) (depth_touched Sell (dw_asks window) d) in
  let f := publish (lit "depth@" ++ speed_label speed) payload f in
  foldl (flush_partial speed ids.2) f [5; 10; 20]%nat.

(** Its end: the update id sessions see, and a fresh window. *)
Definition flush_end (speed : Speed) (last_update_id : Z) (f : Feed) : Feed :=
  let f := set_fe_shared (set_last_update_id last_update_id (fe_shared f)) f in
  match speed with
  | Ms100 => set_fe_windows (window_reset (fe_fast f)) (fe_slow f) (fe_last_depth_u f) f
  | Ms1000 => set_fe_windows (fe_fast f) (window_reset (fe_slow f)) (fe_last_depth_u f) f
  end.

(** [Feed::flush]: one tick of a speed. *)
Definition feed_flush (speed : Speed) (f : Feed) : Comp Feed :=
  let window := feed_window speed f in
  if negb (dw_changed window) then Ret f
  else
    match dw_first_seq window, dw_last_seq window with
    | Some first_seq, Some last_seq =>
        let ids := flush_ids (fe_last_depth_u f) first_seq last_seq in
        Ret (flush_end speed ids.2 (flush_publish speed window ids f))
    | _, _ => Panic
    end.

(** What [Feed::run] takes next: a message of the source, a tick of a speed, or an error of the source,
    which it only logs. *)
Inductive feed_op : Type := OpMessage (m : MarketMessage) | OpTick (speed : Speed) | OpError.

Definition feed_step (f : Feed) (op : feed_op) : Comp Feed :=
  match op with
  | OpMessage m => feed_apply m f
  | OpTick speed => feed_flush speed f
  | OpError => Ret f
  end.

(** [Feed::run], until the source ends or the service stops. *)
Fixpoint feed_run (f : Feed) (ops : list feed_op) : Comp Feed :=
  match ops with
  | [] => Ret f
  | op :: ops => let* f := feed_step f op in feed_run f ops
  end.
