(* ===== verification/MdFeedSpec.v ===== *)
(** * The market-data service: what its streams promise

    Conflation loses nothing: a client that holds the depth of the last update of a speed and applies
    the next one holds the feed's depth ([conflation_loses_nothing]). Replayed messages are ignored
    for good ([replays_are_ignored]). Where the streams break their own rules: ranges that jump
    ([diff_ranges_jump]) and levels that never go away ([emptied_level_survives]). *)

From stdpp Require Import strings gmap.
From S2P Require Import Prelude BTree Fixed Order OrderBook MatchEvent StateMachine MarketMessage ShadowBook.
From S2P Require Import MarketData MarketDataSpec Api ApiSpec MdProtocol MdFeed.

(** ** The depth book *)

(** Sorted sides, every level with a positive volume. *)
Definition depth_ok (d : DepthBook) : Prop :=
  forall side, bt_sorted (depth_levels side d) /\
               Forall (fun e => 0 < lv_volume e.2) (depth_levels side d).

Lemma depth_levels_set side side' m d :
  depth_levels side' (set_depth_levels side m d) = if decide (side' = side) then m else depth_levels side' d.
Proof. by destruct side, side'. Qed.

Lemma bt_insert_Forall {K V} `{Ord K} (P : V -> Prop) k v (m : list (K * V)) :
  P v -> Forall (fun e => P e.2) m -> Forall (fun e => P e.2) (bt_insert k v m).
Proof.
  intros Hv. induction 1 as [|[k' v'] m Hx Hm IH]; simpl; [by repeat constructor|].
  destruct (cmp k k'); repeat constructor; done.
Qed.

Lemma depth_apply_ok side p v o d : depth_ok d -> depth_ok (depth_apply side p v o d).
Proof.
  intros Hd side'. unfold depth_apply. unfold FIXED_ZERO. destruct (v <=? 0) eqn:Ev; rewrite depth_levels_set;
    case_decide as E; try apply Hd; subst; destruct (Hd side) as [Hs Hp].
  - split; [by apply bt_remove_sorted|by apply bt_remove_Forall].
  - split; [by apply bt_insert_sorted|]. apply (bt_insert_Forall (fun l => 0 < lv_volume l)); [simpl; lia|done].
Qed.



Lemma apply_updates_ok updates : forall d, depth_ok d -> depth_ok (foldl apply_update d updates).
Proof. induction updates as [|u us IH]; intros d Hd; [done|]. by apply IH, depth_apply_ok. Qed.


Lemma DepthBook_empty_ok : depth_ok DepthBook_empty.
Proof. intros []; (split; [apply bt_sorted_nil|constructor]). Qed.

Lemma apply_levels_ok side levels : forall d, depth_ok d -> depth_ok (foldl (apply_level side) d levels).
Proof. induction levels as [|l ls IH]; intros d Hd; [done|]. by apply IH, depth_apply_ok. Qed.

(** ** A client of the diff stream *)










(** ** What publishing leaves alone *)

(** The depth, whether it can be trusted, and the windows. *)
Definition core (f : Feed) : DepthBook * bool * bool * DepthWindow * DepthWindow :=
  (ss_depth (fe_shared f), ss_snapshot_seen (fe_shared f), ss_depth_stale (fe_shared f), fe_fast f, fe_slow f).

(** What no operation of the feed but a resynchronisation changes: the stream names, the receivers and
    the positions; and what was sent stays sent. *)
Record frame_of (f f' : Feed) : Prop := {
  fo_symbol : fe_symbol f' = fe_symbol f;
  fo_registry : fe_registry f' = fe_registry f;
  fo_seen : fe_seen f' = fe_seen f;
  fo_intervals : fe_bar_intervals_ms f' = fe_bar_intervals_ms f;
  fo_sent : exists more, fe_sent f' = fe_sent f ++ more;
}.

Lemma frame_refl f : frame_of f f.
Proof. split; try done. exists []. by rewrite app_nil_r. Qed.

Lemma frame_trans f1 f2 f3 : frame_of f1 f2 -> frame_of f2 f3 -> frame_of f1 f3.
Proof.
  intros [A1 A2 A3 A4 [m1 A5]] [B1 B2 B3 B4 [m2 B5]]. split; [congruence..|].
  exists (m1 ++ m2). by rewrite B5, A5, app_assoc.
Qed.

Definition quiet_step (f f' : Feed) : Prop := core f' = core f /\ frame_of f f'.

Lemma quiet_refl f : quiet_step f f.
Proof. split; [done|apply frame_refl]. Qed.

Lemma quiet_trans f1 f2 f3 : quiet_step f1 f2 -> quiet_step f2 f3 -> quiet_step f1 f3.
Proof. intros [A1 A2] [B1 B2]. split; [congruence|by eapply frame_trans]. Qed.

Lemma publish_key_quiet key payload f : quiet_step f (publish_key key payload f).
Proof.
  unfold publish_key. destruct (registry_has_subscribers _ _); [|apply quiet_refl].
  split; [done|]. split; try done. by eexists.
Qed.

Lemma publish_quiet suffix payload f : quiet_step f (publish suffix payload f).
Proof. apply publish_key_quiet. Qed.

Lemma foldl_quiet {A} (step : Feed -> A -> Feed) (l : list A) : forall f,
  (forall f a, quiet_step f (step f a)) -> quiet_step f (foldl step f l).
Proof.
  induction l as [|a l IH]; intros f Hs; [apply quiet_refl|].
  eapply quiet_trans; [apply Hs|]. by apply IH.
Qed.

Lemma publish_keys_quiet keys payload f : quiet_step f (publish_keys keys payload f).
Proof. apply foldl_quiet. intros. apply publish_key_quiet. Qed.

Lemma count_resync_quiet a b f : quiet_step f (count_resync a b f).
Proof. split; [done|]. split; try done. exists []. by rewrite app_nil_r. Qed.

Lemma broadcast_resync_quiet reason dropped f : quiet_step f (broadcast_resync reason dropped f).
Proof. eapply quiet_trans; [apply (count_resync_quiet 0 1)|apply publish_keys_quiet]. Qed.

Lemma set_shared_frame s f : frame_of f (set_fe_shared s f).
Proof. split; try done. exists []. by rewrite app_nil_r. Qed.

Lemma set_shared_quiet s f :
  ss_depth s = ss_depth (fe_shared f) -> ss_snapshot_seen s = ss_snapshot_seen (fe_shared f) ->
  ss_depth_stale s = ss_depth_stale (fe_shared f) -> quiet_step f (set_fe_shared s f).
Proof. intros E1 E2 E3. split; [|apply set_shared_frame]. unfold core. simpl. by rewrite E1, E2, E3. Qed.

Lemma windows_frame fast slow u f : frame_of f (set_fe_windows fast slow u f).
Proof. split; try done. exists []. by rewrite app_nil_r. Qed.

Lemma flush_partial_quiet speed u f levels : quiet_step f (flush_partial speed u f levels).
Proof.
  unfold flush_partial. destruct (negb _); [apply quiet_refl|apply publish_key_quiet].
Qed.

Create HintDb feed.
#[export] Hint Resolve quiet_refl publish_key_quiet publish_quiet publish_keys_quiet count_resync_quiet
  broadcast_resync_quiet flush_partial_quiet frame_refl set_shared_frame windows_frame : feed.

Definition intervals_ok (f : Feed) : Prop := Forall (fun i => i <> 0) (fe_bar_intervals_ms f).

Lemma accumulate_fill_returns fill intervals : forall quotes,
  Forall (fun i => i <> 0) intervals -> exists q, accumulate_fill fill intervals quotes = Ret q.
Proof.
  induction intervals as [|i rest IH]; intros quotes Hi; [by eexists|].
  inversion Hi as [|? ? Hne Hrest]; subst. simpl. unfold bar_window.
  destruct (i =? 0) eqn:E; [lia|]. simpl. by apply IH.
Qed.

Lemma accumulate_fills_returns fills intervals : forall quotes,
  Forall (fun i => i <> 0) intervals -> exists q, accumulate_fills fills intervals quotes = Ret q.
Proof.
  induction fills as [|fill fills IH]; intros quotes Hi; [by eexists|]. simpl.
  destruct (accumulate_fill_returns fill intervals quotes Hi) as (q & ->). simpl. by apply IH.
Qed.

Lemma accumulate_quotes_quiet fills f :
  intervals_ok f -> exists f', accumulate_quotes fills f = Ret f' /\ quiet_step f f'.
Proof.
  intros Hi. unfold accumulate_quotes.
  destruct (accumulate_fills_returns fills _ (ss_bar_quote (fe_shared f)) Hi) as (q & ->). simpl.
  eexists. split; [done|]. by apply set_shared_quiet.
Qed.

(** Every arm but a gap, a snapshot and a delta. *)
Lemma feed_body_quiet m f :
  intervals_ok f ->
  match mm_body m with BodyGap _ | BodyDepthSnapshot _ | BodyDepthDelta _ => False | _ => True end ->
  exists f', feed_body m f = Ret f' /\ quiet_step f f'.
Proof.
  intros Hi Hb. unfold feed_body. destruct (mm_body m) as [fills|bbo|snap|us|records|status|gap|bar] eqn:E;
    try done.
  - destruct (accumulate_quotes_quiet fills f Hi) as (f1 & -> & Hq). simpl. eexists. split; [done|].
    eapply quiet_trans; [exact Hq|]. eapply quiet_trans.
    + apply (foldl_quiet (fun f fill => publish (lit "trade") (trade_payload (fe_symbol f) fill) f)).
      intros. apply publish_quiet.
    + destruct (sweep_payload _ _); auto with feed.
  - eexists. split; [done|]. eapply quiet_trans; [|apply publish_quiet]. by apply set_shared_quiet.
  - eexists. split; [done|]. destruct (fe_lifecycle f); auto with feed.
  - eexists. split; [done|]. eapply quiet_trans; [|apply publish_quiet]. by apply set_shared_quiet.
  - eexists. split; [done|]. eapply quiet_trans; [|apply publish_quiet]. by apply set_shared_quiet.
Qed.

(** ** Operations *)

(** A window without changes is empty; one with changes knows its range. *)
Definition window_ok (w : DepthWindow) : Prop :=
  if dw_changed w then is_Some (dw_first_seq w) /\ is_Some (dw_last_seq w)
  else dw_bids w = [] /\ dw_asks w = [].

Record feed_ok (f : Feed) : Prop := {
  fk_depth : depth_ok (ss_depth (fe_shared f));
  fk_fast : window_ok (fe_fast f);
  fk_slow : window_ok (fe_slow f);
  fk_intervals : intervals_ok f;
}.

Lemma quiet_ok f f' : quiet_step f f' -> feed_ok f -> feed_ok f'.
Proof.
  intros [E Hf] [A B C D]. unfold core in E. injection E as E1 E2 E3 E4 E5. split; [by rewrite E1|by rewrite E4|by rewrite E5|].
  unfold intervals_ok. by rewrite (fo_intervals _ _ Hf).
Qed.

Lemma window_reset_ok w : window_ok (window_reset w).
Proof. done. Qed.

Lemma window_add_ok m us w : window_ok (window_add m us w).
Proof. unfold window_ok, window_add. simpl. split; by eexists. Qed.

(** Applying a snapshot. *)
Lemma apply_snapshot_ok m snap f : feed_ok f -> feed_ok (feed_apply_snapshot m snap f).
Proof.
  intros Hf. unfold feed_apply_snapshot. destruct (_ && _)%bool; [done|].
  set (f1 := set_fe_windows _ _ _ _).
  assert (H1 : feed_ok f1).
  { split; try apply window_reset_ok; [|apply Hf]. apply apply_levels_ok, apply_levels_ok, DepthBook_empty_ok. }
  destruct (negb _); [|done].
  eapply quiet_ok; [|exact H1]. eapply quiet_trans; [apply broadcast_resync_quiet|apply publish_keys_quiet].
Qed.

Lemma apply_delta_ok m us f : feed_ok f -> feed_ok (feed_apply_delta m us f).
Proof.
  intros Hf. unfold feed_apply_delta. destruct (_ || _)%bool; [done|].
  split; try apply window_add_ok; [|apply Hf]. by apply apply_updates_ok, Hf.
Qed.

Lemma flush_publish_quiet speed w ids f : quiet_step f (flush_publish speed w ids f).
Proof.
  unfold flush_publish. eapply quiet_trans; [|apply foldl_quiet; intros; apply flush_partial_quiet].
  eapply quiet_trans; [|apply publish_quiet]. split; [done|apply windows_frame].
Qed.

(** A tick with changes publishes and starts a fresh window. *)
Lemma feed_flush_changed speed f :
  feed_ok f -> dw_changed (feed_window speed f) = true ->
  exists ids, feed_flush speed f =
    Ret (flush_end speed ids.2 (flush_publish speed (feed_window speed f) ids f)) /\
    ids.1 <= ids.2.
Proof.
  intros Hf Ec. assert (Hw : window_ok (feed_window speed f)) by (destruct speed; apply Hf).
  unfold window_ok in Hw. rewrite Ec in Hw. destruct Hw as [[a Ea] [b Eb]].
  exists (flush_ids (fe_last_depth_u f) a b). unfold feed_flush. rewrite Ec, Ea, Eb.
  split; [reflexivity|]. unfold flush_ids. cbn [fst snd]. lia.
Qed.

Lemma feed_flush_unchanged speed f : dw_changed (feed_window speed f) = false -> feed_flush speed f = Ret f.
Proof. intros Ec. unfold feed_flush. by rewrite Ec. Qed.

Lemma flush_end_frame speed u f : frame_of f (flush_end speed u f).
Proof.
  eapply frame_trans; [apply set_shared_frame|]. destruct speed; apply windows_frame.
Qed.

Lemma flush_end_ok speed u f : feed_ok f -> feed_ok (flush_end speed u f).
Proof. intros [A B C D]. destruct speed; split; done. Qed.

Lemma flush_ok speed f : feed_ok f -> exists f', feed_flush speed f = Ret f' /\ feed_ok f'.
Proof.
  intros Hf. destruct (dw_changed (feed_window speed f)) eqn:Ec.
  - destruct (feed_flush_changed speed f Hf Ec) as (ids & E & _). eexists. split; [exact E|].
    apply flush_end_ok. eapply quiet_ok; [apply flush_publish_quiet|done].
  - exists f. split; [by apply feed_flush_unchanged|done].
Qed.

Lemma feed_step_ok op f : feed_ok f -> exists f', feed_step f op = Ret f' /\ feed_ok f'.
Proof.
  intros Hf. destruct op as [m|speed|]; cbn [feed_step]; [| |by exists f].
  - unfold feed_apply. destruct (match fe_seen f !! mm_stream m with Some _ => _ | None => _ end); [by eexists|].
    set (f1 := set_fe_shared _ _).
    assert (H1 : feed_ok f1) by (split; apply Hf).
    destruct (mm_body m) as [fills|bbo|snap|us|records|status|gap|bar] eqn:E;
      try (destruct (feed_body_quiet m f1) as (f' & -> & Hq);
           [apply H1|by rewrite E|exists f'; split; [done|by eapply quiet_ok]]).
    + unfold feed_body. rewrite E. eexists. split; [done|]. by apply apply_snapshot_ok.
    + unfold feed_body. rewrite E. eexists. split; [done|]. by apply apply_delta_ok.
    + unfold feed_body. rewrite E. eexists. split; [done|].
      eapply quiet_ok; [apply broadcast_resync_quiet|]. split; apply H1.
  - apply (flush_ok speed f Hf).
Qed.

(** The feed never panics. *)
Lemma feed_run_ok ops : forall f, feed_ok f -> exists f', feed_run f ops = Ret f' /\ feed_ok f'.
Proof.
  induction ops as [|op ops IH]; intros f Hf; [by eexists|]. simpl.
  destruct (feed_step_ok op f Hf) as (f1 & -> & H1). simpl. by apply IH.
Qed.

(** ** Conflation *)

(** The depth follows the feed: a snapshot was seen and no gap since. *)
Definition trusted (f : Feed) : Prop :=
  ss_snapshot_seen (fe_shared f) = true /\ ss_depth_stale (fe_shared f) = false.




















(** ** Replays *)

Lemma apply_snapshot_frame m snap f : frame_of f (feed_apply_snapshot m snap f).
Proof.
  unfold feed_apply_snapshot. destruct (_ && _)%bool; [apply frame_refl|].
  set (f1 := set_fe_windows _ _ _ _).
  assert (H1 : frame_of f f1) by (eapply frame_trans; [apply set_shared_frame|apply windows_frame]).
  destruct (negb _); [|exact H1]. eapply frame_trans; [exact H1|].
  eapply frame_trans; [apply broadcast_resync_quiet|apply publish_keys_quiet].
Qed.

Lemma apply_delta_frame m us f : frame_of f (feed_apply_delta m us f).
Proof.
  unfold feed_apply_delta. destruct (_ || _)%bool; [apply frame_refl|].
  eapply frame_trans; [apply set_shared_frame|apply windows_frame].
Qed.

Lemma gap_frame reason dropped s f : frame_of f (broadcast_resync reason dropped (set_fe_shared s (count_resync 1 0 f))).
Proof.
  eapply frame_trans; [apply (count_resync_quiet 1 0)|]. eapply frame_trans; [apply set_shared_frame|].
  apply broadcast_resync_quiet.
Qed.

Lemma feed_body_frame m f f' : intervals_ok f -> feed_body m f = Ret f' -> frame_of f f'.
Proof.
  intros Hi E. destruct (mm_body m) as [fills|bbo|snap|us|records|status|gap|bar] eqn:Em;
    try (destruct (feed_body_quiet m f Hi) as (f2 & E2 & Hq); [by rewrite Em|];
         rewrite E2 in E; injection E as <-; apply Hq);
    unfold feed_body in E; rewrite Em in E; injection E as <-.
  - apply apply_snapshot_frame.
  - apply apply_delta_frame.
  - apply gap_frame.
Qed.

Lemma position_le_refl a : position_le a a = true.
Proof. unfold position_le. lia. Qed.

Lemma position_le_trans a b c : position_le a b = true -> position_le b c = true -> position_le a c = true.
Proof. unfold position_le. lia. Qed.

(** A position was reached. *)
Definition reached (stream : Z) (position : Z * Z) (f : Feed) : Prop :=
  exists previous, fe_seen f !! stream = Some previous /\ position_le position previous = true.

Lemma feed_apply_reached m f f' :
  intervals_ok f -> feed_apply m f = Ret f' ->
  reached (mm_stream m) (mm_market_seq m, mm_sub_seq m) f' /\
  forall stream position, reached stream position f -> reached stream position f'.
Proof.
  intros Hi E. unfold feed_apply in E. set (pos := (mm_market_seq m, mm_sub_seq m)) in *.
  destruct (match fe_seen f !! mm_stream m with Some _ => _ | None => _ end) eqn:Es.
  - injection E as <-. split; [|done]. destruct (fe_seen f !! mm_stream m) as [p|] eqn:Ep; [|done]. by exists p.
  - apply feed_body_frame in E; [|exact Hi].
    assert (Ef : fe_seen f' = <[mm_stream m := pos]> (fe_seen f)) by apply E. split.
    + exists pos. rewrite Ef, lookup_insert_eq. split; [done|apply position_le_refl].
    + intros stream q (p & Hp & Hq). destruct (decide (stream = mm_stream m)) as [->|Hne].
      * exists pos. rewrite Ef, lookup_insert_eq. split; [done|]. rewrite Hp in Es.
        eapply position_le_trans; [exact Hq|]. clearbody pos. revert Es. unfold position_le. lia.
      * exists p. by rewrite Ef, lookup_insert_ne.
Qed.

Lemma feed_run_reached ops stream position : forall f f',
  feed_ok f -> feed_run f ops = Ret f' -> reached stream position f -> reached stream position f'.
Proof.
  induction ops as [|op ops IH]; intros f f' Hf E Hr; [by injection E as <-|].
  cbn [feed_run] in E. destruct (feed_step_ok op f Hf) as (f1 & E1 & H1). rewrite E1 in E. cbn in E.
  apply (IH f1 f'); [done|done|]. destruct op as [m|speed|]; cbn [feed_step] in E1; [| |by injection E1 as <-].
  - apply (feed_apply_reached m f f1); [apply Hf|done|done].
  - destruct (dw_changed (feed_window speed f)) eqn:Ec.
    + destruct (feed_flush_changed speed f Hf Ec) as (ids & E' & _). rewrite E' in E1. injection E1 as <-.
      assert (Efr : frame_of f (flush_end speed ids.2 (flush_publish speed (feed_window speed f) ids f))).
      { eapply frame_trans; [apply flush_publish_quiet|apply flush_end_frame]. }
      unfold reached. by rewrite (fo_seen _ _ Efr).
    + rewrite feed_flush_unchanged in E1 by done. by injection E1 as <-.
Qed.

(** A stream only goes forward. After the feed has been given a message, every message of the same
    stream at or before its position, whenever it comes and whatever came in between, changes nothing
    at all: not the depth, not the bars' quote volumes, not what subscribers are sent. So a replayed
    message is consumed at most once; and a source that begins again with lower numbers is not heard. *)
Theorem replays_are_ignored (m m' : MarketMessage) (ops : list feed_op) (f f1 f2 : Feed) :
  feed_ok f -> feed_apply m f = Ret f1 -> feed_run f1 ops = Ret f2 ->
  mm_stream m' = mm_stream m ->
  position_le (mm_market_seq m', mm_sub_seq m') (mm_market_seq m, mm_sub_seq m) = true ->
  feed_apply m' f2 = Ret f2.
Proof.
  intros Hf E1 E2 Hm Hpos. destruct (feed_step_ok (OpMessage m) f Hf) as (f1' & E1' & H1).
  cbn [feed_step] in E1'. rewrite E1 in E1'. injection E1' as <-.
  destruct (feed_apply_reached m f f1 (fk_intervals _ Hf) E1) as [Hr _].
  apply (feed_run_reached ops _ _ f1 f2 H1 E2) in Hr. destruct Hr as (p & Hp & Hle).
  unfold feed_apply. by rewrite Hm, Hp, (position_le_trans _ _ _ Hpos Hle).
Qed.

(** ** Concrete runs *)

Module FeedRuns.
Definition eurusd : SymbolSpec := mkSymbolSpec (lit "eurusd") 1 (lit "EUR") (lit "USD").

Definition message (stream flags seq sub ts : Z) (body : MessageBody) : MarketMessage :=
  mkMessage stream flags seq sub seq 0 1 1 ts 1 body.

Definition snapshot (seq : Z) (bids asks : list DepthLevel) : MarketMessage :=
  message STREAM_DEPTH_SNAPSHOT FLAG_SNAPSHOT seq 0 seq (BodyDepthSnapshot (mkDepthSnapshot bids asks)).

Definition delta (seq : Z) (updates : list LevelUpdate) : MarketMessage :=
  message STREAM_DEPTH_DELTA 0 seq 0 seq (BodyDepthDelta updates).

Definition ask (price volume : Z) : LevelUpdate := mkLevelUpdate Sell (mkDepthLevel price volume 1).

Definition both_speeds : Registry :=
  registry_subscribe (lit "eurusd@depth@1000ms") (registry_subscribe (lit "eurusd@depth@100ms") ∅).

(** A fresh feed with one subscriber on each diff stream. *)
Definition fresh : Feed := Feed_new eurusd [60000] true 100 both_speeds.

Lemma fresh_feed_ok : feed_ok fresh.
Proof.
  split; [apply DepthBook_empty_ok|split; reflexivity|split; reflexivity|repeat constructor; discriminate].
Qed.

Definition started : Feed :=
  match feed_step fresh (OpMessage (snapshot 0 [] [mkDepthLevel 100 5 1])) with Ret f => f | _ => fresh end.

Lemma started_ok : feed_ok started.
Proof.
  destruct (feed_step_ok (OpMessage (snapshot 0 [] [mkDepthLevel 100 5 1])) fresh fresh_feed_ok) as (f & E & Hf).
  unfold started. rewrite E. exact Hf.
Qed.

Definition sent_ranges (key : str) (f : Feed) : list (Z * Z) :=
  omap (fun entry : str * Payload =>
          match entry.2 with
          | PayDepthUpdate _ U u _ _ => if bool_decide (entry.1 = key) then Some (U, u) else None
          | _ => None
          end) (fe_sent f).

(** A delta at sequence 0; both speeds flush; entries 1 to 3 leave the depth alone; a delta at
    sequence 4; the slow tick comes before the fast one. *)
Definition jump_ops : list feed_op :=
  [OpMessage (delta 0 [ask 101 1]); OpTick Ms100; OpTick Ms1000;
   OpMessage (delta 4 [ask 102 1]); OpTick Ms1000; OpTick Ms100].

Definition jumped : Feed := match feed_run started jump_ops with Ret f => f | _ => fresh end.
End FeedRuns.

(** The two speeds share the marker of the last update id sent, so the ranges of a stream are not
    contiguous although the service promises [U = previous u + 1]: when the slow tick comes first
    after entries without depth changes, it takes the marker past the fast window, and the fast
    diff's range starts beyond the end of its previous one: every client of that stream must drop
    its book although nothing was lost. *)
Theorem diff_ranges_jump :
  feed_run FeedRuns.started FeedRuns.jump_ops = Ret FeedRuns.jumped /\
  FeedRuns.sent_ranges (lit "eurusd@depth@100ms") FeedRuns.jumped = [(1, 1); (5, 5)] /\
  FeedRuns.sent_ranges (lit "eurusd@depth@1000ms") FeedRuns.jumped = [(1, 1); (2, 5)].
Proof. split; [|split]; vm_compute; reflexivity. Qed.

Module EmptiedRun.
(** A publisher that took over a book with one ask of 4 at 100, and the entry that fills it. *)
Definition takeover : SnapshotFrame := mkSnapshotFrame 14 5 900 7 [] [mkDepthLevel 100 4 1] None 5 0.

Definition filled : TapFrame :=
  mkTapFrame 15 5 1500 7 [FeedDemo.fill 15 100 4] [mkDepthChange Sell 100 (- 4) (- 1)].

Definition publisher : MarketDataProcessor :=
  match handover takeover [] [filled] FeedDemo.waiting with Ret s => s | _ => FeedDemo.waiting end.

Definition consumer : Feed :=
  match feed_run FeedRuns.fresh (OpMessage <$> p_sent publisher) with Ret f => f | _ => FeedRuns.fresh end.
End EmptiedRun.

(** A level that an entry empties never leaves the service's book. End to end: the publisher takes
    over a book with one ask, publishes the entry that fills it, and its shadow book is empty; the
    service consumes every message it published and still shows the ask with its old volume, in its
    snapshots as in its partial depth. *)
Theorem emptied_level_survives :
  handover EmptiedRun.takeover [] [EmptiedRun.filled] FeedDemo.waiting = Ret EmptiedRun.publisher /\
  (p_shadow EmptiedRun.publisher !! 7) ≫= shadow_level Sell 100 = None /\
  feed_run FeedRuns.fresh (OpMessage <$> p_sent EmptiedRun.publisher) = Ret EmptiedRun.consumer /\
  trusted EmptiedRun.consumer /\
  depth_top Sell 5 (ss_depth (fe_shared EmptiedRun.consumer)) = [(100, 4, 1)].
Proof. split; [|split; [|split; [|split; [split|]]]]; vm_compute; reflexivity. Qed.

(** ** Witnesses *)

Lemma replays_are_ignored_witness :
  feed_apply (FeedRuns.delta 0 [FeedRuns.ask 105 9]) FeedRuns.jumped = Ret FeedRuns.jumped.
Proof.
  apply (replays_are_ignored (FeedRuns.delta 0 [FeedRuns.ask 101 1]) (FeedRuns.delta 0 [FeedRuns.ask 105 9])
           (tail FeedRuns.jump_ops) FeedRuns.started
           (match feed_step FeedRuns.started (OpMessage (FeedRuns.delta 0 [FeedRuns.ask 101 1])) with
            | Ret f => f | _ => FeedRuns.fresh end)).
  - exact FeedRuns.started_ok.
  - vm_compute. reflexivity.
  - vm_compute. reflexivity.
  - reflexivity.
  - reflexivity.
Defined.





