(* ===== verification/MdStreamSpec.v ===== *)
(** * The names of the streams of the market-data service

    The names the feed publishes on parse back to their streams under the key it publishes with; the
    other spellings of an interval that the parser accepts are keys nothing is ever published on. *)

From stdpp Require Import strings gmap.
From S2P Require Import Prelude BTree Fixed Order OrderBook MatchEvent MarketMessage Api ApiSpec MdProtocol MdFeed MdFeedSpec.

(** ** Texts *)

Lemma starts_with_app prefix s : starts_with prefix (prefix ++ s) = true.
Proof. unfold starts_with. apply bool_decide_eq_true. by rewrite take_app_length. Qed.

Lemma strip_prefix_app prefix s : strip_str_prefix prefix (prefix ++ s) = Some s.
Proof. unfold strip_str_prefix. by rewrite starts_with_app, drop_app_length. Qed.

Lemma strip_prefix_Some prefix s r : strip_str_prefix prefix s = Some r -> s = prefix ++ r.
Proof.
  unfold strip_str_prefix, starts_with. case_bool_decide as E; [|done]. intros [= <-].
  rewrite <- E at 1. by rewrite take_drop.
Qed.

Lemma strip_suffix_app suffix s : strip_suffix suffix (s ++ suffix) = Some s.
Proof. unfold strip_suffix. by rewrite reverse_app, strip_prefix_app, reverse_involutive. Qed.

Lemma strip_suffix_Some suffix s r : strip_suffix suffix s = Some r -> s = r ++ suffix.
Proof.
  unfold strip_suffix. destruct (strip_str_prefix _ _) as [q|] eqn:E; [|done]. intros [= <-].
  apply strip_prefix_Some in E. apply (f_equal reverse) in E. by rewrite reverse_involutive, reverse_app, reverse_involutive in E.
Qed.

(** A character is not in a concrete text. *)
Ltac refute_in Hin :=
  repeat (apply elem_of_cons in Hin as [?|Hin]; [discriminate|]); by apply not_elem_of_nil in Hin.
Ltac not_in_text := vm_compute; let Hin := fresh "Hin" in intros Hin; refute_in Hin.

(** ** Intervals *)

Lemma label_table_parses label ms :
  (label, ms) ∈ KLINE_LABELS -> parse_kline_interval label = Some ms /\ kline_label ms = label
  /\ strip_suffix (lit "ms") label = None /\ CH_AT ∉ label.
Proof.
  assert (H : Forall (fun entry => parse_kline_interval entry.1 = Some entry.2 /\ kline_label entry.2 = entry.1
            /\ strip_suffix (lit "ms") entry.1 = None /\ CH_AT ∉ entry.1) KLINE_LABELS).
  { repeat constructor; vm_compute; try reflexivity; intros Hin; refute_in Hin. }
  intros Hin. by apply (proj1 (Forall_forall _ _) H (label, ms)).
Qed.

(** A label that is not named is digits and a unit. *)
Lemma kline_label_cases ms :
  (kline_label ms, ms) ∈ KLINE_LABELS \/
  kline_label ms = show_u128 ms ++ lit "ms" /\ List.find (fun entry => entry.2 =? ms) KLINE_LABELS = None.
Proof.
  unfold kline_label. destruct (List.find _ KLINE_LABELS) as [[label m]|] eqn:E; [|by right].
  apply find_some in E as [Hin E]. simpl in E. apply Z.eqb_eq in E as ->. left. by apply list_elem_of_In.
Qed.

Lemma find_label_None label :
  strip_suffix (lit "ms") label <> None ->
  List.find (fun entry => bool_decide (entry.1 = label)) KLINE_LABELS = None.
Proof.
  intros Hs. destruct (List.find _ _) as [[l m]|] eqn:E; [|done].
  apply find_some in E as [Hin E]. apply bool_decide_eq_true in E. simpl in E. subst l.
  apply list_elem_of_In in Hin. by destruct (label_table_parses _ _ Hin) as (_ & _ & Hn & _).
Qed.

Lemma kline_label_parses ms : 0 <= ms <= U64_MAX -> parse_kline_interval (kline_label ms) = Some ms.
Proof.
  intros Hms. destruct (kline_label_cases ms) as [Hin|[-> _]]; [by apply label_table_parses|].
  unfold parse_kline_interval. rewrite find_label_None; rewrite strip_suffix_app; [|done].
  apply parse_unsigned_show; [done|]. unfold U64_MAX in Hms. lia.
Qed.

Lemma interval_no_at label ms : parse_kline_interval label = Some ms -> CH_AT ∉ label.
Proof.
  unfold parse_kline_interval. destruct (List.find _ _) as [[l m]|] eqn:E.
  - apply find_some in E as [Hin E]. apply bool_decide_eq_true in E. simpl in E. subst l.
    intros _. apply list_elem_of_In in Hin. by destruct (label_table_parses _ _ Hin) as (_ & _ & _ & Hn).
  - destruct (strip_suffix _ _) as [digits|] eqn:Es; [|done]. apply strip_suffix_Some in Es as ->.
    intros Hp Hin. apply elem_of_app in Hin as [Hin|Hin].
    + by destruct (parse_unsigned_chars _ _ _ _ Hp Hin).
    + vm_compute in Hin. refute_in Hin.
Qed.

(** ** Published names *)

(** The name the feed gives to a stream of its symbol. *)
Definition kind_stream (kind : StreamKind) : str :=
  match kind with
  | KindTrade => lit "trade"
  | KindSweep => lit "sweep"
  | KindBookTicker => lit "bookTicker"
  | KindDepthDiff speed => lit "depth@" ++ speed_label speed
  | KindDepthPartial levels speed => lit "depth" ++ show_u128 levels ++ lit "@" ++ speed_label speed
  | KindKline interval_ms => lit "kline_" ++ kline_label interval_ms
  | KindStatus => lit "status"
  | KindLifecycle => lit "lifecycle"
  end.

(** The streams a configuration serves. *)
Definition served (config : MdServiceConfig) (kind : StreamKind) : Prop :=
  match kind with
  | KindDepthPartial levels _ => levels = 5 \/ levels = 10 \/ levels = 20
  | KindKline interval_ms => 0 <= interval_ms <= U64_MAX
  | KindLifecycle => mc_lifecycle config = true
  | _ => True
  end.

Lemma parse_kline_rest config label :
  parse_kind config (lit "kline_" ++ label) = KindKline <$> parse_kline_interval label.
Proof.
  unfold parse_kind. rewrite !bool_decide_eq_false_2 by (vm_compute; congruence). cbn [andb].
  by rewrite strip_prefix_app.
Qed.

Lemma kind_stream_parses config kind : served config kind -> parse_kind config (kind_stream kind) = Some kind.
Proof.
  destruct kind as [| | |speed|levels speed|interval_ms| |]; intros H.
  - vm_compute; reflexivity.
  - vm_compute; reflexivity.
  - vm_compute; reflexivity.
  - destruct speed; vm_compute; reflexivity.
  - destruct H as [-> | [-> | ->]]; destruct speed; vm_compute; reflexivity.
  - cbn [kind_stream]. rewrite parse_kline_rest, kline_label_parses by done. done.
  - vm_compute; reflexivity.
  - unfold parse_kind. cbn [kind_stream]. simpl in H. rewrite H. vm_compute; reflexivity.
Qed.

(** Every stream the feed publishes can be subscribed by the name it is published under. For a
    configured symbol, in any spelling of its case, and every kind of stream the service has (every
    interval of a [u64] of milliseconds included), the name parses to that stream, and its key is the
    configured symbol with the name the feed gives the stream. *)
Theorem published_name_parses config name spec kind :
  config_symbol config name = Some spec -> CH_AT ∉ name -> served config kind ->
  parse_stream config (stream_key name (kind_stream kind))
  = Ok (mkStreamSpec (stream_key (sp_symbol spec) (kind_stream kind)) (sp_symbol spec) kind).
Proof.
  intros Hc Hat Hk. unfold parse_stream, stream_key. rewrite split_once_app, Hc by done.
  by rewrite kind_stream_parses.
Qed.

(** ** What the feed sends *)

(** The key of a payload: a published name, or a depth stream somebody registered. *)
Definition kind_typed (kind : StreamKind) : Prop :=
  match kind with KindKline interval_ms => 0 <= interval_ms <= U64_MAX | _ => True end.

Definition sent_ok (f : Feed) (entry : str * Payload) : Prop :=
  (exists kind, kind_typed kind /\ entry.1 = stream_key (sp_symbol (fe_symbol f)) (kind_stream kind))
  \/ str_contains (lit "@depth") entry.1 = true.

(** A step that keeps the symbol and sends under such keys. *)
Definition sends (f f' : Feed) : Prop :=
  fe_symbol f' = fe_symbol f /\ exists more, fe_sent f' = fe_sent f ++ more /\ Forall (sent_ok f) more.

Lemma sends_refl f f' : fe_symbol f' = fe_symbol f -> fe_sent f' = fe_sent f -> sends f f'.
Proof. intros E1 E2. split; [done|]. exists []. by rewrite E2, app_nil_r. Qed.

Lemma sends_trans f1 f2 f3 : sends f1 f2 -> sends f2 f3 -> sends f1 f3.
Proof.
  intros (E1 & m1 & S1 & F1) (E2 & m2 & S2 & F2). split; [congruence|].
  exists (m1 ++ m2). rewrite S2, S1, app_assoc. split; [done|]. apply Forall_app. split; [done|].
  eapply Forall_impl; [exact F2|]. intros entry. unfold sent_ok. by rewrite E1.
Qed.

Lemma publish_key_sends key payload f : sent_ok f (key, payload) -> sends f (publish_key key payload f).
Proof.
  intros H. unfold publish_key. destruct (registry_has_subscribers _ _); [|by apply sends_refl].
  split; [done|]. exists [(key, payload)]. split; [done|]. by constructor.
Qed.

Lemma publish_sends kind payload f : kind_typed kind -> sends f (publish (kind_stream kind) payload f).
Proof. intros H. apply publish_key_sends. left. by exists kind. Qed.

Lemma foldl_sends {A} (step : Feed -> A -> Feed) (P : A -> Prop) l f :
  (forall f a, P a -> sends f (step f a)) -> Forall P l -> sends f (foldl step f l).
Proof.
  intros Hs Hl. revert f. induction Hl as [|a l Ha Hl IH]; intros f; [by apply sends_refl|].
  simpl. by eapply sends_trans; [apply Hs|apply IH].
Qed.

Lemma publish_keys_sends keys payload f :
  Forall (fun key => str_contains (lit "@depth") key = true) keys -> sends f (publish_keys keys payload f).
Proof. intros H. eapply foldl_sends; [|exact H]. intros g key Hk. apply publish_key_sends. by right. Qed.

Lemma feed_depth_keys_contain f :
  Forall (fun key => str_contains (lit "@depth") key = true) (feed_depth_keys f).
Proof.
  apply Forall_forall. intros key Hin. unfold feed_depth_keys, registry_depth_keys in Hin.
  by apply list_elem_of_filter in Hin as [_ [? _]%list_elem_of_filter].
Qed.

Lemma broadcast_resync_sends reason dropped f : sends f (broadcast_resync reason dropped f).
Proof.
  unfold broadcast_resync. apply (sends_trans _ (count_resync 0 1 f)); [by apply sends_refl|].
  apply publish_keys_sends, feed_depth_keys_contain.
Qed.

Lemma accumulate_sends fills f f' : accumulate_quotes fills f = Ret f' -> sends f f'.
Proof.
  unfold accumulate_quotes. intros (quotes & _ & [= <-])%comp_bind_Ret. by apply sends_refl.
Qed.

Lemma apply_snapshot_sends m snapshot f : sends f (feed_apply_snapshot m snapshot f).
Proof.
  unfold feed_apply_snapshot. destruct (_ && _); [by apply sends_refl|]. cbv zeta.
  match goal with |- context [broadcast_resync _ _ ?g] => apply (sends_trans _ g); [by apply sends_refl|] end.
  destruct (negb (Z.land _ _ =? 0)); [|by apply sends_refl].
  match goal with |- sends ?g _ => apply (sends_trans _ (broadcast_resync (lit "reset") 0 g)) end.
  { apply broadcast_resync_sends. }
  apply publish_keys_sends, Forall_forall. intros key [_ Hin]%list_elem_of_filter.
  exact (proj1 (Forall_forall _ _) (feed_depth_keys_contain _) key Hin).
Qed.

Lemma feed_body_sends m f f' : body_typed (mm_body m) -> feed_body m f = Ret f' -> sends f f'.
Proof.
  unfold feed_body. intros Hm. destruct (mm_body m) as [fills|bbo|snap|us|records|status|gap|bar].
  - intros (f1 & E & [= <-])%comp_bind_Ret.
    eapply sends_trans; [by apply accumulate_sends with fills|]. clear f E.
    eapply sends_trans.
    + apply (foldl_sends (fun f fill => publish (lit "trade") (trade_payload (fe_symbol f) fill) f) (fun _ => True));
        [|by apply Forall_true]. intros g fill _. by apply (publish_sends KindTrade).
    + destruct (sweep_payload _ m); [by apply (publish_sends KindSweep)|by apply sends_refl].
  - intros [= <-]. eapply sends_trans; [|by apply (publish_sends KindBookTicker)]. by apply sends_refl.
  - intros [= <-]. apply apply_snapshot_sends.
  - intros [= <-]. unfold feed_apply_delta. case_match; by apply sends_refl.
  - intros [= <-]. destruct (fe_lifecycle f); [by apply (publish_sends KindLifecycle)|by apply sends_refl].
  - intros [= <-]. eapply sends_trans; [|by apply (publish_sends KindStatus)]. by apply sends_refl.
  - intros [= <-]. eapply sends_trans; [|by apply broadcast_resync_sends]. by apply sends_refl.
  - intros [= <-]. eapply sends_trans; [|apply (publish_sends (KindKline (bar_interval_ms bar)))].
    + by apply sends_refl.
    + by destruct Hm as [Hm _].
Qed.

Lemma feed_apply_sends m f f' : body_typed (mm_body m) -> feed_apply m f = Ret f' -> sends f f'.
Proof.
  intros Hm. unfold feed_apply. case_match; [by intros [= <-]; apply sends_refl|]. intros E%feed_body_sends; [|done].
  eapply sends_trans; [|exact E]. by apply sends_refl.
Qed.

Lemma flush_partial_sends speed id f levels :
  sends f (flush_partial speed id f levels).
Proof.
  unfold flush_partial. destruct (negb _); [by apply sends_refl|]. apply publish_key_sends.
  left. by exists (KindDepthPartial (Z.of_nat levels) speed).
Qed.

Lemma flush_publish_sends speed window ids f : sends f (flush_publish speed window ids f).
Proof.
  unfold flush_publish. set (g := set_fe_windows _ _ _ _). set (payload := PayDepthUpdate _ _ _ _ _).
  apply (sends_trans f g); [by apply sends_refl|]. clearbody g payload.
  eapply sends_trans; [apply (publish_sends (KindDepthDiff speed)); exact I|].
  cbn [kind_stream]. apply (foldl_sends _ (fun _ => True)); [|by apply Forall_true].
  intros h levels _. apply flush_partial_sends.
Qed.

Lemma flush_end_sends speed id f : sends f (flush_end speed id f).
Proof. destruct speed; by apply sends_refl. Qed.

Lemma feed_flush_sends speed f f' : feed_flush speed f = Ret f' -> sends f f'.
Proof.
  unfold feed_flush. destruct (negb _); [by intros [= <-]; apply sends_refl|].
  destruct (dw_first_seq _) as [first|]; [|done]. destruct (dw_last_seq _) as [last|]; [|done].
  generalize (flush_ids (fe_last_depth_u f) first last). intros ids [= <-]. eapply sends_trans; [apply flush_publish_sends|apply flush_end_sends].
Qed.

(** The fields of a message have the width of their types. *)
Definition op_typed (op : feed_op) : Prop :=
  match op with OpMessage m => body_typed (mm_body m) | _ => True end.

Lemma feed_run_sends ops f f' : Forall op_typed ops -> feed_run f ops = Ret f' -> sends f f'.
Proof.
  intros Hops. revert f. induction Hops as [|op ops Hop _ IH]; intros f; simpl; [by intros [= <-]; apply sends_refl|].
  intros (f1 & E & Hrest)%comp_bind_Ret. eapply sends_trans; [|by apply IH].
  destruct op; [by eapply feed_apply_sends|by eapply feed_flush_sends|injection E as <-; by apply sends_refl].
Qed.

(** ** Deaf names *)

Lemma str_contains_at sub a b :
  starts_with (CH_AT :: sub) (CH_AT :: b) = false -> CH_AT ∉ a -> CH_AT ∉ b ->
  str_contains (CH_AT :: sub) (a ++ CH_AT :: b) = false.
Proof.
  intros Hs Ha Hb.
  assert (Hnone : forall s, CH_AT ∉ s -> str_contains (CH_AT :: sub) s = false).
  { induction s as [|x s IH]; intros Hx; [done|]. apply not_elem_of_cons in Hx as [Hx Hr]. cbn [str_contains].
    rewrite IH by done. unfold starts_with. rewrite bool_decide_eq_false_2; [done|]. cbn [length take]. congruence. }
  induction a as [|x a IH]; cbn [app str_contains].
  - rewrite Hs, Hnone by done. done.
  - apply not_elem_of_cons in Ha as [Hx Ha]. rewrite IH by done.
    unfold starts_with. rewrite bool_decide_eq_false_2; [done|]. cbn [length take]. congruence.
Qed.

Lemma kline_stream_only kind :
  (exists ms, kind = KindKline ms /\ strip_str_prefix (lit "kline_") (kind_stream kind) = Some (kline_label ms))
  \/ strip_str_prefix (lit "kline_") (kind_stream kind) = None.
Proof.
  assert (H : forall c d p s, c <> d -> strip_str_prefix (c :: p) (d :: s) = None).
  { intros c d p s Hc. unfold strip_str_prefix, starts_with. rewrite bool_decide_eq_false_2; [done|]. cbn [length take]. congruence. }
  destruct kind as [| | |speed|levels speed|ms| |]; [right; by apply H..| |right; by apply H|right; by apply H].
  left. exists ms. split; [done|]. apply strip_prefix_app.
Qed.

(** Names of one symbol are equal when they are equal after the symbol. *)
Lemma stream_key_inj symbol a b : stream_key symbol a = stream_key symbol b -> a = b.
Proof. unfold stream_key. intros H. apply app_inv_head in H. congruence. Qed.

(** An interval has one name that works. The parser accepts every spelling of an interval (a named
    one in milliseconds, a plus sign, leading zeros) and the service answers its subscription, but the
    key keeps the spelling, while the feed publishes on the name of the interval: on any other name no
    payload is ever sent, whatever the feed goes through. *)
Theorem interval_alias_is_deaf symbol label ms f ops f' payload :
  parse_kline_interval label = Some ms -> label <> kline_label ms ->
  sp_symbol (fe_symbol f) = symbol -> CH_AT ∉ symbol -> fe_sent f = [] ->
  Forall op_typed ops -> feed_run f ops = Ret f' ->
  (stream_key symbol (lit "kline_" ++ label), payload) ∉ fe_sent f'.
Proof.
  intros Hp Hne Hsym Hat Hsent Hops Hrun Hin.
  destruct (feed_run_sends _ _ _ Hops Hrun) as (_ & more & E & Hall). rewrite Hsent in E. simpl in E. rewrite E in Hin.
  destruct (proj1 (Forall_forall _ _) Hall _ Hin) as [(kind & Ht & Hk)|Hc].
  - rewrite Hsym in Hk. apply stream_key_inj in Hk. apply (f_equal (strip_str_prefix (lit "kline_"))) in Hk.
    rewrite strip_prefix_app in Hk. destruct (kline_stream_only kind) as [(ms' & -> & Hs)|Hs]; rewrite Hs in Hk; [|done].
    injection Hk as ->. rewrite kline_label_parses in Hp by done. by injection Hp as ->.
  - apply interval_no_at in Hp. cbn [fst] in Hc. unfold stream_key in Hc.
    change (lit "@depth") with (CH_AT :: lit "depth") in Hc. rewrite str_contains_at in Hc; [done|done|done|].
    intros Hat'. apply elem_of_app in Hat' as [Hat'|Hat']; [|done].
    vm_compute in Hat'. refute_in Hat'.
Qed.

(** ** Concrete names *)

Module StreamRuns.
Definition config : MdServiceConfig := mkMdServiceConfig [FeedRuns.eurusd] true 8 64 50.

(** Somebody listens to the bars of a minute by their name and by two other spellings. *)
Definition listening : Registry :=
  registry_subscribe (lit "eurusd@kline_+60000ms")
    (registry_subscribe (lit "eurusd@kline_60000ms") (registry_subscribe (lit "eurusd@kline_1m") ∅)).

Definition minute : MarketMessage :=
  FeedRuns.message STREAM_BAR 0 7 0 60500 (BodyBar (mkBar 60000 60000 60500 100 101 99 100 5 2 1)).

Definition feed : Feed := Feed_new FeedRuns.eurusd [1000; 60000] true 50 listening.
End StreamRuns.

Lemma published_name_parses_witness :
  parse_stream StreamRuns.config (lit "EURUSD@kline_1m")
  = Ok (mkStreamSpec (lit "eurusd@kline_1m") (lit "eurusd") (KindKline 60000)).
Proof.
  apply (published_name_parses StreamRuns.config (lit "EURUSD") FeedRuns.eurusd (KindKline 60000)).
  - vm_compute. reflexivity.
  - not_in_text.
  - unfold served, U64_MAX. lia.
Defined.

Lemma interval_alias_is_deaf_witness :
  exists payload f',
    parse_stream StreamRuns.config (lit "eurusd@kline_+60000ms")
      = Ok (mkStreamSpec (lit "eurusd@kline_+60000ms") (lit "eurusd") (KindKline 60000))
    /\ feed_run StreamRuns.feed [OpMessage StreamRuns.minute] = Ret f'
    /\ fe_sent f' = [(lit "eurusd@kline_1m", payload)]
    /\ (lit "eurusd@kline_+60000ms", payload) ∉ fe_sent f'.
Proof.
  eexists _, _. split; [vm_compute; reflexivity|].
  split; [vm_compute; reflexivity|]. split; [vm_compute; reflexivity|].
  apply (interval_alias_is_deaf (lit "eurusd") (lit "+60000ms") 60000 StreamRuns.feed [OpMessage StreamRuns.minute]).
  - vm_compute. reflexivity.
  - vm_compute. congruence.
  - reflexivity.
  - not_in_text.
  - reflexivity.
  - constructor; [|constructor]. vm_compute. repeat split; congruence.
  - vm_compute. reflexivity.
Defined.
