(* ===== verification/MdSession.v ===== *)
(** * WebSocket sessions of the market-data service ([src/demos/market_data_system/src/session.rs])

    One connection: rate limit, subscriptions with their cached snapshots, the bounded queue to the
    writer, the forwarding of each stream and the loop that serves them. What the [select!] of [run]
    can wake on is an event, so that every interleaving of the client, the writer, the forwarding tasks
    and the other sessions is a list of events. Tasks and channels of tokio are the receivers of the
    registry and the results of a receive; serde's parsing of a control message is done by the caller,
    [None] being a text that does not parse. Instants are nanoseconds. *)

From stdpp Require Import strings gmap sorting.
From S2P Require Import Prelude BTree Fixed Order OrderBook MatchEvent MarketMessage Api Freeze MdProtocol MdFeed.

(** ** Control messages *)

Inductive ControlMessage : Type :=
| Subscribe (params : list str) (id : Z)
| Unsubscribe (params : list str) (id : Z)
| ListSubscriptions (id : Z).

(** What is written to the socket. *)
Inductive Frame : Type :=
| FrameError (code : Z) (id : option Z)
| FrameResult (id : Z)
| FrameList (id : Z) (streams : list str)
| FramePayload (stream : option str) (payload : Payload).

Inductive Outbound : Type := OutFrame (frame : Frame) | OutClose (code : Z).

Definition control_error (e : ProtocolError) (id : option Z) : Frame := FrameError (error_code e) id.

(** ** The rate limiter *)

Record RateLimiter : Type := mkLimiter { rl_limit : Z; rl_window : Z; rl_used : Z }.

Definition RateLimiter_new (limit now : Z) : RateLimiter := mkLimiter limit now 0.

Definition ONE_SECOND : Z := 1000000000.

Definition limiter_allow (now : Z) (l : RateLimiter) : bool * RateLimiter :=
  let l := if ONE_SECOND <=? now - rl_window l then mkLimiter (rl_limit l) now 0 else l in
  let l := mkLimiter (rl_limit l) (rl_window l) (Z.min (rl_used l + 1) U32_MAX) in
  (rl_used l <=? rl_limit l, l).

(** ** Sessions *)

Record SessionCtx : Type := mkSessionCtx {
  sx_config : MdServiceConfig;
  sx_runtime : str -> option (SymbolSpec * SharedState);
  sx_combined : bool;
}.

(** A subscription is the handle of its forwarding task; [true] while the task runs. *)
Record Session : Type := mkSession {
  sn_subscriptions : gmap str bool;
  sn_registry : Registry;
  sn_out : list Outbound;
  sn_limiter : RateLimiter;
  sn_slow_closes : Z;
}.

Definition set_sn_out (out : list Outbound) (s : Session) : Session :=
  mkSession (sn_subscriptions s) (sn_registry s) out (sn_limiter s) (sn_slow_closes s).
Definition set_sn_subs (subs : gmap str bool) (r : Registry) (s : Session) : Session :=
  mkSession subs r (sn_out s) (sn_limiter s) (sn_slow_closes s).
Definition set_sn_limiter (l : RateLimiter) (s : Session) : Session :=
  mkSession (sn_subscriptions s) (sn_registry s) (sn_out s) l (sn_slow_closes s).
Definition add_sn_slow (s : Session) : Session :=
  mkSession (sn_subscriptions s) (sn_registry s) (sn_out s) (sn_limiter s) (sn_slow_closes s + 1).

(** The queue to the writer, and [try_send]. *)
Definition out_capacity (ctx : SessionCtx) : nat := Nat.max 1 (mc_queue (sx_config ctx)).

Definition try_send (ctx : SessionCtx) (o : Outbound) (s : Session) : option Session :=
  if bool_decide (length (sn_out s) < out_capacity ctx)%nat then Some (set_sn_out (sn_out s ++ [o]) s) else None.

Definition send_control (ctx : SessionCtx) (frame : Frame) (s : Session) : Session :=
  default s (try_send ctx (OutFrame frame) s).

(** The raw and the combined form of a payload. *)
Definition frame_vec (combined : bool) (key : str) (payload : Payload) : Frame :=
  FramePayload (if combined then Some key else None) payload.

Definition snapshot_payload (state : SharedState) (kind : StreamKind) (snapshot_levels : nat) : option Payload :=
  match kind with
  | KindBookTicker => (fun bbo => PayTicker (ss_bbo_update_id state) (ss_last_ts_ms state) bbo) <$> ss_bbo state
  | KindDepthDiff _ =>
      Some (PayDepthSnapshot (ss_last_ts_ms state) (ss_last_update_id state)
              (depth_top Buy snapshot_levels (ss_depth state)) (depth_top Sell snapshot_levels (ss_depth state)))
  | KindDepthPartial levels _ =>
      Some (PayDepthPartial (ss_last_update_id state)
              (depth_top Buy (Z.to_nat levels) (ss_depth state)) (depth_top Sell (Z.to_nat levels) (ss_depth state)))
  | KindKline interval_ms =>
      (fun bar => kline_payload bar (quote_volume bar state) (ss_last_ts_ms state) false) <$>
      ss_bars state !! interval_ms
  | KindTrade | KindSweep | KindStatus | KindLifecycle => None
  end.

(** Dropping the receiver of a subscription, then pruning its entry. *)
Definition guard_drop (key : str) (r : Registry) : Registry :=
  registry_remove_if_unused key (<[key := Nat.pred (default 0%nat (r !! key))]> r).

Section Sessions.
(** [str::to_lowercase], whose Unicode tables are the standard library's. *)
Variable to_lowercase : str -> str.
Variable ctx : SessionCtx.

Definition subscribe (name : str) (s : Session) : Result unit ProtocolError * Session :=
  match parse_stream (sx_config ctx) name with
  | Err e => (Err e, s)
  | Ok spec =>
      match sx_runtime ctx (to_lowercase (ss_symbol spec)) with
      | None => (Err UnknownSymbol, s)
      | Some (_, state) =>
          let key := ss_key spec in
          if bool_decide (is_Some (sn_subscriptions s !! key)) then (Ok (), s)
          else if bool_decide (mc_max_streams (sx_config ctx) <= size (sn_subscriptions s))%nat
          then (Err SubscriptionLimit, s)
          else
            let r := registry_subscribe key (sn_registry s) in
            let snapshot := snapshot_payload state (ss_kind spec) (mc_snapshot_levels (sx_config ctx)) in
            match (match snapshot with
                   | Some payload => try_send ctx (OutFrame (frame_vec (sx_combined ctx) key payload)) s
                   | None => Some s
                   end) with
            | None => (Err QueueFull, set_sn_subs (sn_subscriptions s) (guard_drop key r) s)
            | Some s => (Ok (), set_sn_subs (<[key := true]> (sn_subscriptions s)) r s)
            end
      end
  end.

(** The names of one request, up to the first that fails. *)
Fixpoint subscribe_all (names : list str) (s : Session) : Result unit ProtocolError * Session :=
  match names with
  | [] => (Ok (), s)
  | name :: names =>
      let '(res, s) := subscribe name s in
      match res with Ok _ => subscribe_all names s | Err e => (Err e, s) end
  end.

(** Aborting a task drops its guard; aborting one that has ended does nothing. *)
Definition abort_task (key : str) (running : bool) (r : Registry) : Registry :=
  if running then guard_drop key r else r.

Definition unsubscribe (s : Session) (name : str) : Session :=
  let key := match parse_stream (sx_config ctx) name with Ok spec => ss_key spec | Err _ => name end in
  match sn_subscriptions s !! key with
  | Some running =>
      set_sn_subs (delete key (sn_subscriptions s)) (abort_task key running (sn_registry s)) s
  | None => s
  end.

Definition str_le (a b : str) : Prop := str_cmp a b <> Gt.
#[local] Instance str_le_dec a b : Decision (str_le a b).
Proof. unfold str_le. apply _. Defined.

Definition handle_control (now : Z) (text : option ControlMessage) (s : Session) : Session :=
  let '(allowed, l) := limiter_allow now (sn_limiter s) in
  let s := set_sn_limiter l s in
  if negb allowed then send_control ctx (control_error TooManyControls None) s
  else
    match text with
    | None => send_control ctx (control_error InvalidRequest None) s
    | Some (Subscribe params id) =>
        if bool_decide (mc_max_streams (sx_config ctx) < size (sn_subscriptions s) + length params)%nat
        then send_control ctx (control_error SubscriptionLimit (Some id)) s
        else
          let '(res, s) := subscribe_all params s in
          match res with
          | Ok _ => send_control ctx (FrameResult id) s
          | Err e => send_control ctx (control_error e (Some id)) s
          end
    | Some (Unsubscribe params id) => send_control ctx (FrameResult id) (foldl unsubscribe s params)
    | Some (ListSubscriptions id) =>
        send_control ctx (FrameList id (merge_sort str_le (map_to_list (sn_subscriptions s)).*1)) s
    end.

(** The end of a session: every task is aborted. *)
Definition session_end (s : Session) : Session :=
  set_sn_subs ∅
    (foldl (fun r '(key, running) => abort_task key running r) (sn_registry s)
       (map_to_list (sn_subscriptions s))) s.

(** ** Forwarding *)

(** What a receive of the broadcast channel gives; [newer] are the payloads [try_recv] finds behind. *)
Inductive Received : Type := RecvPayload (payload : Payload) (newer : list Payload) | RecvLagged | RecvClosed.

(** A forwarding task returns: its guard is dropped, its handle stays in the map. *)
Definition task_ends (key : str) (s : Session) : Session :=
  set_sn_subs (<[key := false]> (sn_subscriptions s)) (guard_drop key (sn_registry s)) s.

(** One turn of the loop of [forward]. *)
Definition forward (key : str) (latest_value : bool) (received : Received) (s : Session) : Session :=
  match received with
  | RecvPayload payload newer =>
      let payload := if latest_value then List.last newer payload else payload in
      match try_send ctx (OutFrame (frame_vec (sx_combined ctx) key payload)) s with
      | Some s => s
      | None => task_ends key (add_sn_slow s)
      end
  | RecvLagged =>
      if latest_value then s
      else
        let s := add_sn_slow s in
        task_ends key (default s (try_send ctx (OutClose 1013) s))
  | RecvClosed => task_ends key s
  end.

(** ** The loop of a session *)

(** What can happen next, to this connection and to the registry it shares. *)
Inductive SessionEvent : Type :=
| EvStop | EvPing (ok : bool) | EvPongTimeout | EvRotate
| EvText (now : Z) (text : option ControlMessage)
| EvPong | EvClosed | EvOtherMessage | EvStreamError
| EvWrite (ok : bool)
| EvForward (key : str) (latest_value : bool) (received : Received)
| EvOtherSubscribe (key : str) | EvOtherDrop (key : str).

(** The session goes on, or has left the loop with the code of its close frame. *)
Inductive RunState : Type := RunOn | RunEnd (code : Z).

Record Running : Type := mkRunning { ru_session : Session; ru_wire : list Frame; ru_state : RunState }.

Definition CLOSE_NORMAL : Z := 1000.
Definition CLOSE_AWAY : Z := 1001.
Definition CLOSE_POLICY : Z := 1008.

Definition set_ru_session (s : Session) (r : Running) : Running := mkRunning s (ru_wire r) (ru_state r).

(** Leaving the loop: the tasks are aborted and the close frame is sent. *)
Definition leave (code : Z) (r : Running) : Running :=
  mkRunning (session_end (ru_session r)) (ru_wire r) (RunEnd code).

Definition session_turn (e : SessionEvent) (r : Running) : Running :=
  let s := ru_session r in
  match e with
  | EvStop => leave CLOSE_AWAY r
  | EvPing false | EvClosed | EvStreamError | EvRotate => leave CLOSE_NORMAL r
  | EvPongTimeout => leave CLOSE_POLICY r
  | EvText now text => set_ru_session (handle_control now text s) r
  | EvWrite ok =>
      match sn_out s with
      | [] => r
      | OutFrame frame :: out =>
          if ok then mkRunning (set_sn_out out s) (ru_wire r ++ [frame]) RunOn
          else leave CLOSE_NORMAL (set_ru_session (set_sn_out out s) r)
      | OutClose code :: out => leave code (set_ru_session (set_sn_out out s) r)
      end
  | EvForward key latest_value received =>
      if bool_decide (sn_subscriptions s !! key = Some true)
      then set_ru_session (forward key latest_value received s) r else r
  | _ => r
  end.

Definition run_event (r : Running) (e : SessionEvent) : Running :=
  let s := ru_session r in
  match e with
  | EvOtherSubscribe key => set_ru_session (set_sn_subs (sn_subscriptions s) (registry_subscribe key (sn_registry s)) s) r
  | EvOtherDrop key => set_ru_session (set_sn_subs (sn_subscriptions s) (guard_drop key (sn_registry s)) s) r
  | _ => match ru_state r with RunOn => session_turn e r | RunEnd _ => r end
  end.

(** The start of a session: the streams of the URL are subscribed, and an error closes it. *)
Definition run_start (initial : list str) (s : Session) : Running :=
  let '(res, s) := subscribe_all initial s in
  let r := mkRunning s [] RunOn in
  match res with Ok _ => r | Err _ => leave CLOSE_POLICY r end.

Definition session_run (initial : list str) (events : list SessionEvent) (s : Session) : Running :=
  foldl run_event (run_start initial s) events.
End Sessions.

(** The state [run] begins with. *)
Definition Session_new (now : Z) (r : Registry) : Session := mkSession ∅ r [] (RateLimiter_new 10 now) 0.
