(* ===== verification/MdSessionSpec.v ===== *)
(** * Correctness of the sessions of the market-data service

    The subscriptions of a session stay within its limit and their entries of the shared registry are
    exact under every interleaving with the other sessions; the rate limiter; the names of the streams
    and what a subscription of a slow client becomes. *)

From stdpp Require Import strings gmap sorting.
From S2P Require Import Prelude BTree Fixed Order OrderBook MatchEvent MarketMessage Api Freeze ApiSpec MdProtocol MdFeed MdSession.

(** ** Registries *)

Definition receivers (r : Registry) (key : str) : nat := default 0%nat (r !! key).

(** No entry without a receiver. *)
Definition pruned (r : Registry) : Prop := forall key, r !! key <> Some 0%nat.

Lemma pruned_eq r r' : pruned r -> pruned r' -> (forall key, receivers r key = receivers r' key) -> r = r'.
Proof.
  intros Hr Hr' H. apply map_eq. intros key.
  generalize (H key), (Hr key), (Hr' key). unfold receivers.
  destruct (r !! key), (r' !! key); simpl; congruence.
Qed.

Lemma subscribe_registry key r :
  pruned r -> pruned (registry_subscribe key r) /\
  forall k, receivers (registry_subscribe key r) k = (receivers r k + if decide (k = key) then 1 else 0)%nat.
Proof.
  intros Hr. unfold registry_subscribe, receivers, pruned. split.
  - intros k. destruct (decide (k = key)) as [->|Hk].
    + by rewrite lookup_insert_eq.
    + rewrite lookup_insert_ne by done. apply Hr.
  - intros k. destruct (decide (k = key)) as [->|Hk].
    + rewrite lookup_insert_eq. simpl. lia.
    + rewrite lookup_insert_ne by done. lia.
Qed.

Lemma drop_registry key r :
  pruned r -> pruned (guard_drop key r) /\
  forall k, receivers (guard_drop key r) k = (receivers r k - if decide (k = key) then 1 else 0)%nat.
Proof.
  intros Hr. unfold guard_drop, registry_remove_if_unused. rewrite lookup_insert_eq.
  fold (receivers r key). split.
  - intros k. case_bool_decide as E.
    + rewrite delete_insert_eq. destruct (decide (k = key)) as [->|Hk].
      * by rewrite lookup_delete_eq.
      * rewrite lookup_delete_ne by done. apply Hr.
    + destruct (decide (k = key)) as [->|Hk].
      * by rewrite lookup_insert_eq.
      * rewrite lookup_insert_ne by done. apply Hr.
  - intros k. unfold receivers at 1. case_bool_decide as E.
    + injection E as E. rewrite delete_insert_eq. destruct (decide (k = key)) as [->|Hk].
      * rewrite lookup_delete_eq. simpl. lia.
      * rewrite lookup_delete_ne by done. unfold receivers. lia.
    + destruct (decide (k = key)) as [->|Hk].
      * rewrite lookup_insert_eq. simpl. lia.
      * rewrite lookup_insert_ne by done. unfold receivers. lia.
Qed.

Lemma subscribe_then_drop key r : pruned r -> guard_drop key (registry_subscribe key r) = r.
Proof.
  intros Hr. destruct (subscribe_registry key r Hr) as [P R], (drop_registry key _ P) as [P' R'].
  apply pruned_eq; [done..|]. intros k. rewrite R', R. lia.
Qed.

(** What the other sessions hold, after their events among those of this one; they drop only a
    receiver they have. *)
Fixpoint others (events : list SessionEvent) (o : Registry) : option Registry :=
  match events with
  | [] => Some o
  | EvOtherSubscribe key :: events => others events (registry_subscribe key o)
  | EvOtherDrop key :: events =>
      if bool_decide (receivers o key = 0%nat) then None else others events (guard_drop key o)
  | _ :: events => others events o
  end.

(** ** The accounting of a session *)

Definition runs_stream (s : Session) (key : str) : nat :=
  if decide (sn_subscriptions s !! key = Some true) then 1%nat else 0%nat.

Section Accounting.
Context (to_lowercase : str -> str) (ctx : SessionCtx).

Record accounted (o : Registry) (s : Session) : Prop := mkAccounted {
  acc_pruned : pruned (sn_registry s);
  acc_size : (size (sn_subscriptions s) <= mc_max_streams (sx_config ctx))%nat;
  acc_queue : (length (sn_out s) <= out_capacity ctx)%nat;
  acc_receivers : forall key, receivers (sn_registry s) key = (receivers o key + runs_stream s key)%nat;
}.

Lemma try_send_accounted o out s s' :
  try_send ctx out s = Some s' -> accounted o s -> accounted o s' /\ sn_subscriptions s' = sn_subscriptions s
  /\ sn_registry s' = sn_registry s.
Proof.
  unfold try_send. case_bool_decide as Hl; intros [= <-] [A B C D]. split; [|done]. split; try done.
  simpl. rewrite length_app. simpl. lia.
Qed.

Lemma send_control_accounted o frame s : accounted o s -> accounted o (send_control ctx frame s).
Proof.
  intros H. unfold send_control. destruct (try_send _ _ _) as [s'|] eqn:E; [|done].
  by destruct (try_send_accounted _ _ _ _ E H).
Qed.

Lemma limiter_accounted o l s : accounted o s -> accounted o (set_sn_limiter l s).
Proof. intros [A B C D]. by split. Qed.

Lemma slow_accounted o s : accounted o s -> accounted o (add_sn_slow s).
Proof. intros [A B C D]. by split. Qed.

(** Adding and removing one entry of the map with its receiver. *)
Lemma add_accounted o key s :
  accounted o s -> sn_subscriptions s !! key = None ->
  (size (sn_subscriptions s) < mc_max_streams (sx_config ctx))%nat ->
  accounted o (set_sn_subs (<[key := true]> (sn_subscriptions s)) (registry_subscribe key (sn_registry s)) s).
Proof.
  intros [A B C D] Hk Hs. destruct (subscribe_registry key _ A) as [P R]. split; simpl; try done.
  - rewrite map_size_insert_None by done. lia.
  - intros k. rewrite R, D. unfold runs_stream. simpl. destruct (decide (k = key)) as [->|Hne].
    + rewrite lookup_insert_eq, Hk. repeat case_decide; simplify_eq; lia.
    + rewrite lookup_insert_ne by done. lia.
Qed.

Lemma drop_accounted o key subs s :
  accounted o s -> sn_subscriptions s !! key = Some true -> subs !! key <> Some true ->
  (forall k, k <> key -> subs !! k = sn_subscriptions s !! k) -> (size subs <= size (sn_subscriptions s))%nat ->
  accounted o (set_sn_subs subs (guard_drop key (sn_registry s)) s).
Proof.
  intros [A B C D] Hk Hn Hsame Hs. destruct (drop_registry key _ A) as [P R]. split; simpl; try done; [lia|].
  intros k. rewrite R, D. unfold runs_stream. simpl. destruct (decide (k = key)) as [->|Hne].
  - rewrite Hk. repeat case_decide; simplify_eq; lia.
  - rewrite Hsame by done. lia.
Qed.

Lemma ends_accounted o key s :
  accounted o s -> sn_subscriptions s !! key = Some true -> accounted o (task_ends key s).
Proof.
  intros H Hk. apply drop_accounted; [done|done| | |].
  - by rewrite lookup_insert_eq.
  - intros k Hne. by rewrite lookup_insert_ne.
  - rewrite map_size_insert_Some by (by eexists). lia.
Qed.

Lemma subscribe_accounted o name s : accounted o s -> accounted o (subscribe to_lowercase ctx name s).2.
Proof.
  intros H. unfold subscribe. destruct (parse_stream _ _) as [spec|]; [|done].
  destruct (sx_runtime ctx _) as [[? st]|]; [|done]. case_bool_decide as Hk; [done|].
  case_bool_decide as Hs; [done|]. apply eq_None_not_Some in Hk.
  destruct (snapshot_payload _ _ _) as [payload|]; [|apply add_accounted; [done|done|lia]].
  destruct (try_send _ _ _) as [s'|] eqn:E.
  - destruct (try_send_accounted _ _ _ _ E H) as (H' & Es & Er). cbn [snd].
    rewrite <- Er. apply add_accounted; [done| |]; rewrite Es; [done|lia].
  - cbn [snd]. rewrite subscribe_then_drop by apply H. by destruct s.
Qed.

Lemma subscribe_all_accounted o names s :
  accounted o s -> accounted o (subscribe_all to_lowercase ctx names s).2.
Proof.
  revert s. induction names as [|name names IH]; intros s H; [done|]. simpl.
  pose proof (subscribe_accounted o name s H) as H'.
  destruct (subscribe _ _ _ _) as [[?|?] s']; [by apply IH|done].
Qed.

Lemma unsubscribe_accounted o name s : accounted o s -> accounted o (unsubscribe ctx s name).
Proof.
  intros H. unfold unsubscribe. set (key := match parse_stream _ _ with Ok spec => _ | Err _ => _ end).
  destruct (sn_subscriptions s !! key) as [running|] eqn:E; [|done].
  assert (Hs : (size (delete key (sn_subscriptions s)) <= size (sn_subscriptions s))%nat).
  { rewrite map_size_delete_Some by (by eexists). lia. }
  assert (Hne : forall k, k <> key -> delete key (sn_subscriptions s) !! k = sn_subscriptions s !! k).
  { intros k Hk. by rewrite lookup_delete_ne. }
  destruct running; simpl.
  - apply drop_accounted; [done|done| |done|done]. by rewrite lookup_delete_eq.
  - destruct H as [A B C D]. split; simpl; try done; [lia|]. intros k. rewrite D. unfold runs_stream. simpl.
    destruct (decide (k = key)) as [->|Hk]; [|by rewrite Hne]. by rewrite E, lookup_delete_eq.
Qed.

Lemma handle_control_accounted o now text s :
  accounted o s -> accounted o (handle_control to_lowercase ctx now text s).
Proof.
  intros H. unfold handle_control. destruct (limiter_allow _ _) as [allowed l].
  apply (limiter_accounted o l) in H. destruct (negb allowed); [by apply send_control_accounted|].
  destruct text as [[params id|params id|id]|]; try by apply send_control_accounted.
  - case_bool_decide; [by apply send_control_accounted|].
    pose proof (subscribe_all_accounted o params _ H) as H'.
    destruct (subscribe_all _ _ _ _) as [[?|?] s']; by apply send_control_accounted.
  - apply send_control_accounted. revert H. generalize (set_sn_limiter l s). clear s.
    induction params as [|name params IH]; intros s H; [done|]. simpl. by apply IH, unsubscribe_accounted.
Qed.

Lemma forward_accounted o key latest received s :
  accounted o s -> sn_subscriptions s !! key = Some true -> accounted o (forward ctx key latest received s).
Proof.
  intros H Hk. unfold forward. destruct received as [payload newer| |].
  - destruct (try_send _ _ _) as [s'|] eqn:E; [by destruct (try_send_accounted _ _ _ _ E H)|].
    apply ends_accounted; [by apply slow_accounted|done].
  - destruct latest; [done|]. apply (slow_accounted o) in H.
    destruct (try_send _ _ _) as [s'|] eqn:E; simpl; apply ends_accounted; try done.
    + by destruct (try_send_accounted _ _ _ _ E H).
    + destruct (try_send_accounted _ _ _ _ E H) as (_ & -> & _). done.
  - by apply ends_accounted.
Qed.

(** Aborting every task of a map gives back exactly the receivers of the running ones. *)
Lemma aborts_registry (l : list (str * bool)) r :
  NoDup l.*1 -> pruned r ->
  let r' := foldl (fun r '(key, running) => abort_task key running r) r l in
  pruned r' /\ forall k, receivers r' k = (receivers r k - if decide ((k, true) ∈ l) then 1 else 0)%nat.
Proof.
  revert r. induction l as [|[key running] l IH]; intros r Hd Hr; simpl.
  { split; [done|]. intros k. lia. }
  apply NoDup_cons in Hd as [Hk Hd].
  assert (Habort : pruned (abort_task key running r) /\ forall k, receivers (abort_task key running r) k
            = (receivers r k - if decide ((k, true) = (key, running)) then 1 else 0)%nat).
  { destruct running; cbn [abort_task].
    - destruct (drop_registry key r Hr) as [P R]. split; [done|]. intros k. rewrite R.
      repeat case_decide; naive_solver lia.
    - split; [done|]. intros k. case_decide; [congruence|lia]. }
  destruct Habort as [P R], (IH _ Hd P) as [P' R']. split; [done|]. intros k. rewrite R', R.
  assert ((k, true) ∈ l -> k <> key).
  { intros Hin ->. apply Hk. apply list_elem_of_fmap. by exists (key, true). }
  pose proof (elem_of_cons l (k, true) (key, running)) as Hc.
  repeat case_decide; naive_solver lia.
Qed.

Lemma session_end_accounted o s :
  accounted o s -> pruned o -> accounted o (session_end s) /\ sn_registry (session_end s) = o.
Proof.
  intros [A B C D] Ho.
  destruct (aborts_registry (map_to_list (sn_subscriptions s)) (sn_registry s)) as [P R];
    [apply NoDup_fst_map_to_list|done|].
  assert (E : sn_registry (session_end s) = o).
  { apply pruned_eq; [done..|]. intros k. unfold session_end. cbn [sn_registry set_sn_subs]. rewrite R, D.
    unfold runs_stream. pose proof (elem_of_map_to_list (sn_subscriptions s) k true).
    repeat case_decide; naive_solver lia. }
  split; [|done]. split; [by rewrite E| |done|].
  - unfold session_end. cbn [sn_subscriptions set_sn_subs]. rewrite map_size_empty. lia.
  - intros k. rewrite E. unfold runs_stream, session_end. cbn [sn_subscriptions set_sn_subs].
    rewrite lookup_empty. case_decide; [done|lia].
Qed.

(** ** A whole session *)

(** The invariant of the loop: a session that has left it holds nothing. *)
Definition run_accounted (o : Registry) (r : Running) : Prop :=
  pruned o /\ accounted o (ru_session r) /\
  match ru_state r with RunOn => True | RunEnd _ => sn_registry (ru_session r) = o end.

Lemma leave_accounted o code r :
  pruned o -> accounted o (ru_session r) -> run_accounted o (leave code r).
Proof. intros Ho H. destruct (session_end_accounted o _ H Ho). split; [done|]. by split. Qed.

Lemma session_turn_accounted o e r :
  pruned o -> accounted o (ru_session r) -> ru_state r = RunOn -> run_accounted o (session_turn to_lowercase ctx e r).
Proof.
  intros Ho H Hon.
  assert (Hset : forall s, accounted o s -> run_accounted o (set_ru_session s r)).
  { intros s Hs. unfold run_accounted. simpl. by rewrite Hon. }
  assert (Hself : run_accounted o r) by (unfold run_accounted; by rewrite Hon).
  destruct e as [|[|]| | |now text| | | | |ok|key latest received|key|key]; simpl;
    try done; try by apply leave_accounted.
  - by apply Hset, handle_control_accounted.
  - destruct (sn_out (ru_session r)) as [|[frame|code] out] eqn:Eo; [done|..].
    all: assert (Hout : accounted o (set_sn_out out (ru_session r)))
      by (destruct H as [A B C D]; split; try done; rewrite Eo in C; simpl in *; lia).
    + destruct ok; [|by apply leave_accounted]. split; [done|]. by split.
    + by apply leave_accounted.
  - case_bool_decide; [|done]. by apply Hset, forward_accounted.
Qed.

(** What the other sessions hold after one event. *)
Definition others_event (o : Registry) (e : SessionEvent) : option Registry := others [e] o.

Lemma run_event_accounted o e r o' :
  run_accounted o r -> others_event o e = Some o' -> run_accounted o' (run_event to_lowercase ctx r e).
Proof.
  intros (Ho & H & Hst).
  assert (Hquiet : run_accounted o (match ru_state r with RunOn => session_turn to_lowercase ctx e r | RunEnd _ => r end)).
  { destruct (ru_state r) as [|code] eqn:Est; [by apply session_turn_accounted|].
    split; [done|]. split; [done|]. by rewrite Est. }
  destruct H as [A B C D].
  destruct e; cbn [others_event others]; try by intros [= <-].
  - intros [= <-]. destruct (subscribe_registry key _ A) as [P R], (subscribe_registry key o Ho) as [P' R'].
    split; [done|]. split; [|by simpl; destruct (ru_state r); [|rewrite Hst]].
    split; simpl; try done. intros k. rewrite R, R', D. unfold runs_stream. simpl. lia.
  - case_bool_decide as Hc; [done|]. intros [= <-].
    destruct (drop_registry key _ A) as [P R], (drop_registry key o Ho) as [P' R'].
    split; [done|]. split; [|by simpl; destruct (ru_state r); [|rewrite Hst]].
    split; simpl; try done. intros k. rewrite R, R', D. unfold runs_stream. simpl.
    repeat case_decide; subst; lia.
Qed.

Lemma events_accounted o events r o' :
  run_accounted o r -> others events o = Some o' ->
  run_accounted o' (foldl (run_event to_lowercase ctx) r events).
Proof.
  revert o r. induction events as [|e events IH]; intros o r H Ho; [by injection Ho as <-|].
  assert (Hstep : exists o1, others_event o e = Some o1 /\ others events o1 = Some o').
  { unfold others_event. destruct e; simpl in Ho |- *; try (by eexists). case_bool_decide; [done|]. by eexists. }
  destruct Hstep as (o1 & E1 & E2). simpl. apply IH with o1; [by apply run_event_accounted with o|done].
Qed.

(** C21: A session keeps the shared registry exact. Whatever the client, the writer, the forwarding
    tasks and the other sessions do, in any order, the session never has more streams than
    [max_streams] nor more frames waiting than its queue holds; every stream has as many receivers as
    the other sessions have, one more while a forwarding task of this session runs; and when the
    session has left its loop, for whatever reason, the registry is exactly what the others hold: no
    receiver and no entry is left behind. *)
Theorem session_leaves_nothing_behind initial events now o o' :
  pruned o -> others events o = Some o' ->
  let r := session_run to_lowercase ctx initial events (Session_new now o) in
  let s := ru_session r in
  (size (sn_subscriptions s) <= mc_max_streams (sx_config ctx))%nat
  /\ (length (sn_out s) <= out_capacity ctx)%nat
  /\ (forall key, receivers (sn_registry s) key = (receivers o' key + runs_stream s key)%nat)
  /\ (forall code, ru_state r = RunEnd code -> sn_registry s = o').
Proof.
  intros Ho Hothers r s.
  assert (Hnew : accounted o (Session_new now o)).
  { split; simpl; [done|rewrite map_size_empty; lia|lia|].
    intros k. unfold runs_stream. simpl. rewrite lookup_empty. case_decide; [done|lia]. }
  assert (Hstart : run_accounted o (run_start to_lowercase ctx initial (Session_new now o))).
  { unfold run_start. pose proof (subscribe_all_accounted o initial _ Hnew) as H.
    destruct (subscribe_all _ _ _ _) as [[?|?] s']; [split; [done|by split]|by apply leave_accounted]. }
  destruct (events_accounted _ _ _ _ Hstart Hothers) as (_ & [A B C D] & Hend).
  split; [done|]. split; [done|]. split; [done|]. intros code E. fold (session_run to_lowercase ctx initial events (Session_new now o)) in Hend.
  fold r in Hend. by rewrite E in Hend.
Qed.
End Accounting.

(** ** The rate limiter *)

(** The verdicts on control messages at these instants. *)
Fixpoint limiter_run (l : RateLimiter) (times : list Z) : list bool :=
  match times with
  | [] => []
  | now :: times => let '(allowed, l) := limiter_allow now l in allowed :: limiter_run l times
  end.

Definition admitted (verdicts : list bool) : Z := Z.of_nat (length (filter (fun b => b = true) verdicts)).

Lemma admitted_cons b l : admitted (b :: l) = (if b then 1 else 0) + admitted l.
Proof. unfold admitted. rewrite filter_cons. destruct b; simpl; lia. Qed.

Lemma admitted_nonneg l : 0 <= admitted l.
Proof. unfold admitted. lia. Qed.

(** Within the window of the limiter, exactly the messages left of the limit are admitted. *)
Lemma window_admits times : forall l,
  0 <= rl_used l <= U32_MAX -> rl_limit l < U32_MAX ->
  Forall (fun now => now - rl_window l < ONE_SECOND) times ->
  admitted (limiter_run l times) = Z.min (Z.of_nat (length times)) (Z.max 0 (rl_limit l - rl_used l)).
Proof.
  induction times as [|now times IH]; intros l Hu Hl Hw; [unfold admitted; simpl; lia|].
  apply Forall_cons in Hw as [Hn Hw]. cbn [limiter_run]. unfold limiter_allow.
  replace (ONE_SECOND <=? now - rl_window l) with false by lia. cbn [rl_limit rl_window rl_used].
  rewrite admitted_cons, IH by (cbn [rl_used rl_limit rl_window]; first [done|lia]).
  cbn [rl_used rl_limit length]. destruct (Z.leb_spec (Z.min (rl_used l + 1) U32_MAX) (rl_limit l)); lia.
Qed.

(** A message after the window opens a new one. *)
Lemma reset_admits l now times :
  0 <= rl_limit l < U32_MAX -> ONE_SECOND <= now - rl_window l ->
  Forall (fun t => t - now < ONE_SECOND) times ->
  admitted (limiter_run l (now :: times)) = Z.min (Z.of_nat (length (now :: times))) (rl_limit l).
Proof.
  intros Hl Hold Hts. cbn [limiter_run length]. unfold limiter_allow.
  replace (ONE_SECOND <=? now - rl_window l) with true by lia. cbn [rl_limit rl_window rl_used].
  rewrite admitted_cons, window_admits; cbn [rl_limit rl_window rl_used]; [|unfold U32_MAX; lia|lia|done].
  destruct (Z.leb_spec (Z.min (0 + 1) U32_MAX) (rl_limit l)); unfold U32_MAX in *; lia.
Qed.

Lemma span_admits start times : forall l,
  0 <= rl_used l <= U32_MAX -> 0 <= rl_limit l < U32_MAX ->
  Forall (fun now => start <= now < start + ONE_SECOND) times ->
  admitted (limiter_run l times) <= Z.max 0 (rl_limit l - rl_used l) + rl_limit l.
Proof.
  induction times as [|now times IH]; intros l Hu Hl Hw; [unfold admitted; simpl; lia|].
  apply Forall_cons in Hw as [Hn Hw]. destruct (Z.le_gt_cases ONE_SECOND (now - rl_window l)) as [Hold|Hnew].
  - rewrite reset_admits; [lia|done|done|]. eapply Forall_impl; [exact Hw|]. simpl. lia.
  - cbn [limiter_run]. unfold limiter_allow. replace (ONE_SECOND <=? now - rl_window l) with false by lia.
    cbn [rl_limit rl_window rl_used]. rewrite admitted_cons.
    match goal with |- context [limiter_run ?l' times] => pose proof (IH l') as IH' end.
    cbn [rl_limit rl_window rl_used] in IH'. specialize (IH' ltac:(lia) Hl Hw).
    destruct (Z.leb_spec (Z.min (rl_used l + 1) U32_MAX) (rl_limit l)); lia.
Qed.

(** The rate limiter neither starves a client nor admits more than twice its limit. The messages
    after a second of silence are admitted up to the limit; and over any stretch shorter than a second,
    however it lies on the limiter's windows and whatever came before it, at most twice the limit is
    admitted. *)
Theorem rate_limit_holds (l : RateLimiter) (times : list Z) (start : Z) :
  0 <= rl_used l <= U32_MAX -> 0 <= rl_limit l < U32_MAX ->
  Forall (fun now => start <= now < start + ONE_SECOND) times ->
  admitted (limiter_run l times) <= 2 * rl_limit l /\
  (ONE_SECOND <= start - rl_window l ->
   admitted (limiter_run l (start :: times)) = Z.min (Z.of_nat (length (start :: times))) (rl_limit l)).
Proof.
  intros Hu Hl Hw. split; [pose proof (span_admits start times l Hu Hl Hw); lia|].
  intros Hold. apply reset_admits; [done|done|]. eapply Forall_impl; [exact Hw|]. simpl. lia.
Qed.

Lemma rate_limit_holds_witness :
  admitted (limiter_run (mkLimiter 2 0 0) [900; 950; 999; 1000; 1100; 1200]%Z) <= 4.
Proof.
  apply (rate_limit_holds (mkLimiter 2 0 0) [900; 950; 999; 1000; 1100; 1200] 900); [vm_compute; split; congruence..|].
  repeat constructor; unfold ONE_SECOND; lia.
Defined.

(** ** Slow clients *)

Section Slow.
Context (to_lowercase : str -> str) (ctx : SessionCtx).

(** The queue to the writer is full. *)
Definition queue_full (s : Session) : Prop := length (sn_out s) = out_capacity ctx.

Lemma full_try_send o s : queue_full s -> try_send ctx o s = None.
Proof. intros H. unfold try_send. rewrite bool_decide_eq_false_2; [done|]. rewrite H. lia. Qed.

(** The client does not unsubscribe. *)
Definition no_unsubscribe (e : SessionEvent) : Prop :=
  match e with EvText _ (Some (Unsubscribe _ _)) => False | _ => True end.

(** The forwarding task of the stream has returned, its handle is still there. *)
Definition dead (key : str) (s : Session) : Prop := sn_subscriptions s !! key = Some false.

Lemma try_send_dead key o s s' : try_send ctx o s = Some s' -> dead key s -> dead key s'.
Proof. unfold try_send. case_bool_decide; [|done]. by intros [= <-]. Qed.

Lemma send_control_dead key frame s : dead key s -> dead key (send_control ctx frame s).
Proof.
  intros H. unfold send_control. destruct (try_send _ _ _) eqn:E; [|done]. by eapply try_send_dead.
Qed.

Lemma subscribe_dead key name s : dead key s -> dead key (subscribe to_lowercase ctx name s).2.
Proof.
  intros H. unfold subscribe. destruct (parse_stream _ _) as [spec|]; [|done].
  destruct (sx_runtime ctx _) as [[? st]|]; [|done]. case_bool_decide as Hk; [done|]. case_bool_decide; [done|].
  assert (Hne : ss_key spec <> key) by (intros Ek; apply Hk; rewrite Ek; by eexists).
  assert (Hin : forall s' r, dead key s' -> dead key (set_sn_subs (<[ss_key spec := true]> (sn_subscriptions s')) r s')).
  { intros s' r Hd. unfold dead. simpl. by rewrite lookup_insert_ne. }
  destruct (snapshot_payload _ _ _); [|by apply Hin]. destruct (try_send _ _ _) eqn:E; [|done].
  apply Hin. by eapply try_send_dead.
Qed.

Lemma control_dead key now text s :
  match text with Some (Unsubscribe _ _) => False | _ => True end ->
  dead key s -> dead key (handle_control to_lowercase ctx now text s).
Proof.
  intros Ht H. unfold handle_control. destruct (limiter_allow _ _) as [allowed l].
  destruct (negb allowed); [by apply send_control_dead|].
  destruct text as [[params id| |id]|]; try done; try by apply send_control_dead.
  case_bool_decide; [by apply send_control_dead|].
  assert (Hall : forall names s', dead key s' -> dead key (subscribe_all to_lowercase ctx names s').2).
  { induction names as [|name names IH]; intros s' Hs; [done|]. simpl. pose proof (subscribe_dead key name s' Hs).
    destruct (subscribe _ _ _ _) as [[?|?] s'']; [by apply IH|done]. }
  pose proof (Hall params (set_sn_limiter l s) H). destruct (subscribe_all _ _ _ _) as [[?|?] s']; by apply send_control_dead.
Qed.

Lemma forward_dead key key' latest received s :
  key' <> key -> dead key s -> dead key (forward ctx key' latest received s).
Proof.
  intros Hne H.
  assert (Hend : forall s', dead key s' -> dead key (task_ends key' s')).
  { intros s' Hd. unfold dead. simpl. by rewrite lookup_insert_ne. }
  unfold forward. destruct received as [payload newer| |]; [| |by apply Hend].
  - destruct (try_send _ _ _) eqn:E; [by eapply try_send_dead|by apply Hend].
  - destruct latest; [done|]. apply Hend. destruct (try_send _ _ _) eqn:E; [by eapply try_send_dead|done].
Qed.

(** While the session goes on, its stream stays dead. *)
Definition silent (key : str) (r : Running) : Prop := ru_state r = RunOn -> dead key (ru_session r).

Lemma run_event_silent key e r : no_unsubscribe e -> silent key r -> silent key (run_event to_lowercase ctx r e).
Proof.
  intros He H. destruct (ru_state r) as [|code] eqn:Est.
  - specialize (H Est).
    destruct e as [|[|]| | |now text| | | | |ok|key' latest received|key'|key']; unfold run_event; rewrite ?Est;
      cbn [session_turn]; try (by intros _); try (by intros ?).
    + intros _. by apply control_dead.
    + destruct (sn_out (ru_session r)) as [|[frame|code] out]; [by intros _|..|by intros ?]. destruct ok; by intros ?.
    + case_bool_decide as Hk; intros _; [|done]. apply forward_dead; [|done]. intros ->. unfold dead in H. congruence.
  - destruct e; unfold run_event; rewrite ?Est; intros Hon; simpl in Hon; congruence.
Qed.

(** C35: A slow client of a sequenced stream is not closed. When a forwarding task finds the queue full
    (or its receiver has lagged while the queue is full) it counts a slow close and returns: the queue
    is as it was, with no close frame, the session stays in its loop and the stream stays in its list,
    without a receiver. However the session goes on, as long as the client does not unsubscribe, the
    stream stays dead, so that nothing is forwarded on it again; and subscribing it again is answered
    with success and changes nothing. *)
Theorem slow_stream_goes_silent (key name : str) (spec : StreamSpec) (sym : SymbolSpec) (st : SharedState)
    (received : Received) (r : Running) :
  ru_state r = RunOn -> sn_subscriptions (ru_session r) !! key = Some true -> queue_full (ru_session r) ->
  received <> RecvClosed ->
  parse_stream (sx_config ctx) name = Ok spec -> ss_key spec = key ->
  sx_runtime ctx (to_lowercase (ss_symbol spec)) = Some (sym, st) ->
  let r' := run_event to_lowercase ctx r (EvForward key false received) in
  ru_state r' = RunOn /\ sn_out (ru_session r') = sn_out (ru_session r)
  /\ sn_slow_closes (ru_session r') = sn_slow_closes (ru_session r) + 1
  /\ sn_subscriptions (ru_session r') !! key = Some false
  /\ (forall events, Forall no_unsubscribe events ->
        let r'' := foldl (run_event to_lowercase ctx) r' events in
        ru_state r'' = RunOn -> sn_subscriptions (ru_session r'') !! key = Some false)
  /\ subscribe to_lowercase ctx name (ru_session r') = (Ok (), ru_session r').
Proof.
  intros Hon Hk Hq Hr Hp Hkey Hrt.
  assert (E : run_event to_lowercase ctx r (EvForward key false received)
              = set_ru_session (task_ends key (add_sn_slow (ru_session r))) r).
  { unfold run_event. rewrite Hon. cbn [session_turn]. rewrite bool_decide_eq_true_2 by done. f_equal.
    destruct received as [payload newer| |]; [..|done]; cbn [forward].
    - by rewrite full_try_send.
    - by rewrite full_try_send. }
  cbv zeta. rewrite E. clear E. set (r' := set_ru_session _ r).
  assert (Hdead : sn_subscriptions (ru_session r') !! key = Some false) by apply lookup_insert_eq.
  assert (Hon' : ru_state r' = RunOn) by done.
  split; [done|]. split; [done|]. split; [done|]. split; [done|]. split.
  - intros events Hev. assert (Hs : silent key r') by (intros _; exact Hdead). clearbody r'. clear - Hev Hs.
    revert r' Hs. induction Hev as [|e events He _ IH]; intros r' Hs; [done|]. simpl.
    by apply IH, run_event_silent.
  - unfold subscribe. rewrite Hp, Hrt, Hkey, Hdead. done.
Qed.
End Slow.

(** ** Concrete sessions *)

Module SessionRuns.
Definition eurusd : SymbolSpec := mkSymbolSpec (lit "eurusd") 1 (lit "EUR") (lit "USD").

(** Two streams per connection, a queue of one frame. *)
Definition ctx : SessionCtx :=
  mkSessionCtx (mkMdServiceConfig [eurusd] true 2 1 50)
    (fun name => if bool_decide (name = lit "eurusd") then Some (eurusd, SharedState_default) else None) false.

Definition trade : str := lit "eurusd@trade".
Definition status : str := lit "eurusd@status".

(** Another session listens to the trades. *)
Definition busy : Registry := registry_subscribe trade ∅.

(** Two trades to a client that does not read, the second with the queue full; another session comes
    and goes; then the client closes. *)
Definition payload : Payload := PayResync (lit "gap") 1.
Definition slow_run : list SessionEvent :=
  [EvForward trade false (RecvPayload payload []); EvForward trade false (RecvPayload payload []);
   EvOtherSubscribe status; EvText 5 (Some (Subscribe [trade; status] 1)); EvOtherDrop trade; EvClosed].

Definition full_client : Running :=
  run_event id ctx (run_start id ctx [trade] (Session_new 0 busy)) (EvForward trade false (RecvPayload payload [])).
End SessionRuns.

Lemma session_leaves_nothing_behind_witness :
  sn_registry (ru_session (session_run id SessionRuns.ctx [SessionRuns.trade] SessionRuns.slow_run
                             (Session_new 0 SessionRuns.busy)))
  = registry_subscribe SessionRuns.status ∅.
Proof.
  apply (session_leaves_nothing_behind id SessionRuns.ctx [SessionRuns.trade] SessionRuns.slow_run 0
           SessionRuns.busy (registry_subscribe SessionRuns.status ∅)) with CLOSE_NORMAL.
  - apply subscribe_registry. intros k. by rewrite lookup_empty.
  - vm_compute. reflexivity.
  - vm_compute. reflexivity.
Defined.

Lemma slow_stream_goes_silent_witness :
  let r' := run_event id SessionRuns.ctx SessionRuns.full_client
              (EvForward SessionRuns.trade false (RecvPayload SessionRuns.payload [])) in
  ru_state r' = RunOn /\ sn_slow_closes (ru_session r') = 1
  /\ subscribe id SessionRuns.ctx SessionRuns.trade (ru_session r') = (Ok (), ru_session r').
Proof.
  destruct (slow_stream_goes_silent id SessionRuns.ctx SessionRuns.trade SessionRuns.trade
              (mkStreamSpec SessionRuns.trade (lit "eurusd") KindTrade) SessionRuns.eurusd SharedState_default
              (RecvPayload SessionRuns.payload []) SessionRuns.full_client) as (A & _ & B & _ & _ & C);
    [vm_compute; reflexivity|vm_compute; reflexivity|vm_compute; reflexivity|discriminate
    |vm_compute; reflexivity|vm_compute; reflexivity|vm_compute; reflexivity|].
  split; [exact A|]. split; [exact B|exact C].
Defined.
