(* ===== verification/Bridge.v ===== *)
(** * The events bridge ([src/src/bin/events_bridge.rs])

    The sidecar that copies the replicated event log to a file: it polls pages of events, appends a
    line for each event, and moves its checkpoint after the page. The JSON of an event and of a cursor
    are parameters. A turn is given with the directories its system calls leave one after the other,
    which are what a crash can leave. *)

From stdpp Require Import strings.
From S2P Require Import Prelude Fixed Order OrderBook MatchEvent StateMachine Api.

Record BridgeOpt : Type := mkBridgeOpt { bo_limit : nat; bo_wait_ms : Z; bo_max_pages : Z }.

(** What [main] checks of its options. *)
Definition opt_valid (opt : BridgeOpt) : bool :=
  bool_decide (1 <= bo_limit opt <= MAX_EVENTS_PAGE)%nat && (bo_wait_ms opt <=? MAX_EVENTS_WAIT_MS).

(** The output file, the checkpoint and its temporary file. *)
Record BridgeDisk : Type := mkBridgeDisk { bd_out : str; bd_cursor : option str; bd_tmp : option str }.

Definition set_bd_out (out : str) (d : BridgeDisk) : BridgeDisk := mkBridgeDisk out (bd_cursor d) (bd_tmp d).
Definition set_bd_tmp (tmp : option str) (d : BridgeDisk) : BridgeDisk := mkBridgeDisk (bd_out d) (bd_cursor d) tmp.

(** The loop's variables. *)
Record Bridge : Type := mkBridge { br_cursor : option EventId; br_pages : Z }.

Definition EXIT_RETENTION_GAP : Z := 2.
Definition CH_NEWLINE : Z := 10.

(** [EventId]'s order; [oldest > cursor]. *)
Definition is_retention_gap (cursor oldest : option EventId) : bool :=
  match cursor, oldest with
  | Some cursor, Some oldest => event_id_ltb cursor oldest
  | _, _ => false
  end.

(** What a request of a page came to. *)
Inductive Poll : Type := PollPage (page : EventsResponse) | PollError.

(** What a turn of the loop came to. *)
Inductive BridgeExit : Type := BridgeOn (b : Bridge) | BridgeDone | BridgeExits (code : Z).

Section Bridge.
(** [serde_json] of an event, and of a cursor with its reader. *)
Variable encode_event : MatchEvent -> str.
Variable encode_cursor : EventId -> str.
Variable decode_cursor : str -> option EventId.

Definition load_cursor (d : BridgeDisk) : Result (option EventId) () :=
  match bd_cursor d with
  | None => Ok None
  | Some bytes => match decode_cursor bytes with Some cursor => Ok (Some cursor) | None => Err () end
  end.

Definition cursor_bytes (cursor : option EventId) : str :=
  match cursor with Some id => encode_cursor id | None => NULL end.

(** The directory after each system call of [save_cursor]. *)
Definition save_cursor (cursor : option EventId) (d : BridgeDisk) : list BridgeDisk :=
  let bytes := cursor_bytes cursor in
  [set_bd_tmp (Some []) d; set_bd_tmp (Some bytes) d; set_bd_tmp (Some (bytes ++ [CH_NEWLINE])) d;
   mkBridgeDisk (bd_out d) (Some (bytes ++ [CH_NEWLINE])) None].

Definition event_line (event : MatchEvent) : str := encode_event event ++ [CH_NEWLINE].

Definition page_bytes (events : list MatchEvent) : str := mjoin (event_line <$> events).

Definition publish_page (page : EventsResponse) (d : BridgeDisk) : BridgeDisk :=
  set_bd_out (bd_out d ++ page_bytes (ep_events page)) d.

(** What follows the publishing: the checkpoint. *)
Definition checkpoint (page : EventsResponse) (d : BridgeDisk) : list BridgeDisk :=
  match ep_next_after page with Some next => save_cursor (Some next) d | None => [] end.

(** One turn of the loop, with the directories behind the published page. *)
Definition bridge_turn (opt : BridgeOpt) (poll : Poll) (b : Bridge) (d : BridgeDisk)
    : BridgeExit * list BridgeDisk :=
  match poll with
  | PollError => (BridgeOn b, [])
  | PollPage page =>
      if is_retention_gap (br_cursor b) (ep_oldest_event_id page)
      then (BridgeExits EXIT_RETENTION_GAP, [])
      else
        let d := publish_page page d in
        let disks := d :: checkpoint page d in
        let cursor := match ep_next_after page with Some next => Some next | None => br_cursor b end in
        let pages := saturating_add_u64 (br_pages b) 1 in
        if negb (bo_max_pages opt =? 0) && (bo_max_pages opt <=? pages) then (BridgeDone, disks)
        else (BridgeOn (mkBridge cursor pages), disks)
  end.

(** The directory a turn leaves. *)
Definition turn_disk (disks : list BridgeDisk) (d : BridgeDisk) : BridgeDisk := default d (last disks).

(** What a crash inside a turn can leave: part of the page, or the files between two system calls of the
    checkpoint, the temporary file cut short. *)
Inductive crashed (page : EventsResponse) (d : BridgeDisk) : BridgeDisk -> Prop :=
| crash_publish (k : nat) :
    crashed page d (set_bd_out (bd_out d ++ take k (page_bytes (ep_events page))) d)
| crash_checkpoint d' : d' ∈ checkpoint page (publish_page page d) -> crashed page d d'
| crash_tmp (k : nat) d' tmp :
    d' ∈ checkpoint page (publish_page page d) -> bd_tmp d' = Some tmp ->
    crashed page d (set_bd_tmp (Some (take k tmp)) d').
End Bridge.
