(* ===== verification/BridgeSpec.v ===== *)
(** * Correctness of the events bridge

    Delivery of the replicated event log to the bridge's file under crashes, restarts and eviction.
    What the bridge reads from is abstract: a [history] of events, of which any store retains a
    suffix; [apply_entry_extends] shows that the state machine is such a source. *)

From stdpp Require Import strings list relations sorting.
From S2P Require Import Prelude BTree Fixed Order OrderBook MatchEvent StateMachine StateInv StateReads StateSpec Api ApiSpec Bridge.

(** ** Lines of a file *)

(** The complete lines of a text and what follows the last of them. *)
Fixpoint split_lines (s : str) : list str * str :=
  match s with
  | [] => ([], [])
  | c :: s =>
      let '(ls, tail) := split_lines s in
      if c =? CH_NEWLINE then ([] :: ls, tail)
      else match ls with [] => ([], c :: tail) | l :: ls => ((c :: l) :: ls, tail) end
  end.

Definition lines (s : str) : list str := (split_lines s).1.
Definition torn (s : str) : str := (split_lines s).2.

Lemma split_lines_app a b :
  split_lines (a ++ b) =
  match lines b with
  | [] => (lines a, torn a ++ torn b)
  | l :: ls => (lines a ++ (torn a ++ l) :: ls, torn b)
  end.
Proof.
  unfold lines, torn. induction a as [|c a IH]; simpl.
  - destruct (split_lines b) as [[|l ls] tb]; done.
  - rewrite IH. destruct (split_lines a) as [la ta], (split_lines b) as [[|l ls] tb]; simpl;
      destruct (c =? CH_NEWLINE), la; done.
Qed.

Lemma lines_app_incl a b x : x ∈ lines a -> x ∈ lines (a ++ b).
Proof.
  intros Hx. unfold lines at 1. rewrite split_lines_app. destruct (lines b); simpl; [done|].
  apply elem_of_app. by left.
Qed.

Lemma split_no_newline x : CH_NEWLINE ∉ x -> split_lines x = ([], x).
Proof.
  induction x as [|c x IH]; intros Hx; [done|]. apply not_elem_of_cons in Hx as [Hc Hx]. simpl.
  rewrite IH by done. by destruct (Z.eqb_spec c CH_NEWLINE).
Qed.

(** ** The source *)

Section Source.
Context `{RaftTypes}.

Definition sorted_ids (history : list MatchEvent) : Prop := StronglySorted id_lt (e_event_id <$> history).

(** A store keeps a suffix of the history. *)
Definition retains (s : StateMachineStoreInner) (history : list MatchEvent) : Prop :=
  exists evicted, history = evicted ++ events s.

Lemma sorted_ids_app pre post :
  sorted_ids (pre ++ post) -> sorted_ids post /\
  forall a b, a ∈ pre -> b ∈ post -> id_lt (e_event_id a) (e_event_id b).
Proof.
  unfold sorted_ids. rewrite fmap_app. intros (_ & Hp & Hc)%strongly_sorted_app_inv. split; [done|].
  intros a b Ha Hb. apply Hc; by apply list_elem_of_fmap_2.
Qed.

Lemma id_lt_irrefl a : ~ id_lt a a.
Proof. unfold id_lt, event_id_ltb. lia. Qed.

Lemma id_leb_iff a b : event_id_leb a b = true <-> ~ id_lt b a.
Proof. unfold event_id_leb, id_lt. destruct (event_id_ltb b a); naive_solver. Qed.

Lemma id_lt_total a b : id_lt a b \/ a = b \/ id_lt b a.
Proof.
  unfold id_lt, event_id_ltb. destruct a as [x y], b as [x' y']; simpl.
  destruct (Z.lt_trichotomy x x') as [?|[->|?]], (Z.lt_trichotomy y y') as [?|[->|?]]; try (by right; left);
    solve [left; lia|right; right; lia].
Qed.

Lemma elem_after_cursor c l e : e ∈ after_cursor (Some c) l <-> id_lt c (e_event_id e) /\ e ∈ l.
Proof.
  unfold after_cursor. rewrite list_elem_of_filter, <- not_true_iff_false, id_leb_iff.
  split; intros [Hc He]; (split; [|done]); [|tauto]. unfold id_lt in *. destruct (event_id_ltb c (e_event_id e)); [done|]. exfalso. by apply Hc.
Qed.

(** Behind a cursor of the history lies a suffix of it. *)
Lemma after_cursor_history history e :
  sorted_ids history -> e ∈ history ->
  exists pre, history = pre ++ e :: after_cursor (Some (e_event_id e)) history.
Proof.
  intros Hs (pre & post & ->)%list_elem_of_split. exists pre. by rewrite after_cursor_sorted.
Qed.

Lemma after_cursor_app c a b : after_cursor c (a ++ b) = after_cursor c a ++ after_cursor c b.
Proof. apply filter_app. Qed.

Lemma after_cursor_none c l : (forall e, e ∈ l -> ~ id_lt c (e_event_id e)) -> after_cursor (Some c) l = [].
Proof.
  intros Hl. destruct (after_cursor (Some c) l) as [|e r] eqn:E; [done|].
  assert (He : e ∈ after_cursor (Some c) l) by (rewrite E; left).
  apply elem_after_cursor in He as [Hc He]. by destruct (Hl e He).
Qed.

Lemma after_cursor_all c l : (forall e, e ∈ l -> id_lt c (e_event_id e)) -> after_cursor (Some c) l = l.
Proof.
  intros Hl. unfold after_cursor. apply list_filter_all. intros e He. apply not_true_iff_false.
  rewrite id_leb_iff. intros Hn. by apply Hn, Hl.
Qed.

Lemma after_cursor_sorted_ids c l : sorted_ids l -> sorted_ids (after_cursor c l).
Proof.
  unfold sorted_ids. intros Hs%strongly_sorted_fmap.
  apply (StronglySorted_fmap e_event_id (fun a b => id_lt (e_event_id a) (e_event_id b))); [done|].
  by apply strongly_sorted_filter.
Qed.

(** The first event of a page is not behind its last. *)
Lemma page_last_not_before s history c limit e rest x :
  sorted_ids history -> retains s history ->
  ep_events (events_page (Some c) limit s) = e :: rest -> last (e :: rest) = Some x ->
  id_lt c (e_event_id e) /\ ~ id_lt (e_event_id x) (e_event_id e).
Proof.
  intros Hs [evicted ->] Hp Hx. apply sorted_ids_app in Hs as [Hs _]. apply (after_cursor_sorted_ids (Some c)) in Hs.
  rewrite events_page_events in Hp. rewrite <- (take_drop limit (after_cursor (Some c) (events s))), Hp in Hs. split.
  - assert (He : e ∈ after_cursor (Some c) (events s)).
    { assert (Ht : e ∈ take limit (after_cursor (Some c) (events s))) by (rewrite Hp; left).
      apply elem_of_take in Ht as (i & Hi & _). by eapply list_elem_of_lookup_2. }
    by apply elem_after_cursor in He as [? _].
  - apply last_Some in Hx as [init Hx]. intros Hlt. destruct init as [|e' init]; injection Hx as -> Hr.
    + by destruct (id_lt_irrefl (e_event_id x)).
    + destruct (sorted_ids_app [e'] (rest ++ drop limit (after_cursor (Some c) (events s)))) as [_ Ho]; [done|].
      assert (Hex : id_lt (e_event_id e') (e_event_id x)) by (apply Ho; [left|rewrite Hr; set_solver]).
      destruct (id_lt_irrefl (e_event_id e')). by eapply id_lt_trans.
Qed.

(** Without a retention gap the page is the next events of the history. *)
Lemma page_is_next s history c limit :
  sorted_ids history -> retains s history ->
  is_retention_gap (Some c) (oldest_event_id s) = false ->
  ep_events (events_page (Some c) limit s) =
    take (if decide (events s = []) then 0 else limit) (after_cursor (Some c) history).
Proof.
  intros Hs [evicted ->] Hgap. rewrite events_page_events. destruct (events s) as [|e w] eqn:E.
  - rewrite decide_True by done. unfold after_cursor at 1. by rewrite filter_nil, take_nil.
  - rewrite decide_False by done. rewrite after_cursor_app, (after_cursor_none c evicted); [done|].
    intros x Hx Hc. destruct (sorted_ids_app _ _ Hs) as [_ Hlt].
    unfold is_retention_gap, oldest_event_id in Hgap. rewrite E in Hgap. simpl in Hgap.
    assert (Hxe : id_lt (e_event_id x) (e_event_id e)) by (apply Hlt; [done|left]).
    pose proof (id_lt_trans _ _ _ Hc Hxe) as Hce. unfold id_lt in Hce. congruence.
Qed.

Lemma page_next_after s c limit :
  ep_next_after (events_page (Some c) limit s) =
  Some (match last (ep_events (events_page (Some c) limit s)) with Some e => e_event_id e | None => c end).
Proof. unfold events_page. rewrite events_since_spec. simpl. by destruct (last _). Qed.

Lemma page_oldest s c limit : ep_oldest_event_id (events_page c limit s) = oldest_event_id s.
Proof. unfold events_page. by destruct (events_since _ _ _) as [[? ?] ?]. Qed.
End Source.

Section Delivery.
Context (encode_event : MatchEvent -> str) (encode_cursor : EventId -> str) (decode_cursor : str -> option EventId).
(** JSON escapes the control characters of a text, and serde reads back the cursor it wrote; white space
    behind a value is skipped. *)
Context (event_one_line : forall e, CH_NEWLINE ∉ encode_event e).
Context (cursor_codec : forall id, decode_cursor (encode_cursor id ++ [CH_NEWLINE]) = Some id).

#[local] Notation page_bytes := (page_bytes encode_event).
#[local] Notation event_line := (event_line encode_event).
#[local] Notation load_cursor := (load_cursor decode_cursor).

Lemma split_event_line e : split_lines (event_line e) = ([encode_event e], []).
Proof.
  unfold Bridge.event_line. rewrite split_lines_app. change (lines [CH_NEWLINE]) with [[] : str].
  unfold lines, torn. rewrite split_no_newline by done. cbn [fst snd app]. by rewrite app_nil_r.
Qed.

Lemma split_page events : split_lines (page_bytes events) = (encode_event <$> events, []).
Proof.
  induction events as [|e events IH]; [done|].
  change (page_bytes (e :: events)) with (event_line e ++ page_bytes events).
  rewrite split_lines_app. unfold lines, torn. rewrite split_event_line, IH. by destruct events.
Qed.

(** Appending a page: every event but the first gets a line of its own; the first one does when the text
    ended with a line. *)
Lemma page_lines out events e :
  e ∈ tail events \/ (torn out = [] /\ e ∈ events) -> encode_event e ∈ lines (out ++ page_bytes events).
Proof.
  intros He. unfold lines at 1. rewrite split_lines_app. unfold lines, torn at 2. rewrite split_page. simpl.
  destruct events as [|e1 events]; [by destruct He as [He|[_ He]]; apply not_elem_of_nil in He|]. simpl.
  apply elem_of_app. right. destruct He as [He|[Ht He]].
  - right. apply list_elem_of_fmap. by exists e.
  - rewrite Ht. simpl. apply (list_elem_of_fmap_2 encode_event (e1 :: events) e) in He. exact He.
Qed.

Lemma page_torn out events : torn (out ++ page_bytes events) = if decide (events = []) then torn out else [].
Proof.
  unfold torn. rewrite split_lines_app. unfold lines, torn. rewrite split_page. destruct events; simpl; [by rewrite app_nil_r|done].
Qed.

(** A page appended behind an unfinished line is glued to it. *)
Lemma glued_lines out p e rest :
  torn out = [] -> CH_NEWLINE ∉ p ->
  lines (out ++ p ++ page_bytes (e :: rest)) = lines out ++ (p ++ encode_event e) :: (encode_event <$> rest).
Proof.
  intros Ht Hp.
  assert (E : split_lines (p ++ page_bytes (e :: rest)) = ((p ++ encode_event e) :: (encode_event <$> rest), [])).
  { rewrite split_lines_app. unfold lines, torn. by rewrite split_page, split_no_newline. }
  unfold lines at 1. rewrite split_lines_app. unfold lines at 1, torn at 2. by rewrite E, Ht.
Qed.

(** An event has a whole line in the file. *)
Definition delivered (e : MatchEvent) (d : BridgeDisk) : Prop := encode_event e ∈ lines (bd_out d).

(** ** The world of a bridge *)

Context `{RaftTypes}.

(** The history of events, the bridge's files, and the bridge while it runs. *)
Record World : Type := mkWorld { wo_history : list MatchEvent; wo_disk : BridgeDisk; wo_run : option Bridge }.

(** A cut of the first line of a page; a cut anywhere else, or none, is not. *)
Definition tears_first (page : EventsResponse) (d d' : BridgeDisk) : Prop :=
  match ep_events page with
  | [] => False
  | e :: _ => exists k, (0 < k < length (event_line e))%nat /\ bd_out d' = bd_out d ++ take k (event_line e)
  end.

Lemma whole_line_kept page d k :
  match ep_events page with [] => True | e :: _ => (length (event_line e) <= length (take k (page_bytes (ep_events page))))%nat end ->
  ~ tears_first page d (set_bd_out (bd_out d ++ take k (page_bytes (ep_events page))) d).
Proof.
  unfold tears_first. destruct (ep_events page) as [|e r]; [by intros _ []|]. intros Hl (k' & Hk & E).
  apply app_inv_head in E. rewrite E, length_take in Hl. lia.
Qed.

(** What can happen: the history grows, the bridge starts from its checkpoint, takes a turn with a page
    of a store, or crashes inside one. *)
Inductive bridge_step (opt : BridgeOpt) (may_tear : bool) : World -> World -> Prop :=
| step_history new h d run :
    sorted_ids (h ++ new) -> bridge_step opt may_tear (mkWorld h d run) (mkWorld (h ++ new) d run)
| step_start cursor h d :
    load_cursor d = Ok cursor ->
    bridge_step opt may_tear (mkWorld h d None) (mkWorld h d (Some (mkBridge cursor 0)))
| step_turn s b exit disks h d :
    retains s h ->
    bridge_turn encode_event encode_cursor opt (PollPage (events_page (br_cursor b) (bo_limit opt) s)) b d
      = (exit, disks) ->
    bridge_step opt may_tear (mkWorld h d (Some b))
      (mkWorld h (turn_disk disks d) (match exit with BridgeOn b' => Some b' | _ => None end))
| step_crash s b d' h d :
    retains s h -> is_retention_gap (br_cursor b) (oldest_event_id s) = false ->
    crashed encode_event encode_cursor (events_page (br_cursor b) (bo_limit opt) s) d d' ->
    (may_tear = true \/ ~ tears_first (events_page (br_cursor b) (bo_limit opt) s) d d') ->
    bridge_step opt may_tear (mkWorld h d (Some b)) (mkWorld h d' None).

(** The files at the checkpoint [c], for deliveries from [c0] on: everything up to [c] has its line, and
    an unfinished line is behind a first event that has one. *)
Record disk_ok (c0 : EventId) (h : list MatchEvent) (c : EventId) (d : BridgeDisk) : Prop := mkDiskOk {
  do_cursor : load_cursor d = Ok (Some c);
  do_known : exists e, e ∈ h /\ e_event_id e = c;
  do_delivered : forall e, e ∈ h -> id_lt c0 (e_event_id e) -> ~ id_lt c (e_event_id e) -> delivered e d;
  do_torn : torn (bd_out d) = [] \/
    exists e rest, after_cursor (Some c) h = e :: rest /\ delivered e d;
}.

Lemma disk_ok_history c0 h new c d : sorted_ids (h ++ new) -> disk_ok c0 h c d -> disk_ok c0 (h ++ new) c d.
Proof.
  intros Hs [A (e0 & Hin & He0) C D]. destruct (sorted_ids_app _ _ Hs) as [_ Hlt].
  assert (Hnew : forall e, e ∈ new -> id_lt c (e_event_id e)) by (intros e He; rewrite <- He0; by apply Hlt).
  split; [done| | |].
  - exists e0. split; [|done]. apply elem_of_app. by left.
  - intros e [He|He]%elem_of_app Hc0 Hc; [by apply C|]. by apply Hnew in He.
  - destruct D as [D|(e & rest & E & Hd)]; [by left|right]. exists e, (rest ++ new).
    by rewrite after_cursor_app, E, (after_cursor_all c new).
Qed.

(** A page that is published, whole or in part, with the checkpoint still in place. *)
Lemma disk_ok_append c0 h c d more :
  disk_ok c0 h c d ->
  (torn (bd_out d ++ more) = [] \/
   exists e rest, after_cursor (Some c) h = e :: rest /\ encode_event e ∈ lines (bd_out d ++ more)) ->
  disk_ok c0 h c (set_bd_out (bd_out d ++ more) d).
Proof.
  intros [A B C _] Ht. split; [done|done| |done]. intros e He H0 Hc. by apply lines_app_incl, C.
Qed.

(** The first event behind the checkpoint is in the file once its line is appended. *)
Lemma first_line c0 h c d e rest more :
  disk_ok c0 h c d -> after_cursor (Some c) h = e :: rest ->
  encode_event e ∈ lines (bd_out d ++ event_line e ++ more).
Proof.
  intros [_ _ _ D] E. rewrite app_assoc. apply lines_app_incl. destruct D as [D|(e' & rest' & E' & Hd)].
  - replace (event_line e) with (page_bytes [e]) by apply app_nil_r. apply page_lines. right. split; [done|left].
  - rewrite E in E'. injection E' as <- <-. by apply lines_app_incl.
Qed.

Lemma disk_ok_partial c0 h c d page n k :
  disk_ok c0 h c d -> ep_events page = take n (after_cursor (Some c) h) ->
  ~ tears_first page d (set_bd_out (bd_out d ++ take k (page_bytes (ep_events page))) d) ->
  disk_ok c0 h c (set_bd_out (bd_out d ++ take k (page_bytes (ep_events page))) d).
Proof.
  intros Hd Hp Htear. apply disk_ok_append; [done|]. unfold tears_first in Htear.
  destruct (ep_events page) as [|e r] eqn:Ev.
  { change (page_bytes []) with ([] : str). rewrite take_nil, app_nil_r. apply Hd. }
  assert (E : exists rest, after_cursor (Some c) h = e :: rest).
  { destruct (after_cursor (Some c) h) as [|e' rest], n; try done. injection Hp as -> _. by exists rest. }
  destruct E as [rest E]. change (page_bytes (e :: r)) with (event_line e ++ page_bytes r) in *.
  destruct (Nat.eq_dec k 0%nat) as [->|Hk]; [rewrite app_nil_r; apply Hd|].
  destruct (Nat.lt_ge_cases k (length (event_line e))) as [Hlt|Hge].
  - exfalso. apply Htear. exists k. split; [lia|]. simpl. by rewrite take_app_le by lia.
  - right. exists e, rest. split; [done|]. rewrite take_app_ge by lia. by eapply first_line.
Qed.

Lemma disk_ok_publish c0 h c d page n :
  disk_ok c0 h c d -> ep_events page = take n (after_cursor (Some c) h) ->
  disk_ok c0 h c (publish_page encode_event page d).
Proof.
  intros Hd Hp. unfold publish_page. apply disk_ok_append; [done|]. rewrite page_torn. case_decide as En; [|by left].
  rewrite En, app_nil_r. apply Hd.
Qed.

(** Every event of a published page has its line. *)
Lemma published_line c0 h c d page n x :
  disk_ok c0 h c d -> ep_events page = take n (after_cursor (Some c) h) -> x ∈ ep_events page ->
  encode_event x ∈ lines (bd_out (publish_page encode_event page d)).
Proof.
  intros Hd Hp Hx. unfold publish_page. simpl. destruct (do_torn _ _ _ _ Hd) as [D|(e & rest & E & He)].
  - apply page_lines. by right.
  - rewrite E in Hp. destruct (ep_events page) as [|e' r] eqn:Ev; [by apply not_elem_of_nil in Hx|].
    destruct n; [done|]. injection Hp as -> Hr. apply elem_of_cons in Hx as [->|Hx]; [by apply lines_app_incl|].
    apply page_lines. by left.
Qed.

(** The cursor moves to the last event of the page. *)
Definition next_cursor (c : EventId) (events : list MatchEvent) : EventId :=
  match last events with Some e => e_event_id e | None => c end.

Lemma disk_ok_checkpoint c0 h c d page n d' :
  sorted_ids h -> disk_ok c0 h c d -> ep_events page = take n (after_cursor (Some c) h) ->
  bd_out d' = bd_out (publish_page encode_event page d) ->
  load_cursor d' = Ok (Some (next_cursor c (ep_events page))) ->
  disk_ok c0 h (next_cursor c (ep_events page)) d'.
Proof.
  intros Hs Hd Hp Hout Hload. pose proof (disk_ok_publish _ _ _ _ _ _ Hd Hp) as [_ B C D].
  destruct (last (ep_events page)) as [e|] eqn:El; unfold next_cursor in *; rewrite El in *.
  2:{ split; [done|done| |].
      - intros x Hx H0 Hc. unfold delivered. rewrite Hout. by apply C.
      - unfold delivered. rewrite Hout. exact D. }
  apply last_Some in El as [init El].
  destruct B as (ec & Hec & Hc). destruct (after_cursor_history h ec Hs Hec) as [pre Epre]. rewrite Hc in Epre.
  set (later := after_cursor (Some c) h) in *.
  assert (Hlater : later = init ++ e :: drop n later) by (rewrite <- (take_drop n later) at 1; by rewrite <- Hp, El, <- app_assoc).
  assert (Hin : e ∈ h) by (rewrite Epre, Hlater; set_solver).
  assert (Hafter : after_cursor (Some (e_event_id e)) h = drop n later).
  { rewrite Epre, Hlater at 1. rewrite app_comm_cons, app_assoc. apply after_cursor_sorted.
    by rewrite <- app_assoc, <- app_comm_cons, <- Hlater, <- Epre. }
  split; [done|by exists e| |].
  - intros x Hx H0 Hle. unfold delivered. rewrite Hout. destruct (event_id_ltb c (e_event_id x)) eqn:Ecx.
    2:{ apply C; [done|done|]. unfold id_lt. congruence. }
    apply (published_line c0 h c d page n x Hd Hp).
    assert (Hxl : x ∈ later) by (by apply elem_after_cursor). rewrite Hlater in Hxl. rewrite El.
    assert (Hnot : x ∉ drop n later) by (rewrite <- Hafter; by intros [? _]%elem_after_cursor).
    set_solver.
  - left. unfold torn. rewrite Hout. unfold publish_page. simpl. fold (torn (bd_out d ++ page_bytes (ep_events page))).
    rewrite page_torn, decide_False; [done|]. rewrite El. by destruct init.
Qed.

Lemma disk_ok_tmp c0 h c d tmp : disk_ok c0 h c d -> disk_ok c0 h c (set_bd_tmp tmp d).
Proof. intros [A B C D]. by split. Qed.

(** The directories of a checkpoint: the old one three times, then the new one. *)
Lemma checkpoint_cases page d d' next :
  ep_next_after page = Some next -> d' ∈ checkpoint encode_cursor page d ->
  (exists tmp, d' = set_bd_tmp (Some tmp) d) \/
  (bd_out d' = bd_out d /\ load_cursor d' = Ok (Some next) /\ bd_tmp d' = None).
Proof.
  unfold checkpoint, save_cursor. intros -> Hin.
  repeat (apply elem_of_cons in Hin as [->|Hin]; [try (left; by eexists)|]); [|by apply not_elem_of_nil in Hin].
  right. split; [done|]. split; [|done]. unfold Bridge.load_cursor. simpl. by rewrite cursor_codec.
Qed.

Definition world_ok (c0 : EventId) (w : World) : Prop :=
  sorted_ids (wo_history w) /\
  exists c, disk_ok c0 (wo_history w) c (wo_disk w) /\
    match wo_run w with Some b => br_cursor b = Some c | None => True end.

Lemma bridge_step_ok opt c0 w w' : bridge_step opt false w w' -> world_ok c0 w -> world_ok c0 w'.
Proof.
  intros Hstep (Hs & c & Hd & Hr).
  destruct Hstep as [new h d run Hs'|cursor h d Hload|s b exit disks h d Hret Hturn|s b d' h d Hret Hgap Hcrash Htear];
    simpl in *.
  - split; [done|]. exists c. split; [by apply disk_ok_history|done].
  - split; [done|]. exists c. split; [done|]. simpl. rewrite (do_cursor _ _ _ _ Hd) in Hload. by injection Hload as <-.
  - unfold bridge_turn in Hturn. rewrite page_oldest in Hturn. rewrite Hr in Hturn.
    destruct (is_retention_gap (Some c) (oldest_event_id s)) eqn:Hgap.
    { injection Hturn as <- <-. split; [done|]. by exists c. }
    pose proof (page_is_next s h c (bo_limit opt) Hs Hret Hgap) as Hp.
    pose proof (page_next_after s c (bo_limit opt)) as Hn.
    set (page := events_page (Some c) (bo_limit opt) s) in *. fold (next_cursor c (ep_events page)) in Hn.
    split; [destruct exit; done|]. exists (next_cursor c (ep_events page)).
    assert (Hdisk : disk_ok c0 h (next_cursor c (ep_events page)) (turn_disk disks d)).
    { assert (Elast : exists d', turn_disk disks d = d' /\ bd_out d' = bd_out (publish_page encode_event page d)
                /\ load_cursor d' = Ok (Some (next_cursor c (ep_events page)))).
      { destruct (negb _ && _); injection Hturn as _ <-; eexists; (split; [reflexivity|]); unfold turn_disk, checkpoint;
          rewrite Hn; simpl; (split; [done|]); unfold Bridge.load_cursor; simpl; by rewrite cursor_codec. }
      destruct Elast as (d' & -> & Eout & Eload). by eapply disk_ok_checkpoint. }
    destruct (negb _ && _); injection Hturn as <- <-; (split; [exact Hdisk|]); [done|]. simpl. by rewrite Hn.
  - rewrite Hr in *. pose proof (page_is_next s h c (bo_limit opt) Hs Hret Hgap) as Hp.
    pose proof (page_next_after s c (bo_limit opt)) as Hn.
    set (page := events_page (Some c) (bo_limit opt) s) in *. fold (next_cursor c (ep_events page)) in Hn.
    destruct Htear as [?|Htear]; [done|]. split; [done|].
    pose proof (disk_ok_publish _ _ _ _ _ _ Hd Hp) as Hpub.
    destruct Hcrash as [k|d' Hin|k d' tmp Hin Htmp].
    + exists c. split; [|done]. by eapply disk_ok_partial.
    + destruct (checkpoint_cases _ _ _ _ Hn Hin) as [[tmp ->]|(Eout & Eload & _)].
      * exists c. split; [by apply disk_ok_tmp|done].
      * eexists. split; [|done]. eapply disk_ok_checkpoint; [done|exact Hd|exact Hp|exact Eout|exact Eload].
    + exists c. split; [|done]. destruct (checkpoint_cases _ _ _ _ Hn Hin) as [[tmp' ->]|(_ & _ & Et)]; [|congruence].
      by apply disk_ok_tmp, disk_ok_tmp.
Qed.

(** C20: The bridge delivers at least once. Start it on a file that ends with a line, from a checkpoint
    [c0] that is the id of an event. Whatever happens then (the log grows, windows move, leaders and
    their retention change, the bridge is stopped, restarted or crashes between any two system calls
    or inside a write, the first line of a page alone excepted), its checkpoint is a valid cursor and
    every event of the log behind [c0] and up to the checkpoint has a line of its own in the file. *)
Theorem bridge_delivers_at_least_once opt history c0 d w' :
  sorted_ids history -> (exists e, e ∈ history /\ e_event_id e = c0) ->
  load_cursor d = Ok (Some c0) -> torn (bd_out d) = [] ->
  rtc (bridge_step opt false) (mkWorld history d None) w' ->
  exists c, load_cursor (wo_disk w') = Ok (Some c) /\
    forall e, e ∈ wo_history w' -> id_lt c0 (e_event_id e) -> ~ id_lt c (e_event_id e) ->
      encode_event e ∈ lines (bd_out (wo_disk w')).
Proof.
  intros Hs Hin Hload Ht Hrun.
  assert (Hok : world_ok c0 (mkWorld history d None)).
  { split; [done|]. exists c0. split; [|done]. split; [done|done| |by left]. intros e _ H0 Hn. by destruct Hn. }
  assert (Hend : world_ok c0 w').
  { clear - Hrun Hok event_one_line cursor_codec. induction Hrun as [|w1 w2 w3 Hstep _ IH]; [done|].
    apply IH. by eapply bridge_step_ok. }
  destruct Hend as (_ & c & [A B C D] & _). by exists c.
Qed.

(** The events behind a cursor that is not older than the window are all retained. *)
Lemma behind_cursor_retained s history c e :
  sorted_ids history -> retains s history -> events s <> [] ->
  is_retention_gap (Some c) (oldest_event_id s) = false ->
  e ∈ history -> id_lt c (e_event_id e) -> e ∈ events s.
Proof.
  intros Hs [evicted ->] Hne Hgap He Hc. apply elem_of_app in He as [He|He]; [exfalso|done].
  unfold is_retention_gap, oldest_event_id in Hgap. destruct (events s) as [|o w]; [done|]. simpl in Hgap.
  destruct (sorted_ids_app _ _ Hs) as [_ Hlt]. pose proof (Hlt e o He ltac:(left)) as Heo.
  pose proof (id_lt_trans _ _ _ Hc Heo) as Hco. unfold id_lt in Hco. congruence.
Qed.

(** A window that is newer than the cursor does not hold the cursor's event. *)
Lemma gap_evicted s history e :
  sorted_ids history -> retains s history ->
  is_retention_gap (Some (e_event_id e)) (oldest_event_id s) = true -> e ∉ events s.
Proof.
  intros Hs [evicted ->] Hgap He. apply sorted_ids_app in Hs as [Hs _]. unfold oldest_event_id in Hgap.
  destruct (events s) as [|o w]; [done|]. simpl in Hgap. apply elem_of_cons in He as [->|He].
  - by destruct (id_lt_irrefl (e_event_id o)).
  - destruct (sorted_ids_app [o] w Hs) as [_ Hlt]. pose proof (Hlt o e ltac:(left) He) as Hoe.
    destruct (id_lt_irrefl (e_event_id o)). by eapply id_lt_trans.
Qed.

(** The bridge never skips an event. A turn from the checkpoint [c] of an event, with a page of any
    store that retains some events of the log, comes to one of two things. Either the checkpoint's
    event has been evicted and the bridge exits with code 2, its files untouched; or every event behind
    the checkpoint is still retained, and the turn appends exactly the next events of the log, at most
    a page of them, and moves the checkpoint, in the file and in memory, to the last of them. *)
Theorem bridge_never_skips opt s history e0 b d :
  sorted_ids history -> e0 ∈ history -> retains s history -> events s <> [] ->
  br_cursor b = Some (e_event_id e0) ->
  let next := take (bo_limit opt) (after_cursor (br_cursor b) history) in
  let moved := Some (next_cursor (e_event_id e0) next) in
  let '(exit, disks) :=
    bridge_turn encode_event encode_cursor opt (PollPage (events_page (br_cursor b) (bo_limit opt) s)) b d in
  match exit with
  | BridgeExits code => code = EXIT_RETENTION_GAP /\ disks = [] /\ e0 ∉ events s
  | BridgeOn _ | BridgeDone =>
      (forall e, e ∈ history -> id_lt (e_event_id e0) (e_event_id e) -> e ∈ events s)
      /\ bd_out (turn_disk disks d) = bd_out d ++ page_bytes next
      /\ load_cursor (turn_disk disks d) = Ok moved
      /\ (forall b', exit = BridgeOn b' -> br_cursor b' = moved)
  end.
Proof.
  intros Hs Hin Hret Hne Hb. rewrite Hb. cbv zeta. unfold bridge_turn. rewrite page_oldest, Hb.
  destruct (is_retention_gap _ _) eqn:Hgap.
  { split; [done|]. split; [done|]. by eapply gap_evicted. }
  pose proof (page_is_next s history _ (bo_limit opt) Hs Hret Hgap) as Hp. rewrite decide_False in Hp by done.
  pose proof (page_next_after s (e_event_id e0) (bo_limit opt)) as Hn.
  set (page := events_page _ _ s) in *. fold (next_cursor (e_event_id e0) (ep_events page)) in Hn.
  rewrite Hp in Hn. rewrite <- Hp in *. unfold checkpoint. rewrite Hn. cbn [save_cursor].
  destruct (negb _ && _).
  all: split; [by intros e; eapply behind_cursor_retained|]; split; [done|];
    split; [unfold Bridge.load_cursor; simpl; by rewrite cursor_codec|].
  - done.
  - by intros b' [= <-].
Qed.

(** A torn first line loses its event. Let the bridge crash with a proper part of the first event of
    its page in the file; started again, it appends the page behind that part and moves its checkpoint
    past the event, which has no line in the file: the line it should have is glued to the part. *)
Theorem torn_first_line_is_lost opt s history c pages d e rest k :
  sorted_ids history -> retains s history ->
  is_retention_gap (Some c) (oldest_event_id s) = false ->
  ep_events (events_page (Some c) (bo_limit opt) s) = e :: rest ->
  load_cursor d = Ok (Some c) -> torn (bd_out d) = [] -> encode_event e ∉ lines (bd_out d) ->
  encode_event e ∉ encode_event <$> rest -> (0 < k <= length (encode_event e))%nat ->
  exists w' c', rtc (bridge_step opt true) (mkWorld history d (Some (mkBridge (Some c) pages))) w'
    /\ load_cursor (wo_disk w') = Ok (Some c')
    /\ id_lt c (e_event_id e) /\ ~ id_lt c' (e_event_id e)
    /\ encode_event e ∉ lines (bd_out (wo_disk w')).
Proof.
  intros Hs Hret Hgap Hpage Hload Ht Hnew Hrest Hk.
  pose proof (page_next_after s c (bo_limit opt)) as Hn.
  set (page := events_page (Some c) (bo_limit opt) s) in *. fold (next_cursor c (ep_events page)) in Hn.
  set (d1 := set_bd_out (bd_out d ++ take k (page_bytes (ep_events page))) d).
  destruct (bridge_turn encode_event encode_cursor opt (PollPage page) (mkBridge (Some c) 0) d1) as [exit disks] eqn:Hturn.
  exists (mkWorld history (turn_disk disks d1) (match exit with BridgeOn b' => Some b' | _ => None end)).
  exists (next_cursor c (ep_events page)).
  assert (Elast : bd_out (turn_disk disks d1) = bd_out d1 ++ page_bytes (ep_events page)
            /\ load_cursor (turn_disk disks d1) = Ok (Some (next_cursor c (ep_events page)))).
  { unfold bridge_turn in Hturn. subst page. rewrite page_oldest in Hturn. cbn [br_cursor] in Hturn. rewrite Hgap in Hturn.
    unfold checkpoint in Hturn. rewrite Hn in Hturn.
    destruct (negb _ && _); injection Hturn as <- <-; unfold turn_disk; simpl; (split; [done|]);
      unfold Bridge.load_cursor; simpl; by rewrite cursor_codec. }
  destruct Elast as [Eout Eload].
  assert (Ek : take k (page_bytes (ep_events page)) = take k (encode_event e)).
  { rewrite Hpage. change (page_bytes (e :: rest)) with (event_line e ++ page_bytes rest).
    unfold Bridge.event_line. rewrite !take_app_le by (rewrite ?length_app; lia). done. }
  destruct (last (e :: rest)) as [x|] eqn:Ex; [|by apply last_None in Ex].
  destruct (page_last_not_before s history c (bo_limit opt) e rest x Hs Hret Hpage Ex) as [Hce Hxe].
  split.
  { eapply rtc_l; [|eapply rtc_l; [|apply rtc_once]].
    - eapply (step_crash opt true s _ d1); [done|done|apply crash_publish|by left].
    - by eapply step_start.
    - by eapply step_turn. }
  split; [done|]. split; [done|]. split; [unfold next_cursor; by rewrite Hpage, Ex|].
  cbn [wo_disk]. rewrite Eout. unfold d1. cbn [set_bd_out bd_out]. rewrite Ek, Hpage, <- app_assoc.
  rewrite glued_lines; [|done|].
  - intros [Hin|Hin]%elem_of_app; [done|]. apply elem_of_cons in Hin as [Hin|Hin]; [|done].
    apply (f_equal length) in Hin. rewrite length_app, length_take in Hin. lia.
  - intros (i & Hi & _)%elem_of_take. apply (event_one_line e). by eapply list_elem_of_lookup_2.
Qed.
End Delivery.

(** ** The state machine as the source *)

Section Engine.
Context `{RaftTypes} `{I256Ops} `{!I256Laws}.

(** Applying an entry extends the history by the entry's events, and the store retains a suffix of it. *)
Lemma apply_entry_extends (node : NodeLocal) (entry : Entry) s history :
  sm_ok s -> Forall request_typed (entry_requests entry) ->
  book_sequence (orderbook s) + Z.of_nat (length (entry_requests entry)) <= U64_MAX ->
  retains s history -> sorted_ids history ->
  Forall (fun e => ev_log_index (e_event_id e) < log_id_index (en_log_id entry)) history ->
  match apply_entry node entry s with
  | Ret (_, s', _) =>
      exists new, retains s' (history ++ new) /\
        (Z.of_nat (length new) <= U32_MAX -> sorted_ids (history ++ new))
  | Panic => True
  | Diverged => False
  end.
Proof.
  intros Hs Ht Hb [evicted ->] Hsort Hbef. pose proof (apply_entry_spec node entry s Hs Ht Hb) as Hx.
  destruct (apply_entry _ _ _) as [[[resp s'] fx]| |]; [|done|done].
  destruct Hx as (_ & _ & new & subs & Hg). exists new.
  pose proof (gr_events _ _ _ _ _ _ _ Hg) as Ee. cbn [events set_applied] in Ee. split.
  - exists (evicted ++ take (length (events s ++ new) - max_events s) (events s ++ new)).
    by rewrite <- !app_assoc, Ee, take_drop.
  - intros Hmax. unfold sorted_ids. rewrite fmap_app. pose proof (gr_ordinals _ _ _ _ _ _ _ Hg ltac:(lia) ltac:(lia)) as Hn.
    apply strongly_sorted_app; [exact Hsort|by eapply numbered_sorted|].
    intros a b (e & -> & He)%list_elem_of_fmap (e' & -> & He')%list_elem_of_fmap.
    destruct (numbered_ids _ _ _ _ Hn He') as (i & Hi & ->).
    pose proof (proj1 (Forall_forall _ _) Hbef e He) as Hlt. simpl in Hlt. unfold id_lt, event_id_ltb. simpl. lia.
Qed.
End Engine.

(** ** Concrete runs *)

#[local] Instance bridge_raft : RaftTypes :=
  {| LogId := Z; Membership := unit; StoredMembership := option Z; log_id_index := fun i => i;
     stored_membership_new := fun l _ => l; stored_membership_default := None |}.

Module BridgeRuns.
(** A codec that writes numbers in brackets, and one that writes a cursor as its fields. *)
Definition natural (n : Z) : str := show_u128 (Z.abs n mod 2 ^ 64).
Definition encode_event (e : MatchEvent) : str :=
  lit "{" ++ natural (ev_log_index (e_event_id e)) ++ lit ":" ++ natural (ev_ordinal (e_event_id e)) ++ lit "}".
Definition encode_cursor (id : EventId) : str := [ev_log_index id; ev_ordinal id].
Definition decode_cursor (bytes : str) : option EventId :=
  match bytes with [a; b; _] => Some (mkEventId a b) | _ => None end.

Lemma one_line e : CH_NEWLINE ∉ encode_event e.
Proof.
  assert (Hn : forall n, CH_NEWLINE ∉ natural n).
  { intros n. apply all_digits_not_elem; [done|]. apply (show_u128_spec (Z.abs n mod 2 ^ 64)).
    pose proof (Z.mod_pos_bound (Z.abs n) (2 ^ 64)). lia. }
  unfold encode_event. intros Hin. repeat (apply elem_of_app in Hin as [Hin|Hin]); try (by apply Hn in Hin);
    vm_compute in Hin; apply elem_of_cons in Hin as [?|Hin]; try discriminate; by apply not_elem_of_nil in Hin.
Qed.

Lemma codec id : decode_cursor (encode_cursor id ++ [CH_NEWLINE]) = Some id.
Proof. by destruct id. Qed.

Definition event (i : Z) : MatchEvent :=
  mkMatchEvent (mkEventId i 0) Rested i Buy None None 100 1 100 UnitBase None None 0 0 ERRORS_NONE None.

(** Four events, of which the store has evicted the first; the checkpoint is on the second. *)
Definition history : list MatchEvent := [event 8; event 9; event 10; event 11].
Definition store : StateMachineStoreInner := set_events [event 9; event 10; event 11] 1 (fresh_store 3 10).

Definition opt : BridgeOpt := mkBridgeOpt 1 0 0.
Definition disk : BridgeDisk := mkBridgeDisk [] (Some [9; 0; CH_NEWLINE]) None.

Lemma history_sorted : sorted_ids history.
Proof. unfold sorted_ids. repeat constructor. Qed.
Lemma store_retains : retains store history.
Proof. by exists [event 8]. Qed.
End BridgeRuns.

(** A run: the first turn publishes event 10; the bridge crashes when the line of event 11 is written and
    its checkpoint is not; started again it publishes the line once more. *)
Lemma bridge_delivers_at_least_once_witness :
  exists w', rtc (bridge_step BridgeRuns.encode_event BridgeRuns.encode_cursor BridgeRuns.decode_cursor BridgeRuns.opt false)
               (mkWorld BridgeRuns.history BridgeRuns.disk None) w'
  /\ lines (bd_out (wo_disk w')) = [lit "{10:0}"; lit "{11:0}"; lit "{11:0}"]
  /\ exists c, load_cursor BridgeRuns.decode_cursor (wo_disk w') = Ok (Some c) /\
    forall e, e ∈ BridgeRuns.history -> id_lt (mkEventId 9 0) (e_event_id e) -> ~ id_lt c (e_event_id e) ->
      BridgeRuns.encode_event e ∈ lines (bd_out (wo_disk w')).
Proof.
  assert (Hrun : exists w', rtc (bridge_step BridgeRuns.encode_event BridgeRuns.encode_cursor BridgeRuns.decode_cursor BridgeRuns.opt false)
            (mkWorld BridgeRuns.history BridgeRuns.disk None) w' /\ wo_history w' = BridgeRuns.history
            /\ lines (bd_out (wo_disk w')) = [lit "{10:0}"; lit "{11:0}"; lit "{11:0}"]).
  { eexists. split.
    - eapply rtc_l; [apply (step_start _ _ _ _ _ (Some (mkEventId 9 0))); reflexivity|].
      eapply rtc_l; [eapply (step_turn _ _ _ _ _ BridgeRuns.store); [exact BridgeRuns.store_retains|vm_compute; reflexivity]|].
      eapply rtc_l; [eapply (step_crash _ _ _ _ _ BridgeRuns.store); [exact BridgeRuns.store_retains|reflexivity|apply (crash_publish _ _ _ _ 7)|right]|].
      { apply whole_line_kept. vm_compute. lia. }
      eapply rtc_l; [apply (step_start _ _ _ _ _ (Some (mkEventId 10 0))); vm_compute; reflexivity|].
      apply rtc_once. eapply (step_turn _ _ _ _ _ BridgeRuns.store); [exact BridgeRuns.store_retains|vm_compute; reflexivity].
    - split; vm_compute; reflexivity. }
  destruct Hrun as (w' & Hrun & Hh & Hl). exists w'. split; [exact Hrun|]. split; [exact Hl|]. rewrite <- Hh.
  apply (bridge_delivers_at_least_once BridgeRuns.encode_event BridgeRuns.encode_cursor BridgeRuns.decode_cursor
           BridgeRuns.one_line BridgeRuns.codec BridgeRuns.opt BridgeRuns.history (mkEventId 9 0) BridgeRuns.disk w') in Hrun.
  - exact Hrun.
  - exact BridgeRuns.history_sorted.
  - exists (BridgeRuns.event 9). split; [right; left|reflexivity].
  - reflexivity.
  - reflexivity.
Defined.

Lemma bridge_never_skips_witness :
  BridgeRuns.event 8 ∉ events BridgeRuns.store /\
  (bridge_turn BridgeRuns.encode_event BridgeRuns.encode_cursor BridgeRuns.opt
     (PollPage (events_page (Some (mkEventId 8 0)) 1 BridgeRuns.store)) (mkBridge (Some (mkEventId 8 0)) 0) BridgeRuns.disk).2 = [].
Proof.
  pose proof (bridge_never_skips BridgeRuns.encode_event BridgeRuns.encode_cursor BridgeRuns.decode_cursor
                BridgeRuns.codec BridgeRuns.opt BridgeRuns.store BridgeRuns.history (BridgeRuns.event 8)
                (mkBridge (Some (mkEventId 8 0)) 0) BridgeRuns.disk BridgeRuns.history_sorted ltac:(left)
                BridgeRuns.store_retains ltac:(discriminate) eq_refl) as H.
  vm_compute in H. destruct H as (_ & _ & H). split; [exact H|reflexivity].
Defined.

Lemma torn_first_line_is_lost_witness :
  exists w' c',
    rtc (bridge_step BridgeRuns.encode_event BridgeRuns.encode_cursor BridgeRuns.decode_cursor BridgeRuns.opt true)
      (mkWorld BridgeRuns.history BridgeRuns.disk (Some (mkBridge (Some (mkEventId 9 0)) 0))) w'
    /\ load_cursor BridgeRuns.decode_cursor (wo_disk w') = Ok (Some c')
    /\ id_lt (mkEventId 9 0) (mkEventId 10 0) /\ ~ id_lt c' (mkEventId 10 0)
    /\ BridgeRuns.encode_event (BridgeRuns.event 10) ∉ lines (bd_out (wo_disk w')).
Proof.
  apply (torn_first_line_is_lost BridgeRuns.encode_event BridgeRuns.encode_cursor BridgeRuns.decode_cursor
           BridgeRuns.one_line BridgeRuns.codec BridgeRuns.opt BridgeRuns.store BridgeRuns.history (mkEventId 9 0) 0
           BridgeRuns.disk (BridgeRuns.event 10) [] 3 BridgeRuns.history_sorted BridgeRuns.store_retains).
  - reflexivity.
  - vm_compute. reflexivity.
  - reflexivity.
  - reflexivity.
  - vm_compute. apply not_elem_of_nil.
  - vm_compute. apply not_elem_of_nil.
  - vm_compute. lia.
Defined.
