(* ===== verification/MdSource.v ===== *)
(** * The sources of the market-data service ([src/demos/market_data_system/src/source.rs],
      [aeron_source.rs]) and the Aeron sink of the engine ([src/src/market_data/aeron.rs])

    The JSON lines reader over a file that grows, and the Aeron subscriber with its seven
    subscriptions. Aeron delivers the frames of one stream in order; when frames arrive is an event.
    serde's reading of a line is a parameter; text is the list of its characters. *)

From stdpp Require Import strings.
From S2P Require Import Prelude Fixed Order OrderBook MatchEvent MarketMessage Wire MdProtocol MdFeed.

(** ** JSON lines *)

(** The file, how far the open reader has read, and [position]. *)
Record JsonlReader : Type := mkJsonl { jr_file : str; jr_offset : nat; jr_position : Z }.

(** What one turn of the inner loop came to: an item for the channel, nothing, or the end of this opening. *)
Inductive ReadTurn : Type := ReadItem (item : option MarketMessage) | ReadNothing | ReadReopen.

Definition CH_LF : Z := 10.

(** [read_line]: up to and including the next line feed, or to the end of the file. *)
Fixpoint take_line (s : str) : str :=
  match s with
  | [] => []
  | c :: s => if c =? CH_LF then [c] else c :: take_line s
  end.

Definition is_white (c : Z) : bool := (c =? 32) || ((9 <=? c) && (c <=? 13)).

(** [trim_end], on ASCII white space. *)
Fixpoint trim_end (s : str) : str :=
  match s with
  | [] => []
  | c :: s => match trim_end s with [] => if is_white c then [] else [c] | t => c :: t end
  end.

Section Jsonl.
(** [serde_json::from_str::<JsonlRecord>], without the node id. *)
Variable parse_record : str -> option MarketMessage.

(** One turn of the loop of [open_and_read]. *)
Definition jsonl_turn (r : JsonlReader) : ReadTurn * JsonlReader :=
  let line := take_line (drop (jr_offset r) (jr_file r)) in
  match line with
  | [] =>
      if Z.of_nat (length (jr_file r)) <? jr_position r
      then (ReadReopen, mkJsonl (jr_file r) 0 0) else (ReadNothing, r)
  | _ =>
      let position := saturating_add_u64 (jr_position r) (Z.of_nat (length line)) in
      let r := mkJsonl (jr_file r) (jr_offset r + length line) position in
      match trim_end line with
      | [] => (ReadNothing, r)
      | trimmed => (ReadItem (parse_record trimmed), r)
      end
  end.

(** The writer appends, or the file is replaced by another one; the reader takes a turn. *)
Inductive JsonlEvent : Type := FileAppend (bytes : str) | FileReplace (bytes : str) | FileRead.

(** The items sent so far. *)
Definition jsonl_step (st : JsonlReader * list (option MarketMessage)) (e : JsonlEvent)
    : JsonlReader * list (option MarketMessage) :=
  let '(r, items) := st in
  match e with
  | FileAppend bytes => (mkJsonl (jr_file r ++ bytes) (jr_offset r) (jr_position r), items)
  | FileReplace bytes => (mkJsonl bytes (jr_offset r) (jr_position r), items)
  | FileRead =>
      let '(turn, r) := jsonl_turn r in
      (r, match turn with ReadItem item => items ++ [item] | _ => items end)
  end.

Definition jsonl_run (events : list JsonlEvent) (st : JsonlReader * list (option MarketMessage)) :=
  foldl jsonl_step st events.
End Jsonl.

(** ** Aeron *)

Definition STREAM_COUNT : nat := 7.
Definition POLL_LIMIT : nat := 16.

(** [AeronSink::publish]: the stream a message goes out on; [None] is an error. *)
Definition aeron_stream (stream_base stream : Z) : option Z :=
  if stream <? STREAM_TRADE then None
  else
    let id := stream_base + (stream - STREAM_TRADE) in
    if id <=? 65535 then Some id else None.

(** The frames waiting in each subscription, and the items sent to the assembler. *)
Record AeronSource : Type := mkAeron { ae_queues : list (list (list Z)); ae_items : list (Result MarketMessage WireError) }.

Definition AeronSource_new : AeronSource := mkAeron (replicate STREAM_COUNT []) [].

(** A frame arrives on a subscription; the loop polls one. *)
Inductive AeronEvent : Type := AeronArrive (offset : nat) (frame : list Z) | AeronPoll (offset : nat).

Definition poll_subscription (offset : nat) (a : AeronSource) : AeronSource :=
  let queue := default [] (ae_queues a !! offset) in
  mkAeron (<[offset := drop POLL_LIMIT queue]> (ae_queues a)) (ae_items a ++ (decode <$> take POLL_LIMIT queue)).

Definition aeron_step (a : AeronSource) (e : AeronEvent) : AeronSource :=
  match e with
  | AeronArrive offset frame =>
      mkAeron (alter (fun queue => queue ++ [frame]) offset (ae_queues a)) (ae_items a)
  | AeronPoll offset => poll_subscription offset a
  end.

(** One round of [poll_loop], nothing arriving meanwhile. *)
Definition poll_round (a : AeronSource) : AeronSource := foldl (fun a offset => poll_subscription offset a) a (seq 0 STREAM_COUNT).

Definition aeron_run (events : list AeronEvent) (a : AeronSource) : AeronSource := foldl aeron_step a events.

(** What the feed is given of an item. *)
Definition item_op (item : Result MarketMessage WireError) : feed_op :=
  match item with Ok m => OpMessage m | Err _ => OpError end.
