(* ===== verification/MdSourceSpec.v ===== *)
(** * Correctness of the sources of the market-data service

    The JSON lines reader gives every line once and in order; the Aeron source keeps the order of each
    stream, and what the feed makes of the order between two streams, which it does not keep. *)

From stdpp Require Import strings list.
From S2P Require Import Prelude Fixed Order OrderBook MatchEvent MarketMessage Wire WireSpec MdProtocol MdFeed MdFeedSpec MdSource.

(** ** JSON lines *)

Section Jsonl.
Context (parse_record : str -> option MarketMessage).

(** A line the writer appends, with its line feed, and what it is read as. *)
Definition whole_line (l : str) : str := l ++ [CH_LF].
Definition line_item (l : str) : option MarketMessage := parse_record (trim_end (whole_line l)).

(** Texts without a line feed that are not blank. *)
Definition record_line (l : str) : Prop := CH_LF ∉ l /\ trim_end (whole_line l) <> [].

(** The writer appends whole lines only. *)
Definition writes_lines (e : JsonlEvent) : Prop :=
  match e with
  | FileAppend bytes => exists l, bytes = whole_line l /\ record_line l
  | FileReplace _ => False
  | FileRead => True
  end.

Definition file_of (ls : list str) : str := mjoin (whole_line <$> ls).

Lemma take_line_whole l s : CH_LF ∉ l -> take_line (whole_line l ++ s) = whole_line l.
Proof.
  unfold whole_line. induction l as [|c l IH]; intros Hl; simpl; [done|].
  apply not_elem_of_cons in Hl as [Hc Hl]. destruct (Z.eqb_spec c CH_LF); [congruence|]. by rewrite IH.
Qed.

(** [done] has been read, [todo] has not. *)
Record reading (st : JsonlReader * list (option MarketMessage)) (read todo : list str) : Prop := mkReading {
  rd_lines : Forall record_line (read ++ todo);
  rd_file : jr_file st.1 = file_of (read ++ todo);
  rd_offset : jr_offset st.1 = length (file_of read);
  rd_position : 0 <= jr_position st.1 <= Z.of_nat (jr_offset st.1);
  rd_items : st.2 = line_item <$> read;
}.

Lemma file_of_app a b : file_of (a ++ b) = file_of a ++ file_of b.
Proof. unfold file_of. by rewrite fmap_app, join_app. Qed.

Lemma file_of_one l : file_of [l] = whole_line l.
Proof. apply app_nil_r. Qed.

Lemma read_step st read todo :
  reading st read todo ->
  match todo with
  | [] => reading (jsonl_step parse_record st FileRead) read []
  | l :: todo => reading (jsonl_step parse_record st FileRead) (read ++ [l]) todo
  end.
Proof.
  destruct st as [r items]. intros [A B C D E]. cbn [fst snd] in *. unfold jsonl_step, jsonl_turn.
  rewrite C, B, file_of_app, drop_app_length. destruct todo as [|l todo].
  - rewrite app_nil_r in *. cbn [file_of take_line fmap list_fmap mjoin list_join].
    replace (Z.of_nat (length (file_of read)) <? jr_position r) with false by (rewrite C in D; lia).
    split; cbn [fst snd]; rewrite ?app_nil_r; done.
  - apply Forall_app in A as [Ar At]. apply Forall_cons in At as [Hrec At]. pose proof Hrec as [Hl Hb].
    change (file_of (l :: todo)) with (whole_line l ++ file_of todo). rewrite take_line_whole by done.
    assert (Hm : forall A (a b : A), match whole_line l with [] => a | _ :: _ => b end = b) by (intros; by destruct l).
    rewrite Hm. clear Hm.
    destruct (trim_end (whole_line l)) as [|t ts] eqn:Et; [done|].
    split; cbn [fst snd jr_file jr_offset jr_position].
    + rewrite <- app_assoc. apply Forall_app. split; [done|]. by constructor.
    + by rewrite <- app_assoc, (file_of_app read).
    + by rewrite file_of_app, file_of_one, length_app.
    + unfold saturating_add_u64, U64_MAX. lia.
    + rewrite E, fmap_app. unfold line_item. simpl. by rewrite Et.
Qed.

(** The lines written by a run of events. *)
Definition written (events : list JsonlEvent) : list str :=
  omap (fun e => match e with FileAppend bytes => Some (removelast bytes) | _ => None end) events.

Lemma run_reading events st read todo :
  Forall writes_lines events -> reading st read todo ->
  exists read' todo', reading (jsonl_run parse_record events st) read' todo' /\
    read' ++ todo' = read ++ todo ++ written events.
Proof.
  intros He. revert st read todo. induction He as [|e events He _ IH]; intros st read todo Hst.
  { exists read, todo. by rewrite app_nil_r. }
  destruct e as [bytes|bytes|]; [|done|].
  - destruct He as (l & -> & Hl).
    assert (Hst' : reading (jsonl_step parse_record st (FileAppend (whole_line l))) read (todo ++ [l])).
    { destruct st as [r items], Hst as [A B C D E]. split; cbn [jsonl_step fst snd jr_file jr_offset jr_position] in *; try done.
      - rewrite app_assoc. apply Forall_app. split; [done|by constructor].
      - by rewrite B, app_assoc, (file_of_app (read ++ todo)), file_of_one. }
    destruct (IH _ _ _ Hst') as (read' & todo' & Hr & E). exists read', todo'. split; [done|].
    rewrite E. unfold written. simpl. unfold whole_line. by rewrite removelast_last, <- !app_assoc.
  - pose proof (read_step _ _ _ Hst) as Hst'. destruct todo as [|l todo].
    + destruct (IH _ _ _ Hst') as (read' & todo' & Hr & E). by exists read', todo'.
    + destruct (IH _ _ _ Hst') as (read' & todo' & Hr & E). exists read', todo'. split; [done|].
      rewrite E, <- app_assoc. done.
Qed.

(** Reading on reads the rest. *)
Lemma read_rest todo : forall st read,
  reading st read todo -> reading (jsonl_run parse_record (replicate (length todo) FileRead) st) (read ++ todo) [].
Proof.
  induction todo as [|l todo IH]; intros st read Hst; [by rewrite app_nil_r|].
  pose proof (read_step _ _ _ Hst) as Hst'. simpl. apply IH in Hst'. by rewrite <- app_assoc in Hst'.
Qed.

(** The JSON lines source gives every message once and in order. While whole lines are appended and
    turns are taken in any order, what has been sent is what the first lines of the file read as, one
    item for each; after as many further turns as lines are left, it is all of them. *)
Theorem jsonl_reads_lines_once (events : list JsonlEvent) :
  Forall writes_lines events ->
  let start := (mkJsonl [] 0 0, []) in
  exists n, (jsonl_run parse_record events start).2 = line_item <$> take n (written events) /\
    (jsonl_run parse_record (events ++ replicate (length (written events) - n) FileRead) start).2
    = line_item <$> written events.
Proof.
  intros He start.
  assert (H0 : reading start [] []) by (split; [constructor|done|done|simpl; lia|done]).
  destruct (run_reading events start [] [] He H0) as (read & todo & Hr & E). simpl in E.
  exists (length read). split.
  - rewrite <- E, take_app_length. apply Hr.
  - rewrite <- E, length_app. replace (length read + length todo - length read)%nat with (length todo) by lia.
    unfold jsonl_run. rewrite foldl_app. apply (read_rest todo _ read Hr).
Qed.
End Jsonl.

(** ** Aeron *)

(** The frames that arrived on a subscription. *)
Definition arrivals (offset : nat) (events : list AeronEvent) : list (list Z) :=
  omap (fun e => match e with
                 | AeronArrive i frame => if decide (i = offset) then Some frame else None
                 | AeronPoll _ => None
                 end) events.

(** A frame of the stream of its subscription: the engine publishes a message on the stream it names. *)
Definition on_stream (offset : nat) (frame : list Z) : Prop :=
  exists m, decode frame = Ok m /\ mm_stream m = STREAM_TRADE + Z.of_nat offset.

Definition event_ok (e : AeronEvent) : Prop :=
  match e with AeronArrive offset frame => (offset < STREAM_COUNT)%nat /\ on_stream offset frame | AeronPoll offset => (offset < STREAM_COUNT)%nat end.

Definition of_stream (offset : nat) (item : Result MarketMessage WireError) : bool :=
  match item with Ok m => mm_stream m =? STREAM_TRADE + Z.of_nat offset | Err _ => false end.

Definition items_of (offset : nat) (items : list (Result MarketMessage WireError)) : list (Result MarketMessage WireError) :=
  filter (fun item => of_stream offset item = true) items.

Lemma items_of_frames offset i frames :
  Forall (on_stream i) frames ->
  items_of offset (decode <$> frames) = if decide (i = offset) then decode <$> frames else [].
Proof.
  intros Hf. unfold items_of. induction Hf as [|frame frames (m & Hd & Hm) _ IH]; [by destruct (decide _)|].
  rewrite fmap_cons, filter_cons, IH, Hd. cbn [of_stream]. rewrite Hm. destruct (decide (i = offset)) as [->|Hne].
  - rewrite decide_True; [done|]. apply Z.eqb_refl.
  - rewrite decide_False; [done|]. lia.
Qed.

(** The frames that were polled and those that wait, of every subscription. *)
Definition queue_of (a : AeronSource) (offset : nat) : list (list Z) := default [] (ae_queues a !! offset).

Record fifo (events : list AeronEvent) (a : AeronSource) : Prop := mkFifo {
  ff_count : length (ae_queues a) = STREAM_COUNT;
  ff_frames : forall offset, Forall (on_stream offset) (queue_of a offset);
  ff_order : forall offset, (offset < STREAM_COUNT)%nat ->
    items_of offset (ae_items a) ++ (decode <$> queue_of a offset) = decode <$> arrivals offset events;
}.

Lemma fifo_step events a e : event_ok e -> fifo events a -> fifo (events ++ [e]) (aeron_step a e).
Proof.
  intros He [A B C]. unfold queue_of in *.
  assert (Happ : forall offset, arrivals offset (events ++ [e]) = arrivals offset events ++ arrivals offset [e])
    by (intros offset; apply omap_app).
  destruct e as [i frame|i]; cbn [aeron_step event_ok] in *.
  - destruct He as [Hi Hf]. assert (Hq : exists q, ae_queues a !! i = Some q) by (apply lookup_lt_is_Some; lia).
    destruct Hq as [q Hq]. split; cbn [ae_queues ae_items].
    + by rewrite length_alter.
    + intros offset. unfold queue_of. cbn [ae_queues]. destruct (decide (i = offset)) as [->|Hne].
      * rewrite list_lookup_alter_eq, Hq. simpl. specialize (B offset). rewrite Hq in B. apply Forall_app. split; [done|]. by constructor.
      * by rewrite list_lookup_alter_ne.
    + intros offset Ho. rewrite Happ, fmap_app. unfold queue_of. cbn [ae_queues ae_items]. rewrite <- (C offset Ho). unfold arrivals.
      simpl. destruct (decide (i = offset)) as [->|Hne].
      * rewrite list_lookup_alter_eq, Hq. simpl. by rewrite fmap_app, app_assoc.
      * rewrite list_lookup_alter_ne by done. simpl. by rewrite app_nil_r.
  - assert (Hq : exists q, ae_queues a !! i = Some q) by (apply lookup_lt_is_Some; lia). destruct Hq as [q Hq].
    unfold poll_subscription. rewrite Hq. cbn [default from_option id]. pose proof (B i) as Bi. rewrite Hq in Bi. simpl in Bi.
    rewrite <- (take_drop POLL_LIMIT q) in Bi. apply Forall_app in Bi as [Bt Bd].
    split; cbn [ae_queues ae_items].
    + by rewrite length_insert.
    + intros offset. unfold queue_of. cbn [ae_queues]. destruct (decide (i = offset)) as [->|Hne].
      * by rewrite list_lookup_insert_eq by lia.
      * by rewrite list_lookup_insert_ne.
    + intros offset Ho. rewrite Happ, fmap_app. unfold queue_of. cbn [ae_queues ae_items]. rewrite <- (C offset Ho). unfold arrivals at 1.
      simpl. rewrite app_nil_r. unfold items_of at 1. rewrite filter_app. fold (items_of offset (ae_items a)).
      fold (items_of offset (decode <$> take POLL_LIMIT q)). rewrite (items_of_frames offset i) by done.
      destruct (decide (i = offset)) as [->|Hne].
      * rewrite list_lookup_insert_eq, Hq by lia. simpl. by rewrite <- app_assoc, <- fmap_app, take_drop.
      * rewrite list_lookup_insert_ne by done. by rewrite app_nil_r.
Qed.

Lemma new_queue i : queue_of AeronSource_new i = [].
Proof.
  unfold queue_of, AeronSource_new. cbn [ae_queues].
  destruct (replicate STREAM_COUNT ([] : list (list Z)) !! i) as [q|] eqn:E; [|done].
  by apply lookup_replicate in E as [-> _].
Qed.

(** The Aeron source keeps every stream whole and in order. Whatever the order in which frames arrive
    and subscriptions are polled, the messages of a stream handed to the assembler, followed by those
    that still wait, are exactly the frames that arrived on it, decoded, each once and in order. *)
Theorem aeron_keeps_stream_order (events : list AeronEvent) (offset : nat) :
  Forall event_ok events -> (offset < STREAM_COUNT)%nat ->
  let a := aeron_run events AeronSource_new in
  items_of offset (ae_items a) ++ (decode <$> queue_of a offset) = decode <$> arrivals offset events.
Proof.
  intros He Ho a. subst a. assert (Hf : fifo events (aeron_run events AeronSource_new)); [|by apply Hf].
  induction events as [|e events IH] using rev_ind.
  - split; [done| |].
    + intros i. by rewrite new_queue.
    + intros i Hi. by rewrite new_queue.
  - apply Forall_app in He as [He Hl]. apply Forall_cons in Hl as [Hl _]. unfold aeron_run. rewrite foldl_app.
    by apply fifo_step, IH.
Qed.

(** ** The order between streams *)

Module SourceRuns.
(** A takeover snapshot and the delta of the next entry, as the engine publishes them. *)
Definition snapshot : MarketMessage := FeedRuns.snapshot 0 [] [mkDepthLevel 100 5 1].
Definition delta : MarketMessage := FeedRuns.delta 1 [FeedRuns.ask 101 7].

Definition both_arrive : list AeronEvent := [AeronArrive 2 (encode snapshot); AeronArrive 3 (encode delta)].

(** The loop comes round after both have arrived, or they arrive while it is between their
    subscriptions. *)
Definition in_time : list AeronEvent := both_arrive ++ (AeronPoll <$> seq 0 STREAM_COUNT).
Definition between : list AeronEvent :=
  [AeronPoll 0; AeronPoll 1; AeronPoll 2] ++ both_arrive ++ (AeronPoll <$> [3; 4; 5; 6]%nat) ++ (AeronPoll <$> seq 0 STREAM_COUNT).

(** The feed behind a run of the source. *)
Definition feed_of (events : list AeronEvent) : Comp Feed :=
  feed_run FeedRuns.fresh (item_op <$> ae_items (aeron_run events AeronSource_new)).

Definition feed_in_time : Feed := match feed_of in_time with Ret f => f | _ => FeedRuns.fresh end.
Definition feed_between : Feed := match feed_of between with Ret f => f | _ => FeedRuns.fresh end.
End SourceRuns.

(** The order between streams decides what the service shows. The same two frames, a snapshot and the
    delta of the next entry, arrive in the same order in two runs. When the loop of the source comes
    round after them, the service shows the delta's level; when they arrive while it is between the two
    subscriptions, the delta is handed on first and dropped, and the service misses the level. It is
    ready in both runs, has asked nobody to resynchronise, and no later snapshot mends it. *)
Theorem cross_stream_race :
  SourceRuns.feed_of SourceRuns.in_time = Ret SourceRuns.feed_in_time
  /\ SourceRuns.feed_of SourceRuns.between = Ret SourceRuns.feed_between
  /\ (forall offset, arrivals offset SourceRuns.between = arrivals offset SourceRuns.in_time)
  /\ depth_total Sell 101 (ss_depth (fe_shared SourceRuns.feed_in_time)) = 7
  /\ depth_total Sell 101 (ss_depth (fe_shared SourceRuns.feed_between)) = 0
  /\ shared_ready (fe_shared SourceRuns.feed_between) = true /\ fe_resyncs SourceRuns.feed_between = 0
  /\ (forall m later, feed_apply_snapshot m later SourceRuns.feed_between = SourceRuns.feed_between).
Proof.
  split; [vm_compute; reflexivity|]. split; [vm_compute; reflexivity|].
  split; [intros offset; unfold arrivals; simpl; by repeat case_decide|].
  split; [vm_compute; reflexivity|]. split; [vm_compute; reflexivity|]. split; [vm_compute; reflexivity|].
  split; [vm_compute; reflexivity|]. intros m later. unfold feed_apply_snapshot.
  assert (E : ss_snapshot_seen (fe_shared SourceRuns.feed_between) && negb (ss_depth_stale (fe_shared SourceRuns.feed_between)) = true)
    by (vm_compute; reflexivity).
  by rewrite E.
Qed.

(** ** Witnesses *)

(** Records are read as their length, put into the sequence number of a message. *)
Definition demo_parse (s : str) : option MarketMessage := Some (FeedRuns.delta (Z.of_nat (length s)) []).

Definition demo_writes : list JsonlEvent :=
  [FileAppend (lit "one" ++ [CH_LF]); FileRead; FileRead; FileAppend (lit "three" ++ [CH_LF]); FileAppend (lit "seven" ++ [CH_LF]); FileRead].

Lemma jsonl_reads_lines_once_witness :
  exists n, (jsonl_run demo_parse demo_writes (mkJsonl [] 0 0, [])).2 = line_item demo_parse <$> take n (written demo_writes).
Proof.
  destruct (jsonl_reads_lines_once demo_parse demo_writes) as (n & H & _).
  - assert (Hl : forall l, CH_LF ∉ l -> trim_end (whole_line l) <> [] -> writes_lines (FileAppend (l ++ [CH_LF])))
      by (intros l H1 H2; by exists l).
    repeat constructor; try done; apply Hl; try (vm_compute; discriminate);
      vm_compute; intros Hin; repeat (apply elem_of_cons in Hin as [?|Hin]; [discriminate|]); by apply not_elem_of_nil in Hin.
  - by exists n.
Defined.

Lemma aeron_keeps_stream_order_witness :
  items_of 2 (ae_items (aeron_run SourceRuns.between AeronSource_new)) = [Ok SourceRuns.snapshot].
Proof.
  pose proof (aeron_keeps_stream_order SourceRuns.between 2) as H. cbv zeta in H.
  assert (He : Forall event_ok SourceRuns.between).
  { repeat constructor; try (unfold STREAM_COUNT; lia).
    - exists SourceRuns.snapshot. split; vm_compute; reflexivity.
    - exists SourceRuns.delta. split; vm_compute; reflexivity. }
  specialize (H He ltac:(unfold STREAM_COUNT; lia)).
  assert (Eq : queue_of (aeron_run SourceRuns.between AeronSource_new) 2 = []) by (vm_compute; reflexivity).
  rewrite Eq, app_nil_r in H. rewrite H. vm_compute. reflexivity.
Defined.
