(* ===== verification/Transport.v ===== *)
(** * The gRPC transport ([src/src/network/mod.rs], [src/src/network/grpc/])

    The transport's address, the snapshot stream from the leader's chunks to the follower's buffer,
    the status codes of a failed call, the reader of a pipelined append stream, and the stream of event
    pages. The postcard and JSON codecs and what openraft does with a request are parameters; a stream
    is the list of what its receiver reads. *)

From stdpp Require Import list.
From S2P Require Import Prelude Fixed Order OrderBook MatchEvent StateMachine Api.

(** ** The transport's address *)

Definition RAFT_PORT_OFFSET : Z := 1000.
Definition U16_MAX : Z := 65535.

Definition CH_OPEN : Z := 91.
Definition CH_CLOSE : Z := 93.

Inductive AddrError : Type := MissingBracket | MissingPort | InvalidPort | EmptyHost | PortTooHigh.

Definition parse_port (port : str) : Result Z AddrError :=
  match parse_unsigned U16_MAX port with Some port => Ok port | None => Err InvalidPort end.

(** The branch of a bracketed IPv6 address; [rest] is the address behind its bracket. *)
Definition split_bracketed (rest : str) : Result (str * Z) AddrError :=
  match split_once CH_CLOSE rest with
  | None => Err MissingBracket
  | Some (inside, after) =>
      match strip_prefix CH_COLON after with
      | None => Err MissingPort
      | Some port =>
          match parse_port port with
          | Ok port => Ok (CH_OPEN :: inside ++ [CH_CLOSE], port)
          | Err e => Err e
          end
      end
  end.

Definition split_host_port (addr : str) : Result (str * Z) AddrError :=
  match strip_prefix CH_OPEN addr with
  | Some rest => split_bracketed rest
  | None =>
      match rsplit_once CH_COLON addr with
      | None => Err MissingPort
      | Some (host, port) =>
          if bool_decide (host = []) then Err EmptyHost
          else match parse_port port with Ok port => Ok (host, port) | Err e => Err e end
      end
  end.

Definition raft_addr_from_http (http_addr : str) : Result str AddrError :=
  match split_host_port http_addr with
  | Err e => Err e
  | Ok (host, port) =>
      if U16_MAX <? port + RAFT_PORT_OFFSET then Err PortTooHigh
      else Ok (host ++ CH_COLON :: show_u128 (port + RAFT_PORT_OFFSET))
  end.

(** ** Status codes *)

Inductive Code : Type :=
| CodeCancelled | CodeInvalidArgument | CodeDeadlineExceeded | CodeResourceExhausted | CodeFailedPrecondition
| CodeInternal | CodeUnavailable | CodeOther.

#[global] Instance Code_eq_dec : EqDecision Code.
Proof. solve_decision. Defined.

(** [RPCError] of openraft, by its arm; a network error comes from a status or from a codec. *)
Inductive TransportError : Type := RpcTimeout | RpcUnreachable | RpcNetwork (code : option Code).

Definition map_status (code : Code) : TransportError :=
  match code with
  | CodeUnavailable => RpcUnreachable
  | CodeDeadlineExceeded => RpcTimeout
  | code => RpcNetwork (Some code)
  end.

(** ** The snapshot stream *)

Definition SNAPSHOT_CHUNK_SIZE : Z := 256 * 1024.
Definition SNAPSHOT_CHUNK_SIZE_MAX : Z := 8 * 1024 * 1024.
Definition MAX_SNAPSHOT_BYTES : Z := 256 * 1024 * 1024.

Record SnapshotChunk : Type := mkChunk {
  ck_vote : str;
  ck_meta : str;
  ck_data : str;
  ck_offset : Z;
  ck_done : bool;
}.

(** The chunk size of a call: openraft's option unless it is zero, clamped. *)
Definition chunk_size (option_size : option Z) : Z :=
  Z.min (match option_size with
         | Some size => if 0 <? size then size else SNAPSHOT_CHUNK_SIZE
         | None => SNAPSHOT_CHUNK_SIZE
         end) SNAPSHOT_CHUNK_SIZE_MAX.

Section Snapshot.
Context {Vote Meta : Type}.
(** [postcard] of a vote and of a snapshot's metadata. *)
Variable encode_vote : Vote -> str.
Variable decode_vote : str -> option Vote.
Variable encode_meta : Meta -> str.
Variable decode_meta : str -> option Meta.

(** The loop of [full_snapshot]'s feed at [pos], and the chunk behind it. *)
Fixpoint feed_chunks (fuel size : nat) (vote meta data : str) (pos : nat) (offset : Z) (first : bool)
    : list SnapshotChunk :=
  let terminal := mkChunk (if first then vote else []) (if first then meta else []) [] offset true in
  match fuel with
  | O => [terminal]
  | S fuel =>
      if bool_decide (pos < length data)%nat then
        let stop := Nat.min (pos + size) (length data) in
        mkChunk (if first then vote else []) (if first then meta else [])
          (take (stop - pos) (drop pos data)) offset false
        :: feed_chunks fuel size vote meta data stop (wrap_u64 (offset + Z.of_nat (stop - pos))) false
      else [terminal]
  end.

(** The chunks of a snapshot. A chunk carries a byte at least, so the data's length is fuel enough. *)
Definition full_snapshot (option_size : option Z) (vote : Vote) (meta : Meta) (data : str)
    : list SnapshotChunk :=
  feed_chunks (length data) (Z.to_nat (chunk_size option_size)) (encode_vote vote) (encode_meta meta)
    data 0 0 true.

(** The variables of [install_snapshot]'s loop. *)
Record Receive : Type := mkReceive {
  rx_vote : option Vote;
  rx_meta : option Meta;
  rx_data : str;
  rx_received : Z;
}.

Definition receive_start : Receive := mkReceive None None [] 0.

Definition append_snapshot_data (data : str) (received : Z) (chunk : str) : Result (str * Z) Code :=
  let next := received + Z.of_nat (length chunk) in
  if U64_MAX <? next then Err CodeResourceExhausted
  else if MAX_SNAPSHOT_BYTES <? next then Err CodeResourceExhausted
  else Ok (data ++ chunk, next).

(** A field only the first chunk has: an empty one keeps what was read before. *)
Definition read_field {A} (decode : str -> option A) (bytes : str) (known : option A)
    : Result (option A) Code :=
  if bool_decide (bytes = []) then Ok known
  else match decode bytes with Some a => Ok (Some a) | None => Err CodeInvalidArgument end.

(** One turn of the loop up to its test for [done]. *)
Definition receive_chunk (chunk : SnapshotChunk) (rx : Receive) : Result Receive Code :=
  match read_field decode_vote (ck_vote chunk) (rx_vote rx) with
  | Err e => Err e
  | Ok vote =>
      match read_field decode_meta (ck_meta chunk) (rx_meta rx) with
      | Err e => Err e
      | Ok meta =>
          if negb (ck_offset chunk =? rx_received rx) then Err CodeInvalidArgument
          else if bool_decide (ck_data chunk = [])
          then Ok (mkReceive vote meta (rx_data rx) (rx_received rx))
          else match append_snapshot_data (rx_data rx) (rx_received rx) (ck_data chunk) with
               | Err e => Err e
               | Ok (data, received) => Ok (mkReceive vote meta data received)
               end
      end
  end.

(** The loop: each read is a chunk or the status the stream broke with; the list ends where the peer
    closed the stream. *)
Fixpoint receive (stream : list (Result SnapshotChunk Code)) (rx : Receive) : Result Receive Code :=
  match stream with
  | [] => Err CodeCancelled
  | Err status :: _ => Err status
  | Ok chunk :: stream =>
      match receive_chunk chunk rx with
      | Err e => Err e
      | Ok rx => if ck_done chunk then Ok rx else receive stream rx
      end
  end.

(** What is handed to openraft's [install_full_snapshot], or the status the call fails with. *)
Definition install_stream (stream : list (Result SnapshotChunk Code)) : Result (Vote * Meta * str) Code :=
  match receive stream receive_start with
  | Err e => Err e
  | Ok rx =>
      match rx_vote rx, rx_meta rx with
      | Some vote, Some meta => Ok (vote, meta, rx_data rx)
      | _, _ => Err CodeInvalidArgument
      end
  end.
End Snapshot.

Arguments mkReceive {_ _}.
Arguments rx_vote {_ _}.
Arguments rx_meta {_ _}.
Arguments rx_data {_ _}.
Arguments rx_received {_ _}.
Arguments receive_start {_ _}.

(** ** The pipelined append stream

    Its two tasks share one counter. The feeder counts a request before it sends it; the reader loads
    the counter, waits for a response, under the call's timer when the counter was not zero, and
    counts the response down. *)

Record AppendStream : Type := mkAppendStream {
  ap_inflight : Z;
  ap_unsent : bool;            (* the feeder is between its [fetch_add] and the end of its [send] *)
  ap_feeding : bool;           (* the feeder has not left its loop *)
  ap_wait : option bool;       (* the reader waits, and whether under the timer *)
  ap_open : bool;              (* the reader has not left its loop *)
}.

Definition AppendStream_new : AppendStream := mkAppendStream 0 false true None true.

Definition set_inflight (n : Z) (st : AppendStream) : AppendStream :=
  mkAppendStream n (ap_unsent st) (ap_feeding st) (ap_wait st) (ap_open st).

(** The compare-exchange loop, which takes effect at its successful exchange. *)
Definition decrement_inflight (inflight : Z) : Z := if inflight =? 0 then 0 else inflight - 1.

(** What [stream.next] gives: the end, a status, or a message that does or does not decode. *)
Inductive Incoming : Type := StreamEnd | StreamStatus (code : Code) | Message (decodes : bool).

(** What the stream yields to openraft. *)
Inductive AppendItem : Type := AppendResult | AppendFailed (e : TransportError).

Inductive AppendEvent : Type :=
| AppendCount                    (* the feeder encodes the next request and counts it *)
| AppendSend (sent : bool)       (* its send ends *)
| AppendInputEnd                 (* no further request, or one that does not encode *)
| AppendPoll                     (* the reader loads the counter and starts to wait *)
| AppendNext (incoming : Incoming)
| AppendElapsed.                 (* the timer *)

Definition append_next (incoming : Incoming) (st : AppendStream) : AppendStream * list AppendItem :=
  let ended st := mkAppendStream (ap_inflight st) (ap_unsent st) (ap_feeding st) None false in
  match incoming with
  | StreamEnd => (ended st, [])
  | StreamStatus code => (ended st, [AppendFailed (map_status code)])
  | Message decodes =>
      let st := set_inflight (decrement_inflight (ap_inflight st)) st in
      if decodes
      then (mkAppendStream (ap_inflight st) (ap_unsent st) (ap_feeding st) None (ap_open st), [AppendResult])
      else (ended st, [AppendFailed (RpcNetwork None)])
  end.

(** One atomic step of either task; [None] where the event cannot happen. *)
Definition append_step (event : AppendEvent) (st : AppendStream)
    : option (AppendStream * list AppendItem) :=
  match event with
  | AppendCount =>
      if ap_feeding st && negb (ap_unsent st)
      then Some (mkAppendStream (wrap_u64 (ap_inflight st + 1)) true true (ap_wait st) (ap_open st), [])
      else None
  | AppendSend sent =>
      if ap_unsent st then
        if sent
        then Some (mkAppendStream (ap_inflight st) false (ap_feeding st) (ap_wait st) (ap_open st), [])
        else Some (mkAppendStream (wrap_u64 (ap_inflight st - 1)) false false (ap_wait st) (ap_open st), [])
      else None
  | AppendInputEnd =>
      if ap_feeding st && negb (ap_unsent st)
      then Some (mkAppendStream (ap_inflight st) false false (ap_wait st) (ap_open st), []) else None
  | AppendPoll =>
      match ap_wait st with
      | None =>
          if ap_open st
          then Some (mkAppendStream (ap_inflight st) (ap_unsent st) (ap_feeding st)
                       (Some (0 <? ap_inflight st)) true, [])
          else None
      | Some _ => None
      end
  | AppendNext incoming =>
      match ap_wait st with Some _ => Some (append_next incoming st) | None => None end
  | AppendElapsed =>
      match ap_wait st with
      | Some true =>
          Some (mkAppendStream (ap_inflight st) (ap_unsent st) (ap_feeding st) None false,
                [AppendFailed RpcTimeout])
      | _ => None
      end
  end.

Fixpoint append_run (run : list AppendEvent) (st : AppendStream) : option (AppendStream * list AppendItem) :=
  match run with
  | [] => Some (st, [])
  | event :: run =>
      match append_step event st with
      | None => None
      | Some (st, items) =>
          match append_run run st with Some (st, more) => Some (st, items ++ more) | None => None end
      end
  end.

(** ** The stream of event pages *)

Record StreamEventsRequest : Type := mkStreamRequest {
  sr_after_log_index : option Z;
  sr_after_ordinal : option Z;
  sr_limit : option Z;
  sr_wait_ms : option Z;
  sr_max_pages : option Z;
}.

(** How the linearizable read went that a stream starts with. *)
Inductive Anchor : Type := Anchored | NotLeader | AnchorFailed.

Record EventStream : Type := mkEventStream {
  es_after : option EventId;
  es_limit : nat;
  es_wait_ms : Z;
  es_max_pages : Z;
}.

(** [stream_events] up to the task it spawns. *)
Definition open_stream (request : StreamEventsRequest) (anchor : Anchor) : Result EventStream Code :=
  match match sr_after_log_index request, sr_after_ordinal request with
        | None, None => Ok None
        | Some log_index, Some ordinal => Ok (Some (mkEventId log_index ordinal))
        | _, _ => Err CodeInvalidArgument
        end with
  | Err e => Err e
  | Ok after =>
      let limit := match sr_limit request with None => DEFAULT_EVENTS_PAGE | Some value => Z.to_nat value end in
      if negb (bool_decide (1 <= limit <= MAX_EVENTS_PAGE)%nat) then Err CodeInvalidArgument
      else
        let wait_ms := default 0 (sr_wait_ms request) in
        if MAX_EVENTS_WAIT_MS <? wait_ms then Err CodeInvalidArgument
        else match anchor with
             | Anchored => Ok (mkEventStream after limit wait_ms (default 0 (sr_max_pages request)))
             | NotLeader => Err CodeFailedPrecondition
             | AnchorFailed => Err CodeInternal
             end
  end.

Section EventPages.
Context `{RaftTypes}.
(** [serde_json] of a page. *)
Variable encode_page : EventsResponse -> option str.

(** The task's loop. Each entry is one page: the turns of its long poll, and whether the client still
    takes what is sent. *)
Fixpoint stream_pages (es : EventStream) (polls : list (list (StateMachineStoreInner * bool) * bool))
    (cursor : option EventId) (pages : Z) : list (Result str Code) :=
  match polls with
  | [] => []
  | (turns, taken) :: polls =>
      match read_events_page cursor (es_limit es) (es_wait_ms es) turns with
      | None => []
      | Some page =>
          let pages := Z.min (pages + 1) U32_MAX in
          match encode_page page with
          | None => if taken then [Err CodeInternal] else []
          | Some payload =>
              if negb taken then []
              else Ok payload ::
                   if negb (es_max_pages es =? 0) && (es_max_pages es <=? pages) then []
                   else stream_pages es polls (ep_next_after page) pages
          end
      end
  end.

Definition stream_events (request : StreamEventsRequest) (anchor : Anchor)
    (polls : list (list (StateMachineStoreInner * bool) * bool)) : Result (list (Result str Code)) Code :=
  match open_stream request anchor with
  | Err e => Err e
  | Ok es => Ok (stream_pages es polls (es_after es) 0)
  end.
End EventPages.
