(* ===== verification/TransportSpec.v ===== *)
(** * Correctness of the gRPC transport

    The address every node derives for its peers, the snapshot stream under every cut and from every
    peer, the in-flight counter of the append stream and the timer it arms, and the stream of event
    pages over a growing log. *)

From stdpp Require Import strings list sorting.
From S2P Require Import Prelude BTree Fixed Order OrderBook MatchEvent StateMachine StateInv StateReads Api ApiSpec Bridge BridgeSpec Transport.

(** ** Addresses *)

(** A host as an address names it: a bracketed text without a closing bracket, or a text that is not
    empty and does not start with a bracket. *)
Definition host_ok (host : str) : Prop :=
  (exists inside, host = CH_OPEN :: inside ++ [CH_CLOSE] /\ CH_CLOSE ∉ inside) \/
  (host <> [] /\ head host <> Some CH_OPEN).

Lemma parse_port_spec text p : parse_port text = Ok p <-> parse_unsigned U16_MAX text = Some p.
Proof. unfold parse_port. destruct (parse_unsigned _ _); split; congruence. Qed.

Lemma no_colon max text p : parse_unsigned max text = Some p -> CH_COLON ∉ text.
Proof. intros Hp Hin. by destruct (parse_unsigned_chars _ _ _ _ Hp Hin). Qed.

Lemma split_bracketed_spec rest host p :
  split_bracketed rest = Ok (host, p) <->
  exists inside text, rest = inside ++ CH_CLOSE :: CH_COLON :: text /\ CH_CLOSE ∉ inside
    /\ host = CH_OPEN :: inside ++ [CH_CLOSE] /\ parse_unsigned U16_MAX text = Some p.
Proof.
  unfold split_bracketed. split.
  - destruct (split_once CH_CLOSE rest) as [[inside after]|] eqn:E; [|done].
    apply split_once_Some in E as [-> Hc]. destruct after as [|x text]; [done|]. simpl.
    destruct (Z.eqb_spec x CH_COLON) as [->|]; [|done].
    destruct (parse_port text) as [q|] eqn:Ep; [|done]. intros [= <- <-]. apply parse_port_spec in Ep.
    by exists inside, text.
  - intros (inside & text & -> & Hc & -> & Hp). rewrite split_once_app by done. simpl.
    by apply parse_port_spec in Hp as ->.
Qed.

Lemma split_host_port_spec addr host p :
  split_host_port addr = Ok (host, p) <->
  exists text, addr = host ++ CH_COLON :: text /\ host_ok host /\ parse_unsigned U16_MAX text = Some p.
Proof.
  unfold split_host_port. destruct (strip_prefix CH_OPEN addr) as [rest|] eqn:Eb.
  - destruct addr as [|x addr]; [done|]. simpl in Eb. destruct (Z.eqb_spec x CH_OPEN) as [->|]; [|done].
    injection Eb as ->. rewrite split_bracketed_spec. split.
    + intros (inside & text & -> & Hc & -> & Hp). exists text. split; [by rewrite <- app_comm_cons, <- app_assoc|].
      split; [|done]. left. by exists inside.
    + intros (text & E & [(inside & -> & Hc)|[Hne Hh]] & Hp).
      * exists inside, text. split; [|done]. injection E as E. by rewrite E, <- app_assoc.
      * destruct host as [|y host]; [done|]. injection E as E _. simpl in Hh. congruence.
  - assert (Hh : head addr <> Some CH_OPEN).
    { destruct addr as [|x addr]; [done|]. simpl in *. destruct (Z.eqb_spec x CH_OPEN); congruence. }
    destruct (rsplit_once CH_COLON addr) as [[a b]|] eqn:Er.
    + apply rsplit_once_Some in Er as [-> Hb]. split.
      * case_bool_decide as Ea; [done|]. destruct (parse_port b) as [q|] eqn:Ep; [|done]. intros [= <- <-].
        apply parse_port_spec in Ep. exists b. split; [done|]. split; [|done]. right. split; [done|].
        by destruct a.
      * intros (text & E & Hok & Hp). pose proof (no_colon _ _ _ Hp) as Ht.
        pose proof (rsplit_once_app CH_COLON host text Ht) as E1. rewrite <- E, rsplit_once_app in E1 by done.
        injection E1 as -> ->. rewrite bool_decide_eq_false_2.
        -- by apply parse_port_spec in Hp as ->.
        -- destruct Hok as [(? & -> & _)|[? _]]; done.
    + split; [done|]. intros (text & -> & _ & Hp). pose proof (no_colon _ _ _ Hp) as Ht.
      by rewrite rsplit_once_app in Er.
Qed.

(** The Raft address of a node is its API address with the port moved up by 1000: an address is
    accepted exactly when it is a host, a colon and a port of at most 64535, and nothing else of it
    changes; so every node computes the same address for a peer. *)
Theorem raft_addr_shifts_port (addr raft_addr : str) :
  raft_addr_from_http addr = Ok raft_addr <->
  exists host text p, addr = host ++ CH_COLON :: text /\ host_ok host
    /\ parse_unsigned U16_MAX text = Some p /\ p + 1000 <= 65535
    /\ raft_addr = host ++ CH_COLON :: show_u128 (p + 1000).
Proof.
  unfold raft_addr_from_http. split.
  - destruct (split_host_port addr) as [[host p]|] eqn:E; [|done].
    apply split_host_port_spec in E as (text & -> & Hok & Hp).
    destruct (Z.ltb_spec U16_MAX (p + RAFT_PORT_OFFSET)) as [|Hle]; [done|]. intros [= <-].
    by exists host, text, p.
  - intros (host & text & p & -> & Hok & Hp & Hle & ->).
    rewrite (proj2 (split_host_port_spec _ host p)) by (by exists text).
    destruct (Z.ltb_spec U16_MAX (p + RAFT_PORT_OFFSET)) as [Hlt|]; [|done].
    unfold U16_MAX, RAFT_PORT_OFFSET in Hlt. lia.
Qed.

Example derives_raft_addr :
  raft_addr_from_http (lit "127.0.0.1:21001") = Ok (lit "127.0.0.1:22001")
  /\ raft_addr_from_http (lit "[::1]:21001") = Ok (lit "[::1]:22001")
  /\ raft_addr_from_http (lit "127.0.0.1") = Err MissingPort
  /\ raft_addr_from_http (lit ":21001") = Err EmptyHost
  /\ raft_addr_from_http (lit "[::1:21001") = Err MissingBracket
  /\ raft_addr_from_http (lit "127.0.0.1:65535") = Err PortTooHigh.
Proof. vm_compute. repeat split. Qed.

(** ** The snapshot stream *)

Section SnapshotStream.
Context {Vote Meta : Type}.
Context (encode_vote : Vote -> str) (decode_vote : str -> option Vote).
Context (encode_meta : Meta -> str) (decode_meta : str -> option Meta).

#[local] Notation Receive := (@Receive Vote Meta).
#[local] Notation receive_chunk := (receive_chunk decode_vote decode_meta).
#[local] Notation receive := (receive decode_vote decode_meta).
#[local] Notation install_stream := (install_stream decode_vote decode_meta).

(** ** Any peer *)

(** The buffer holds what was counted, and never more than the cap. *)
Record receive_ok (rx : Receive) : Prop := {
  rxo_count : rx_received rx = Z.of_nat (length (rx_data rx));
  rxo_cap : rx_received rx <= MAX_SNAPSHOT_BYTES;
}.

Lemma receive_start_ok : receive_ok receive_start.
Proof. split; [done|]. unfold MAX_SNAPSHOT_BYTES. simpl. lia. Qed.

(** What an accepted chunk did. *)
Lemma receive_chunk_ok chunk rx rx' :
  receive_ok rx -> receive_chunk chunk rx = Ok rx' ->
  receive_ok rx' /\ rx_data rx' = rx_data rx ++ ck_data chunk
  /\ ck_offset chunk = Z.of_nat (length (rx_data rx)).
Proof.
  intros [Hc Hm]. unfold Transport.receive_chunk.
  destruct (read_field decode_vote _ _) as [vote|]; [|done]. destruct (read_field decode_meta _ _) as [meta|]; [|done].
  destruct (Z.eqb_spec (ck_offset chunk) (rx_received rx)) as [Ho|]; [|done]. cbn [negb].
  case_bool_decide as Hd.
  - intros [= <-]. cbn. rewrite Hd, app_nil_r. split; [by split|]. by rewrite Ho.
  - unfold append_snapshot_data. destruct (U64_MAX <? _); [done|].
    destruct (Z.ltb_spec MAX_SNAPSHOT_BYTES (rx_received rx + Z.of_nat (length (ck_data chunk)))); [done|].
    intros [= <-]. cbn. split; [split; cbn; [rewrite length_app; lia|done]|]. split; [done|]. by rewrite Ho.
Qed.

(** The offset every chunk must carry: the bytes in front of it. *)
Fixpoint offsets_ok (offset : nat) (chunks : list SnapshotChunk) : Prop :=
  match chunks with
  | [] => True
  | chunk :: chunks => ck_offset chunk = Z.of_nat offset /\ offsets_ok (offset + length (ck_data chunk)) chunks
  end.

Lemma receive_accepts stream rx rx' :
  receive_ok rx -> receive stream rx = Ok rx' ->
  receive_ok rx' /\ exists chunks terminal rest,
    stream = (Ok <$> chunks ++ [terminal]) ++ rest
    /\ Forall (fun chunk => ck_done chunk = false) chunks /\ ck_done terminal = true
    /\ rx_data rx' = rx_data rx ++ mjoin (ck_data <$> chunks ++ [terminal])
    /\ offsets_ok (length (rx_data rx)) (chunks ++ [terminal]).
Proof.
  revert rx. induction stream as [|[chunk|s] stream IH]; intros rx Hok; [done| |done]. simpl.
  destruct (receive_chunk chunk rx) as [rx1|] eqn:E1; [|done].
  destruct (receive_chunk_ok _ _ _ Hok E1) as (Hok1 & Hd1 & Ho1). destruct (ck_done chunk) eqn:Edone.
  - intros [= <-]. split; [done|]. exists [], chunk, stream. split; [done|]. split; [constructor|]. split; [done|].
    split; [|done]. rewrite Hd1. simpl. by rewrite app_nil_r.
  - intros Hr. destruct (IH rx1 Hok1 Hr) as (Hok' & chunks & terminal & rest & -> & Hf & Ht & Hd & Ho).
    split; [done|]. exists (chunk :: chunks), terminal, rest. split; [done|]. split; [by constructor|]. split; [done|].
    rewrite Hd1, length_app in Ho. split; [|done]. rewrite Hd, Hd1, <- app_assoc. done.
Qed.

(** Whatever a peer streams, the follower hands openraft only what ended with a terminal chunk: the
    bytes of the chunks up to the first terminal one, in order and without a hole, since each chunk's
    offset is the number of bytes in front of it, and at most 256 MiB of them; what follows the terminal
    chunk is not read. *)
Theorem accepted_stream_is_contiguous stream vote meta data :
  install_stream stream = Ok (vote, meta, data) ->
  exists chunks terminal rest,
    stream = (Ok <$> chunks ++ [terminal]) ++ rest
    /\ Forall (fun chunk => ck_done chunk = false) chunks /\ ck_done terminal = true
    /\ data = mjoin (ck_data <$> chunks ++ [terminal])
    /\ offsets_ok 0 (chunks ++ [terminal])
    /\ Z.of_nat (length data) <= 256 * 1024 * 1024.
Proof.
  unfold Transport.install_stream. destruct (receive stream receive_start) as [rx|] eqn:E; [|done].
  destruct (receive_accepts _ _ _ receive_start_ok E) as (Hok & chunks & terminal & rest & -> & Hf & Ht & Hd & Ho).
  destruct (rx_vote rx), (rx_meta rx); [|done..]. intros [= <- <- <-].
  exists chunks, terminal, rest. repeat (split; [done|]). destruct Hok as [Hc Hm]. rewrite <- Hc. exact Hm.
Qed.

(** ** The leader's stream *)

Context (vote_codec : forall vote, decode_vote (encode_vote vote) = Some vote).
Context (meta_codec : forall meta, decode_meta (encode_meta meta) = Some meta).
(** A vote starts with its term and the metadata with an option: neither encodes to nothing. *)
Context (vote_bytes : forall vote, encode_vote vote <> []) (meta_bytes : forall meta, encode_meta meta <> []).

Lemma chunk_size_pos option_size : 0 < chunk_size option_size.
Proof.
  unfold chunk_size, SNAPSHOT_CHUNK_SIZE, SNAPSHOT_CHUNK_SIZE_MAX. destruct option_size as [size|]; [|lia].
  destruct (Z.ltb_spec 0 size); lia.
Qed.

(** What the receiver knows before the chunk at [pos]. *)
Definition received_until (vote : Vote) (meta : Meta) (data : str) (pos : nat) (first : bool) : Receive :=
  mkReceive (if first then None else Some vote) (if first then None else Some meta) (take pos data) (Z.of_nat pos).

(** Reading the first chunk's fields, or the empty ones of a later chunk. *)
Lemma read_first {A} (encode : A -> str) decode a (first : bool) :
  (forall a, decode (encode a) = Some a) -> encode a <> [] ->
  read_field decode (if first then encode a else []) (if first then None else Some a) = Ok (Some a).
Proof. intros Hc Hne. unfold read_field. destruct first; [|done]. rewrite bool_decide_eq_false_2 by done. by rewrite Hc. Qed.

Lemma receive_feed_chunk vote meta data pos n (first done_ : bool) :
  (pos + n <= length data)%nat ->
  receive_chunk
    (mkChunk (if first then encode_vote vote else []) (if first then encode_meta meta else [])
       (take n (drop pos data)) (Z.of_nat pos) done_)
    (received_until vote meta data pos first) =
  if bool_decide (n = 0)%nat then Ok (received_until vote meta data (pos + n) false)
  else if MAX_SNAPSHOT_BYTES <? Z.of_nat (pos + n) then Err CodeResourceExhausted
  else Ok (received_until vote meta data (pos + n) false).
Proof.
  intros Hn. unfold Transport.receive_chunk, received_until. cbn [ck_vote ck_meta ck_offset ck_data rx_vote rx_meta rx_data rx_received].
  rewrite (read_first encode_vote decode_vote), (read_first encode_meta decode_meta), Z.eqb_refl by auto. cbn [negb].
  assert (Hl : length (take n (drop pos data)) = n) by (rewrite length_take, length_drop; lia).
  case_bool_decide as He; case_bool_decide as H0.
  - by rewrite H0, Nat.add_0_r.
  - exfalso. apply H0. by rewrite <- Hl, He.
  - exfalso. apply He. by rewrite H0.
  - unfold append_snapshot_data. rewrite Hl, <- Nat2Z.inj_add, take_take_drop.
    destruct (Z.ltb_spec U64_MAX (Z.of_nat (pos + n))), (Z.ltb_spec MAX_SNAPSHOT_BYTES (Z.of_nat (pos + n)));
      done || (unfold MAX_SNAPSHOT_BYTES, U64_MAX in *; lia).
Qed.

Lemma receive_terminal vote meta data (first : bool) :
  receive_chunk
    (mkChunk (if first then encode_vote vote else []) (if first then encode_meta meta else [])
       [] (Z.of_nat (length data)) true)
    (received_until vote meta data (length data) first) =
  Ok (received_until vote meta data (length data) false).
Proof.
  pose proof (receive_feed_chunk vote meta data (length data) 0 first true ltac:(lia)) as H.
  by rewrite Nat.add_0_r in H.
Qed.

(** How a stream can end short of its terminal chunk. *)
Definition cut_tail (cut : option Code) : list (Result SnapshotChunk Code) :=
  match cut with Some status => [Err status] | None => [] end.

Definition feed_outcome (total delivered : nat) (cut : option Code) (data : str) (expected : Receive)
    (outcome : Result Receive Code) : Prop :=
  match outcome with
  | Ok rx => (total <= delivered)%nat /\ Z.of_nat (length data) <= MAX_SNAPSHOT_BYTES /\ rx = expected
  | Err code =>
      ((delivered < total)%nat /\ code = default CodeCancelled cut)
      \/ (MAX_SNAPSHOT_BYTES < Z.of_nat (length data) /\ code = CodeResourceExhausted)
  end.

Lemma receive_cut cut rx : receive (cut_tail cut) rx = Err (default CodeCancelled cut).
Proof. by destruct cut. Qed.

Lemma receive_feed size vote meta data cut fuel pos first k :
  (0 < size)%nat -> (pos <= length data)%nat -> (length data - pos <= fuel)%nat ->
  Z.of_nat pos <= MAX_SNAPSHOT_BYTES ->
  let chunks := feed_chunks fuel size (encode_vote vote) (encode_meta meta) data pos (Z.of_nat pos) first in
  feed_outcome (length chunks) k cut data (received_until vote meta data (length data) false)
    (receive ((Ok <$> take k chunks) ++ cut_tail cut) (received_until vote meta data pos first)).
Proof.
  intros Hsize. revert pos first k. induction fuel as [|fuel IH]; intros pos first k Hp Hf Hm; simpl.
  all: assert (Hterm : forall k, pos = length data ->
      feed_outcome 1 k cut data (received_until vote meta data (length data) false)
        (receive ((Ok <$> take k [mkChunk (if first then encode_vote vote else []) (if first then encode_meta meta else []) [] (Z.of_nat pos) true]) ++ cut_tail cut)
           (received_until vote meta data pos first))).
  1, 3: intros [|k'] ->; [simpl; rewrite receive_cut; left; split; [lia|done]|];
    simpl; rewrite receive_terminal; cbn; split; [lia|done].
  - apply Hterm. lia.
  - case_bool_decide as Hlt; [|apply Hterm; lia]. set (stop := Nat.min (pos + size) (length data)).
    assert (Hstop : (pos < stop <= length data)%nat) by (unfold stop; lia).
    destruct k as [|k]; [simpl; rewrite receive_cut; left; split; [lia|done]|]. simpl.
    rewrite receive_feed_chunk by lia. rewrite bool_decide_eq_false_2 by lia.
    replace (pos + (stop - pos))%nat with stop by lia.
    destruct (Z.ltb_spec MAX_SNAPSHOT_BYTES (Z.of_nat stop)) as [Hbig|Hfit]; [right; split; [lia|done]|].
    rewrite <- Nat2Z.inj_add. replace (pos + (stop - pos))%nat with stop by lia.
    assert (Hw : wrap_u64 (Z.of_nat stop) = Z.of_nat stop).
    { apply Z.mod_small. unfold MAX_SNAPSHOT_BYTES in Hfit. lia. }
    rewrite Hw. specialize (IH stop false k ltac:(lia) ltac:(lia) Hfit).
    set (chunks := feed_chunks fuel _ _ _ _ _ _ _) in *. simpl in IH. cbn [ck_done].
    destruct (receive _ _) as [rx|code]; simpl in *; [split; [lia|tauto]|].
    destruct IH as [[? ?]|?]; [left; split; [lia|done]|by right].
Qed.

(** C26: The snapshot stream is all or nothing. Let the leader stream a snapshot in chunks of any configured
    size and let the stream end after any number of them, cleanly or with a status. The follower
    installs the leader's vote, metadata and bytes, unchanged, exactly when the terminal chunk arrived
    and the snapshot has at most 256 MiB; short of the terminal chunk the call fails with the stream's
    status, or cancelled, and a larger snapshot is refused with [resource_exhausted] at whatever
    chunk it passes the cap. *)
Theorem snapshot_stream_all_or_nothing option_size vote meta data delivered cut :
  let chunks := full_snapshot encode_vote encode_meta option_size vote meta data in
  match install_stream ((Ok <$> take delivered chunks) ++ cut_tail cut) with
  | Ok installed =>
      installed = (vote, meta, data) /\ (length chunks <= delivered)%nat
      /\ Z.of_nat (length data) <= 256 * 1024 * 1024
  | Err code =>
      ((delivered < length chunks)%nat /\ code = default CodeCancelled cut)
      \/ (256 * 1024 * 1024 < Z.of_nat (length data) /\ code = CodeResourceExhausted)
  end.
Proof.
  intros chunks. pose proof (chunk_size_pos option_size) as Hs.
  pose proof (receive_feed (Z.to_nat (chunk_size option_size)) vote meta data cut (length data) 0 true delivered
                ltac:(lia) ltac:(lia) ltac:(lia) ltac:(done)) as H. cbv zeta in H.
  change (feed_chunks _ _ _ _ _ _ _ _) with chunks in H. unfold Transport.install_stream.
  change (received_until vote meta data 0 true) with (@receive_start Vote Meta) in H.
  destruct (receive _ _) as [rx|code]; [|exact H]. simpl in H. destruct H as (Hk & Hm & ->). cbn.
  by rewrite firstn_all.
Qed.
End SnapshotStream.

(** ** The append stream *)

(** How often an event occurs in a run. *)
Definition is_counted (event : AppendEvent) : bool := match event with AppendCount => true | _ => false end.
Definition is_sent (event : AppendEvent) : bool := match event with AppendSend true => true | _ => false end.
Definition is_unsent (event : AppendEvent) : bool := match event with AppendSend false => true | _ => false end.
Definition is_answered (event : AppendEvent) : bool :=
  match event with AppendNext (Message _) => true | _ => false end.
Definition is_next (event : AppendEvent) : bool := match event with AppendNext _ => true | _ => false end.

Definition times (p : AppendEvent -> bool) (run : list AppendEvent) : Z :=
  Z.of_nat (length (filter (fun event => p event = true) run)).

Lemma times_snoc p run event : times p (run ++ [event]) = times p run + (if p event then 1 else 0).
Proof.
  unfold times. rewrite filter_app, filter_cons, filter_nil, length_app.
  destruct (p event); [rewrite decide_True by done|rewrite decide_False by done]; simpl; lia.
Qed.

(** The peer answers each request at most once, and only after it was sent. *)
Definition answers_once (run : list AppendEvent) : Prop :=
  forall pre, pre `prefix_of` run -> times is_answered pre <= times is_sent pre.

Lemma answers_once_snoc run event : answers_once (run ++ [event]) -> answers_once run.
Proof. intros H pre Hp. apply H. by apply prefix_app_r. Qed.

Lemma append_run_app run1 run2 st :
  append_run (run1 ++ run2) st =
  match append_run run1 st with
  | Some (st, items) =>
      match append_run run2 st with Some (st, more) => Some (st, items ++ more) | None => None end
  | None => None
  end.
Proof.
  revert st. induction run1 as [|event run1 IH]; intros st; simpl; [by destruct (append_run run2 st) as [[? ?]|]|].
  destruct (append_step event st) as [[st1 items]|]; [|done]. rewrite IH.
  destruct (append_run run1 st1) as [[st2 more]|]; [|done].
  destruct (append_run run2 st2) as [[st3 rest]|]; [|done]. by rewrite app_assoc.
Qed.

Lemma append_run_snoc run event st st' items :
  append_run (run ++ [event]) st = Some (st', items) ->
  exists st1 items1 items2, append_run run st = Some (st1, items1)
    /\ append_step event st1 = Some (st', items2) /\ items = items1 ++ items2.
Proof.
  rewrite append_run_app. destruct (append_run run st) as [[st1 items1]|]; [|done]. simpl.
  destruct (append_step event st1) as [[st2 items2]|] eqn:E; [|done]. rewrite app_nil_r. intros [= <- <-].
  by exists st1, items1, items2.
Qed.

(** The counter is the requests sent and not answered, and the one being sent. *)
Definition counter_exact (run : list AppendEvent) (st : AppendStream) : Prop :=
  ap_inflight st = times is_sent run + (if ap_unsent st then 1 else 0) - times is_answered run
  /\ times is_counted run = times is_sent run + times is_unsent run + (if ap_unsent st then 1 else 0).

Lemma append_counter run st items :
  append_run run AppendStream_new = Some (st, items) -> answers_once run ->
  times is_counted run <= U64_MAX -> counter_exact run st.
Proof.
  revert st items. induction run as [|event run IH] using rev_ind; intros st items Hrun Ho Hmax.
  { by injection Hrun as <- <-. }
  apply append_run_snoc in Hrun as (st1 & items1 & items2 & Hrun & Hstep & _).
  pose proof (Ho (run ++ [event]) ltac:(done)) as Ha. apply answers_once_snoc in Ho.
  assert (Hn : forall p, 0 <= times p run) by (intros p; unfold times; lia).
  pose proof (Hn is_sent). pose proof (Hn is_unsent). pose proof (Hn is_counted). pose proof (Hn is_answered).
  rewrite !times_snoc in Ha. rewrite times_snoc in Hmax.
  destruct (IH st1 items1 Hrun Ho) as [Hc Hu]; [destruct (is_counted event); lia|].
  unfold counter_exact. rewrite !times_snoc.
  destruct event as [|sent| | |incoming|]; cbn [is_counted is_sent is_unsent is_answered] in *; simpl in Hstep.
  - destruct (ap_feeding st1 && negb (ap_unsent st1)) eqn:E; [|done]. injection Hstep as <- <-. cbn.
    destruct (ap_unsent st1); [by destruct (ap_feeding st1)|]. unfold wrap_u64, U64_MAX in *.
    rewrite Z.mod_small by lia. lia.
  - destruct (ap_unsent st1) eqn:E; [|done]. destruct sent; injection Hstep as <- <-; cbn; [lia|].
    unfold wrap_u64, U64_MAX in *. rewrite Z.mod_small by lia. lia.
  - destruct (ap_feeding st1 && negb (ap_unsent st1)) eqn:E; [|done]. injection Hstep as <- <-. cbn.
    destruct (ap_unsent st1); [by destruct (ap_feeding st1)|]. lia.
  - destruct (ap_wait st1); [done|]. destruct (ap_open st1); [|done]. injection Hstep as <- <-. cbn. lia.
  - destruct (ap_wait st1); [|done]. destruct incoming as [|code|decodes]; [injection Hstep as <- <-; cbn; lia..|].
    unfold append_next, decrement_inflight in Hstep.
    destruct decodes; injection Hstep as <- <-; cbn; destruct (Z.eqb_spec (ap_inflight st1) 0), (ap_unsent st1); lia.
  - destruct (ap_wait st1) as [[]|]; [|done..]. injection Hstep as <- <-. cbn. lia.
Qed.

(** The timer of the append stream is armed exactly for a wait that starts with a request behind it: under
    every interleaving of the feeder and the reader, when the peer answers each request it was sent at
    most once, the counter never wraps, and a wait starts under the timer exactly when some request is
    being sent or is sent and not answered. *)
Theorem append_timer_armed run st items :
  append_run (run ++ [AppendPoll]) AppendStream_new = Some (st, items) -> answers_once run ->
  times is_counted run <= U64_MAX ->
  0 <= ap_inflight st <= times is_counted run
  /\ ap_wait st = Some (bool_decide (times is_answered run + times is_unsent run < times is_counted run)).
Proof.
  intros Hrun Ho Hmax. apply append_run_snoc in Hrun as (st1 & items1 & items2 & Hrun & Hstep & _).
  destruct (append_counter _ _ _ Hrun Ho Hmax) as [Hc Hu]. pose proof (Ho run ltac:(done)) as Ha.
  simpl in Hstep. destruct (ap_wait st1); [done|]. destruct (ap_open st1); [|done]. injection Hstep as <- <-. cbn.
  assert (0 <= times is_answered run) by (unfold times; lia). assert (0 <= times is_unsent run) by (unfold times; lia).
  split; [destruct (ap_unsent st1); lia|]. f_equal. apply eq_bool_prop_intro. rewrite Is_true_true, Is_true_true.
  rewrite Z.ltb_lt, bool_decide_eq_true. lia.
Qed.

(** A wait that starts on an idle append stream never times out, whatever is sent during it. As
    long as the peer sends nothing, the feeder may count and send any number of requests, and the
    reader yields no item and stays in its wait without a timer, in every interleaving. *)
Theorem idle_wait_never_times_out run st st' items :
  append_run run st = Some (st', items) -> ap_wait st = Some false ->
  Forall (fun event => is_next event = false) run ->
  items = [] /\ ap_wait st' = Some false
  /\ (forall more, append_run (AppendElapsed :: more) st' = None).
Proof.
  intros Hrun Hw Hn.
  assert (H : items = [] /\ ap_wait st' = Some false); [|destruct H as [-> Hw']; by rewrite <- Hw'; split; [|split; [|intros more; simpl; rewrite Hw']]].
  revert st items Hrun Hw. induction Hn as [|event run He _ IH]; intros st items Hrun Hw; simpl in Hrun.
  { by injection Hrun as <- <-. }
  destruct (append_step event st) as [[st1 items1]|] eqn:Hstep; [|done].
  destruct (append_run run st1) as [[st2 more]|] eqn:Hrest; [|done]. injection Hrun as <- <-.
  assert (Hs : ap_wait st1 = Some false /\ items1 = []).
  { destruct event as [|sent| | |incoming|]; simpl in Hstep; rewrite ?Hw in Hstep; try done.
    - destruct (_ && _); [|done]. by injection Hstep as <- <-.
    - destruct (ap_unsent st); [|done]. by destruct sent; injection Hstep as <- <-.
    - destruct (_ && _); [|done]. by injection Hstep as <- <-. }
  destruct Hs as [Hw1 ->]. destruct (IH _ _ Hrest Hw1) as [-> ?]. done.
Qed.

(** ** The stream of event pages *)

Section EventPages.
Context `{RaftTypes}.
Context (encode_page : EventsResponse -> option str) (payload : EventsResponse -> str).
Context (encode_total : forall page, encode_page page = Some (payload page)).

(** Every store a page was read from retains a suffix of a part of the log. *)
Definition polls_ok (history : list MatchEvent)
    (polls : list (list (StateMachineStoreInner * bool) * bool)) : Prop :=
  Forall (fun poll => Forall (fun turn => exists h, h `prefix_of` history /\ retains turn.1 h) poll.1) polls.

(** What a client can see of its pages: none starts behind its cursor. *)
Fixpoint gap_free (cursor : option EventId) (pages : list EventsResponse) : Prop :=
  match pages with
  | [] => True
  | page :: pages =>
      is_retention_gap cursor (ep_oldest_event_id page) = false /\ gap_free (ep_next_after page) pages
  end.

Lemma read_page_turn_of cursor limit wait turns page :
  read_events_page cursor limit wait turns = Some page ->
  exists turn, turn ∈ turns /\ page = events_page cursor limit turn.1.
Proof.
  induction turns as [|[s late] turns IH]; simpl; [done|]. destruct (_ || _).
  - intros [= <-]. exists (s, late). split; [left|done].
  - intros (turn & ? & ->)%IH. exists turn. split; [by right|done].
Qed.

Lemma after_cursor_later c e l :
  id_lt c (e_event_id e) -> after_cursor (Some (e_event_id e)) (after_cursor (Some c) l) = after_cursor (Some (e_event_id e)) l.
Proof.
  intros Hc. unfold after_cursor. rewrite list_filter_filter. apply list_filter_iff. intros x.
  rewrite <- !not_true_iff_false, !id_leb_iff. split; [tauto|]. intros Hx. split; [done|]. intros Hn. apply Hx. intros Hex.
  apply Hn. by eapply id_lt_trans.
Qed.

(** A page without a gap is the next events of the log, and its cursor is in front of the rest. *)
Lemma page_advances history h s c limit :
  sorted_ids history -> h `prefix_of` history -> retains s h ->
  is_retention_gap (Some c) (oldest_event_id s) = false ->
  exists c', ep_next_after (events_page (Some c) limit s) = Some c' /\
    after_cursor (Some c) history = ep_events (events_page (Some c) limit s) ++ after_cursor (Some c') history.
Proof.
  intros Hs [h2 ->] Hret Hgap. assert (Hsh : sorted_ids h).
  { unfold sorted_ids in *. rewrite fmap_app in Hs. by apply strongly_sorted_app_inv in Hs as (? & _ & _). }
  pose proof (page_is_next s h c limit Hsh Hret Hgap) as Hp. pose proof (page_next_after s c limit) as Hn.
  set (page := events_page (Some c) limit s) in *. set (n := if decide (events s = []) then 0%nat else limit) in Hp.
  assert (HA : after_cursor (Some c) (h ++ h2) = ep_events page ++ (drop n (after_cursor (Some c) h) ++ after_cursor (Some c) h2)).
  { by rewrite after_cursor_app, Hp, app_assoc, take_drop. }
  eexists. split; [exact Hn|]. destruct (last (ep_events page)) as [e|] eqn:El.
  - pose proof (after_cursor_sorted_ids (Some c) _ Hs) as HsA. apply last_Some in El as [init El]. rewrite El in HA.
    rewrite HA in HsA. unfold sorted_ids in HsA. rewrite <- app_assoc in HsA. simpl in HsA.
    pose proof (after_cursor_sorted _ _ _ HsA) as Hc.
    rewrite <- (after_cursor_later c e (h ++ h2)).
    + rewrite HA, El, <- app_assoc. simpl. by rewrite Hc, <- app_assoc.
    + assert (He : e ∈ after_cursor (Some c) (h ++ h2)) by (by rewrite HA; apply elem_of_app; left; apply elem_of_app; right; left).
      by apply elem_after_cursor in He as [? _].
  - apply last_None in El. by rewrite El.
Qed.

(** What was streamed, and the log still to come behind the cursor. *)
Lemma stream_pages_advance es history polls c n :
  sorted_ids history -> polls_ok history polls -> 0 <= n ->
  exists pages, stream_pages encode_page es polls (Some c) n = (fun page => Ok (payload page)) <$> pages
    /\ (gap_free (Some c) pages ->
        exists c', after_cursor (Some c) history = mjoin (ep_events <$> pages) ++ after_cursor (Some c') history)
    /\ (n < es_max_pages es -> es_max_pages es <= U32_MAX -> n + Z.of_nat (length pages) <= es_max_pages es).
Proof.
  intros Hs Hok. revert c n. induction Hok as [|[turns taken] polls Hturns _ IH]; intros c n Hn.
  { exists []. split; [done|]. split; [by exists c|]. simpl. lia. }
  cbn [stream_pages]. destruct (read_events_page _ _ _ turns) as [page|] eqn:Er;
    [|exists []; split; [done|]; split; [by exists c|simpl; lia]].
  rewrite encode_total. apply read_page_turn_of in Er as (turn & Hin & ->).
  destruct (proj1 (Forall_forall _ _) Hturns turn Hin) as (h & Hh & Hret).
  destruct taken; cbn [negb]; [|exists []; split; [done|]; split; [by exists c|simpl; lia]].
  set (page := events_page (Some c) (es_limit es) turn.1) in *. set (n' := Z.min (n + 1) U32_MAX).
  assert (Hnext : ep_next_after page = Some (match last (ep_events page) with Some e => e_event_id e | None => c end))
    by apply page_next_after.
  assert (Hadv : gap_free (Some c) [page] -> after_cursor (Some c) history = ep_events page ++
            after_cursor (Some (match last (ep_events page) with Some e => e_event_id e | None => c end)) history).
  { intros [Hg _]. unfold page in Hg. rewrite page_oldest in Hg.
    destruct (page_advances history h turn.1 c (es_limit es) Hs Hh Hret Hg) as (c1 & Hc1 & ->). fold page in Hc1 |- *.
    rewrite Hnext in Hc1. by injection Hc1 as <-. }
  destruct (negb (es_max_pages es =? 0) && (es_max_pages es <=? n')) eqn:Estop.
  - exists [page]. split; [done|]. split; [|simpl; lia]. intros Hg. eexists. simpl. rewrite app_nil_r. exact (Hadv Hg).
  - rewrite Hnext. destruct (IH (match last (ep_events page) with Some e => e_event_id e | None => c end) n' ltac:(unfold n', U32_MAX; lia))
      as (pages & -> & Hp & Hl).
    exists (page :: pages). split; [done|]. split.
    + intros [Hg Hgs]. rewrite Hnext in Hgs. destruct (Hp Hgs) as [c' Hc']. exists c'.
      rewrite (Hadv (conj Hg I)), Hc'. simpl. by rewrite app_assoc.
    + intros Hlt Hmax. simpl. unfold n' in Hl, Estop. lia.
Qed.

(** A stream of event pages never skips or repeats an event. Opened behind an event id on the leader and
    read from any stores that retain suffixes of the growing log, the stream gives pages; unless one
    of them shows by its oldest event that the window moved past the cursor, what they hold, one page
    behind the other, is exactly the first events of the log behind that id, and the rest of the log
    lies behind the last page's cursor. A request with a page limit gets no more pages. *)
Theorem stream_never_skips request log_index ordinal history polls out :
  sorted_ids history -> polls_ok history polls ->
  sr_after_log_index request = Some log_index -> sr_after_ordinal request = Some ordinal ->
  stream_events encode_page request Anchored polls = Ok out ->
  let c := Some (mkEventId log_index ordinal) in
  exists pages, out = (fun page => Ok (payload page)) <$> pages
    /\ (gap_free c pages ->
        exists c', after_cursor c history = mjoin (ep_events <$> pages) ++ after_cursor (Some c') history)
    /\ (forall max_pages, sr_max_pages request = Some max_pages -> 0 < max_pages <= U32_MAX ->
        Z.of_nat (length pages) <= max_pages).
Proof.
  intros Hs Hok Hl Ho. unfold stream_events, open_stream. rewrite Hl, Ho.
  destruct (negb _); [done|]. destruct (_ <? _); [done|]. intros [= <-]. cbn [es_after].
  destruct (stream_pages_advance
              (mkEventStream (Some (mkEventId log_index ordinal))
                 (match sr_limit request with None => DEFAULT_EVENTS_PAGE | Some value => Z.to_nat value end)
                 (default 0 (sr_wait_ms request)) (default 0 (sr_max_pages request)))
              history polls (mkEventId log_index ordinal) 0 Hs Hok ltac:(lia)) as (pages & Hout & Hg & Hlen).
  exists pages. split; [exact Hout|]. split; [exact Hg|]. intros max_pages Hmax Hr. rewrite Hmax in Hlen. simpl in Hlen. lia.
Qed.

(** An idle stream that was asked neither to wait nor for a number of pages sends an empty page whenever the
    client takes one: its task never waits for an event. *)
Theorem idle_stream_floods es s n :
  es_wait_ms es = 0 -> es_max_pages es = 0 -> (0 < es_limit es)%nat ->
  forall c k, after_cursor (Some c) (events s) = [] ->
  exists page, stream_pages encode_page es (replicate k ([(s, false)], true)) (Some c) n = replicate k (Ok (payload page))
    /\ ep_events page = [].
Proof.
  intros Hw Hm Hl c k Hc. exists (events_page (Some c) (es_limit es) s).
  assert (He : ep_events (events_page (Some c) (es_limit es) s) = []) by (by apply page_empty).
  split; [|done]. revert n. induction k as [|k IH]; intros n; [done|]. simpl replicate. cbn [stream_pages read_events_page].
  rewrite Hw. rewrite orb_true_r. simpl. rewrite encode_total, Hm. simpl. f_equal.
  rewrite page_next_after, He. apply IH.
Qed.
End EventPages.

(** ** Concrete runs *)

Module TransportRuns.
(** A codec of one number. *)
Definition encode (n : Z) : str := [n].
Definition decode (bytes : str) : option Z := match bytes with [n] => Some n | _ => None end.

Lemma number_codec n : decode (encode n) = Some n.
Proof. done. Qed.
Lemma number_bytes n : encode n <> [].
Proof. done. Qed.

(** Five bytes in chunks of two. *)
Definition data : str := [1; 2; 3; 4; 5].
Definition chunks : list SnapshotChunk := full_snapshot encode encode (Some 2) 7 9 data.

(** A peer that sends its vote late, and a chunk behind the terminal one. *)
Definition late_vote : list (Result SnapshotChunk Code) :=
  [Ok (mkChunk [] [9] [1; 2] 0 false); Ok (mkChunk [7] [] [3] 2 true); Ok (mkChunk [] [] [4] 3 true)].

(** A page's text: its events' log indexes. *)
Definition payload (page : EventsResponse) : str := (fun e => ev_log_index (e_event_id e)) <$> ep_events page.
End TransportRuns.

(** All four chunks install the snapshot; three do not. *)
Lemma snapshot_stream_all_or_nothing_witness :
  install_stream TransportRuns.decode TransportRuns.decode (Ok <$> take 4 TransportRuns.chunks)
    = Ok (7, 9, TransportRuns.data)
  /\ (3 < length TransportRuns.chunks)%nat
  /\ install_stream TransportRuns.decode TransportRuns.decode (Ok <$> take 3 TransportRuns.chunks)
       = Err CodeCancelled.
Proof.
  pose proof (fun k => snapshot_stream_all_or_nothing TransportRuns.encode TransportRuns.decode TransportRuns.encode
                TransportRuns.decode TransportRuns.number_codec TransportRuns.number_codec TransportRuns.number_bytes TransportRuns.number_bytes
                (Some 2) 7 9 TransportRuns.data k None) as H.
  split; [|split].
  - specialize (H 4%nat). cbv zeta in H. cbn [cut_tail] in H. rewrite app_nil_r in H.
    change (full_snapshot _ _ _ _ _ _) with TransportRuns.chunks in H.
    destruct (install_stream _ _ _) as [got|code]; [by destruct H as [-> _]|].
    destruct H as [[Hlt _]|[Hlt _]]; vm_compute in Hlt; [lia|discriminate].
  - vm_compute. lia.
  - specialize (H 3%nat). cbv zeta in H. cbn [cut_tail] in H. rewrite app_nil_r in H.
    change (full_snapshot _ _ _ _ _ _) with TransportRuns.chunks in H.
    destruct (install_stream _ _ _) as [got|code].
    + destruct H as (_ & Hle & _). vm_compute in Hle. lia.
    + destruct H as [[_ ->]|[Hlt _]]; [reflexivity|]. vm_compute in Hlt. discriminate.
Defined.

(** The chunk behind the terminal one is not read. *)
Lemma accepted_stream_is_contiguous_witness :
  exists chunks terminal rest,
    TransportRuns.late_vote
      = (Ok <$> chunks ++ [terminal]) ++ rest
    /\ [1; 2; 3] = mjoin (ck_data <$> chunks ++ [terminal]).
Proof.
  destruct (accepted_stream_is_contiguous TransportRuns.decode TransportRuns.decode
    TransportRuns.late_vote
    7 9 [1; 2; 3] eq_refl) as (chunks & terminal & rest & E & _ & _ & Hd & _).
  exists chunks, terminal, rest. by split.
Defined.

(** A request is sent on an idle stream while the reader waits: it is counted, and the wait has no timer. *)
Lemma idle_wait_never_times_out_witness :
  exists st, append_run [AppendCount; AppendSend true] (mkAppendStream 0 false true (Some false) true) = Some (st, [])
    /\ ap_inflight st = 1 /\ append_run [AppendElapsed] st = None.
Proof.
  eexists. split; [reflexivity|]. split; [reflexivity|].
  refine (proj2 (proj2 (idle_wait_never_times_out [AppendCount; AppendSend true]
    (mkAppendStream 0 false true (Some false) true) _ [] eq_refl eq_refl _)) []). by repeat constructor.
Defined.

(** A wait that starts behind a request that is on its way. *)
Lemma append_timer_armed_witness :
  exists st, append_run [AppendCount; AppendSend true; AppendPoll] AppendStream_new = Some (st, [])
    /\ ap_wait st = Some true.
Proof.
  eexists. split; [reflexivity|].
  refine (proj2 (append_timer_armed [AppendCount; AppendSend true] _ [] eq_refl _ _)).
  - intros pre [post Hp]. destruct pre as [|? [|? [|? pre]]]; vm_compute; try discriminate; simplify_eq/=; discriminate.
  - vm_compute. discriminate.
Defined.

(** Two pages of one event; the second is read from a store that has evicted what was behind the first. *)
Lemma stream_never_skips_witness :
  exists pages, [Ok [9]; Ok [10]] = (fun page => Ok (E := Code) (TransportRuns.payload page)) <$> pages
    /\ (forall max_pages, Some 2 = Some max_pages -> 0 < max_pages <= U32_MAX -> Z.of_nat (length pages) <= max_pages).
Proof.
  destruct (stream_never_skips (fun page => Some (TransportRuns.payload page)) TransportRuns.payload (fun _ => eq_refl)
    (mkStreamRequest (Some 8) (Some 0) (Some 1) None (Some 2)) 8 0 BridgeRuns.history
    [([(BridgeRuns.store, false)], true); ([(BridgeRuns.store, false)], true); ([(BridgeRuns.store, false)], true)]
    [Ok [9]; Ok [10]] BridgeRuns.history_sorted) as (pages & Hp & _ & Hl).
  - repeat constructor; (exists BridgeRuns.history; split; [done|exact BridgeRuns.store_retains]).
  - reflexivity.
  - reflexivity.
  - vm_compute. reflexivity.
  - by exists pages.
Defined.

Lemma idle_stream_floods_witness :
  exists page, stream_pages (fun page => Some (TransportRuns.payload page)) (mkEventStream (Some (mkEventId 11 0)) 500 0 0)
      (replicate 3 ([(BridgeRuns.store, false)], true)) (Some (mkEventId 11 0)) 0 = replicate 3 (Ok (TransportRuns.payload page))
    /\ ep_events page = [].
Proof.
  refine (idle_stream_floods (fun page => Some (TransportRuns.payload page)) TransportRuns.payload (fun _ => eq_refl)
            (mkEventStream (Some (mkEventId 11 0)) 500 0 0) BridgeRuns.store 0 eq_refl eq_refl _ (mkEventId 11 0) 3 _).
  - simpl. lia.
  - vm_compute. reflexivity.
Defined.
