(* ===== verification/Node.v ===== *)
(** * The node's background tasks and its health ([src/src/lib.rs], [src/src/network/health.rs])

    The task that steers the market-data feed by Raft leadership, the periodic snapshot timer, and the
    health report. What they read of openraft's metrics is a record; the clock is an argument. *)

From stdpp Require Import gmap.
From S2P Require Import Prelude Fixed Order OrderBook MatchEvent StateMachine MarketMessage ShadowBook MarketData.

(** ** Openraft's metrics *)

(** The fields of [RaftMetrics] the node reads; a log id is its index, the membership its voters and its
    nodes with their addresses, by ascending id, and a follower's progress its matched index. *)
Record NodeMetrics : Type := mkMetrics {
  rm_running : bool;                              (* [running_state] is [Ok] *)
  rm_current_leader : option Z;
  rm_current_term : Z;
  rm_last_log_index : option Z;
  rm_last_applied : option Z;
  rm_snapshot : option Z;
  rm_purged : option Z;
  rm_local_committed : option Z;
  rm_cluster_committed : option Z;
  rm_voters : list Z;
  rm_nodes : list (Z * str);
  rm_replication : option (list (Z * option Z));  (* on the leader *)
}.

(** ** The market-data watch *)

Record WatchConfig : Type := mkWatchConfig {
  wc_node_id : Z;
  wc_depth_levels : Z;
  wc_leader_only : bool;
  wc_snapshot_every_ms : Z;
}.

(** The task's variables. *)
Record Watch : Type := mkWatch { wa_leader : bool; wa_started : bool }.

Definition Watch_new : Watch := mkWatch false false.

Section Watch.
Context `{RaftTypes}.
Variable cfg : WatchConfig.

(** [StateMachineStore::start_market_data_feed], under the state machine's lock: no entry is applied
    while it runs. *)
Definition start_market_data_feed (now_ms : Z) (inner : StateMachineStoreInner) (shared : Shared) : Shared :=
  set_leader (wc_leader_only cfg) true
    (push_snapshot (snapshot_from_inner now_ms (wc_depth_levels cfg) inner) shared).

(** A turn of the loop up to its [select]. *)
Definition watch_refresh (metrics : NodeMetrics) (now_ms : Z) (inner : StateMachineStoreInner)
    (w : Watch) (shared : Shared) : Watch * Shared :=
  let is_leader := bool_decide (rm_current_leader metrics = Some (wc_node_id cfg)) in
  let shared := set_epoch (rm_current_term metrics) (default 0 (rm_current_leader metrics)) shared in
  if negb (wc_leader_only cfg) then
    if negb (wa_started w) then (mkWatch (wa_leader w) true, start_market_data_feed now_ms inner shared)
    else (w, shared)
  else if negb (Bool.eqb is_leader (wa_leader w)) then
    let w := mkWatch is_leader (wa_started w) in
    if is_leader then (w, start_market_data_feed now_ms inner shared)
    else (w, set_leader (wc_leader_only cfg) false shared)
  else (w, shared).

Definition watch_publishing (w : Watch) : bool := if wc_leader_only cfg then wa_leader w else true.

(** What the [select] wakes up with: new metrics, the end of the metrics channel, or the reset timer. *)
Inductive WatchWake : Type := WakeChanged | WakeClosed | WakeReset (now_ms : Z) (inner : StateMachineStoreInner).

(** The [select]; [None] where its branch is disabled. The flag says whether the loop goes on. *)
Definition watch_select (wake : WatchWake) (w : Watch) (shared : Shared) : option (Shared * bool) :=
  match wake with
  | WakeChanged => Some (shared, true)
  | WakeClosed => Some (shared, false)
  | WakeReset now_ms inner =>
      if (0 <? wc_snapshot_every_ms cfg) && watch_publishing w
      then Some (start_market_data_feed now_ms inner shared, true) else None
  end.
End Watch.

(** ** The snapshot timer *)

Definition snapshot_is_due (last_applied snapshot : option Z) : bool :=
  match last_applied with Some applied => default 0 snapshot <? applied | None => false end.

Inductive TimerTurn : Type := TimerIdle | TimerRequested | TimerStopped.

(** A tick of the timer; [triggered] is what openraft answers the request with. *)
Definition timer_tick (metrics : NodeMetrics) (triggered : bool) : TimerTurn :=
  if negb (snapshot_is_due (rm_last_applied metrics) (rm_snapshot metrics)) then TimerIdle
  else if triggered then TimerRequested else TimerStopped.

(** ** Health *)

Inductive HealthError : Type := GrpcStopped | CoreStopped | WalUnavailable | StateMachineUnavailable.

Record LeadershipHealth : Type := mkLeadership {
  lh_is_leader : bool;
  lh_leader_id : option Z;
  lh_term : Z;
}.

Record HealthResponse : Type := mkHealth {
  hr_healthy : bool;
  hr_ready : bool;
  hr_recovered : bool;
  hr_node_id : Z;
  hr_grpc_listening : bool;
  hr_leadership : LeadershipHealth;
  hr_wal : option (option Z * option Z);    (* last and last purged log index *)
  hr_state_machine : option (option Z);     (* last applied *)
  hr_errors : list HealthError;
}.

(** What a node shares with its health report. *)
Record NodeHealth : Type := mkNodeHealth {
  nh_id : Z;
  nh_grpc_listening : bool;
  nh_recovered : bool;
  nh_state_is_leader : bool;                (* openraft's [ServerState] *)
  nh_wal : option (option Z * option Z);
  nh_state_machine : option (option Z);
}.

Definition collect_health (node : NodeHealth) (metrics : NodeMetrics) : HealthResponse :=
  let errors :=
    (if negb (nh_grpc_listening node) then [GrpcStopped] else [])
    ++ (if negb (rm_running metrics) then [CoreStopped] else [])
    ++ (match nh_wal node with None => [WalUnavailable] | Some _ => [] end)
    ++ (match nh_state_machine node with None => [StateMachineUnavailable] | Some _ => [] end) in
  let healthy := bool_decide (length errors = 0%nat) in
  mkHealth healthy (healthy && bool_decide (is_Some (rm_current_leader metrics)) && nh_recovered node)
    (nh_recovered node) (nh_id node) (nh_grpc_listening node)
    (mkLeadership (nh_state_is_leader node) (rm_current_leader metrics) (rm_current_term metrics))
    (nh_wal node) (nh_state_machine node) errors.

(** The listener's flag: a guard clears it however the server's task ends. *)
Definition mark_stopped (node : NodeHealth) : NodeHealth :=
  mkNodeHealth (nh_id node) false (nh_recovered node) (nh_state_is_leader node) (nh_wal node) (nh_state_machine node).
