(* ===== verification/NodeSpec.v ===== *)
(** * Correctness of the node's background tasks

    The feed's gate and header follow Raft leadership; a periodic reset of a publishing feed; the health
    report. *)

From stdpp Require Import gmap list.
From S2P Require Import Prelude BTree Fixed Order OrderBook MatchEvent StateMachine StateInv MarketMessage ShadowBook MarketData MarketDataSpec Node.

(** ** Leadership *)

Section Leadership.
Context `{RaftTypes}.
Context (cfg : WatchConfig).

(** Another task's step leaves the gate and the header alone: the tap and the processor only read them. *)
Definition keeps_header (sh sh' : Shared) : Prop :=
  s_leader sh' = s_leader sh /\ s_epoch sh' = s_epoch sh /\ s_leader_id sh' = s_leader_id sh.

(** The states of the watch among the other tasks, with the metrics it saw last. *)
Inductive watch_reach : option NodeMetrics -> Watch -> Shared -> Prop :=
| wr_start sh : s_leader sh = negb (wc_leader_only cfg) -> watch_reach None Watch_new sh
| wr_other seen w sh sh' : watch_reach seen w sh -> keeps_header sh sh' -> watch_reach seen w sh'
| wr_refresh seen metrics now_ms inner w sh w' sh' :
    watch_reach seen w sh -> watch_refresh cfg metrics now_ms inner w sh = (w', sh') ->
    watch_reach (Some metrics) w' sh'
| wr_select seen wake w sh sh' on :
    watch_reach seen w sh -> watch_select cfg wake w sh = Some (sh', on) -> watch_reach seen w sh'.

Lemma start_feed_header now_ms inner sh :
  s_leader (start_market_data_feed cfg now_ms inner sh) = true
  /\ s_epoch (start_market_data_feed cfg now_ms inner sh) = s_epoch sh
  /\ s_leader_id (start_market_data_feed cfg now_ms inner sh) = s_leader_id sh.
Proof. unfold start_market_data_feed, set_leader. by destruct (wc_leader_only cfg). Qed.

(** What holds of the watch and the shared flags. *)
Record watch_ok (seen : option NodeMetrics) (w : Watch) (sh : Shared) : Prop := {
  wo_gate : s_leader sh = if wc_leader_only cfg then wa_leader w else true;
  wo_seen : forall metrics, seen = Some metrics ->
    s_epoch sh = rm_current_term metrics /\ s_leader_id sh = default 0 (rm_current_leader metrics)
    /\ (wc_leader_only cfg = true -> wa_leader w = bool_decide (rm_current_leader metrics = Some (wc_node_id cfg)));
}.

Lemma watch_refresh_ok seen metrics now_ms inner w sh w' sh' :
  watch_ok seen w sh -> watch_refresh cfg metrics now_ms inner w sh = (w', sh') ->
  watch_ok (Some metrics) w' sh'.
Proof.
  intros [Hg _]. unfold watch_refresh.
  set (sh1 := set_epoch _ _ sh). assert (Hg1 : s_leader sh1 = s_leader sh) by done.
  assert (He1 : s_epoch sh1 = rm_current_term metrics) by done.
  assert (Hi1 : s_leader_id sh1 = default 0 (rm_current_leader metrics)) by done.
  destruct (start_feed_header now_ms inner sh1) as (Hl2 & He2 & Hi2). clearbody sh1.
  destruct (wc_leader_only cfg) eqn:Eo; simpl.
  - case_bool_decide as Em; destruct (wa_leader w) eqn:Ew; simpl; intros [= <- <-].
    all: split; rewrite ?Eo; cbn [wa_leader set_leader_flag s_leader s_epoch s_leader_id set_leader set_resetting];
      [congruence|intros ? [= <-]; split_and!; [congruence..|intros _; by case_bool_decide]].
  - destruct (wa_started w); simpl; intros [= <- <-];
      (split; rewrite ?Eo; [congruence|intros ? [= <-]; split_and!; [congruence..|done]]).
Qed.

Lemma watch_reach_ok seen w sh : watch_reach seen w sh -> watch_ok seen w sh.
Proof.
  induction 1 as [sh Hs|seen w sh sh' _ IH (Hl & He & Hi)|seen metrics now_ms inner w sh w' sh' _ IH Hr|seen wake w sh sh' on _ IH Hs].
  - split; [|done]. rewrite Hs. by destruct (wc_leader_only cfg).
  - destruct IH as [Hg Hs]. split; [by rewrite Hl|]. rewrite He, Hi. exact Hs.
  - by eapply watch_refresh_ok.
  - destruct wake as [| |now_ms inner]; simpl in Hs; [by injection Hs as <- _..|].
    destruct ((0 <? wc_snapshot_every_ms cfg) && watch_publishing cfg w) eqn:E; [|done]. injection Hs as <- _.
    destruct (start_feed_header now_ms inner sh) as (Hl & He & Hi), IH as [Hg Hs]. split.
    + rewrite Hl. apply andb_prop in E as [_ E]. unfold watch_publishing in E. by destruct (wc_leader_only cfg).
    + rewrite He, Hi. exact Hs.
Qed.

(** The gate of a leader-only feed is open exactly when the metrics the watch saw last name this node the
    leader, and the header of every message carries their term and leader, whatever the tap and the
    processor do in between and however often the feed was reset. *)
Theorem gate_follows_leadership metrics w sh :
  wc_leader_only cfg = true -> watch_reach (Some metrics) w sh ->
  s_leader sh = bool_decide (rm_current_leader metrics = Some (wc_node_id cfg))
  /\ s_epoch sh = rm_current_term metrics /\ s_leader_id sh = default 0 (rm_current_leader metrics).
Proof.
  intros Ho Hr. destruct (watch_reach_ok _ _ _ Hr) as [Hg Hs]. destruct (Hs _ eq_refl) as (He & Hi & Hw).
  rewrite Hg, Ho. by rewrite Hw.
Qed.

(** A turn that finds leadership gained queues the book's snapshot, and one that finds it lost leaves the
    processor waiting for the next. *)
Lemma leadership_change_resets metrics now_ms inner w sh w' sh' :
  wc_leader_only cfg = true -> watch_refresh cfg metrics now_ms inner w sh = (w', sh') ->
  wa_leader w' <> wa_leader w ->
  s_resetting sh' = true /\
  (wa_leader w' = true -> s_pending sh' = Some (snapshot_from_inner now_ms (wc_depth_levels cfg) inner)).
Proof.
  intros Ho. unfold watch_refresh. rewrite Ho. simpl.
  case_bool_decide; destruct (wa_leader w) eqn:Ew; simpl; intros [= <- <-]; simpl; rewrite ?Ew; try done.
  all: intros _; unfold start_market_data_feed, set_leader; by rewrite Ho.
Qed.
End Leadership.

(** ** A periodic reset *)

Section Reset.
Context `{RaftTypes}.

(** [n] turns of the processor's loop that each find a frame. *)
Fixpoint run_turns (n : nat) (st : MarketDataProcessor * list TapFrame)
    : Comp (MarketDataProcessor * list TapFrame) :=
  match n with
  | O => Ret st
  | S n =>
      comp_bind (fun turn : MarketDataProcessor * list TapFrame * bool =>
        if turn.2 then run_turns n turn.1 else Ret turn.1) (run_turn SelFrame st)
  end.

(** What a frame below the boundary leaves as it was. *)
Record silent (self self' : MarketDataProcessor) : Prop := {
  si_sent : p_sent self' = p_sent self;
  si_config : p_config self' = p_config self;
  si_active : p_active_market_seq self' = p_active_market_seq self;
  si_leader : s_leader (p_shared self') = s_leader (p_shared self);
  si_resetting : s_resetting (p_shared self') = s_resetting (p_shared self);
  si_pending : s_pending (p_shared self') = s_pending (p_shared self);
  si_gap : s_gap_pending (p_shared self') = s_gap_pending (p_shared self);
  si_dropped : s_dropped (p_shared self') = s_dropped (p_shared self);
  si_bars : p_bars self' = p_bars self;
  si_shadow : p_shadow self' = p_shadow self;
}.

Lemma silent_trans a b c : silent a b -> silent b c -> silent a c.
Proof. intros [] []. split; congruence. Qed.

Lemma silent_ready boundary a b : silent a b -> ready boundary a -> ready boundary b.
Proof. intros [? Hc Ha Hl Hr] []. split; rewrite ?Hc, ?Ha, ?Hl, ?Hr; done. Qed.

(** A turn without a pending snapshot: a frame below the boundary is counted and forgotten. *)
Lemma turn_below boundary frame queue self :
  ready boundary self -> s_pending (p_shared self) = None -> tf_market_seq frame < boundary ->
  exists self', run_turn SelFrame (self, frame :: queue) = Ret (self', queue, true) /\ silent self self'.
Proof.
  intros Hrd Hp Hlt. unfold run_turn, take_pending. rewrite Hp. cbn [comp_bind].
  match goal with |- context [ingest frame ?s] => set (s1 := s) end.
  assert (Hs : silent self s1) by (by split).
  rewrite (ingest_ready boundary) by (by eapply silent_ready).
  rewrite (proj2 (Z.ltb_lt _ _) Hlt). cbn [comp_bind]. eexists. split; [done|].
  by apply (silent_trans _ _ _ Hs).
Qed.

Lemma turns_below boundary queue : forall self,
  ready boundary self -> s_pending (p_shared self) = None ->
  Forall (fun frame => tf_market_seq frame < boundary) queue ->
  exists self', run_turns (length queue) (self, queue) = Ret (self', []) /\ silent self self'.
Proof.
  induction queue as [|frame queue IH]; intros self Hrd Hp Hq; [by exists self|].
  inversion Hq as [|? ? Hf Hq']; subst. cbn [length run_turns].
  destruct (turn_below boundary frame queue self Hrd Hp Hf) as (s1 & -> & Hs). cbn [comp_bind fst snd].
  destruct (IH s1) as (s2 & -> & Hs2); [by eapply silent_ready|by rewrite (si_pending _ _ Hs)|done|].
  exists s2. split; [done|]. by eapply silent_trans.
Qed.

(** Installing a snapshot drops the open bars and flags no gap. *)
Lemma install_drops_bars snapshot self :
  let self' := install_snapshot snapshot self in
  p_bars self' = ∅ /\ s_gap_pending (p_shared self') = s_gap_pending (p_shared self)
  /\ s_dropped (p_shared self') = s_dropped (p_shared self)
  /\ s_pending (p_shared self') = s_pending (p_shared self).
Proof.
  unfold install_snapshot, emit_reset, emit_bbo. cbn [p_shadow set_pre_snapshot set_shadow count
    set_shared set_reset_point emit].
  destruct (shadow_update _ _ _ !! _) as [book|]; [|done]. by destruct (bbo_of book).
Qed.

Lemma apply_snapshot_empty snapshot self :
  p_pre_snapshot self = [] -> apply_snapshot snapshot self = Ret (set_pre_snapshot [] (install_snapshot snapshot self)).
Proof.
  intros Hp. pose proof (install_keeps_pre snapshot self) as E. rewrite Hp in E. unfold apply_snapshot. by rewrite E.
Qed.

Lemma take_nothing self : s_pending (p_shared self) = None -> take_pending self = (None, self).
Proof. destruct self as [? [] ? ? ? ? ? ? ? ? ? ?]. cbn. by intros ->. Qed.

(** A turn that finds a pending snapshot installs it first. *)
Lemma turn_installs snapshot self queue :
  s_pending (p_shared self) = Some snapshot -> p_pre_snapshot self = [] ->
  let s := install_snapshot snapshot (set_shared (set_pending None) self) in
  s_pending (p_shared s) = None ->
  run_turn SelFrame (self, queue) = run_turn SelFrame (set_pre_snapshot [] s, queue).
Proof.
  intros Hp Hpre s Hs. unfold run_turn. rewrite (take_nothing (set_pre_snapshot [] s)) by exact Hs.
  unfold take_pending. rewrite Hp. cbn [comp_bind]. rewrite apply_snapshot_empty by exact Hpre. done.
Qed.

(** The messages of a reset are of the depth snapshot and the BBO stream. *)
Definition reset_message (m : MarketMessage) : Prop :=
  mm_stream m = STREAM_DEPTH_SNAPSHOT \/ mm_stream m = STREAM_BBO.

Lemma anchored_reset seq keys msgs :
  keys `sublist_of` [(STREAM_DEPTH_SNAPSHOT, 0); (STREAM_BBO, SNAPSHOT_BBO_SUB_SEQ)] ->
  anchored seq keys msgs -> Forall reset_message msgs.
Proof.
  intros Hk [_ <-]. apply Forall_forall. intros m Hm.
  assert (Hin : (mm_stream m, mm_sub_seq m) ∈ [(STREAM_DEPTH_SNAPSHOT, 0); (STREAM_BBO, SNAPSHOT_BBO_SUB_SEQ)]).
  { eapply elem_of_submseteq; [|by apply sublist_submseteq]. by apply list_elem_of_fmap_2'  with m. }
  apply elem_of_cons in Hin as [[= ? _]|Hin]; [by left|]. apply list_elem_of_singleton in Hin as [= ? _]. by right.
Qed.

(** C36: The periodic reset of a publishing feed loses what is queued. Let a feed publish steadily, and let
    frames of entries the book already contains wait in the tap's queue when the watch's timer fires.
    The reset point it queues lies above those frames: the processor installs it first and then takes
    every one of them without a message, so the trades, lifecycle records and bars they hold are never
    published; it sends only the reset's depth snapshot and BBO, drops the open bars, counts no
    dropped frame and flags no gap. *)
Theorem periodic_reset_loses_queued cfg w self boundary frame queue now_ms inner :
  ready boundary self -> p_pre_snapshot self = [] -> md_leader_only (p_config self) = wc_leader_only cfg ->
  Forall (fun f => tf_market_seq f < book_sequence (orderbook inner)) (frame :: queue) ->
  0 < wc_snapshot_every_ms cfg -> watch_publishing cfg w = true ->
  exists shared self' reset,
    watch_select cfg (WakeReset now_ms inner) w (p_shared self) = Some (shared, true)
    /\ run_turns (length (frame :: queue)) (set_shared (fun _ => shared) self, frame :: queue) = Ret (self', [])
    /\ p_sent self' = p_sent self ++ reset /\ Forall reset_message reset
    /\ p_bars self' = ∅
    /\ s_gap_pending (p_shared self') = s_gap_pending (p_shared self)
    /\ s_dropped (p_shared self') = s_dropped (p_shared self).
Proof.
  intros Hrd Hpre Hlo Hq Hev Hw. unfold watch_select. rewrite Hw, (proj2 (Z.ltb_lt _ _) Hev). cbn [andb].
  set (snapshot := snapshot_from_inner now_ms (wc_depth_levels cfg) inner).
  set (shared := start_market_data_feed cfg now_ms inner (p_shared self)).
  assert (Hsh : s_leader shared = true /\ s_pending shared = Some snapshot
            /\ s_gap_pending shared = s_gap_pending (p_shared self) /\ s_dropped shared = s_dropped (p_shared self)).
  { unfold shared, start_market_data_feed, set_leader. by destruct (wc_leader_only cfg). }
  destruct Hsh as (Hl & Hp & Hg & Hd). clearbody shared.
  set (s0 := set_shared (set_pending None) (set_shared (fun _ => shared) self)).
  assert (Hgate : negb (md_leader_only (p_config s0)) || s_leader (p_shared s0) = true).
  { cbn. rewrite Hl. by destruct (md_leader_only _). }
  destruct (install_facts snapshot s0 Hgate (rd_intervals _ _ Hrd)) as (Hrd1 & _ & _ & reset & keys & Hs & Hk & Ha & _ & _).
  destruct (install_drops_bars snapshot s0) as (Hb & Hg1 & Hd1 & Hp1).
  change (s_pending (p_shared s0)) with (@None SnapshotFrame) in Hp1.
  pose proof (turn_installs snapshot (set_shared (fun _ => shared) self) (frame :: queue) Hp Hpre) as Hturn.
  fold s0 in Hturn. revert Hturn Hrd1 Hs Hb Hg1 Hd1 Hp1.
  generalize (install_snapshot snapshot s0). intros s1 Hturn Hrd1 Hs Hb Hg1 Hd1 Hp1. specialize (Hturn Hp1).
  destruct (turns_below (book_sequence (orderbook inner)) (frame :: queue)
              (set_pre_snapshot [] s1)) as (self' & Hrun & Hsil); [by destruct Hrd1; split|exact Hp1|done|].
  exists shared, self', reset. split; [done|]. split; [cbn [length run_turns] in *; by rewrite Hturn|].
  destruct Hsil as [Hsent _ _ _ _ _ Hgap Hdrop Hbars _]. rewrite Hsent, Hbars, Hgap, Hdrop.
  split; [exact Hs|]. split; [by eapply anchored_reset|]. split; [exact Hb|].
  split; [etrans; [exact Hg1|exact Hg]|etrans; [exact Hd1|exact Hd]].
Qed.
End Reset.

(** ** Health *)

Lemma elem_guard {A} (b : bool) (x e : A) : e ∈ (if b then [x] else []) <-> b = true /\ e = x.
Proof. destruct b; [rewrite list_elem_of_singleton|rewrite elem_of_nil]; naive_solver. Qed.

Lemma elem_unless {A B} (o : option B) (x e : A) :
  e ∈ (match o with None => [x] | Some _ => [] end) <-> o = None /\ e = x.
Proof. destruct o; [rewrite elem_of_nil|rewrite list_elem_of_singleton]; naive_solver. Qed.

(** A node is ready exactly when nothing is wrong with its listener, its Raft core, its log and its state
    machine, a leader is known and its recovery is over; what is wrong is what it reports. *)
Theorem ready_means_usable (node : NodeHealth) (metrics : NodeMetrics) :
  let report := collect_health node metrics in
  (hr_ready report = true <->
     hr_errors report = [] /\ is_Some (rm_current_leader metrics) /\ nh_recovered node = true)
  /\ (hr_healthy report = true <-> hr_errors report = [])
  /\ (forall e, e ∈ hr_errors report <->
        match e with
        | GrpcStopped => nh_grpc_listening node = false
        | CoreStopped => rm_running metrics = false
        | WalUnavailable => nh_wal node = None
        | StateMachineUnavailable => nh_state_machine node = None
        end).
Proof.
  unfold collect_health. cbn [hr_ready hr_healthy hr_errors]. set (errors := _ ++ _).
  assert (He : bool_decide (length errors = 0%nat) = true <-> errors = [])
    by (rewrite bool_decide_eq_true; apply length_zero_iff_nil).
  split; [|split; [exact He|]].
  - rewrite !andb_true_iff, He, bool_decide_eq_true. tauto.
  - intros e. unfold errors. rewrite !elem_of_app, !elem_guard, !elem_unless, !negb_true_iff.
    destruct e; split; try (intros [[? E]|[[? E]|[[? E]|[? E]]]]; first [done|discriminate E]);
      intros ?; [by left|by right; left|by right; right; left|by right; right; right].
Qed.

(** The timer asks for a snapshot exactly when an entry was applied that the last one does not cover. *)
Theorem timer_snapshots_news (metrics : NodeMetrics) (triggered : bool) :
  timer_tick metrics triggered = TimerIdle <->
  forall applied, rm_last_applied metrics = Some applied -> applied <= default 0 (rm_snapshot metrics).
Proof.
  unfold timer_tick, snapshot_is_due. destruct (rm_last_applied metrics) as [applied|]; cbn [negb].
  - destruct (Z.ltb_spec (default 0 (rm_snapshot metrics)) applied) as [Hlt|Hle]; cbn [negb].
    + split; [by destruct triggered|]. intros H. specialize (H applied eq_refl). lia.
    + split; [|done]. by intros _ ? [= <-].
  - split; [done|]. by intros _.
Qed.

(** ** Concrete runs *)

#[local] Instance node_raft : RaftTypes :=
  {| LogId := Z; Membership := unit; StoredMembership := option Z; log_id_index := fun i => i;
     stored_membership_new := fun l _ => l; stored_membership_default := None |}.

Module NodeRuns.
Definition cfg : WatchConfig := mkWatchConfig 1 10 (md_leader_only FeedDemo.config) 30000.
Definition leading : NodeMetrics :=
  mkMetrics true (Some 1) 4 (Some 20) (Some 20) (Some 10) None None None [1; 2; 3] [] None.
Definition closed : Shared := p_shared (start_with_sink FeedDemo.config).

(** A book whose next entry has sequence 9, and a frame of the entry before it. *)
Definition inner : StateMachineStoreInner :=
  set_orderbook (set_book_sequence 9 OrderBook_new) (fresh_store 10 10).
Definition queued : TapFrame := FeedDemo.frame 8 3600 103.

Lemma publishing : ready 5 FeedDemo.final.
Proof.
  split; [vm_compute; reflexivity..|].
  assert (E : md_bar_intervals_ms (p_config FeedDemo.final) = [1000]) by (vm_compute; reflexivity).
  rewrite E. by apply Forall_singleton.
Qed.
End NodeRuns.

Lemma gate_follows_leadership_witness :
  let cfg := mkWatchConfig 1 10 true 30000 in
  let shared := set_leader_flag false NodeRuns.closed in
  s_leader (watch_refresh cfg NodeRuns.leading 0 NodeRuns.inner Watch_new shared).2 = true
  /\ s_epoch (watch_refresh cfg NodeRuns.leading 0 NodeRuns.inner Watch_new shared).2 = 4.
Proof.
  intros cfg shared.
  pose proof (gate_follows_leadership cfg NodeRuns.leading
    (watch_refresh cfg NodeRuns.leading 0 NodeRuns.inner Watch_new shared).1
    (watch_refresh cfg NodeRuns.leading 0 NodeRuns.inner Watch_new shared).2 eq_refl) as H.
  destruct H as (Hl & He & _).
  - eapply wr_refresh; [apply (wr_start cfg shared); reflexivity|apply surjective_pairing].
  - split; [exact Hl|exact He].
Defined.

(** The trade in the queued frame is not published. *)
Lemma periodic_reset_loses_queued_witness :
  frame_trades NodeRuns.queued <> [] /\
  exists shared self' reset,
    watch_select NodeRuns.cfg (WakeReset 4000 NodeRuns.inner) Watch_new (p_shared FeedDemo.final) = Some (shared, true)
    /\ run_turns 1 (set_shared (fun _ => shared) FeedDemo.final, [NodeRuns.queued]) = Ret (self', [])
    /\ p_sent self' = p_sent FeedDemo.final ++ reset /\ Forall reset_message reset.
Proof.
  split; [vm_compute; discriminate|].
  destruct (periodic_reset_loses_queued NodeRuns.cfg Watch_new FeedDemo.final 5 NodeRuns.queued [] 4000 NodeRuns.inner
    NodeRuns.publishing) as (shared & self' & reset & H1 & H2 & H3 & H4 & _).
  - vm_compute. reflexivity.
  - vm_compute. reflexivity.
  - apply Forall_singleton. vm_compute. reflexivity.
  - vm_compute. reflexivity.
  - vm_compute. reflexivity.
  - exists shared, self', reset. split; [exact H1|]. split; [exact H2|]. split; [exact H3|exact H4].
Defined.
