(* ===== verification/Console.v ===== *)
(** * The operational console and the membership endpoints ([src/src/network/console.rs],
      [src/src/network/management.rs])

    The node snapshot, the cluster view over its peers' answers, the guarded actions with their lock and
    history, and what the membership endpoints let through to openraft. Openraft's metrics and the answers
    of the peers are arguments; JSON and the static pages are not modelled. *)

From stdpp Require Import gmap sorting strings.
From S2P Require Import Prelude BTree Fixed Order OrderBook MatchEvent StateMachine MarketMessage MarketData Api Node.

Definition MAX_RECENT_ACTIONS : nat := 50.

(** ** The node snapshot *)

Record ReplicationSnapshot : Type := mkReplication {
  rp_node_id : Z;
  rp_matched_index : option Z;
  rp_lag : option Z;
}.

Record RaftSnapshot : Type := mkRaftSnapshot {
  rs_last_log_index : option Z;
  rs_local_committed_index : option Z;
  rs_cluster_committed_index : option Z;
  rs_last_applied_index : option Z;
  rs_snapshot_index : option Z;
  rs_purged_index : option Z;
  rs_voters : list Z;
  rs_learners : list Z;
  rs_replication : list ReplicationSnapshot;
}.

Record MarketDataSnapshot : Type := mkMarketDataSnapshot {
  mds_publishing : bool;
  mds_frames : Z;
  mds_trades : Z;
  mds_trade_messages : Z;
  mds_bbo : Z;
  mds_gaps : Z;
  mds_dropped_frames : Z;
  mds_queued_frames : Z;
  mds_queue_capacity : Z;
  mds_last_market_seq : Z;
  mds_last_log_index : Z;
  mds_last_ts_ms : Z;
}.

Record OrderbookSnapshot : Type := mkOrderbookSnapshot {
  os_sequence : Z;
  os_spread : option Fixed;
  os_last_trade_price : option Fixed;
  os_bid_levels : nat;
  os_ask_levels : nat;
  os_parked_stops : nat;
}.

(** [NodeSnapshot]; its event fields are those of [/events/status]. *)
Record NodeSnapshot : Type := mkNodeSnapshot {
  ns_health : HealthResponse;
  ns_started_at_ms : Z;
  ns_raft : RaftSnapshot;
  ns_events : EventsStatus;
  ns_market_data : option MarketDataSnapshot;
  ns_orderbook : OrderbookSnapshot;
}.

(** [u64::saturating_sub]. *)
Definition saturating_sub_u64 (a b : Z) : Z := Z.max 0 (a - b).

(** [last.zip(matched)] and the difference. *)
Definition replication_lag (last_log_index matched : option Z) : option Z :=
  match last_log_index, matched with
  | Some last, Some matched => Some (saturating_sub_u64 last matched)
  | _, _ => None
  end.

Definition replication_snapshot (metrics : NodeMetrics) : list ReplicationSnapshot :=
  match rm_replication metrics with
  | None => []
  | Some replication =>
      (fun '(node_id, matched) =>
         mkReplication node_id matched (replication_lag (rm_last_log_index metrics) matched)) <$> replication
  end.

(** Distinct neighbours of the prices of an ordered map. *)
Definition count_price_levels (prices : list Fixed) : nat :=
  (foldl (fun (st : nat * option Fixed) price =>
            if bool_decide (st.2 = Some price) then st else (S st.1, Some price))
     (0%nat, None) prices).1.

Definition learner_ids (metrics : NodeMetrics) : list Z :=
  filter (fun id => id ∉ rm_voters metrics) ((rm_nodes metrics).*1).

Definition market_data_snapshot (shared : Shared) : MarketDataSnapshot :=
  let stats := s_stats shared in
  mkMarketDataSnapshot (s_publishing shared) (stats StFrames) (stats StTrades) (stats StTradeMessages)
    (stats StBbo) (stats StGaps) (stats StDroppedFrames) (stats StQueuedFrames) (stats StQueueCapacity)
    (stats StLastMarketSeq) (stats StLastLogIndex) (stats StLastTsMs).

Section Snapshot.
Context `{RaftTypes}.

Definition orderbook_snapshot (b : OrderBook) : OrderbookSnapshot :=
  mkOrderbookSnapshot (book_sequence b) (spread b) (last_trade_price b)
    (count_price_levels ((fun key => bid_price key) <$> (bids b).*1))
    (count_price_levels ((fun key => ask_price key) <$> (asks b).*1)) (length (stops b)).

(** [collect_node_snapshot]; [tap] is the shared state of the installed tap. *)
Definition collect_node_snapshot (node : NodeHealth) (started_at_ms : Z) (metrics : NodeMetrics)
    (inner : StateMachineStoreInner) (tap : option Shared) : NodeSnapshot :=
  mkNodeSnapshot (collect_health node metrics) started_at_ms
    (mkRaftSnapshot (rm_last_log_index metrics) (rm_local_committed metrics) (rm_cluster_committed metrics)
       (rm_last_applied metrics) (rm_snapshot metrics) (rm_purged metrics) (rm_voters metrics)
       (learner_ids metrics) (replication_snapshot metrics))
    (events_status inner) (market_data_snapshot <$> tap) (orderbook_snapshot (orderbook inner)).
End Snapshot.

(** ** The cluster view *)

Inductive MemberRole : Type := RoleUnknown | RoleVoter | RoleLearner.

Record ClusterNode : Type := mkClusterNode {
  cn_node_id : Z;
  cn_addr : str;
  cn_role : MemberRole;
  cn_local : bool;
  cn_reachable : bool;
  cn_latency_ms : option Z;
  cn_snapshot : option NodeSnapshot;
  cn_error : option str;
}.

Inductive ClusterWarning : Type := NotInitialized | NodeWarning (id : Z) (error : str) | NoLeader | LocalNotReady.

Record ClusterSnapshot : Type := mkClusterSnapshot {
  cl_local_node_id : Z;
  cl_leader_id : option Z;
  cl_term : Z;
  cl_nodes : list ClusterNode;
  cl_warnings : list ClusterWarning;
}.

(** A member: its id, its address, and whether it votes. *)
Definition Member : Type := Z * str * bool.

(** A peer's answer: its id, the time it took, and its snapshot or what went wrong. *)
Definition Fetched : Type := Z * Z * Result NodeSnapshot str.

Definition PEER_MISSING : str := lit "peer result missing".

(** [sort_by_key(|(id, _, _)| *id)]. *)
Definition member_le (a b : Member) : Prop := a.1.1 <= b.1.1.

#[global] Instance member_le_dec : RelDecision member_le.
Proof. intros a b. unfold member_le. apply _. Defined.
#[global] Instance member_le_total : Total member_le.
Proof. intros a b. unfold member_le. lia. Qed.
#[global] Instance member_le_trans : Transitive member_le.
Proof. intros a b c. unfold member_le. lia. Qed.

(** The members in the order of their ids. *)
Definition cluster_members (app_id : Z) (app_addr : str) (metrics : NodeMetrics) : list Member :=
  let members := (fun '(id, addr) => (id, addr, bool_decide (id ∈ rm_voters metrics))) <$> rm_nodes metrics in
  merge_sort member_le
    (match members with [] => [(app_id, app_addr, false)] | _ => members end).

Definition cluster_initialized (metrics : NodeMetrics) : bool := negb (bool_decide (length (rm_nodes metrics) = 0%nat)).

(** One turn of the loop over the members: the entry, and what is warned of. *)
Definition cluster_node (app_id : Z) (app_addr : str) (initialized : bool) (local : NodeSnapshot)
    (fetched : list Fetched) (member : Member) : ClusterNode * list ClusterWarning :=
  let '(id, addr, voter) := member in
  let role := if negb initialized then RoleUnknown else if (voter : bool) then RoleVoter else RoleLearner in
  if id =? app_id then (mkClusterNode id app_addr role true true (Some 0) (Some local) None, [])
  else
    match List.find (fun peer : Fetched => peer.1.1 =? id) fetched with
    | None => (mkClusterNode id addr role false false None None (Some PEER_MISSING), [])
    | Some (_, latency_ms, Ok node_snapshot) =>
        (mkClusterNode id addr role false true (Some latency_ms) (Some node_snapshot) None, [])
    | Some (_, latency_ms, Err error) =>
        (mkClusterNode id addr role false false (Some latency_ms) None (Some error), [NodeWarning id error])
    end.

(** The peers that are asked. *)
Definition cluster_peers (app_id : Z) (members : list Member) : list Member :=
  filter (fun member : Member => member.1.1 <> app_id) members.

(** [/console/api/cluster]; [fetched] is in the order the answers came in. *)
Definition cluster (app_id : Z) (app_addr : str) (metrics : NodeMetrics) (local : NodeSnapshot)
    (fetched : list Fetched) : ClusterSnapshot :=
  let initialized := cluster_initialized metrics in
  let entries := cluster_node app_id app_addr initialized local fetched
                   <$> cluster_members app_id app_addr metrics in
  mkClusterSnapshot app_id (rm_current_leader metrics) (rm_current_term metrics) (entries.*1)
    ((if negb initialized then [NotInitialized] else []) ++ mjoin (entries.*2)
     ++ (match rm_current_leader metrics with None => [NoLeader] | Some _ => [] end)
     ++ (if negb (hr_ready (ns_health local)) then [LocalNotReady] else [])).

(** ** Actions *)

Inductive ConsoleAction : Type := TransferLeader (target : Z) | Elect | TakeSnapshot.

Record ActionRecord : Type := mkActionRecord {
  ar_at_ms : Z;
  ar_action : ConsoleAction;
  ar_target : option Z;
  ar_accepted : bool;
  ar_error : option str;
}.

(** [ConsoleState]: the action lock and the history, newest first. *)
Record ConsoleState : Type := mkConsole { cs_locked : bool; cs_recent : list ActionRecord }.

Definition ConsoleState_new : ConsoleState := mkConsole false [].

(** [while records.len() > MAX { records.pop_back(); }]; a turn shortens the list. *)
Fixpoint pop_back_over (fuel : nat) (records : list ActionRecord) : list ActionRecord :=
  match fuel with
  | O => records
  | S fuel =>
      if bool_decide (MAX_RECENT_ACTIONS < length records)%nat then pop_back_over fuel (removelast records)
      else records
  end.

Definition record_action (action : ActionRecord) (st : ConsoleState) : ConsoleState :=
  let records := action :: cs_recent st in
  mkConsole (cs_locked st) (pop_back_over (length records) records).

(** The headers an action looks at: whether the action header is there, the origin if it is, and whether
    it is readable text, and the host the request was sent to. *)
Record ActionHeaders : Type := mkHeaders {
  ah_action : bool;
  ah_origin : option (option str);
  ah_host : str;
}.

Definition SCHEME_END : str := lit "://".
Definition CH_SLASH : Z := 47.

(** [str::split_once] with a text pattern. *)
Fixpoint split_once_str (pattern s : str) : option (str * str) :=
  if starts_with pattern s then Some ([], drop (length pattern) s)
  else match s with
       | [] => None
       | x :: s => match split_once_str pattern s with Some (a, b) => Some (x :: a, b) | None => None end
       end.

(** The authority of an origin: what is behind its scheme, up to a slash. *)
Definition origin_host (origin : str) : str :=
  match split_once_str SCHEME_END origin with
  | Some (_, rest) => match split_once CH_SLASH rest with Some (host, _) => host | None => rest end
  | None => origin
  end.

Definition action_headers_ok (headers : ActionHeaders) : bool :=
  if negb (ah_action headers) then false
  else match ah_origin headers with
       | Some origin => bool_decide (origin_host (default [] origin) = ah_host headers)
       | None => true
       end.

(** Why an action is refused, with its HTTP status. *)
Inductive ActionRefusal : Type :=
| BadHeaders | NotTheLeader (leader : option Z) | TargetIsSelf | TargetNotVoter (target : Z)
| TargetLags (target lag : Z) | SelfNotVoter | ActionInProgress.

Definition refusal_status (refusal : ActionRefusal) : Z :=
  match refusal with
  | BadHeaders | TargetIsSelf => 400
  | NotTheLeader _ | TargetNotVoter _ | TargetLags _ _ | SelfNotVoter => 409
  | ActionInProgress => 429
  end.

Definition lookup_replication (target : Z) (metrics : NodeMetrics) : option Z :=
  match rm_replication metrics with
  | None => None
  | Some replication =>
      match List.find (fun progress : Z * option Z => progress.1 =? target) replication with
      | Some (_, matched) => matched
      | None => None
      end
  end.

(** The lag of a transfer's target, where it is known. *)
Definition target_lag (target : Z) (metrics : NodeMetrics) : option Z :=
  replication_lag (rm_last_log_index metrics) (lookup_replication target metrics).

(** The checks of a handler up to the lock; [None]: they pass. *)
Definition action_guards (app_id : Z) (action : ConsoleAction) (headers : ActionHeaders) (metrics : NodeMetrics)
    : option ActionRefusal :=
  if negb (action_headers_ok headers) then Some BadHeaders
  else
    match action with
    | TransferLeader target =>
        if negb (bool_decide (rm_current_leader metrics = Some app_id))
        then Some (NotTheLeader (rm_current_leader metrics))
        else if target =? app_id then Some TargetIsSelf
        else if negb (bool_decide (target ∈ rm_voters metrics)) then Some (TargetNotVoter target)
        else match target_lag target metrics with
             | Some lag => if 0 <? lag then Some (TargetLags target lag) else None
             | None => None
             end
    | Elect => if negb (bool_decide (app_id ∈ rm_voters metrics)) then Some SelfNotVoter else None
    | TakeSnapshot => None
    end.

(** A handler up to its request to openraft: refused, or asking with the lock held. *)
Definition begin_action (app_id : Z) (action : ConsoleAction) (headers : ActionHeaders) (metrics : NodeMetrics)
    (st : ConsoleState) : Result ConsoleState ActionRefusal :=
  match action_guards app_id action headers metrics with
  | Some refusal => Err refusal
  | None => if cs_locked st then Err ActionInProgress else Ok (mkConsole true (cs_recent st))
  end.

Definition action_target (app_id : Z) (action : ConsoleAction) : option Z :=
  match action with TransferLeader target => Some target | Elect => Some app_id | TakeSnapshot => None end.

Record ActionResponse : Type := mkActionResponse {
  rsp_accepted : bool;
  rsp_action : ConsoleAction;
  rsp_target : option Z;
  rsp_leader_id : option Z;
  rsp_term : Z;
}.

(** The rest of the handler: openraft's answer is recorded and the lock given back. The response names
    the leader and the term of the metrics the handler started with; its status is 202 or 503. *)
Definition finish_action (app_id at_ms : Z) (action : ConsoleAction) (metrics : NodeMetrics)
    (result : Result unit str) (st : ConsoleState) : ConsoleState * Z * ActionResponse :=
  let accepted := match result with Ok _ => true | Err _ => false end in
  let error := match result with Ok _ => None | Err message => Some message end in
  let st := record_action (mkActionRecord at_ms action (action_target app_id action) accepted error) st in
  (mkConsole false (cs_recent st), if accepted then 202 else 503,
   mkActionResponse accepted action (action_target app_id action) (rm_current_leader metrics)
     (rm_current_term metrics)).

(** ** Membership *)

(** [ensure_min_voters] of these endpoints, which has no exception for a node without a minimum. *)
Definition require_voters (min_voters voters : Z) : Result unit EdgeError :=
  if voters <? min_voters then Err (TooFewVoters voters min_voters) else Ok ().

(** The nodes [/init] starts a cluster with: this node alone for an empty request, else a map of the
    request's, in which a later entry of an id replaces an earlier one. *)
Definition init_nodes (app_id : Z) (app_addr : str) (request : list (Z * str)) : list (Z * str) :=
  match request with
  | [] => [(app_id, app_addr)]
  | _ => foldl (fun nodes '(id, addr) => bt_insert id addr nodes) [] request
  end.

Definition init (min_voters app_id : Z) (app_addr : str) (request : list (Z * str))
    : Result (list (Z * str)) EdgeError :=
  let nodes := init_nodes app_id app_addr request in
  match require_voters min_voters (Z.of_nat (length nodes)) with
  | Err e => Err e
  | Ok _ => Ok nodes
  end.

(** [/change-membership]; the request is a set of ids. *)
Definition change_membership (min_voters : Z) (request : gset Z) : Result (gset Z) EdgeError :=
  match require_voters min_voters (Z.of_nat (size request)) with
  | Err e => Err e
  | Ok _ => Ok request
  end.
