(* ===== verification/ConsoleSpec.v ===== *)
(** * Correctness of the console and the membership endpoints

    The cluster view does not depend on the order its peers answer in; actions run one at a time and are
    recorded; what the guards of an action let through; the level counts of the order-book summary. *)

From stdpp Require Import gmap list sorting strings relations.
From S2P Require Import Prelude BTree Fixed Order OrderBook Sweep BookInv Depth Book MatchEvent StateMachine MarketMessage MarketData Api ApiSpec Node Console.

(** ** The cluster view *)

Section Cluster.
Context (app_id : Z) (app_addr : str) (metrics : NodeMetrics) (local : NodeSnapshot).
(** What each peer answers, and how long that takes. *)
Context (latency : Z -> Z) (answer : Z -> Result NodeSnapshot str).

#[local] Notation members := (cluster_members app_id app_addr metrics).

(** The entry of a member, from its own answer alone. *)
Definition member_entry (member : Member) : ClusterNode :=
  let '(id, addr, voter) := member in
  let role := if cluster_initialized metrics then (if (voter : bool) then RoleVoter else RoleLearner) else RoleUnknown in
  if id =? app_id then mkClusterNode id app_addr role true true (Some 0) (Some local) None
  else match answer id with
       | Ok snapshot => mkClusterNode id addr role false true (Some (latency id)) (Some snapshot) None
       | Err error => mkClusterNode id addr role false false (Some (latency id)) None (Some error)
       end.

Definition member_warning (member : Member) : list ClusterWarning :=
  let id := member.1.1 in
  if id =? app_id then [] else match answer id with Ok _ => [] | Err error => [NodeWarning id error] end.

(** The answers of the peers, in the order of the members. *)
Definition answers : list Fetched :=
  (fun member : Member => (member.1.1, latency member.1.1, answer member.1.1)) <$> cluster_peers app_id members.

Lemma members_ids :
  rm_nodes metrics <> [] -> (fun member : Member => member.1.1) <$> members ≡ₚ (rm_nodes metrics).*1.
Proof.
  intros Hne. unfold cluster_members.
  assert (E : (fun member : Member => member.1.1) <$>
     ((fun '(id, addr) => (id, addr, bool_decide (id ∈ rm_voters metrics))) <$> rm_nodes metrics) = (rm_nodes metrics).*1).
  { rewrite <- list_fmap_compose. apply list_fmap_ext. by intros i [id addr] _. }
  destruct (rm_nodes metrics) as [|n nodes]; [done|]. rewrite <- E.
  apply fmap_Permutation, merge_sort_Permutation.
Qed.

Lemma find_answer fetched id :
  NoDup ((fun peer : Fetched => peer.1.1) <$> fetched) -> (id, latency id, answer id) ∈ fetched ->
  List.find (fun peer : Fetched => peer.1.1 =? id) fetched = Some (id, latency id, answer id).
Proof.
  induction fetched as [|[[i l] r] fetched IH]; [by intros _ ?%elem_of_nil|]. cbn [fmap list_fmap List.find fst].
  rewrite NoDup_cons. intros [Hi Hn] [[= <- <- <-]|Hin]%elem_of_cons; [by rewrite Z.eqb_refl|].
  destruct (Z.eqb_spec i id) as [->|]; [|by apply IH].
  destruct Hi. by apply (list_elem_of_fmap_2 (fun peer : Fetched => peer.1.1)) in Hin.
Qed.

Lemma answers_ids : (fun peer : Fetched => peer.1.1) <$> answers = (fun member : Member => member.1.1) <$> cluster_peers app_id members.
Proof. unfold answers. by rewrite <- list_fmap_compose. Qed.

Lemma member_ids_NoDup :
  NoDup ((rm_nodes metrics).*1) -> NoDup ((fun member : Member => member.1.1) <$> members).
Proof.
  intros Hn. destruct (decide (rm_nodes metrics = [])) as [E|Hne].
  - unfold cluster_members. rewrite E. apply NoDup_singleton.
  - by rewrite members_ids.
Qed.

Lemma NoDup_fmap_filter {A B} (f : A -> B) (P : A -> Prop) `{!forall x, Decision (P x)} l :
  NoDup (f <$> l) -> NoDup (f <$> filter P l).
Proof.
  induction l as [|x l IH]; [done|]. rewrite fmap_cons, filter_cons, NoDup_cons. intros [Hx Hl].
  destruct (decide (P x)); [|by apply IH]. rewrite fmap_cons, NoDup_cons. split; [|by apply IH].
  intros (y & E & Hy)%list_elem_of_fmap. apply list_elem_of_filter in Hy as [_ Hy]. apply Hx. rewrite E.
  by apply list_elem_of_fmap_2.
Qed.

(** The cluster view is a function of what each member answers: in whatever order the concurrent requests
    complete, it has one entry for every member, in the order of their ids, made of that member's own
    answer; a failed peer is shown unreachable and warned of, no answer is attributed to another node,
    and none goes missing. *)
Theorem cluster_view_order_free fetched :
  NoDup ((rm_nodes metrics).*1) -> fetched ≡ₚ answers ->
  let view := cluster app_id app_addr metrics local fetched in
  cl_nodes view = member_entry <$> members
  /\ StronglySorted (fun a b => a <= b) (cn_node_id <$> cl_nodes view)
  /\ (rm_nodes metrics <> [] -> cn_node_id <$> cl_nodes view ≡ₚ (rm_nodes metrics).*1)
  /\ cl_warnings view =
       (if cluster_initialized metrics then [] else [NotInitialized]) ++ mjoin (member_warning <$> members)
       ++ (match rm_current_leader metrics with None => [NoLeader] | Some _ => [] end)
       ++ (if hr_ready (ns_health local) then [] else [LocalNotReady]).
Proof.
  intros Hn Hp view.
  assert (Hfetched : NoDup ((fun peer : Fetched => peer.1.1) <$> fetched)).
  { rewrite (fmap_Permutation _ _ _ Hp), answers_ids. by apply NoDup_fmap_filter, member_ids_NoDup. }
  assert (Hentry : forall member, member ∈ members ->
    cluster_node app_id app_addr (cluster_initialized metrics) local fetched member = (member_entry member, member_warning member)).
  { intros [[id addr] voter] Hm. unfold cluster_node, member_entry, member_warning. cbn [fst].
    destruct (Z.eqb_spec id app_id) as [->|Hid]; [by destruct (cluster_initialized metrics)|].
    rewrite find_answer; [|done|].
    - destruct (answer id), (cluster_initialized metrics); done.
    - rewrite Hp. unfold answers. apply list_elem_of_fmap. exists (id, addr, voter). split; [done|].
      by apply list_elem_of_filter. }
  assert (Hentries : cluster_node app_id app_addr (cluster_initialized metrics) local fetched <$> members
            = (fun member => (member_entry member, member_warning member)) <$> members).
  { apply list_fmap_ext. intros i member Hi. apply Hentry. by eapply list_elem_of_lookup_2. }
  assert (Hnodes : cl_nodes view = member_entry <$> members).
  { unfold view, cluster. cbn [cl_nodes]. by rewrite Hentries, <- list_fmap_compose. }
  assert (Hids : cn_node_id <$> cl_nodes view = (fun member : Member => member.1.1) <$> members).
  { rewrite Hnodes, <- list_fmap_compose. apply list_fmap_ext. intros i [[id addr] voter] _. unfold compose, member_entry.
    destruct (id =? app_id); [done|]. by destruct (answer id). }
  split; [exact Hnodes|]. split; [|split].
  - rewrite Hids. apply (StronglySorted_fmap (fun member : Member => member.1.1) member_le); [done|].
    apply (StronglySorted_merge_sort member_le).
  - intros Hne. rewrite Hids. by apply members_ids.
  - unfold view, cluster. cbn [cl_warnings]. rewrite Hentries, <- list_fmap_compose.
    by destruct (cluster_initialized metrics), (hr_ready (ns_health local)).
Qed.
End Cluster.

(** ** Actions *)

(** The handlers of one node: the console's state, the actions that wait for openraft, and every action
    recorded so far, newest first. *)
Record Console : Type := mkConsoleRun {
  co_state : ConsoleState;
  co_waiting : list (ConsoleAction * NodeMetrics);
  co_recorded : list ActionRecord;
}.

(** A handler starts, finishes, or is dropped while it waits, when its client goes away: the guard gives
    the lock back and nothing is recorded. *)
Inductive console_step (app_id : Z) : Console -> Console -> Prop :=
| cs_begin action headers metrics st st' waiting recorded :
    begin_action app_id action headers metrics st = Ok st' ->
    console_step app_id (mkConsoleRun st waiting recorded) (mkConsoleRun st' ((action, metrics) :: waiting) recorded)
| cs_finish at_ms action metrics result pre post st st' status response recorded :
    finish_action app_id at_ms action metrics result st = (st', status, response) ->
    console_step app_id (mkConsoleRun st (pre ++ (action, metrics) :: post) recorded)
      (mkConsoleRun st' (pre ++ post)
         (mkActionRecord at_ms action (action_target app_id action) (rsp_accepted response)
            (match result with Ok _ => None | Err message => Some message end) :: recorded))
| cs_drop action metrics pre post st recorded :
    console_step app_id (mkConsoleRun st (pre ++ (action, metrics) :: post) recorded)
      (mkConsoleRun (mkConsole false (cs_recent st)) (pre ++ post) recorded).

Lemma removelast_take {A} (l : list A) n : (length l = S n)%nat -> removelast l = take n l.
Proof.
  revert n. induction l as [|x l IH]; intros n; [done|]. intros [= Hl]. destruct l as [|y l]; [by simplify_eq/=|].
  destruct n as [|n]; [done|]. cbn [take]. rewrite <- (IH n) by done. done.
Qed.

(** Dropping the oldest until the bound holds keeps the newest. *)
Lemma pop_back_over_spec fuel records :
  (length records <= fuel + MAX_RECENT_ACTIONS)%nat -> pop_back_over fuel records = take MAX_RECENT_ACTIONS records.
Proof.
  revert records. induction fuel as [|fuel IH]; intros records Hl; [by rewrite take_ge by lia|].
  cbn [pop_back_over]. case_bool_decide as Hb; [|by rewrite take_ge by lia].
  destruct (length records) as [|n] eqn:E; [lia|]. rewrite (removelast_take _ n) by done.
  rewrite IH by (rewrite length_take; lia). rewrite take_take. f_equal. lia.
Qed.

Lemma record_action_recent action st :
  cs_recent (record_action action st) = take MAX_RECENT_ACTIONS (action :: cs_recent st).
Proof. unfold record_action. cbn [cs_recent]. by rewrite pop_back_over_spec by lia. Qed.

Lemma finish_action_spec app_id at_ms action metrics result st st' status response :
  finish_action app_id at_ms action metrics result st = (st', status, response) ->
  cs_locked st' = false
  /\ cs_recent st' = take MAX_RECENT_ACTIONS
       (mkActionRecord at_ms action (action_target app_id action) (rsp_accepted response)
          (match result with Ok _ => None | Err message => Some message end) :: cs_recent st)
  /\ rsp_accepted response = match result with Ok _ => true | Err _ => false end.
Proof.
  unfold finish_action. set (record := mkActionRecord _ _ _ _ _).
  pose proof (record_action_recent record st) as Hr. revert Hr.
  generalize (record_action record st). intros st1 Hr [= <- _ <-]. by split.
Qed.

(** What holds of the handlers. *)
Record console_ok (c : Console) : Prop := {
  ck_one : (length (co_waiting c) <= 1)%nat;
  ck_lock : cs_locked (co_state c) = negb (bool_decide (length (co_waiting c) = 0%nat));
  ck_recent : cs_recent (co_state c) = take MAX_RECENT_ACTIONS (co_recorded c);
}.

Lemma console_step_ok app_id c c' : console_step app_id c c' -> console_ok c -> console_ok c'.
Proof.
  intros [action headers metrics st st' waiting recorded Hb
         |at_ms action metrics result pre post st st' status response recorded Hf
         |action metrics pre post st recorded] [Ho Hl Hr]; cbn [co_state co_waiting co_recorded] in *.
  - unfold begin_action in Hb. destruct (action_guards _ _ _ _); [done|].
    destruct (cs_locked st); [done|]. injection Hb as <-. case_bool_decide as Hw; [|done].
    split; cbn; [lia|by rewrite bool_decide_eq_false_2|done].
  - rewrite length_app in Ho. cbn in Ho.
    assert (pre = [] /\ post = []) as [-> ->] by (destruct pre, post; simpl in *; (done || lia)).
    apply finish_action_spec in Hf as (Hlock & Hrec & _).
    split; cbn [co_state co_waiting co_recorded]; [simpl; lia|by rewrite Hlock|].
    rewrite Hrec. unfold MAX_RECENT_ACTIONS in *. rewrite !firstn_cons, Hr.
    f_equal. by rewrite take_take.
  - rewrite length_app in Ho. cbn in Ho.
    assert (pre = [] /\ post = []) as [-> ->] by (destruct pre, post; simpl in *; (done || lia)).
    split; cbn; [lia|done|done].
Qed.

(** Console actions run one at a time. In every interleaving of the handlers, with clients that go away
    included, at most one action waits for openraft, the lock is held exactly then, and the history
    shown is the newest fifty recorded actions, newest first. *)
Theorem actions_one_at_a_time app_id c :
  rtc (console_step app_id) (mkConsoleRun ConsoleState_new [] []) c ->
  (length (co_waiting c) <= 1)%nat
  /\ (cs_locked (co_state c) = true <-> co_waiting c <> [])
  /\ cs_recent (co_state c) = take 50 (co_recorded c).
Proof.
  intros Hr. assert (Hok : console_ok c).
  { remember (mkConsoleRun ConsoleState_new [] []) as c0 eqn:E.
    assert (H0 : console_ok c0) by (subst; by split; cbn; [lia|..]). clear E.
    induction Hr as [|c0 c1 c2 Hs _ IH]; [done|]. by apply IH, (console_step_ok app_id c0). }
  destruct Hok as [Ho Hl Hc]. split; [done|]. split; [|done]. rewrite Hl, negb_true_iff, bool_decide_eq_false.
  by rewrite length_zero_iff_nil.
Qed.

(** The checks of a transfer, as conditions. *)
Definition transfer_allowed (app_id target : Z) (metrics : NodeMetrics) : Prop :=
  rm_current_leader metrics = Some app_id /\ target <> app_id /\ target ∈ rm_voters metrics
  /\ forall last matched, rm_last_log_index metrics = Some last -> lookup_replication target metrics = Some matched ->
       last <= matched.

Lemma transfer_guards_pass app_id target headers metrics :
  action_guards app_id (TransferLeader target) headers metrics = None <->
  action_headers_ok headers = true /\ transfer_allowed app_id target metrics.
Proof.
  unfold action_guards, transfer_allowed, target_lag, replication_lag, saturating_sub_u64.
  destruct (action_headers_ok headers); cbn [negb]; [|naive_solver].
  case_bool_decide as Hl; cbn [negb]; [|naive_solver].
  destruct (Z.eqb_spec target app_id); [naive_solver|].
  case_bool_decide as Hv; cbn [negb]; [|naive_solver].
  destruct (rm_last_log_index metrics) as [last|], (lookup_replication target metrics) as [matched|];
    try (split; [|done]; intros _; split_and!; done || (intros ? ? [= <-]; done) || done).
  destruct (Z.ltb_spec 0 (Z.max 0 (last - matched))).
  - split; [done|]. intros (_ & _ & _ & _ & Hle). specialize (Hle last matched eq_refl eq_refl). lia.
  - split; [|done]. intros _. split_and!; try done. intros ? ? [= <-] [= <-]. lia.
Qed.

(** The lag check of a leadership transfer misses the target that lags most. A voter that is a single
    entry behind the leader's log is refused, but a voter that has matched no entry at all passes
    every check, however long the log is, and the transfer is handed to openraft. *)
Theorem unmatched_target_passes app_id target headers metrics last :
  action_headers_ok headers = true ->
  rm_current_leader metrics = Some app_id -> target <> app_id -> target ∈ rm_voters metrics ->
  rm_last_log_index metrics = Some last ->
  (lookup_replication target metrics = None ->
     forall st, cs_locked st = false ->
     begin_action app_id (TransferLeader target) headers metrics st = Ok (mkConsole true (cs_recent st)))
  /\ (forall matched, lookup_replication target metrics = Some matched -> matched < last ->
     action_guards app_id (TransferLeader target) headers metrics = Some (TargetLags target (last - matched))).
Proof.
  intros Hh Hl Ht Hv Hlast. split.
  - intros Hm st Hlock. unfold begin_action.
    rewrite (proj2 (transfer_guards_pass app_id target headers metrics)), Hlock; [done|].
    split; [done|]. split_and!; try done. intros ? ? _. by rewrite Hm.
  - intros matched Hm Hlt. unfold action_guards, target_lag, replication_lag, saturating_sub_u64.
    rewrite Hh, Hm, Hlast, (bool_decide_eq_true_2 _ Hl), (bool_decide_eq_true_2 _ Hv). cbn [negb].
    rewrite (proj2 (Z.eqb_neq _ _)) by done. destruct (Z.ltb_spec 0 (Z.max 0 (last - matched))); [|lia].
    by rewrite Z.max_r by lia.
Qed.

(** ** Origins *)

Lemma split_scheme scheme authority :
  CH_COLON ∉ scheme -> split_once_str SCHEME_END (scheme ++ SCHEME_END ++ authority) = Some (scheme, authority).
Proof.
  induction scheme as [|x scheme IH]; intros Hc.
  - destruct authority; reflexivity.
  - apply not_elem_of_cons in Hc as [Hx Hs]. cbn [split_once_str app].
    assert (E : starts_with SCHEME_END (x :: scheme ++ SCHEME_END ++ authority) = false).
    { unfold starts_with. apply bool_decide_eq_false_2. intros E. apply Hx. by injection E. }
    rewrite E, IH by done. done.
Qed.

(** A browser's request for an action is let in exactly when it carries the console's header and comes from
    a page of the same host: the authority of its origin is the host it was sent to, whatever the
    scheme. A request without an origin only needs the header. *)
Theorem same_origin_only (scheme authority host : str) :
  CH_COLON ∉ scheme -> CH_SLASH ∉ authority ->
  (forall tagged,
     action_headers_ok (mkHeaders tagged (Some (Some (scheme ++ SCHEME_END ++ authority))) host) = true <->
     tagged = true /\ authority = host)
  /\ (forall tagged, action_headers_ok (mkHeaders tagged None host) = tagged).
Proof.
  intros Hc Hs.
  assert (E : origin_host (scheme ++ SCHEME_END ++ authority) = authority).
  { unfold origin_host. by rewrite split_scheme, split_once_none. }
  split; intros [|]; [| |done|done].
  - change (bool_decide (origin_host (scheme ++ SCHEME_END ++ authority) = host) = true <-> true = true /\ authority = host).
    rewrite E, bool_decide_eq_true. tauto.
  - split; [done|]. by intros [? _].
Qed.

(** ** Level counts *)

Lemma count_from (n : nat) (previous : option Fixed) prices :
  foldl (fun (st : nat * option Fixed) price =>
           if bool_decide (st.2 = Some price) then st else (S st.1, Some price)) (n, previous) prices =
  (n + (foldl (fun (st : nat * option Fixed) price =>
           if bool_decide (st.2 = Some price) then st else (S st.1, Some price)) (0%nat, previous) prices).1,
   (foldl (fun (st : nat * option Fixed) price =>
           if bool_decide (st.2 = Some price) then st else (S st.1, Some price)) (0%nat, previous) prices).2)%nat.
Proof.
  revert n previous. induction prices as [|p prices IH]; intros n previous; cbn [foldl fst snd]; [by rewrite Nat.add_0_r|].
  case_bool_decide; [apply IH|]. rewrite IH, (IH 1%nat). cbn [fst snd]. f_equal. lia.
Qed.

Lemma count_groups orders : count_price_levels (o_price <$> orders) = length (groups orders).
Proof.
  unfold count_price_levels.
  assert (H : forall previous, (foldl (fun (st : nat * option Fixed) price =>
      if bool_decide (st.2 = Some price) then st else (S st.1, Some price)) (0%nat, previous) (o_price <$> orders)).1 =
    match groups orders, previous with
    | (p, _) :: gs, Some q => if p =? q then length gs else S (length gs)
    | gs, _ => length gs
    end); [|by rewrite H; destruct (groups orders) as [|[? ?] ?]].
  induction orders as [|o orders IH]; intros previous; [by destruct previous|].
  cbn [fmap list_fmap foldl fst snd]. case_bool_decide as Hp.
  - subst previous. rewrite IH. simpl groups. destruct (groups orders) as [|[p g] gs]; [by rewrite Z.eqb_refl|].
    destruct (Z.eqb_spec p (o_price o)) as [->|]; by rewrite Z.eqb_refl.
  - rewrite count_from. cbn [fst]. rewrite IH. simpl groups. destruct (groups orders) as [|[p g] gs]; cbn [length].
    + destruct previous as [q|]; [|done]. destruct (Z.eqb_spec (o_price o) q); [by subst|done].
    + destruct (Z.eqb_spec p (o_price o)) as [->|Hne]; (destruct previous as [q|];
        [destruct (Z.eqb_spec (o_price o) q); [by subst|done]|done]).
Qed.

Lemma key_prices {K} `{BookKeyLaws K} (m : list (K * Order)) :
  Forall maker_ok m -> (fun key => key_price key) <$> m.*1 = o_price <$> bt_values m.
Proof.
  intros Hm. unfold bt_values. rewrite <- !list_fmap_compose. apply list_fmap_ext. intros i [k o] Hi.
  rewrite Forall_forall in Hm. apply list_elem_of_lookup_2, Hm in Hi. pose proof (mk_key _ Hi) as E. cbn in *.
  by rewrite E, key_price_of.
Qed.

Lemma side_levels {K} `{BookKeyLaws K} (m : list (K * Order)) :
  side_ok m -> count_price_levels ((fun key => key_price key) <$> m.*1) = length (distinct_prices (bt_values m)).
Proof.
  intros Hok. rewrite key_prices by apply Hok. rewrite count_groups.
  by rewrite (groups_reference (key_side K)), length_fmap by (by apply side_worsening).
Qed.

(** The level counts of the order-book summary, taken from the keys alone, are the numbers of levels the
    depth of a side has: every depth with at least as many levels to show has exactly that many. *)
Theorem summary_counts_levels (b : OrderBook) (levels : Z) :
  book_ok b ->
  (Z.of_nat (os_bid_levels (orderbook_snapshot b)) <= levels ->
     length (depth Buy levels b) = os_bid_levels (orderbook_snapshot b))
  /\ (Z.of_nat (os_ask_levels (orderbook_snapshot b)) <= levels ->
     length (depth Sell levels b) = os_ask_levels (orderbook_snapshot b)).
Proof.
  intros Hok. unfold orderbook_snapshot. cbn [os_bid_levels os_ask_levels].
  assert (Hb : count_price_levels ((fun key => bid_price key) <$> (bids b).*1) = length (distinct_prices (bt_values (bids b))))
    by exact (side_levels (bids b) (bk_bids _ _ Hok)).
  assert (Ha : count_price_levels ((fun key => ask_price key) <$> (asks b).*1) = length (distinct_prices (bt_values (asks b))))
    by exact (side_levels (asks b) (bk_asks _ _ Hok)).
  rewrite Hb, Ha.
  split; intros Hl; rewrite (depth_reference _ _ _ _ Hok) by lia; rewrite length_fmap, length_take; simpl; lia.
Qed.

(** ** Membership *)

Definition add_node (nodes : list (Z * str)) (entry : Z * str) : list (Z * str) :=
  let '(id, addr) := entry in bt_insert id addr nodes.

Lemma added_nodes request :
  bt_sorted (foldl add_node [] request)
  /\ forall id, bt_get id (foldl add_node [] request) = snd <$> List.find (fun entry => entry.1 =? id) (reverse request).
Proof.
  induction request as [|[id0 addr0] request [IHs IHg]] using rev_ind; [by split; [apply bt_sorted_nil|]|].
  rewrite foldl_snoc, reverse_snoc. cbn [add_node]. split; [by apply bt_insert_sorted|].
  intros id. cbn [List.find fst]. destruct (Z.eqb_spec id0 id) as [->|Hne]; [apply bt_insert_get|].
  by rewrite bt_insert_get_ne.
Qed.

(** A cluster is started with this node alone for an empty request, and else with exactly the ids the
    request names, each once, under the address its last entry gives; and never with fewer voters than
    the node requires. *)
Theorem init_admits (min_voters app_id : Z) (app_addr : str) request nodes :
  init min_voters app_id app_addr request = Ok nodes ->
  min_voters <= Z.of_nat (length nodes) /\ bt_sorted nodes
  /\ forall id, bt_get id nodes =
       if bool_decide (request = []) then (if id =? app_id then Some app_addr else None)
       else snd <$> List.find (fun entry => entry.1 =? id) (reverse request).
Proof.
  unfold init, require_voters. destruct (Z.ltb_spec (Z.of_nat (length (init_nodes app_id app_addr request))) min_voters) as [|Hle]; [done|].
  intros [= <-]. split; [done|]. unfold init_nodes in *. destruct request as [|entry request].
  - split; [by repeat constructor|]. intros id. cbn. unfold cmp, Z_cmp.
    destruct (Z.eqb_spec id app_id) as [->|Hne]; [by rewrite Z.compare_refl|].
    destruct (Z.compare_spec id app_id); done.
  - rewrite bool_decide_eq_false_2 by done. exact (added_nodes (entry :: request)).
Qed.

(** A membership change that would leave too few voters is refused, and every other is handed on. *)
Lemma change_membership_spec min_voters (request : gset Z) :
  change_membership min_voters request = Ok request <-> min_voters <= Z.of_nat (size request).
Proof.
  unfold change_membership, require_voters.
  destruct (Z.ltb_spec (Z.of_nat (size request)) min_voters); split; done || lia.
Qed.

(** ** Concrete runs *)

Module ConsoleRuns.
Definition metrics : NodeMetrics :=
  mkMetrics true (Some 1) 4 (Some 20) (Some 20) (Some 10) None None None [1; 2; 3]
    [(1, lit "a"); (2, lit "b"); (3, lit "c")] (Some [(2, Some 19); (3, None)]).
Definition node : NodeHealth := mkNodeHealth 1 true true true (Some (Some 20, None)) (Some (Some 20)).
Definition summary : OrderbookSnapshot := mkOrderbookSnapshot 1 None None 0 0 0.
Definition local : NodeSnapshot :=
  mkNodeSnapshot (collect_health node metrics) 0
    (mkRaftSnapshot None None None None None None [] [] []) (mkEventsStatus None None 0 0 0 0 0) None summary.
Definition latency (id : Z) : Z := id.
Definition answer (id : Z) : Result NodeSnapshot str := if id =? 2 then Ok local else Err (lit "refused").
Definition headers : ActionHeaders := mkHeaders true None (lit "a").

Lemma distinct_nodes : NoDup ((rm_nodes metrics).*1).
Proof. apply (bool_decide_unpack _). vm_compute. exact I. Qed.
End ConsoleRuns.

(** The peers answer last to first. *)
Lemma cluster_view_order_free_witness :
  cl_nodes (cluster 1 (lit "a") ConsoleRuns.metrics ConsoleRuns.local
      [(3, 3, Err (lit "refused")); (2, 2, Ok ConsoleRuns.local)])
    = member_entry 1 (lit "a") ConsoleRuns.metrics ConsoleRuns.local ConsoleRuns.latency ConsoleRuns.answer
        <$> cluster_members 1 (lit "a") ConsoleRuns.metrics
  /\ cl_warnings (cluster 1 (lit "a") ConsoleRuns.metrics ConsoleRuns.local
      [(3, 3, Err (lit "refused")); (2, 2, Ok ConsoleRuns.local)]) = [NodeWarning 3 (lit "refused")].
Proof.
  destruct (cluster_view_order_free 1 (lit "a") ConsoleRuns.metrics ConsoleRuns.local ConsoleRuns.latency ConsoleRuns.answer
    [(3, 3, Err (lit "refused")); (2, 2, Ok ConsoleRuns.local)] ConsoleRuns.distinct_nodes) as (H & _ & _ & Hw).
  - change (answers 1 (lit "a") ConsoleRuns.metrics ConsoleRuns.latency ConsoleRuns.answer)
      with [(2, 2, Ok ConsoleRuns.local); (3, 3, Err (E := str) (lit "refused"))].
    apply Permutation_swap.
  - split; [exact H|]. rewrite Hw. vm_compute. reflexivity.
Defined.

(** A snapshot is requested, its client goes away, and an election is requested. *)
Lemma actions_one_at_a_time_witness :
  exists c, rtc (console_step 1) (mkConsoleRun ConsoleState_new [] []) c
    /\ co_waiting c = [(Elect, ConsoleRuns.metrics)] /\ (length (co_waiting c) <= 1)%nat /\ cs_locked (co_state c) = true.
Proof.
  assert (Hrun : rtc (console_step 1) (mkConsoleRun ConsoleState_new [] [])
            (mkConsoleRun (mkConsole true []) [(Elect, ConsoleRuns.metrics)] [])).
  { eapply rtc_l; [apply (cs_begin 1 TakeSnapshot ConsoleRuns.headers ConsoleRuns.metrics); reflexivity|].
    eapply rtc_l; [apply (cs_drop 1 TakeSnapshot ConsoleRuns.metrics [] [])|].
    apply rtc_once. apply (cs_begin 1 Elect ConsoleRuns.headers ConsoleRuns.metrics). vm_compute. reflexivity. }
  exists (mkConsoleRun (mkConsole true []) [(Elect, ConsoleRuns.metrics)] []). split; [exact Hrun|].
  split; [reflexivity|]. destruct (actions_one_at_a_time 1 _ Hrun) as (H1 & H2 & _). split; [exact H1|].
  apply H2. discriminate.
Defined.

(** Node 2 is one entry behind and refused; node 3 has no entry and is handed on. *)
Lemma unmatched_target_passes_witness :
  begin_action 1 (TransferLeader 3) ConsoleRuns.headers ConsoleRuns.metrics ConsoleState_new = Ok (mkConsole true [])
  /\ action_guards 1 (TransferLeader 2) ConsoleRuns.headers ConsoleRuns.metrics = Some (TargetLags 2 1).
Proof.
  split.
  - refine (proj1 (unmatched_target_passes 1 3 ConsoleRuns.headers ConsoleRuns.metrics 20 eq_refl eq_refl _ _ eq_refl)
      eq_refl ConsoleState_new eq_refl); [discriminate|].
    apply (bool_decide_unpack _). vm_compute. exact I.
  - refine (proj2 (unmatched_target_passes 1 2 ConsoleRuns.headers ConsoleRuns.metrics 20 eq_refl eq_refl _ _ eq_refl) 19 eq_refl _);
      [discriminate| |lia].
    apply (bool_decide_unpack _). vm_compute. exact I.
Defined.

Lemma same_origin_only_witness :
  action_headers_ok (mkHeaders true (Some (Some (lit "http" ++ SCHEME_END ++ lit "evil"))) (lit "node")) = false
  /\ action_headers_ok (mkHeaders true (Some (Some (lit "http" ++ SCHEME_END ++ lit "node"))) (lit "node")) = true.
Proof.
  assert (Hc : CH_COLON ∉ lit "http") by (apply (bool_decide_unpack _); vm_compute; exact I).
  split.
  - apply not_true_iff_false. rewrite (proj1 (same_origin_only (lit "http") (lit "evil") (lit "node") Hc
      ltac:(apply (bool_decide_unpack _); vm_compute; exact I)) true). intros [_ E]. discriminate E.
  - apply (proj1 (same_origin_only (lit "http") (lit "node") (lit "node") Hc
      ltac:(apply (bool_decide_unpack _); vm_compute; exact I)) true). by split.
Defined.

Lemma summary_counts_levels_witness :
  os_ask_levels (orderbook_snapshot Demo.book) = 2%nat /\ length (depth Sell 10 Demo.book) = 2%nat.
Proof.
  split; [vm_compute; reflexivity|].
  apply (proj2 (summary_counts_levels Demo.book 10 (proj1 Demo.book_is_ok))). vm_compute. discriminate.
Defined.

Lemma init_admits_witness :
  3 <= 3 /\ bt_get 2 [(1, lit "a"); (2, lit "z"); (3, lit "c")] = Some (lit "z").
Proof.
  destruct (init_admits 3 1 (lit "a") [(3, lit "c"); (2, lit "b"); (1, lit "a"); (2, lit "z")]
    [(1, lit "a"); (2, lit "z"); (3, lit "c")] eq_refl) as (H1 & _ & H2).
  split; [exact H1|exact (H2 2)].
Defined.
