(* ===== verification/MdServer.v ===== *)
(** * The market-data service's server ([src/demos/market_data_system/src/server.rs], [main.rs])

    How the service reads its symbols and pairs them with sources, starts one feed per symbol, splits
    the streams of a combined connection, reports readiness, and counts its connections. Actix, the
    media driver and the static pages are not modelled. *)

From stdpp Require Import list gmap strings.
From S2P Require Import Prelude Fixed MatchEvent Api MdProtocol MdFeed.

Definition CH_SLASH : Z := 47.

(** [str::split] with a one-character pattern. *)
Fixpoint split_all (c : Z) (s : str) : list str :=
  match s with
  | [] => [[]]
  | x :: s =>
      if x =? c then [] :: split_all c s
      else match split_all c s with p :: ps => (x :: p) :: ps | [] => [[x]] end
  end.

(** ** Symbols and sources *)

Inductive SetupError : Type :=
| SymbolFormat (raw : str)
| SymbolNameEmpty
| SymbolIdInvalid (raw : str)
| NoSymbols
| DuplicateSymbol (symbol : str)
| LogsMismatch
| NoSources
| NoSourceFor (symbol : str).

Definition parse_symbol (raw : str) : Result SymbolSpec SetupError :=
  match split_all CH_COLON raw with
  | [name; id; base; quote] =>
      let symbol := to_ascii_lower (trim name) in
      if bool_decide (symbol = []) then Err SymbolNameEmpty
      else match parse_unsigned U32_MAX id with
           | None => Err (SymbolIdInvalid raw)
           | Some symbol_id => Ok (mkSymbolSpec symbol symbol_id base quote)
           end
  | _ => Err (SymbolFormat raw)
  end.

(** The loop over [--symbol], with the set of names seen. *)
Fixpoint read_symbols_loop (raws : list str) (seen : gset str) : Result (list SymbolSpec) SetupError :=
  match raws with
  | [] => Ok []
  | raw :: raws =>
      match parse_symbol raw with
      | Err e => Err e
      | Ok spec =>
          if bool_decide (sp_symbol spec ∈ seen) then Err (DuplicateSymbol (sp_symbol spec))
          else match read_symbols_loop raws ({[sp_symbol spec]} ∪ seen) with
               | Err e => Err e
               | Ok specs => Ok (spec :: specs)
               end
      end
  end.

Definition read_symbols (raws : list str) : Result (list SymbolSpec) SetupError :=
  match raws with [] => Err NoSymbols | _ => read_symbols_loop raws ∅ end.

(** A source before it is opened: a JSON lines file, or an Aeron channel with its driver
    directory (the stream base and the embedded driver are one option for all). *)
Inductive SourceSpec : Type := JsonlSpec (path : str) | AeronSpec (channel : str) (dir : option str).

(** [get(index).or_else(first)]. *)
Definition nth_or_first (values : list str) (index : nat) : option str :=
  match values !! index with Some v => Some v | None => head values end.

Definition pair_sources (logs channels dirs : list str) (symbols : list SymbolSpec)
    : Result (list (SymbolSpec * SourceSpec)) SetupError :=
  match logs, channels with
  | _ :: _, _ =>
      if bool_decide (length logs = length symbols) then Ok (zip symbols (JsonlSpec <$> logs))
      else Err LogsMismatch
  | [], channel :: _ =>
      Ok (imap (fun index spec =>
                  (spec, AeronSpec (default channel (nth_or_first channels index)) (nth_or_first dirs index)))
            symbols)
  | [], [] => Err NoSources
  end.

(** ** Starting *)

(** The feeds started, in order, and the symbols the sessions look up, each with the number of its feed. *)
Record Started : Type := mkStarted {
  sd_feeds : list SymbolSpec;
  sd_symbols : gmap str (SymbolSpec * nat);
}.

Section Start.
(** [str::to_lowercase]. *)
Variable to_lowercase : str -> str.

Definition start_feed (index : nat) (spec : SymbolSpec) (symbols : gmap str (SymbolSpec * nat))
    : gmap str (SymbolSpec * nat) :=
  <[to_lowercase (sp_symbol spec) := (spec, index)]> symbols.

Fixpoint start_feeds (index : nat) (specs : list SymbolSpec) (symbols : gmap str (SymbolSpec * nat))
    : gmap str (SymbolSpec * nat) :=
  match specs with
  | [] => symbols
  | spec :: specs => start_feeds (S index) specs (start_feed index spec symbols)
  end.

Definition start {Source : Type} (config : list SymbolSpec) (sources : list (SymbolSpec * Source))
    : Result Started SetupError :=
  let provided := (fun source => sp_symbol source.1) <$> sources in
  match List.find (fun spec => negb (bool_decide (sp_symbol spec ∈ provided))) config with
  | Some spec => Err (NoSourceFor (sp_symbol spec))
  | None => Ok (mkStarted sources.*1 (start_feeds 0 sources.*1 ∅))
  end.
End Start.

(** ** Requests *)

Record SymbolReady : Type := mkSymbolReady { sr_ready : bool; sr_snapshot_seen : bool; sr_depth_stale : bool }.

(** [/ready]: the status, and an entry for every symbol. *)
Definition ready (states : list (str * SharedState)) : bool * list (str * SymbolReady) :=
  (forallb (fun state => shared_ready state.2) states,
   (fun state => (state.1, mkSymbolReady (shared_ready state.2) (ss_snapshot_seen state.2)
                             (ss_depth_stale state.2))) <$> states).

(** [/stream?streams=...]: the streams of a combined connection; [None] is a bad request. *)
Definition ws_combined (streams : str) : option (list str) :=
  match filter (fun stream => stream <> []) (split_all CH_SLASH streams) with
  | [] => None
  | streams => Some streams
  end.

(** ** Connections *)

(** The counter, the sessions that hold a guard, and the workers between [connect]'s check of the
    counter and its increment: a worker runs [connect] without yielding, so it is there at most once. *)
Record Gate : Type := mkGate {
  gt_connections : Z;
  gt_sessions : nat;
  gt_checked : list nat;
}.

Definition Gate_new : Gate := mkGate 0 0 [].

Inductive GateEvent : Type :=
| GateCheck (worker : nat)
| GateOpen (worker : nat)        (* the handshake, the increment and the session's guard *)
| GateRefused (worker : nat)     (* a request that is no WebSocket handshake *)
| GateClose.                     (* a session ends: its guard decrements *)

(** What a check answers, and one event; [None] where it cannot happen. *)
Definition gate_full (max_connections : Z) (g : Gate) : bool := max_connections <=? gt_connections g.

Definition gate_step (max_connections : Z) (workers : nat) (e : GateEvent) (g : Gate) : option Gate :=
  match e with
  | GateCheck w =>
      if bool_decide (w < workers)%nat && negb (bool_decide (w ∈ gt_checked g)) then
        Some (if gate_full max_connections g then g
              else mkGate (gt_connections g) (gt_sessions g) (w :: gt_checked g))
      else None
  | GateOpen w =>
      if bool_decide (w ∈ gt_checked g) then
        Some (mkGate (wrap_u64 (gt_connections g + 1)) (S (gt_sessions g)) (filter (fun w' => w' <> w) (gt_checked g)))
      else None
  | GateRefused w =>
      if bool_decide (w ∈ gt_checked g) then
        Some (mkGate (gt_connections g) (gt_sessions g) (filter (fun w' => w' <> w) (gt_checked g)))
      else None
  | GateClose =>
      match gt_sessions g with
      | O => None
      | S sessions => Some (mkGate (wrap_u64 (gt_connections g - 1)) sessions (gt_checked g))
      end
  end.

Fixpoint gate_run (max_connections : Z) (workers : nat) (es : list GateEvent) (g : Gate) : option Gate :=
  match es with
  | [] => Some g
  | e :: es => match gate_step max_connections workers e g with
               | Some g => gate_run max_connections workers es g
               | None => None
               end
  end.

(** ** Theorems: symbols *)

(** Names as they come out of [parse_symbol]. *)
Lemma parse_symbol_name raw spec : parse_symbol raw = Ok spec -> sp_symbol spec <> [].
Proof.
  unfold parse_symbol. destruct (split_all _ _) as [|name [|id [|base [|quote [|? ?]]]]]; try done.
  case_bool_decide; [done|]. destruct (parse_unsigned _ _); [|done]. by intros [= <-].
Qed.

Lemma read_symbols_loop_ok raws : forall seen specs,
  read_symbols_loop raws seen = Ok specs ->
  Forall2 (fun raw spec => parse_symbol raw = Ok spec) raws specs /\ NoDup (sp_symbol <$> specs) /\
  Forall (fun spec => sp_symbol spec ∉ seen) specs.
Proof.
  induction raws as [|raw raws IH]; intros seen specs; cbn [read_symbols_loop].
  { intros [= <-]. repeat constructor. }
  destruct (parse_symbol raw) as [spec|e] eqn:Ep; [|done]. case_bool_decide as Hs; [done|].
  destruct (read_symbols_loop raws _) as [rest|e] eqn:Er; [|done]. intros [= <-].
  destruct (IH _ _ Er) as (Hf & Hnd & Hnew). split; [by constructor|]. rewrite fmap_cons. split.
  - constructor; [|done]. intros (s' & E & Hin)%list_elem_of_fmap. rewrite Forall_forall in Hnew.
    apply (Hnew s' Hin). set_solver.
  - constructor; [done|]. eapply Forall_impl; [exact Hnew|]. set_solver.
Qed.

(** The symbols the service is started with are those of its arguments, in order, with names that are
    not empty and all different. *)
Theorem read_symbols_distinct raws specs :
  read_symbols raws = Ok specs ->
  specs <> [] /\ Forall2 (fun raw spec => parse_symbol raw = Ok spec) raws specs /\
  NoDup (sp_symbol <$> specs) /\ Forall (fun spec => sp_symbol spec <> []) specs.
Proof.
  unfold read_symbols. destruct raws as [|raw raws]; [done|]. intros E.
  destruct (read_symbols_loop_ok _ _ _ E) as (Hf & Hnd & _). split; [by destruct specs; [apply Forall2_cons_nil_inv in Hf|]|].
  split; [done|]. split; [done|]. clear E Hnd. induction Hf; constructor; [by eapply parse_symbol_name|done].
Qed.

Section StartTheory.
Context (to_lowercase : str -> str).
Notation start_feeds := (start_feeds to_lowercase).

Lemma start_feeds_other specs : forall index symbols name,
  name ∉ ((fun spec => to_lowercase (sp_symbol spec)) <$> specs) -> start_feeds index specs symbols !! name = symbols !! name.
Proof.
  induction specs as [|spec specs IH]; intros index symbols name Hn; [done|]. rewrite fmap_cons, not_elem_of_cons in Hn.
  destruct Hn as [Hne Hn]. cbn [MdServer.start_feeds]. rewrite IH by done. unfold start_feed.
  by rewrite lookup_insert_ne.
Qed.

Lemma start_feeds_lookup specs : forall index symbols i spec,
  NoDup ((fun spec => to_lowercase (sp_symbol spec)) <$> specs) -> specs !! i = Some spec ->
  start_feeds index specs symbols !! to_lowercase (sp_symbol spec) = Some (spec, (index + i)%nat).
Proof.
  induction specs as [|s specs IH]; intros index symbols i spec Hnd Hi; [done|]. rewrite fmap_cons in Hnd.
  apply NoDup_cons in Hnd as [Hs Hnd]. destruct i as [|i]; cbn [MdServer.start_feeds].
  - injection Hi as ->. rewrite start_feeds_other by done. unfold start_feed. by rewrite lookup_insert_eq, Nat.add_0_r.
  - rewrite (IH _ _ i spec Hnd Hi). do 2 f_equal. lia.
Qed.

(** Every symbol with a source is served by its own feed, provided no two names agree when lowered;
    the service refuses to start exactly when a configured symbol has no source. *)
Theorem start_serves_every_symbol {Source : Type} config (sources : list (SymbolSpec * Source)) :
  match start to_lowercase config sources with
  | Err (NoSourceFor name) =>
      exists spec, spec ∈ config /\ sp_symbol spec = name /\ name ∉ ((fun source => sp_symbol source.1) <$> sources)
  | Err _ => False
  | Ok started =>
      Forall (fun spec => sp_symbol spec ∈ ((fun source => sp_symbol source.1) <$> sources)) config /\
      (NoDup ((fun source => to_lowercase (sp_symbol source.1)) <$> sources) ->
       forall i spec source, sources !! i = Some (spec, source) ->
         sd_symbols started !! to_lowercase (sp_symbol spec) = Some (spec, i) /\ sd_feeds started !! i = Some spec)
  end.
Proof.
  unfold start. destruct (List.find _ config) as [spec|] eqn:Ef.
  - apply find_some in Ef as [Hin Hn]. exists spec. apply list_elem_of_In in Hin. split; [done|]. split; [done|].
    apply negb_true_iff, bool_decide_eq_false in Hn. exact Hn.
  - split.
    + apply Forall_forall. intros spec Hin. apply list_elem_of_In in Hin. eapply find_none in Ef; [|exact Hin].
      apply negb_false_iff, bool_decide_eq_true in Ef. exact Ef.
    + intros Hnd i spec source Hi. cbn [sd_symbols sd_feeds].
      assert (Hi' : sources.*1 !! i = Some spec) by (by rewrite list_lookup_fmap, Hi).
      split; [|done]. rewrite <- (Nat.add_0_l i). apply start_feeds_lookup; [|done].
      by rewrite <- list_fmap_compose.
Qed.
End StartTheory.

(** ** Theorems: requests *)

Lemma split_all_app c a b : c ∉ a -> split_all c (a ++ c :: b) = a :: split_all c b.
Proof.
  induction a as [|x a IH]; intros Hc; cbn [app split_all].
  - by rewrite Z.eqb_refl.
  - apply not_elem_of_cons in Hc as [Hx Hc]. rewrite (proj2 (Z.eqb_neq x c)) by congruence. by rewrite IH.
Qed.

Lemma split_all_one c a : c ∉ a -> split_all c a = [a].
Proof.
  induction a as [|x a IH]; intros Hc; [done|]. apply not_elem_of_cons in Hc as [Hx Hc]. cbn [split_all].
  rewrite (proj2 (Z.eqb_neq x c)) by congruence. by rewrite IH.
Qed.

(** Streams joined by slashes. *)
Fixpoint join_streams (streams : list str) : str :=
  match streams with
  | [] => []
  | [stream] => stream
  | stream :: streams => stream ++ CH_SLASH :: join_streams streams
  end.

(** A combined connection subscribes to exactly the streams its query joins, in order. *)
Theorem combined_streams_roundtrip streams :
  streams <> [] -> Forall (fun stream => stream <> [] /\ CH_SLASH ∉ stream) streams ->
  ws_combined (join_streams streams) = Some streams.
Proof.
  intros Hne Hs. unfold ws_combined.
  assert (E : split_all CH_SLASH (join_streams streams) = streams).
  { induction Hs as [|s rest [_ Hc] Hrest IH]; [done|]. destruct rest as [|s' rest]; [by apply split_all_one|].
    change (join_streams (s :: s' :: rest)) with (s ++ CH_SLASH :: join_streams (s' :: rest)).
    rewrite split_all_app by done. f_equal. by apply IH. }
  rewrite E, list_filter_all; [by destruct streams|]. intros s Hin. rewrite Forall_forall in Hs. by apply Hs.
Qed.

(** ** Theorems: connections *)

Definition gate_ok (max_connections : Z) (workers : nat) (g : Gate) : Prop :=
  gt_connections g = Z.of_nat (gt_sessions g) /\ NoDup (gt_checked g) /\
  Forall (fun w => w < workers)%nat (gt_checked g) /\
  (Z.of_nat (gt_sessions g + length (gt_checked g)) <= Z.max 0 (max_connections + Z.of_nat workers - 1)).

Lemma checked_bound workers l : NoDup l -> Forall (fun w => w < workers)%nat l -> (length l <= workers)%nat.
Proof.
  intros Hnd Hf. rewrite <- (length_seq workers 0). apply submseteq_length, NoDup_submseteq; [done|].
  intros w Hw. rewrite Forall_forall in Hf. apply elem_of_seq. specialize (Hf w Hw). lia.
Qed.

Lemma remove_worker w (l : list nat) :
  NoDup l -> w ∈ l -> length (filter (fun w' => w' <> w) l) = pred (length l).
Proof.
  induction 1 as [|x l Hx Hnd IH]; intros Hw; [by apply not_elem_of_nil in Hw|]. rewrite filter_cons. case_decide as Hd.
  - apply elem_of_cons in Hw as [?|Hw]; [congruence|]. cbn [length]. rewrite IH by done.
    destruct l; [by apply not_elem_of_nil in Hw|done].
  - assert (x = w) as -> by (destruct (decide (x = w)); [done|by destruct Hd]). cbn. f_equal.
    apply list_filter_all. by intros y Hy ->.
Qed.

Lemma gate_step_ok m workers e g g' :
  0 <= m -> m + Z.of_nat workers <= U64_MAX -> gate_ok m workers g -> gate_step m workers e g = Some g' ->
  gate_ok m workers g'.
Proof.
  intros Hm Hmax (Hc & Hnd & Hf & Hb). pose proof (checked_bound workers _ Hnd Hf) as Hl.
  assert (Hfil : forall w, NoDup (filter (fun w' => w' <> w) (gt_checked g)) /\
            Forall (fun w' => w' < workers)%nat (filter (fun w' => w' <> w) (gt_checked g))).
  { intros w. split; [by apply NoDup_filter|]. by apply filter_Forall. }
  destruct e as [w|w|w|]; cbn [gate_step].
  - case_bool_decide as Hw; [|done]. case_bool_decide as Hin; [done|]. cbn. unfold gate_full.
    destruct (Z.leb_spec m (gt_connections g)) as [?|Hlt]; intros [= <-]; [done|].
    split; [done|]. split; [by constructor|]. split; [by constructor|]. cbn.
    pose proof (checked_bound workers (w :: gt_checked g) ltac:(by constructor) ltac:(by constructor)) as Hl'.
    cbn in Hl'. lia.
  - case_bool_decide as Hw; [|done]. intros [= <-]. destruct (Hfil w). split; [|split; [done|split; [done|]]]; cbn.
    + unfold wrap_u64. rewrite Z.mod_small; [lia|]. unfold U64_MAX in Hmax. pose proof (remove_worker w _ Hnd Hw).
      destruct (gt_checked g); [by apply not_elem_of_nil in Hw|cbn in *; lia].
    + rewrite (remove_worker w _ Hnd Hw). destruct (gt_checked g); [by apply not_elem_of_nil in Hw|cbn in *; lia].
  - case_bool_decide as Hw; [|done]. intros [= <-]. destruct (Hfil w). split; [done|split; [done|split; [done|]]]; cbn.
    rewrite (remove_worker w _ Hnd Hw). lia.
  - destruct (gt_sessions g) as [|n] eqn:En; [done|]. intros [= <-]. split; [|split; [done|split; [done|]]]; cbn.
    + unfold wrap_u64. rewrite Z.mod_small; [lia|]. unfold U64_MAX in Hmax. lia.
    + lia.
Qed.

(** The counter is the number of sessions, and sessions are bounded: with [workers] threads at most
    [workers - 1] more than the limit. *)
Theorem connections_bounded m workers es g :
  0 <= m -> m + Z.of_nat workers <= U64_MAX -> gate_run m workers es Gate_new = Some g ->
  gt_connections g = Z.of_nat (gt_sessions g) /\
  Z.of_nat (gt_sessions g) <= Z.max 0 (m + Z.of_nat workers - 1).
Proof.
  intros Hm Hmax E. assert (Hrun : forall g0, gate_ok m workers g0 -> gate_run m workers es g0 = Some g -> gate_ok m workers g).
  { clear E. induction es as [|e es IH]; intros g0 Hok; cbn; [by intros [= <-]|].
    destruct (gate_step m workers e g0) as [g1|] eqn:Es; [|done]. apply IH. by eapply gate_step_ok. }
  destruct (Hrun Gate_new) as (Hc & _ & _ & Hb); [|done|split; [done|lia]].
  split; [done|]. split; [constructor|]. split; [constructor|]. cbn. lia.
Qed.

Lemma connections_bounded_witness :
  exists g, gate_run 1 2 [GateCheck 0; GateOpen 0; GateCheck 1; GateClose; GateCheck 1; GateOpen 1] Gate_new = Some g /\
    gt_connections g = Z.of_nat (gt_sessions g) /\ Z.of_nat (gt_sessions g) <= Z.max 0 (1 + Z.of_nat 2 - 1).
Proof.
  exists (mkGate 1 1 []). split; [reflexivity|].
  apply (connections_bounded 1 2 [GateCheck 0; GateOpen 0; GateCheck 1; GateClose; GateCheck 1; GateOpen 1]); done.
Defined.

(** The limit is not kept: two workers that check before either has counted both get in. *)
Theorem connection_limit_exceeded :
  exists es g, gate_run 1 2 es Gate_new = Some g /\ gt_sessions g = 2%nat.
Proof. exists [GateCheck 0; GateCheck 1; GateOpen 0; GateOpen 1]. eexists. split; reflexivity. Qed.
