(* ===== verification/NodeConfig.v ===== *)
(** * A node's configuration ([src/src/store/config.rs], [src/src/main.rs], [src/src/lib.rs])

    Where a node keeps its state, what the environment and the command line make of its settings, and
    how the node hands them to its parts. An environment variable is its text (clap's parsing of the
    command line is not modelled: [Opt] is its result). *)

From stdpp Require Import list strings.
From S2P Require Import Prelude Fixed MatchEvent StateMachine MarketData LogStore Api Node.

Definition CH_SEP : Z := 47.

(** [Path::is_absolute] and [Path::join]. *)
Definition is_absolute (path : str) : bool := match path with c :: _ => c =? CH_SEP | [] => false end.

Definition path_join (base path : str) : str :=
  if is_absolute path then path
  else match last base with
       | None => path
       | Some c => if c =? CH_SEP then base ++ path else base ++ CH_SEP :: path
       end.

(** ** Settings *)

Definition DEFAULT_DATA_DIR : str := lit "/tmp/matchengine-raft".
Definition DEFAULT_INSTANCE_PREFIX : str := lit "matchengine".
Definition NO_FSYNC_MIN_VOTERS : Z := 4.
Definition DEFAULT_SNAPSHOT_INTERVAL : Z := 30 * 60 * 1000.

(** [MarketDataConfig] with the fields of its sink; [MarketData.MarketDataConfig] has those of the
    processor. *)
Record FeedConfig : Type := mkFeedConfig {
  fc_processor : MarketDataConfig;
  fc_log_path : option str;
  fc_aeron_channel : option str;
  fc_aeron_stream_base : Z;
  fc_aeron_dir : option str;
  fc_aeron_embedded_driver : bool;
  fc_snapshot_every_ms : Z;
}.

Definition FeedConfig_default : FeedConfig :=
  mkFeedConfig MarketDataConfig_default None None 2001 None false 30000.

Definition FeedConfig_jsonl (path : str) : FeedConfig :=
  mkFeedConfig MarketDataConfig_default (Some path) None 2001 None false 30000.

(** Durations in milliseconds. *)
Record StorageConfig : Type := mkStorage {
  sg_data_dir : str;
  sg_instance_prefix : str;
  sg_match_event_log : option str;
  sg_market_data : option FeedConfig;
  sg_max_events : Z;
  sg_snapshot_interval : Z;
  sg_wal_fsync : option Z;
  sg_min_voters : Z;
}.

Definition StorageConfig_new (data_dir : str) : StorageConfig :=
  mkStorage data_dir DEFAULT_INSTANCE_PREFIX None None (Z.of_nat DEFAULT_MAX_EVENTS) DEFAULT_SNAPSHOT_INTERVAL None 1.

(** [with_min_voters]; the other builders set their field. *)
Definition clamp_min_voters (min_voters : Z) : Z := Z.max min_voters 1.

Definition min_voters_for (wal_fsync : option Z) : Z :=
  match wal_fsync with None => NO_FSYNC_MIN_VOTERS | Some _ => 1 end.

(** *** From the environment *)

Section Env.
Variable env : string -> option str.

(** A text that is no number disables fsync. *)
Definition wal_fsync_from_env : option Z := env "RAFT_WAL_FSYNC_MS" ≫= parse_unsigned U64_MAX.

Definition StorageConfig_default : StorageConfig :=
  let wal_fsync := wal_fsync_from_env in
  mkStorage (default DEFAULT_DATA_DIR (env "RAFT_DATA_DIR"))
    (default DEFAULT_INSTANCE_PREFIX (env "RAFT_INSTANCE_PREFIX"))
    (env "MATCH_EVENT_LOG") (FeedConfig_jsonl <$> env "MARKET_DATA_LOG")
    (default (Z.of_nat DEFAULT_MAX_EVENTS) (env "MAX_EVENTS" ≫= parse_unsigned U64_MAX))
    (default DEFAULT_SNAPSHOT_INTERVAL (env "SNAPSHOT_INTERVAL_MS" ≫= parse_unsigned U64_MAX))
    wal_fsync (min_voters_for wal_fsync).

(** [None] keeps Raft on the shared runtime. *)
Definition raft_core_workers : option Z :=
  match env "RAFT_CORE_WORKERS" ≫= parse_unsigned U64_MAX with
  | Some workers => if workers =? 0 then None else Some workers
  | None => None
  end.
End Env.

(** *** From the command line *)

Record Opt : Type := mkOpt {
  op_id : Z;
  op_http_addr : str;
  op_data_dir : str;
  op_instance_prefix : str;
  op_max_events : Z;
  op_snapshot_interval_ms : Z;
  op_match_event_log : option str;
  op_market_data_log : option str;
  op_market_data_depth : Z;
  op_market_data_status_every : Z;
  op_market_data_bar_intervals_ms : list Z;
  op_market_data_leader_only : bool;
  op_aeron_channel : option str;
  op_aeron_stream_base : Z;
  op_aeron_dir : option str;
  op_aeron_embedded_driver : bool;
  op_aeron_snapshot_every_ms : Z;
}.

(** The feed of [main]: off unless a file or a channel is given. *)
Definition main_feed (o : Opt) : option FeedConfig :=
  match op_market_data_log o, op_aeron_channel o with
  | None, None => None
  | log, channel =>
      let config := match log with Some path => FeedConfig_jsonl path | None => FeedConfig_default end in
      let processor := fc_processor config in
      let intervals := match op_market_data_bar_intervals_ms o with
                       | [] => md_bar_intervals_ms processor
                       | intervals => intervals
                       end in
      Some (mkFeedConfig
              (mkMdConfig (op_market_data_depth o) (op_market_data_status_every o)
                 (md_lifecycle_batch_max processor) intervals (md_queue_capacity processor)
                 (op_market_data_leader_only o))
              (fc_log_path config) channel (op_aeron_stream_base o) (op_aeron_dir o)
              (op_aeron_embedded_driver o) (op_aeron_snapshot_every_ms o))
  end.

Definition main_storage (wal_fsync : option Z) (o : Opt) : StorageConfig :=
  mkStorage (op_data_dir o) (op_instance_prefix o) (op_match_event_log o) (main_feed o)
    (op_max_events o) (op_snapshot_interval_ms o) wal_fsync (clamp_min_voters (min_voters_for wal_fsync)).

(** ** Directories *)

Definition node_dir (node_id : Z) (c : StorageConfig) : str :=
  path_join (sg_data_dir c) (sg_instance_prefix c ++ CH_MINUS :: show_u128 node_id).

Definition log_dir (node_id : Z) (c : StorageConfig) : str := path_join (node_dir node_id c) (lit "log").

Definition snapshot_dir (node_id : Z) (c : StorageConfig) : str := path_join (node_dir node_id c) (lit "snapshot").

(** ** What [build_match_engine_node] hands on *)

(** To the market-data watch; [None] when the feed is off. *)
Definition node_watch (node_id : Z) (c : StorageConfig) : option WatchConfig :=
  (fun feed => mkWatchConfig node_id (md_depth_levels (fc_processor feed)) (md_leader_only (fc_processor feed))
                 (fc_snapshot_every_ms feed)) <$> sg_market_data c.

(** To the snapshot timer: [None] disables it. *)
Definition snapshot_timer (c : StorageConfig) : option Z :=
  if sg_snapshot_interval c =? 0 then None else Some (sg_snapshot_interval c).

(** ** Theorems *)

Lemma path_join_inj base a b : is_absolute a = is_absolute b -> path_join base a = path_join base b -> a = b.
Proof.
  unfold path_join. intros <-. destruct (is_absolute a); [done|]. destruct (last base) as [c|]; [|done].
  destruct (c =? CH_SEP); intros E; apply app_inv_head in E; [done|by injection E].
Qed.

Lemma show_inj n m : 0 <= n < 2 ^ 128 -> 0 <= m < 2 ^ 128 -> show_u128 n = show_u128 m -> n = m.
Proof.
  intros [_ Hn]%show_u128_spec [_ Hm]%show_u128_spec E. rewrite E, Hm in Hn. by injection Hn.
Qed.

Lemma show_no_minus n : 0 <= n < 2 ^ 128 -> CH_MINUS ∉ show_u128 n.
Proof. intros [Hd _]%show_u128_spec. by apply all_digits_not_elem. Qed.

Lemma name_absolute prefix rest : is_absolute (prefix ++ CH_MINUS :: rest) = is_absolute prefix.
Proof. by destruct prefix. Qed.

(** Node directories are kept apart: under one data directory, two nodes share a directory only when
    both the instance prefix and the node id agree. *)
Theorem node_dirs_isolated c c' n m :
  0 <= n <= U64_MAX -> 0 <= m <= U64_MAX -> sg_data_dir c = sg_data_dir c' ->
  is_absolute (sg_instance_prefix c) = is_absolute (sg_instance_prefix c') ->
  node_dir n c = node_dir m c' -> sg_instance_prefix c = sg_instance_prefix c' /\ n = m.
Proof.
  intros Hn Hm Ed Ea E. unfold U64_MAX in *. unfold node_dir in E. rewrite Ed in E. apply path_join_inj in E.
  - assert (E' : rsplit_once CH_MINUS (sg_instance_prefix c ++ CH_MINUS :: show_u128 n) =
                 rsplit_once CH_MINUS (sg_instance_prefix c' ++ CH_MINUS :: show_u128 m)) by (by rewrite E).
    rewrite !rsplit_once_app in E' by (apply show_no_minus; lia). injection E' as -> Es. split; [done|].
    revert Es. apply show_inj; lia.
  - by rewrite !name_absolute.
Qed.

(** The log and the snapshot of any two nodes are never the same directory. *)
Theorem log_apart_from_snapshot c c' n m : log_dir n c <> snapshot_dir m c'.
Proof.
  assert (Hlast : forall base rest x, is_absolute (rest ++ [x]) = false -> last (path_join base (rest ++ [x])) = Some x).
  { intros base rest x Hr. unfold path_join. rewrite Hr. destruct (last base) as [y|]; [|apply last_snoc].
    destruct (y =? CH_SEP); [by rewrite app_assoc, last_snoc|]. by rewrite app_comm_cons, app_assoc, last_snoc. }
  intros E. apply (f_equal last) in E. unfold log_dir, snapshot_dir in E.
  change (lit "log") with (lit "lo" ++ [103]) in E. change (lit "snapshot") with (lit "snapsho" ++ [116]) in E.
  by rewrite !Hlast in E.
Qed.

(** Without fsync the binary asks for four voters, and the edge of a node so configured admits no
    write below them. *)
Theorem no_fsync_writes_need_four o node configured request admitted :
  en_min_voters node = sg_min_voters (main_storage None o) ->
  admit_write node configured request = Ok admitted -> 4 <= en_voters node.
Proof.
  intros Hm. unfold admit_write, ensure_min_voters. rewrite Hm.
  change (sg_min_voters (main_storage None o)) with 4. change (4 <=? 1) with false. cbv iota.
  destruct (Z.ltb_spec (en_voters node) 4); [discriminate|intros; lia].
Qed.

(** [StorageConfig::default] asks for four voters too when the variable is unset, although its field says
    that callers of the library default to one. *)
Theorem default_needs_four env : env "RAFT_WAL_FSYNC_MS" = None -> sg_min_voters (StorageConfig_default env) = 4.
Proof. intros E. unfold StorageConfig_default, wal_fsync_from_env. by rewrite E. Qed.

(** A fsync setting that does not parse turns fsync off; the policy of the log is the setting's. *)
Theorem fsync_setting env v :
  env "RAFT_WAL_FSYNC_MS" = Some v ->
  FsyncPolicy_from_option (wal_fsync_from_env env) =
  match parse_unsigned U64_MAX v with
  | None => FsyncNone
  | Some ms => if ms =? 0 then EveryAppend else Interval ms
  end.
Proof.
  intros E. unfold wal_fsync_from_env. rewrite E. cbn [mbind option_bind].
  by destruct (parse_unsigned U64_MAX v) as [ms|].
Qed.
