(* ===== verification/Sinks.v ===== *)
(** * Where applied events go ([src/src/match_result/mod.rs], [src/src/store/state_machine.rs],
    [src/src/market_data/mod.rs])

    Publishing after the lock is released, the three match-result sinks and the feed's JSON lines sink.
    serde_json is a parameter. A file is its bytes; a call on a sink names how many bytes the device
    accepts before a write fails ([None]: none fails), which is all a failure can vary, since a
    call ends at the first one. *)

From stdpp Require Import list.
From S2P Require Import Prelude Fixed Order OrderBook MatchEvent StateMachine MarketMessage MarketData Bridge.

Inductive SinkError : Type := SinkIo | SinkWouldBlock | SinkBrokenPipe.

(** ** Publishing *)

Section Publish.
(** The sink: its state and its [publish]. *)
Context {Sink : Type}.
Variable sink_publish : list MatchEvent -> Sink -> Sink * Result unit SinkError.
(** The tap's queue. *)
Variable capacity : nat.
Variable closed : bool.

(** An error of the sink is only logged. *)
Definition publish_match_events (evs : list MatchEvent) (sink : Sink) : Sink :=
  match evs with [] => sink | _ => (sink_publish evs sink).1 end.

Fixpoint publish_pending (pending : list PendingPublish) (sink : Sink) (tap : Shared * list TapFrame)
    : Sink * (Shared * list TapFrame) :=
  match pending with
  | [] => (sink, tap)
  | publish :: pending =>
      let sink := publish_match_events (pp_events publish) sink in
      let tap := match pp_market publish with Some frame => tap_publish capacity closed frame tap | None => tap end in
      publish_pending pending sink tap
  end.

(** What the turns of [apply] publish, one entry after the other. *)
Definition publish_entries (fxs : list Effects) (sink : Sink) (tap : Shared * list TapFrame)
    : Sink * (Shared * list TapFrame) :=
  foldl (fun st fx => publish_pending (fx_publishes fx) st.1 st.2) (sink, tap) fxs.
End Publish.

(** The events of an entry's publications, and of a run's. *)
Definition published (fx : Effects) : list MatchEvent := mjoin (pp_events <$> fx_publishes fx).

Definition published_all (fxs : list Effects) : list MatchEvent := mjoin (published <$> fxs).

(** ** The sinks of match results *)

Definition noop_publish (evs : list MatchEvent) (sink : unit) : unit * Result unit SinkError := (sink, Ok ()).

Definition memory_publish (evs : list MatchEvent) (sink : list MatchEvent)
    : list MatchEvent * Result unit SinkError := (sink ++ evs, Ok ()).

(** [BufWriter<File>]: the file and what is buffered for it. *)
Record FileWriter : Type := mkWriter { fw_file : str; fw_buf : str }.

(** The standard library's default capacity. *)
Definition BUF_CAPACITY : nat := 8192.

(** [File::write_all] with [space] bytes left: the file, the space behind it, and success. *)
Definition write_file (bytes : str) (space : option nat) (file : str) : str * option nat * bool :=
  match space with
  | None => (file ++ bytes, None, true)
  | Some n => (file ++ take n bytes, Some (n - length bytes)%nat, bool_decide (length bytes <= n)%nat)
  end.

(** [BufWriter::flush_buf]: what was not written stays buffered. *)
Definition flush_buf (space : option nat) (w : FileWriter) : FileWriter * option nat * bool :=
  let '(file, space', ok) := write_file (fw_buf w) space (fw_file w) in
  (mkWriter file (match space with None => [] | Some n => drop n (fw_buf w) end), space', ok).

Definition spare (w : FileWriter) : nat := (BUF_CAPACITY - length (fw_buf w))%nat.

(** [BufWriter::write_all]: into the buffer if there is room, past it if the bytes are larger. *)
Definition write_all (bytes : str) (space : option nat) (w : FileWriter) : FileWriter * option nat * bool :=
  if bool_decide (length bytes < spare w)%nat
  then (mkWriter (fw_file w) (fw_buf w ++ bytes), space, true)
  else
    let '(w, space, ok) := if bool_decide (spare w < length bytes)%nat then flush_buf space w else (w, space, true) in
    if negb ok then (w, space, false)
    else if bool_decide (BUF_CAPACITY <= length bytes)%nat then
      let '(file, space, ok) := write_file bytes space (fw_file w) in (mkWriter file (fw_buf w), space, ok)
    else (mkWriter (fw_file w) (fw_buf w ++ bytes), space, true).

Section Files.
(** [serde_json] of an event with the node's id. *)
Variable encode_record : MatchEvent -> str.

(** A line is written in two pieces. *)
Fixpoint write_events (evs : list MatchEvent) (space : option nat) (w : FileWriter) : FileWriter * option nat * bool :=
  match evs with
  | [] => (w, space, true)
  | event :: evs =>
      let '(w, space, ok) := write_all (encode_record event) space w in
      if negb ok then (w, space, false)
      else
        let '(w, space, ok) := write_all [CH_NEWLINE] space w in
        if negb ok then (w, space, false) else write_events evs space w
  end.

(** [FileLogSink::publish]. *)
Definition file_publish (space : option nat) (evs : list MatchEvent) (w : FileWriter)
    : FileWriter * Result unit SinkError :=
  match evs with
  | [] => (w, Ok ())
  | _ =>
      let '(w, space, ok) := write_events evs space w in
      if negb ok then (w, Err SinkIo)
      else let '(w, _, ok) := flush_buf space w in (w, if (ok : bool) then Ok () else Err SinkIo)
  end.

Definition event_lines (evs : list MatchEvent) : str := mjoin ((fun e => encode_record e ++ [CH_NEWLINE]) <$> evs).
End Files.

(** ** The feed's JSON lines sink *)

Definition JSONL_QUEUE : nat := 8192.

(** The queue, the file, and whether the writer task has stopped. *)
Record JsonlSink : Type := mkJsonl { js_queue : list str; js_file : str; js_closed : bool }.

Definition jsonl_publish (line : str) (sink : JsonlSink) : JsonlSink * Result unit SinkError :=
  if js_closed sink then (sink, Err SinkBrokenPipe)
  else if bool_decide (JSONL_QUEUE <= length (js_queue sink))%nat then (sink, Err SinkWouldBlock)
  else (mkJsonl (js_queue sink ++ [line]) (js_file sink) false, Ok ()).

(** One turn of the writer task: it flushes behind every line, and stops at the first failure, which
    closes the queue with what is in it. *)
Definition jsonl_write (space : option nat) (sink : JsonlSink) : JsonlSink :=
  match js_queue sink with
  | [] => sink
  | line :: queue =>
      if js_closed sink then sink
      else
        let '(file, _, ok) := write_file (line ++ [CH_NEWLINE]) space (js_file sink) in
        if (ok : bool) then mkJsonl queue file false else mkJsonl [] file true
  end.

Inductive JsonlStep : Type := JsonlPublish (line : str) | JsonlWrite (space : option nat).

(** Steps of the two tasks, with the lines [publish] has accepted. *)
Definition jsonl_sink_step (step : JsonlStep) (st : JsonlSink * list str) : JsonlSink * list str :=
  let '(sink, accepted) := st in
  match step with
  | JsonlPublish line =>
      let '(sink, r) := jsonl_publish line sink in
      (sink, match r with Ok _ => accepted ++ [line] | Err _ => accepted end)
  | JsonlWrite space => (jsonl_write space sink, accepted)
  end.

Definition jsonl_sink_steps (steps : list JsonlStep) (st : JsonlSink * list str) : JsonlSink * list str :=
  foldl (fun st step => jsonl_sink_step step st) st steps.
