(* ===== verification/SinksSpec.v ===== *)
(** * Correctness of the sinks

    What a node publishes is what its event log records, and what each sink makes of it when writes
    fail and queues fill. *)

From stdpp Require Import list.
From S2P Require Import Prelude BTree Fixed Order OrderBook MatchEvent StateMachine MarketMessage MarketData Bridge Sinks.

(** ** What an entry publishes *)

Section Entries.
Context `{RaftTypes} `{I256Ops}.
Implicit Types (s : StateMachineStoreInner) (fx : Effects) (node : NodeLocal).

(** From one store and its effects to the next: events were recorded, and the same were published. *)
Definition publishes_recorded s fx s' fx' : Prop :=
  exists evs, events s' `suffix_of` events s ++ evs /\ published fx' = published fx ++ evs.

Lemma publishes_refl s s' fx resets :
  events s' = events s -> publishes_recorded s fx s' (mkEffects (fx_publishes fx) resets).
Proof. intros E. exists []. by rewrite !app_nil_r, E. Qed.

Lemma publishes_trans s1 fx1 s2 fx2 s3 fx3 :
  publishes_recorded s1 fx1 s2 fx2 -> publishes_recorded s2 fx2 s3 fx3 -> publishes_recorded s1 fx1 s3 fx3.
Proof.
  intros (e1 & S1 & P1) (e2 & S2 & P2). exists (e1 ++ e2). rewrite !app_assoc, <- P1. split; [|done].
  etrans; [exact S2|by apply suffix_app].
Qed.

Lemma trim_front_suffix {A} max : forall (l : list A) ev, (trim_front max l ev).1 `suffix_of` l.
Proof.
  induction l as [|x l IH]; intros ev; cbn [trim_front]; [done|].
  case_bool_decide; [by apply suffix_cons_r|done].
Qed.

Lemma record_events_suffix evs s : events (record_events evs s) `suffix_of` events s ++ evs.
Proof.
  unfold record_events, trim_events. cbn [events events_evicted max_events set_events].
  pose proof (trim_front_suffix (max_events s) (events s ++ evs) (events_evicted s)) as Hs.
  by destruct (trim_front _ _ _).
Qed.

Lemma take_market_frame_events li seq ts id evs s : events (take_market_frame li seq ts id evs s).2 = events s.
Proof.
  unfold take_market_frame. destruct (market_data s) as [enabled|]; [|done].
  destruct (take_depth_journal _). destruct enabled; cbn; [|done]. by destruct (_ && _).
Qed.

(** The end of every arm: [evs] were recorded in [s1], and are published. *)
Lemma publishes_push s s1 fx evs market :
  events s1 `suffix_of` events s ++ evs ->
  publishes_recorded s fx s1
    (if negb (bool_decide (evs = [])) || bool_decide (market <> None)
     then mkEffects (fx_publishes fx ++ [mkPublish evs market]) (fx_resets fx) else fx).
Proof.
  intros Hs. exists evs. split; [done|]. unfold published.
  destruct (negb _ || _) eqn:E; cbn [fx_publishes].
  - rewrite fmap_app, join_app. cbn. by rewrite app_nil_r.
  - apply orb_false_iff in E as [E _]. apply negb_false_iff, bool_decide_eq_true in E as ->. by rewrite app_nil_r.
Qed.

Lemma finish_publishes li seq ts id evs s0 s fx resp n s' fx' :
  events s = events s0 -> finish li seq ts id evs (record_events evs s) fx = (resp, n, s', fx') ->
  publishes_recorded s0 fx s' fx'.
Proof.
  intros E. unfold finish. pose proof (take_market_frame_events li seq ts id evs (record_events evs s)) as Em.
  destruct (take_market_frame _ _ _ _ _ _) as [market s1]. intros [= _ _ <- <-]. apply publishes_push.
  cbn in Em. rewrite Em, <- E. apply record_events_suffix.
Qed.

Lemma record_submission_events id seq li first n s : events (record_submission id seq li first n s) = events s.
Proof. unfold record_submission, trim_submissions. by destruct (trim_submissions_loop _ _ _ _) as [[? ?] ?]. Qed.

Lemma configure_symbol_events config s : events (configure_symbol config s).2 = events s.
Proof.
  unfold configure_symbol. destruct (validate config); [|done]. destruct (symbol_locked s); [done|].
  by destruct (negb _ || negb _ || negb _).
Qed.

Lemma apply_one_publishes node request li first s fx resp n s' fx' :
  apply_one node request li first s fx = Ret (resp, n, s', fx') -> publishes_recorded s fx s' fx'.
Proof.
  destruct request as [order id|order|order price volume|now day|config|requests]; cbn [apply_one].
  - unfold apply_place. destruct (match id with Some id => submissions s !! id | None => None end) as [record|].
    { intros [= _ _ <- <-]. destruct fx. by apply publishes_refl. }
    match goal with |- context [comp_bind _ ?c] => destruct c as [[[outcome o] b]| |] end; cbn [comp_bind]; [|done|done].
    set (s1 := set_orderbook b s).
    set (s2 := match out_rejected outcome with None => set_symbol (symbol_config s1) true s1 | Some _ => s1 end).
    set (evs := place_events _ _ _ _). set (s3 := record_events evs s2).
    set (s4 := match id with Some id => record_submission id _ _ _ _ s3 | None => s3 end).
    pose proof (take_market_frame_events li (out_market_seq outcome) (o_timestamp o) (o_symbol_id o) evs s4) as Em.
    destruct (take_market_frame _ _ _ _ _ _) as [market s5]. intros [= _ _ <- <-]. apply publishes_push.
    cbn in Em. rewrite Em. assert (E4 : events s4 = events s3) by (subst s4; destruct id; [apply record_submission_events|done]).
    assert (E2 : events s2 = events s) by (subst s2; by destruct (out_rejected outcome)).
    rewrite E4, <- E2. apply record_events_suffix.
  - unfold apply_cancel. destruct (next_market_sequence _) as [seq b].
    destruct (auto_purge _ b) as [[expired b']| |]; cbn [comp_bind]; [|done|done].
    match goal with |- context [comp_bind _ ?c] => destruct c as [[evs b'']| |] end; cbn [comp_bind]; [|done|done].
    intros [= E]. by eapply finish_publishes in E.
  - unfold apply_amend. destruct (next_market_sequence _) as [seq b].
    destruct (auto_purge _ b) as [[expired b']| |]; cbn [comp_bind]; [|done|done].
    match goal with |- context [comp_bind _ ?c] => destruct c as [[evs b'']| |] end; cbn [comp_bind]; [|done|done].
    intros [= E]. by eapply finish_publishes in E.
  - unfold apply_purge. destruct (next_market_sequence _) as [seq b].
    destruct (purge_expired _ _ b) as [[expired b']| |]; cbn [comp_bind]; [|done|done].
    intros [= E]. by eapply finish_publishes in E.
  - unfold configure_symbol_locked. pose proof (configure_symbol_events config s) as Ec.
    destruct (configure_symbol config s) as [[u|error] s1]; cbn in Ec; intros [= _ _ <- <-].
    + by apply publishes_refl.
    + destruct fx. by apply publishes_refl.
  - intros [= _ _ <- <-]. destruct fx. by apply publishes_refl.
Qed.

Lemma apply_batch_publishes node requests : forall li ordinal responses s fx responses' s' fx',
  apply_batch node requests li ordinal responses s fx = Ret (responses', s', fx') -> publishes_recorded s fx s' fx'.
Proof.
  induction requests as [|request requests IH]; intros li ordinal responses s fx responses' s' fx'; cbn [apply_batch].
  { intros [= _ <- <-]. destruct fx. by apply publishes_refl. }
  destruct (apply_one _ _ _ _ _ _) as [[[[resp n] s1] fx1]| |] eqn:E; cbn [comp_bind]; [|done|done].
  intros E'. eapply publishes_trans; [by eapply apply_one_publishes|by eapply IH].
Qed.

Lemma apply_entry_publishes node entry s resp s' fx :
  apply_entry node entry s = Ret (resp, s', fx) -> events s' `suffix_of` events s ++ published fx.
Proof.
  intros E. assert (H' : publishes_recorded s (mkEffects [] []) s' fx).
  2: { destruct H' as (evs & Hs & ->). exact Hs. }
  revert E. unfold apply_entry. set (s0 := set_applied _ _ s).
  assert (Hone : forall request, (let* '(response, _, s1, fx1) :=
      apply_one node request (log_id_index (en_log_id entry)) 0 s0 (mkEffects [] []) in
      Ret (response, s1, fx1)) = Ret (resp, s', fx) -> publishes_recorded s (mkEffects [] []) s' fx).
  { intros request. destruct (apply_one _ _ _ _ _ _) as [[[[r n] s1] fx1]| |] eqn:E; cbn [comp_bind]; [|done|done].
    intros [= _ <- <-]. by eapply apply_one_publishes in E. }
  destruct (en_payload entry) as [|request|mem].
  - intros [= _ <- <-]. by apply (publishes_refl s s0 (mkEffects [] [])).
  - destruct request; try apply Hone.
    destruct (apply_batch _ _ _ _ _ _ _) as [[[rs s1] fx1]| |] eqn:E; cbn [comp_bind]; [|done|done].
    intros [= _ <- <-]. by eapply apply_batch_publishes in E.
  - intros [= _ <- <-]. by apply (publishes_refl s s0 (mkEffects [] [])).
Qed.

(** What a node publishes is its event log: whatever entries are applied, the retained window is the
    end of the old window followed by everything published, in order. *)
Theorem window_is_published node entries : forall s responses s' fxs,
  apply node entries s = Ret (responses, s', fxs) -> events s' `suffix_of` events s ++ published_all fxs.
Proof.
  induction entries as [|entry entries IH]; intros s responses s' fxs; cbn [apply].
  { intros [= _ <- <-]. by rewrite app_nil_r. }
  destruct (apply_entry node entry s) as [[[r s1] fx]| |] eqn:E1; cbn [comp_bind]; [|done|done].
  destruct (apply node entries s1) as [[[rs s2] fxs2]| |] eqn:E2; cbn [comp_bind]; [|done|done].
  intros [= _ <- <-]. cbn. rewrite app_assoc. etrans; [by eapply IH|].
  apply suffix_app. by eapply apply_entry_publishes.
Qed.
End Entries.

(** ** The memory sink *)

Lemma publish_pending_memory capacity closed pending : forall sink tap,
  (publish_pending memory_publish capacity closed pending sink tap).1 = sink ++ mjoin (pp_events <$> pending).
Proof.
  induction pending as [|p pending IH]; intros sink tap; cbn [publish_pending]; [by rewrite app_nil_r|].
  rewrite IH. cbn [fmap list_fmap mjoin list_join]. rewrite app_assoc. f_equal. unfold publish_match_events.
  destruct (pp_events p); [by rewrite app_nil_r|done].
Qed.

Lemma publish_entries_memory capacity closed fxs : forall sink tap,
  (publish_entries memory_publish capacity closed fxs sink tap).1 = sink ++ published_all fxs.
Proof.
  unfold publish_entries. induction fxs as [|fx fxs IH]; intros sink tap; cbn [foldl]; [by rewrite app_nil_r|].
  pose proof (publish_pending_memory capacity closed (fx_publishes fx) sink tap) as E.
  destruct (publish_pending _ _ _ _ _ _) as [sink' tap']. cbn in E. subst sink'.
  cbn [fst snd]. rewrite IH. unfold published_all. cbn [fmap list_fmap mjoin list_join]. by rewrite app_assoc.
Qed.

(** The memory sink of a node that starts empty ends with the event window: nothing of the log is
    missing from it, and nothing else is in it. *)
Theorem memory_sink_holds_window `{RaftTypes} `{I256Ops} node entries s responses s' fxs capacity closed tap :
  events s = [] -> apply node entries s = Ret (responses, s', fxs) ->
  let sink := (publish_entries memory_publish capacity closed fxs [] tap).1 in
  sink = published_all fxs /\ events s' `suffix_of` sink.
Proof.
  intros Hs E. cbv zeta. rewrite publish_entries_memory. split; [done|].
  pose proof (window_is_published _ _ _ _ _ _ E) as Hw. by rewrite Hs in Hw.
Qed.

(** ** The file sink *)

Lemma BUF_CAPACITY_pos : (0 < BUF_CAPACITY)%nat.
Proof. by apply Nat.ltb_lt. Qed.

#[local] Opaque BUF_CAPACITY.

(** What the file holds and will hold. *)
Definition content (w : FileWriter) : str := fw_file w ++ fw_buf w.

Lemma write_file_prefix bytes space file file' space' ok :
  write_file bytes space file = (file', space', ok) ->
  exists k, file' = file ++ take k bytes /\ (ok = true -> (length bytes <= k)%nat) /\ (space = None -> ok = true /\ space' = None).
Proof.
  unfold write_file. destruct space as [n|]; intros [= <- <- <-].
  - exists n. split; [done|]. split; [apply bool_decide_eq_true|done].
  - exists (length bytes). rewrite firstn_all. done.
Qed.

Lemma flush_buf_content space w w' space' ok :
  flush_buf space w = (w', space', ok) ->
  content w' = content w /\ (ok = true -> fw_buf w' = []) /\ (space = None -> ok = true /\ space' = None).
Proof.
  unfold flush_buf, content, write_file. destruct space as [n|]; intros [= <- <- <-]; cbn [fw_file fw_buf].
  - split; [by rewrite <- app_assoc, take_drop|]. split; [|done].
    intros Hl%bool_decide_eq_true. by apply drop_ge.
  - by rewrite app_nil_r.
Qed.

Lemma write_all_content bytes space w w' space' ok :
  write_all bytes space w = (w', space', ok) ->
  exists k, content w' = content w ++ take k bytes /\ (ok = true -> (length bytes <= k)%nat) /\
    (space = None -> ok = true /\ space' = None).
Proof.
  unfold write_all. case_bool_decide as H1.
  { intros [= <- <- <-]. exists (length bytes). unfold content. cbn. by rewrite firstn_all, app_assoc. }
  destruct (if bool_decide (spare w < length bytes)%nat then flush_buf space w else (w, space, true))
    as [[w1 space1] ok1] eqn:Ef.
  assert (Hf : content w1 = content w /\ (space = None -> ok1 = true /\ space1 = None) /\
               (ok1 = true -> (BUF_CAPACITY <= length bytes)%nat -> fw_buf w1 = [])).
  { case_bool_decide as H2.
    - apply flush_buf_content in Ef as (E1 & E2 & E3). split; [done|]. split; [done|]. intros Hok _. by apply E2.
    - injection Ef as <- <- <-. split; [done|]. split; [done|]. intros _ Hl. unfold spare in H2.
      apply nil_length_inv. unfold spare in H1. pose proof BUF_CAPACITY_pos. lia. }
  destruct Hf as (Ec & Hn & Hb). destruct ok1; cbn [negb].
  - destruct (bool_decide (BUF_CAPACITY <= length bytes)%nat) eqn:H3.
    + apply bool_decide_eq_true in H3. destruct (write_file bytes space1 (fw_file w1)) as [[file space2] ok2] eqn:Ew. intros [= <- <- <-].
      apply write_file_prefix in Ew as (k & -> & Hk & Hs). exists k. unfold content in *. cbn [fw_file fw_buf].
      rewrite Hb in * by done. rewrite !app_nil_r in *. rewrite Ec. split; [done|]. split; [done|].
      intros E. by apply Hs, Hn.
    + intros [= <- <- <-]. exists (length bytes). rewrite firstn_all. unfold content in *. cbn [fw_file fw_buf].
      rewrite app_assoc, Ec. done.
  - intros [= <- <- <-]. exists 0%nat. rewrite Ec, take_0, app_nil_r. split; [done|]. split; [done|]. exact Hn.
Qed.

Lemma write_events_content encode evs : forall space w w' space' ok,
  write_events encode evs space w = (w', space', ok) ->
  exists k, content w' = content w ++ take k (event_lines encode evs) /\
    (ok = true -> (length (event_lines encode evs) <= k)%nat) /\ (space = None -> ok = true /\ space' = None).
Proof.
  induction evs as [|e evs IH]; intros space w w' space' ok; cbn [write_events].
  { intros [= <- <- <-]. exists 0%nat. by rewrite take_0, app_nil_r. }
  change (event_lines encode (e :: evs)) with ((encode e ++ [CH_NEWLINE]) ++ event_lines encode evs).
  rewrite <- app_assoc. set (rest := event_lines encode evs) in *.
  destruct (write_all (encode e) space w) as [[w1 space1] ok1] eqn:E1.
  apply write_all_content in E1 as (k1 & C1 & L1 & N1). destruct ok1; cbn [negb].
  2: { intros [= <- <- <-]. exists (k1 `min` length (encode e))%nat. rewrite take_app_le by lia.
       split; [|by split]. rewrite C1. f_equal. destruct (decide (k1 <= length (encode e))%nat).
       - by rewrite Nat.min_l. - by rewrite Nat.min_r, !take_ge by lia. }
  rewrite take_ge in C1 by auto. destruct (write_all [CH_NEWLINE] space1 w1) as [[w2 space2] ok2] eqn:E2.
  apply write_all_content in E2 as (k2 & C2 & L2 & N2). destruct ok2; cbn [negb].
  2: { intros [= <- <- <-]. exists (length (encode e) + k2 `min` 1)%nat. rewrite take_app_add. rewrite C2, C1, <- app_assoc.
       split; [|split; [done|]].
       - do 2 f_equal. destruct k2 as [|k2]; [done|]. cbn. by rewrite !take_nil, Nat.min_0_r.
       - intros E. apply N1 in E as [_ E]. by apply N2 in E. }
  rewrite take_ge in C2 by (by apply L2). intros E3. apply IH in E3 as (k & C3 & L3 & N3).
  exists (length (encode e) + (1 + k))%nat. rewrite take_app_add. split.
  - rewrite C3, C2, C1, <- !app_assoc. do 2 f_equal.
  - split; [intros E; apply L3 in E; rewrite length_app; cbn; lia|]. intros E. by apply N3, N2, N1.
Qed.

(** The file sink neither reorders nor repeats: whenever writes fail, what it has written or still
    holds for later is what it had and a front of the batch's lines; it succeeds only with all of
    them in the file, and does so when no write fails. *)
Theorem file_sink_appends encode space evs w w' r :
  fw_buf w = [] \/ evs <> [] -> file_publish encode space evs w = (w', r) ->
  exists k, content w' = content w ++ take k (event_lines encode evs) /\
    (r = Ok () -> fw_file w' = content w ++ event_lines encode evs /\ fw_buf w' = []) /\
    (space = None -> r = Ok ()).
Proof.
  intros Hw. unfold file_publish. destruct evs as [|e evs].
  { destruct Hw as [Hw|]; [|done]. intros [= <- <-]. exists 0%nat. unfold content. by rewrite Hw, !app_nil_r. }
  destruct (write_events encode (e :: evs) space w) as [[w1 space1] ok1] eqn:E.
  apply write_events_content in E as (k & C & L & N). destruct ok1; cbn [negb].
  - destruct (flush_buf space1 w1) as [[w2 space2] ok2] eqn:E2. apply flush_buf_content in E2 as (C2 & B2 & N2).
    intros [= <- <-]. exists k. rewrite C2. split; [done|]. split.
    + intros Hr. assert (ok2 = true) as -> by (by destruct ok2). split; [|by apply B2].
      rewrite take_ge in C by auto. rewrite <- C, <- C2. unfold content. by rewrite B2, app_nil_r.
    + intros Hs. destruct (N Hs) as [_ Hs1]. by destruct (N2 Hs1) as [-> _].
  - intros [= <- <-]. exists k. split; [done|]. split; [done|]. intros Hs. by destruct (N Hs).
Qed.

Lemma write_all_fits bytes space w :
  (length bytes < spare w)%nat -> write_all bytes space w = (mkWriter (fw_file w) (fw_buf w ++ bytes), space, true).
Proof. intros Hl. unfold write_all. by rewrite bool_decide_eq_true_2. Qed.

Lemma write_all_fills bytes space w :
  length bytes = spare w -> (spare w < BUF_CAPACITY)%nat ->
  write_all bytes space w = (mkWriter (fw_file w) (fw_buf w ++ bytes), space, true).
Proof.
  intros Hl Hs. unfold write_all. rewrite bool_decide_eq_false_2 by lia. rewrite bool_decide_eq_false_2 by lia. cbn [negb].
  by rewrite bool_decide_eq_false_2 by lia.
Qed.

Lemma flush_buf_stuck w : fw_buf w <> [] -> flush_buf (Some 0%nat) w = (w, Some 0%nat, false).
Proof.
  intros Hb. unfold flush_buf, write_file. rewrite take_0, app_nil_r, drop_0.
  rewrite bool_decide_eq_false_2 by (destruct (fw_buf w); cbn; [done|lia]). by destruct w.
Qed.

(** A line and its newline are written apart: when the line fills the buffer and the flush for the
    newline fails, the newline is lost and the next event's line is glued to this one. *)
Theorem newline_can_be_lost encode (e1 e2 e3 : MatchEvent) :
  (length (encode e1) + 1 + length (encode e2) = BUF_CAPACITY)%nat -> (0 < length (encode e2))%nat ->
  let w1 := (file_publish encode (Some 0%nat) [e1] (mkWriter [] [])).1 in
  let w2 := (file_publish encode (Some 0%nat) [e2] w1).1 in
  let '(w3, r) := file_publish encode None [e3] w2 in
  r = Ok () /\ fw_file w3 = (encode e1 ++ [CH_NEWLINE]) ++ encode e2 ++ encode e3 ++ [CH_NEWLINE].
Proof.
  intros Hl H2. cbv zeta. set (w1 := mkWriter [] (encode e1 ++ [CH_NEWLINE])).
  assert (E1 : file_publish encode (Some 0%nat) [e1] (mkWriter [] []) = (w1, Err SinkIo)).
  { unfold file_publish. cbn [write_events]. rewrite write_all_fits by (unfold spare; cbn [fw_buf length]; lia).
    cbn [negb fw_file fw_buf]. rewrite write_all_fits by (unfold spare; cbn [fw_buf length app]; lia). cbn [negb fw_file fw_buf].
    rewrite flush_buf_stuck; [done|]. cbn. by destruct (encode e1). }
  rewrite E1. cbn [fst]. set (w2 := mkWriter [] ((encode e1 ++ [CH_NEWLINE]) ++ encode e2)).
  assert (Hs : length (encode e2) = spare w1) by (unfold spare, w1; cbn [fw_buf]; rewrite length_app; cbn [length]; lia).
  assert (E2 : file_publish encode (Some 0%nat) [e2] w1 = (w2, Err SinkIo)).
  { unfold file_publish. cbn [write_events]. rewrite write_all_fills by lia. fold w2. cbn [negb w1 fw_file fw_buf].
    fold w2. assert (E0 : spare w2 = 0%nat).
    { unfold spare, w2. cbn [fw_buf]. rewrite !length_app. cbn [length]. lia. }
    unfold write_all. rewrite E0. cbn [length]. rewrite bool_decide_eq_false_2 by lia. rewrite bool_decide_eq_true_2 by lia.
    rewrite flush_buf_stuck; [done|]. cbn. by destruct (encode e1). }
  rewrite E2. cbn [fst]. destruct (file_publish encode None [e3] w2) as [w3 r] eqn:E3.
  apply file_sink_appends in E3 as (k & _ & Hr & Hn); [|by right]. specialize (Hn eq_refl). destruct (Hr Hn) as [-> _].
  split; [done|]. unfold content, w2, event_lines. cbn [fw_file fw_buf]. cbn. by rewrite app_nil_r, <- !app_assoc.
Qed.

(** ** The feed's JSON lines sink *)

Definition lines_of (ls : list str) : str := mjoin ((fun l => l ++ [CH_NEWLINE]) <$> ls).

(** The accepted lines are in the file, then in the queue; a stopped writer leaves a front of them. *)
Definition jsonl_ok (file0 : str) (st : JsonlSink * list str) : Prop :=
  let '(sink, accepted) := st in
  if js_closed sink then exists k, js_file sink = file0 ++ take k (lines_of accepted)
  else exists written, accepted = written ++ js_queue sink /\ js_file sink = file0 ++ lines_of written.

Lemma lines_of_app a b : lines_of (a ++ b) = lines_of a ++ lines_of b.
Proof. unfold lines_of. by rewrite fmap_app, join_app. Qed.

Lemma jsonl_sink_step_ok file0 step st : jsonl_ok file0 st -> jsonl_ok file0 (jsonl_sink_step step st).
Proof.
  destruct st as [[queue file closed] accepted]. destruct step as [line|space]; cbn [jsonl_sink_step].
  - unfold jsonl_publish. cbn [js_closed js_queue js_file]. destruct closed; [done|]. case_bool_decide; [done|].
    cbn. intros (written & -> & ->). exists written. by rewrite app_assoc.
  - unfold jsonl_write. cbn [js_closed js_queue js_file]. destruct queue as [|line queue]; [done|]. destruct closed; [done|].
    destruct (write_file _ _ _) as [[file' space'] ok] eqn:E. apply write_file_prefix in E as (k & -> & Hk & _).
    cbn. intros (written & -> & ->). destruct ok; cbn.
    + exists (written ++ [line]). rewrite <- app_assoc. split; [done|]. rewrite take_ge by auto.
      rewrite lines_of_app, <- app_assoc. cbn. by rewrite app_nil_r.
    + exists (length (lines_of written) + k `min` length (line ++ [CH_NEWLINE]))%nat.
      rewrite lines_of_app, take_app_add. rewrite <- app_assoc. do 2 f_equal.
      change (lines_of (line :: queue)) with ((line ++ [CH_NEWLINE]) ++ lines_of queue).
      rewrite (take_app_le (line ++ [CH_NEWLINE]) (lines_of queue)) by lia. destruct (decide (k <= length (line ++ [CH_NEWLINE]))%nat).
      * by rewrite Nat.min_l. * by rewrite Nat.min_r, !take_ge by lia.
Qed.

(** The feed's file is always a front of the lines its sink accepted, in order and without gaps, and
    once the queue is empty and no write has failed it is all of them. *)
Theorem jsonl_file_is_front steps file0 :
  let '(sink, accepted) := jsonl_sink_steps steps (mkJsonl [] file0 false, []) in
  (exists k, js_file sink = file0 ++ take k (lines_of accepted)) /\
  (js_closed sink = false -> js_queue sink = [] -> js_file sink = file0 ++ lines_of accepted).
Proof.
  assert (Hok : jsonl_ok file0 (jsonl_sink_steps steps (mkJsonl [] file0 false, []))).
  { unfold jsonl_sink_steps. assert (H0 : jsonl_ok file0 (mkJsonl [] file0 false, [])) by (exists []; cbn; by rewrite app_nil_r).
    revert H0. generalize (mkJsonl [] file0 false, @nil str). induction steps as [|step steps IH]; intros st H0; [done|].
    cbn. by apply IH, jsonl_sink_step_ok. }
  destruct (jsonl_sink_steps _ _) as [[queue file closed] accepted]. cbn in *. destruct closed.
  - split; [exact Hok|done].
  - destruct Hok as (written & -> & ->). split.
    + exists (length (lines_of written)). by rewrite lines_of_app, take_app_length.
    + intros _ ->. by rewrite app_nil_r.
Qed.

(** A stopped writer refuses every later line. *)
Lemma jsonl_stopped line sink : js_closed sink = true -> jsonl_publish line sink = (sink, Err SinkBrokenPipe).
Proof. intros E. unfold jsonl_publish. by rewrite E. Qed.
