(* ===== verification/DeskServer.v ===== *)
(** * The order desk's web server ([src/demos/order_system/src/api.rs])

    Every route that reaches the desk, as one function of its request: the header check of actions,
    the checks of queries and their defaults, and the status of the answer. JSON and the static pages are
    not modelled. *)

From stdpp Require Import list gmap strings.
From S2P Require Import Prelude Fixed Order MatchEvent StateMachine Api Freeze Client Desk Console.

(** ** Views of the configured backends *)

Record BackendInfo : Type := mkBackendInfo { bi_product : Product; bi_engine_id : Z; bi_http_addr : str }.

Record BackendsState : Type := mkBackendsState { bk_spot : BackendInfo; bk_perpetual : option BackendInfo }.

Record StateResponse : Type := mkStateResponse {
  sr_product : Product;
  sr_backend : BackendInfo;
  sr_backends : BackendsState;
  sr_state : EngineState;
}.

Definition backend_info (be : EngineBackend) : BackendInfo :=
  mkBackendInfo (be_product be) (be_engine_id be) (be_http_addr be).

(** ** Requests and answers *)

Inductive DeskRequest : Type :=
| GetBackends
| GetState (product : option Product) (depth : option Z)
| GetBook (product : option Product) (limit : option Z)
| GetEvents (product : option Product) (after_log_index after_ordinal : option Z) (limit : option nat)
| PostPlace (headers : ActionHeaders) (ticket : PlaceTicket)
| PostFreeze (headers : ActionHeaders) (ticket : PlaceTicket)
| PostCancel (headers : ActionHeaders) (ticket : CancelTicket)
| PostAmend (headers : ActionHeaders) (ticket : AmendTicket)
| PostSymbol (headers : ActionHeaders) (product : option Product) (config : SymbolConfig).

Inductive DeskBody : Type :=
| BodyBackends (backends : BackendsState)
| BodyState (state : StateResponse)
| BodyBook (book : FullBookResponse)
| BodyEvents (page : EventsPage)
| BodyResult (result : OrderResult)
| BodyPreview (preview : FreezePreview).

(** [Product::default]. *)
Definition product_or_default (product : option Product) : Product := default Spot product.

(** The cursor of an event page: both parts or neither. *)
Definition events_after (after_log_index after_ordinal : option Z) : Result (option EventId) ApiError :=
  match after_log_index, after_ordinal with
  | None, None => Ok None
  | Some log_index, Some ordinal => Ok (Some (mkEventId log_index ordinal))
  | _, _ => Err (bad_request MsgCursorPair)
  end.

Definition events_limit (limit : option nat) : Result nat ApiError :=
  let limit := default Desk.DEFAULT_EVENTS_LIMIT limit in
  if bool_decide (1 <= limit <= MAX_EVENTS_PAGE)%nat then Ok limit else Err (bad_request MsgEventsLimit).

Section Server.
Context `{I256Ops} {W : Type} `{EngineClient W}.

Definition backends (app : DemoApp (W := W)) : BackendsState :=
  mkBackendsState (backend_info (app_spot app).1) ((fun st => backend_info st.1) <$> app_perpetual app).

Definition app_state (product : Product) (depth : Z) (app : DemoApp (W := W))
    : Result StateResponse ApiError * DemoApp :=
  match backend app product with
  | Err e => (Err e, app)
  | Ok st =>
      let '(res, app') := on_backend product (desk_state depth) app in
      (match res with
       | Ok state => Ok (mkStateResponse product (backend_info st.1) (backends app) state)
       | Err e => Err e
       end, app')
  end.

(** A result as the body of an answer. *)
Definition answer_with {A} (body : A -> DeskBody) (r : Result A ApiError * DemoApp (W := W))
    : Result DeskBody ApiError * DemoApp :=
  (match r.1 with Ok a => Ok (body a) | Err e => Err e end, r.2).

(** An action behind its header check. *)
Definition guarded (headers : ActionHeaders)
    (act : DemoApp (W := W) -> Result DeskBody ApiError * DemoApp) (app : DemoApp)
    : Result DeskBody ApiError * DemoApp :=
  if negb (action_headers_ok headers) then (Err (bad_request MsgHeaders), app) else act app.

Definition serve (request : DeskRequest) (app : DemoApp (W := W)) : Result DeskBody ApiError * DemoApp :=
  match request with
  | GetBackends => (Ok (BodyBackends (backends app)), app)
  | GetState product depth => answer_with BodyState (app_state (product_or_default product) (default 20 depth) app)
  | GetBook product limit =>
      let limit := default USIZE_MAX limit in
      if limit =? 0 then (Err (bad_request MsgBookLimit), app)
      else answer_with BodyBook (app_book (product_or_default product) limit app)
  | GetEvents product after_log_index after_ordinal limit =>
      match events_after after_log_index after_ordinal with
      | Err e => (Err e, app)
      | Ok after =>
          match events_limit limit with
          | Err e => (Err e, app)
          | Ok limit => answer_with BodyEvents (app_events (product_or_default product) after limit app)
          end
      end
  | PostPlace headers ticket => guarded headers (fun app => answer_with BodyResult (app_place ticket app)) app
  | PostFreeze headers ticket => guarded headers (fun app => answer_with BodyPreview (app_preview_freeze ticket app)) app
  | PostCancel headers ticket => guarded headers (fun app => answer_with BodyResult (app_cancel ticket app)) app
  | PostAmend headers ticket => guarded headers (fun app => answer_with BodyResult (app_amend ticket app)) app
  | PostSymbol headers product config =>
      guarded headers (fun app => answer_with BodyResult (app_configure_symbol (product_or_default product) config app)) app
  end.

(** [api_error]: the status of an answer. *)
Definition answer_status (r : Result DeskBody ApiError) : Z := match r with Ok _ => 200 | Err e => ae_status e end.

(** *** Theorems *)

Implicit Types (app : DemoApp (W := W)) (st : EngineBackend * W).

Definition request_headers (request : DeskRequest) : option ActionHeaders :=
  match request with
  | PostPlace headers _ | PostFreeze headers _ | PostCancel headers _ | PostAmend headers _
  | PostSymbol headers _ _ => Some headers
  | _ => None
  end.

(** An action without the header, or from another origin, is answered with 400 and reaches neither the
    ledger nor the engine. *)
Theorem forged_action_untouched request headers app :
  request_headers request = Some headers ->
  ah_action headers = false \/
    (exists origin, ah_origin headers = Some (Some origin) /\ origin_host origin <> ah_host headers) ->
  answer_status (serve request app).1 = 400 /\ (serve request app).2 = app.
Proof.
  intros Hr Hbad. assert (Hok : action_headers_ok headers = false).
  { unfold action_headers_ok. destruct Hbad as [->|(origin & -> & Hne)]; [done|].
    destruct (ah_action headers); [|done]. by apply bool_decide_eq_false_2. }
  destruct request; try discriminate; injection Hr as ->; cbn [serve]; unfold guarded; by rewrite Hok.
Qed.

(** What a property [P] of the engine's world survives. *)
Definition preserves (P : W -> Prop) {A} (m : Act (W := W) A) : Prop := forall st, P st.2 -> P (m st).2.2.

Definition reads_preserve (P : W -> Prop) : Prop :=
  (forall key w, P w -> P (client_read key w).2) /\ (forall req w, P w -> P (client_events req w).2) /\
  (forall w, P w -> P (client_events_status w).2) /\ (forall w, P w -> P (client_metrics w).2).

Definition app_worlds (P : W -> Prop) app : Prop :=
  P (app_spot app).2 /\ match app_perpetual app with Some st => P st.2 | None => True end.

Section Reads.
Context (P : W -> Prop) (HP : reads_preserve P).

Lemma preserves_bind {A B} (m : Act A) (f : A -> Act B) :
  preserves P m -> (forall a, preserves P (f a)) -> preserves P (act_bind m f).
Proof.
  intros Hm Hf st Hst. unfold act_bind. specialize (Hm st Hst). destruct (m st) as [[a|e] st1]; [|done]. by apply Hf.
Qed.

Lemma preserves_ret {A} (a : A) : preserves P (act_ret a). Proof. by intros st. Qed.
Lemma preserves_fail {A} e : preserves P (@act_fail W A e). Proof. by intros st. Qed.
Lemma preserves_lift {A} (r : Result A ApiError) : preserves P (lift r). Proof. by intros st. Qed.
Lemma preserves_product : preserves P product_of. Proof. by intros st. Qed.
Lemma preserves_entries orders symbol : preserves P (desk_orders_act orders symbol). Proof. by intros st. Qed.
Lemma preserves_node metrics : preserves P (node_state_act metrics). Proof. by intros st. Qed.

Lemma preserves_call {A} (f : W -> Result A ClientError * W) : (forall w, P w -> P (f w).2) -> preserves P (call f).
Proof. intros Hf st Hst. unfold call. specialize (Hf _ Hst). by destruct (f st.2). Qed.

Lemma preserves_read key : preserves P (read_state key).
Proof. apply preserves_call. intros w. apply HP. Qed.
Lemma preserves_market_data : preserves P read_market_data.
Proof.
  intros st Hst. pose proof (preserves_read (lit "marketdata_status") st Hst) as E. unfold read_market_data.
  unfold read_state in *. by destruct (call _ st).
Qed.
Lemma preserves_events req : preserves P (call (client_events req)).
Proof. apply preserves_call. intros w. apply HP. Qed.
Lemma preserves_status : preserves P (call client_events_status).
Proof. apply preserves_call. intros w. apply HP. Qed.
Lemma preserves_metrics : preserves P (call client_metrics).
Proof. apply preserves_call. intros w. apply HP. Qed.

#[local] Hint Resolve preserves_ret preserves_fail preserves_lift preserves_product preserves_entries
  preserves_node preserves_read preserves_market_data preserves_events preserves_status preserves_metrics : desk_reads.

#[local] Ltac solve_preserves :=
  repeat first
    [ progress intros
    | progress cbv zeta
    | solve [eauto 2 with desk_reads]
    | apply preserves_bind
    | match goal with |- preserves _ (match ?x with _ => _ end) => destruct x end ].

Lemma preserves_symbol_config : preserves P read_symbol_config.
Proof. unfold read_symbol_config. solve_preserves. Qed.
Lemma preserves_orders key : preserves P (read_orders key).
Proof. unfold read_orders. solve_preserves. Qed.
Lemma preserves_number max key : preserves P (read_number max key).
Proof. unfold read_number. solve_preserves. Qed.
Lemma preserves_optional_fixed key : preserves P (read_optional_fixed key).
Proof. unfold read_optional_fixed. solve_preserves. Qed.

#[local] Hint Resolve preserves_symbol_config preserves_orders preserves_number preserves_optional_fixed : desk_reads.

Lemma preserves_state depth : preserves P (desk_state depth).
Proof. unfold desk_state, desk_sequence. solve_preserves. Qed.
Lemma preserves_book limit : preserves P (desk_book limit).
Proof. unfold desk_book, desk_sequence. solve_preserves. Qed.
Lemma preserves_page after limit : preserves P (desk_events after limit).
Proof. unfold desk_events. solve_preserves. Qed.
Lemma preserves_preview ticket : preserves P (preview_freeze ticket).
Proof. unfold preview_freeze. solve_preserves. Qed.

Lemma on_backend_preserves {A} product (act : Act A) app :
  preserves P act -> app_worlds P app -> app_worlds P (on_backend product act app).2.
Proof.
  intros Ha [Hs Hp]. unfold on_backend, backend. destruct product.
  - specialize (Ha _ Hs). destruct (act (app_spot app)) as [res st]. by split.
  - destruct (app_perpetual app) as [st0|] eqn:E; [|split; cbn; [done|by rewrite E]].
    specialize (Ha _ Hp). destruct (act st0) as [res st]. by split.
Qed.
End Reads.

(** A request that only looks (every GET, and a freeze preview) writes nothing to an engine: whatever the
    desk's reads preserve of the engines' worlds, it preserves. *)
Theorem looking_never_writes (P : W -> Prop) request app :
  reads_preserve P ->
  match request with
  | GetBackends | GetState _ _ | GetBook _ _ | GetEvents _ _ _ _ | PostFreeze _ _ => True
  | _ => False
  end ->
  app_worlds P app -> app_worlds P (serve request app).2.
Proof.
  intros HP Hr Happ.
  destruct request as [|product depth|product limit|product after ordinal limit| |headers ticket| | |];
    try done; cbn [serve answer_with snd].
  - unfold app_state. destruct (backend app _); [|done].
    pose proof (on_backend_preserves P (product_or_default product) _ app (preserves_state P HP (default 20 depth)) Happ) as Ho.
    by destruct (on_backend _ _ _).
  - destruct (_ =? 0); [done|]. apply on_backend_preserves; [by apply preserves_book|done].
  - destruct (events_after _ _); [|done]. destruct (events_limit _); [|done].
    apply on_backend_preserves; [by apply preserves_page|done].
  - unfold guarded. destruct (negb _); [done|]. apply on_backend_preserves; [by apply preserves_preview|done].
Qed.

(** A malformed query of the event log asks the engine nothing. *)
Theorem bad_event_query_refused product after_log_index after_ordinal limit app :
  (after_log_index = None <-> after_ordinal = None) /\
    (match limit with Some limit => (1 <= limit <= MAX_EVENTS_PAGE)%nat | None => True end) \/
  answer_status (serve (GetEvents product after_log_index after_ordinal limit) app).1 = 400 /\
    (serve (GetEvents product after_log_index after_ordinal limit) app).2 = app.
Proof.
  cbn [serve]. unfold events_after, events_limit.
  destruct after_log_index, after_ordinal; try (by right).
  all: case_bool_decide as Hl; [|by right].
  all: left; split; [done|]; by destruct limit.
Qed.
End Server.
