(* ===== verification/Calls.v ===== *)
(** * Calls between nodes ([src/src/network/grpc/client.rs], [src/src/network/grpc/server.rs])

    The unary calls of the Raft transport from one node's openraft to the other's, and the server of the
    pipelined append stream with the reader of its answers. postcard and openraft's handling of a request
    are parameters, as is the check tonic makes of an endpoint; the four unary calls (append_entries,
    vote, pre_vote, transfer_leader) are instances of one. *)

From stdpp Require Import list.
From S2P Require Import Prelude Fixed Transport.

(** ** The connection *)

(** The peer's address behind its channel; [None] is a configuration error. *)
Record GrpcNetwork : Type := mkGrpcNetwork { gn_channel : option str }.

Section Connection.
(** [Endpoint::from_shared]. *)
Variable endpoint_ok : str -> bool.

Definition make_channel (addr : str) : option str := if endpoint_ok addr then Some addr else None.

Definition GrpcNetwork_new (api_addr : str) : GrpcNetwork :=
  mkGrpcNetwork (match raft_addr_from_http api_addr with Ok addr => make_channel addr | Err _ => None end).
End Connection.

Definition grpc_client (net : GrpcNetwork) : Result str TransportError :=
  match gn_channel net with Some addr => Ok addr | None => Err RpcUnreachable end.

(** ** Unary calls *)

(** What the wait for an answer ends with. *)
Inductive UnaryWait : Type := WaitElapsed | WaitStatus (code : Code) | WaitReply (payload : str).

Definition unary (wait : UnaryWait) : Result str TransportError :=
  match wait with
  | WaitElapsed => Err RpcTimeout
  | WaitStatus code => Err (map_status code)
  | WaitReply payload => Ok payload
  end.

Section Unary.
Context {Request Response Failure W : Type}.
Variable encode_request : Request -> option str.
Variable decode_request : str -> option Request.
Variable encode_reply : Result Response Failure -> option str.
Variable decode_reply : str -> option (Result Response Failure).
(** openraft of the peer, over the state of its node. *)
Variable raft_call : Request -> W -> Result Response Failure * W.

(** The server's side. *)
Definition serve_unary (payload : str) (w : W) : Result str Code * W :=
  match decode_request payload with
  | None => (Err CodeInvalidArgument, w)
  | Some request =>
      let '(result, w) := raft_call request w in
      (match encode_reply result with Some payload => Ok payload | None => Err CodeInternal end, w)
  end.

(** The client's side, over one exchange with the peer. *)
Definition call_unary (net : GrpcNetwork) (exchange : str -> str -> W -> UnaryWait * W) (request : Request) (w : W)
    : Result Response TransportError * W :=
  match encode_request request with
  | None => (Err (RpcNetwork None), w)
  | Some payload =>
      match grpc_client net with
      | Err e => (Err e, w)
      | Ok addr =>
          let '(wait, w) := exchange addr payload w in
          (match unary wait with
           | Err e => Err e
           | Ok payload =>
               match decode_reply payload with
               | Some (Ok response) => Ok response
               | Some (Err _) | None => Err (RpcNetwork None)
               end
           end, w)
      end
  end.

(** What may become of an exchange: lost before the peer reads it, or behind its answer. *)
Inductive CallFate : Type := CallLost (code : option Code) | AnswerLost (code : option Code) | Answered.

Definition lost_wait (code : option Code) : UnaryWait :=
  match code with Some code => WaitStatus code | None => WaitElapsed end.

Definition exchange_with (fate : CallFate) (addr payload : str) (w : W) : UnaryWait * W :=
  match fate with
  | CallLost code => (lost_wait code, w)
  | AnswerLost code => (lost_wait code, (serve_unary payload w).2)
  | Answered =>
      let '(r, w) := serve_unary payload w in
      (match r with Ok payload => WaitReply payload | Err code => WaitStatus code end, w)
  end.

(** A call is executed at most once, whatever becomes of it, and only if it was sent to a valid address;
    a response is the peer's own answer to this very request. *)
Theorem unary_executes_once net fate request w
    (Hreq : forall r payload, encode_request r = Some payload -> decode_request payload = Some r)
    (Hrep : forall r payload, encode_reply r = Some payload -> decode_reply payload = Some r) :
  let '(r, w') := call_unary net (exchange_with fate) request w in
  (w' = w \/ w' = (raft_call request w).2) /\
  (gn_channel net = None -> w' = w) /\
  (forall response, r = Ok response -> raft_call request w = (Ok response, w')).
Proof.
  unfold call_unary. destruct (encode_request request) as [payload|] eqn:Ep; [|by split; [left|split]].
  unfold grpc_client. destruct (gn_channel net) as [addr|]; [|by split; [left|split]].
  assert (Es : serve_unary payload w = (match encode_reply (raft_call request w).1 with
                                         | Some payload => Ok payload | None => Err CodeInternal end, (raft_call request w).2)).
  { unfold serve_unary. rewrite (Hreq _ _ Ep). by destruct (raft_call request w). }
  assert (Hlost : forall code w', match unary (lost_wait code) with
      | Err e => Err e | Ok payload => match decode_reply payload with
          | Some (Ok response) => Ok response | Some (Err _) | None => Err (RpcNetwork None) end end
      <> Ok w') by (by intros [code|] w').
  destruct fate as [code|code|]; cbn [exchange_with].
  - split; [by left|]. split; [done|]. by intros response E%Hlost.
  - rewrite Es. split; [by right|]. split; [done|]. by intros response E%Hlost.
  - rewrite Es. split; [by right|]. split; [done|]. intros response.
    destruct (raft_call request w) as [res w1]. cbn [fst snd].
    destruct (encode_reply res) as [reply|] eqn:Er; cbn [unary]; [|by destruct (map_status _)].
    rewrite (Hrep _ _ Er). destruct res; [by intros [= ->]|done].
Qed.
End Unary.

(** ** The server of the append stream *)

Section Append.
Context {Request Reply Fatal : Type}.
Variable encode_request : Request -> option str.
Variable decode_request : str -> option Request.
Variable encode_reply : Reply -> option str.
Variable decode_reply : str -> option Reply.
(** [Raft::stream_append]: its results, and whether it read its requests to their end. *)
Variable raft_stream : list Request -> list (Result Reply Fatal) * bool.

(** The requests in a stream of messages and statuses, and whether it ends with an error. *)
Fixpoint append_requests (inbound : list (Result str Code)) : list Request * bool :=
  match inbound with
  | [] => ([], false)
  | Err _ :: _ => ([], true)
  | Ok payload :: inbound =>
      match decode_request payload with
      | None => ([], true)
      | Some request => let '(requests, error) := append_requests inbound in (request :: requests, error)
      end
  end.

Fixpoint append_answers (results : list (Result Reply Fatal)) (error : bool) : list (Result str Code) :=
  match results with
  | [] => if error then [Err CodeInvalidArgument] else []
  | Err _ :: _ => [Err CodeInternal]
  | Ok reply :: results =>
      match encode_reply reply with
      | Some payload => Ok payload :: append_answers results error
      | None => [Err CodeInternal]
      end
  end.

Definition append_stream (inbound : list (Result str Code)) : list (Result str Code) :=
  let '(requests, error) := append_requests inbound in
  let '(results, read_all) := raft_stream requests in
  append_answers results (error && read_all).

(** What the client's reader yields of the answers. *)
Fixpoint read_answers (answers : list (Result str Code)) : list (Result Reply TransportError) :=
  match answers with
  | [] => []
  | Err code :: _ => [Err (map_status code)]
  | Ok payload :: answers =>
      match decode_reply payload with
      | Some reply => Ok reply :: read_answers answers
      | None => [Err (RpcNetwork None)]
      end
  end.

Context (Hreq : forall r payload, encode_request r = Some payload -> decode_request payload = Some r).
Context (Hrep : forall r payload, encode_reply r = Some payload -> decode_reply payload = Some r).

Lemma append_requests_app requests : forall payloads rest,
  Forall2 (fun r payload => encode_request r = Some payload) requests payloads ->
  append_requests ((Ok <$> payloads) ++ rest) =
  (requests ++ (append_requests rest).1, (append_requests rest).2).
Proof.
  induction requests as [|r requests IH]; intros payloads rest Hf; inversion Hf as [|? p ? ps Hr Hrs]; subst.
  - cbn. by destruct (append_requests rest).
  - rewrite fmap_cons. cbn [app append_requests]. rewrite (Hreq _ _ Hr). by rewrite (IH ps rest Hrs).
Qed.

Lemma read_append_answers replies : forall rest error,
  Forall (fun reply => is_Some (encode_reply reply)) replies ->
  read_answers (append_answers ((Ok <$> replies) ++ rest) error) =
  (Ok <$> replies) ++ read_answers (append_answers rest error).
Proof.
  induction replies as [|reply replies IH]; intros rest error Hf; [done|].
  apply Forall_cons in Hf as [[payload Hp] Hf]. cbn. rewrite Hp. cbn. rewrite (Hrep _ _ Hp). f_equal. by apply IH.
Qed.

(** Nothing the follower answered is lost to a bad message: requests, then whatever, reach openraft as
    the requests, and its answers reach the leader in order; only behind them does the stream end, with the
    error if openraft got that far. *)
Theorem append_stream_answers requests payloads rest replies read_all :
  Forall2 (fun r payload => encode_request r = Some payload) requests payloads ->
  Forall (fun reply => is_Some (encode_reply reply)) replies ->
  (append_requests rest).1 = [] -> raft_stream requests = (Ok <$> replies, read_all) ->
  read_answers (append_stream ((Ok <$> payloads) ++ rest)) =
  (Ok <$> replies) ++
    (if (append_requests rest).2 && read_all then [Err (RpcNetwork (Some CodeInvalidArgument))] else []).
Proof.
  intros Hr Hp Hrest Hs. unfold append_stream. rewrite (append_requests_app _ _ _ Hr), Hrest, app_nil_r, Hs.
  pose proof (read_append_answers replies [] ((append_requests rest).2 && read_all) Hp) as E. rewrite app_nil_r in E.
  rewrite E. f_equal. cbn. by destruct (_ && _).
Qed.

(** A fatal error of the follower's Raft core ends the stream behind the answers before it. *)
Theorem append_stream_fatal requests payloads replies later read_all e :
  Forall2 (fun r payload => encode_request r = Some payload) requests payloads ->
  Forall (fun reply => is_Some (encode_reply reply)) replies ->
  raft_stream requests = ((Ok <$> replies) ++ Err e :: later, read_all) ->
  read_answers (append_stream (Ok <$> payloads)) = (Ok <$> replies) ++ [Err (RpcNetwork (Some CodeInternal))].
Proof.
  intros Hr Hp Hs. unfold append_stream. pose proof (append_requests_app _ _ [] Hr) as E. rewrite !app_nil_r in E.
  rewrite E, Hs. by rewrite read_append_answers.
Qed.
End Append.
