(* ===== verification/AeronPub.v ===== *)
(** * The engine's Aeron publisher ([src/src/market_data/aeron.rs])

    The sink's queue, the thread behind it with one publication per stream, and its bounded retries.
    Aeron is third-party: whether a publication can be added and what every offer meets are inputs of a
    turn, and what it accepts on a stream is what its subscribers read. The driver's start is not modelled. *)

From stdpp Require Import list gmap.
From S2P Require Import Prelude Fixed Order OrderBook MatchEvent MarketMessage Wire WireSpec MdProtocol MdFeed MdSource MdSourceSpec Sinks.

Definition PUBLISH_QUEUE : nat := 8192.
Definition OFFER_TRIES : nat := 1000.

(** The queue, whether the thread has stopped, the streams with a publication, and what Aeron accepted,
    in order. *)
Record AeronSink : Type := mkAeronSink {
  ak_queue : list (Z * list Z);
  ak_stopped : bool;
  ak_publications : gset Z;
  ak_accepted : list (Z * list Z);
}.

Definition AeronSink_new : AeronSink := mkAeronSink [] false ∅ [].

(** [AeronSink::publish]; an unknown stream or one past the last id is an error too. *)
Definition aeron_publish (stream_base : Z) (message : MarketMessage) (sink : AeronSink)
    : AeronSink * Result unit SinkError :=
  match aeron_stream stream_base (mm_stream message) with
  | None => (sink, Err SinkIo)
  | Some stream =>
      if ak_stopped sink then (sink, Err SinkBrokenPipe)
      else if bool_decide (PUBLISH_QUEUE <= length (ak_queue sink))%nat then (sink, Err SinkWouldBlock)
      else (mkAeronSink (ak_queue sink ++ [(stream, encode message)]) false (ak_publications sink) (ak_accepted sink),
            Ok ())
  end.

(** What [offer] meets. *)
Inductive Offer : Type := Offered | OfferRetryable | OfferFailed.

(** The bounded retry; [offers] answers the attempts from [attempt] on. *)
Fixpoint offer_loop (tries attempt : nat) (offers : nat -> Offer) : bool :=
  match tries with
  | O => false
  | S tries =>
      match offers attempt with
      | Offered => true
      | OfferRetryable => offer_loop tries (S attempt) offers
      | OfferFailed => false
      end
  end.

(** One turn of the thread: it adds a missing publication ([added]: it can), and drops the frame if the
    publication or the offer fails. *)
Definition publisher_turn (added : bool) (offers : nat -> Offer) (sink : AeronSink) : AeronSink :=
  match ak_queue sink with
  | [] => sink
  | (stream, payload) :: queue =>
      if negb (bool_decide (stream ∈ ak_publications sink)) && negb added
      then mkAeronSink queue (ak_stopped sink) (ak_publications sink) (ak_accepted sink)
      else
        mkAeronSink queue (ak_stopped sink) ({[stream]} ∪ ak_publications sink)
          (if offer_loop OFFER_TRIES 0 offers then ak_accepted sink ++ [(stream, payload)] else ak_accepted sink)
  end.

Inductive PublishEvent : Type := PublishMessage (message : MarketMessage) | PublishTurn (added : bool) (offers : nat -> Offer).

Definition publish_event (stream_base : Z) (e : PublishEvent) (sink : AeronSink) : AeronSink :=
  match e with
  | PublishMessage message => (aeron_publish stream_base message sink).1
  | PublishTurn added offers => publisher_turn added offers sink
  end.

Definition publish_run (stream_base : Z) (events : list PublishEvent) (sink : AeronSink) : AeronSink :=
  foldl (fun sink e => publish_event stream_base e sink) sink events.

(** ** Theorems *)

(** The messages published on a stream, in order; the frames of a stream among those of all. *)
Definition messages_of (stream_base stream : Z) (events : list PublishEvent) : list MarketMessage :=
  omap (fun e => match e with
                 | PublishMessage m => if decide (aeron_stream stream_base (mm_stream m) = Some stream) then Some m else None
                 | PublishTurn _ _ => None
                 end) events.

Definition frames_on (stream : Z) (frames : list (Z * list Z)) : list (list Z) :=
  (filter (fun f => f.1 = stream) frames).*2.

Lemma frames_on_app stream a b : frames_on stream (a ++ b) = frames_on stream a ++ frames_on stream b.
Proof. unfold frames_on. by rewrite filter_app, fmap_app. Qed.

Lemma messages_of_snoc stream_base stream events e :
  messages_of stream_base stream (events ++ [e]) = messages_of stream_base stream events ++ messages_of stream_base stream [e].
Proof. unfold messages_of. by rewrite omap_app. Qed.

Lemma frames_on_one stream f : frames_on stream [f] = if decide (f.1 = stream) then [f.2] else [].
Proof. unfold frames_on. rewrite filter_cons. by destruct (decide (f.1 = stream)). Qed.

(** The publisher never reorders and never repeats: whatever is added or offered when, the frames Aeron
    accepts on a stream, followed by those still queued, are frames published on it, in their order. *)
Theorem publisher_keeps_stream_order stream_base stream events :
  let sink := publish_run stream_base events AeronSink_new in
  frames_on stream (ak_accepted sink) ++ frames_on stream (ak_queue sink) `sublist_of`
  (encode <$> messages_of stream_base stream events).
Proof.
  cbv zeta. induction events as [|e events IH] using rev_ind; [done|].
  unfold publish_run. rewrite foldl_app, messages_of_snoc, fmap_app. fold (publish_run stream_base events AeronSink_new).
  set (sink := publish_run stream_base events AeronSink_new) in *. cbn [foldl publish_event].
  destruct e as [m|added offers]; cbn [publish_event].
  - unfold aeron_publish. unfold messages_of at 2. cbn [omap list_omap].
    destruct (aeron_stream stream_base (mm_stream m)) as [id|] eqn:E; cbn [fst]; [|by apply sublist_inserts_r].
    destruct (ak_stopped sink); [by apply sublist_inserts_r|]. case_bool_decide; [by apply sublist_inserts_r|].
    cbn [fst ak_queue ak_accepted]. rewrite frames_on_app, app_assoc. apply sublist_app; [done|].
    rewrite frames_on_one. cbn. destruct (decide (id = stream)) as [->|Hne].
    + by rewrite decide_True.
    + by rewrite decide_False by congruence.
  - rewrite app_nil_r. unfold publisher_turn. destruct (ak_queue sink) as [|[id payload] queue] eqn:Eq; [by rewrite Eq|].
    change ((id, payload) :: queue) with ([(id, payload)] ++ queue) in IH. rewrite frames_on_app in IH.
    assert (Hdrop : frames_on stream (ak_accepted sink) ++ frames_on stream queue `sublist_of`
                    (encode <$> messages_of stream_base stream events)).
    { etrans; [|exact IH]. apply sublist_app; [done|]. by apply sublist_inserts_l. }
    destruct (negb _ && _); [done|]. cbn [ak_queue ak_accepted]. destruct (offer_loop _ _ _); [|done].
    by rewrite frames_on_app, <- app_assoc.
Qed.

Lemma sublist_of_fmap {A B} (f : A -> B) l : forall k,
  l `sublist_of` f <$> k -> exists l', l = f <$> l' /\ l' `sublist_of` k.
Proof.
  induction l as [|x l IH]; intros k Hs; [exists []; split; [done|apply sublist_nil_l]|].
  apply sublist_cons_l in Hs as (k1 & k2 & Ek & Hs). apply fmap_app_inv in Ek as (a & b & Ea & Eb & ->).
  symmetry in Eb. apply fmap_cons_inv in Eb as (y & b' & -> & -> & ->). apply IH in Hs as (l' & -> & Hl).
  exists (y :: l'). split; [done|]. apply sublist_inserts_l. by apply sublist_skip.
Qed.

(** What reaches the service is what the processor published: for well-typed messages of bounded size,
    every item the source hands on for a stream is the view of a message published on that stream, and they
    come in the order they were published. *)
Theorem feed_delivers_in_order stream_base stream events (arrive : list AeronEvent) (offset : nat) :
  Forall event_ok arrive -> (offset < STREAM_COUNT)%nat ->
  arrivals offset arrive = frames_on stream (ak_accepted (publish_run stream_base events AeronSink_new)) ->
  Forall (fun e => match e with
                   | PublishMessage m => message_typed m /\ Z.of_nat (length (encode_body (mm_body m))) < 2 ^ 32
                   | PublishTurn _ _ => True
                   end) events ->
  exists delivered,
    items_of offset (ae_items (aeron_run arrive AeronSource_new)) = (fun m => Ok (message_view m)) <$> delivered /\
    delivered `sublist_of` messages_of stream_base stream events.
Proof.
  intros Hok Ho Ha Ht. pose proof (aeron_keeps_stream_order arrive offset Hok Ho) as Hs. cbv zeta in Hs.
  rewrite Ha in Hs. pose proof (publisher_keeps_stream_order stream_base stream events) as Hp. cbv zeta in Hp.
  set (sink := publish_run _ _ _) in *. set (sent := messages_of stream_base stream events) in *.
  assert (Hsent : Forall (fun m => decode (encode m) = Ok (message_view m)) sent).
  { apply Forall_forall. intros m (e & He & Hm)%list_elem_of_omap. pose proof (proj1 (Forall_forall _ _) Ht e He) as Hmt.
    destruct e as [m'|]; [|done]. destruct (decide _); [|done]. injection Hm as ->. destruct Hmt as [Hm1 Hm2]. by apply decode_encode. }
  set (items := items_of offset _) in *. set (rest := decode <$> queue_of _ offset) in *.
  assert (Hsub : items `sublist_of` decode <$> (encode <$> sent)).
  { etrans; [by apply (sublist_inserts_r rest)|]. rewrite Hs. apply fmap_sublist.
    etrans; [by apply (sublist_inserts_r (frames_on stream (ak_queue sink)))|exact Hp]. }
  rewrite <- list_fmap_compose in Hsub.
  assert (Hmap : (decode ∘ encode) <$> sent = (fun m => Ok (message_view m)) <$> sent).
  { clear -Hsent. induction Hsent as [|m l Hm Hl IH]; [done|]. rewrite !fmap_cons, IH. unfold compose at 1. by rewrite Hm. }
  rewrite Hmap in Hsub. by apply sublist_of_fmap in Hsub.
Qed.

(** A stalled publication loses messages without a trace. The thread gives an offer up after its bounded
    retries, or a publication that cannot be added, and drops the frame, after [publish] has answered [Ok]:
    the processor behind the sink cannot know, sets no gap and goes on with the next message. *)
Theorem stall_drops_silently stream_base m1 m2 m3 id :
  aeron_stream stream_base (mm_stream m1) = Some id -> aeron_stream stream_base (mm_stream m2) = Some id ->
  aeron_stream stream_base (mm_stream m3) = Some id ->
  let '(sink1, r1) := aeron_publish stream_base m1 AeronSink_new in
  let '(sink2, r2) := aeron_publish stream_base m2 sink1 in
  let '(sink3, r3) := aeron_publish stream_base m3 sink2 in
  r1 = Ok () /\ r2 = Ok () /\ r3 = Ok () /\
  ak_accepted (publisher_turn true (fun _ => Offered) (publisher_turn true (fun _ => OfferRetryable)
                 (publisher_turn true (fun _ => Offered) sink3))) = [(id, encode m1); (id, encode m3)].
Proof.
  intros E1 E2 E3. assert (Hcap : forall l : list (Z * list Z), (length l < 3)%nat ->
    bool_decide (PUBLISH_QUEUE <= length l)%nat = false).
  { intros l Hl. apply bool_decide_eq_false_2. assert (3 <= PUBLISH_QUEUE)%nat by (by apply Nat.leb_le). lia. }
  unfold aeron_publish. rewrite E1. cbn [ak_stopped AeronSink_new ak_queue app]. rewrite Hcap by (cbn; lia).
  rewrite E2. cbn [ak_stopped ak_queue app]. rewrite Hcap by (cbn; lia).
  rewrite E3. cbn [ak_stopped ak_queue app]. rewrite Hcap by (cbn; lia).
  do 3 (split; [done|]). unfold publisher_turn. cbn [ak_queue app]. rewrite !andb_false_r. cbn [ak_queue].
  rewrite !andb_false_r. cbn [ak_queue]. rewrite !andb_false_r. cbn [ak_accepted].
  assert (Hyes : forall n, (0 < n)%nat -> offer_loop n 0 (fun _ => Offered) = true) by (by intros [|n] Hn; [lia|]).
  assert (Hno : forall n k, offer_loop n k (fun _ => OfferRetryable) = false) by (intros n; induction n as [|n IH]; intros k; [done|apply IH]).
  assert (0 < OFFER_TRIES)%nat by (by apply Nat.ltb_lt). by rewrite Hno, Hyes.
Qed.
