(* ===== verification/Reads.v ===== *)
(** * Reads ([src/src/network/api.rs], [src/src/network/management.rs])

    The three read handlers and the one that serves a follower its linearizer. openraft's part is what
    they are told: whether a linearizer is given out, and whether the wait for the local state machine
    ended well. [Cluster] is what they run in: the committed log, every node's replica, and snapshots. *)

From stdpp Require Import list gmap strings.
From S2P Require Import Prelude Fixed Order OrderBook MatchEvent StateMachine Api.

Section Reads.
Context `{RaftTypes} `{I256Ops}.
Implicit Types s : StateMachineStoreInner.

(** ** Handlers *)

Record LinearizerData : Type := mkLinearizer {
  lz_node_id : Z;
  lz_read_log_id : LogId;
  lz_applied : option LogId;
}.

(** What [get_read_linearizer] comes to: a fatal error, a refusal (not the leader, no quorum), or a
    linearizer. *)
Inductive LinearizerAnswer : Type := LinearizerFatal | LinearizerRefused | LinearizerGot (l : LinearizerData).

(** A failed request: a bad key, or status 500. *)
Inductive ReadFailure : Type := ReadBadKey (e : EdgeError) | ReadInternal.

(** The local read. *)
Definition read (key : string) s : Result ReadState ReadFailure :=
  match validate_read_key key with Err e => Err (ReadBadKey e) | Ok _ => Ok (read_state_owned (lit key) s) end.

(** [await_ready] stands for its outcome on this node. *)
Definition linearizable_read (await_ready : LinearizerData -> bool) (setup : LinearizerAnswer) (key : string) s
    : Result (Result ReadState unit) ReadFailure :=
  match validate_read_key key with
  | Err e => Err (ReadBadKey e)
  | Ok _ =>
      match setup with
      | LinearizerFatal => Err ReadInternal
      | LinearizerRefused => Ok (Err ())
      | LinearizerGot l => if await_ready l then Ok (Ok (read_state_owned (lit key) s)) else Err ReadInternal
      end
  end.

(** [/get_linearizer] on the leader. *)
Definition get_linearizer (setup : LinearizerAnswer) : Result (Result LinearizerData unit) ReadFailure :=
  match setup with
  | LinearizerFatal => Err ReadInternal
  | LinearizerRefused => Ok (Err ())
  | LinearizerGot l => Ok (Ok l)
  end.

Inductive FollowerReadErrorKind : Type :=
| NoLeader | LeaderNotInMembership | LeaderUnreachable | LeaderRejected | StateMachineBehind.

(** [fetch] posts to an address: [None] if nothing comes back, else what the leader answered; an error
    status does not parse. *)
Definition follower_read (await_ready : LinearizerData -> bool) (leader : option Z) (get_node : Z -> option str)
    (fetch : str -> option (Result (Result LinearizerData unit) ReadFailure)) (key : string) s
    : Result (Result ReadState FollowerReadErrorKind) ReadFailure :=
  match validate_read_key key with
  | Err e => Err (ReadBadKey e)
  | Ok _ =>
      match leader with
      | None => Ok (Err NoLeader)
      | Some leader_id =>
          match get_node leader_id with
          | None => Ok (Err LeaderNotInMembership)
          | Some addr =>
              match fetch addr with
              | None => Ok (Err LeaderUnreachable)
              | Some (Err _) | Some (Ok (Err _)) => Ok (Err LeaderRejected)
              | Some (Ok (Ok l)) =>
                  if await_ready l then Ok (Ok (read_state_owned (lit key) s)) else Ok (Err StateMachineBehind)
              end
          end
      end
  end.

(** ** The cluster *)

(** A node's replica, and how many entries of the log its state covers. *)
Record ReplicaNode : Type := mkReplicaNode { nd_store : StateMachineStoreInner; nd_applied : nat }.

(** The committed log, the nodes, and the snapshots taken so far with the length of the log they cover. *)
Record Cluster : Type := mkCluster {
  cl_log : list Entry;
  cl_nodes : Z -> ReplicaNode;
  cl_snapshots : list (nat * SnapshotMeta * list Z);
}.

Definition set_node (n : Z) (node : ReplicaNode) (c : Cluster) : Cluster :=
  mkCluster (cl_log c) (fun m => if m =? n then node else cl_nodes c m) (cl_snapshots c).

Section Steps.
Variable encode : StateMachineData -> option (list Z).
Variable decode : list Z -> option StateMachineData.
(** The stores all nodes start from differ in what is local to them; [limit] is their retention. *)
Variable limit : nat.

Inductive cluster_step : Cluster -> Cluster -> Prop :=
(** An entry is committed behind the last one. *)
| step_commit c entry :
    (forall e, e ∈ cl_log c -> log_id_index (en_log_id e) < log_id_index (en_log_id entry)) ->
    cluster_step c (mkCluster (cl_log c ++ [entry]) (cl_nodes c) (cl_snapshots c))
(** A node applies the next entry, under settings of its own. *)
| step_apply c n local entry resp s' fx :
    cl_log c !! nd_applied (cl_nodes c n) = Some entry ->
    apply_entry local entry (nd_store (cl_nodes c n)) = Ret (resp, s', fx) ->
    cluster_step c (set_node n (mkReplicaNode s' (S (nd_applied (cl_nodes c n)))) c)
(** A node captures a snapshot. *)
| step_capture c n data :
    encode (capture_snapshot (nd_store (cl_nodes c n))).2 = Some data ->
    cluster_step c (mkCluster (cl_log c) (cl_nodes c)
      (cl_snapshots c ++ [(nd_applied (cl_nodes c n), (capture_snapshot (nd_store (cl_nodes c n))).1, data)]))
(** A node installs a snapshot any node captured, or restarts from one or from nothing. *)
| step_install c n k meta data s' :
    (k, meta, data) ∈ cl_snapshots c ->
    install_snapshot decode true meta data (nd_store (cl_nodes c n)) = (true, s') ->
    cluster_step c (set_node n (mkReplicaNode s' k) c)
| step_restart c n k meta data tap s' :
    (k, meta, data) ∈ cl_snapshots c -> open_store decode (Some (meta, data)) tap limit = Some s' ->
    cluster_step c (set_node n (mkReplicaNode s' k) c)
| step_restart_fresh c n tap s' :
    open_store decode None tap limit = Some s' -> cluster_step c (set_node n (mkReplicaNode s' 0) c).
End Steps.

(** The store a node opens on an empty directory. *)
Definition fresh_node (limit : nat) (s : StateMachineStoreInner) : Prop :=
  exists tap, open_store (fun _ => None) None tap limit = Some s.

(** A cluster as it starts. *)
Definition cluster_start (limit : nat) (c : Cluster) : Prop :=
  cl_log c = [] /\ cl_snapshots c = [] /\
  forall n, fresh_node limit (nd_store (cl_nodes c n)) /\ nd_applied (cl_nodes c n) = 0%nat.
End Reads.
