(* ===== verification/ReadsSpec.v ===== *)
(** * Correctness of reads

    Reads over a cluster of replicas: whatever is committed, applied, snapshotted, installed and
    restarted in whatever order, a read of replicated state is a view of one prefix of the committed log. *)

From stdpp Require Import list gmap strings relations.
From S2P Require Import Prelude BTree Fixed Order OrderBook MatchEvent StateMachine StateInv StateReads Replica Api Reads.

Section Guarantees.
Context `{RaftTypes} `{I256Ops} `{!I256Laws}.
Context (encode : StateMachineData -> option (list Z)) (decode : list Z -> option StateMachineData).
Context (codec : forall c data, encode c = Some data -> decode data = Some (serialized c)).
Context (limit : nat).
Implicit Types (s t : StateMachineStoreInner) (c : Cluster) (log : list Entry).

(** ** Replicas that agree are read alike *)

Lemma agree_trans s1 s2 s3 : agree false s1 s2 -> agree false s2 s3 -> agree false s1 s3.
Proof. intros [] []. split; try congruence. by etrans. Qed.

Lemma same_depth b b' side levels : same_book b b' -> depth side levels b' = depth side levels b.
Proof. intros []. unfold depth. by rewrite eq_bids, eq_asks. Qed.

Lemma read_agree key s s' :
  agree false s s' -> key <> lit "marketdata_status" -> read_state_owned key s' = read_state_owned key s.
Proof.
  intros [] Hk. unfold read_state_owned, depth_json, orders, spread, best_bid, best_ask.
  rewrite !(same_depth (orderbook s) (orderbook s')) by done.
  destruct ag_book. rewrite ag_config, eq_bids, eq_asks, eq_stops, eq_sequence, eq_last.
  by rewrite (bool_decide_eq_false_2 _ Hk).
Qed.

Lemma page_agree after n s s' : agree false s s' -> events_page after n s' = events_page after n s.
Proof. intros []. unfold events_page, events_since, oldest_event_id, last_event_id. by rewrite ag_events. Qed.

(** ** The reference replica *)

(** A replica that starts on an empty directory, without a feed, and applies a log. *)
Definition reference : NodeLocal := mkNodeLocal None 0.
Definition reference_store : StateMachineStoreInner := set_max_events limit Inner_default.

Definition log_state log t : Prop := exists rs fxs, apply reference log reference_store = Ret (rs, t, fxs).

Lemma apply_snoc node e : forall log s rs t fxs r t' fx,
  apply node log s = Ret (rs, t, fxs) -> apply_entry node e t = Ret (r, t', fx) ->
  apply node (log ++ [e]) s = Ret (rs ++ [r], t', fxs ++ [fx]).
Proof.
  induction log as [|e0 log IH]; intros s rs t fxs r t' fx; cbn [app apply].
  { intros [= <- <- <-] E. by rewrite E. }
  destruct (apply_entry node e0 s) as [[[r0 s0] fx0]| |]; cbn [comp_bind]; [|done|done].
  destruct (apply node log s0) as [[[rs1 t1] fxs1]| |] eqn:E1; cbn [comp_bind]; [|done|done].
  intros [= <- <- <-] E. by rewrite (IH _ _ _ _ _ _ _ E1 E).
Qed.

Lemma log_requests_app l l' : log_requests (l ++ l') = log_requests l ++ log_requests l'.
Proof. unfold log_requests. by rewrite fmap_app, concat_app. Qed.

(** What the state after a log is, and a replica that covers it. *)
Definition good_log log : Prop :=
  Forall request_typed (log_requests log) /\ Z.of_nat (length (log_requests log)) <= U64_MAX.

Record covers log s : Prop := {
  cv_ok : sm_ok s;
  cv_events : max_events s = limit;
  cv_submissions : max_submissions s = MAX_SUBMISSIONS;
  cv_applied : last_applied_log s = en_log_id <$> last log;
  cv_state : exists t, log_state log t /\ sm_ok t /\
    book_sequence (orderbook t) <= Z.of_nat (length (log_requests log)) /\ agree false t s;
}.

Lemma covers_fresh s : fresh_node limit s -> covers [] s.
Proof.
  intros [tap Eo]. unfold open_store in Eo. injection Eo as <-.
  assert (Hok0 : sm_ok reference_store) by apply (fresh_store_ok limit MAX_SUBMISSIONS).
  assert (Ha : agree false reference_store reference_store) by (split; done).
  destruct (tap_setting false reference_store reference_store tap (conj Hok0 Ha)) as [Hok Hag].
  split; [exact Hok|by destruct tap..|].
  exists reference_store. split; [by exists [], []|]. split; [done|]. split; [done|exact Hag].
Qed.

Lemma covers_apply log s local e r s' fx :
  good_log (log ++ [e]) -> covers log s -> apply_entry local e s = Ret (r, s', fx) -> covers (log ++ [e]) s'.
Proof.
  intros [Ht Hl] [Hs Hev Hsub _ (t & (rs & fxs & Et) & Hst & Hseq & Ha)] E.
  rewrite log_requests_app in Ht, Hl. rewrite length_app in Hl. apply Forall_app in Ht as [_ Ht].
  assert (Ee : log_requests [e] = entry_requests e) by (unfold log_requests; cbn; apply app_nil_r).
  rewrite Ee in Ht, Hl. assert (Hb : budget (length (entry_requests e)) t) by (unfold budget; lia).
  pose proof (apply_entry_agree false reference local e t s Hst Hs Ha Ht Hb) as Hr. rewrite E in Hr.
  pose proof (apply_entry_spec reference e t Hst Ht Hb) as Hxt.
  pose proof (apply_entry_spec local e s Hs Ht (agree_budget _ _ _ _ Ha Hb)) as Hxs. rewrite E in Hxs.
  destruct (apply_entry reference e t) as [[[r0 t'] fx0]| |] eqn:E0; [|done|done].
  destruct Hr as [_ Hag]. cbn [fst snd] in Hag. destruct Hxt as (_ & Hst' & evs & subs & Hg).
  destruct Hxs as (Hla & Hs' & evs' & subs' & Hg').
  pose proof (gr_sequence _ _ _ _ _ _ _ Hg) as Hq. cbn in Hq.
  split; [done| | | |].
  - rewrite <- Hev. apply (gr_limits _ _ _ _ _ _ _ Hg').
  - rewrite <- Hsub. apply (gr_limits _ _ _ _ _ _ _ Hg').
  - by rewrite last_snoc.
  - exists t'. split; [by exists (rs ++ [r0]), (fxs ++ [fx0]); eapply apply_snoc|]. split; [done|]. split; [|done].
    rewrite log_requests_app, length_app, Ee. lia.
Qed.

Lemma covers_restored log s s1 :
  covers log s -> sm_ok s1 -> agree false s s1 -> covers log s1.
Proof.
  intros [Hs Hev Hsub Hla (t & Ht & Hst & Hq & Ha)] Hs1 Ha1. split; [done| | | |].
  - by rewrite (ag_max_events _ _ _ Ha1).
  - by rewrite (ag_max_submissions _ _ _ Ha1).
  - by rewrite (ag_applied _ _ _ Ha1).
  - exists t. split; [done|]. split; [done|]. split; [done|]. by eapply agree_trans.
Qed.

(** ** The cluster *)

Definition cluster_run : Cluster -> Cluster -> Prop := rtc (cluster_step encode decode limit).

Definition log_before (e e' : Entry) : Prop := log_id_index (en_log_id e) < log_id_index (en_log_id e').

(** Every node and every snapshot covers a prefix of the log. *)
Record cluster_ok c : Prop := {
  co_sorted : StronglySorted log_before (cl_log c);
  co_nodes : forall n, (nd_applied (cl_nodes c n) <= length (cl_log c))%nat /\
    covers (take (nd_applied (cl_nodes c n)) (cl_log c)) (nd_store (cl_nodes c n));
  co_snapshots : forall k meta data, (k, meta, data) ∈ cl_snapshots c ->
    (k <= length (cl_log c))%nat /\ exists s, covers (take k (cl_log c)) s /\
      encode (to_content s) = Some data /\ meta = mkMeta (last_applied_log s) (last_membership s);
}.

Lemma cluster_start_ok c : cluster_start limit c -> cluster_ok c.
Proof.
  intros (El & Es & Hn). split.
  - rewrite El. constructor.
  - intros n. destruct (Hn n) as [Hf ->]. rewrite El. split; [done|]. by apply covers_fresh.
  - intros k meta data Hin. rewrite Es in Hin. by apply not_elem_of_nil in Hin.
Qed.

Lemma good_log_app log log' : good_log (log ++ log') -> good_log log.
Proof.
  unfold good_log. rewrite log_requests_app, length_app. intros [Ht Hl]. apply Forall_app in Ht as [Ht _].
  split; [done|lia].
Qed.

Lemma good_log_take k log : good_log log -> good_log (take k log).
Proof. intros Hg. apply (good_log_app _ (drop k log)). by rewrite take_drop. Qed.

(** A node moved to a prefix its new store covers. *)
Lemma set_node_ok c n s k :
  cluster_ok c -> (k <= length (cl_log c))%nat -> covers (take k (cl_log c)) s ->
  cluster_ok (set_node n (mkReplicaNode s k) c).
Proof.
  intros [Hsort Hn Hsn] Hk Hc. split; [done| |done]. intros m. unfold set_node. cbn [cl_nodes cl_log].
  destruct (m =? n); [by split|apply Hn].
Qed.

Lemma cluster_step_ok c c' : cluster_step encode decode limit c c' -> good_log (cl_log c') -> cluster_ok c -> cluster_ok c'.
Proof.
  intros Hstep Hg Hok. pose proof Hok as [Hsort Hn Hsn].
  destruct Hstep as [c entry Hnew|c n local entry resp s' fx He Ea|c n data He|c n k meta data s' Hin Hi|c n k meta data tap s' Hin Ho|c n tap s' Ho];
    cbn [cl_log] in Hg.
  - split; cbn [cl_log cl_nodes cl_snapshots].
    + apply strongly_sorted_app; [done|by repeat constructor|].
      intros a b Ha ->%list_elem_of_singleton. by apply Hnew.
    + intros m. destruct (Hn m) as [Hk Hc]. rewrite length_app, take_app_le by done. split; [lia|done].
    + intros k meta data Hin. destruct (Hsn _ _ _ Hin) as [Hk Hs]. rewrite length_app, take_app_le by done. split; [lia|done].
  - destruct (Hn n) as [Hk Hc]. pose proof (lookup_lt_Some _ _ _ He) as Hlt.
    apply set_node_ok; [done|lia|]. rewrite (take_S_r _ _ _ He). eapply covers_apply; [|done|exact Ea].
    rewrite <- (take_S_r _ _ _ He). by apply good_log_take.
  - split; [done|done|]. cbn [cl_log cl_nodes cl_snapshots]. intros k meta data' [Hin|Hin]%elem_of_app; [by apply Hsn|].
    apply list_elem_of_singleton in Hin as [= -> -> ->]. destruct (Hn n) as [Hk Hc]. split; [done|]. by eexists.
  - destruct (Hsn _ _ _ Hin) as [Hk (s & Hc & Eenc & ->)]. apply set_node_ok; [done|done|].
    pose proof Hc as [Hs Hev Hsub _ _]. destruct (Hn n) as [_ [_ Hev' Hsub' _ _]].
    destruct (install_snapshot_agree encode decode codec s (nd_store (cl_nodes c n)) data s' Hs Eenc) as [Hok' Ha];
      [congruence|congruence|exact Hi|]. by eapply covers_restored.
  - destruct (Hsn _ _ _ Hin) as [Hk (s & Hc & Eenc & ->)]. apply set_node_ok; [done|done|].
    pose proof Hc as [Hs Hev Hsub _ _]. rewrite <- Hev in Ho.
    destruct (open_store_agree encode decode codec s data tap s' Hs Eenc Hsub Ho) as [Hok' Ha]. by eapply covers_restored.
  - apply set_node_ok; [done|lia|]. apply covers_fresh. exists tap. exact Ho.
Qed.

Lemma step_log c c' : cluster_step encode decode limit c c' -> cl_log c `prefix_of` cl_log c'.
Proof. destruct 1; cbn [cl_log set_node]; try done. by eexists. Qed.

Lemma run_log c c' : cluster_run c c' -> cl_log c `prefix_of` cl_log c'.
Proof. induction 1 as [|c1 c2 c3 Hs _ IH]; [done|]. etrans; [by apply step_log|done]. Qed.

Lemma run_ok c c' : cluster_run c c' -> good_log (cl_log c') -> cluster_ok c -> cluster_ok c'.
Proof.
  intros Hrun. induction Hrun as [|c1 c2 c3 Hs Hrun IH]; intros Hg Hok; [done|]. apply IH; [done|].
  eapply cluster_step_ok; [done| |done]. destruct (run_log _ _ Hrun) as [rest E]. rewrite E in Hg.
  by eapply good_log_app.
Qed.

(** ** Reads *)

(** What openraft promises of a linearizer handed out in [c], and of a wait that ended well on [s]. *)
Definition linearizer_covers (l : LinearizerData) c : Prop :=
  forall e, e ∈ cl_log c -> log_id_index (en_log_id e) <= log_id_index (lz_read_log_id l).

Definition waits_for (await_ready : LinearizerData -> bool) s : Prop :=
  forall l, await_ready l = true ->
    exists id, last_applied_log s = Some id /\ log_id_index (lz_read_log_id l) <= log_id_index id.

Lemma waited_covers c n l c0 :
  cluster_ok c -> cl_log c0 `prefix_of` cl_log c -> linearizer_covers l c0 ->
  (exists id, last_applied_log (nd_store (cl_nodes c n)) = Some id /\ log_id_index (lz_read_log_id l) <= log_id_index id) ->
  (length (cl_log c0) <= nd_applied (cl_nodes c n))%nat.
Proof.
  intros Hok [rest El] Hl (id & Eid & Hid). destruct (co_nodes _ Hok n) as [Hk Hc].
  set (k := nd_applied (cl_nodes c n)) in *. destruct (decide (length (cl_log c0) <= k)%nat) as [|Hlt]; [done|exfalso].
  assert (Hkl : (k < length (cl_log c0))%nat) by lia.
  destruct (lookup_lt_is_Some_2 (cl_log c0) k Hkl) as [e He].
  pose proof (Hl e (list_elem_of_lookup_2 _ _ _ He)) as Hle.
  rewrite (cv_applied _ _ Hc) in Eid. destruct (last (take k (cl_log c))) as [e'|] eqn:Ela; [|done].
  injection Eid as Eid. pose proof (co_sorted _ Hok) as Hsort.
  assert (Hbefore : log_before e' e).
  { assert (Hin : e' ∈ take k (cl_log c)) by (by apply last_Some_elem_of).
    rewrite <- (take_drop k (cl_log c)) in Hsort. apply (strongly_sorted_app_inv _ _ _ Hsort); [done|].
    apply (list_elem_of_lookup_2 _ 0). rewrite lookup_drop, Nat.add_0_r, El. by rewrite lookup_app_l. }
  unfold log_before in Hbefore. subst id. lia.
Qed.

(** C7: Linearizable and follower reads of the replicated state are linearizable on every node. This is
    said of every key but [marketdata_status], which answers with the counters of the node that is asked
    and not with replicated state, and of clusters whose nodes start empty with the same event window and
    commit at most [U64_MAX] requests with typed fields. openraft is trusted for two things: the read id it hands out covers what was committed at that moment, and waiting for it
    ends only when the node has applied it. Let a read begin in [c1], let the linearizer it is served
    under be handed out in [c2], and let its state be read in [c3] on any node, through any commits,
    applies, snapshots, installs and restarts before and in between: its value is the view that one
    reference replica has after a prefix of the committed log, and this prefix has everything that was
    committed when the read began. So such a read sees every write acknowledged before it, and none sees
    less than one that ended before it began. *)
Theorem reads_linearizable c0 c1 c2 c3 n await_ready key value leader get_node fetch setup :
  cluster_start limit c0 -> cluster_run c0 c1 -> cluster_run c1 c2 -> cluster_run c2 c3 -> good_log (cl_log c3) ->
  (forall addr l, fetch addr = Some (get_linearizer (LinearizerGot l)) -> linearizer_covers l c2) ->
  (forall l, setup = LinearizerGot l -> linearizer_covers l c2) ->
  waits_for await_ready (nd_store (cl_nodes c3 n)) -> lit key <> lit "marketdata_status" ->
  follower_read await_ready leader get_node fetch key (nd_store (cl_nodes c3 n)) = Ok (Ok value) \/
    linearizable_read await_ready setup key (nd_store (cl_nodes c3 n)) = Ok (Ok value) ->
  exists k t, (length (cl_log c1) <= k <= length (cl_log c3))%nat /\ log_state (take k (cl_log c3)) t /\
    value = read_state_owned (lit key) t.
Proof.
  intros Hstart R1 R2 R3 Hg Hf Hset Hw Hk Hread.
  assert (R03 : cluster_run c0 c3) by (etrans; [exact R1|]; by etrans).
  pose proof (run_ok _ _ R03 Hg (cluster_start_ok _ Hstart)) as Hok.
  assert (Hserved : exists l, linearizer_covers l c2 /\ await_ready l = true /\
                      value = read_state_owned (lit key) (nd_store (cl_nodes c3 n))).
  { destruct Hread as [E|E]; revert E.
    - unfold follower_read. destruct (validate_read_key key); [|done]. destruct leader as [leader|]; [|done].
      destruct (get_node leader) as [addr|]; [|done]. destruct (fetch addr) as [[[l|[]]|]|] eqn:Ef; try done.
      destruct (await_ready l) eqn:Er; [|done]. intros [= <-]. exists l. split; [by eapply Hf|done].
    - unfold linearizable_read. destruct (validate_read_key key); [|done]. destruct setup as [| |l]; try done.
      destruct (await_ready l) eqn:Er; [|done]. intros [= <-]. exists l. split; [by apply Hset|done]. }
  destruct Hserved as (l & Hl & Hr & ->).
  pose proof (waited_covers c3 n l c2 Hok (run_log _ _ R3) Hl (Hw l Hr)) as Hge.
  pose proof (prefix_length _ _ (run_log _ _ R2)) as Hle.
  destruct (co_nodes _ Hok n) as [Hkn [_ _ _ _ (t & Ht & _ & _ & Ha)]].
  exists (nd_applied (cl_nodes c3 n)), t. split; [lia|]. split; [done|]. by apply read_agree.
Qed.

(** A local read may be behind, but for every key but [marketdata_status] it too is a view of one prefix
    of the committed log, and so is a page of events. *)
Theorem local_reads_see_prefix c0 c n :
  cluster_start limit c0 -> cluster_run c0 c -> good_log (cl_log c) ->
  exists k t, (k <= length (cl_log c))%nat /\ log_state (take k (cl_log c)) t /\
    (forall key value, lit key <> lit "marketdata_status" ->
       read key (nd_store (cl_nodes c n)) = Ok value -> value = read_state_owned (lit key) t) /\
    forall after size, events_page after size (nd_store (cl_nodes c n)) = events_page after size t.
Proof.
  intros Hs Hrun Hg. pose proof (run_ok _ _ Hrun Hg (cluster_start_ok _ Hs)) as Hok.
  destruct (co_nodes _ Hok n) as [Hkn [_ _ _ _ (t & Ht & _ & _ & Ha)]].
  exists (nd_applied (cl_nodes c n)), t. split; [done|]. split; [done|]. split.
  - intros key value Hk. unfold read. destruct (validate_read_key key); [|done]. intros [= <-]. by apply read_agree.
  - intros after size. by apply page_agree.
Qed.
End Guarantees.

(** ** A concrete run *)

#[local] Instance read_raft : RaftTypes :=
  {| LogId := Z; Membership := unit; StoredMembership := option Z; log_id_index := fun i => i;
     stored_membership_new := fun l _ => l; stored_membership_default := None |}.

Module ReadRuns.
Definition ask : Order := Order_new Sell (100 * SCALE) (5 * SCALE) 0.
Definition entry : Entry := mkEntry (1 : LogId) (Normal (Place ask None)).
Definition fresh : StateMachineStoreInner := reference_store 10.
Definition placed : StateMachineStoreInner :=
  match apply_entry reference entry fresh with Ret (_, s, _) => s | _ => fresh end.

(** A codec that knows one content. *)
Definition encode_one (c : StateMachineData) : option (list Z) :=
  if bool_decide (c = to_content placed) then Some [1] else None.
Definition decode_one (data : list Z) : option StateMachineData :=
  if bool_decide (data = [1]) then Some (serialized (to_content placed)) else None.

Lemma knows c data : encode_one c = Some data -> decode_one data = Some (serialized c).
Proof. unfold encode_one, decode_one. case_bool_decide as E; [|done]. intros [= <-]. by rewrite E. Qed.

Definition meta : SnapshotMeta := (capture_snapshot placed).1.
Definition installed : StateMachineStoreInner := (install_snapshot decode_one true meta [1] fresh).2.

(** The cluster as it starts; with one entry; when node 1 has applied it; with its snapshot; when node 2
    has installed that. *)
Definition c0 : Cluster := mkCluster [] (fun _ => mkReplicaNode fresh 0) [].
Definition c1 : Cluster := mkCluster [entry] (cl_nodes c0) [].
Definition c2 : Cluster := set_node 1 (mkReplicaNode placed 1) c1.
Definition c3 : Cluster := mkCluster [entry] (cl_nodes c2) [(1%nat, meta, [1])].
Definition c4 : Cluster := set_node 2 (mkReplicaNode installed 1) c3.

Definition linearizer : LinearizerData := mkLinearizer 1 (1 : LogId) None.
Definition leader_answer (addr : str) : option (Result (Result LinearizerData unit) ReadFailure) :=
  Some (get_linearizer (LinearizerGot linearizer)).

Definition caught_up (l : LinearizerData) : bool :=
  match last_applied_log installed with Some id => lz_read_log_id l <=? id | None => false end.

Lemma applies : exists r fx, apply_entry reference entry fresh = Ret (r, placed, fx).
Proof.
  assert (Hr : match apply_entry reference entry fresh with Ret _ => true | _ => false end = true) by (by vm_compute).
  unfold placed. destruct (apply_entry reference entry fresh) as [[[r s] fx]| |]; [by exists r, fx|done|done].
Qed.

#[local] Opaque apply_entry.

Lemma commits : cluster_run encode_one decode_one 10 c0 c1.
Proof. apply rtc_once. apply (step_commit encode_one decode_one 10 c0 entry). intros e Hin. by apply not_elem_of_nil in Hin. Qed.

Lemma follows : cluster_run encode_one decode_one 10 c1 c4.
Proof.
  eapply rtc_l; [|eapply rtc_l; [|apply rtc_once]].
  - destruct applies as (r & fx & E).
    refine (step_apply encode_one decode_one 10 c1 1 reference entry r placed fx eq_refl _). exact E.
  - apply (step_capture encode_one decode_one 10 c2 1 [1]). by vm_compute.
  - apply (step_install encode_one decode_one 10 c3 2 1 meta [1] installed); [by apply list_elem_of_singleton|].
    unfold installed. change (cl_nodes c3 2) with (mkReplicaNode fresh 0). cbn [nd_store].
    destruct (install_snapshot decode_one true meta [1] fresh) as [ok s] eqn:E. assert (ok = true) as ->; [|done].
    apply (f_equal fst) in E. cbn [fst] in E. rewrite <- E. by vm_compute.
Qed.
End ReadRuns.

(** A read on node 2, which has its state from a snapshot of node 1, under a linearizer of the leader. *)
Lemma reads_linearizable_witness :
  exists value t, follower_read ReadRuns.caught_up (Some 1) (fun _ => Some [])
      ReadRuns.leader_answer "orderbook_sequence"%string
      (nd_store (cl_nodes ReadRuns.c4 2)) = Ok (Ok value) /\
    value = RsText (lit "1") /\ log_state 10 [ReadRuns.entry] t /\ value = read_state_owned (lit "orderbook_sequence") t.
Proof.
  assert (Hread : follower_read ReadRuns.caught_up (Some 1) (fun _ => Some [])
      ReadRuns.leader_answer "orderbook_sequence"%string
      (nd_store (cl_nodes ReadRuns.c4 2)) = Ok (Ok (RsText (lit "1")))) by (by vm_compute).
  destruct (reads_linearizable ReadRuns.encode_one ReadRuns.decode_one ReadRuns.knows 10 ReadRuns.c0 ReadRuns.c1 ReadRuns.c1
    ReadRuns.c4 2 ReadRuns.caught_up "orderbook_sequence"%string (RsText (lit "1")) (Some 1) (fun _ => Some [])
    ReadRuns.leader_answer LinearizerRefused)
    as (k & t & Hk & Ht & Hv).
  - split; [done|]. split; [done|]. intros n. split; [by exists None|done].
  - apply ReadRuns.commits.
  - apply rtc_refl.
  - apply ReadRuns.follows.
  - split; [|by vm_compute]. constructor; [|constructor]. vm_compute. repeat split; discriminate.
  - intros addr l [= <-] e Hin. apply list_elem_of_singleton in Hin as ->. done.
  - done.
  - intros l Hl. unfold ReadRuns.caught_up in Hl. exists (1 : @LogId read_raft). split; [by vm_compute|].
    assert (El : last_applied_log ReadRuns.installed = Some (1 : @LogId read_raft)) by (by vm_compute).
    rewrite El in Hl. by apply Z.leb_le.
  - by vm_compute.
  - by left.
  - exists (RsText (lit "1")), t. split; [exact Hread|]. split; [done|]. split; [|exact Hv].
    assert (k = 1%nat) as -> by (cbn in Hk; lia). exact Ht.
Defined.
